(* ===== verification/_CoqProject ===== *)
-Q . S2P
Prelude.v
External.v
Wire.v
Adaptive.v
Fragment.v
Encoder.v
Window.v
Group.v
Reassembly.v
Decoder.v
Tunnel.v
QuicAuth.v
Carrier.v
ProductConfig.v
Planner.v
Filesystem.v
Transaction.v
Keyring.v
Balance.v
Relay.v
Traffic.v
Lanes.v
Session.v
Server.v
Delivery.v
Float64.v
Pacer.v
Pacing.v
Process.v
Startup.v
EndToEnd.v
