(* ===== verification/Prelude.v ===== *)
(** * Smart FEC tunnel: a verification library of its core

    The program carries UDP datagrams between a client and a server over lossy
    paths, with forward error correction, per-device encryption and an
    adaptive level of redundancy.  A second transport relays the same datagrams
    inside an authenticated QUIC connection, a TCP balancer spreads SOCKS5
    connections over several upstreams, and a small controller resolves a product
    configuration and deploys it as atomic revisions.

    ** Parts of the program and where they are modelled

    - src/src/main.rs, the tunnel.  [Wire]: [struct Frame], its V1/V2 and V3
      codecs and the two receive filters.  [Adaptive]: [struct Adaptive].
      [Fragment]: the fragment header shared by both ends.  [Encoder]: [struct
      Encoder].  [Window], [Group], [Reassembly], [Decoder]: [struct Decoder]
      with its sequence window, FEC groups and reassembly table.  [Session]:
      the handlers of [client] and [run_server_session] and the loops that seal
      and send frames.  [Server]: [server], its session table, admission,
      takeover, queues and clean-up.  [Keyring]: the key file parsers.
      [Balance]: the TCP balancer and its SOCKS5 dialogue.  [Pacer]: [struct
      Pacer], on [Float64], a model of Rust's [f64] and of the conversions of
      [Duration].  [Pacing]: [send_session_frames] of all workers through the
      pacer they share, step by step with [Server], and [send_frames] of the client
      through its own.  [Startup]: [Command], [main] and what each command checks
      and opens before its loop.
    - src/src/quic_auth.rs.  [QuicAuth]: proof envelopes and [ReplayCache].
    - src/src/quic_relay.rs.  [Carrier]: the carrier fragments
      ([CarrierReassembly], [send_carrier]) and the framing on streams.
      [Relay]: authentication of a connection, the datagram loops
      [relay_connection] and [relay_client_session] with the heartbeat, the
      statistics, the congestion controller and the delays of [run_client].
      [Lanes]: the stream lanes and their loops.  [Process]: [run_server] and
      [run_client] as processes, their endpoints and transport settings, and
      the pool of relaying tasks.
    - src/src/product_config.rs.  [ProductConfig].
    - src/src/controller.rs and src/src/bin/smart-gateway-controller.rs.
      [Planner]: [DeploymentPlan::build] and the command line tool.
      [Transaction]: [RevisionTransaction] and [write_pointer], over
      [Filesystem], a model of what they use of std::path and std::fs.
    - [Prelude] holds what all of them share: outcomes, methods, machine
      integers, bytes, slices, streams, tactics and hints; [External] the
      interfaces of the crates the program calls.  [Tunnel], [Delivery],
      [Traffic] and [EndToEnd] have no code of their own: they compose the
      components.

    ** How state and operations correspond

    A struct is a [Record], an enum an [Inductive], a handler or method one
    definition.  A method taking [&mut self] is a [method]: a function from the
    state to a result and the state left behind, also when it fails.  A result is
    [Ok], [Err] or [Panic]; slices, indexing and [unwrap] give [Panic] where
    Rust panics.  A w-bit integer is an [N] with its wrap-around or saturation
    written out ([add64], [as_u16], [sat_add64]); arithmetic wraps as in the
    release profile.  [Instant::now()], [unix_time()] and random draws are
    arguments: a clock is a function from the number of the reading to
    nanoseconds.  A [HashMap] is a [gmap], a [BTreeMap] a [gmap] iterated in key
    order, a [VecDeque] a list.  A [&str] is its list of Unicode scalar values where
    it is parsed, and its bytes where it is hashed.  A select! loop is one
    handler per branch and a sequence of events in any order (a call that fails is
    an event of its own where it ends the loop); a worker's bounded
    queue is a list of at most 256 packets, and the server, its workers and
    its timers interleave event by event.  A panic in a task's handler ends that
    task, in a loop the loop.  In [Server] a worker's turn sends its datagrams at
    once; in [Pacing] they wait one by one for the pacer's lock and others run in
    between, and what is sent is still what a run of [Server] sends ([server_paced]).  An [f64] is a rational, rounded
    after each operation as IEEE 754 rounds to nearest, or an infinity or NaN; the sign of
    zero, which no code here observes, is not kept.

    Code outside src/ is a parameter: [Crypto] (BLAKE3, XChaCha20-Poly1305) and
    [ErasureCode] (Reed-Solomon) with the laws [CryptoLaws], [ErasureShape] and
    [ErasureLaws], port probing, revision validators, the TLS exporter, dialling
    an upstream, and the failures of system calls (an oracle [fault]: any call may
    fail).  [toy_crypto] and [xor_code] are instances that satisfy the laws, so
    that every theorem is applied to concrete inputs by its witness.

    ** What the theorems show

    - End to end ([Delivery], [Tunnel], [EndToEnd]): what an application sends
      through a client reaches the service, each datagram once and unaltered,
      under any reordering, duplication and a bounded loss of the network and
      the server's other work, short of a takeover of the session; and the same
      for the answers; also when the tunnel's datagrams travel through the QUIC
      relay.  The client's loop ends only when receiving from the application fails.
    - Components: the codecs are exact inverses of each other and decode only what was
      sealed ([Wire]); groups and reassembly hand every datagram on exactly once
      ([Group], [Reassembly]); the decoder never panics and its tables stay
      bounded ([Decoder]); the window accounts for every sequence number
      ([Window]); the adaptive level stays in range and converges ([Adaptive]).
    - Server ([Server]): at most one live session per device and at most
      [max_sessions] in all, queues bounded, no handler panics; only what a device
      sealed changes its sessions, and no other's; and exactly when one session
      takes over from another, and what it starts with.
    - Pacing ([Pacer], [Pacing]): the bytes all sessions send together keep to the
      configured rate for every order of the pacer's lock, and no call waits longer
      than its bytes are due.
    - Authentication ([QuicAuth], [Relay], [Process]): which envelopes are
      accepted, that a proof is accepted once and opens one connection, and that
      both ends of a handshake agree.
    - Processes ([Process], [Startup]): the server process runs, for each
      connection, the loop of an admitted device and nothing else; the client
      never stops dialling; a started server serves exactly its key file.
    - Relay ([Carrier], [Relay], [Traffic], [Lanes]): the loops are total and
      their tables bounded; between the two ends nothing is lost that the
      network delivers, and nothing is forged or misdirected whatever it does;
      the heartbeat ends a session exactly when the path is dead; the reliable
      mode keeps order.
    - Balancer ([Balance]): the search for an upstream is a search through the
      rotation, healthy upstreams first, and spreads clients evenly.
    - Controller ([ProductConfig], [Planner], [Transaction]): resolution accepts
      exactly the sound configurations; the [current] pointer always names the
      last committed revision, at every point where a call can fail.
    - Parsers ([Keyring]): the two key file parsers agree, and read back what is
      written.

    Eight theorems show behaviour the code or its comments do not intend; each says
    so in its comment ([replay_redirects], [replayed_start_locks_out],
    [future_dated_replay], [failed_commit_blocks_retry], [server_accepts_v3],
    [one_percent_never_protected], [full_frame_never_fits],
    [server_serves_key_file]).

    ** Bounds

    Recursion is structural everywhere but in [chunks], whose fuel is the length
    of the list: each round takes at least one element, so it is enough
    ([chunks_concat]).  Batches in [Tunnel] and [Delivery] are at most one group
    of ten fragments within the group's life of two seconds, the unit the
    program protects.

    ** Not modelled

    The logging calls and module declarations; the parsing of arguments by clap, whose
    results are the values of [Command]; TLS and QUIC themselves and the reading
    of PEM files, which are parameters; socket errors the tunnel
    only logs; symbolic links and the Windows branch of [write_pointer].
    Where [sort_unstable] leaves entries of equal age in an unspecified order the
    model keeps key order. *)
From Stdlib Require Export NArith Lia Strings.Byte.
From stdpp Require Export base tactics decidable list gmap sets strings numbers.
Export list_basics.list list_relations.list list_monad.list list_misc.list list_numbers.list.

#[global] Open Scope N_scope.
#[global] Set Default Goal Selector "!".
#[global] Set Warnings "-clear-no-such-hyp".

(** ** Fallible computations

    A Rust function returning [Result<A, E>] is an [outcome E A].  [Panic] is
    the third way a Rust call can end: an out-of-range slice or index, or an
    [unwrap] of [None]. *)
Inductive outcome (E A : Type) :=
| Ok (a : A)
| Err (e : E)
| Panic.
Arguments Ok {_ _} _.
Arguments Err {_ _} _.
Arguments Panic {_ _}.

#[global] Instance outcome_ret {E} : MRet (outcome E) := fun A a => Ok a.
#[global] Instance outcome_bind {E} : MBind (outcome E) := fun A B f m =>
  match m with
  | Ok a => f a
  | Err e => Err e
  | Panic => Panic
  end.

(** [anyhow::Result]: the error is a message. *)
Abbreviation result := (outcome string).

Definition is_ok {E A} (m : outcome E A) : bool :=
  match m with Ok _ => true | _ => false end.

Definition no_panic {E A} (m : outcome E A) : Prop := m <> Panic.

(** A method [fn f(&mut self, ..) -> Result<A>]: the state it leaves behind is
    kept on an error too. *)
Definition method (S A : Type) : Type := S -> result A * S.

#[global] Instance method_ret {S} : MRet (method S) := fun A a s => (Ok a, s).
#[global] Instance method_bind {S} : MBind (method S) := fun A B f m s =>
  match m s with
  | (Ok a, s) => f a s
  | (Err e, s) => (Err e, s)
  | (Panic, s) => (Panic, s)
  end.

Definition get {S} : method S S := fun s => (Ok s, s).
Definition put {S} (s : S) : method S () := fun _ => (Ok (), s).
Definition modify {S} (f : S -> S) : method S () := fun s => (Ok (), f s).
Definition bail {S A} (e : string) : method S A := fun s => (Err e, s).
Definition lift {S A} (m : result A) : method S A := fun s => (m, s).

(** [Option::context] and [ok_or]. *)
Definition context {E A} (e : E) (o : option A) : outcome E A :=
  match o with Some a => Ok a | None => Err e end.

(** [Option::unwrap]. *)
Definition unwrap {E A} (o : option A) : outcome E A :=
  match o with Some a => Ok a | None => Panic end.

(** [v[i]], [v[i] = x] and [&v[i..j]] panic out of range. *)
Definition elem_at {E A} (v : list A) (i : nat) : outcome E A := unwrap (v !! i).

Definition index_set {A} (v : list A) (i : nat) (x : A) : result (list A) :=
  _ ← elem_at v i; Ok (<[i := x]> v).

Definition slice {E A} (v : list A) (i j : nat) : outcome E (list A) :=
  if bool_decide (i <= j)%nat && bool_decide (j <= length v)%nat
  then Ok (take (j - i) (drop i v)) else Panic.

(** [iter().filter(|x| x.is_some()).count()]. *)
Fixpoint count_some {A} (l : list (option A)) : nat :=
  match l with
  | [] => 0
  | Some _ :: l => S (count_some l)
  | None :: l => count_some l
  end.

(** ** Machine integers: [N] with the wrap-around written out *)
Definition U8 : N := 2 ^ 8.
Definition U16 : N := 2 ^ 16.
Definition U32 : N := 2 ^ 32.
Definition U64 : N := 2 ^ 64.

Definition as_u8 (n : N) : N := n mod U8.
Definition as_u16 (n : N) : N := n mod U16.
Definition as_u32 (n : N) : N := n mod U32.
Definition as_u64 (n : N) : N := n mod U64.

(** [x + y] on [u64] as the release profile compiles it, and
    [saturating_add] at the three widths; [saturating_sub] is [N.sub]. *)
Definition add64 (x y : N) : N := as_u64 (x + y).
Definition sat_add8 (x y : N) : N := N.min (x + y) (U8 - 1).
Definition sat_add64 (x y : N) : N := N.min (x + y) (U64 - 1).

(** ** Bytes, big-endian integers *)
#[global] Instance byte_eq_dec : EqDecision byte := Byte.byte_eq_dec.

#[global] Program Instance byte_countable : Countable byte :=
  inj_countable Byte.to_N Byte.of_N _.
Next Obligation. intros b. apply Byte.of_to_N. Qed.

Abbreviation bytes := (list byte).

Definition byte_of_N (n : N) : byte := default x00 (Byte.of_N (as_u8 n)).

(** [to_be_bytes] of a [k]-byte unsigned integer, [from_be_bytes]. *)
Fixpoint to_be_bytes (k : nat) (n : N) : bytes :=
  match k with
  | O => []
  | S k => to_be_bytes k (n / U8) ++ [byte_of_N n]
  end.

Definition from_be_bytes (l : bytes) : N :=
  foldl (fun acc b => acc * U8 + Byte.to_N b) 0 l.

Definition u16_be (n : N) : bytes := to_be_bytes 2 n.
Definition u32_be (n : N) : bytes := to_be_bytes 4 n.
Definition u64_be (n : N) : bytes := to_be_bytes 8 n.

(** [slice::chunks(n)], [n > 0]: consecutive pieces of [n] elements, the last
    one possibly shorter.  [length l] rounds are enough. *)
Fixpoint chunks_fuel {A} (fuel n : nat) (l : list A) : list (list A) :=
  match fuel, l with
  | O, _ | _, [] => []
  | S fuel, _ => take n l :: chunks_fuel fuel n (drop n l)
  end.

Definition chunks {A} (n : nat) (l : list A) : list (list A) := chunks_fuel (length l) n l.

(** [usize::div_ceil] *)
Definition div_ceil (x y : nat) : nat := (x / y + if (x mod y =? 0)%nat then 0 else 1)%nat.

(** [Vec::resize(n, 0)] *)
Definition resize (n : nat) (v : bytes) : bytes :=
  take n v ++ replicate (n - length v) x00.

(** A string literal as bytes ([b"..."]). *)
Definition bytes_of_string (s : string) : bytes := String.list_byte_of_string s.

(** ** Byte streams

    A stream is the bytes it still delivers; [read_exact] of [n] of them (an
    end of stream or an expired timer before that is an error) and [read_u8]. *)
Definition read_exact (n : nat) : method bytes bytes := fun stream =>
  if (length stream <? n)%nat then (Err "early eof"%string, [])
  else (Ok (take n stream), drop n stream).

Definition read_u8 : method bytes byte :=
  b ← read_exact 1; lift (elem_at b 0).

(** A connection is also what has been written to it, one entry per write. *)
Definition conn : Type := bytes * list bytes.

Definition hear {A} (m : method bytes A) : method conn A := fun '(s, written) =>
  let '(r, s) := m s in (r, (s, written)).
Definition say (b : bytes) : method conn () := fun '(s, written) => (Ok (), (s, written ++ [b])).

(** ** Tactics

    [simplify_res] reduces the monad on closed outcomes; [case_res H] splits
    the first fallible call under a bind in [H]. *)
Ltac simplify_res :=
  repeat match goal with
  | H : Ok _ = Ok _ |- _ => injection H as H; try subst
  | H : Err _ = Err _ |- _ => injection H as H; try subst
  | H : Ok _ = Err _ |- _ => discriminate H
  | H : Err _ = Ok _ |- _ => discriminate H
  | H : Panic = _ |- _ => discriminate H
  | H : _ = Panic |- _ => discriminate H
  | H : Some _ = Some _ |- _ => injection H as H; try subst
  | H : None = Some _ |- _ => discriminate H
  | H : Some _ = None |- _ => discriminate H
  | H : context [mbind _ (Ok _)] |- _ => cbn [mbind outcome_bind] in H
  | H : context [mbind _ (Err _)] |- _ => cbn [mbind outcome_bind] in H
  | H : context [mbind _ Panic] |- _ => cbn [mbind outcome_bind] in H
  end.

Ltac case_res H :=
  match type of H with
  | mbind _ ?m = _ =>
      let E := fresh "E" in
      destruct m eqn:E; cbn [mbind outcome_bind] in H; try discriminate H
  end.

Tactic Notation "case_res" hyp(H) "as" simple_intropattern(x) ident(E) :=
  match type of H with
  | mbind _ ?m = _ =>
      destruct m as [x| |] eqn:E; cbn [mbind outcome_bind] in H;
      [|discriminate H|discriminate H]
  end.

(** [case_guard H as E]: the early return tested by the [if] heading [H] was
    not taken. *)
Tactic Notation "case_guard" hyp(H) "as" ident(E) :=
  match type of H with
  | (if ?b then _ else _) = _ => destruct b eqn:E; [discriminate H|]
  end.

(** Case analysis on every [if] of the goal, innermost test first. *)
Ltac split_ifs :=
  repeat match goal with
  | |- context [if ?b then _ else _] =>
      lazymatch b with
      | context [if _ then _ else _] => fail
      | _ => let E := fresh "E" in destruct b eqn:E
      end
  end.

(** Boolean tests of the source turned into propositions. *)
Ltac bool_to_prop :=
  repeat match goal with
  | H : (_ || _)%bool = true |- _ => apply orb_true_iff in H
  | H : (_ || _)%bool = false |- _ => apply orb_false_iff in H as [? ?]
  | H : (_ && _)%bool = true |- _ => apply andb_true_iff in H as [? ?]
  | H : (_ && _)%bool = false |- _ => apply andb_false_iff in H
  | H : negb _ = true |- _ => apply negb_true_iff in H
  | H : negb _ = false |- _ => apply negb_false_iff in H
  | H : bool_decide _ = true |- _ => apply bool_decide_eq_true in H
  | H : bool_decide _ = false |- _ => apply bool_decide_eq_false in H
  | H : (_ =? _) = true |- _ => apply N.eqb_eq in H
  | H : (_ =? _) = false |- _ => apply N.eqb_neq in H
  | H : (_ <? _) = true |- _ => apply N.ltb_lt in H
  | H : (_ <? _) = false |- _ => apply N.ltb_ge in H
  | H : (_ <=? _) = true |- _ => apply N.leb_le in H
  | H : (_ <=? _) = false |- _ => apply N.leb_gt in H
  | H : (_ =? _)%nat = true |- _ => apply Nat.eqb_eq in H
  | H : (_ =? _)%nat = false |- _ => apply Nat.eqb_neq in H
  | H : (_ <? _)%nat = true |- _ => apply Nat.ltb_lt in H
  | H : (_ <? _)%nat = false |- _ => apply Nat.ltb_ge in H
  | H : (_ <=? _)%nat = true |- _ => apply Nat.leb_le in H
  | H : (_ <=? _)%nat = false |- _ => apply Nat.leb_gt in H
  end.

(** Open the plumbing of a [method]. *)
Ltac unfold_method :=
  unfold mbind, method_bind, get, put, modify, lift, bail, mret, method_ret; cbn beta iota zeta.

Lemma Ok_inj {E A} (x y : A) : Ok (E := E) x = Ok y -> x = y.
Proof. congruence. Qed.

Create HintDb sft.
Create Rewrite HintDb sft_len.

(** ** The widths *)
Lemma U8_val : U8 = 256. Proof. reflexivity. Qed.
Lemma U16_val : U16 = 65536. Proof. reflexivity. Qed.
Lemma U32_val : U32 = 4294967296. Proof. reflexivity. Qed.
Lemma U64_val : U64 = 18446744073709551616. Proof. reflexivity. Qed.

Ltac widths := rewrite ?U8_val, ?U16_val, ?U32_val, ?U64_val in *.
(** Linear arithmetic that knows the widths. *)
Ltac width_lia := unfold add64, sat_add8, sat_add64, as_u8, as_u16, as_u32, as_u64 in *; widths; lia.

(** The same with division and remainder by a constant. *)
Ltac div_lia := zify; Z.to_euclidean_division_equations; lia.

Lemma as_u64_small n : n < U64 -> as_u64 n = n.
Proof. intros. by apply N.mod_small. Qed.

Lemma as_u64_lt n : as_u64 n < U64.
Proof. by apply N.mod_lt. Qed.

Lemma as_u16_small n : n < U16 -> as_u16 n = n.
Proof. intros. by apply N.mod_small. Qed.

Lemma as_u8_small n : n < U8 -> as_u8 n = n.
Proof. intros. by apply N.mod_small. Qed.

Lemma add64_small x y : x + y < U64 -> add64 x y = x + y.
Proof. apply as_u64_small. Qed.

Lemma add64_lt x y : add64 x y < U64.
Proof. apply as_u64_lt. Qed.

#[export] Hint Resolve as_u64_lt add64_lt : sft.

(** ** Bytes *)
Lemma byte_to_N_lt b : Byte.to_N b < U8.
Proof. pose proof (Byte.to_N_bounded b). width_lia. Qed.

Lemma byte_to_of_N n : Byte.to_N (byte_of_N n) = n mod U8.
Proof.
  unfold byte_of_N, as_u8. assert (n mod U8 < U8) as H by (by apply N.mod_lt).
  destruct (Byte.of_N (n mod U8)) as [b|] eqn:E; simpl.
  - by apply Byte.to_of_N.
  - apply Byte.of_N_None_iff in E. width_lia.
Qed.

Lemma byte_of_to_N b : byte_of_N (Byte.to_N b) = b.
Proof.
  unfold byte_of_N. rewrite as_u8_small by apply byte_to_N_lt.
  by rewrite Byte.of_to_N.
Qed.

Lemma byte_to_of_N_small n : n < U8 -> Byte.to_N (byte_of_N n) = n.
Proof. intros. rewrite byte_to_of_N. by apply N.mod_small. Qed.

(** ** Big-endian integers *)
Lemma length_to_be_bytes k n : length (to_be_bytes k n) = k.
Proof.
  revert n. induction k as [|k IH]; intros n; simpl; [done|].
  rewrite length_app, IH. simpl. lia.
Qed.

Lemma from_be_bytes_snoc l b : from_be_bytes (l ++ [b]) = from_be_bytes l * U8 + Byte.to_N b.
Proof. unfold from_be_bytes. by rewrite foldl_app. Qed.

Lemma from_to_be_bytes k n : n < U8 ^ N.of_nat k -> from_be_bytes (to_be_bytes k n) = n.
Proof.
  revert n. induction k as [|k IH]; intros n Hn; simpl.
  - change (U8 ^ N.of_nat 0) with 1 in Hn. unfold from_be_bytes; simpl. lia.
  - rewrite from_be_bytes_snoc, byte_to_of_N, IH.
    + pose proof (N.div_mod n U8). width_lia.
    + apply N.Div0.div_lt_upper_bound.
      by rewrite Nat2N.inj_succ, N.pow_succ_r' in Hn.
Qed.

Lemma from_be_bytes_lt l : from_be_bytes l < U8 ^ N.of_nat (length l).
Proof.
  induction l as [|b l IH] using rev_ind; [done|].
  rewrite from_be_bytes_snoc, length_app, Nat.add_1_r, Nat2N.inj_succ, N.pow_succ_r'.
  pose proof (byte_to_N_lt b). nia.
Qed.

Lemma to_from_be_bytes l : to_be_bytes (length l) (from_be_bytes l) = l.
Proof.
  induction l as [|b l IH] using rev_ind; [done|].
  rewrite length_app, Nat.add_1_r. simpl. rewrite from_be_bytes_snoc.
  pose proof (byte_to_N_lt b) as Hb.
  assert ((from_be_bytes l * U8 + Byte.to_N b) / U8 = from_be_bytes l) as ->.
  { rewrite N.div_add_l by done. rewrite N.div_small by done. lia. }
  rewrite IH. f_equal. f_equal.
  unfold byte_of_N, as_u8. rewrite N.add_comm, N.Div0.mod_add, N.mod_small by done.
  by rewrite Byte.of_to_N.
Qed.

Lemma from_u16_be n : n < U16 -> from_be_bytes (u16_be n) = n.
Proof. intros. by apply from_to_be_bytes. Qed.

Lemma from_u32_be n : n < U32 -> from_be_bytes (u32_be n) = n.
Proof. intros. by apply from_to_be_bytes. Qed.

Lemma from_u64_be n : n < U64 -> from_be_bytes (u64_be n) = n.
Proof. intros. by apply from_to_be_bytes. Qed.

Lemma u16_be_from l : length l = 2%nat -> u16_be (from_be_bytes l) = l.
Proof. intros H. unfold u16_be. rewrite <- H. apply to_from_be_bytes. Qed.

Lemma u32_be_from l : length l = 4%nat -> u32_be (from_be_bytes l) = l.
Proof. intros H. unfold u32_be. rewrite <- H. apply to_from_be_bytes. Qed.

Lemma u64_be_from l : length l = 8%nat -> u64_be (from_be_bytes l) = l.
Proof. intros H. unfold u64_be. rewrite <- H. apply to_from_be_bytes. Qed.

Lemma from_be_u16_lt l : length l = 2%nat -> from_be_bytes l < U16.
Proof. intros H. pose proof (from_be_bytes_lt l) as Hl. by rewrite H in Hl. Qed.

Lemma from_be_u32_lt l : length l = 4%nat -> from_be_bytes l < U32.
Proof. intros H. pose proof (from_be_bytes_lt l) as Hl. by rewrite H in Hl. Qed.

Lemma from_be_u64_lt l : length l = 8%nat -> from_be_bytes l < U64.
Proof. intros H. pose proof (from_be_bytes_lt l) as Hl. by rewrite H in Hl. Qed.

Lemma length_u16_be n : length (u16_be n) = 2%nat.
Proof. apply length_to_be_bytes. Qed.

Lemma length_u32_be n : length (u32_be n) = 4%nat.
Proof. apply length_to_be_bytes. Qed.

Lemma length_u64_be n : length (u64_be n) = 8%nat.
Proof. apply length_to_be_bytes. Qed.

#[export] Hint Rewrite length_u16_be length_u32_be length_u64_be @length_app
  @length_replicate @length_take @length_drop @length_cons @length_nil : sft_len.
#[global] Opaque to_be_bytes u16_be u32_be u64_be.

(** Arithmetic on list lengths. *)
Ltac len := autorewrite with sft_len; lia.

(** ** Slices *)
Section slices.
Context {E A : Type}.
Implicit Types (v a b : list A) (i j k : nat).

Lemma slice_ok v i j :
  (i <= j <= length v)%nat -> slice (E := E) v i j = Ok (take (j - i) (drop i v)).
Proof. intros. unfold slice. by rewrite !bool_decide_true by lia. Qed.

Lemma slice_inv v i j x :
  slice (E := E) v i j = Ok x ->
  (i <= j <= length v)%nat /\ length x = (j - i)%nat /\ x = take (j - i) (drop i v).
Proof.
  unfold slice. intros H. repeat case_bool_decide; simpl in H; simplify_res.
  split; [lia|]. split; [|done]. rewrite length_take, length_drop. lia.
Qed.

Lemma slice_not_err v i j e : slice (E := E) v i j <> Err e.
Proof. unfold slice. by repeat case_bool_decide. Qed.

Lemma slice_bind_not_err {B} v i j (k : list A -> outcome E B) e :
  (forall x, k x <> Err e) -> (slice v i j ≫= k) <> Err e.
Proof.
  intros Hk. destruct (slice v i j) as [x|e'|] eqn:H; cbn; [apply Hk|by apply slice_not_err in H|done].
Qed.

Lemma slice_app_l a b i j :
  (j <= length a)%nat -> slice (E := E) (a ++ b) i j = slice a i j.
Proof.
  intros Hj. unfold slice. rewrite length_app.
  repeat case_bool_decide; try lia; try done. simpl. f_equal.
  destruct (decide (i <= length a)%nat); [|lia].
  rewrite drop_app_le by lia. by rewrite take_app_le by (rewrite length_drop; lia).
Qed.

Lemma slice_app_r a b i j :
  (length a <= i <= j)%nat ->
  slice (E := E) (a ++ b) i j = slice b (i - length a) (j - length a).
Proof.
  intros Hi. unfold slice. rewrite length_app.
  repeat case_bool_decide; try lia; try done. simpl.
  rewrite drop_app_ge by lia.
  by replace (j - length a - (i - length a))%nat with (j - i)%nat by lia.
Qed.

Lemma slice_full v j : length v = j -> slice (E := E) v 0 j = Ok v.
Proof. intros <-. rewrite slice_ok by lia. by rewrite Nat.sub_0_r, drop_0, take_ge by lia. Qed.

Lemma slice_cat v i j k x y :
  slice (E := E) v i j = Ok x -> slice (E := E) v j k = Ok y -> slice (E := E) v i k = Ok (x ++ y).
Proof.
  intros (Hi & _ & ->)%slice_inv (Hj & _ & ->)%slice_inv.
  rewrite slice_ok by lia. f_equal.
  replace (k - i)%nat with ((j - i) + (k - j))%nat by lia.
  rewrite <- take_take_drop, drop_drop. by replace (i + (j - i))%nat with j by lia.
Qed.

Lemma slice_all v x : slice (E := E) v 0 (length v) = Ok x -> x = v.
Proof. rewrite slice_full by done. congruence. Qed.

Lemma elem_at_ok v i x : v !! i = Some x -> elem_at (E := E) v i = Ok x.
Proof. unfold elem_at. by intros ->. Qed.

Lemma elem_at_inv v i x : elem_at (E := E) v i = Ok x -> v !! i = Some x.
Proof. unfold elem_at. destruct (v !! i); simpl; congruence. Qed.

Lemma elem_at_lt v i : (i < length v)%nat -> exists x, elem_at (E := E) v i = Ok x.
Proof. intros [x Hx]%lookup_lt_is_Some_2. exists x. by apply elem_at_ok. Qed.

Lemma elem_at_slice v i x : elem_at (E := E) v i = Ok x -> slice (E := E) v i (S i) = Ok [x].
Proof.
  intros Hx%elem_at_inv. pose proof (lookup_lt_Some _ _ _ Hx).
  rewrite slice_ok by lia. replace (S i - i)%nat with 1%nat by lia.
  by rewrite (drop_S _ _ _ Hx).
Qed.

Lemma elem_at_app_l a b i : (i < length a)%nat -> elem_at (E := E) (a ++ b) i = elem_at a i.
Proof. intros. unfold elem_at. by rewrite lookup_app_l. Qed.

Lemma elem_at_app_r a b i :
  (length a <= i)%nat -> elem_at (E := E) (a ++ b) i = elem_at b (i - length a).
Proof. intros. unfold elem_at. by rewrite lookup_app_r. Qed.
End slices.

Lemma slice_length {E A} (v : list A) i j x :
  slice (E := E) v i j = Ok x -> length x = (j - i)%nat.
Proof. by intros (_ & ? & _)%slice_inv. Qed.

(** Record the length of every slice taken. *)
Ltac slice_lengths :=
  repeat match goal with
  | H : slice _ _ _ = Ok ?x |- _ =>
      lazymatch goal with
      | _ : length x = _ |- _ => fail
      | _ => let L := fresh "L" in pose proof (slice_length _ _ _ _ H) as L
      end
  end.

(** [chain S E]: extend the slice [S] by the adjacent slice [E]. *)
Ltac chain S E :=
  let T := fresh in pose proof (slice_cat _ _ _ _ _ _ S E) as T; clear S; rename T into S.

(** No panic: every slice and index in range. *)
Section no_panic.
Context {E A B : Type}.
Implicit Types (v : list A).

Lemma no_panic_ok (x : A) : no_panic (E := E) (Ok x).
Proof. done. Qed.

Lemma no_panic_err (e : E) : no_panic (A := A) (Err e).
Proof. done. Qed.

Lemma no_panic_bind (m : outcome E A) (k : A -> outcome E B) :
  no_panic m -> (forall x, m = Ok x -> no_panic (k x)) -> no_panic (m ≫= k).
Proof. unfold no_panic. destruct m; simpl; auto. Qed.

Lemma no_panic_slice v i j (k : list A -> outcome E B) :
  (i <= j <= length v)%nat ->
  (forall x, length x = (j - i)%nat -> no_panic (k x)) -> no_panic (slice v i j ≫= k).
Proof.
  intros Hij Hk. rewrite slice_ok by done. apply Hk. rewrite length_take, length_drop. lia.
Qed.

Lemma no_panic_elem_at v i (k : A -> outcome E B) :
  (i < length v)%nat -> (forall x, no_panic (k x)) -> no_panic (elem_at v i ≫= k).
Proof. intros Hi Hk. destruct (elem_at_lt (E := E) v i Hi) as [x ->]. apply Hk. Qed.

Lemma no_panic_context (e : E) (o : option A) (k : A -> outcome E B) :
  (forall x, o = Some x -> no_panic (k x)) -> no_panic (context e o ≫= k).
Proof. unfold no_panic. destruct o; simpl; auto. Qed.

Lemma no_panic_if (b : bool) (m n : outcome E A) :
  (b = true -> no_panic m) -> (b = false -> no_panic n) -> no_panic (if b then m else n).
Proof. destruct b; auto. Qed.
End no_panic.

#[export] Hint Resolve no_panic_ok no_panic_err : sft.

(** Walk through a monadic body, leaving the bounds it cannot prove. *)
Ltac no_panic_step :=
  first
    [ apply no_panic_ok
    | apply no_panic_err
    | apply no_panic_slice; [try (bool_to_prop; lia)|intros ? ?]
    | apply no_panic_elem_at; [try (bool_to_prop; lia)|intros ?]
    | apply no_panic_context; intros ? ?
    | apply no_panic_if; intros ? ].
Ltac no_panics := repeat no_panic_step.

(** Resolve [slice] and [elem_at] on a concatenation whose leading segments
    have known lengths: each step drops a segment or stops at it. *)
Lemma slice_skip {E A} n (a b : list A) i j :
  length a = n -> Nat.leb n i = true -> Nat.leb i j = true ->
  slice (E := E) (a ++ b) i j = slice b (i - n) (j - n).
Proof. intros <- ?%Nat.leb_le ?%Nat.leb_le. by apply slice_app_r. Qed.

Lemma slice_here {E A} n (a b : list A) :
  length a = n -> slice (E := E) (a ++ b) 0 n = Ok a.
Proof. intros <-. rewrite slice_app_l by done. by apply slice_full. Qed.

Lemma slice_suffix {E A} n (a b : list A) :
  length a = n -> slice (E := E) (a ++ b) n (length (a ++ b)) = Ok b.
Proof.
  intros <-. rewrite slice_app_r by (rewrite length_app; lia).
  rewrite length_app, Nat.sub_diag. replace (length a + length b - length a)%nat with (length b) by lia.
  by apply slice_full.
Qed.

Lemma elem_at_skip {E A} n (a b : list A) i :
  length a = n -> Nat.leb n i = true ->
  elem_at (E := E) (a ++ b) i = elem_at b (i - n).
Proof. intros <- ?%Nat.leb_le. by apply elem_at_app_r. Qed.

Lemma elem_at_here {E A} (x : A) (b : list A) : elem_at (E := E) ([x] ++ b) 0 = Ok x.
Proof. done. Qed.

Ltac segment_length a :=
  lazymatch a with
  | u64_be _ => constr:(8%nat)
  | u32_be _ => constr:(4%nat)
  | u16_be _ => constr:(2%nat)
  | [_] => constr:(1%nat)
  | [] => constr:(0%nat)
  | _ => constr:(length a)
  end.
Ltac segment_proof a :=
  lazymatch a with
  | u64_be ?n => constr:(length_u64_be n)
  | u32_be ?n => constr:(length_u32_be n)
  | u16_be ?n => constr:(length_u16_be n)
  | [_] => constr:(eq_refl : length a = 1%nat)
  | _ => constr:(eq_refl (length a))
  end.
Ltac slice_step :=
  match goal with
  | |- context [slice (?a ++ ?b) ?i ?j] =>
      let n := segment_length a in
      let pf := segment_proof a in
      first
        [ rewrite (slice_skip n a b i j pf eq_refl eq_refl); cbn [Nat.sub]; rewrite ?Nat.sub_0_r
        | rewrite (slice_here n a b pf) ]
  | |- context [elem_at (?a ++ ?b) ?i] =>
      let n := segment_length a in
      let pf := segment_proof a in
      first
        [ rewrite (elem_at_skip n a b i pf eq_refl); cbn [Nat.sub]
        | rewrite (elem_at_here _ b) ]
  end.
Ltac slices := repeat slice_step.

(** ** Streams *)
Lemma read_exact_app n (a b : bytes) : length a = n -> read_exact n (a ++ b) = (Ok a, b).
Proof.
  intros <-. unfold read_exact. rewrite length_app, (proj2 (Nat.ltb_ge _ _)) by lia.
  by rewrite take_app_length, drop_app_length.
Qed.

Lemma read_exact_short n (s : bytes) : (length s < n)%nat -> read_exact n s = (Err "early eof"%string, []).
Proof. intros H. unfold read_exact. by rewrite (proj2 (Nat.ltb_lt _ _)). Qed.

Lemma read_u8_cons b (s : bytes) : read_u8 (b :: s) = (Ok b, s).
Proof. done. Qed.

Lemma hear_bind {A B} (m : method bytes A) (k : A -> method conn B) s w :
  (hear m ≫= k) (s, w) =
    match m s with (Ok a, s) => k a (s, w) | (Err e, s) => (Err e, (s, w)) | (Panic, s) => (Panic, (s, w)) end.
Proof. unfold mbind, method_bind, hear. by destruct (m s) as [[a|e|] s']. Qed.

Lemma say_bind {B} b (k : () -> method conn B) s w : (say b ≫= k) (s, w) = k () (s, w ++ [b]).
Proof. done. Qed.

(** ** Lists of options *)
Section options.
Context {A : Type}.
Implicit Types l : list (option A).

Lemma omap_id_Some {B} (l : list B) : omap id (Some <$> l) = l.
Proof. induction l as [|x l IH]; cbn; [done|]. by f_equal. Qed.

Lemma count_some_le l : (count_some l <= length l)%nat.
Proof. induction l as [|[x|] l IH]; simpl; lia. Qed.

Lemma count_some_full l :
  (length l <= count_some l)%nat -> exists xs, l = Some <$> xs.
Proof.
  induction l as [|[x|] l IH]; simpl; intros H.
  - by exists [].
  - destruct IH as [xs ->]; [lia|]. by exists (x :: xs).
  - pose proof (count_some_le l). lia.
Qed.

Lemma count_some_insert l i x :
  l !! i = Some None -> count_some (<[i := Some x]> l) = S (count_some l).
Proof.
  revert i. induction l as [|o l IH]; intros [|i] Hi; simpl in *; simplify_res.
  - done.
  - by destruct o; rewrite IH.
Qed.

Lemma count_some_replicate n : count_some (replicate n (@None A)) = 0%nat.
Proof. by induction n. Qed.
End options.

(** ** Chunks *)
Section chunks.
Context {A : Type}.
Implicit Types l : list A.

Lemma chunks_fuel_spec fuel n l :
  (0 < n)%nat -> (length l <= fuel)%nat ->
  concat (chunks_fuel fuel n l) = l /\
  Forall (fun c => 0 < length c <= n)%nat (chunks_fuel fuel n l) /\
  (n * (length (chunks_fuel fuel n l) - 1) < length l \/ l = [])%nat /\
  (length l <= n * length (chunks_fuel fuel n l))%nat.
Proof.
  intros Hn. revert l. induction fuel as [|fuel IH]; intros l Hl.
  - destruct l; [|simpl in Hl; lia]. simpl. split_and!; [done|done|by right|lia].
  - destruct l as [|x l]; [simpl; split_and!; [done|done|by right|lia]|].
    cbn [chunks_fuel]. set (v := x :: l) in *.
    assert (0 < length v)%nat by (cbn; lia).
    destruct (IH (drop n v)) as (H1 & H2 & H3 & H4); [rewrite length_drop; lia|].
    rewrite length_drop in *. cbn [concat length]. split_and!.
    + rewrite H1. apply take_drop.
    + constructor; [rewrite length_take; lia|done].
    + left. rewrite Nat.sub_succ, Nat.sub_0_r. destruct H3 as [H3|H3].
      * destruct (chunks_fuel fuel n (drop n v)) as [|c cs] eqn:E; [cbn in *; lia|].
        cbn [length] in *. rewrite Nat.sub_succ, Nat.sub_0_r in H3. nia.
      * rewrite H3. destruct fuel; cbn; lia.
    + nia.
Qed.

Lemma chunks_concat n l : (0 < n)%nat -> concat (chunks n l) = l.
Proof. intros. by apply chunks_fuel_spec. Qed.

Lemma chunks_length_each n l :
  (0 < n)%nat -> Forall (fun c => 0 < length c <= n)%nat (chunks n l).
Proof. intros. by apply chunks_fuel_spec. Qed.

Lemma div_ceil_unique x y q :
  (0 < y)%nat -> (y * q < x + y)%nat -> (x <= y * q)%nat -> div_ceil x y = q.
Proof.
  intros Hy H1 H2. unfold div_ceil.
  pose proof (Nat.div_mod_eq x y). pose proof (Nat.mod_upper_bound x y ltac:(lia)).
  destruct (Nat.eqb_spec (x mod y) 0); nia.
Qed.

Lemma div_ceil_le x y q : (0 < y)%nat -> (x <= y * q)%nat -> (div_ceil x y <= q)%nat.
Proof.
  intros Hy H. unfold div_ceil.
  pose proof (Nat.div_mod_eq x y). pose proof (Nat.mod_upper_bound x y ltac:(lia)).
  destruct (Nat.eqb_spec (x mod y) 0); nia.
Qed.

Lemma length_chunks n l : (0 < n)%nat -> l <> [] -> length (chunks n l) = div_ceil (length l) n.
Proof.
  intros Hn Hl. destruct (chunks_fuel_spec (length l) n l) as (_ & _ & H3 & H4); [done|done|].
  symmetry. apply div_ceil_unique; [done| |done]. unfold chunks.
  destruct H3 as [H3|]; [|done].
  destruct (length (chunks_fuel (length l) n l)); [lia|].
  rewrite Nat.sub_succ, Nat.sub_0_r in H3. nia.
Qed.
End chunks.

Lemma length_resize n v : length (resize n v) = n.
Proof. unfold resize. rewrite length_app, length_take, length_replicate. lia. Qed.

(** ** Lists given by a function of the position *)
Lemma lookup_tabulate {A} (f : nat -> A) n i : (i < n)%nat -> (f <$> seq 0 n) !! i = Some (f i).
Proof. intros. by rewrite list_lookup_fmap, lookup_seq_lt. Qed.

Lemma insert_tabulate {A} (f : nat -> A) n i x :
  <[i := x]> (f <$> seq 0 n) = (fun j => if bool_decide (j = i) then x else f j) <$> seq 0 n.
Proof.
  apply list_eq. intros j. destruct (decide (j < n)%nat) as [Hj|Hj].
  - rewrite (lookup_tabulate _ n j) by done. case_bool_decide as E.
    + subst. rewrite list_lookup_insert_eq; [done|]. by rewrite length_fmap, length_seq.
    + rewrite list_lookup_insert_ne by done. by apply lookup_tabulate.
  - rewrite !lookup_ge_None_2; [done|..]; rewrite ?length_insert, length_fmap, length_seq; lia.
Qed.

Lemma tabulate_ext {A} (f g : nat -> A) n :
  (forall i, (i < n)%nat -> f i = g i) -> f <$> seq 0 n = g <$> seq 0 n.
Proof.
  intros H. apply list_fmap_ext. intros i j Hj%lookup_seq. apply H. lia.
Qed.

(** ** Filters *)
Lemma filter_all {A} (P : A -> Prop) `{!forall x, Decision (P x)} (l : list A) :
  (forall x, x ∈ l -> P x) -> filter P l = l.
Proof.
  induction l as [|x l IH]; intros Hf; [done|]. rewrite filter_cons, decide_True by (apply Hf; left).
  f_equal. apply IH. intros y Hy. apply Hf. by right.
Qed.

Lemma filter_ext_elem {A} (P Q : A -> Prop) `{!forall x, Decision (P x), !forall x, Decision (Q x)} (l : list A) :
  (forall x, x ∈ l -> P x <-> Q x) -> filter P l = filter Q l.
Proof.
  induction l as [|x l IH]; intros Hf; [done|]. rewrite !filter_cons.
  rewrite IH by (intros y Hy; apply Hf; by right).
  pose proof (Hf x ltac:(left)). destruct (decide (P x)), (decide (Q x)); tauto.
Qed.

Lemma filter_none {A} (P : A -> Prop) `{!forall x, Decision (P x)} (l : list A) :
  (forall x, x ∈ l -> ~ P x) -> filter P l = [].
Proof.
  induction l as [|x l IH]; intros Hf; [done|]. rewrite filter_cons, decide_False by (apply Hf; left).
  apply IH. intros y Hy. apply Hf. by right.
Qed.
