(* ===== verification/External.v ===== *)
(** * External code the program calls

    The tunnel relies on three crates whose source is not part of the
    repository: [blake3], [chacha20poly1305] and [reed_solomon_erasure].  They
    appear in the model as the operations of two type classes, [Crypto] and
    [ErasureCode]; the documented behaviour the tunnel relies on is stated as
    laws ([CryptoLaws], [ErasureLaws]).  [toy_crypto] and [xor_code] are
    concrete executable instances that satisfy the laws; they are used only to
    evaluate the model on concrete inputs. *)
From S2P Require Import Prelude.

(** ** Hashing and authenticated encryption *)
Class Crypto := {
  (* [blake3::hash(m).as_bytes()] and [Hasher::new().update(m).finalize()] *)
  blake3_hash : bytes -> bytes;
  (* [Hasher::new_keyed(key).update(m).finalize()] *)
  blake3_keyed : bytes -> bytes -> bytes;
  (* [XChaCha20Poly1305::new(key).encrypt(nonce, p)], [None] for its error *)
  aead_encrypt : bytes -> bytes -> bytes -> option bytes;
  aead_decrypt : bytes -> bytes -> bytes -> option bytes;
}.

Class CryptoLaws (C : Crypto) : Prop := {
  blake3_hash_length : forall m, length (blake3_hash m) = 32%nat;
  blake3_keyed_length : forall k m, length (blake3_keyed k m) = 32%nat;
  aead_encrypt_length : forall k n p c,
    aead_encrypt k n p = Some c -> length c = (length p + 16)%nat;
  aead_encrypt_total : forall k n p,
    N.of_nat (length p) < U32 -> is_Some (aead_encrypt k n p);
  aead_roundtrip : forall k n p c,
    aead_encrypt k n p = Some c -> aead_decrypt k n c = Some p;
  aead_authentic : forall k n p c,
    aead_decrypt k n c = Some p -> aead_encrypt k n p = Some c;
}.

(** ** Erasure coding

    A [ReedSolomon] object is determined by its two shard counts, so the
    operations take them; [rs_reconstruct] returns the shards the call leaves
    behind and the call's result. *)
Class ErasureCode := {
  rs_new : nat -> nat -> result unit;
  rs_encode : nat -> nat -> list bytes -> result (list bytes);
  rs_reconstruct : nat -> nat -> list (option bytes) -> list (option bytes) * result unit;
}.

(** [got] is what is left of the shards [all] after some were lost. *)
Definition erased (got : list (option bytes)) (all : list bytes) : Prop :=
  Forall2 (fun o s => o = None \/ o = Some s) got all.

Class ErasureLaws (R : ErasureCode) (d p : nat) : Prop := {
  rs_new_ok : rs_new d p = Ok ();
  rs_encode_ok : forall (data pad : list bytes) len,
    (0 < len)%nat -> length data = d -> length pad = p ->
    Forall (fun s => length s = len) (data ++ pad) ->
    exists par, rs_encode d p (data ++ pad) = Ok (data ++ par)
      /\ length par = p /\ Forall (fun s => length s = len) par;
  rs_reconstruct_ok : forall shards all got,
    rs_encode d p shards = Ok all -> erased got all -> (d <= count_some got)%nat ->
    rs_reconstruct d p got = (Some <$> all, Ok ());
}.

(** Whatever it is given: [reconstruct] takes a mutable slice, so it cannot
    change the number of shards, and misuse is reported as an error. *)
Class ErasureShape (R : ErasureCode) : Prop := {
  rs_reconstruct_length : forall d p got, length (fst (rs_reconstruct d p got)) = length got;
  rs_reconstruct_no_panic : forall d p got, no_panic (snd (rs_reconstruct d p got));
  rs_new_no_panic : forall d p, no_panic (rs_new d p);
}.

(** ** A concrete [Crypto]: polynomial hash, identity cipher with a hash tag *)
Definition toy_mask : N := Eval vm_compute in N.ones 256.
Definition toy_factor : N := Eval vm_compute in 2 ^ 232 + 257.

Definition toy_hash (m : bytes) : bytes :=
  to_be_bytes 32 (foldl (fun acc b => N.land (acc * toy_factor + Byte.to_N b + 1) toy_mask) 7 m).

Definition toy_tag (k n p : bytes) : bytes := take 16 (toy_hash (k ++ n ++ p)).

#[global] Instance toy_crypto : Crypto := {
  blake3_hash := toy_hash;
  blake3_keyed k m := toy_hash (k ++ m);
  aead_encrypt k n p := Some (p ++ toy_tag k n p);
  aead_decrypt k n c :=
    let p := take (length c - 16) c in
    if bool_decide (c = p ++ toy_tag k n p) then Some p else None;
}.

Lemma length_toy_hash m : length (toy_hash m) = 32%nat.
Proof. apply length_to_be_bytes. Qed.

Lemma length_toy_tag k n p : length (toy_tag k n p) = 16%nat.
Proof. unfold toy_tag. rewrite length_take, length_toy_hash. lia. Qed.

#[global] Instance toy_crypto_laws : CryptoLaws toy_crypto.
Proof.
  split; intros; cbn in *; simplify_res.
  - apply length_toy_hash.
  - apply length_toy_hash.
  - by rewrite length_app, length_toy_tag.
  - eauto.
  - rewrite length_app, length_toy_tag, Nat.add_sub, take_app_length.
    by rewrite bool_decide_true.
  - case_bool_decide as Hc; simplify_res. by rewrite <- Hc.
Qed.

(** ** A concrete [ErasureCode]: one xor parity shard *)
Definition xor_byte (a b : byte) : byte := byte_of_N (N.lxor (Byte.to_N a) (Byte.to_N b)).
Definition xor_shard (a b : bytes) : bytes := zip_with xor_byte a b.
Definition xor_all (len : nat) (l : list bytes) : bytes := foldr xor_shard (replicate len x00) l.

Definition shard_len (l : list bytes) : nat := default 0%nat (length <$> head l).

#[global] Instance xor_code : ErasureCode := {
  rs_new d p := if bool_decide (p = 1%nat) then Ok () else Err "unsupported"%string;
  rs_encode d p l :=
    if bool_decide (p = 1%nat /\ length l = S d /\ Forall (fun s => length s = shard_len l) l)
    then Ok (take d l ++ [xor_all (shard_len l) (take d l)])
    else Err "incorrect shards"%string;
  rs_reconstruct d p got :=
    if bool_decide (d <= count_some got)%nat then
      let have := omap id got in
      (Some <$> (default (xor_all (shard_len have) have) <$> got), Ok ())
    else (got, Err "too few shards present"%string);
}.

Lemma N_lxor_lt_U8 a b : a < U8 -> b < U8 -> N.lxor a b < U8.
Proof.
  intros Ha Hb. destruct (decide (N.lxor a b = 0)) as [->|Hne]; [done|].
  change U8 with (2 ^ 8) in *. apply N.log2_lt_pow2; [lia|].
  assert (forall x, x < 2 ^ 8 -> N.log2 x < 8) as Hlog.
  { intros x Hx. destruct (decide (x = 0)) as [->|]; [done|].
    apply N.log2_lt_pow2; [lia|done]. }
  pose proof (N.log2_lxor a b). pose proof (Hlog a Ha). pose proof (Hlog b Hb). lia.
Qed.

Lemma byte_to_N_inj a b : Byte.to_N a = Byte.to_N b -> a = b.
Proof. intros H. by rewrite <- (byte_of_to_N a), <- (byte_of_to_N b), H. Qed.

Lemma xor_byte_to_N a b : Byte.to_N (xor_byte a b) = N.lxor (Byte.to_N a) (Byte.to_N b).
Proof. apply byte_to_of_N_small, N_lxor_lt_U8; apply byte_to_N_lt. Qed.

Lemma xor_byte_comm a b : xor_byte a b = xor_byte b a.
Proof. unfold xor_byte. by rewrite N.lxor_comm. Qed.

Lemma xor_byte_assoc a b c : xor_byte a (xor_byte b c) = xor_byte (xor_byte a b) c.
Proof. apply byte_to_N_inj. by rewrite !xor_byte_to_N, N.lxor_assoc. Qed.

Lemma xor_byte_0_r a : xor_byte a x00 = a.
Proof. apply byte_to_N_inj. rewrite xor_byte_to_N. apply N.lxor_0_r. Qed.

Lemma xor_byte_diag a : xor_byte a a = x00.
Proof. apply byte_to_N_inj. rewrite xor_byte_to_N. apply N.lxor_nilpotent. Qed.

Lemma length_xor_shard a b len :
  length a = len -> length b = len -> length (xor_shard a b) = len.
Proof. intros. unfold xor_shard. rewrite length_zip_with. lia. Qed.

Lemma xor_shard_comm a b : xor_shard a b = xor_shard b a.
Proof.
  unfold xor_shard. revert b. induction a as [|x a IH]; intros [|y b]; simpl; try done.
  by rewrite IH, xor_byte_comm.
Qed.

Lemma xor_shard_assoc a b c : xor_shard a (xor_shard b c) = xor_shard (xor_shard a b) c.
Proof.
  unfold xor_shard. revert b c. induction a as [|x a IH]; intros [|y b] [|z c]; simpl; try done.
  by rewrite IH, xor_byte_assoc.
Qed.

Lemma xor_shard_0_r a len : length a = len -> xor_shard a (replicate len x00) = a.
Proof.
  intros <-. unfold xor_shard. induction a as [|x a IH]; simpl; [done|].
  by rewrite IH, xor_byte_0_r.
Qed.

Lemma xor_shard_diag a : xor_shard a a = replicate (length a) x00.
Proof.
  unfold xor_shard. induction a as [|x a IH]; simpl; [done|]. by rewrite IH, xor_byte_diag.
Qed.

Lemma length_xor_all len l : Forall (fun s => length s = len) l -> length (xor_all len l) = len.
Proof.
  induction 1 as [|s l Hs _ IH]; simpl; [apply length_replicate|].
  by apply length_xor_shard.
Qed.

Lemma xor_all_middle len l1 x l2 :
  xor_all len (l1 ++ x :: l2) = xor_shard x (xor_all len (l1 ++ l2)).
Proof.
  induction l1 as [|y l1 IH]; simpl; [done|].
  by rewrite IH, !xor_shard_assoc, (xor_shard_comm y x).
Qed.

(** The shard missing from a codeword is the xor of the others. *)
Lemma xor_all_missing len data l1 x l2 :
  Forall (fun s => length s = len) data ->
  data ++ [xor_all len data] = l1 ++ x :: l2 -> length x = len ->
  xor_all len (l1 ++ l2) = x.
Proof.
  intros Hlen Heq Hx.
  assert (xor_all len (data ++ [xor_all len data]) = replicate len x00) as Hzero.
  { rewrite xor_all_middle, app_nil_r, xor_shard_diag. by rewrite length_xor_all. }
  rewrite Heq, xor_all_middle in Hzero.
  assert (length (xor_all len (l1 ++ l2)) = len) as Hl.
  { apply length_xor_all. assert (Forall (fun s => length s = len) (l1 ++ x :: l2)) as HF.
    { rewrite <- Heq. apply Forall_app; split; [done|]. constructor; [|done].
      by apply length_xor_all. }
    apply Forall_app in HF as [? HF]. inversion HF; subst. by apply Forall_app. }
  apply (f_equal (xor_shard x)) in Hzero.
  rewrite xor_shard_assoc, xor_shard_diag, xor_shard_0_r in Hzero by done.
  rewrite xor_shard_comm, Hx, xor_shard_0_r in Hzero by done. done.
Qed.

(** With at most one shard lost, either nothing is missing or one place is. *)
Lemma erased_one got all :
  erased got all -> (length all <= S (count_some got))%nat ->
  got = Some <$> all \/
  exists l1 x l2, all = l1 ++ x :: l2 /\ got = (Some <$> l1) ++ None :: (Some <$> l2).
Proof.
  induction 1 as [|o s got all [->| ->] Hrest IH]; intros Hlen; [by left|..].
  - right. exists [], s, all. split; [done|]. simpl in *. f_equal.
    assert (length got = length all) as Hl by (by eapply Forall2_length).
    destruct (count_some_full got) as [xs ->]; [lia|]. f_equal.
    apply Forall2_fmap_l in Hrest. clear -Hrest.
    induction Hrest as [|x y xs ys [?|[= ->]] ? IH]; [done|done|]. simpl. by f_equal.
  - simpl in Hlen. destruct IH as [->|(l1 & x & l2 & -> & ->)]; [lia|by left|].
    right. by exists (s :: l1), x, l2.
Qed.

Lemma default_Some {A} (x : A) (l : list A) : default x <$> (Some <$> l) = l.
Proof. induction l as [|y l IH]; [done|]. cbn. by f_equal. Qed.

(** [xor_code] corrects one loss among any [d >= 1] shards. *)
Lemma xor_code_laws d : (0 < d)%nat -> ErasureLaws xor_code d 1.
Proof.
  intros Hd. split.
  - done.
  - intros data pad len Hlen Hdata Hpad HF.
    assert (shard_len (data ++ pad) = len) as Hsl.
    { destruct data as [|s data]; [simpl in *; lia|]. by inversion HF. }
    cbn. rewrite Hsl. exists [xor_all len data].
    rewrite bool_decide_true by (rewrite length_app; split_and!; [done|lia|done]).
    rewrite take_app_le, take_ge by lia. split_and!; [done|done|].
    apply Forall_app in HF as [HF _]. constructor; [by apply length_xor_all|done].
  - intros shards all got Henc Her Hp. cbn in *.
    case_bool_decide as Hc; simplify_res. destruct Hc as (_ & Hl & HF).
    rewrite bool_decide_true by done. set (len := shard_len shards) in *.
    set (data := take d shards) in *.
    assert (Forall (fun s => length s = len) data) as HFd by (by apply Forall_take).
    assert (Forall (fun s => length s = len) (data ++ [xor_all len data])) as HFa.
    { apply Forall_app; split; [done|]. constructor; [by apply length_xor_all|done]. }
    f_equal. f_equal.
    destruct (erased_one got (data ++ [xor_all len data])) as [->|(l1 & x & l2 & Hall & ->)];
      [done| |by rewrite default_Some|].
    { rewrite length_app. unfold data. rewrite length_take. simpl. lia. }
    assert (length x = len) as Hx.
    { rewrite Hall in HFa. apply Forall_app in HFa as [_ HFa]. by inversion HFa. }
    rewrite omap_app. cbn. rewrite !omap_id_Some, fmap_app, fmap_cons, !default_Some, Hall.
    cbn. f_equal. f_equal.
    assert (shard_len (l1 ++ l2) = len) as ->.
    { rewrite Hall in HFa. apply Forall_app in HFa as [HF1 HF2].
      destruct l1 as [|s l1]; [|by inversion HF1]. destruct l2 as [|s l2].
      - apply (f_equal length) in Hall. rewrite length_app in Hall. unfold data in Hall.
        rewrite length_take in Hall. simpl in Hall. lia.
      - inversion HF2 as [|??? HF3]. by inversion HF3. }
    by apply (xor_all_missing len data l1 x l2).
Qed.

#[global] Instance xor_code_shape : ErasureShape xor_code.
Proof.
  split; intros; cbn; case_bool_decide; try done. cbn. by rewrite !length_fmap.
Qed.
