(* ===== verification/Wire.v ===== *)
(** * The wire protocol (src/src/main.rs)

    Module [Frame] models [struct Frame] and its codecs: the plain V1/V2 format
    authenticated by a keyed hash ([encode]/[decode]) and the encrypted V3
    envelope ([encode_wire]/[decode_v3]); the two dispatchers
    [decode_client_frame] and [decode_server_frame] follow.  Random draws
    (the V3 nonce and selector suffix) are arguments. *)
From S2P Require Import Prelude External.

(** ** Protocol constants *)
Definition MAGIC : N := 0x53464543.
Definition VERSION_V1 : N := 1.
Definition VERSION_V2 : N := 2.
Definition VERSION_V3 : N := 3.
Definition KIND_DATA : N := 1.
Definition KIND_PARITY : N := 2.
Definition KIND_REPORT : N := 3.
Definition HEADER : nat := 36.
Definition HEADER_V2 : nat := 44.
Definition V3_SELECTOR : nat := 8.
Definition V3_SELECTOR_PREFIX : nat := 4.
Definition V3_NONCE : nat := 24.
Definition V3_INNER_HEADER : nat := 31.
Definition TAG : nat := 16.

Module Frame.
Record t := mk {
  version : N;
  key_id : N;
  kind : N;
  session : N;
  sequence : N;
  group : N;
  index : N;
  data : N;
  parity : N;
  payload : bytes;
}.

(** The ranges the field types impose ([u8], [u16], [u64]), and a payload whose
    length the 16-bit length field can carry. *)
Definition wf (f : t) : Prop :=
  version f < U8 /\ key_id f < U64 /\ kind f < U8 /\ session f < U64 /\
  sequence f < U64 /\ group f < U64 /\ index f < U16 /\ data f < U8 /\
  parity f < U8 /\ N.of_nat (length (payload f)) < U16.


(** What [Frame::encode] writes before the tag. *)
Definition untagged (f : t) : bytes :=
  u32_be MAGIC ++ [byte_of_N (version f)] ++ [byte_of_N (kind f)]
  ++ (if version f =? VERSION_V2 then u64_be (key_id f) else [])
  ++ u64_be (session f) ++ u64_be (sequence f) ++ u64_be (group f)
  ++ u16_be (index f) ++ [byte_of_N (data f)] ++ [byte_of_N (parity f)]
  ++ u16_be (as_u16 (N.of_nat (length (payload f)))) ++ payload f.

Section codec.
Context {C : Crypto}.

(** [Frame::encode] *)
Definition encode (f : t) (key : bytes) : bytes :=
  let out := untagged f in
  out ++ take TAG (blake3_keyed key out).

(** [Frame::decode] *)
Definition decode (buf key : bytes) : result t :=
  if (length buf <? 6 + TAG)%nat then Err "short frame"%string else
  version_byte ← elem_at buf 4;
  let version := Byte.to_N version_byte in
  '(header, key_id, offset) ←
    (if version =? VERSION_V1 then Ok (HEADER, 0, 6%nat)
     else if version =? VERSION_V2 then
       if (length buf <? HEADER_V2 + TAG)%nat then Err "short v2 frame"%string else
       id ← slice buf 6 14;
       Ok (HEADER_V2, from_be_bytes id, 14%nat)
     else Err "bad protocol version"%string);
  if (length buf <? header + TAG)%nat then Err "short frame"%string else
  let body_len := (length buf - TAG)%nat in
  body ← slice buf 0 body_len;
  tag ← slice buf body_len (length buf);
  if negb (bool_decide (take TAG (blake3_keyed key body) = tag)) then Err "bad auth"%string else
  magic ← slice buf 0 4;
  if negb (from_be_bytes magic =? MAGIC) then Err "bad protocol"%string else
  len_bytes ← slice buf (offset + 28) (offset + 30);
  let payload_len := N.to_nat (from_be_bytes len_bytes) in
  if negb (header + payload_len + TAG =? length buf)%nat then Err "bad length"%string else
  kind ← elem_at buf 5;
  session ← slice buf offset (offset + 8);
  sequence ← slice buf (offset + 8) (offset + 16);
  group ← slice buf (offset + 16) (offset + 24);
  index ← slice buf (offset + 24) (offset + 26);
  data ← elem_at buf (offset + 26);
  parity ← elem_at buf (offset + 27);
  payload ← slice buf header (header + payload_len);
  Ok (mk version key_id (Byte.to_N kind) (from_be_bytes session) (from_be_bytes sequence)
        (from_be_bytes group) (from_be_bytes index) (Byte.to_N data) (Byte.to_N parity) payload).

(** [v3_selector_prefix] *)
Definition v3_selector_prefix (key_id : N) : bytes :=
  take V3_SELECTOR_PREFIX
    (blake3_hash (bytes_of_string "smart-fec-v3-selector" ++ u64_be key_id)).

(** The plaintext [encode_wire] encrypts. *)
Definition inner_bytes (f : t) : bytes :=
  [byte_of_N (kind f)] ++ u64_be (session f) ++ u64_be (sequence f) ++ u64_be (group f)
  ++ u16_be (index f) ++ [byte_of_N (data f)] ++ [byte_of_N (parity f)]
  ++ u16_be (as_u16 (N.of_nat (length (payload f)))) ++ payload f.

(** [Frame::encode_wire], with the nonce and the selector suffix drawn *)
Definition encode_wire (f : t) (key nonce random_suffix : bytes) : result bytes :=
  if negb (version f =? VERSION_V3) then Ok (encode f key) else
  ciphertext ← context "v3 encryption failed"%string (aead_encrypt key nonce (inner_bytes f));
  Ok (v3_selector_prefix (key_id f) ++ random_suffix ++ nonce ++ ciphertext).

(** [Frame::decode_v3] *)
Definition decode_v3 (buf : bytes) (key_id : N) (key : bytes) : result t :=
  bad_prefix ←
    (if (length buf <? V3_SELECTOR + V3_NONCE + V3_INNER_HEADER + TAG)%nat then Ok true else
     prefix ← slice buf 0 V3_SELECTOR_PREFIX;
     Ok (negb (bool_decide (prefix = v3_selector_prefix key_id))));
  if (bad_prefix : bool) then Err "invalid v3 envelope"%string else
  nonce ← slice buf V3_SELECTOR (V3_SELECTOR + V3_NONCE);
  ciphertext ← slice buf (V3_SELECTOR + V3_NONCE) (length buf);
  inner ← context "v3 authentication failed"%string (aead_decrypt key nonce ciphertext);
  if (length inner <? V3_INNER_HEADER)%nat then Err "short v3 payload"%string else
  len_bytes ← slice inner 29 31;
  let payload_len := N.to_nat (from_be_bytes len_bytes) in
  if negb (V3_INNER_HEADER + payload_len =? length inner)%nat then Err "bad v3 length"%string else
  kind ← elem_at inner 0;
  session ← slice inner 1 9;
  sequence ← slice inner 9 17;
  group ← slice inner 17 25;
  index ← slice inner 25 27;
  data ← elem_at inner 27;
  parity ← elem_at inner 28;
  payload ← slice inner V3_INNER_HEADER (length inner);
  Ok (mk VERSION_V3 key_id (Byte.to_N kind) (from_be_bytes session) (from_be_bytes sequence)
        (from_be_bytes group) (from_be_bytes index) (Byte.to_N data) (Byte.to_N parity) payload).
End codec.
End Frame.

(** [buf.starts_with(prefix)] *)
Definition starts_with (buf prefix : bytes) : bool :=
  bool_decide (take (length prefix) buf = prefix).

Section dispatch.
Context {C : Crypto}.

(** [decode_client_frame] *)
Definition decode_client_frame (buf : bytes) (key_id : N) (key : bytes) : result Frame.t :=
  if starts_with buf (u32_be MAGIC) then Frame.decode buf key
  else Frame.decode_v3 buf key_id key.

(** [decode_server_frame]; the legacy key and the keyring are unused by the
    source too *)
Definition decode_server_frame (buf : bytes) (_legacy_key : option bytes)
    (_keyring : gmap N bytes) (selectors : gmap bytes (N * bytes)) : result (Frame.t * bytes) :=
  if negb (starts_with buf (u32_be MAGIC)) then
    if (length buf <? V3_SELECTOR)%nat then Err "short v3 envelope"%string else
    prefix ← slice buf 0 V3_SELECTOR_PREFIX;
    '(key_id, selected) ← context "unknown v3 selector"%string (selectors !! prefix);
    frame ← Frame.decode_v3 buf key_id selected;
    Ok (frame, selected)
  else Err "legacy V1/V2 protocol removed"%string.
End dispatch.

(** ** Lemmas *)
Section wire_lemmas.
Context {C : Crypto} {L : CryptoLaws C}.

Lemma length_mac_tag key m : length (take TAG (blake3_keyed key m)) = TAG.
Proof. rewrite length_take, blake3_keyed_length. done. Qed.

Lemma length_v3_selector_prefix id : length (Frame.v3_selector_prefix id) = V3_SELECTOR_PREFIX.
Proof. unfold Frame.v3_selector_prefix. rewrite length_take, blake3_hash_length. done. Qed.

(** [encode] writes what [decode] reads. *)
Definition plain (f : Frame.t) : Prop :=
  (Frame.version f = VERSION_V1 /\ Frame.key_id f = 0) \/ Frame.version f = VERSION_V2.


(** The header fields of the plain format sit at [offset]. *)
Definition header_size (f : Frame.t) : nat :=
  if Frame.version f =? VERSION_V2 then HEADER_V2 else HEADER.

Lemma length_untagged f :
  length (Frame.untagged f) = (header_size f + length (Frame.payload f))%nat.
Proof.
  unfold Frame.untagged, header_size. destruct (_ =? _); autorewrite with sft_len.
  - unfold HEADER_V2. lia.
  - unfold HEADER. lia.
Qed.


(** The fields of an encoded frame, read back from where they are written. *)
Definition field_offset (f : Frame.t) : nat :=
  if Frame.version f =? VERSION_V2 then 14%nat else 6%nat.

Lemma untagged_fields f tl (buf := Frame.untagged f ++ tl) (off := field_offset f) :
  slice (E := string) buf 0 4 = Ok (u32_be MAGIC) /\
  elem_at (E := string) buf 4 = Ok (byte_of_N (Frame.version f)) /\
  elem_at (E := string) buf 5 = Ok (byte_of_N (Frame.kind f)) /\
  (Frame.version f = VERSION_V2 -> slice (E := string) buf 6 14 = Ok (u64_be (Frame.key_id f))) /\
  slice (E := string) buf off (off + 8) = Ok (u64_be (Frame.session f)) /\
  slice (E := string) buf (off + 8) (off + 16) = Ok (u64_be (Frame.sequence f)) /\
  slice (E := string) buf (off + 16) (off + 24) = Ok (u64_be (Frame.group f)) /\
  slice (E := string) buf (off + 24) (off + 26) = Ok (u16_be (Frame.index f)) /\
  elem_at (E := string) buf (off + 26) = Ok (byte_of_N (Frame.data f)) /\
  elem_at (E := string) buf (off + 27) = Ok (byte_of_N (Frame.parity f)) /\
  slice (E := string) buf (off + 28) (off + 30)
    = Ok (u16_be (as_u16 (N.of_nat (length (Frame.payload f))))) /\
  slice (E := string) buf (header_size f) (header_size f + length (Frame.payload f))
    = Ok (Frame.payload f).
Proof.
  subst buf off. unfold Frame.untagged, field_offset, header_size.
  destruct (N.eqb_spec (Frame.version f) VERSION_V2); rewrite <- !app_assoc;
    unfold HEADER, HEADER_V2;
    split_and!; intros; try congruence; cbn [Nat.add]; slices; reflexivity.
Qed.

Lemma decode_encode f key : Frame.wf f -> plain f -> Frame.decode (Frame.encode f key) key = Ok f.
Proof.
  intros (Hv & Hid & Hkd & Hss & Hsq & Hgr & Hix & Hd & Hp & Hpl) Hplain.
  unfold Frame.encode. pose proof (length_mac_tag key (Frame.untagged f)) as Htag.
  pose proof (length_untagged f) as Hout.
  set (tag := take TAG _) in *.
  destruct (untagged_fields f tag)
    as (Emg & Ev & Ek & Eid & Ess & Esq & Egr & Eix & Ed & Ep & El & Epl).
  rewrite as_u16_small in El by done.
  unfold Frame.decode. cbv zeta. rewrite length_app, Htag, Nat.add_sub.
  rewrite (slice_app_l _ tag 0 (length (Frame.untagged f))), (slice_full (Frame.untagged f)) by done.
  rewrite (slice_app_r _ tag (length (Frame.untagged f))) by lia.
  rewrite Nat.sub_diag, (slice_full tag) by lia.
  rewrite Ev, Emg, Ek, Hout. cbn [mbind outcome_bind].
  rewrite (byte_to_of_N_small (Frame.version f)), (from_u32_be MAGIC) by done.
  assert (HEADER <= header_size f)%nat as Hh by (unfold header_size; case_match; cbv; lia).
  rewrite (proj2 (Nat.ltb_ge _ (6 + TAG))) by (unfold HEADER, TAG in *; lia).
  set (head := if _ =? VERSION_V1 then _ else _).
  assert (head = Ok (header_size f, Frame.key_id f, field_offset f)) as ->.
  { subst head. unfold header_size, field_offset in *.
    destruct Hplain as [[-> ->]|Hv2]; [done|]. rewrite Eid by done. rewrite !Hv2.
    change (VERSION_V2 =? VERSION_V1) with false. change (VERSION_V2 =? VERSION_V2) with true.
    cbn iota. rewrite (proj2 (Nat.ltb_ge _ _)) by lia.
    cbn [mbind outcome_bind]. by rewrite from_u64_be. }
  cbn [mbind outcome_bind].
  rewrite (proj2 (Nat.ltb_ge _ _)) by lia.
  rewrite bool_decide_true by done. cbn [negb].
  rewrite N.eqb_refl, El, Ess, Esq, Egr, Eix, Ed, Ep. cbn [negb mbind outcome_bind].
  rewrite from_u16_be, Nat2N.id, Nat.eqb_refl by done. cbn [negb].
  rewrite Epl. cbn [mbind outcome_bind].
  rewrite !byte_to_of_N_small, !from_u64_be, from_u16_be by done.
  by destruct f.
Qed.

(** A frame rebuilt from the segments of a buffer encodes to those segments. *)
Lemma untagged_parts vb id kd ss sq gr ix dt pr lb pl ib :
  (if Byte.to_N vb =? VERSION_V2 then u64_be id else []) = ib ->
  length ss = 8%nat -> length sq = 8%nat -> length gr = 8%nat -> length ix = 2%nat ->
  length lb = 2%nat -> N.of_nat (length pl) = from_be_bytes lb ->
  Frame.untagged (Frame.mk (Byte.to_N vb) id (Byte.to_N kd) (from_be_bytes ss)
    (from_be_bytes sq) (from_be_bytes gr) (from_be_bytes ix) (Byte.to_N dt) (Byte.to_N pr) pl)
  = u32_be MAGIC ++ [vb] ++ [kd] ++ ib ++ ss ++ sq ++ gr ++ ix ++ [dt] ++ [pr] ++ lb ++ pl.
Proof.
  intros Hib Hss Hsq Hgr Hix Hlb Hpl. unfold Frame.untagged.
  cbn [Frame.version Frame.key_id Frame.kind Frame.session Frame.sequence Frame.group
    Frame.index Frame.data Frame.parity Frame.payload].
  pose proof (from_be_u16_lt lb Hlb).
  by rewrite Hib, Hpl, as_u16_small, !byte_of_to_N, !u64_be_from, !u16_be_from by done.
Qed.

Lemma parsed_wf v id kd ss sq gr ix dt pr lb pl :
  id < U64 -> length ss = 8%nat -> length sq = 8%nat -> length gr = 8%nat -> length ix = 2%nat ->
  length lb = 2%nat -> N.of_nat (length pl) = from_be_bytes lb -> v < U8 ->
  Frame.wf (Frame.mk v id (Byte.to_N kd) (from_be_bytes ss)
    (from_be_bytes sq) (from_be_bytes gr) (from_be_bytes ix) (Byte.to_N dt) (Byte.to_N pr) pl).
Proof.
  intros. unfold Frame.wf. cbn. pose proof (from_be_u16_lt lb).
  split_and!; auto using byte_to_N_lt, from_be_u64_lt, from_be_u16_lt. rewrite H5. auto.
Qed.

(** Whatever [decode] accepts, [encode] would have produced. *)
Lemma decode_inv buf key f :
  Frame.decode buf key = Ok f -> Frame.wf f /\ plain f /\ buf = Frame.encode f key.
Proof.
  unfold Frame.decode. cbv zeta. intros H.
  case_guard H as Hshort. case_res H as vb Ev.
  case_res H as [[header id] off] Ehead.
  case_guard H as Hlen. case_res H as body Ebody. case_res H as tag Etag.
  case_guard H as Hauth. case_res H as mg Emg. case_guard H as Hmagic.
  case_res H as lb El. case_guard H as Hpl.
  case_res H as kd Ek. case_res H as ss Ess. case_res H as sq Esq. case_res H as gr Egr.
  case_res H as ix Eix. case_res H as dt Ed. case_res H as pr Ep. case_res H as pl Epl.
  simplify_res. bool_to_prop.
  assert (exists ib, slice (E := string) buf 6 off = Ok ib /\
    (if Byte.to_N vb =? VERSION_V2 then u64_be id else []) = ib /\ id < U64 /\
    header = (off + 30)%nat /\
    (Byte.to_N vb = VERSION_V1 /\ id = 0 \/ Byte.to_N vb = VERSION_V2)) as (ib & Eib & Hib & Hid & -> & Hv).
  { destruct (N.eqb_spec (Byte.to_N vb) VERSION_V1) as [Hv|].
    - simplify_res. exists []. rewrite Hv. split_and!; [|done..|by left].
      rewrite slice_ok by lia. by rewrite Nat.sub_diag.
    - destruct (N.eqb_spec (Byte.to_N vb) VERSION_V2) as [Hv|]; [|discriminate].
      case_guard Ehead as Hv2. case_res Ehead as ib Eib. simplify_res. exists ib.
      apply slice_inv in Eib as Lib. destruct Lib as (_ & Lib & _).
      split_and!; [done|by apply u64_be_from|by apply from_be_u64_lt|done|by right]. }
  apply elem_at_slice in Ev, Ek, Ed, Ep. slice_lengths.
  assert (mg = u32_be MAGIC) as ->.
  { rewrite <- Hmagic. symmetry. apply u32_be_from. lia. }
  replace (S (off + 26))%nat with (off + 27)%nat in Ed by lia.
  replace (S (off + 27))%nat with (off + 28)%nat in Ep by lia.
  split; [|split].
  - apply (parsed_wf _ _ _ _ _ _ _ _ _ lb); auto using byte_to_N_lt; lia.
  - unfold plain. cbn. destruct Hv as [[? ?]|?]; auto.
  - unfold Frame.encode. rewrite (untagged_parts _ _ _ _ _ _ _ _ _ lb pl ib) by (done || lia).
    match goal with |- _ = ?x ++ _ => assert (x = body) as -> end.
    { apply (Ok_inj (E := string)). rewrite <- Ebody.
      replace (length buf - TAG)%nat with (off + 30 + N.to_nat (from_be_bytes lb))%nat by lia.
      symmetry. repeat (eapply slice_cat; [eassumption|]). eassumption. }
    rewrite Hauth. symmetry. apply (slice_all (E := string)). by eapply slice_cat.
Qed.

(** The V3 plaintext, read back from where it is written. *)
Lemma inner_fields f (buf := Frame.inner_bytes f) (n := length (Frame.payload f)) :
  length buf = (V3_INNER_HEADER + n)%nat /\
  elem_at (E := string) buf 0 = Ok (byte_of_N (Frame.kind f)) /\
  slice (E := string) buf 1 9 = Ok (u64_be (Frame.session f)) /\
  slice (E := string) buf 9 17 = Ok (u64_be (Frame.sequence f)) /\
  slice (E := string) buf 17 25 = Ok (u64_be (Frame.group f)) /\
  slice (E := string) buf 25 27 = Ok (u16_be (Frame.index f)) /\
  elem_at (E := string) buf 27 = Ok (byte_of_N (Frame.data f)) /\
  elem_at (E := string) buf 28 = Ok (byte_of_N (Frame.parity f)) /\
  slice (E := string) buf 29 31 = Ok (u16_be (as_u16 (N.of_nat n))) /\
  slice (E := string) buf V3_INNER_HEADER (length buf) = Ok (Frame.payload f).
Proof.
  subst buf n. unfold Frame.inner_bytes. assert (length (Frame.inner_bytes f)
    = V3_INNER_HEADER + length (Frame.payload f))%nat as Hlen.
  { unfold Frame.inner_bytes, V3_INNER_HEADER. len. }
  split; [done|]. unfold Frame.inner_bytes in Hlen. rewrite Hlen. unfold V3_INNER_HEADER.
  split_and!; cbn [Nat.add]; slices; try reflexivity. by apply slice_full.
Qed.

Lemma inner_parts v id kd ss sq gr ix dt pr lb pl :
  length ss = 8%nat -> length sq = 8%nat -> length gr = 8%nat -> length ix = 2%nat ->
  length lb = 2%nat -> N.of_nat (length pl) = from_be_bytes lb ->
  Frame.inner_bytes (Frame.mk v id (Byte.to_N kd) (from_be_bytes ss)
    (from_be_bytes sq) (from_be_bytes gr) (from_be_bytes ix) (Byte.to_N dt) (Byte.to_N pr) pl)
  = [kd] ++ ss ++ sq ++ gr ++ ix ++ [dt] ++ [pr] ++ lb ++ pl.
Proof.
  intros Hss Hsq Hgr Hix Hlb Hpl. unfold Frame.inner_bytes.
  cbn [Frame.version Frame.key_id Frame.kind Frame.session Frame.sequence Frame.group
    Frame.index Frame.data Frame.parity Frame.payload].
  pose proof (from_be_u16_lt lb Hlb).
  by rewrite Hpl, as_u16_small, !byte_of_to_N, !u64_be_from, !u16_be_from by done.
Qed.

Lemma decode_encode_v3 f key nonce suffix w :
  Frame.wf f -> Frame.version f = VERSION_V3 ->
  length nonce = V3_NONCE -> length suffix = V3_SELECTOR_PREFIX ->
  Frame.encode_wire f key nonce suffix = Ok w -> Frame.decode_v3 w (Frame.key_id f) key = Ok f.
Proof.
  intros (Hv & Hid & Hkd & Hss & Hsq & Hgr & Hix & Hd & Hp & Hpl) Hv3 Hn Hs.
  unfold Frame.encode_wire. rewrite Hv3. cbn [negb N.eqb VERSION_V3 Pos.eqb].
  destruct (aead_encrypt _ _ _) as [ct|] eqn:Hct; [|done].
  cbn [mbind outcome_bind context]. intros <-%Ok_inj.
  destruct (inner_fields f) as (Hlen & Ek & Ess & Esq & Egr & Eix & Ed & Ep & El & Epl).
  pose proof (aead_encrypt_length _ _ _ _ Hct) as Hctl.
  pose proof (length_v3_selector_prefix (Frame.key_id f)) as Hpre.
  set (pre := Frame.v3_selector_prefix _) in *.
  unfold Frame.decode_v3. fold pre. rewrite !length_app, Hpre, Hs, Hn, Hctl, Hlen.
  rewrite (proj2 (Nat.ltb_ge _ _)) by (unfold V3_SELECTOR, V3_NONCE, V3_INNER_HEADER, V3_SELECTOR_PREFIX, TAG; lia).
  rewrite (slice_app_l pre _ 0), (slice_full pre) by (done || lia).
  cbn [mbind outcome_bind]. rewrite bool_decide_true by done. cbn [negb].
  unfold V3_SELECTOR, V3_SELECTOR_PREFIX, V3_NONCE in *.
  rewrite !(slice_app_r pre), !(slice_app_r suffix), Hpre, Hs by lia.
  rewrite (slice_app_l nonce ct (8 - 4 - 4)), (slice_app_r nonce), Hn by lia.
  rewrite (slice_full nonce), (slice_full ct) by lia. cbn [mbind outcome_bind].
  rewrite (aead_roundtrip _ _ _ _ Hct). cbn [mbind outcome_bind context].
  rewrite (proj2 (Nat.ltb_ge _ _)) by lia.
  rewrite El, Ek, Ess, Esq, Egr, Eix, Ed, Ep, Epl. cbn [mbind outcome_bind].
  rewrite as_u16_small, from_u16_be, Nat2N.id, Hlen, Nat.eqb_refl by done. cbn [negb].
  rewrite !byte_to_of_N_small, !from_u64_be, from_u16_be by done.
  rewrite <- Hv3. by destruct f.
Qed.

(** Whatever [decode_v3] accepts is the sealed envelope of the frame it returns. *)
Lemma decode_v3_inv buf id key f :
  id < U64 -> Frame.decode_v3 buf id key = Ok f ->
  Frame.wf f /\ Frame.version f = VERSION_V3 /\ Frame.key_id f = id /\
  exists nonce suffix, length nonce = V3_NONCE /\ length suffix = V3_SELECTOR_PREFIX /\
    Frame.encode_wire f key nonce suffix = Ok buf.
Proof.
  unfold Frame.decode_v3. cbv zeta. intros Hid H.
  case_res H as bad Ebad. case_guard H as Hbad. subst bad.
  case_guard Ebad as Hlen. case_res Ebad as pre Epre. apply Ok_inj in Ebad.
  case_res H as nonce En. case_res H as ct Ect. case_res H as inner Einner.
  case_guard H as Hilen. case_res H as lb El. case_guard H as Hpl.
  case_res H as kd Ek. case_res H as ss Ess. case_res H as sq Esq. case_res H as gr Egr.
  case_res H as ix Eix. case_res H as dt Ed. case_res H as pr Ep. case_res H as pl Epl.
  simplify_res. bool_to_prop. subst pre. unfold V3_SELECTOR in *.
  destruct (aead_decrypt key nonce ct) as [inner'|] eqn:Hdec; [|done].
  cbn [context] in Einner. apply Ok_inj in Einner as ->.
  pose proof (aead_authentic _ _ _ _ Hdec) as Henc.
  apply elem_at_slice in Ek, Ed, Ep. slice_lengths.
  assert (N.of_nat (length pl) = from_be_bytes lb) as Hpll by (unfold V3_INNER_HEADER in *; lia).
  assert (exists suffix, slice (E := string) buf V3_SELECTOR_PREFIX 8 = Ok suffix) as [sfx Esfx].
  { eexists. apply slice_ok. unfold V3_SELECTOR_PREFIX. lia. }
  slice_lengths. split_and!; [|done|done|exists nonce, sfx].
  - apply (parsed_wf _ _ _ _ _ _ _ _ _ lb); auto; by unfold VERSION_V3.
  - split_and!; [lia|by unfold V3_SELECTOR_PREFIX in *|].
    unfold Frame.encode_wire. cbn [negb N.eqb VERSION_V3 Pos.eqb Frame.version Frame.key_id].
    rewrite (inner_parts _ _ _ _ _ _ _ _ _ lb pl) by (done || lia).
    match goal with |- context [aead_encrypt _ _ ?x] => assert (x = inner) as -> end.
    { apply (slice_all (E := string)).
      repeat (eapply slice_cat; [eassumption|]). eassumption. }
    rewrite Henc. cbn [context mbind outcome_bind]. f_equal.
    apply (slice_all (E := string)). repeat (eapply slice_cat; [eassumption|]). eassumption.
Qed.

Lemma decode_no_panic buf key : no_panic (Frame.decode buf key).
Proof.
  unfold Frame.decode. cbv zeta. apply no_panic_if; intros Hshort; [done|]. bool_to_prop.
  apply no_panic_elem_at; [lia|]. intros vb. apply no_panic_bind.
  { unfold HEADER_V2, TAG in *. no_panics. }
  intros [[header id] off] Hhead.
  assert (header = off + 30)%nat as ->.
  { destruct (_ =? _); [by simplify_res|]. destruct (_ =? _); [|done].
    case_guard Hhead as Hv2. case_res Hhead as ib Eib. by simplify_res. }
  unfold TAG in *. no_panics.
Qed.

Lemma decode_v3_no_panic buf id key : no_panic (Frame.decode_v3 buf id key).
Proof.
  unfold Frame.decode_v3. cbv zeta.
  unfold V3_SELECTOR, V3_NONCE, V3_INNER_HEADER, TAG, V3_SELECTOR_PREFIX.
  destruct (length buf <? _)%nat eqn:Hlen; [done|]. bool_to_prop. cbn [mbind outcome_bind].
  apply no_panic_bind; [no_panics|]. intros bad _. no_panics.
Qed.

Lemma starts_with_app p l : starts_with (p ++ l) p = true.
Proof. unfold starts_with. by rewrite take_app_length, bool_decide_true. Qed.

Lemma starts_with_prefix p q l :
  length p = length q -> starts_with (p ++ l) q = bool_decide (p = q).
Proof.
  intros H. unfold starts_with. rewrite <- H, take_app_length. done.
Qed.
End wire_lemmas.

(** ** Properties *)

(** C27: [Frame::decode] accepts exactly the byte strings [Frame::encode]
    produces for V1/V2 frames under the same key: decoding inverts encoding,
    and nothing but an encoding is accepted. *)
Theorem frame_decode_iff (C : Crypto) (L : CryptoLaws C) (buf key : bytes) (f : Frame.t) :
  Frame.decode buf key = Ok f <-> Frame.wf f /\ plain f /\ buf = Frame.encode f key.
Proof.
  split; [apply decode_inv|]. intros (Hwf & Hp & ->). by apply decode_encode.
Qed.

Definition sample_frame : Frame.t :=
  Frame.mk VERSION_V2 42 KIND_DATA 77 5 3 2 10 4 (bytes_of_string "payload").
Definition sample_key : bytes := toy_hash (bytes_of_string "device-secret").

Lemma frame_decode_iff_witness :
  Frame.decode (Frame.encode sample_frame sample_key) sample_key = Ok sample_frame.
Proof.
  apply (frame_decode_iff toy_crypto toy_crypto_laws). split_and!; [|by right|done].
  unfold Frame.wf. split_and!; reflexivity.
Defined.

(** C28: the V3 envelope: [Frame::decode_v3] accepts a datagram for a device
    exactly when it is an [encode_wire] output of the frame returned, for some
    nonce and selector suffix. *)
Theorem v3_decode_iff (C : Crypto) (L : CryptoLaws C) (buf key : bytes) (id : N) (f : Frame.t) :
  id < U64 ->
  Frame.decode_v3 buf id key = Ok f <->
  Frame.wf f /\ Frame.version f = VERSION_V3 /\ Frame.key_id f = id /\
  exists nonce suffix, length nonce = V3_NONCE /\ length suffix = V3_SELECTOR_PREFIX /\
    Frame.encode_wire f key nonce suffix = Ok buf.
Proof.
  intros Hid. split; [by apply decode_v3_inv|].
  intros (Hwf & Hv & <- & nonce & suffix & Hn & Hs & Hw). by eapply decode_encode_v3.
Qed.

Definition sample_v3 : Frame.t :=
  Frame.mk VERSION_V3 42 KIND_DATA 77 5 3 2 10 4 (bytes_of_string "payload").
Definition sample_wire : bytes :=
  default [] (match Frame.encode_wire sample_v3 sample_key (replicate 24 x01) (replicate 4 x02) with
              | Ok w => Some w | _ => None end).

Lemma v3_decode_iff_witness : Frame.decode_v3 sample_wire 42 sample_key = Ok sample_v3.
Proof.
  apply (v3_decode_iff toy_crypto toy_crypto_laws); [reflexivity|].
  split_and!; [|done|done|].
  - unfold Frame.wf. split_and!; reflexivity.
  - exists (replicate 24 x01), (replicate 4 x02). split_and!; vm_compute; reflexivity.
Defined.

Section no_panic.
Context {C : Crypto}.

Lemma encode_wire_no_panic f key nonce suffix : no_panic (Frame.encode_wire f key nonce suffix).
Proof. unfold Frame.encode_wire. case_match; [done|]. by destruct (aead_encrypt _ _ _). Qed.

Lemma decode_client_no_panic buf id key : no_panic (decode_client_frame buf id key).
Proof. unfold decode_client_frame. case_match; [apply decode_no_panic|apply decode_v3_no_panic]. Qed.

Lemma decode_server_no_panic buf legacy keyring selectors : no_panic (decode_server_frame buf legacy keyring selectors).
Proof.
  unfold decode_server_frame, V3_SELECTOR, V3_SELECTOR_PREFIX. no_panics.
  destruct x0 as [id' k]. apply no_panic_bind; [apply decode_v3_no_panic|]. intros. done.
Qed.
End no_panic.

(** C30: no datagram, of any length or content, makes a receive path panic:
    every slice, index and conversion of the parsers is in range. *)
Theorem receive_never_panics (C : Crypto) (buf key : bytes) (id : N) (legacy : option bytes)
    (keyring : gmap N bytes) (selectors : gmap bytes (N * bytes)) :
  no_panic (decode_client_frame buf id key) /\
  no_panic (decode_server_frame buf legacy keyring selectors).
Proof.
  split; [apply decode_client_no_panic|apply decode_server_no_panic].
Qed.

(** The server decodes what was sealed for a registered device. *)
Lemma server_decodes (C : Crypto) (L : CryptoLaws C) (f : Frame.t) (key nonce suffix w : bytes) (legacy : option bytes)
    (keyring : gmap N bytes) (selectors : gmap bytes (N * bytes)) :
  Frame.wf f -> Frame.version f = VERSION_V3 ->
  length nonce = V3_NONCE -> length suffix = V3_SELECTOR_PREFIX ->
  Frame.encode_wire f key nonce suffix = Ok w ->
  selectors !! Frame.v3_selector_prefix (Frame.key_id f) = Some (Frame.key_id f, key) ->
  starts_with w (u32_be MAGIC) = bool_decide (Frame.v3_selector_prefix (Frame.key_id f) = u32_be MAGIC) /\
  (Frame.v3_selector_prefix (Frame.key_id f) <> u32_be MAGIC ->
   decode_server_frame w legacy keyring selectors = Ok (f, key)).
Proof.
  intros Hwf Hv3 Hn Hs Hw Hsel. pose proof Hw as Hw'.
  unfold Frame.encode_wire in Hw. rewrite Hv3 in Hw. cbn [negb N.eqb VERSION_V3 Pos.eqb] in Hw.
  case_res Hw as ct Ect. apply Ok_inj in Hw.
  pose proof (length_v3_selector_prefix (Frame.key_id f)) as Hpre.
  assert (starts_with w (u32_be MAGIC) = bool_decide (Frame.v3_selector_prefix (Frame.key_id f) = u32_be MAGIC))
    as Hmagic by (rewrite <- Hw at 1; by rewrite starts_with_prefix by (by rewrite length_u32_be)).
  split; [done|]. intros Hne. unfold decode_server_frame. rewrite Hmagic, bool_decide_false by done. cbn [negb].
  rewrite (proj2 (Nat.ltb_ge _ _)).
  2:{ rewrite <- Hw, !length_app, Hpre, Hs, Hn. unfold V3_SELECTOR, V3_NONCE, V3_SELECTOR_PREFIX. lia. }
  rewrite <- Hw at 1. rewrite slice_app_l, slice_full by lia. cbn [mbind outcome_bind].
  rewrite Hsel. cbn [context mbind outcome_bind].
  by rewrite (decode_encode_v3 f key nonce suffix w).
Qed.

(** a V3 datagram of a registered device is accepted with that device's key,
    unless the device's selector prefix happens to spell the legacy magic
    number, in which case the server drops every datagram of that device. *)
Theorem server_accepts_v3 (C : Crypto) (L : CryptoLaws C) (f : Frame.t)
    (key nonce suffix w : bytes) (legacy : option bytes) (keyring : gmap N bytes) (selectors : gmap bytes (N * bytes)) :
  Frame.wf f -> Frame.version f = VERSION_V3 ->
  length nonce = V3_NONCE -> length suffix = V3_SELECTOR_PREFIX ->
  Frame.encode_wire f key nonce suffix = Ok w ->
  selectors !! Frame.v3_selector_prefix (Frame.key_id f) = Some (Frame.key_id f, key) ->
  decode_server_frame w legacy keyring selectors =
    if bool_decide (Frame.v3_selector_prefix (Frame.key_id f) = u32_be MAGIC)
    then Err "legacy V1/V2 protocol removed"%string else Ok (f, key).
Proof.
  intros Hwf Hv3 Hn Hs Hw Hsel.
  destruct (server_decodes C L f key nonce suffix w legacy keyring selectors Hwf Hv3 Hn Hs Hw Hsel) as [Hm Hd].
  case_bool_decide; [|by apply Hd]. unfold decode_server_frame. by rewrite Hm.
Qed.

Lemma server_accepts_v3_witness :
  decode_server_frame sample_wire None ∅
    {[Frame.v3_selector_prefix 42 := (42, sample_key)]} = Ok (sample_v3, sample_key).
Proof.
  etransitivity.
  - apply (server_accepts_v3 toy_crypto toy_crypto_laws sample_v3 sample_key
             (replicate 24 x01) (replicate 4 x02)).
    + unfold Frame.wf. split_and!; reflexivity.
    + reflexivity.
    + reflexivity.
    + reflexivity.
    + vm_compute. reflexivity.
    + apply lookup_singleton_eq.
  - vm_compute. reflexivity.
Defined.

(** a datagram the server accepts was sealed, as V3, under the very key it
    is handed on with, by the device that key is registered for; a datagram
    that starts with the legacy magic number is always refused. *)
Theorem server_frame_authentic (C : Crypto) (L : CryptoLaws C) (buf : bytes)
    (legacy : option bytes) (keyring : gmap N bytes) (selectors : gmap bytes (N * bytes))
    (f : Frame.t) (key : bytes) :
  (forall prefix id k, selectors !! prefix = Some (id, k) -> id < U64) ->
  decode_server_frame buf legacy keyring selectors = Ok (f, key) ->
  starts_with buf (u32_be MAGIC) = false /\
  selectors !! take V3_SELECTOR_PREFIX buf = Some (Frame.key_id f, key) /\
  Frame.wf f /\ Frame.version f = VERSION_V3 /\
  exists nonce suffix, Frame.encode_wire f key nonce suffix = Ok buf.
Proof.
  unfold decode_server_frame. intros Hids H. destruct (starts_with _ _); [done|].
  cbn [negb] in H. case_guard H as Hlen. case_res H as pre Epre.
  case_res H as [id k] Esel. case_res H as f' Ef. simplify_res.
  destruct (selectors !! pre) as [[id' k']|] eqn:Hsel; [|done]. cbn [context] in Esel. simplify_res.
  apply decode_v3_inv in Ef as (Hwf & Hv & Hid & nonce & suffix & _ & _ & Hw); [|by eapply Hids].
  apply slice_inv in Epre as (_ & _ & ->). rewrite drop_0, Nat.sub_0_r in Hsel.
  rewrite Hid. split_and!; eauto.
Qed.

Lemma server_frame_authentic_witness :
  exists nonce suffix, Frame.encode_wire sample_v3 sample_key nonce suffix = Ok sample_wire.
Proof.
  destruct (server_frame_authentic toy_crypto toy_crypto_laws sample_wire None ∅
    {[Frame.v3_selector_prefix 42 := (42, sample_key)]} sample_v3 sample_key)
    as (_ & _ & _ & _ & H).
  - intros prefix id k [_ [= <- _]]%lookup_singleton_Some. reflexivity.
  - vm_compute. reflexivity.
  - exact H.
Defined.
