(* ===== verification/Adaptive.v ===== *)
(** * The adaptive redundancy controller (src/src/main.rs, [struct Adaptive])

    [Adaptive.report] folds one loss report of the peer into the controller
    state; [Adaptive.parity] is the redundancy the encoder then applies.  Loss
    is in parts per million. *)
From S2P Require Import Prelude.

Definition MAX_PARITY : nat := 4.
Definition FEC_BYPASS_LOSS_PPM : N := 300000.
Definition LOSS_SAMPLE_UNAVAILABLE : N := U32 - 1.

Module Adaptive.
Record t := mk {
  parity : nat;
  bad : N;
  good : N;
  last_loss_ppm : N;
  smoothed_loss_ppm : N;
  unavailable_reports : N;
  bypass_streak : N;
  bypassed : bool;
}.

(** [Adaptive::default] *)
Definition default : t := mk 0 0 0 0 0 0 0 false.

(** Assignments to one field. *)
Definition set_parity x (a : t) := mk x (bad a) (good a) (last_loss_ppm a)
  (smoothed_loss_ppm a) (unavailable_reports a) (bypass_streak a) (bypassed a).
Definition set_bad x (a : t) := mk (parity a) x (good a) (last_loss_ppm a)
  (smoothed_loss_ppm a) (unavailable_reports a) (bypass_streak a) (bypassed a).
Definition set_good x (a : t) := mk (parity a) (bad a) x (last_loss_ppm a)
  (smoothed_loss_ppm a) (unavailable_reports a) (bypass_streak a) (bypassed a).
Definition set_last x (a : t) := mk (parity a) (bad a) (good a) x
  (smoothed_loss_ppm a) (unavailable_reports a) (bypass_streak a) (bypassed a).
Definition set_smoothed x (a : t) := mk (parity a) (bad a) (good a) (last_loss_ppm a)
  x (unavailable_reports a) (bypass_streak a) (bypassed a).
Definition set_unavailable x (a : t) := mk (parity a) (bad a) (good a) (last_loss_ppm a)
  (smoothed_loss_ppm a) x (bypass_streak a) (bypassed a).
Definition set_streak x (a : t) := mk (parity a) (bad a) (good a) (last_loss_ppm a)
  (smoothed_loss_ppm a) (unavailable_reports a) x (bypassed a).
Definition set_bypassed x (a : t) := mk (parity a) (bad a) (good a) (last_loss_ppm a)
  (smoothed_loss_ppm a) (unavailable_reports a) (bypass_streak a) x.

(** [Adaptive::target] *)
Definition target (loss : N) : nat :=
  if loss <=? 9999 then 0
  else if loss <=? 49999 then 1
  else if loss <=? 99999 then 2
  else if loss <=? 199999 then 3
  else 4.

(** The moving average [report] applies to a measured sample. *)
Definition smooth (s loss : N) : N := as_u32 ((s * 3 + loss) / 4).

(** [Adaptive::report] *)
Definition report (a : t) (loss : N) : t :=
  if loss =? LOSS_SAMPLE_UNAVAILABLE then
    let a := set_unavailable (sat_add8 (unavailable_reports a) 1) a in
    if 15 <=? unavailable_reports a then
      let a := set_parity (parity a - 1) a in
      let a := set_unavailable 0 a in
      if (parity a =? 0)%nat then set_last 0 (set_smoothed 0 a) else a
    else a
  else
  let a := set_unavailable 0 a in
  let a := set_last loss a in
  let a := set_smoothed (smooth (smoothed_loss_ppm a) loss) a in
  if FEC_BYPASS_LOSS_PPM <=? loss then
    let a := set_streak (sat_add8 (bypass_streak a) 1) a in
    let a := set_good 0 a in
    if 3 <=? bypass_streak a then
      set_bypassed true (set_unavailable 0 (set_good 0 (set_bad 0 (set_parity 0 a))))
    else a
  else
  let a := set_streak 0 a in
  let tgt := target (smoothed_loss_ppm a) in
  if bypassed a then
    set_bypassed false (set_good 0 (set_bad 0 (set_parity (tgt `min` MAX_PARITY) a)))
  else if (parity a <? tgt)%nat then
    let a := set_bad (as_u8 (bad a + 1)) a in
    let a := set_good 0 a in
    if 2 <=? bad a then set_bad 0 (set_parity ((parity a + 1) `min` MAX_PARITY) a) else a
  else if (tgt <? parity a)%nat then
    let a := set_good (as_u16 (good a + 1)) a in
    let a := set_bad (bad a - 1) a in
    if 15 <=? good a then set_good 0 (set_parity (parity a - 1) a) else a
  else
    set_good 0 (set_bad (bad a - 1) a).

(** The controller after a sequence of reports. *)
Definition reports (a : t) (losses : list N) : t := foldl report a losses.

(** The ranges every reachable controller state keeps. *)
Definition inv (a : t) : Prop :=
  (parity a <= MAX_PARITY)%nat /\ bad a <= 1 /\ good a <= 14 /\
  last_loss_ppm a < U32 /\ smoothed_loss_ppm a < U32 /\
  unavailable_reports a <= 14 /\ bypass_streak a < U8.
End Adaptive.
Import Adaptive.

(** ** Lemmas *)
Lemma target_le loss : (target loss <= MAX_PARITY)%nat.
Proof. unfold target, MAX_PARITY. split_ifs; lia. Qed.

Lemma target_mono x y : x <= y -> (target x <= target y)%nat.
Proof. intros. unfold target. split_ifs; bool_to_prop; lia. Qed.

Lemma smooth_lt s loss : s < U32 -> loss < U32 -> smooth s loss = (s * 3 + loss) / 4.
Proof.
  intros. apply N.mod_small. apply N.Div0.div_lt_upper_bound. width_lia.
Qed.

Lemma smooth_bound s loss b : s < U32 -> loss < U32 -> s <= b -> loss <= b -> smooth s loss <= b.
Proof.
  intros. rewrite smooth_lt by done. apply N.Div0.div_le_upper_bound. lia.
Qed.

(** Cases of one report, on a state given by its fields. *)
Ltac report_cases :=
  cbv [report set_parity set_bad set_good set_last set_smoothed set_unavailable
    set_streak set_bypassed
    parity bad good last_loss_ppm smoothed_loss_ppm unavailable_reports bypass_streak bypassed];
  split_ifs; bool_to_prop.

Lemma inv_default : inv default.
Proof. unfold inv; cbn. unfold MAX_PARITY. width_lia. Qed.

Lemma report_inv a loss : inv a -> loss < U32 -> inv (report a loss).
Proof.
  destruct a as [p b g l s u k y]. intros Ha Hl. unfold inv in Ha. cbn in Ha.
  destruct Ha as (? & ? & ? & ? & ? & ? & ?).
  pose proof (target_le (smooth s loss)).
  assert (smooth s loss < U32).
  { pose proof (smooth_bound s loss (U32 - 1)). width_lia. }
  unfold inv. report_cases; cbn; unfold MAX_PARITY in *; width_lia.
Qed.

Lemma reports_inv losses : forall a, inv a -> Forall (fun l => l < U32) losses -> inv (reports a losses).
Proof.
  induction losses as [|l losses IH]; intros a Ha Hl; [done|].
  inversion Hl; subst. apply IH; [by apply report_inv|done].
Qed.

Lemma reports_app a l1 l2 : reports a (l1 ++ l2) = reports (reports a l1) l2.
Proof. apply foldl_app. Qed.

Lemma unavailable_ne loss : loss < LOSS_SAMPLE_UNAVAILABLE -> (loss =? LOSS_SAMPLE_UNAVAILABLE) = false.
Proof. intros. apply N.eqb_neq. lia. Qed.

(** *** Unavailable samples *)
Lemma report_unavailable a :
  unavailable_reports a < 14 ->
  report a LOSS_SAMPLE_UNAVAILABLE = set_unavailable (unavailable_reports a + 1) a.
Proof.
  destruct a as [p b g l s u k y]. cbn. intros Hu. unfold report. rewrite N.eqb_refl.
  cbn. replace (sat_add8 u 1) with (u + 1) by width_lia.
  by rewrite (proj2 (N.leb_gt _ _)) by lia.
Qed.

Lemma report_unavailable_last a :
  unavailable_reports a = 14 ->
  report a LOSS_SAMPLE_UNAVAILABLE =
    let a' := set_unavailable 0 (set_parity (parity a - 1) a) in
    if (parity a' =? 0)%nat then set_last 0 (set_smoothed 0 a') else a'.
Proof. destruct a as [p b g l s u k y]. cbn. by intros ->. Qed.

Lemma reports_unavailable n a :
  unavailable_reports a + N.of_nat n <= 14 ->
  reports a (replicate n LOSS_SAMPLE_UNAVAILABLE)
    = set_unavailable (unavailable_reports a + N.of_nat n) a.
Proof.
  revert a. induction n as [|n IH]; intros a Hn; cbn [replicate reports foldl].
  - rewrite N.add_0_r. by destruct a.
  - rewrite report_unavailable by lia. fold (reports (set_unavailable (unavailable_reports a + 1) a)).
    change (foldl report ?x ?y) with (reports x y). rewrite IH by (cbn; lia).
    destruct a; unfold set_unavailable; cbn [parity bad good last_loss_ppm smoothed_loss_ppm unavailable_reports bypass_streak bypassed]. f_equal; lia.
Qed.

Lemma reports_unavailable_15 a :
  unavailable_reports a = 0 ->
  reports a (replicate 15 LOSS_SAMPLE_UNAVAILABLE) =
    let a' := set_unavailable 0 (set_parity (parity a - 1) a) in
    if (parity a' =? 0)%nat then set_last 0 (set_smoothed 0 a') else a'.
Proof.
  intros Hu. change 15%nat with (14 + 1)%nat. rewrite replicate_add, reports_app.
  rewrite (reports_unavailable 14 a), Hu by (by rewrite Hu).
  cbn [replicate reports foldl]. rewrite report_unavailable_last by done.
  destruct a; done.
Qed.

(** *** Ordinary samples

    With the target fixed, every ordinary sample brings the level closer to it;
    [distance] counts the samples still needed. *)
Definition distance (tgt : nat) (a : t) : N :=
  if (parity a <? tgt)%nat then 2 * N.of_nat (tgt - parity a) - bad a
  else if (tgt <? parity a)%nat then 15 * N.of_nat (parity a - tgt) - good a
  else 0.

Lemma report_ordinary_smoothed a loss :
  loss < FEC_BYPASS_LOSS_PPM ->
  smoothed_loss_ppm (report a loss) = smooth (smoothed_loss_ppm a) loss
  /\ bypassed (report a loss) = false.
Proof.
  intros Hl. unfold FEC_BYPASS_LOSS_PPM in *. destruct a as [p b g l s u k y].
  assert ((loss =? LOSS_SAMPLE_UNAVAILABLE) = false) as E by
    (apply unavailable_ne; unfold LOSS_SAMPLE_UNAVAILABLE; width_lia).
  cbv [report]. rewrite E. unfold FEC_BYPASS_LOSS_PPM. rewrite (proj2 (N.leb_gt _ _)) by done.
  cbv [set_parity set_bad set_good set_last set_smoothed set_unavailable set_streak set_bypassed
    parity bad good last_loss_ppm smoothed_loss_ppm unavailable_reports bypass_streak bypassed].
  destruct y; split_ifs; done.
Qed.

Lemma report_high a loss :
  FEC_BYPASS_LOSS_PPM <= loss < LOSS_SAMPLE_UNAVAILABLE ->
  bypass_streak (report a loss) = sat_add8 (bypass_streak a) 1 /\
  if 2 <=? bypass_streak a
  then parity (report a loss) = 0%nat /\ bypassed (report a loss) = true
  else parity (report a loss) = parity a /\ bypassed (report a loss) = bypassed a.
Proof.
  intros [Hl1 Hl2]. destruct a as [p b g l s u k y].
  cbv [report]. rewrite (unavailable_ne _ Hl2), (proj2 (N.leb_le _ _) Hl1).
  cbv [set_parity set_bad set_good set_last set_smoothed set_unavailable set_streak set_bypassed
    parity bad good last_loss_ppm smoothed_loss_ppm unavailable_reports bypass_streak bypassed].
  split_ifs; bool_to_prop; try done; unfold sat_add8 in *; width_lia.
Qed.

Lemma report_recovers a loss :
  loss < FEC_BYPASS_LOSS_PPM -> bypassed a = true ->
  parity (report a loss) = target (smooth (smoothed_loss_ppm a) loss).
Proof.
  intros Hl Hy. destruct a as [p b g l s u k y]. cbn in Hy. subst y.
  cbv [report]. rewrite (unavailable_ne loss), (proj2 (N.leb_gt _ _) Hl).
  2:{ unfold FEC_BYPASS_LOSS_PPM, LOSS_SAMPLE_UNAVAILABLE in *. width_lia. }
  cbn. apply Nat.min_l, target_le.
Qed.

Lemma report_ordinary_distance a loss :
  inv a -> bypassed a = false -> loss < FEC_BYPASS_LOSS_PPM ->
  let tgt := target (smooth (smoothed_loss_ppm a) loss) in
  distance tgt (report a loss) <= distance tgt a - 1.
Proof.
  intros Ha Hy Hl. unfold FEC_BYPASS_LOSS_PPM in *. destruct a as [p b g l s u k y].
  unfold inv in Ha. cbn in Ha, Hy |- *. subst y. destruct Ha as (? & ? & ? & _).
  pose proof (target_le (smooth s loss)). unfold MAX_PARITY in *.
  assert ((loss =? LOSS_SAMPLE_UNAVAILABLE) = false) as E by
    (apply unavailable_ne; unfold LOSS_SAMPLE_UNAVAILABLE; width_lia).
  cbv [report]. rewrite E. unfold FEC_BYPASS_LOSS_PPM. rewrite (proj2 (N.leb_gt _ _)) by done.
  cbv [set_parity set_bad set_good set_last set_smoothed set_unavailable set_streak set_bypassed
    parity bad good last_loss_ppm smoothed_loss_ppm unavailable_reports bypass_streak bypassed].
  rewrite (as_u8_small (b + 1)), (as_u16_small (g + 1)) by width_lia.
  generalize dependent (target (smooth s loss)). intros tgt Htgt.
  unfold distance, MAX_PARITY. split_ifs; cbn [parity bad good] in *; bool_to_prop; width_lia.
Qed.

(** *** Convergence of the moving average

    The distance to a constant loss shrinks by a quarter, rounded up, at each
    sample; the truncating division leaves up to 3 ppm when it starts below. *)
Definition shrink (d : N) : N := (3 * d + 3) / 4.

Lemma shrink_mono x y : x <= y -> shrink x <= shrink y.
Proof. intros. unfold shrink. apply N.Div0.div_le_mono. lia. Qed.

Lemma shrink_iter_mono n x y : x <= y -> N.iter n shrink x <= N.iter n shrink y.
Proof.
  intros Hxy. induction n as [|n IH] using N.peano_ind; [done|].
  rewrite !N.iter_succ. by apply shrink_mono.
Qed.

Lemma smooth_below s loss : s <= loss -> loss < U32 ->
  smooth s loss <= loss /\ loss - smooth s loss <= shrink (loss - s).
Proof. intros Hs Hl. rewrite smooth_lt by lia. unfold shrink. split; div_lia. Qed.

Lemma smooth_above s loss : loss <= s -> s < U32 ->
  loss <= smooth s loss /\ smooth s loss - loss <= shrink (s - loss) /\
  (loss < s -> smooth s loss < s).
Proof. intros Hs Hl. rewrite smooth_lt by lia. unfold shrink. split_and!; div_lia. Qed.

(** [near loss s]: the average has come within truncation of the loss. *)
Definition near (loss s : N) : Prop := s <= loss <= s + 3.

Lemma near_smooth loss s : loss < U32 -> near loss s -> near loss (smooth s loss).
Proof. unfold near. intros. rewrite smooth_lt by lia. div_lia. Qed.

Definition smooth_n (loss : N) (n : N) (s : N) : N := N.iter n (fun s => smooth s loss) s.

Lemma smooth_n_distance loss n s :
  s < U32 -> loss < U32 ->
  (s <= loss -> smooth_n loss n s <= loss /\ loss - smooth_n loss n s <= N.iter n shrink (loss - s)) /\
  (loss <= s -> loss <= smooth_n loss n s <= s /\ smooth_n loss n s - loss <= N.iter n shrink (s - loss)).
Proof.
  intros Hs Hl. unfold smooth_n. induction n as [|n IH] using N.peano_ind; [cbn; lia|].
  rewrite !N.iter_succ. set (x := N.iter n (fun s => smooth s loss) s) in *.
  set (d1 := N.iter n shrink (loss - s)) in *. set (d2 := N.iter n shrink (s - loss)) in *.
  destruct IH as [IH1 IH2]. split; intros H.
  - destruct (IH1 H) as [Hx Hd]. destruct (smooth_below x loss Hx Hl).
    pose proof (shrink_mono _ _ Hd). lia.
  - destruct (IH2 H) as [Hx Hd]. destruct (smooth_above x loss) as (? & ? & ?); [lia..|].
    pose proof (shrink_mono _ _ Hd).
    destruct (decide (loss < x)); [lia|].
    pose proof (smooth_bound x loss loss). lia.
Qed.

Lemma shrink_iter_57 d : d <= 1000000 -> N.iter 57 shrink d <= 3.
Proof.
  intros Hd. apply N.le_trans with (N.iter 57 shrink 1000000).
  - by apply shrink_iter_mono.
  - apply N.leb_le. vm_compute. reflexivity.
Qed.

Lemma smooth_n_add loss m n s : smooth_n loss (m + n) s = smooth_n loss m (smooth_n loss n s).
Proof. apply N.iter_add. Qed.

(** 60 samples bring any average up to one million within truncation. *)
Lemma smooth_60_near loss s : s <= 1000000 -> loss <= 1000000 -> near loss (smooth_n loss 60 s).
Proof.
  intros Hs Hl. destruct (smooth_n_distance loss 57 s) as [Hb Ha]; [width_lia..|].
  change 60 with (3 + 57). rewrite smooth_n_add.
  set (x := smooth_n loss 57 s) in *. clearbody x.
  change (smooth_n loss 3 x) with (smooth (smooth (smooth x loss) loss) loss).
  destruct (decide (s <= loss)) as [Hsl|Hsl].
  - destruct (Hb Hsl). pose proof (shrink_iter_57 (loss - s) ltac:(lia)).
    repeat (apply near_smooth; [width_lia|]). unfold near. lia.
  - destruct Ha as [? ?]; [lia|]. pose proof (shrink_iter_57 (s - loss) ltac:(lia)).
    assert (forall k y, loss <= y <= loss + (k + 1) -> k <= 2 ->
      loss <= smooth y loss <= loss + k) as Hstep.
    { intros k y Hy Hk. destruct (smooth_above y loss) as (? & _ & ?); [width_lia..|].
      pose proof (smooth_bound y loss loss). width_lia. }
    pose proof (Hstep 2 x ltac:(lia) ltac:(lia)) as Hx1.
    pose proof (Hstep 1 _ Hx1 ltac:(lia)) as Hx2.
    pose proof (Hstep 0 _ Hx2 ltac:(lia)). unfold near. lia.
Qed.

(** *** A constant loss, report after report *)
Lemma reports_constant loss n a :
  inv a -> loss < FEC_BYPASS_LOSS_PPM ->
  inv (reports a (replicate n loss)) /\
  smoothed_loss_ppm (reports a (replicate n loss)) = smooth_n loss (N.of_nat n) (smoothed_loss_ppm a) /\
  ((0 < n)%nat -> bypassed (reports a (replicate n loss)) = false).
Proof.
  intros Ha Hl. unfold FEC_BYPASS_LOSS_PPM in Hl. revert a Ha.
  induction n as [|n IH]; intros a Ha; [split_and!; [done|done|lia]|].
  change (reports a (replicate (S n) loss)) with (reports (report a loss) (replicate n loss)).
  destruct (report_ordinary_smoothed a loss Hl) as [Hs Hy].
  assert (inv (report a loss)) as Hi by (apply report_inv; [done|width_lia]).
  destruct (IH _ Hi) as (? & IHs & IHy). split_and!; [done| |].
  - rewrite IHs, Hs. unfold smooth_n. rewrite Nat2N.inj_succ, N.iter_succ_r. done.
  - destruct n; intros; [done|]. apply IHy. lia.
Qed.

Lemma near_target loss s :
  target (loss - 3) = target loss -> near loss s -> target s = target loss.
Proof.
  intros Ht [? ?]. pose proof (target_mono s loss). pose proof (target_mono (loss - 3) s). lia.
Qed.

Lemma parity_settles loss n a :
  target (loss - 3) = target loss -> loss < FEC_BYPASS_LOSS_PPM ->
  inv a -> bypassed a = false -> near loss (smoothed_loss_ppm a) ->
  distance (target loss) a <= N.of_nat n ->
  parity (reports a (replicate n loss)) = target loss.
Proof.
  intros Ht Hl. revert a. unfold FEC_BYPASS_LOSS_PPM in *.
  induction n as [|n IH]; intros a Ha Hy Hn Hd.
  - cbn. destruct Ha as (_ & ? & ? & _). unfold distance in Hd.
    destruct (Nat.ltb_spec (parity a) (target loss)); [lia|].
    destruct (Nat.ltb_spec (target loss) (parity a)); lia.
  - change (reports a (replicate (S n) loss)) with (reports (report a loss) (replicate n loss)).
    destruct (report_ordinary_smoothed a loss Hl) as [Hs Hy'].
    assert (near loss (smooth (smoothed_loss_ppm a) loss)) as Hn'
      by (apply near_smooth; [width_lia|done]).
    pose proof (report_ordinary_distance a loss Ha Hy Hl) as Hdec. cbv zeta in Hdec.
    rewrite (near_target loss) in Hdec by done.
    apply IH; [apply report_inv; [done|width_lia]|done|by rewrite Hs|lia].
Qed.

Lemma distance_le tgt a : inv a -> (tgt <= MAX_PARITY)%nat -> distance tgt a <= 60.
Proof. intros (? & _) ?. unfold distance, MAX_PARITY in *. split_ifs; lia. Qed.

(** ** Properties *)

(** C33: from the initial state, whatever 32-bit loss reports arrive, the
    redundancy level stays within [MAX_PARITY] and every counter stays below
    the bound at which it is consumed, so no 8- or 16-bit counter wraps. *)
Theorem adaptive_invariant (losses : list N) :
  Forall (fun l => l < U32) losses -> inv (reports default losses).
Proof. apply reports_inv, inv_default. Qed.

Lemma adaptive_invariant_witness : inv (reports default [90000; LOSS_SAMPLE_UNAVAILABLE; 400000]).
Proof. apply adaptive_invariant. repeat constructor. Defined.

(** what one report does to the level.  An unavailable sample keeps the
    evidence counters and retires one level at the fifteenth in a row; a sample
    at or above the bypass threshold keeps the level until the third in a row,
    which zeroes it; the first ordinary sample after a bypass jumps to the
    target; any other ordinary sample moves the level by at most one, towards
    the target of the moving average, and only when the evidence is complete. *)
Theorem adaptive_report_effect (a : Adaptive.t) (loss : N) :
  inv a -> loss < U32 ->
  let a' := report a loss in
  let tgt := target (smooth (smoothed_loss_ppm a) loss) in
  if loss =? LOSS_SAMPLE_UNAVAILABLE then
    bad a' = bad a /\ good a' = good a /\ bypass_streak a' = bypass_streak a /\
    bypassed a' = bypassed a /\
    parity a' = (if unavailable_reports a =? 14 then (parity a - 1)%nat else parity a)
  else if FEC_BYPASS_LOSS_PPM <=? loss then
    if 2 <=? bypass_streak a then parity a' = 0%nat /\ bypassed a' = true
    else parity a' = parity a /\ bypassed a' = bypassed a
  else if bypassed a then parity a' = tgt /\ bypassed a' = false
  else if (parity a <? tgt)%nat then
    parity a' = (if bad a =? 1 then (parity a + 1)%nat else parity a)
  else if (tgt <? parity a)%nat then
    parity a' = (if good a =? 14 then (parity a - 1)%nat else parity a)
  else parity a' = parity a.
Proof.
  destruct a as [p b g l s u k y]. intros Ha Hl. unfold inv in Ha. cbn in Ha.
  destruct Ha as (? & ? & ? & ? & ? & ? & ?).
  pose proof (target_le (smooth s loss)). unfold MAX_PARITY in *.
  assert (as_u8 (b + 1) = b + 1) as Hb by (apply as_u8_small; width_lia).
  assert (as_u16 (g + 1) = g + 1) as Hg by (apply as_u16_small; width_lia).
  assert (sat_add8 u 1 = u + 1) as Hu by width_lia.
  assert (sat_add8 k 1 = N.min (k + 1) 255) as Hk by width_lia.
  cbv [report set_parity set_bad set_good set_last set_smoothed set_unavailable set_streak
    set_bypassed parity bad good last_loss_ppm smoothed_loss_ppm unavailable_reports
    bypass_streak bypassed].
  rewrite Hb, Hg, Hu, Hk. unfold MAX_PARITY.
  generalize dependent (target (smooth s loss)). intros tgt Htgt.
  split_ifs; bool_to_prop; split_and?; try done; lia.
Qed.

Lemma adaptive_report_effect_witness :
  parity (report (set_bad 1 (set_smoothed 80000 default)) 90000) = 1%nat.
Proof.
  apply (adaptive_report_effect (set_bad 1 (set_smoothed 80000 default)) 90000).
  - unfold inv. cbn. unfold MAX_PARITY. width_lia.
  - reflexivity.
Defined.

(** hysteresis of the bypass.  One or two samples at or above 30% leave the
    level alone, the third in a row switches redundancy off, and the first
    sample below the threshold restores the target level at once. *)
Theorem bypass_hysteresis (a : Adaptive.t) (l1 l2 l3 l4 : N) :
  bypass_streak a = 0 ->
  Forall (fun l => FEC_BYPASS_LOSS_PPM <= l < LOSS_SAMPLE_UNAVAILABLE) [l1; l2; l3] ->
  l4 < FEC_BYPASS_LOSS_PPM ->
  parity (reports a [l1]) = parity a /\
  parity (reports a [l1; l2]) = parity a /\
  parity (reports a [l1; l2; l3]) = 0%nat /\
  parity (reports a [l1; l2; l3; l4])
    = target (smooth (smoothed_loss_ppm (reports a [l1; l2; l3])) l4).
Proof.
  intros Hk HF Hl4.
  apply Forall_cons_1 in HF as [H1 HF]. apply Forall_cons_1 in HF as [H2 HF].
  apply Forall_cons_1 in HF as [H3 _]. cbn [reports foldl].
  destruct (report_high a l1 H1) as [Hk1 Hp1]. rewrite Hk in Hk1, Hp1.
  destruct (report_high (report a l1) l2 H2) as [Hk2 Hp2]. rewrite Hk1 in Hk2, Hp2.
  destruct (report_high (report (report a l1) l2) l3 H3) as [_ Hp3]. rewrite Hk2 in Hp3.
  cbn in Hp1, Hp2, Hp3. destruct Hp1 as [Hp1 _], Hp2 as [Hp2 _], Hp3 as [Hp3 Hy3].
  split_and!; [done|congruence|done|by apply report_recovers].
Qed.

Lemma bypass_hysteresis_witness :
  parity (reports (set_parity 4 default) [300000; 300000; 300000; 290000]) = 4%nat.
Proof.
  destruct (bypass_hysteresis (set_parity 4 default) 300000 300000 300000 290000) as (_ & _ & _ & H).
  - reflexivity.
  - repeat constructor; vm_compute; congruence.
  - reflexivity.
  - rewrite H. vm_compute. reflexivity.
Defined.

(** idle gaps.  Up to fourteen unavailable samples in a row change nothing
    but their own counter, so sparse traffic cannot reset the evidence for more
    redundancy; fifteen retire one level, and [15 * k] retire [k]. *)
Theorem idle_reports (a : Adaptive.t) (n k : nat) :
  unavailable_reports a = 0 -> (n <= 14)%nat ->
  reports a (replicate n LOSS_SAMPLE_UNAVAILABLE) = set_unavailable (N.of_nat n) a /\
  parity (reports a (replicate (15 * k) LOSS_SAMPLE_UNAVAILABLE)) = (parity a - k)%nat.
Proof.
  intros Hu Hn. split.
  - rewrite reports_unavailable by lia. by rewrite Hu.
  - clear n Hn. revert a Hu. induction k as [|k IH]; intros a Hu.
    + rewrite Nat.mul_0_r. cbn. lia.
    + replace (15 * S k)%nat with (15 + 15 * k)%nat by lia.
      rewrite replicate_add, reports_app, reports_unavailable_15 by done. cbv zeta.
      destruct (Nat.eqb_spec (parity (set_unavailable 0 (set_parity (parity a - 1) a))) 0);
        rewrite IH by (destruct a; done); destruct a; cbn in *; lia.
Qed.

Lemma idle_reports_witness :
  parity (reports (set_parity 2 default) (replicate (15 * 2) LOSS_SAMPLE_UNAVAILABLE)) = 0%nat.
Proof. apply (idle_reports (set_parity 2 default) 0 2); [reflexivity|lia]. Defined.

(** C35: convergence.  Under a steady loss below the bypass threshold that is
    not within 3 ppm above a band boundary, the level reaches the band's target
    within 120 reports (four minutes) from any reachable state with a plausible
    average, and stays there. *)
Theorem steady_loss_converges (a : Adaptive.t) (loss : N) (n : nat) :
  inv a -> smoothed_loss_ppm a <= 1000000 -> loss < FEC_BYPASS_LOSS_PPM ->
  target (loss - 3) = target loss -> (120 <= n)%nat ->
  parity (reports a (replicate n loss)) = target loss.
Proof.
  intros Ha Hs Hl Ht Hn. replace n with (60 + (n - 60))%nat by lia.
  rewrite replicate_add, reports_app.
  destruct (reports_constant loss 60 a Ha Hl) as (Hi & Hsm & Hy).
  apply parity_settles; auto with lia.
  - rewrite Hsm. apply smooth_60_near; [done|]. unfold FEC_BYPASS_LOSS_PPM in Hl. lia.
  - pose proof (distance_le (target loss) _ Hi (target_le loss)). lia.
Qed.

Lemma steady_loss_converges_witness : parity (reports default (replicate 120 60000)) = 2%nat.
Proof.
  apply (steady_loss_converges default 60000 120).
  - apply inv_default.
  - vm_compute. congruence.
  - reflexivity.
  - reflexivity.
  - lia.
Defined.

(** at the lower edge of the first band the truncating average never
    arrives: under a steady loss of exactly 1% an initial controller never
    adds redundancy, however long the loss lasts, although the target for that
    loss is one parity shard. *)
Theorem one_percent_never_protected (n : nat) :
  target 10000 = 1%nat /\ parity (reports default (replicate n 10000)) = 0%nat.
Proof.
  split; [done|].
  assert (forall a, parity a = 0%nat -> bypassed a = false -> smoothed_loss_ppm a <= 9997 ->
    parity (reports a (replicate n 10000)) = 0%nat) as H; [|by apply H].
  induction n as [|n IH]; intros a Hp Hy Hs; [done|].
  change (reports a (replicate (S n) 10000)) with (reports (report a 10000) (replicate n 10000)).
  assert (smooth (smoothed_loss_ppm a) 10000 <= 9997) as Hs'.
  { rewrite smooth_lt by width_lia. div_lia. }
  destruct (report_ordinary_smoothed a 10000) as [Hs1 Hy1]; [done|].
  apply IH; [|done|by rewrite Hs1].
  assert (target (smooth (smoothed_loss_ppm a) 10000) = 0%nat) as Ht.
  { unfold target. by rewrite (proj2 (N.leb_le _ 9999)) by lia. }
  destruct a as [p b g l s u k y]. cbn in *. subst p y.
  cbv [report set_parity set_bad set_good set_last set_smoothed set_unavailable set_streak
    set_bypassed parity bad good last_loss_ppm smoothed_loss_ppm unavailable_reports
    bypass_streak bypassed].
  change (10000 =? LOSS_SAMPLE_UNAVAILABLE) with false.
  change (FEC_BYPASS_LOSS_PPM <=? 10000) with false. cbn iota. rewrite Ht. done.
Qed.
