(* ===== verification/Fragment.v ===== *)
(** * Fragments (src/src/main.rs)

    A datagram travels as fragments: each shard of an FEC group carries a
    14-byte header and at most [CHUNK] bytes of payload.  [build] is the
    header [Encoder::encode_datagram] writes, [split] the list of fragments it
    cuts a datagram into, [parse] the checks at the head of
    [Decoder::fragment]; a shard may carry zero padding after the fragment,
    because Reed-Solomon needs shards of one length. *)
From S2P Require Import Prelude.

Definition SHARD : nat := 1340.
Definition FRAGMENT_HEADER : nat := 14.
Definition CHUNK : nat := SHARD - FRAGMENT_HEADER.

Module Fragment.
Record t := mk {
  packet : N;
  idx : nat;
  count : nat;
  body : bytes;
}.

(** The fragments the decoder accepts. *)
Definition valid (f : t) : Prop :=
  packet f < U64 /\ (0 < count f <= 64)%nat /\ (idx f < count f)%nat /\
  (length (body f) <= CHUNK)%nat.

(** The shard [encode_datagram] fills for one chunk. *)
Definition build (f : t) : bytes :=
  u64_be (packet f)
  ++ u16_be (as_u16 (N.of_nat (idx f)))
  ++ u16_be (as_u16 (N.of_nat (count f)))
  ++ u16_be (as_u16 (N.of_nat (length (body f))))
  ++ body f.

(** [let count = payload.len().max(1).div_ceil(CHUNK)] *)
Definition chunk_count (payload : bytes) : nat := div_ceil (length payload `max` 1) CHUNK.

(** The pieces [encode_datagram] iterates over. *)
Definition pieces (payload : bytes) : list bytes :=
  match payload with
  | [] => [[]]
  | _ => chunks CHUNK payload
  end.

Definition split (packet : N) (payload : bytes) : list t :=
  imap (fun i c => mk packet i (chunk_count payload) c) (pieces payload).

(** The head of [Decoder::fragment]: [None] for a shard it ignores. *)
Definition parse (shard : bytes) : result (option t) :=
  if (length shard <? FRAGMENT_HEADER)%nat || (SHARD <? length shard)%nat then Ok None else
  packet ← slice shard 0 8;
  idx ← slice shard 8 10;
  count ← slice shard 10 12;
  len ← slice shard 12 14;
  let packet := from_be_bytes packet in
  let idx := N.to_nat (from_be_bytes idx) in
  let count := N.to_nat (from_be_bytes count) in
  let len := N.to_nat (from_be_bytes len) in
  if (count =? 0)%nat || (64 <? count)%nat || (count <=? idx)%nat || (CHUNK <? len)%nat
     || (length shard <? FRAGMENT_HEADER + len)%nat
  then Ok None else
  body ← slice shard 14 (14 + len);
  Ok (Some (mk packet idx count body)).

(** ** Facts *)
Lemma length_build f : length (build f) = (FRAGMENT_HEADER + length (body f))%nat.
Proof. unfold build, FRAGMENT_HEADER. len. Qed.

Lemma parse_no_panic shard : no_panic (parse shard).
Proof.
  unfold parse, FRAGMENT_HEADER, CHUNK, SHARD. no_panics; bool_to_prop; lia.
Qed.

Lemma parse_not_err shard e : parse shard <> Err e.
Proof.
  unfold parse. destruct (orb (length shard <? FRAGMENT_HEADER)%nat _); [done|].
  do 4 (apply slice_bind_not_err; intros ?). cbv zeta.
  match goal with |- context [if ?b then _ else _] => destruct b end; [done|].
  by apply slice_bind_not_err.
Qed.

Lemma parse_build f pad :
  valid f -> (length (build f ++ pad) <= SHARD)%nat -> parse (build f ++ pad) = Ok (Some f).
Proof.
  intros (Hp & Hc & Hi & Hb) Hlen. unfold parse.
  rewrite length_app, length_build in *.
  assert (forall n, (n <= 1340)%nat -> from_be_bytes (u16_be (as_u16 (N.of_nat n))) = N.of_nat n) as H16.
  { intros n Hn. rewrite as_u16_small by width_lia. apply from_u16_be. width_lia. }
  unfold CHUNK, SHARD, FRAGMENT_HEADER in *.
  rewrite (proj2 (orb_false_iff _ _)) by (rewrite !Nat.ltb_ge; lia).
  unfold build. rewrite <- !app_assoc. slices.
  cbn [mbind outcome_bind]. rewrite from_u64_be by done. rewrite !H16 by lia. rewrite !Nat2N.id.
  rewrite (proj2 (Nat.eqb_neq _ _)), (proj2 (Nat.ltb_ge _ _)), (proj2 (Nat.leb_gt _ _)),
    (proj2 (Nat.ltb_ge _ _)), (proj2 (Nat.ltb_ge _ _)) by lia.
  cbn [orb Nat.add]. slices. by destruct f.
Qed.

Lemma parse_inv shard f :
  parse shard = Ok (Some f) ->
  valid f /\ (length shard <= SHARD)%nat /\ exists pad, shard = build f ++ pad.
Proof.
  unfold parse. intros H. destruct (_ || _)%bool eqn:E1 in H; [discriminate H|].
  case_res H as p Hp. case_res H as i Hi. case_res H as c Hc. case_res H as l Hl. cbv zeta in H.
  destruct (_ || _)%bool eqn:E2 in H; [discriminate H|].
  case_res H as b Hb. simplify_res. slice_lengths.
  repeat match goal with E : _ = false |- _ => apply orb_false_iff in E as [? ?] end.
  bool_to_prop.
  pose proof (from_be_u64_lt p ltac:(lia)). pose proof (from_be_u16_lt l ltac:(lia)).
  split; [unfold valid; cbn [packet idx count body]; lia|]. split; [done|].
  exists (drop (14 + N.to_nat (from_be_bytes l)) shard).
  unfold build. cbn [packet idx count body].
  assert (as_u16 (N.of_nat (length b)) = from_be_bytes l) as ->.
  { rewrite as_u16_small by width_lia. lia. }
  rewrite !N2Nat.id, !as_u16_small by (apply from_be_u16_lt; lia).
  rewrite u64_be_from, !u16_be_from by lia.
  chain Hp Hi. chain Hp Hc. chain Hp Hl. chain Hp Hb.
  apply slice_inv in Hp as (_ & _ & Hp). rewrite Nat.sub_0_r, drop_0 in Hp.
  rewrite <- !app_assoc in *. rewrite (app_assoc i), (app_assoc _ l), (app_assoc _ b).
  rewrite app_assoc. transitivity (take (14 + N.to_nat (from_be_bytes l)) shard ++
    drop (14 + N.to_nat (from_be_bytes l)) shard); [by rewrite take_drop|].
  f_equal. rewrite <- Hp. by rewrite <- !app_assoc.
Qed.

Lemma pieces_concat payload : concat (pieces payload) = payload.
Proof. destruct payload; [done|]. apply chunks_concat. unfold CHUNK, SHARD, FRAGMENT_HEADER. lia. Qed.

Lemma length_pieces payload : length (pieces payload) = chunk_count payload.
Proof.
  unfold chunk_count. destruct payload as [|b payload]; [done|].
  cbn [pieces]. rewrite length_chunks; [|unfold CHUNK, SHARD, FRAGMENT_HEADER; lia|done].
  f_equal. cbn [length]. lia.
Qed.

Lemma pieces_bounded payload : Forall (fun c => length c <= CHUNK)%nat (pieces payload).
Proof.
  destruct payload as [|b payload]; [repeat constructor; cbn; lia|].
  cbn [pieces]. eapply Forall_impl; [apply chunks_length_each|].
  - unfold CHUNK, SHARD, FRAGMENT_HEADER. lia.
  - intros c Hc. cbn beta in Hc |- *. lia.
Qed.

Lemma chunk_count_pos payload : (0 < chunk_count payload)%nat.
Proof.
  rewrite <- length_pieces. destruct payload as [|b payload]; [cbn; lia|].
  cbn [pieces]. unfold chunks. cbn. lia.
Qed.

Lemma chunk_count_le payload n :
  (0 < n)%nat -> (length payload <= CHUNK * n)%nat -> (chunk_count payload <= n)%nat.
Proof.
  intros Hn Hl. unfold chunk_count. apply div_ceil_le; unfold CHUNK, SHARD, FRAGMENT_HEADER in *; lia.
Qed.

Lemma length_split packet payload : length (split packet payload) = chunk_count payload.
Proof. unfold split. by rewrite length_imap, length_pieces. Qed.

Lemma split_lookup p payload i f :
  split p payload !! i = Some f ->
  packet f = p /\ idx f = i /\ count f = chunk_count payload /\ pieces payload !! i = Some (body f).
Proof.
  unfold split. rewrite list_lookup_imap. intros (c & Hc & ->)%fmap_Some. done.
Qed.

Lemma split_valid p payload :
  p < U64 -> (chunk_count payload <= 64)%nat -> Forall valid (split p payload).
Proof.
  intros Hp Hc. apply Forall_lookup. intros i f (<- & Hi & Hn & Hb)%split_lookup.
  pose proof (lookup_lt_Some _ _ _ Hb) as Hlt. rewrite length_pieces in Hlt.
  pose proof (proj1 (Forall_lookup _ _) (pieces_bounded payload) _ _ Hb).
  unfold valid. pose proof (chunk_count_pos payload). rewrite Hn, Hi. cbn in *. lia.
Qed.

Lemma split_bodies p payload : concat (body <$> split p payload) = payload.
Proof.
  rewrite <- (pieces_concat payload) at 2. f_equal. apply list_eq. intros i.
  unfold split. rewrite list_lookup_fmap, list_lookup_imap. by destruct (pieces payload !! i).
Qed.
End Fragment.

(** ** Properties *)
Import Fragment.

(** the fragment format.  The decoder reads a fragment from a shard
    exactly when the shard is that fragment as the encoder writes it, possibly
    followed by padding, and the fragment is within the format's bounds; the
    parser never reads outside the shard. *)
Theorem fragment_parse_iff (shard : bytes) (f : Fragment.t) :
  no_panic (parse shard) /\
  (parse shard = Ok (Some f) <->
   valid f /\ (length shard <= SHARD)%nat /\ exists pad, shard = build f ++ pad).
Proof.
  split; [apply parse_no_panic|]. split; [apply parse_inv|].
  intros (Hv & Hl & pad & ->). by apply parse_build.
Qed.

(** fragmentation.  A datagram of at most [64 * CHUNK] bytes (every UDP
    payload is at most 65507) is cut into valid fragments that carry its bytes
    in order, each announcing its position and the exact number of pieces, and
    each fits a shard. *)
Theorem split_correct (p : N) (payload : bytes) :
  p < U64 -> (length payload <= 64 * CHUNK)%nat ->
  let fs := split p payload in
  Forall valid fs /\ concat (body <$> fs) = payload /\
  (forall i f, fs !! i = Some f -> packet f = p /\ idx f = i /\ count f = length fs) /\
  Forall (fun f => length (build f) <= SHARD)%nat fs /\
  parse <$> (build <$> fs) = Ok ∘ Some <$> fs.
Proof.
  intros Hp Hl fs.
  assert (Forall valid fs) as Hv.
  { apply split_valid; [done|]. apply chunk_count_le; lia. }
  assert (Forall (fun f => length (build f) <= SHARD)%nat fs) as Hs.
  { eapply Forall_impl; [done|]. intros f (_ & _ & _ & Hb). rewrite length_build.
    unfold CHUNK, SHARD, FRAGMENT_HEADER in *. lia. }
  split_and!; [done|apply split_bodies| |done|].
  - intros i f (-> & -> & -> & _)%split_lookup. unfold fs. by rewrite length_split.
  - rewrite <- list_fmap_compose. apply list_fmap_ext. intros i f Hf. cbn.
    rewrite <- (app_nil_r (build f)). apply parse_build.
    + by eapply Forall_lookup_1 in Hv.
    + rewrite app_nil_r. by eapply Forall_lookup_1 in Hs.
Qed.

Lemma split_correct_witness : concat (body <$> split 7 (replicate 3000 x61)) = replicate 3000 x61.
Proof.
  apply (split_correct 7 (replicate 3000 x61)).
  - reflexivity.
  - rewrite length_replicate. unfold CHUNK, SHARD, FRAGMENT_HEADER. lia.
Defined.
