(* ===== verification/Encoder.v ===== *)
(** * The FEC encoder (src/src/main.rs, [struct Encoder])

    Methods are state-passing computations ([method]); an error keeps the state
    the method had reached, as [&mut self] does.  The Reed-Solomon code is the
    [ErasureCode] parameter. *)
From S2P Require Import Prelude External Wire Adaptive Fragment.

Definition DATA_SHARDS : nat := 10.

Module Encoder.
Record t := mk {
  version : N;
  key_id : N;
  session : N;
  sequence : N;
  packet : N;
  group : N;
  shards : list bytes;
  adaptive : Adaptive.t;
  force_parity : option nat;
}.

(** Assignments to one field. *)
Definition set_sequence x (s : t) := mk (version s) (key_id s) (session s) x (packet s)
  (group s) (shards s) (adaptive s) (force_parity s).
Definition set_packet x (s : t) := mk (version s) (key_id s) (session s) (sequence s) x
  (group s) (shards s) (adaptive s) (force_parity s).
Definition set_group x (s : t) := mk (version s) (key_id s) (session s) (sequence s) (packet s)
  x (shards s) (adaptive s) (force_parity s).
Definition set_shards x (s : t) := mk (version s) (key_id s) (session s) (sequence s) (packet s)
  (group s) x (adaptive s) (force_parity s).

(** [Encoder::with_identity]; [env] is the number SMART_FEC_FORCE_PARITY holds
    in a debug build, [None] in a release build. *)
Definition with_identity (env : option nat) (session version key_id : N) : t :=
  mk version key_id session 1 1 1 [] Adaptive.default ((fun p => p `min` MAX_PARITY)%nat <$> env).

(** [Encoder::report_frame] *)
Definition report_frame (loss_ppm : N) : method t Frame.t :=
  s ← get;
  let f := Frame.mk (version s) (key_id s) KIND_REPORT (session s) (sequence s) 0 0 0 0
             (u32_be loss_ppm) in
  _ ← modify (fun s => set_sequence (add64 (sequence s) 1) s);
  mret f.

(** The number of parity shards [flush] adds to [data] shards. *)
Definition flush_parity (s : t) (data : nat) : nat :=
  (match force_parity s with
   | Some p => p `min` data
   | None =>
       if (Adaptive.parity (adaptive s) =? 0)%nat then 0
       else if (data <? DATA_SHARDS)%nat then Adaptive.parity (adaptive s) `min` data
       else div_ceil (data * Adaptive.parity (adaptive s)) DATA_SHARDS
   end `min` MAX_PARITY)%nat.

(** [iter().map(Vec::len).max().unwrap_or(FRAGMENT_HEADER)] *)
Definition max_len (l : list bytes) : nat :=
  match l with
  | [] => FRAGMENT_HEADER
  | s :: l => foldl (fun m s => m `max` length s)%nat (length s) l
  end.

(** One [frames.push(Frame { .. })] of [flush], with its [sequence += 1]. *)
Definition emit (kind : N) (data parity index : nat) (payload : bytes) : method t Frame.t :=
  s ← get;
  let f := Frame.mk (version s) (key_id s) kind (session s) (sequence s) (group s)
             (as_u16 (N.of_nat index)) (as_u8 (N.of_nat data)) (as_u8 (N.of_nat parity)) payload in
  _ ← modify (fun s => set_sequence (add64 (sequence s) 1) s);
  mret f.

(** [for (index, shard) in self.shards.iter().enumerate()] *)
Fixpoint emit_data (data parity index : nat) (l : list bytes) : method t (list Frame.t) :=
  match l with
  | [] => mret []
  | shard :: l =>
      f ← emit KIND_DATA data parity index shard;
      fs ← emit_data data parity (S index) l;
      mret (f :: fs)
  end.

(** [for p in 0..parity]; [n] rounds are left. *)
Fixpoint emit_parity (data parity : nat) (all : list bytes) (p n : nat) : method t (list Frame.t) :=
  match n with
  | O => mret []
  | S n =>
      shard ← lift (elem_at all (data + p));
      f ← emit KIND_PARITY data parity (data + p) shard;
      fs ← emit_parity data parity all (S p) n;
      mret (f :: fs)
  end.

Section coded.
Context {R : ErasureCode}.

(** [Encoder::flush] *)
Definition flush : method t (list Frame.t) :=
  s ← get;
  if bool_decide (shards s = []) then mret [] else
  let data := length (shards s) in
  let parity := flush_parity s data in
  let shard_len := max_len (shards s) in
  _ ← (if (0 <? parity)%nat then modify (fun s => set_shards (resize shard_len <$> shards s) s)
       else mret ());
  s ← get;
  frames ← emit_data data parity 0 (shards s);
  repair ← (if (0 <? parity)%nat then
     _ ← lift (rs_new data parity);
     s ← get;
     all ← lift (rs_encode data parity (shards s ++ replicate parity (replicate shard_len x00)));
     emit_parity data parity all 0 parity
   else mret []);
  _ ← modify (set_shards []);
  _ ← modify (fun s => set_group (add64 (group s) 1) s);
  mret (frames ++ repair).

(** The loop of [encode_datagram] over the pieces of a datagram. *)
Fixpoint push_pieces (packet_id : N) (count idx : nat) (l : list bytes)
    : method t (list Frame.t) :=
  match l with
  | [] => mret []
  | chunk :: l =>
      let shard := Fragment.build (Fragment.mk packet_id idx count chunk) in
      _ ← modify (fun s => set_shards (shards s ++ [shard]) s);
      s ← get;
      frames ← (if (length (shards s) =? DATA_SHARDS)%nat then flush else mret []);
      rest ← push_pieces packet_id count (S idx) l;
      mret (frames ++ rest)
  end.

(** [Encoder::encode_datagram] *)
Definition encode_datagram (payload : bytes) : method t (list Frame.t) :=
  s ← get;
  let packet_id := packet s in
  _ ← modify (fun s => set_packet (add64 (packet s) 1) s);
  let count := Fragment.chunk_count payload in
  if 65535 <? N.of_nat count then bail "datagram too large"%string else
  push_pieces packet_id count 0 (Fragment.pieces payload).
End coded.

(** The calls the tunnel loops make on an encoder: a datagram to send, the
    flush timer, a loss report of the peer, a report frame to send. *)
Inductive input :=
| Datagram (payload : bytes)
| Flush
| PeerReport (loss_ppm : N)
| ReportFrame (loss_ppm : N).

Section run.
Context {R : ErasureCode}.

Definition step (i : input) : method t (list Frame.t) :=
  match i with
  | Datagram payload => encode_datagram payload
  | Flush => flush
  | PeerReport loss =>
      _ ← modify (fun s => mk (version s) (key_id s) (session s) (sequence s) (packet s) (group s)
                            (shards s) (Adaptive.report (adaptive s) loss) (force_parity s));
      mret []
  | ReportFrame loss => f ← report_frame loss; mret [f]
  end.

Fixpoint run (ins : list input) : method t (list Frame.t) :=
  match ins with
  | [] => mret []
  | i :: ins => fs ← step i; rest ← run ins; mret (fs ++ rest)
  end.
End run.

(** ** Specification *)

(** The length field of a shard, the shard without its padding, and a shard
    that has none. *)
Definition declared (x : bytes) : nat := N.to_nat (from_be_bytes (take 2 (drop 12 x))).
Definition trim (x : bytes) : bytes := take (FRAGMENT_HEADER + declared x) x.
Definition whole (x : bytes) : Prop :=
  (FRAGMENT_HEADER <= length x <= SHARD)%nat /\ length x = (FRAGMENT_HEADER + declared x)%nat.

(** Field ranges, at most [n] well-formed shards collected, a level the
    encoder may use. *)
Definition within (n : nat) (s : t) : Prop :=
  version s < U8 /\ key_id s < U64 /\ session s < U64 /\ sequence s < U64 /\
  packet s < U64 /\ group s < U64 /\ (length (shards s) <= n)%nat /\
  Forall whole (shards s) /\ Adaptive.inv (adaptive s) /\
  (forall p, force_parity s = Some p -> p <= MAX_PARITY)%nat.

(** Between two calls a group is never full. *)
Definition inv (s : t) : Prop := within (DATA_SHARDS - 1) s.

Lemma within_resize n m s : within n s -> (length (shards s) <= m)%nat -> within m s.
Proof. unfold within. tauto. Qed.

(** The most parity shards this encoder can ever put in a group. *)
Definition ceiling (s : t) : nat := default MAX_PARITY (force_parity s).

(** The code works for every group such an encoder can form. *)
Definition codes (R : ErasureCode) (m : nat) : Prop :=
  forall d p, (0 < d <= DATA_SHARDS)%nat -> (0 < p <= m)%nat -> ErasureLaws R d p.

(** [n] consecutive 64-bit sequence numbers from [q]. *)
Definition seqs (q : N) (n : nat) : list N := (fun k => as_u64 (q + N.of_nat k)) <$> seq 0 n.

(** A frame of session [s] the peer's decoder has no reason to refuse. *)
Definition acceptable (s : t) (f : Frame.t) : Prop :=
  Frame.wf f /\ Frame.version f = version s /\ Frame.key_id f = key_id s /\
  Frame.session f = session s /\
  (Frame.kind f = KIND_REPORT /\ length (Frame.payload f) = 4%nat \/
   (Frame.kind f = KIND_DATA \/ Frame.kind f = KIND_PARITY) /\
   (FRAGMENT_HEADER <= length (Frame.payload f) <= SHARD)%nat /\
   0 < Frame.data f <= N.of_nat DATA_SHARDS /\ Frame.parity f <= N.of_nat MAX_PARITY /\
   Frame.index f < Frame.data f + Frame.parity f).

(** The fragments a list of frames carries in its data frames. *)
Definition sources (fs : list Frame.t) : list bytes :=
  (fun f => trim (Frame.payload f)) <$> filter (fun f => Frame.kind f = KIND_DATA) fs.

(** What an operation does: from [s] it emits [fs] and leaves [s'], having
    taken in [n] datagrams cut into the fragments [frags]. *)
Record effect (s : t) (n : N) (frags : list bytes) (fs : list Frame.t) (s' : t) : Prop := {
  effect_inv : inv s';
  effect_identity : version s' = version s /\ key_id s' = key_id s /\ session s' = session s /\
    force_parity s' = force_parity s;
  effect_packet : packet s' = as_u64 (packet s + n);
  effect_sequence : sequence s' = as_u64 (sequence s + N.of_nat (length fs));
  effect_sequences : Frame.sequence <$> fs = seqs (sequence s) (length fs);
  effect_conserves : sources fs ++ shards s' = shards s ++ frags;
  effect_acceptable : Forall (acceptable s) fs;
}.

(** The frames of one group whose shards (padded data, then parity) are [all]. *)
Definition group_frames (s : t) (data : nat) (all : list bytes) : list Frame.t :=
  imap (fun i shard => Frame.mk (version s) (key_id s)
    (if (i <? data)%nat then KIND_DATA else KIND_PARITY) (session s)
    (as_u64 (sequence s + N.of_nat i)) (group s) (N.of_nat i) (N.of_nat data)
    (N.of_nat (length all - data)) shard) all.

(** The fragments of the datagrams in a list of calls, the first of them
    numbered [p], and how many there are. *)
Fixpoint fragments (p : N) (ins : list input) : list bytes :=
  match ins with
  | [] => []
  | Datagram payload :: ins =>
      (Fragment.build <$> Fragment.split p payload) ++ fragments (add64 p 1) ins
  | _ :: ins => fragments p ins
  end.

Fixpoint datagrams (ins : list input) : list bytes :=
  match ins with
  | [] => []
  | Datagram payload :: ins => payload :: datagrams ins
  | _ :: ins => datagrams ins
  end.

(** Calls the tunnel makes: datagrams a socket can deliver and 32-bit reports. *)
Definition input_ok (i : input) : Prop :=
  match i with
  | Datagram payload => (Fragment.chunk_count payload <= 64)%nat
  | PeerReport loss => loss < U32
  | _ => True
  end.

(** ** Sequence numbers *)
Lemma as_u64_add_l a b : as_u64 (as_u64 a + b) = as_u64 (a + b).
Proof. apply N.Div0.add_mod_idemp_l. Qed.

Lemma length_seqs q n : length (seqs q n) = n.
Proof. unfold seqs. by rewrite length_fmap, length_seq. Qed.

Lemma seqs_as_u64 q n : seqs (as_u64 q) n = seqs q n.
Proof. unfold seqs. apply list_fmap_ext. intros i k _. apply as_u64_add_l. Qed.

Lemma seqs_app q n m : seqs q (n + m) = seqs q n ++ seqs (q + N.of_nat n) m.
Proof.
  unfold seqs. rewrite seq_app, fmap_app. f_equal.
  rewrite Nat.add_0_l, <- (Nat.add_0_r n) at 1. rewrite <- fmap_add_seq, <- list_fmap_compose.
  apply list_fmap_ext. intros i k _. cbn. f_equal. lia.
Qed.

Lemma imap_seqs q n {A} (g : nat -> A -> N) (l : list A) :
  length l = n -> (forall k x, g k x = as_u64 (q + N.of_nat k)) -> imap g l = seqs q n.
Proof.
  intros <- Hg. unfold seqs. apply list_eq. intros i.
  rewrite list_lookup_imap, list_lookup_fmap.
  destruct (l !! i) as [x|] eqn:E; cbn.
  - rewrite lookup_seq_lt by (by apply lookup_lt_Some in E). cbn. by rewrite Hg.
  - apply lookup_ge_None in E. by rewrite lookup_seq_ge by lia.
Qed.

(** ** Padding *)
Lemma length_take_drop12 (x : bytes) : (14 <= length x)%nat -> length (take 2 (drop 12 x)) = 2%nat.
Proof. intros. rewrite length_take, length_drop. lia. Qed.

Lemma declared_app x pad : (14 <= length x)%nat -> declared (x ++ pad) = declared x.
Proof.
  intros Hx. unfold declared. rewrite drop_app_le by lia.
  rewrite take_app_le by (rewrite length_drop; lia). done.
Qed.

Lemma trim_app x pad : whole x -> trim (x ++ pad) = x.
Proof.
  intros [Hx Hd]. unfold FRAGMENT_HEADER in *. unfold trim. rewrite declared_app by lia.
  unfold FRAGMENT_HEADER. rewrite <- Hd. apply take_app_length.
Qed.

Lemma trim_whole x : whole x -> trim x = x.
Proof. intros H. rewrite <- (app_nil_r x) at 1. by apply trim_app. Qed.

Lemma trim_resize n x : whole x -> (length x <= n)%nat -> trim (resize n x) = x.
Proof. intros. unfold resize. rewrite take_ge by done. by apply trim_app. Qed.

Lemma build_whole p i c b :
  (length b <= CHUNK)%nat -> whole (Fragment.build (Fragment.mk p i c b)).
Proof.
  intros Hb. unfold whole. rewrite Fragment.length_build. cbn [Fragment.body].
  assert (declared (Fragment.build (Fragment.mk p i c b)) = length b) as ->.
  { unfold declared, Fragment.build. cbn [Fragment.packet Fragment.idx Fragment.count Fragment.body].
    rewrite !app_assoc, <- (app_assoc _ _ b), <- !app_assoc.
    rewrite (drop_app_ge (u64_be p)) by (rewrite length_u64_be; lia).
    rewrite length_u64_be. rewrite (drop_app_ge (u16_be _)) by (rewrite length_u16_be; lia).
    rewrite length_u16_be. rewrite (drop_app_ge (u16_be _)) by (rewrite length_u16_be; lia).
    rewrite length_u16_be. cbn [Nat.sub]. rewrite drop_0.
    rewrite take_app_le, take_ge by (rewrite length_u16_be; lia).
    unfold CHUNK, SHARD, FRAGMENT_HEADER in Hb.
    rewrite as_u16_small by width_lia. rewrite from_u16_be by width_lia. apply Nat2N.id. }
  unfold CHUNK, SHARD, FRAGMENT_HEADER in *. lia.
Qed.

Lemma foldl_max_spec (l : list bytes) m n :
  (m <= n)%nat -> Forall (fun x => length x <= n)%nat l ->
  (m <= foldl (fun m s => m `max` length s)%nat m l <= n)%nat /\
  Forall (fun x => length x <= foldl (fun m s => m `max` length s)%nat m l)%nat l.
Proof.
  revert m. induction l as [|x l IH]; intros m Hm HF; [split; [cbn; lia|constructor]|].
  inversion HF as [|?? Hx Hl]; subst. cbn.
  destruct (IH (m `max` length x)%nat) as [Hb Hall]; [lia|done|].
  split; [lia|]. constructor; [lia|done].
Qed.

Lemma max_len_spec l :
  l <> [] -> Forall whole l ->
  (FRAGMENT_HEADER <= max_len l <= SHARD)%nat /\ Forall (fun x => length x <= max_len l)%nat l.
Proof.
  intros Hne HF. destruct l as [|x l]; [done|]. inversion HF as [|?? [Hx _] Hl]; subst.
  destruct (foldl_max_spec l (length x) SHARD) as [Hb Hall]; [lia| |].
  { eapply Forall_impl; [done|]. by intros y [[_ Hy] _]. }
  unfold max_len. split; [lia|]. constructor; [lia|done].
Qed.

(** ** Emitting frames *)
Lemma set_sequence_id s : set_sequence (sequence s) s = s.
Proof. by destruct s. Qed.

Lemma imap_frames_S s (g : nat -> N) kind data parity (l : list bytes) (x : bytes) :
  sequence s < U64 ->
  imap (fun k x => Frame.mk (version s) (key_id s) kind (session s)
    (as_u64 (sequence s + N.of_nat k)) (group s) (g k) data parity x) (x :: l)
  = Frame.mk (version s) (key_id s) kind (session s) (sequence s) (group s) (g 0%nat) data parity x
    :: imap (fun k x => Frame.mk (version s) (key_id s) kind (session s)
         (as_u64 (add64 (sequence s) 1 + N.of_nat k)) (group s) (g (S k)) data parity x) l.
Proof.
  intros Hs. rewrite imap_cons. f_equal.
  - by rewrite N.add_0_r, as_u64_small.
  - apply imap_ext. intros k y _. cbn. unfold add64. rewrite as_u64_add_l. do 2 f_equal. lia.
Qed.

Lemma emit_data_spec data parity i l s :
  sequence s < U64 ->
  emit_data data parity i l s =
  (Ok (imap (fun k x => Frame.mk (version s) (key_id s) KIND_DATA (session s)
         (as_u64 (sequence s + N.of_nat k)) (group s) (as_u16 (N.of_nat (i + k)))
         (as_u8 (N.of_nat data)) (as_u8 (N.of_nat parity)) x) l),
   set_sequence (as_u64 (sequence s + N.of_nat (length l))) s).
Proof.
  revert i s. induction l as [|x l IH]; intros i s Hs.
  - cbn. rewrite N.add_0_r, as_u64_small by done. by rewrite set_sequence_id.
  - rewrite (imap_frames_S s (fun k => as_u16 (N.of_nat (i + k)))) by done.
    cbn [emit_data]. unfold mbind, method_bind at 1, emit, mbind, method_bind, get, modify, mret, method_ret.
    rewrite IH by apply add64_lt. destruct s as [v k se q p g sh a f]. cbn.
    f_equal.
    + f_equal. f_equal; [by rewrite Nat.add_0_r|]. apply imap_ext. intros j y _. cbn.
      by rewrite Nat.add_succ_r.
    + unfold set_sequence. cbn. f_equal. unfold add64. rewrite as_u64_add_l. f_equal. lia.
Qed.

Lemma emit_parity_spec data parity pre l p s :
  sequence s < U64 -> length pre = (data + p)%nat ->
  emit_parity data parity (pre ++ l) p (length l) s =
  (Ok (imap (fun k x => Frame.mk (version s) (key_id s) KIND_PARITY (session s)
         (as_u64 (sequence s + N.of_nat k)) (group s) (as_u16 (N.of_nat (data + p + k)))
         (as_u8 (N.of_nat data)) (as_u8 (N.of_nat parity)) x) l),
   set_sequence (as_u64 (sequence s + N.of_nat (length l))) s).
Proof.
  revert pre p s. induction l as [|x l IH]; intros pre p s Hs Hpre.
  - cbn. rewrite N.add_0_r, as_u64_small by done. by rewrite set_sequence_id.
  - rewrite (imap_frames_S s (fun k => as_u16 (N.of_nat (data + p + k)))) by done.
    cbn [emit_parity length]. unfold mbind, method_bind at 1, lift.
    rewrite elem_at_app_r, Hpre, Nat.sub_diag by lia. cbn [elem_at lookup list_lookup unwrap].
    unfold emit, mbind, method_bind, get, modify, mret, method_ret.
    rewrite (cons_middle x pre l), app_assoc.
    rewrite IH; [|apply add64_lt|rewrite length_app; cbn; lia].
    destruct s as [v k se q pk g sh a f]. cbn. f_equal.
    + f_equal. f_equal; [by rewrite Nat.add_0_r|]. apply imap_ext. intros j y _. cbn.
      f_equal. f_equal. lia.
    + unfold set_sequence. cbn. f_equal. unfold add64. rewrite as_u64_add_l. f_equal. lia.
Qed.

(** ** Flushing a group *)
Section flushing.
Context {R : ErasureCode}.

(** The shards that go on the wire: as collected when there is no parity, else
    padded to one length and followed by the parity the code computes. *)
Definition codeword (s : t) (all : list bytes) : Prop :=
  let data := length (shards s) in
  let parity := flush_parity s data in
  if (parity =? 0)%nat then all = shards s
  else exists par, length par = parity /\
    all = (resize (max_len (shards s)) <$> shards s) ++ par /\
    rs_encode data parity ((resize (max_len (shards s)) <$> shards s)
      ++ replicate parity (replicate (max_len (shards s)) x00)) = Ok all /\
    Forall (fun x => length x = max_len (shards s)) par.

Lemma flush_parity_le s d :
  (flush_parity s d <= MAX_PARITY)%nat.
Proof. unfold flush_parity. lia. Qed.

(** The level the groups are built with. *)
Definition level (s : t) : nat := default (Adaptive.parity (adaptive s)) (force_parity s).

Lemma div_ceil_mul x y : (0 < y)%nat -> div_ceil (y * x) y = x.
Proof. intros. apply div_ceil_unique; lia. Qed.

Lemma flush_parity_level s d :
  (forall p, force_parity s = Some p -> p <= MAX_PARITY)%nat ->
  (Adaptive.parity (adaptive s) <= MAX_PARITY)%nat -> (0 < d <= DATA_SHARDS)%nat ->
  flush_parity s d = (level s `min` d)%nat.
Proof.
  intros Hf Ha Hd. unfold flush_parity, level, MAX_PARITY, DATA_SHARDS in *.
  destruct (force_parity s) as [p|]; cbn [default].
  - specialize (Hf p eq_refl). cbn. lia.
  - destruct (Nat.eqb_spec (Adaptive.parity (adaptive s)) 0) as [->|]; [done|].
    destruct (Nat.ltb_spec d 10); [cbn; lia|].
    replace d with 10%nat by lia. rewrite div_ceil_mul by lia. cbn. lia.
Qed.

Lemma level_le_ceiling n s : within n s -> (level s <= ceiling s)%nat.
Proof.
  intros (_ & _ & _ & _ & _ & _ & _ & _ & Ha & _). unfold level, ceiling.
  destruct (force_parity s); cbn; [done|]. by destruct Ha.
Qed.

Lemma codeword_length s all :
  codeword s all -> length all = (length (shards s) + flush_parity s (length (shards s)))%nat.
Proof.
  unfold codeword. destruct (Nat.eqb_spec (flush_parity s (length (shards s))) 0) as [->|].
  - intros ->. lia.
  - intros (par & Hp & -> & _). rewrite length_app, length_fmap. lia.
Qed.

Lemma flush_empty s : shards s = [] -> flush s = (Ok [], s).
Proof. intros H. unfold flush, mbind, method_bind, get. by rewrite H. Qed.

Lemma emit_both s data (pad par : list bytes) :
  sequence s < U64 -> length pad = data -> (data + length par < 256)%nat ->
  imap (fun k x => Frame.mk (version s) (key_id s) KIND_DATA (session s)
         (as_u64 (sequence s + N.of_nat k)) (group s) (as_u16 (N.of_nat (0 + k)))
         (as_u8 (N.of_nat data)) (as_u8 (N.of_nat (length par))) x) pad
  ++ imap (fun k x => Frame.mk (version s) (key_id s) KIND_PARITY (session s)
         (as_u64 (as_u64 (sequence s + N.of_nat data) + N.of_nat k)) (group s)
         (as_u16 (N.of_nat (data + 0 + k)))
         (as_u8 (N.of_nat data)) (as_u8 (N.of_nat (length par))) x) par
  = group_frames s data (pad ++ par).
Proof.
  intros Hs Hd Hn. unfold group_frames. rewrite imap_app, length_app, Hd.
  replace (data + length par - data)%nat with (length par) by lia.
  rewrite !as_u8_small by width_lia.
  f_equal; apply imap_ext; intros k x Hk; apply lookup_lt_Some in Hk; cbn beta.
  - rewrite as_u16_small by width_lia. by rewrite (proj2 (Nat.ltb_lt _ _)) by lia.
  - rewrite as_u16_small by width_lia. rewrite (proj2 (Nat.ltb_ge _ _)) by lia.
    rewrite as_u64_add_l. f_equal; [f_equal|]; lia.
Qed.

Lemma flush_spec s :
  sequence s < U64 -> shards s <> [] -> (length (shards s) <= DATA_SHARDS)%nat ->
  Forall whole (shards s) ->
  (let d := length (shards s) in
   0 < flush_parity s d -> ErasureLaws R d (flush_parity s d))%nat ->
  exists all, codeword s all /\
    flush s = (Ok (group_frames s (length (shards s)) all),
      mk (version s) (key_id s) (session s) (as_u64 (sequence s + N.of_nat (length all)))
        (packet s) (add64 (group s) 1) [] (adaptive s) (force_parity s)).
Proof.
  intros Hs Hne Hlen Hw Hlaw. cbv zeta in Hlaw.
  pose proof (flush_parity_le s (length (shards s))) as Hp.
  destruct (max_len_spec (shards s) Hne Hw) as [Hml Hle].
  unfold flush, codeword, mbind, method_bind at 1, get at 1.
  rewrite bool_decide_false by done. cbv zeta.
  set (d := length (shards s)) in *. set (n := flush_parity s d) in *.
  set (m := max_len (shards s)) in *. unfold MAX_PARITY, DATA_SHARDS in *.
  destruct (Nat.eqb_spec n 0) as [Hn|Hn].
  - exists (shards s). split; [done|]. rewrite (proj2 (Nat.ltb_ge _ _)) by lia.
    unfold method_bind, mret, method_ret, get. rewrite emit_data_spec by done.
    rewrite Hn. cbn [set_shards set_group set_sequence].
    pose proof (emit_both s d (shards s) [] Hs eq_refl ltac:(cbn; lia)) as Hb.
    rewrite (app_nil_r (shards s)) in Hb. rewrite <- Hb.
    cbn [length imap]. done.
  - rewrite (proj2 (Nat.ltb_lt _ _)) by lia.
    destruct (Hlaw ltac:(lia)) as [Hnew Henc _].
    destruct (Henc (resize m <$> shards s) (replicate n (replicate m x00)) m) as (par & He & Hpar & HF).
    + unfold FRAGMENT_HEADER in *. lia.
    + by rewrite length_fmap.
    + by rewrite length_replicate.
    + apply Forall_app. split; [|by apply Forall_replicate, length_replicate].
      apply Forall_fmap, Forall_true. intros x. apply length_resize.
    + exists ((resize m <$> shards s) ++ par). split; [by exists par|].
      unfold method_bind, modify, mret, method_ret, get, lift.
      rewrite emit_data_spec by done. cbn [set_shards shards set_sequence].
      rewrite Hnew. rewrite He.
      assert (length (resize m <$> shards s) = d) as Hld by (by rewrite length_fmap).
      rewrite <- Hpar at 2. rewrite emit_parity_spec;
        [|apply as_u64_lt|rewrite Hld; lia].
      cbn [version key_id session sequence packet group set_sequence set_shards set_group].
      rewrite <- (emit_both s d _ par) by (done || lia).
      rewrite length_app, Hld. rewrite !Hpar.
      unfold set_group, set_shards, set_sequence. cbn. f_equal.
      f_equal. rewrite as_u64_add_l. f_equal. lia.
Qed.

Lemma flush_parity_ceiling s d :
  within DATA_SHARDS s -> (0 < d <= DATA_SHARDS)%nat ->
  (flush_parity s d <= ceiling s)%nat.
Proof.
  intros Hw Hd. pose proof (level_le_ceiling _ _ Hw).
  destruct Hw as (_ & _ & _ & _ & _ & _ & _ & _ & (Ha & _) & Hf).
  rewrite flush_parity_level by done. lia.
Qed.

(** *** The effect of the operations *)
Lemma effect_refl s : inv s -> effect s 0 [] [] s.
Proof.
  intros Hi. pose proof Hi as (_ & _ & _ & Hs & Hp & _). split.
  - done.
  - done.
  - by rewrite N.add_0_r, as_u64_small.
  - cbn. by rewrite N.add_0_r, as_u64_small.
  - done.
  - cbn. by rewrite app_nil_r.
  - constructor.
Qed.

Lemma effect_trans s1 s2 s3 n1 n2 f1 f2 fs1 fs2 :
  effect s1 n1 f1 fs1 s2 -> effect s2 n2 f2 fs2 s3 ->
  effect s1 (n1 + n2) (f1 ++ f2) (fs1 ++ fs2) s3.
Proof.
  intros [Hi1 (V1 & K1 & S1 & F1) Hp1 Hq1 Hqs1 Hc1 Ha1] [Hi2 (V2 & K2 & S2 & F2) Hp2 Hq2 Hqs2 Hc2 Ha2].
  split.
  - done.
  - by rewrite V2, K2, S2, F2.
  - rewrite Hp2, Hp1, as_u64_add_l. f_equal. lia.
  - rewrite Hq2, Hq1, as_u64_add_l, length_app. f_equal. lia.
  - rewrite fmap_app, Hqs1, Hqs2, length_app, seqs_app, Hq1. by rewrite seqs_as_u64.
  - unfold sources in *. rewrite filter_app, fmap_app, <- app_assoc, Hc2, !app_assoc. by rewrite Hc1.
  - apply Forall_app. split; [done|]. eapply Forall_impl; [done|].
    unfold acceptable. intros f. by rewrite V1, K1, S1.
Qed.

Lemma sources_imap kind (g : nat -> bytes -> Frame.t) l :
  (forall k x, l !! k = Some x -> Frame.kind (g k x) = kind /\ Frame.payload (g k x) = x) ->
  sources (imap g l) = if kind =? KIND_DATA then trim <$> l else [].
Proof.
  revert g. induction l as [|x l IH]; intros g Hg; [by destruct (kind =? KIND_DATA)|].
  rewrite imap_cons. unfold sources. destruct (Hg 0%nat x eq_refl) as [Hk Hx].
  rewrite filter_cons. rewrite <- Hk in IH |- *. specialize (IH (g ∘ S)).
  unfold sources in IH. destruct (decide (Frame.kind (g 0%nat x) = KIND_DATA)) as [E|E].
  - rewrite fmap_cons, Hx, IH.
    + by rewrite E.
    + intros k y Hy. rewrite Hk. by apply (Hg (S k)).
  - rewrite IH.
    + by rewrite (proj2 (N.eqb_neq _ _)).
    + intros k y Hy. rewrite Hk. by apply (Hg (S k)).
Qed.

Lemma sources_group s all :
  Forall whole (shards s) -> shards s <> [] -> codeword s all ->
  sources (group_frames s (length (shards s)) all) = shards s.
Proof.
  intros Hw Hne. unfold codeword, group_frames. cbv zeta. set (d := length (shards s)).
  set (n := flush_parity s d). destruct (max_len_spec _ Hne Hw) as [_ Hle].
  destruct (Nat.eqb_spec n 0) as [Hn|Hn].
  - intros ->. rewrite (sources_imap KIND_DATA).
    + cbn [N.eqb]. rewrite <- (list_fmap_id (shards s)) at 2. apply list_fmap_ext.
      intros i x Hx. apply trim_whole. by eapply Forall_lookup_1 in Hw.
    + intros k x Hx%lookup_lt_Some. cbn [Frame.kind Frame.payload].
      by rewrite (proj2 (Nat.ltb_lt _ _)).
  - intros (par & Hpar & -> & _ & _). rewrite imap_app. unfold sources.
    rewrite filter_app, fmap_app. rewrite length_fmap. fold d.
    rewrite <- (app_nil_r (shards s)) at 3. f_equal.
    + change (sources (imap (fun i shard => Frame.mk (version s) (key_id s)
        (if (i <? d)%nat then KIND_DATA else KIND_PARITY) (session s)
        (as_u64 (sequence s + N.of_nat i)) (group s) (N.of_nat i) (N.of_nat d)
        (N.of_nat (length ((resize (max_len (shards s)) <$> shards s) ++ par) - d)) shard)
        (resize (max_len (shards s)) <$> shards s)) = shards s).
      rewrite (sources_imap KIND_DATA).
      * cbn [N.eqb]. rewrite <- list_fmap_compose.
        rewrite <- (list_fmap_id (shards s)) at 3. apply list_fmap_ext.
        intros i x Hx. cbn. eapply Forall_lookup_1 in Hw, Hle; [|done..]. by apply trim_resize.
      * intros k x Hx%lookup_lt_Some. rewrite length_fmap in Hx. cbn [Frame.kind Frame.payload].
        by rewrite (proj2 (Nat.ltb_lt _ _)).
    + apply (sources_imap KIND_PARITY). intros k x Hx. cbn [Frame.kind Frame.payload].
      by rewrite (proj2 (Nat.ltb_ge _ _)) by lia.
Qed.

Lemma codeword_sized s all :
  Forall whole (shards s) -> shards s <> [] -> codeword s all ->
  Forall (fun x => FRAGMENT_HEADER <= length x <= SHARD)%nat all.
Proof.
  intros Hw Hne. destruct (max_len_spec _ Hne Hw) as [Hm _]. unfold codeword. cbv zeta.
  destruct (_ =? 0)%nat.
  - intros ->. eapply Forall_impl; [done|]. by intros x [].
  - intros (par & _ & -> & _ & HF). apply Forall_app. split.
    + apply Forall_fmap, Forall_true. intros x. cbn. by rewrite length_resize.
    + eapply Forall_impl; [done|]. intros x Hx. cbn beta in Hx. by rewrite Hx.
Qed.

Lemma group_acceptable s all :
  within DATA_SHARDS s -> shards s <> [] -> codeword s all ->
  Forall (acceptable s) (group_frames s (length (shards s)) all).
Proof.
  intros (Hv & Hk & Hs & Hq & _ & Hg & Hl & Hw & _) Hne Hc.
  pose proof (codeword_sized s all Hw Hne Hc) as Hsz.
  pose proof (codeword_length s all Hc) as Hlen.
  pose proof (flush_parity_le s (length (shards s))) as Hp.
  assert (0 < length (shards s))%nat as Hpos by (destruct (shards s); [done|cbn; lia]).
  apply Forall_lookup. intros i f. unfold group_frames. rewrite list_lookup_imap.
  intros (x & Hx & ->)%fmap_Some.
  pose proof (proj1 (Forall_lookup _ _) Hsz _ _ Hx) as Hxl. cbn beta in Hxl.
  apply lookup_lt_Some in Hx. unfold acceptable, Frame.wf.
  cbn [Frame.version Frame.key_id Frame.kind Frame.session Frame.sequence Frame.group Frame.index
    Frame.data Frame.parity Frame.payload].
  unfold MAX_PARITY, DATA_SHARDS, SHARD, FRAGMENT_HEADER in *.
  split_and!; try done; try width_lia.
  - by destruct (_ <? _)%nat.
  - apply as_u64_lt.
  - right. split; [by destruct (_ <? _)%nat; [left|right]|]. width_lia.
Qed.

Lemma flush_effect s :
  within DATA_SHARDS s -> codes R (ceiling s) ->
  exists fs s', flush s = (Ok fs, s') /\ shards s' = [] /\
    within DATA_SHARDS s' /\ effect s 0 [] fs s'.
Proof.
  intros Hin Hlaw. pose proof Hin as (Hv & Hk & Hs & Hq & Hp & Hg & Hl & Hw & Ha & Hf).
  destruct (decide (shards s = [])) as [He|Hne].
  - exists [], s. rewrite flush_empty by done. split_and!; [done..|].
    apply effect_refl. unfold inv, within. rewrite He. cbn. split_and!; try done. lia.
  - assert (0 < length (shards s) <= DATA_SHARDS)%nat as Hd.
    { destruct (shards s); [done|cbn in *; lia]. }
    destruct (flush_spec s) as (all & Hc & ->); [done..| |].
    { cbv zeta. intros Hpos. apply Hlaw; [done|]. split; [done|].
      by apply flush_parity_ceiling. }
    eexists _, _. split; [done|]. split; [done|].
    assert (inv (mk (version s) (key_id s) (session s) (as_u64 (sequence s + N.of_nat (length all)))
        (packet s) (add64 (group s) 1) [] (adaptive s) (force_parity s))) as Hi.
    { unfold inv, within. cbn [version key_id session sequence packet group shards adaptive
        force_parity length].
      split_and!; try done; [apply as_u64_lt|apply add64_lt|lia]. }
    split. { apply (within_resize _ _ _ Hi). cbn. lia. }
    assert (length (group_frames s (length (shards s)) all) = length all) as Hfl
      by apply length_imap.
    split.
    + done.
    + done.
    + cbn. by rewrite N.add_0_r, as_u64_small.
    + by rewrite Hfl.
    + rewrite Hfl. unfold group_frames. rewrite fmap_imap. by apply imap_seqs.
    + cbn [shards]. by rewrite sources_group, app_nil_r.
    + by apply group_acceptable.
Qed.

(** Taking in one piece. *)
Lemma push_effect s p idx count c :
  inv s -> codes R (ceiling s) -> (length c <= CHUNK)%nat ->
  let x := Fragment.build (Fragment.mk p idx count c) in
  exists fs s',
    (_ ← modify (fun s => set_shards (shards s ++ [x]) s);
     s ← get;
     if (length (shards s) =? DATA_SHARDS)%nat then flush else mret []) s = (Ok fs, s') /\
    effect s 0 [x] fs s'.
Proof.
  intros Hi Hlaw Hc x. set (s1 := set_shards (shards s ++ [x]) s).
  pose proof Hi as (Hv & Hk & Hs & Hq & Hp & Hg & Hl & Hw & Ha & Hf).
  assert (length (shards s1) = S (length (shards s))) as Hl1 by (cbn; len).
  assert (within DATA_SHARDS s1) as Hi1.
  { unfold within. split_and!; try done.
    - rewrite Hl1. unfold DATA_SHARDS in *. lia.
    - cbn. apply Forall_app. split; [done|]. constructor; [by apply build_whole|done]. }
  unfold mbind, method_bind, modify, get. fold s1.
  destruct (Nat.eqb_spec (length (shards s1)) DATA_SHARDS) as [Hfull|Hnot].
  - destruct (flush_effect s1 Hi1 Hlaw) as (fs & s' & Hflush & He & _ & [E1 E2 E3 E4 E5 E6 E7]).
    exists fs, s'. split; [done|]. split; try done.
    by rewrite E6, app_nil_r.
  - exists [], s1. split; [done|]. split.
    + apply (within_resize _ _ _ Hi1). unfold DATA_SHARDS in *. lia.
    + done.
    + cbn. by rewrite N.add_0_r, as_u64_small.
    + cbn. by rewrite N.add_0_r, as_u64_small.
    + done.
    + done.
    + constructor.
Qed.

Lemma effect_codes s n frags fs s' : effect s n frags fs s' -> codes R (ceiling s) -> codes R (ceiling s').
Proof. intros [_ (_ & _ & _ & Hf) _ _ _ _ _]. unfold ceiling. by rewrite Hf. Qed.

Lemma push_pieces_effect p count idx l s :
  inv s -> codes R (ceiling s) -> Forall (fun c => length c <= CHUNK)%nat l ->
  exists fs s', push_pieces p count idx l s = (Ok fs, s') /\
    effect s 0 (imap (fun i c => Fragment.build (Fragment.mk p (idx + i) count c)) l) fs s'.
Proof.
  revert idx s. induction l as [|c l IH]; intros idx s Hi Hlaw HF.
  - exists [], s. split; [done|]. by apply effect_refl.
  - inversion HF as [|?? Hc Hl]; subst.
    destruct (push_effect s p idx count c Hi Hlaw Hc) as (fs1 & s1 & Hpush & He1).
    destruct (IH (S idx) s1) as (fs2 & s2 & Hrest & He2);
      [by destruct He1|by eapply effect_codes|done|].
    exists (fs1 ++ fs2), s2. split.
    + cbn [push_pieces]. unfold mbind, method_bind, modify, get in *. cbn beta iota zeta in *.
      rewrite Hpush, Hrest. done.
    + rewrite imap_cons, Nat.add_0_r. pose proof (effect_trans _ _ _ _ _ _ _ _ _ He1 He2) as He.
      cbn [app] in He. replace (imap _ l) with (imap (fun i c =>
        Fragment.build (Fragment.mk p (S idx + i) count c)) l); [done|].
      apply imap_ext. intros i b _. cbn beta. unfold compose. by rewrite Nat.add_succ_r.
Qed.

Lemma encode_datagram_effect payload s :
  inv s -> codes R (ceiling s) -> N.of_nat (Fragment.chunk_count payload) <= 65535 ->
  exists fs s', encode_datagram payload s = (Ok fs, s') /\
    effect s 1 (Fragment.build <$> Fragment.split (packet s) payload) fs s'.
Proof.
  intros Hi Hlaw Hc. pose proof Hi as (Hv & Hk & Hs & Hq & Hp & Hg & Hl & Hw & Ha & Hf).
  set (s1 := set_packet (add64 (packet s) 1) s).
  assert (inv s1) as Hi1. { unfold inv, within. split_and!; try done. apply add64_lt. }
  destruct (push_pieces_effect (packet s) (Fragment.chunk_count payload) 0 (Fragment.pieces payload) s1)
    as (fs & s' & Hpush & He); [done|done|apply Fragment.pieces_bounded|].
  exists fs, s'. split.
  - unfold encode_datagram, mbind, method_bind, get, modify.
    rewrite (proj2 (N.ltb_ge _ _)) by done. fold s1. by rewrite Hpush.
  - destruct He as [E1 E2 E3 E4 E5 E6 E7]. split; try done.
    + rewrite E3. cbn. unfold add64. by rewrite N.add_0_r, as_u64_small by apply as_u64_lt.
    + rewrite E6. unfold Fragment.split. by rewrite fmap_imap.
Qed.

Lemma report_effect s loss :
  inv s -> effect s 0 []
    [Frame.mk (version s) (key_id s) KIND_REPORT (session s) (sequence s) 0 0 0 0 (u32_be loss)]
    (set_sequence (add64 (sequence s) 1) s).
Proof.
  intros Hi. pose proof Hi as (Hv & Hk & Hs & Hq & Hp & Hg & Hl & Hw & Ha & Hf). split.
  - unfold inv, within. split_and!; try done. apply add64_lt.
  - done.
  - cbn. by rewrite N.add_0_r, as_u64_small.
  - done.
  - unfold seqs. cbn. by rewrite N.add_0_r, as_u64_small.
  - cbn. by rewrite app_nil_r.
  - constructor; [|done]. unfold acceptable, Frame.wf. cbn.
    rewrite length_u32_be. split_and!; try done. by left.
Qed.

Lemma step_effect i s :
  inv s -> codes R (ceiling s) -> input_ok i ->
  exists fs s', step i s = (Ok fs, s') /\
    effect s (N.of_nat (length (datagrams [i]))) (fragments (packet s) [i]) fs s'.
Proof.
  intros Hi Hlaw Hok. destruct i as [payload| |loss|loss]; cbn [step fragments datagrams length].
  - unfold input_ok in Hok. destruct (encode_datagram_effect payload s Hi Hlaw) as (fs & s' & H & He); [lia|].
    exists fs, s'. split; [done|]. by rewrite app_nil_r.
  - destruct (flush_effect s) as (fs & s' & H & _ & _ & He);
      [eapply within_resize; [done|]|done|by exists fs, s'].
    pose proof Hi as (_ & _ & _ & _ & _ & _ & Hl & _). unfold DATA_SHARDS in *. lia.
  - eexists [], _. split; [done|].
    pose proof Hi as (Hv & Hk & Hs & Hq & Hp & Hg & Hl & Hw & Ha & Hf). split.
    + unfold inv, within. cbn [version key_id session sequence packet group shards adaptive force_parity].
      split_and!; try done. by apply Adaptive.report_inv.
    + done.
    + cbn. by rewrite N.add_0_r, as_u64_small.
    + cbn. by rewrite N.add_0_r, as_u64_small.
    + done.
    + cbn. by rewrite app_nil_r.
    + constructor.
  - eexists _, _. split; [done|]. by apply report_effect.
Qed.

Lemma fragments_cons p i ins :
  p < U64 -> fragments p (i :: ins) =
  fragments p [i] ++ fragments (as_u64 (p + N.of_nat (length (datagrams [i])))) ins.
Proof.
  intros Hp. destruct i; cbn; [by rewrite app_nil_r|..]; by rewrite N.add_0_r, as_u64_small.
Qed.

Lemma run_effect ins s :
  inv s -> codes R (ceiling s) -> Forall input_ok ins ->
  exists fs s', run ins s = (Ok fs, s') /\
    effect s (N.of_nat (length (datagrams ins))) (fragments (packet s) ins) fs s'.
Proof.
  revert s. induction ins as [|i ins IH]; intros s Hi Hlaw HF.
  - exists [], s. split; [done|]. by apply effect_refl.
  - inversion HF as [|?? Hok Hins]; subst.
    destruct (step_effect i s Hi Hlaw Hok) as (fs1 & s1 & Hstep & He1).
    destruct (IH s1) as (fs2 & s2 & Hrun & He2); [by destruct He1|by eapply effect_codes|done|].
    exists (fs1 ++ fs2), s2. split.
    + cbn [run]. unfold mbind, method_bind. rewrite Hstep, Hrun. done.
    + pose proof (effect_trans _ _ _ _ _ _ _ _ _ He1 He2) as He.
      destruct He1 as [_ _ Hpk _ _ _ _]. rewrite Hpk in He.
      rewrite fragments_cons by (by destruct Hi as (_ & _ & _ & _ & Hp & _)).
      replace (N.of_nat (length (datagrams (i :: ins)))) with
        (N.of_nat (length (datagrams [i])) + N.of_nat (length (datagrams ins))); [done|].
      destruct i; cbn; lia.
Qed.

Lemma with_identity_inv env session version key_id :
  session < U64 -> version < U8 -> key_id < U64 -> inv (with_identity env session version key_id).
Proof.
  intros. unfold inv, within, with_identity.
  cbn [Encoder.version Encoder.key_id Encoder.session sequence packet group shards adaptive
    force_parity length].
  split_and!; try done; [lia|apply Adaptive.inv_default|].
  intros p. destruct env; cbn; intros; simplify_eq. lia.
Qed.
End flushing.

Lemma xor_codes : codes xor_code 1.
Proof. intros d p Hd Hp. replace p with 1%nat by lia. apply xor_code_laws. lia. Qed.

(** ** On the wire *)
Lemma length_encode_wire (C : Crypto) (L : CryptoLaws C) s f key nonce suffix w :
  acceptable s f -> length nonce = V3_NONCE -> length suffix = V3_SELECTOR_PREFIX ->
  Frame.encode_wire f key nonce suffix = Ok w -> (length w <= 1419)%nat.
Proof.
  intros (_ & _ & _ & _ & Hk) Hn Hs. unfold Frame.encode_wire.
  assert (length (Frame.payload f) <= 1340)%nat as Hp.
  { unfold SHARD in Hk. destruct Hk as [[_ ->]|(_ & ? & _)]; lia. }
  destruct (negb _); intros H.
  - simplify_res. unfold Frame.encode. rewrite length_app, length_mac_tag, length_untagged.
    unfold header_size, HEADER, HEADER_V2, TAG. destruct (_ =? _); lia.
  - destruct (aead_encrypt _ _ _) as [c|] eqn:Hc; [|discriminate H]. cbn [context mbind outcome_bind] in H.
    simplify_res. apply aead_encrypt_length in Hc. destruct (inner_fields f) as [Hi _].
    rewrite !length_app, length_v3_selector_prefix, Hc, Hi, Hn, Hs.
    unfold V3_SELECTOR_PREFIX, V3_NONCE, V3_INNER_HEADER. lia.
Qed.
End Encoder.

(** ** Properties *)
Import Encoder.

(** C26: whatever calls the tunnel makes on a new encoder, in any order, no
    call fails (given a working erasure code and datagrams a UDP socket can
    deliver), and: the frames sent carry consecutive sequence numbers from 1;
    the source fragments in the data frames, padding removed, followed by the
    fragments still waiting in the open group, are exactly the fragments of the
    datagrams in the order they came, none lost, repeated or altered; every
    frame meets the conditions the peer's decoder puts on it. *)
Theorem encoder_run (R : ErasureCode) (env : option nat) (ss v id : N) (ins : list input) :
  let s := with_identity env ss v id in
  ss < U64 -> v < U8 -> id < U64 -> codes R (ceiling s) -> Forall input_ok ins ->
  exists fs s', run ins s = (Ok fs, s') /\ inv s' /\
    Frame.sequence <$> fs = seqs 1 (length fs) /\
    sources fs ++ shards s' = fragments 1 ins /\
    Forall (acceptable s) fs.
Proof.
  intros s Hs Hv Hid Hlaw HF.
  destruct (run_effect ins s) as (fs & s' & Hrun & []);
    [by apply with_identity_inv|done|done|]. exists fs, s'. done.
Qed.

Definition sample_inputs : list input :=
  [Datagram (replicate 3000 x61); PeerReport 20000; Flush; Datagram [x62]; ReportFrame 0].

Lemma encoder_run_witness :
  exists fs s', run sample_inputs (with_identity (Some 1%nat) 9 3 5) = (Ok fs, s') /\
    (length fs = 5)%nat /\ sources fs ++ shards s' = fragments 1 sample_inputs.
Proof.
  destruct (encoder_run xor_code (Some 1%nat) 9 3 5 sample_inputs) as (fs & s' & H & _ & _ & Hc & _).
  - reflexivity.
  - reflexivity.
  - reflexivity.
  - apply xor_codes.
  - repeat constructor; vm_compute; congruence.
  - exists fs, s'. split; [exact H|]. split; [|exact Hc].
    assert (length <$> (match fst (run sample_inputs (with_identity (Some 1%nat) 9 3 5)) with
      Ok l => Some l | _ => None end) = Some 5%nat) as Hl by (vm_compute; reflexivity).
    rewrite H in Hl. cbn in Hl. congruence.
Defined.

(** what a flush sends.  With shards collected, [flush] emits one frame
    per shard of a codeword: the shards in order as data frames, then as many
    parity frames as the redundancy level says (never more than there are data
    shards), all of one group, indexed from 0, announcing the same counts, with
    consecutive sequence numbers; it then opens the next group.  Without parity
    the shards keep their own lengths; with parity they are padded to the
    longest. *)
Theorem flush_group (R : ErasureCode) (s : Encoder.t) :
  within DATA_SHARDS s -> shards s <> [] -> codes R (ceiling s) ->
  let d := length (shards s) in
  let p := (level s `min` d)%nat in
  exists all,
    length all = (d + p)%nat /\
    take d all = (if (p =? 0)%nat then shards s
                  else resize (max_len (shards s)) <$> shards s) /\
    (0 < p -> rs_encode d p (take d all ++ replicate p (replicate (max_len (shards s)) x00)) = Ok all)%nat /\
    fst (flush s) = Ok (imap (fun i shard =>
      Frame.mk (version s) (key_id s) (if (i <? d)%nat then KIND_DATA else KIND_PARITY) (session s)
        (as_u64 (sequence s + N.of_nat i)) (group s) (N.of_nat i) (N.of_nat d) (N.of_nat p) shard) all) /\
    shards (snd (flush s)) = [] /\ group (snd (flush s)) = add64 (group s) 1.
Proof.
  intros Hin Hne Hlaw d p. pose proof Hin as (Hv & Hk & Hs & Hq & Hp & Hg & Hl & Hw & (Ha & _) & Hf).
  assert (0 < d <= DATA_SHARDS)%nat as Hd.
  { unfold d. destruct (shards s); [done|cbn in *; lia]. }
  assert (flush_parity s d = p) as Hfp by (by apply flush_parity_level).
  destruct (flush_spec s) as (all & Hc & ->); [done..| |].
  { cbv zeta. intros Hpos. apply Hlaw; [done|]. split; [done|]. by apply flush_parity_ceiling. }
  pose proof (codeword_length _ _ Hc) as Hlen. fold d in Hlen. rewrite Hfp in Hlen.
  exists all. split; [done|]. unfold codeword in Hc. fold d in Hc. cbv zeta in Hc. rewrite Hfp in Hc.
  assert (length all - d = p)%nat as Hrest by lia.
  unfold group_frames. fold d. rewrite Hrest. cbn [fst snd shards group].
  destruct (Nat.eqb_spec p 0) as [Hp0|Hp0].
  - subst all. split_and!; try done; [by apply take_ge|lia].
  - destruct Hc as (par & Hpar & -> & Henc & _).
    rewrite take_app_le, take_ge by (rewrite length_fmap; unfold d; lia). done.
Qed.

Lemma flush_group_witness :
  shards (snd (flush (set_shards [Fragment.build (Fragment.mk 1 0 1 [x61])]
    (with_identity (Some 1%nat) 9 3 5)))) = [].
Proof.
  destruct (flush_group xor_code (set_shards [Fragment.build (Fragment.mk 1 0 1 [x61])]
    (with_identity (Some 1%nat) 9 3 5))) as (all & _ & _ & _ & _ & H & _).
  - unfold within. split_and!; try reflexivity.
    + cbn. unfold DATA_SHARDS. lia.
    + constructor; [apply build_whole; cbn; unfold CHUNK, SHARD, FRAGMENT_HEADER; lia|constructor].
    + apply Adaptive.inv_default.
    + intros p [= <-]. unfold MAX_PARITY. cbn. lia.
  - discriminate.
  - apply xor_codes.
  - exact H.
Defined.

(** A frame an encoder sends is sealed without error, into at most 1419 bytes. *)
Lemma acceptable_sealed (C : Crypto) (L : CryptoLaws C) s f key nonce suffix :
  acceptable s f -> version s = VERSION_V3 ->
  length nonce = V3_NONCE -> length suffix = V3_SELECTOR_PREFIX ->
  exists w, Frame.encode_wire f key nonce suffix = Ok w /\ (length w <= 1419)%nat.
Proof.
  intros Hacc Hv3 Hn Hsuf. pose proof Hacc as (Hwf & Hv & _).
  assert (exists w, Frame.encode_wire f key nonce suffix = Ok w) as [w Hw].
  { unfold Frame.encode_wire. rewrite Hv, Hv3. cbn [negb N.eqb].
    destruct (aead_encrypt_total key nonce (Frame.inner_bytes f)) as [c Hc].
    - destruct (inner_fields f) as [Hi _]. rewrite Hi.
      destruct Hwf as (_ & _ & _ & _ & _ & _ & _ & _ & _ & Hp). unfold V3_INNER_HEADER. width_lia.
    - rewrite Hc. cbn. eauto. }
  exists w. split; [done|]. by eapply length_encode_wire.
Qed.

(** every frame a new encoder ever sends fits the wire: its encoding
    succeeds with at most 1419 bytes (the size the source derives from the
    path MTU), and the peer that holds the key decodes it to the same frame. *)
Theorem sent_frames_fit (R : ErasureCode) (C : Crypto) (L : CryptoLaws C)
    (env : option nat) (ss id : N) (ins : list input) (fs : list Frame.t) (s' : Encoder.t)
    (f : Frame.t) (key nonce suffix : bytes) :
  let s := with_identity env ss VERSION_V3 id in
  ss < U64 -> id < U64 -> codes R (ceiling s) -> Forall input_ok ins ->
  run ins s = (Ok fs, s') -> f ∈ fs ->
  length nonce = V3_NONCE -> length suffix = V3_SELECTOR_PREFIX ->
  exists w, Frame.encode_wire f key nonce suffix = Ok w /\ (length w <= 1419)%nat /\
    Frame.decode_v3 w id key = Ok f.
Proof.
  intros s Hs Hid Hlaw HF Hrun Hf Hn Hsuf.
  destruct (run_effect ins s) as (fs0 & s0 & Hrun0 & He);
    [by apply with_identity_inv|done|done|].
  rewrite Hrun in Hrun0. injection Hrun0 as <- <-. destruct He as [_ _ _ _ _ _ Hacc].
  pose proof (proj1 (Forall_forall _ _) Hacc f Hf) as Hacc1. clear Hacc. rename Hacc1 into Hacc.
  destruct (acceptable_sealed C L s f key nonce suffix Hacc eq_refl Hn Hsuf) as (w & Hw & Hlen).
  pose proof Hacc as (Hwf & Hv & Hk & _). exists w. split; [done|]. split; [done|].
  change id with (key_id s). rewrite <- Hk. by eapply decode_encode_v3.
Qed.

Lemma sent_frames_fit_witness :
  exists w, Frame.encode_wire
    (Frame.mk 3 5 KIND_REPORT 9 1 0 0 0 0 (u32_be 7)) [x01] (replicate 24 x02) (replicate 4 x03) = Ok w /\
    (length w <= 1419)%nat /\
    Frame.decode_v3 w 5 [x01] = Ok (Frame.mk 3 5 KIND_REPORT 9 1 0 0 0 0 (u32_be 7)).
Proof.
  eapply (sent_frames_fit xor_code toy_crypto toy_crypto_laws (Some 1%nat) 9 5 [ReportFrame 7]).
  - reflexivity.
  - reflexivity.
  - apply xor_codes.
  - repeat constructor.
  - reflexivity.
  - left.
  - reflexivity.
  - reflexivity.
Defined.

(** the size limit.  [encode_datagram] refuses exactly the datagrams of
    more than 65535 pieces, consuming only their packet number; every other
    datagram is accepted, its fragments join the open group in order, and full
    groups leave as frames. *)
Theorem encode_datagram_total (R : ErasureCode) (s : Encoder.t) (payload : bytes) :
  inv s -> codes R (ceiling s) ->
  if 65535 <? N.of_nat (Fragment.chunk_count payload) then
    encode_datagram payload s
      = (Err "datagram too large"%string, set_packet (add64 (packet s) 1) s)
  else exists fs s', encode_datagram payload s = (Ok fs, s') /\ inv s' /\
    packet s' = add64 (packet s) 1 /\
    sources fs ++ shards s' = shards s ++ (Fragment.build <$> Fragment.split (packet s) payload) /\
    (length (shards s') < DATA_SHARDS)%nat.
Proof.
  intros Hi Hlaw. destruct (N.ltb_spec 65535 (N.of_nat (Fragment.chunk_count payload))) as [Hbig|Hfit].
  - unfold encode_datagram, mbind, method_bind, get, modify.
    by rewrite (proj2 (N.ltb_lt _ _)).
  - destruct (encode_datagram_effect payload s Hi Hlaw Hfit) as (fs & s' & He & [Hi' _ Hp _ _ Hc _]).
    exists fs, s'. split_and!; try done.
    destruct Hi' as (_ & _ & _ & _ & _ & _ & Hl & _). unfold DATA_SHARDS in *. lia.
Qed.

Lemma encode_datagram_total_witness :
  exists fs s', encode_datagram [x61] (with_identity (Some 1%nat) 9 3 5) = (Ok fs, s').
Proof.
  pose proof (encode_datagram_total xor_code (with_identity (Some 1%nat) 9 3 5) [x61]) as H.
  destruct H as (fs & s' & H & _).
  - apply with_identity_inv; reflexivity.
  - apply xor_codes.
  - exists fs, s'. exact H.
Defined.
