(* ===== verification/Window.v ===== *)
(** * Sequence accounting (src/src/main.rs, [struct Decoder])

    The five sequence fields of [Decoder] with [observe_seq], which accepts each
    frame sequence number at most once, and [sequence_report], which turns the
    accepted numbers behind the reorder window into a loss report. *)
From S2P Require Import Prelude.

Definition REORDER_WINDOW : N := 64.

Module Window.
(** The fields [highest_sequence] .. [duplicate_sequences] of [Decoder]. *)
Record t := mk {
  highest_sequence : N;
  finalized_sequence : N;
  seen_sequences : gset N;
  late_sequences : N;
  duplicate_sequences : N;
}.

(** [struct SequenceReport] *)
Record report := mk_report {
  expected : N;
  received : N;
  missing : N;
  sequence_gap_ppm : N;
  late : N;
  duplicates : N;
}.

(** The values [Decoder::new] gives them. *)
Definition new : t := mk 0 0 ∅ 0 0.

(** [Decoder::observe_seq] *)
Definition observe_seq (seq : N) (w : t) : bool * t :=
  let finalized :=
    if (highest_sequence w =? 0) && (finalized_sequence w =? 0)
       && bool_decide (seen_sequences w = ∅)
    then seq - 1 else finalized_sequence w in
  if seq <=? finalized then
    (false, mk (highest_sequence w) finalized (seen_sequences w)
              (sat_add64 (late_sequences w) 1) (duplicate_sequences w))
  else
  let highest := N.max (highest_sequence w) seq in
  if bool_decide (seq ∈ seen_sequences w) then
    (false, mk highest finalized (seen_sequences w) (late_sequences w)
              (sat_add64 (duplicate_sequences w) 1))
  else
    (true, mk highest finalized ({[seq]} ∪ seen_sequences w) (late_sequences w)
             (duplicate_sequences w)).

(** [Decoder::sequence_report] *)
Definition sequence_report (w : t) : option report * t :=
  let cutoff := highest_sequence w - REORDER_WINDOW in
  if cutoff <=? finalized_sequence w then (None, w) else
  let expected := cutoff - finalized_sequence w in
  if expected <? 32 then (None, w) else
  let received := N.of_nat (size
    (filter (fun q => finalized_sequence w + 1 <= q <= cutoff) (seen_sequences w))) in
  let missing := expected - received in
  let gap_ppm := as_u32 (missing * 1000000 / expected) in
  let seen := filter (fun q => cutoff + 1 <= q) (seen_sequences w) in
  (Some (mk_report expected received missing (N.min gap_ppm 1000000)
     (late_sequences w) (duplicate_sequences w)),
   mk (highest_sequence w) cutoff seen 0 0).

(** ** Runs *)
Inductive op :=
| Observe (seq : N)
| Report.

(** A run's state, the numbers accepted so far and the reports made. *)
Record trace := mk_trace {
  window : t;
  accepted : list N;
  reports : list report;
}.

Definition step (tr : trace) (o : op) : trace :=
  match o with
  | Observe seq =>
      let '(fresh, w) := observe_seq seq (window tr) in
      mk_trace w (if fresh : bool then accepted tr ++ [seq] else accepted tr) (reports tr)
  | Report =>
      let '(r, w) := sequence_report (window tr) in
      mk_trace w (accepted tr) (reports tr ++ match r with Some r => [r] | None => [] end)
  end.

Definition run (ops : list op) : trace := foldl step (mk_trace new [] []) ops.

Definition observed (ops : list op) : list N :=
  omap (fun o => match o with Observe q => Some q | Report => None end) ops.

Definition sum (f : report -> N) (l : list report) : N := foldr (fun r n => f r + n) 0 l.

(** ** Invariant *)
Definition inv (w : t) : Prop :=
  finalized_sequence w <= highest_sequence w < U64 /\
  (forall q, q ∈ seen_sequences w -> finalized_sequence w < q <= highest_sequence w) /\
  late_sequences w < U64 /\ duplicate_sequences w < U64.

(** No frame has been accepted yet. *)
Definition fresh_window (w : t) : Prop :=
  highest_sequence w = 0 /\ finalized_sequence w = 0 /\ seen_sequences w = ∅.

Lemma window_new_inv : inv new.
Proof. by unfold inv, new. Qed.

Lemma first_test w :
  ((highest_sequence w =? 0) && (finalized_sequence w =? 0)
     && bool_decide (seen_sequences w = ∅))%bool = true <-> fresh_window w.
Proof.
  unfold fresh_window. rewrite !andb_true_iff, !N.eqb_eq, bool_decide_eq_true. tauto.
Qed.

(** The lower end [observe_seq] tests against. *)
Definition floor (seq : N) (w : t) : N :=
  if (highest_sequence w =? 0) && (finalized_sequence w =? 0)
     && bool_decide (seen_sequences w = ∅)
  then seq - 1 else finalized_sequence w.

Lemma floor_cases seq w :
  (fresh_window w /\ floor seq w = seq - 1) \/ (~ fresh_window w /\ floor seq w = finalized_sequence w).
Proof.
  unfold floor. destruct (_ && _)%bool eqn:E.
  - left. split; [by apply first_test|done].
  - right. split; [|done]. intros H%first_test. congruence.
Qed.

(** The three ways an observation ends. *)
Lemma observe_cases seq w :
  let f := floor seq w in
  (seq <= f /\ observe_seq seq w = (false, mk (highest_sequence w) f (seen_sequences w)
              (sat_add64 (late_sequences w) 1) (duplicate_sequences w))) \/
  (f < seq /\ seq ∈ seen_sequences w /\
   observe_seq seq w = (false, mk (N.max (highest_sequence w) seq) f (seen_sequences w)
              (late_sequences w) (sat_add64 (duplicate_sequences w) 1))) \/
  (f < seq /\ (seq ∉ seen_sequences w) /\
   observe_seq seq w = (true, mk (N.max (highest_sequence w) seq) f ({[seq]} ∪ seen_sequences w)
              (late_sequences w) (duplicate_sequences w))).
Proof.
  intros f. unfold observe_seq. fold (floor seq w). fold f.
  destruct (N.leb_spec seq f); [by left|]. right.
  case_bool_decide; [left|right]; done.
Qed.

Lemma observe_inv seq w : inv w -> seq < U64 -> inv (snd (observe_seq seq w)).
Proof.
  intros (Hfh & Hseen & Hl & Hd) Hq.
  assert (floor seq w <= N.max (highest_sequence w) seq /\
    (forall q, q ∈ seen_sequences w -> floor seq w < q) /\
    (seq <= floor seq w -> floor seq w <= highest_sequence w)) as (Hf1 & Hf2 & Hf3).
  { destruct (floor_cases seq w) as [[(Hh & Hf & Hs) ->]|[_ ->]].
    - rewrite Hs. split_and!; [lia|set_solver|lia].
    - split_and!; [lia|intros q Hqs; by apply Hseen|lia]. }
  pose proof (fun q H => proj2 (Hseen q H)) as Hhi.
  destruct (observe_cases seq w) as [[? ->]|[(? & ? & ->)|(? & ? & ->)]];
    unfold inv; cbn; split_and!; try done; try width_lia.
  - intros q Hin. split; [by apply Hf2|by apply Hhi].
  - intros q Hin. specialize (Hf2 q Hin). specialize (Hhi q Hin). lia.
  - intros q [->%elem_of_singleton|Hin]%elem_of_union; [lia|].
    specialize (Hf2 q Hin). specialize (Hhi q Hin). lia.
Qed.

(** A number observed once is refused ever after. *)
Lemma observe_twice seq w :
  inv w -> fst (observe_seq seq (snd (observe_seq seq w))) = false.
Proof.
  intros (Hfh & Hseen & _). set (w1 := snd (observe_seq seq w)).
  assert (seq <= finalized_sequence w1 \/ seq ∈ seen_sequences w1) as H.
  { unfold w1. destruct (observe_cases seq w) as [[? ->]|[(? & ? & ->)|(? & ? & ->)]]; cbn;
      [by left|by right|right; set_solver]. }
  destruct (observe_cases seq w1) as [[_ ->]|[(_ & _ & ->)|(Hlt & Hnot & _)]]; [done|done|exfalso].
  destruct H as [H|H]; [|done]. destruct (floor_cases seq w1) as [[(_ & Hf & _) Hfl]|[_ Hfl]];
    rewrite Hfl in Hlt; [|lia]. rewrite Hf in H. lia.
Qed.

(** When [sequence_report] reports, and what it leaves. *)
Lemma report_cases w :
  sequence_report w = (None, w) \/
  let cutoff := highest_sequence w - REORDER_WINDOW in
  finalized_sequence w + 32 <= cutoff /\
  let inside := filter (fun q => finalized_sequence w + 1 <= q <= cutoff) (seen_sequences w) in
  let e := cutoff - finalized_sequence w in
  let r := N.of_nat (size inside) in
  sequence_report w =
    (Some (mk_report e r (e - r) (N.min (as_u32 ((e - r) * 1000000 / e)) 1000000)
       (late_sequences w) (duplicate_sequences w)),
     mk (highest_sequence w) cutoff (filter (fun q => cutoff + 1 <= q) (seen_sequences w)) 0 0).
Proof.
  unfold sequence_report. cbv zeta.
  destruct (N.leb_spec (highest_sequence w - REORDER_WINDOW) (finalized_sequence w)); [by left|].
  destruct (N.ltb_spec (highest_sequence w - REORDER_WINDOW - finalized_sequence w) 32);
    [by left|right].
  split; [lia|done].
Qed.

Lemma window_report_inv w : inv w -> inv (snd (sequence_report w)).
Proof.
  intros (Hfh & Hseen & Hl & Hd).
  destruct (report_cases w) as [->|[Hc ->]]; [done|]. unfold inv. cbn. split_and!; try done; try lia.
  - intros q [Hq Hin]%elem_of_filter. specialize (Hseen q Hin). lia.
Qed.

(** The sequence numbers strictly above [a] and at most [b]. *)
Lemma size_interval (X : gset N) a b :
  (forall q, q ∈ X -> a < q <= b) -> N.of_nat (size X) <= b - a.
Proof.
  intros HX.
  assert (X ⊆ list_to_set ((fun k => a + 1 + N.of_nat k) <$> seq 0 (N.to_nat (b - a)))) as Hsub.
  { intros q Hq. specialize (HX q Hq). apply elem_of_list_to_set, list_elem_of_fmap.
    exists (N.to_nat (q - a - 1)). split; [lia|]. apply elem_of_seq. lia. }
  apply subseteq_size in Hsub. rewrite size_list_to_set in Hsub.
  - rewrite length_fmap, length_seq in Hsub. lia.
  - apply NoDup_fmap_2; [intros x y; lia|apply NoDup_seq].
Qed.

(** ** Run invariant *)
Definition report_ok (r : report) : Prop :=
  32 <= expected r /\ received r + missing r = expected r /\
  sequence_gap_ppm r = missing r * 1000000 / expected r /\ sequence_gap_ppm r <= 1000000.

(** [n] observations so far. *)
Record trace_inv (n : N) (tr : trace) : Prop := {
  ti_inv : inv (window tr);
  ti_nodup : NoDup (accepted tr);
  ti_known : forall q, q ∈ accepted tr ->
    q <= finalized_sequence (window tr) \/ q ∈ seen_sequences (window tr);
  ti_seen : forall q, q ∈ seen_sequences (window tr) -> q ∈ accepted tr;
  ti_received : sum received (reports tr) + N.of_nat (size (seen_sequences (window tr)))
    = N.of_nat (length (accepted tr));
  ti_all : N.of_nat (length (accepted tr))
    + (sum late (reports tr) + late_sequences (window tr))
    + (sum duplicates (reports tr) + duplicate_sequences (window tr)) = n;
  ti_expected : match accepted tr with
    | [] => fresh_window (window tr) /\ reports tr = []
    | first :: _ => 0 < first <= highest_sequence (window tr) /\
        first - 1 + sum expected (reports tr) = finalized_sequence (window tr) /\
        finalized_sequence (window tr)
          <= N.max (first - 1) (highest_sequence (window tr) - REORDER_WINDOW)
    end;
  ti_reports : Forall report_ok (reports tr);
}.

Lemma sum_app f l1 l2 : sum f (l1 ++ l2) = sum f l1 + sum f l2.
Proof. unfold sum. induction l1 as [|r l1 IH]; cbn in *; lia. Qed.

Lemma trace_inv_start : trace_inv 0 (mk_trace new [] []).
Proof.
  split; cbn; [apply window_new_inv|by apply NoDup_nil_2|set_solver..|done|done|done|done].
Qed.

(** A fresh window has accepted nothing. *)
Lemma trace_fresh n tr : trace_inv n tr -> fresh_window (window tr) -> accepted tr = [].
Proof.
  intros [_ _ _ _ _ _ He _] (Hh & _). destruct (accepted tr); [done|]. lia.
Qed.

Lemma trace_not_fresh n tr :
  trace_inv n tr -> ~ fresh_window (window tr) -> exists first l, accepted tr = first :: l.
Proof.
  intros [_ _ _ _ _ _ He _] Hn. destruct (accepted tr) as [|first l]; [tauto|eauto].
Qed.

Lemma size_insert_new (X : gset N) q : q ∉ X -> size ({[q]} ∪ X) = S (size X).
Proof. intros. rewrite size_union by set_solver. by rewrite size_singleton. Qed.

Lemma step_observe n tr q :
  trace_inv n tr -> q < U64 -> n + 1 < U64 -> trace_inv (n + 1) (step tr (Observe q)).
Proof.
  intros Htr Hq Hn. pose proof Htr as [Hi Hnd Hk Hs Hr Ha He Hrep].
  pose proof (observe_inv q _ Hi Hq) as Hi'. cbn [step].
  assert (forall x, x ∈ accepted tr -> x <= floor q (window tr) \/ x ∈ seen_sequences (window tr)) as Hk'.
  { destruct (floor_cases q (window tr)) as [[Hf _]|[_ ->]]; [|done].
    rewrite (trace_fresh _ _ Htr Hf). set_solver. }
  assert (match accepted tr with
    | [] => floor q (window tr) = q - 1 /\ reports tr = [] /\ highest_sequence (window tr) = 0
    | first :: _ => 0 < first <= highest_sequence (window tr) /\
        first - 1 + sum expected (reports tr) = floor q (window tr) /\
        floor q (window tr) <= N.max (first - 1) (highest_sequence (window tr) - REORDER_WINDOW)
    end) as He'.
  { destruct (floor_cases q (window tr)) as [[Hf ->]|[Hf ->]].
    - rewrite (trace_fresh _ _ Htr Hf) in He |- *. by destruct Hf as (? & _); destruct He.
    - destruct (trace_not_fresh _ _ Htr Hf) as (first & l & Heq). by rewrite Heq in He |- *. }
  destruct Hi as (_ & _ & Hl & Hd).
  destruct (observe_cases q (window tr)) as [[Hle Heq]|[(Hlt & Hin & Heq)|(Hlt & Hin & Heq)]];
    rewrite Heq in Hi' |- *; cbn [snd] in Hi'; split;
    cbn [window accepted reports highest_sequence finalized_sequence seen_sequences late_sequences
      duplicate_sequences]; try done.
  - unfold sat_add64. width_lia.
  - destruct (accepted tr) as [|first l]; [|done]. destruct He' as (Hfl & -> & Hh).
    rewrite Hfl in Hle |- *.
    destruct He as [(Hh' & Hf' & Hs') _]. unfold fresh_window. cbn. split; [|done].
    split_and!; [done|lia|done].
  - width_lia.
  - destruct (accepted tr) as [|first l] eqn:E; [specialize (Hs q Hin); set_solver|].
    destruct He' as (? & ? & ?). split_and!; [lia..|]. unfold REORDER_WINDOW in *. lia.
  - apply NoDup_app. split_and!; [done| |apply NoDup_singleton].
    intros x Hx ->%list_elem_of_singleton. destruct (Hk' q Hx); [lia|done].
  - intros x [Hx| ->%list_elem_of_singleton]%elem_of_app; [|set_solver].
    destruct (Hk' x Hx); [by left|set_solver].
  - intros x [->%elem_of_singleton|Hx]%elem_of_union; [set_solver|].
    apply elem_of_app. left. by apply Hs.
  - rewrite size_insert_new by done. rewrite length_app. cbn. lia.
  - rewrite length_app. cbn. lia.
  - destruct (accepted tr) as [|first l] eqn:E; cbn [app].
    + destruct He' as (Hfl & -> & Hh). rewrite Hfl in Hlt |- *. rewrite Hh. unfold sum, REORDER_WINDOW.
      cbn [foldr]. split_and!; lia.
    + destruct He' as (? & ? & ?). split_and!; [lia..|]. unfold REORDER_WINDOW in *. lia.
Qed.

Lemma step_report n tr : trace_inv n tr -> trace_inv n (step tr Report).
Proof.
  intros Htr. pose proof Htr as [Hi Hnd Hk Hs Hr Ha He Hrep]. cbn [step].
  pose proof (window_report_inv _ Hi) as Hi'.
  destruct (report_cases (window tr)) as [Heq|[Hc Heq]]; rewrite Heq in Hi' |- *; cbn [snd] in Hi'.
  { rewrite app_nil_r. by split. }
  cbv zeta in *. destruct Hi as ((Hfh & Hh) & Hseen & Hl & Hd).
  set (w := window tr) in *. set (cutoff := highest_sequence w - REORDER_WINDOW) in *.
  set (inside := filter (fun q => finalized_sequence w + 1 <= q <= cutoff) (seen_sequences w)).
  set (rest := filter (fun q => cutoff + 1 <= q) (seen_sequences w)).
  assert (size (seen_sequences w) = size inside + size rest)%nat as Hsplit.
  { rewrite <- size_union.
    - f_equal. apply set_eq. intros q. unfold inside, rest.
      rewrite elem_of_union, !elem_of_filter. split; [|tauto]. intros Hin.
      specialize (Hseen q Hin). destruct (N.le_gt_cases q cutoff); [left|right]; split; try done; lia.
    - intros q [Hq1 _]%elem_of_filter [Hq2 _]%elem_of_filter. lia. }
  assert (N.of_nat (size inside) <= cutoff - finalized_sequence w) as Hinside.
  { apply size_interval. intros q [Hq _]%elem_of_filter. lia. }
  split; cbn [window accepted reports highest_sequence finalized_sequence seen_sequences late_sequences
      duplicate_sequences]; try done.
  - intros q Hq. destruct (Hk q Hq) as [?|Hin]; [left; lia|].
    destruct (N.le_gt_cases q cutoff); [by left|right]. apply elem_of_filter. split; [lia|done].
  - intros q [_ Hq]%elem_of_filter. by apply Hs.
  - rewrite sum_app. cbn. fold cutoff inside rest. lia.
  - rewrite !sum_app. cbn. lia.
  - destruct (accepted tr) as [|first l].
    + destruct He as [(Hh0 & _) _]. fold w in Hh0. unfold cutoff in Hc. lia.
    + rewrite sum_app. cbn. fold cutoff. lia.
  - apply Forall_app. split; [done|]. constructor; [|done]. unfold report_ok. cbn.
    fold cutoff inside. set (e := cutoff - finalized_sequence w) in *.
    set (r := N.of_nat (size inside)) in *.
    assert ((e - r) * 1000000 / e <= 1000000) as Hg.
    { apply N.Div0.div_le_upper_bound. nia. }
    assert (as_u32 ((e - r) * 1000000 / e) = (e - r) * 1000000 / e) as ->.
    { apply N.mod_small. width_lia. }
    split_and!; lia.
Qed.

Lemma run_inv_from ops n tr :
  trace_inv n tr -> Forall (fun q => q < U64) (observed ops) ->
  n + N.of_nat (length (observed ops)) < U64 ->
  trace_inv (n + N.of_nat (length (observed ops))) (foldl step tr ops).
Proof.
  revert n tr. induction ops as [|o ops IH]; intros n tr Htr HF Hn; [cbn; by rewrite N.add_0_r|].
  destruct o as [q|]; cbn [foldl].
  - change (observed (Observe q :: ops)) with (q :: observed ops) in *.
    rewrite length_cons in *. inversion HF; subst.
    replace (n + N.of_nat (S (length (observed ops))))
      with (n + 1 + N.of_nat (length (observed ops))) by lia.
    apply IH; [|done|lia]. apply step_observe; [done..|lia].
  - apply IH; [by apply step_report|done|done].
Qed.

Lemma run_inv ops :
  Forall (fun q => q < U64) (observed ops) -> N.of_nat (length (observed ops)) < U64 ->
  trace_inv (N.of_nat (length (observed ops))) (run ops).
Proof. intros. apply (run_inv_from ops 0); [apply trace_inv_start|done|lia]. Qed.
End Window.

(** ** Properties *)
Import Window.

(** C31: whatever frames arrive and however often reports are drawn, each
    sequence number is accepted at most once, and nothing is lost from the
    books: the windows reported on are adjacent and start at the first number
    accepted; every accepted number is counted as received in exactly one
    report or still waits behind the reorder window; every refused one is
    counted as late or as a duplicate; each report covers at least 32 numbers,
    splits them into received and missing, and its rate is their exact quotient,
    never above one million. *)
Theorem sequence_accounting (ops : list op) :
  Forall (fun q => q < U64) (observed ops) -> N.of_nat (length (observed ops)) < U64 ->
  let tr := run ops in
  NoDup (accepted tr) /\
  Forall report_ok (reports tr) /\
  sum received (reports tr) + N.of_nat (size (seen_sequences (window tr)))
    = N.of_nat (length (accepted tr)) /\
  N.of_nat (length (accepted tr))
    + (sum late (reports tr) + late_sequences (window tr))
    + (sum duplicates (reports tr) + duplicate_sequences (window tr))
    = N.of_nat (length (observed ops)) /\
  (forall first l, accepted tr = first :: l ->
    first - 1 + sum expected (reports tr) = finalized_sequence (window tr)).
Proof.
  intros HF Hn. destruct (run_inv ops HF Hn) as [_ Hnd _ _ Hr Ha He Hrep]. cbv zeta.
  split_and!; try done. intros first l Heq. rewrite Heq in He. by destruct He as (_ & ? & _).
Qed.

Definition sample_ops : list op :=
  (Observe <$> [7; 8; 8; 10; 9; 200; 5]) ++ [Report; Observe 201; Observe 100; Report].

Lemma sequence_accounting_witness : NoDup (accepted (run sample_ops)).
Proof.
  apply (sequence_accounting sample_ops).
  - repeat constructor.
  - reflexivity.
Defined.

(** C32: a loss report tells the truth.  Drawn after any history, a report
    covers the numbers from the end of the previous one up to 64 below the
    highest seen; its [received] is the number of distinct sequence numbers in
    that range accepted over the whole history, its [missing] the others. *)
Theorem loss_report_exact (ops : list op) (r : report) (w : Window.t) :
  Forall (fun q => q < U64) (observed ops) -> N.of_nat (length (observed ops)) < U64 ->
  sequence_report (window (run ops)) = (Some r, w) ->
  let from := finalized_sequence (window (run ops)) in
  let upto := finalized_sequence w in
  upto = highest_sequence (window (run ops)) - REORDER_WINDOW /\
  expected r = upto - from /\
  received r = N.of_nat (length (filter (fun q => from < q <= upto) (accepted (run ops)))) /\
  missing r = expected r - received r.
Proof.
  intros HF Hn Hrep. destruct (run_inv ops HF Hn) as [Hi Hnd Hk Hs _ _ _ _].
  set (tr := run ops) in *. destruct (report_cases (window tr)) as [Heq|[Hc Heq]];
    rewrite Heq in Hrep; [congruence|]. cbv zeta in *. injection Hrep as <- <-.
  cbn [expected received missing finalized_sequence]. split_and!; try done.
  f_equal. rewrite <- (size_list_to_set (C := gset N)) by (by apply NoDup_filter).
  f_equal. apply set_eq. intros q. rewrite elem_of_list_to_set, list_elem_of_filter, elem_of_filter.
  split.
  - intros [Hq Hin]. split; [lia|by apply Hs].
  - intros [Hq Hin]. split; [lia|]. destruct (Hk q Hin); [lia|done].
Qed.

Lemma loss_report_exact_witness :
  exists r w, sequence_report (window (run [Observe 1; Observe 3; Observe 110])) = (Some r, w) /\
    missing r = expected r - received r /\ sequence_gap_ppm r = 956521.
Proof.
  eexists _, _. split; [vm_compute; reflexivity|]. split; [|reflexivity].
  eapply (loss_report_exact [Observe 1; Observe 3; Observe 110]).
  - repeat constructor.
  - reflexivity.
  - vm_compute. reflexivity.
Defined.

(** reordering.  After any history that has accepted [first] as its first
    number, a number from [first] on that is fewer than 64 below the highest
    seen is accepted if and only if it has not been accepted before: loss
    reports never make the receiver drop a frame inside the reorder window.
    Numbers before [first] are refused for ever. *)
Theorem reordering_tolerated (ops : list op) (first : N) (l : list N) (q : N) :
  Forall (fun q => q < U64) (observed ops) -> N.of_nat (length (observed ops)) < U64 ->
  accepted (run ops) = first :: l ->
  (first <= q -> highest_sequence (window (run ops)) < q + REORDER_WINDOW ->
   (fst (observe_seq q (window (run ops))) = true <-> q ∉ accepted (run ops))) /\
  (q < first -> fst (observe_seq q (window (run ops))) = false).
Proof.
  intros HF Hn Hacc. destruct (run_inv ops HF Hn) as [Hi Hnd Hk Hs _ _ He _].
  set (tr := run ops) in *. rewrite Hacc in He. destruct He as (Hfirst & Hsum & Hle).
  assert (floor q (window tr) = finalized_sequence (window tr)) as Hfl.
  { destruct (floor_cases q (window tr)) as [[(Hh & _) _]|[_ ->]]; [lia|done]. }
  pose proof (observe_cases q (window tr)) as Hcases. cbv zeta in Hcases. rewrite Hfl in Hcases.
  split.
  - intros Hq Hw. unfold REORDER_WINDOW in *.
    assert (finalized_sequence (window tr) < q) as Hlt by lia.
    destruct Hcases as [[? _]|[(_ & Hin & ->)|(_ & Hin & ->)]]; [lia|..]; cbn.
    + split; [done|]. intros Hnot. exfalso. by apply Hnot, Hs.
    + split; [|done]. intros _ Hq'. destruct (Hk q Hq'); [lia|done].
  - intros Hq. assert (q <= finalized_sequence (window tr)) as Hle' by lia.
    destruct Hcases as [[_ ->]|[(? & _)|(? & _)]]; [done|lia|lia].
Qed.

Lemma reordering_tolerated_witness :
  fst (observe_seq 140 (window (run [Observe 5; Observe 200; Report]))) = true.
Proof.
  assert (accepted (run [Observe 5; Observe 200; Report]) = 5 :: [200]) as H by reflexivity.
  apply (reordering_tolerated [Observe 5; Observe 200; Report] 5 [200] 140).
  - repeat constructor.
  - reflexivity.
  - exact H.
  - vm_compute. congruence.
  - reflexivity.
  - rewrite H. intros [?|[?|[]%not_elem_of_nil]%elem_of_cons]%elem_of_cons; congruence.
Defined.
