(* ===== verification/Group.v ===== *)
(** * FEC groups (src/src/main.rs, [struct Group] and the group block of
    [Decoder::frame])

    [accept] takes one shard of a group in: a data shard is handed on at once,
    the first time it arrives; as soon as enough shards are present the missing
    data shards are reconstructed and handed on.  The specification [due] says,
    for a set of positions received, which data shards have been handed on. *)
From S2P Require Import Prelude External.

Module Group.
Record t := mk {
  created : N;
  data : nat;
  parity : nat;
  shards : list (option bytes);
  delivered : list bool;
}.

Definition set_shards x (g : t) := mk (created g) (data g) (parity g) x (delivered g).
Definition set_delivered x (g : t) := mk (created g) (data g) (parity g) (shards g) x.

(** The group [or_insert_with] creates. *)
Definition new (now : N) (data parity : nat) : t :=
  mk now data parity (replicate (data + parity) None) (replicate data false).

(** [(0..data).filter(|i| !g.delivered[*i]).filter_map(|i| g.shards[i].clone())] *)
Fixpoint undelivered (delivered : list bool) (shards : list (option bytes)) (idxs : list nat)
    : result (list bytes) :=
  match idxs with
  | [] => Ok []
  | i :: idxs =>
      d ← elem_at delivered i;
      if (d : bool) then undelivered delivered shards idxs else
      shard ← elem_at shards i;
      rest ← undelivered delivered shards idxs;
      Ok (match shard with Some x => x :: rest | None => rest end)
  end.

(** [for i in 0..data { g.delivered[i] = true; }] *)
Fixpoint mark_all (idxs : list nat) (delivered : list bool) : result (list bool) :=
  match idxs with
  | [] => Ok delivered
  | i :: idxs => delivered ← index_set delivered i true; mark_all idxs delivered
  end.

Section accept.
Context {R : ErasureCode}.

(** [if g.shards[pos].is_none() { g.shards[pos] = Some(frame.payload.clone()); }] *)
Definition store (pos : nat) (payload : bytes) : method t () :=
  g ← get;
  slot ← lift (elem_at (shards g) pos);
  match slot with
  | None =>
      shards' ← lift (index_set (shards g) pos (Some payload));
      modify (set_shards shards')
  | Some _ => mret ()
  end.

(** [let immediate = ..] *)
Definition hand_on (data_ pos : nat) (payload : bytes) : method t (option bytes) :=
  if (pos <? data_)%nat then
    g ← get;
    seen ← lift (elem_at (delivered g) pos);
    if (seen : bool) then mret None else
    delivered' ← lift (index_set (delivered g) pos true);
    _ ← modify (set_delivered delivered');
    mret (Some payload)
  else mret None.

(** [let present = ..] and the reconstruction *)
Definition recover (data_ parity_ : nat) : method t (list bytes) :=
  g ← get;
  let present := count_some (shards g) in
  if (0 <? parity_)%nat && (data_ <=? present)%nat && existsb negb (delivered g) then
    _ ← lift (rs_new data_ parity_);
    let '(shards', r) := rs_reconstruct data_ parity_ (shards g) in
    _ ← modify (set_shards shards');
    _ ← lift r;
    recovered ← lift (undelivered (delivered g) shards' (seq 0 data_));
    delivered' ← lift (mark_all (seq 0 data_) (delivered g));
    _ ← modify (set_delivered delivered');
    mret recovered
  else mret [].

(** The block of [Decoder::frame] that works on the group *)
Definition accept (data_ parity_ pos : nat) (payload : bytes)
    : method t (option bytes * list bytes) :=
  g ← get;
  if negb (data g =? data_)%nat || negb (parity g =? parity_)%nat
  then bail "group mismatch"%string else
  _ ← store pos payload;
  immediate ← hand_on data_ pos payload;
  recovered ← recover data_ parity_;
  mret (immediate, recovered).

(** Shards taken in one after another: what they hand on, in order. *)
Fixpoint accept_all (data_ parity_ : nat) (arrivals : list (nat * bytes))
    : method t (list bytes) :=
  match arrivals with
  | [] => mret []
  | (pos, payload) :: arrivals =>
      '(immediate, recovered) ← accept data_ parity_ pos payload;
      rest ← accept_all data_ parity_ arrivals;
      mret (option_list immediate ++ recovered ++ rest)
  end.
End accept.

(** Both tables have the sizes the counts say. *)
Definition inv (g : t) : Prop :=
  length (shards g) = (data g + parity g)%nat /\ length (delivered g) = data g.

(** ** Specification *)

(** The data positions handed on once the positions in [got] have arrived. *)
Definition due (d p : nat) (got : gset nat) (i : nat) : Prop :=
  (i < d)%nat /\ (i ∈ got \/ (0 < p /\ d <= size got)%nat).

#[global] Instance due_dec d p got i : Decision (due d p got i).
Proof. unfold due. apply _. Defined.

(** The shards at the given positions. *)
Definition pick (all : list bytes) (idxs : list nat) : list bytes := omap (fun i => all !! i) idxs.

(** What has been handed on, in order of position. *)
Definition handed (d p : nat) (all : list bytes) (got : gset nat) : list bytes :=
  pick all (filter (due d p got) (seq 0 d)).

(** The shard table holding the positions [got] of [all]. *)
Definition table (n : nat) (all : list bytes) (got : gset nat) : list (option bytes) :=
  (fun i => if bool_decide (i ∈ got) then all !! i else None) <$> seq 0 n.

(** The state of a group of codeword [all] after the positions [got]: either
    the shards received and nothing else, or, after a reconstruction, all. *)
Record holds (d p : nat) (all : list bytes) (got : gset nat) (g : t) : Prop := {
  holds_data : data g = d;
  holds_parity : parity g = p;
  holds_delivered : delivered g = (fun i => bool_decide (due d p got i)) <$> seq 0 d;
  holds_shards :
    (shards g = table (d + p) all got /\
      (0 < p -> d <= size got -> forall i, i < d -> i ∈ got)%nat) \/
    (shards g = Some <$> all /\ (0 < p /\ d <= size got)%nat);
  holds_got : forall i, i ∈ got -> (i < d + p)%nat;
}.

(** ** Lemmas on the tables *)
Lemma existsb_tabulate (f : nat -> bool) n :
  existsb negb (f <$> seq 0 n) = false <-> forall i, (i < n)%nat -> f i = true.
Proof.
  rewrite <- not_true_iff_false, existsb_exists. split.
  - intros H i Hi. destruct (f i) eqn:E; [done|]. exfalso. apply H. exists (f i).
    split; [|by rewrite E]. apply list_elem_of_In, list_elem_of_fmap. exists i.
    split; [done|]. apply elem_of_seq. lia.
  - intros H (b & Hb & Hn). apply list_elem_of_In, list_elem_of_fmap in Hb as (i & -> & Hi).
    apply elem_of_seq in Hi. rewrite H in Hn by lia. done.
Qed.

Lemma count_some_table n all got :
  length all = n -> (forall i, i ∈ got -> (i < n)%nat) ->
  count_some (table n all got) = size got.
Proof.
  intros Hl Hgot.
  assert (count_some (table n all got) = length (filter (.∈ got) (seq 0 n))) as ->.
  { unfold table. assert (forall i, i ∈ seq 0 n -> is_Some (all !! i)) as Hs.
    { intros i Hi%elem_of_seq. apply lookup_lt_is_Some. lia. }
    induction (seq 0 n) as [|i l IH]; [done|]. cbn [fmap list_fmap].
    rewrite filter_cons. destruct (Hs i) as [x Hx]; [left|].
    rewrite bool_decide_decide. destruct (decide (i ∈ got)).
    - rewrite Hx. cbn. f_equal. apply IH. intros j Hj. apply Hs. by right.
    - cbn. apply IH. intros j Hj. apply Hs. by right. }
  rewrite <- (size_list_to_set (C := gset nat)) by (apply NoDup_filter, NoDup_seq).
  f_equal. apply set_eq. intros i.
  rewrite elem_of_list_to_set, list_elem_of_filter, elem_of_seq.
  split; [tauto|]. intros Hi. split; [done|]. specialize (Hgot i Hi). lia.
Qed.

Lemma table_erased n all got : length all = n -> erased (table n all got) all.
Proof.
  intros Hl. apply Forall2_same_length_lookup. split.
  - unfold table. by rewrite length_fmap, length_seq.
  - intros i o x Ho Hx. pose proof (lookup_lt_Some _ _ _ Hx).
    unfold table in Ho. rewrite lookup_tabulate in Ho by lia. case_bool_decide.
    + right. congruence.
    + left. congruence.
Qed.

Lemma pick_app all l1 l2 : pick all (l1 ++ l2) = pick all l1 ++ pick all l2.
Proof. apply omap_app. Qed.

Lemma pick_permutation all l1 l2 : l1 ≡ₚ l2 -> pick all l1 ≡ₚ pick all l2.
Proof.
  unfold pick. induction 1 as [|i l1 l2 _ IH|i j l|l1 l2 l3 _ IH1 _ IH2]; cbn.
  - done.
  - destruct (all !! i); [by constructor|done].
  - destruct (all !! i), (all !! j); try done. constructor.
  - by etransitivity.
Qed.

Lemma pick_seq all n : (n <= length all)%nat -> pick all (seq 0 n) = take n all.
Proof.
  intros Hn. induction n as [|n IH]; [done|]. unfold pick in *.
  rewrite seq_S, omap_app, IH by lia. cbn.
  destruct (lookup_lt_is_Some_2 all n) as [x Hx]; [lia|]. rewrite Hx.
  by rewrite (take_S_r _ _ _ Hx).
Qed.

(** ** The loops *)
Lemma mark_all_spec idxs v :
  (forall i, i ∈ idxs -> (i < length v)%nat) ->
  exists w, mark_all idxs v = Ok w /\ length w = length v /\
    (forall i, i ∈ idxs -> w !! i = Some true) /\ (forall i, i ∉ idxs -> w !! i = v !! i).
Proof.
  revert v. induction idxs as [|j idxs IH]; intros v Hv.
  - exists v. split_and!; try done. intros i Hi. by apply elem_of_nil in Hi.
  - destruct (lookup_lt_is_Some_2 v j) as [b Hb]; [apply Hv; left|].
    destruct (IH (<[j := true]> v)) as (w & Hw & Hl & Hin & Hout).
    { intros i Hi. rewrite length_insert. apply Hv. by right. }
    exists w. split.
    { cbn. unfold index_set. rewrite (elem_at_ok v j b Hb). cbn. done. }
    rewrite length_insert in Hl. split; [done|]. split.
    + intros i Hi. destruct (decide (i ∈ idxs)); [by apply Hin|].
      apply elem_of_cons in Hi as [->|?]; [|done]. rewrite Hout by done.
      apply list_lookup_insert_eq. apply lookup_lt_Some in Hb. done.
    + intros i Hi. apply not_elem_of_cons in Hi as [Hne Hi]. rewrite Hout by done.
      by apply list_lookup_insert_ne.
Qed.

Lemma mark_all_full d v :
  length v = d -> mark_all (seq 0 d) v = Ok ((fun _ => true) <$> seq 0 d).
Proof.
  intros Hl. destruct (mark_all_spec (seq 0 d) v) as (w & -> & Hw & Hin & _).
  { intros i Hi%elem_of_seq. lia. }
  f_equal. apply list_eq. intros i. destruct (decide (i < d)%nat).
  - rewrite lookup_tabulate by done. apply Hin, elem_of_seq. lia.
  - rewrite !lookup_ge_None_2; [done|..]; rewrite ?length_fmap, ?length_seq; lia.
Qed.

Lemma undelivered_ok v shards idxs :
  (forall i, i ∈ idxs -> (i < length v /\ i < length shards)%nat) ->
  exists l, undelivered v shards idxs = Ok l.
Proof.
  induction idxs as [|j idxs IH]; intros H; [by exists []|].
  destruct (H j ltac:(left)) as [H1 H2].
  destruct IH as [l Hl]; [intros i Hi; apply H; by right|]. cbn.
  destruct (elem_at_lt (E := string) v j H1) as [b ->]. cbn. destruct b; [by exists l|].
  destruct (elem_at_lt (E := string) shards j H2) as [o ->]. cbn. rewrite Hl. cbn. eauto.
Qed.

Lemma undelivered_spec (f : nat -> bool) all d idxs :
  (d <= length all)%nat -> (forall i, i ∈ idxs -> (i < d)%nat) ->
  undelivered (f <$> seq 0 d) (Some <$> all) idxs = Ok (pick all (filter (fun i => f i = false) idxs)).
Proof.
  intros Hd. induction idxs as [|j idxs IH]; intros H; [done|].
  assert (j < d)%nat as Hj by (apply H; left).
  destruct (lookup_lt_is_Some_2 all j) as [x Hx]; [lia|]. cbn [undelivered].
  rewrite (elem_at_ok _ j (f j)) by (by apply lookup_tabulate).
  rewrite (elem_at_ok (Some <$> all) j (Some x)) by (by rewrite list_lookup_fmap, Hx).
  cbn [mbind outcome_bind]. rewrite IH by (intros i Hi; apply H; by right).
  rewrite filter_cons. destruct (f j); [done|]. rewrite decide_True by done. unfold pick. cbn. by rewrite Hx.
Qed.

(** *** One more position *)
Lemma due_monotone d p got got' i : got ⊆ got' -> due d p got i -> due d p got' i.
Proof.
  intros Hsub [Hi H]. split; [done|]. apply subseteq_size in Hsub as Hsz.
  destruct H as [H|H]; [left; by apply Hsub|right; lia].
Qed.

Definition flags (n : nat) (got : gset nat) : list bool :=
  (fun i => bool_decide (i ∈ got)) <$> seq 0 n.

Lemma table_insert n all got pos x :
  all !! pos = Some x ->
  <[pos := Some x]> (table n all got) = table n all ({[pos]} ∪ got).
Proof.
  intros Hx. unfold table. rewrite insert_tabulate. apply tabulate_ext. intros i _.
  case_bool_decide as E.
  - subst. rewrite bool_decide_true by set_solver. by rewrite Hx.
  - erewrite bool_decide_ext; [done|]. set_solver.
Qed.

Lemma flags_insert n (got : gset nat) pos :
  <[pos := true]> (flags n got) = flags n ({[pos]} ∪ got).
Proof.
  unfold flags. rewrite insert_tabulate. apply tabulate_ext. intros i _. case_bool_decide as E.
  - subst. symmetry. apply bool_decide_true. set_solver.
  - apply bool_decide_ext. set_solver.
Qed.

Lemma flags_beyond n (got : gset nat) pos : (n <= pos)%nat -> flags n got = flags n ({[pos]} ∪ got).
Proof.
  intros Hn. apply tabulate_ext. intros i Hi. apply bool_decide_ext.
  rewrite elem_of_union, elem_of_singleton. intuition lia.
Qed.

(** ** Taking one shard in *)
Section accept_spec.
Context {R : ErasureCode} (d p : nat) (all : list bytes).
Hypothesis Hd : (0 < d)%nat.
Hypothesis Hall : length all = (d + p)%nat.
Hypothesis Hcode : (0 < p)%nat -> ErasureLaws R d p /\ exists sh, rs_encode d p sh = Ok all.

Lemma length_table got : length (table (d + p) all got) = (d + p)%nat.
Proof. unfold table. by rewrite length_fmap, length_seq. Qed.

(** A reconstruction hands on the data shards that were missing. *)
Lemma accept_recover got g :
  data g = d -> parity g = p -> shards g = table (d + p) all got ->
  delivered g = flags d got ->
  (forall i, i ∈ got -> (i < d + p)%nat) -> (0 < p)%nat -> (d <= size got)%nat ->
  let missing := pick all (filter (fun i => bool_decide (i ∈ got) = false) (seq 0 d)) in
  rs_new d p = Ok () /\
  rs_reconstruct d p (shards g) = (Some <$> all, Ok ()) /\
  undelivered (delivered g) (Some <$> all) (seq 0 d) = Ok missing /\
  mark_all (seq 0 d) (delivered g) = Ok ((fun _ => true) <$> seq 0 d).
Proof.
  intros Hgd Hgp Hsh Hdel Hgot Hp Hsz missing. destruct (Hcode Hp) as [[Hnew _ Hrec] [sh Hsh']].
  split_and!.
  - done.
  - rewrite Hsh. eapply Hrec; [done|by apply table_erased|].
    by rewrite count_some_table.
  - rewrite Hdel. apply undelivered_spec; [lia|]. intros i Hi%elem_of_seq. lia.
  - apply mark_all_full. rewrite Hdel. unfold flags. by rewrite length_fmap, length_seq.
Qed.

(** Storing a shard the group does not have, and handing it on. *)
Lemma store_hand_on got g pos x :
  shards g = table (d + p) all got -> delivered g = flags d got -> all !! pos = Some x ->
  exists g', store pos x g = (Ok (), set_shards (table (d + p) all ({[pos]} ∪ got)) g) /\
    hand_on d pos x (set_shards (table (d + p) all ({[pos]} ∪ got)) g)
      = (Ok (if bool_decide (pos < d)%nat && negb (bool_decide (pos ∈ got)) then Some x else None), g') /\
    data g' = data g /\ parity g' = parity g /\ created g' = created g /\
    shards g' = table (d + p) all ({[pos]} ∪ got) /\ delivered g' = flags d ({[pos]} ∪ got).
Proof.
  intros Hsh Hdel Hx. pose proof (lookup_lt_Some _ _ _ Hx) as Hpos.
  assert (table (d + p) all got !! pos = Some (if bool_decide (pos ∈ got) then Some x else None)) as Hslot.
  { unfold table. rewrite lookup_tabulate by lia. by rewrite Hx. }
  assert (store pos x g = (Ok (), set_shards (table (d + p) all ({[pos]} ∪ got)) g)) as Hstore.
  { unfold store. unfold_method. rewrite Hsh, (elem_at_ok _ _ _ Hslot). case_bool_decide as Hin.
    - rewrite subseteq_union_1_L by set_solver. destruct g. cbn in *. by rewrite Hsh.
    - unfold index_set. rewrite (elem_at_ok _ _ _ Hslot). cbn. by rewrite table_insert. }
  unfold hand_on. destruct (Nat.ltb_spec pos d) as [Hlt|Hge].
  - rewrite bool_decide_true by done.
    assert (flags d got !! pos = Some (bool_decide (pos ∈ got))) as Hflag
      by (unfold flags; by rewrite lookup_tabulate).
    case_bool_decide as Hin; cbn [negb andb].
    + eexists. split; [done|]. unfold_method. cbn [set_shards delivered].
      rewrite Hdel, (elem_at_ok _ _ _ Hflag).
      split_and!; try done. cbn. rewrite Hdel. by rewrite subseteq_union_1_L by set_solver.
    + eexists. split; [done|]. unfold_method. cbn [set_shards delivered]. unfold index_set.
      rewrite Hdel, (elem_at_ok _ _ _ Hflag). cbn. split_and!; try done. by rewrite flags_insert.
  - rewrite bool_decide_false by lia. eexists. split; [done|]. split; [done|]. cbn.
    split_and!; try done. rewrite Hdel. apply flags_beyond. lia.
Qed.

(** When the missing shards are due, [recover] hands them on; else nothing. *)
Lemma recover_spec got g :
  data g = d -> parity g = p -> shards g = table (d + p) all got -> delivered g = flags d got ->
  (forall i, i ∈ got -> i < d + p)%nat ->
  exists rec g', recover d p g = (Ok rec, g') /\ holds d p all got g' /\ created g' = created g /\
    rec = pick all (filter (fun i => due d p got i /\ i ∉ got) (seq 0 d)).
Proof.
  intros Hgd Hgp Hsh Hdel Hgot. unfold recover. unfold_method.
  assert (count_some (shards g) = size got) as -> by (rewrite Hsh; by apply count_some_table).
  destruct (_ && _)%bool eqn:E.
  - apply andb_true_iff in E as [[Hp Hsz]%andb_true_iff Hex]. bool_to_prop.
    destruct (accept_recover got g) as (-> & -> & -> & ->); try done.
    eexists _, _. split; [done|]. split; [|split; [done|]].
    + split; try done; [|right; cbn; split; [done|lia]].
      cbn. apply tabulate_ext. intros i Hi. symmetry. apply bool_decide_true. split; [done|right; lia].
    + f_equal. apply filter_ext_elem. intros i Hi%elem_of_seq. rewrite bool_decide_eq_false.
      split; [|tauto]. intros Hn. split; [|done]. split; [lia|right; lia].
  - exists [], g. split; [done|].
    assert (0 < p -> d <= size got -> forall i, i < d -> i ∈ got)%nat as Hfull.
    { intros Hp Hsz i Hi. rewrite (proj2 (Nat.ltb_lt _ _)), (proj2 (Nat.leb_le _ _)) in E by done.
      cbn [andb] in E. rewrite Hdel in E. unfold flags in E.
      rewrite existsb_tabulate in E. specialize (E i Hi). by apply bool_decide_eq_true in E. }
    assert (forall i, (i < d)%nat -> due d p got i <-> i ∈ got) as Hdue.
    { intros i Hi. unfold due. split; [intros [_ [?|[? ?]]]; auto|auto]. }
    split; [|split; [done|]].
    + split; try done; [|by left]. rewrite Hdel. apply tabulate_ext. intros i Hi.
      apply bool_decide_ext. by rewrite Hdue.
    + rewrite filter_none; [done|]. intros i Hi%elem_of_seq [Hi1 Hi2].
      apply Hi2, Hdue; [lia|done].
Qed.

Lemma due_received got i :
  (0 < p -> d <= size got -> forall i, i < d -> i ∈ got)%nat -> (i < d)%nat ->
  due d p got i <-> i ∈ got.
Proof. intros Hfull Hi. unfold due. split; [intros [_ [?|[? ?]]]; auto|auto]. Qed.

Lemma due_complete got i :
  (0 < p /\ d <= size got)%nat -> (i < d)%nat -> due d p got i.
Proof. intros H Hi. split; [done|by right]. Qed.

(** The positions handed on when [pos] arrives: those due afterwards and not
    before. *)
Lemma handed_indices got pos :
  (0 < p -> d <= size got -> forall i, i < d -> i ∈ got)%nat ->
  let got' := {[pos]} ∪ got in
  let idxs := (if bool_decide (pos < d)%nat && negb (bool_decide (pos ∈ got)) then [pos] else [])
              ++ filter (fun i => due d p got' i /\ i ∉ got') (seq 0 d) in
  NoDup idxs /\ forall k, k ∈ idxs <-> due d p got' k /\ ~ due d p got k.
Proof.
  intros Hfull got' idxs.
  assert (forall i, i ∈ got' <-> i = pos \/ i ∈ got) as Hgot'.
  { intros i. unfold got'. by rewrite elem_of_union, elem_of_singleton. }
  assert (forall k, k ∈ (if bool_decide (pos < d)%nat && negb (bool_decide (pos ∈ got)) then [pos] else [])
    <-> k = pos /\ (pos < d)%nat /\ pos ∉ got) as Hfirst.
  { intros k. case_bool_decide as H1; case_bool_decide as H2; cbn;
      rewrite ?list_elem_of_singleton, ?elem_of_nil; tauto. }
  unfold idxs. split.
  - apply NoDup_app. split_and!.
    + destruct (_ && _)%bool; [apply NoDup_singleton|by apply NoDup_nil_2].
    + intros k (-> & _)%Hfirst [[_ Hk] _]%list_elem_of_filter. apply Hk, Hgot'. by left.
    + apply NoDup_filter, NoDup_seq.
  - intros k. rewrite elem_of_app, Hfirst, list_elem_of_filter, elem_of_seq. split.
    + intros [(-> & Hlt & Hn)|[[Hdue Hn] [_ Hk]]].
      * split; [split; [done|left; apply Hgot'; by left]|]. by rewrite due_received.
      * split; [done|]. rewrite due_received by (done || lia). intros Hk'. apply Hn, Hgot'. by right.
    + intros [Hdue Hn]. pose proof Hdue as [Hk _]. rewrite due_received in Hn by (done || lia).
      destruct (decide (k = pos)) as [->|Hne]; [by left|right].
      split; [|lia]. split; [done|]. rewrite Hgot'. tauto.
Qed.

(** Positions handed on once balance the books. *)
Lemma handed_perm got got' idxs :
  got ⊆ got' -> NoDup idxs -> (forall k, k ∈ idxs <-> due d p got' k /\ ~ due d p got k) ->
  pick all idxs ++ handed d p all got ≡ₚ handed d p all got'.
Proof.
  intros Hsub Hnd Hk. unfold handed. rewrite <- pick_app. apply pick_permutation.
  apply NoDup_Permutation.
  - apply NoDup_app. split_and!; [done| |apply NoDup_filter, NoDup_seq].
    intros k [_ Hn]%Hk [? _]%list_elem_of_filter. done.
  - apply NoDup_filter, NoDup_seq.
  - intros k. rewrite elem_of_app, Hk, !list_elem_of_filter, elem_of_seq. split.
    + intros [[Hdue _]|[Hdue Hlt]]; [split; [done|]|split; [by eapply due_monotone|done]].
      destruct Hdue. lia.
    + intros [Hdue Hlt]. destruct (decide (due d p got k)); tauto.
Qed.

Lemma accept_holds got g pos x :
  holds d p all got g -> all !! pos = Some x ->
  exists imm rec idxs g', accept d p pos x g = (Ok (imm, rec), g') /\
    holds d p all ({[pos]} ∪ got) g' /\ created g' = created g /\
    option_list imm ++ rec = pick all idxs /\ NoDup idxs /\
    (forall k, k ∈ idxs <-> due d p ({[pos]} ∪ got) k /\ ~ due d p got k).
Proof.
  intros [Hgd Hgp Hdel Hsh Hgot] Hx. pose proof (lookup_lt_Some _ _ _ Hx) as Hpos.
  assert (forall i, i ∈ {[pos]} ∪ got -> i < d + p)%nat as Hgot'.
  { intros i [->%elem_of_singleton|Hi]%elem_of_union; [lia|by apply Hgot]. }
  unfold accept. unfold_method.
  rewrite Hgd, Hgp, !Nat.eqb_refl. cbn [negb orb].
  destruct Hsh as [[Hsh Hfull]|(Hsh & Hp & Hsz)].
  - assert (delivered g = flags d got) as Hdel'.
    { rewrite Hdel. apply tabulate_ext. intros i Hi. apply bool_decide_ext. by apply due_received. }
    destruct (store_hand_on got g pos x Hsh Hdel' Hx) as (g1 & -> & -> & Hd1 & Hp1 & Hc1 & Hs1 & Hf1).
    destruct (recover_spec ({[pos]} ∪ got) g1) as (rec & g2 & -> & Hh & Hc2 & ->); [congruence..|done|].
    destruct (handed_indices got pos Hfull) as [Hnd Hk].
    eexists _, _, _, _. split; [done|]. split; [done|]. split; [congruence|].
    split; [|split; [exact Hnd|exact Hk]]. rewrite pick_app. f_equal.
    destruct (_ && _)%bool; [|done]. cbn. by rewrite Hx.
  - assert (size got <= size ({[pos]} ∪ got))%nat as Hsz' by (apply subseteq_size; set_solver).
    assert (delivered g = (fun _ => true) <$> seq 0 d) as Hdel'.
    { rewrite Hdel. apply tabulate_ext. intros i Hi. apply bool_decide_true. by apply due_complete. }
    assert (store pos x g = (Ok (), g)) as ->.
    { unfold store. unfold_method. rewrite (elem_at_ok _ pos (Some x)); [done|].
      by rewrite Hsh, list_lookup_fmap, Hx. }
    assert (hand_on d pos x g = (Ok None, g)) as ->.
    { unfold hand_on. destruct (Nat.ltb_spec pos d); [|done]. unfold_method.
      by rewrite (elem_at_ok _ pos true) by (rewrite Hdel'; by apply lookup_tabulate). }
    assert (recover d p g = (Ok [], g)) as ->.
    { unfold recover. unfold_method.
      assert (existsb negb (delivered g) = false) as ->
        by (rewrite Hdel'; by apply existsb_tabulate).
      by rewrite andb_false_r. }
    exists None, [], [], g. split; [done|]. split; [|split; [done|split; [done|split]]].
    + split; try done; [|right; split; [done|lia]].
      rewrite Hdel'. apply tabulate_ext. intros i Hi. symmetry. apply bool_decide_true.
      apply due_complete; [lia|done].
    + by apply NoDup_nil_2.
    + intros k. rewrite elem_of_nil. split; [done|]. intros [[Hk _] Hn].
      by apply Hn, due_complete.
Qed.

Lemma accept_all_holds arrivals got g :
  holds d p all got g -> Forall (fun '(pos, x) => all !! pos = Some x) arrivals ->
  exists outs g', accept_all d p arrivals g = (Ok outs, g') /\
    holds d p all (list_to_set arrivals.*1 ∪ got) g' /\
    outs ++ handed d p all got ≡ₚ handed d p all (list_to_set arrivals.*1 ∪ got).
Proof.
  revert got g. induction arrivals as [|[pos x] arrivals IH]; intros got g Hg HF.
  - exists [], g. cbn. rewrite (left_id_L ∅ (∪)). done.
  - inversion HF as [|?? Hx HF']; subst. cbn beta iota in Hx.
    destruct (accept_holds got g pos x Hg Hx) as (imm & rec & idxs & g1 & Ha & Hg1 & _ & Hout & Hnd & Hk).
    destruct (IH ({[pos]} ∪ got) g1 Hg1 HF') as (outs & g2 & Hrest & Hg2 & Hp2).
    exists (option_list imm ++ rec ++ outs), g2.
    assert (list_to_set (((pos, x) :: arrivals).*1) ∪ got
      = list_to_set arrivals.*1 ∪ ({[pos]} ∪ got) :> gset nat) as ->.
    { cbn. rewrite (assoc_L (∪)). by rewrite (comm_L (∪) {[pos]}). }
    split.
    + cbn [accept_all]. unfold_method. rewrite Ha. cbn beta iota. by rewrite Hrest.
    + split; [done|]. rewrite <- Hp2. rewrite <- (handed_perm got ({[pos]} ∪ got) idxs);
        [|set_solver|done|done].
      rewrite app_assoc, Hout, !app_assoc. f_equiv. apply Permutation_app_comm.
Qed.

Lemma new_holds now : holds d p all ∅ (new now d p).
Proof.
  split; try done.
  - cbn. apply list_eq. intros i. destruct (decide (i < d)%nat) as [Hi|Hi].
    + rewrite lookup_replicate_2, lookup_tabulate by done. f_equal. symmetry.
      apply bool_decide_eq_false. intros [_ [?|[_ Hs]]]; [set_solver|].
      rewrite size_empty in Hs. lia.
    + rewrite !lookup_ge_None_2; [done|..]; rewrite ?length_fmap, ?length_seq, ?length_replicate; lia.
  - left. split.
    + cbn. apply list_eq. intros i. destruct (decide (i < d + p)%nat) as [Hi|Hi].
      * unfold table. rewrite lookup_replicate_2, lookup_tabulate by done. done.
      * rewrite !lookup_ge_None_2; [done|..]; rewrite ?length_table, ?length_replicate; lia.
    + intros _ Hs. rewrite size_empty in Hs. lia.
Qed.

Lemma handed_empty : handed d p all ∅ = [].
Proof.
  unfold handed. rewrite filter_none; [done|]. intros i _ [_ [?|[_ Hs]]]; [set_solver|].
  rewrite size_empty in Hs. lia.
Qed.
End accept_spec.

(** ** Totality *)
Section total.
Context {R : ErasureCode} {S : ErasureShape R}.

(** Same group, same sizes. *)
Definition keeps (g g' : t) : Prop :=
  created g' = created g /\ data g' = data g /\ parity g' = parity g /\
  length (shards g') = length (shards g) /\ length (delivered g') = length (delivered g).

Lemma store_total g pos x :
  (pos < length (shards g))%nat -> exists g', store pos x g = (Ok (), g') /\ keeps g g' /\
    delivered g' = delivered g.
Proof.
  intros Hpos. destruct (elem_at_lt (E := string) (shards g) pos Hpos) as [o Ho].
  unfold store. unfold_method. rewrite Ho. destruct o as [y|].
  - exists g. done.
  - unfold index_set. rewrite Ho. cbn. eexists. split; [done|]. split; [|done].
    unfold keeps. cbn. by rewrite length_insert.
Qed.

Lemma hand_on_total g d pos x :
  length (delivered g) = d -> exists imm g', hand_on d pos x g = (Ok imm, g') /\ keeps g g'.
Proof.
  intros Hd. unfold hand_on. destruct (Nat.ltb_spec pos d) as [Hlt|]; [|by exists None, g].
  destruct (elem_at_lt (E := string) (delivered g) pos ltac:(lia)) as [b Hb].
  unfold_method. rewrite Hb. destruct b; [by exists None, g|].
  unfold index_set. rewrite Hb. cbn. eexists _, _. split; [done|].
  unfold keeps. cbn. by rewrite length_insert.
Qed.

Lemma recover_total g d p :
  length (delivered g) = d -> length (shards g) = (d + p)%nat ->
  no_panic (fst (recover d p g)) /\ keeps g (snd (recover d p g)).
Proof.
  intros Hd Hs. unfold recover. unfold_method. destruct (_ && _)%bool; [|done].
  pose proof (rs_new_no_panic d p) as Hnew. destruct (rs_new d p) as [[]|e|]; [|done|done].
  pose proof (rs_reconstruct_length d p (shards g)) as Hl.
  pose proof (rs_reconstruct_no_panic d p (shards g)) as Hr.
  destruct (rs_reconstruct d p (shards g)) as [sh r]. cbn in Hl, Hr.
  destruct r as [[]|e|]; [| |done].
  - destruct (undelivered_ok (delivered g) sh (seq 0 d)) as [l ->].
    { intros i Hi%elem_of_seq. lia. }
    rewrite mark_all_full by done. split; [done|]. unfold keeps. cbn.
    by rewrite length_fmap, length_seq, Hd.
  - split; [done|]. by unfold keeps.
Qed.

Lemma keeps_trans g1 g2 g3 : keeps g1 g2 -> keeps g2 g3 -> keeps g1 g3.
Proof. unfold keeps. intuition congruence. Qed.

Lemma accept_total g d p pos x :
  inv g -> (pos < d + p)%nat ->
  no_panic (fst (accept d p pos x g)) /\ keeps g (snd (accept d p pos x g)).
Proof.
  intros [Hs Hd] Hpos. unfold accept. unfold_method.
  destruct (_ || _)%bool eqn:E; [done|]. apply orb_false_iff in E as [Ed Ep]. bool_to_prop.
  destruct (store_total g pos x) as (g1 & -> & Hk1 & Hd1); [lia|].
  destruct (hand_on_total g1 d pos x) as (imm & g2 & -> & Hk2); [congruence|].
  pose proof (keeps_trans _ _ _ Hk1 Hk2) as Hk. destruct Hk as (Hc & Hda & Hpa & Hls & Hld).
  destruct (recover_total g2 d p) as [Hr Hk3]; [lia|lia|].
  destruct (recover d p g2) as [[rec|e|] g3]; cbn in Hr, Hk3 |- *; (split; [done|]);
    by eapply keeps_trans; [|done].
Qed.

Lemma keeps_inv g g' : keeps g g' -> inv g -> inv g'.
Proof. unfold keeps, inv. intuition congruence. Qed.
End total.
End Group.

(** ** Properties *)
Import Group.

(** C24: exactly-once delivery and recovery.  Let the shards of one codeword
    arrive in any order, some of them repeatedly, others never.  No arrival
    fails, and what the group hands on is, up to order, the list of the data
    shards that are due, each once: those that arrived, and all of them as soon
    as the group has parity and as many distinct shards as data shards have
    arrived. *)
Theorem group_delivery (R : ErasureCode) (d p : nat) (all : list bytes) (now : N)
    (arrivals : list (nat * bytes)) :
  (0 < d)%nat -> length all = (d + p)%nat ->
  ((0 < p)%nat -> ErasureLaws R d p /\ exists sh, rs_encode d p sh = Ok all) ->
  Forall (fun '(pos, x) => all !! pos = Some x) arrivals ->
  let got := list_to_set arrivals.*1 : gset nat in
  exists outs g, accept_all d p arrivals (new now d p) = (Ok outs, g) /\
    outs ≡ₚ pick all (filter (fun i => i ∈ got \/ (0 < p /\ d <= size got)%nat) (seq 0 d)) /\
    ((0 < p)%nat -> (d <= size got)%nat -> outs ≡ₚ take d all).
Proof.
  intros Hd Hl Hcode HF got.
  destruct (accept_all_holds d p all Hd Hl Hcode arrivals ∅ (new now d p)) as (outs & g & Ha & _ & Hp);
    [by apply new_holds|done|].
  rewrite handed_empty, app_nil_r, (right_id_L ∅ (∪)) in Hp by done.
  change (list_to_set arrivals.*1) with got in Hp.
  exists outs, g. split; [done|]. split.
  - rewrite Hp. unfold handed.
    erewrite filter_ext_elem; [done|]. intros i Hi%elem_of_seq. unfold due.
    split; [tauto|]. split; [lia|done].
  - intros Hp0 Hs. rewrite Hp. rewrite <- (pick_seq all d) by lia. unfold handed.
    rewrite filter_all; [done|]. intros i Hi%elem_of_seq. split; [lia|by right].
Qed.

Definition sample_codeword : list bytes := [[x01; x02]; [x03; x04]; [x02; x06]].

Lemma group_delivery_witness :
  exists outs g, accept_all (R := xor_code) 2 1
      [(2%nat, [x02; x06]); (2%nat, [x02; x06]); (1%nat, [x03; x04])] (new 0 2 1) = (Ok outs, g) /\
    outs ≡ₚ [[x01; x02]; [x03; x04]].
Proof.
  destruct (group_delivery xor_code 2 1 sample_codeword 0
    [(2%nat, [x02; x06]); (2%nat, [x02; x06]); (1%nat, [x03; x04])]) as (outs & g & Ha & _ & Hp).
  - lia.
  - reflexivity.
  - intros _. split; [apply xor_code_laws; lia|].
    exists [[x01; x02]; [x03; x04]; [x00; x00]]. vm_compute. reflexivity.
  - repeat constructor.
  - exists outs, g. split; [exact Ha|]. apply Hp; [lia|]. vm_compute. lia.
Defined.

(** taking a shard in never panics, whatever the payload, the group's
    history or the erasure code's answer, as long as the position is within the
    announced counts; it changes neither the group's counts and age nor the
    sizes of its tables, also when it fails. *)
Theorem group_accept_total (R : ErasureCode) (S : ErasureShape R) (g : Group.t)
    (d p pos : nat) (payload : bytes) :
  inv g -> (pos < d + p)%nat ->
  let '(r, g') := accept d p pos payload g in
  no_panic r /\ inv g' /\ created g' = created g /\ data g' = data g /\ parity g' = parity g /\
  (r = Err "group mismatch"%string \/ (data g = d /\ parity g = p)).
Proof.
  intros Hi Hpos. destruct (accept_total g d p pos payload Hi Hpos) as [Hnp Hk].
  assert (fst (accept d p pos payload g) = Err "group mismatch"%string \/ (data g = d /\ parity g = p)) as Hm.
  { unfold accept. unfold_method. destruct (_ || _)%bool eqn:E; [by left|right].
    apply orb_false_iff in E as [Ed Ep]. by bool_to_prop. }
  destruct (accept d p pos payload g) as [r g']. cbn in *.
  split; [done|]. split; [by eapply keeps_inv|]. by destruct Hk as (? & ? & ? & _).
Qed.

Lemma group_accept_total_witness :
  no_panic (fst (accept (R := xor_code) 2 1 2 [x07] (new 0 2 1))).
Proof.
  pose proof (group_accept_total xor_code xor_code_shape (new 0 2 1) 2 1 2 [x07]) as H.
  destruct (accept 2 1 2 [x07] (new 0 2 1)) as [r g'] eqn:E. apply H.
  - split; reflexivity.
  - lia.
Defined.
