(* ===== verification/Reassembly.v ===== *)
(** * Datagram reassembly (src/src/main.rs, [struct Reassembly] and
    [Decoder::fragment])

    The table [packets] of the decoder maps a packet number to the fragments
    received so far; [fragment] adds one and hands the datagram on when it is
    complete.  The specification follows, per packet, the set of positions that
    have arrived. *)
From S2P Require Import Prelude Fragment.

Module Reassembly.
Record t := mk {
  created : N;
  parts : list (option bytes);
}.

Abbreviation table := (gmap N t).

Definition is_some {A} (o : option A) : bool := match o with Some _ => true | None => false end.

(** [Decoder::fragment]; [now] is the clock reading a new entry takes. *)
Definition fragment (now : N) (shard : bytes) : method table (list bytes) :=
  parsed ← lift (Fragment.parse shard);
  match parsed with
  | None => mret []
  | Some (Fragment.mk packet idx count body) =>
      packets ← get;
      let entry := default (mk now (replicate count None)) (packets !! packet) in
      _ ← put (<[packet := entry]> packets);
      if negb (length (parts entry) =? count)%nat then mret [] else
      parts' ← lift (index_set (parts entry) idx (Some body));
      _ ← modify <[packet := mk (created entry) parts']>;
      if forallb is_some parts' then
        _ ← modify (delete packet);
        mret [concat (omap id parts')]
      else mret []
  end.

(** The fragments of a list of shards, the clock read once per shard. *)
Fixpoint fragments (clk : nat -> N) (shards : list bytes) : method table (list bytes) :=
  match shards with
  | [] => mret []
  | shard :: shards =>
      out ← fragment (clk 0%nat) shard;
      rest ← fragments (clk ∘ S) shards;
      mret (out ++ rest)
  end.

(** ** Specification *)

(** The parts of payload [b] at the positions [got]. *)
Definition parts_of (b : bytes) (got : gset nat) : list (option bytes) :=
  (fun i => if bool_decide (i ∈ got) then Fragment.pieces b !! i else None)
    <$> seq 0 (Fragment.chunk_count b).

Definition complete (b : bytes) (got : gset nat) : Prop :=
  Forall (.∈ got) (seq 0 (Fragment.chunk_count b)).

#[global] Instance complete_dec b got : Decision (complete b got).
Proof. unfold complete. apply _. Defined.

(** The table entry of a packet with payload [b] once the positions [got] of it
    have arrived, each once. *)
Definition entry_ok (b : bytes) (got : gset nat) (o : option t) : Prop :=
  if decide (got = ∅ \/ complete b got) then o = None
  else exists c, o = Some (mk c (parts_of b got)).

(** ** Lemmas *)
Lemma length_parts_of b got : length (parts_of b got) = Fragment.chunk_count b.
Proof. unfold parts_of. by rewrite length_fmap, length_seq. Qed.

Lemma parts_of_empty b : parts_of b ∅ = replicate (Fragment.chunk_count b) None.
Proof.
  apply list_eq. intros i. destruct (decide (i < Fragment.chunk_count b)%nat).
  - unfold parts_of. rewrite lookup_tabulate, lookup_replicate_2 by done. done.
  - rewrite !lookup_ge_None_2; [done|rewrite length_replicate; lia|rewrite length_parts_of; lia].
Qed.

Lemma parts_of_insert b got i c :
  Fragment.pieces b !! i = Some c ->
  <[i := Some c]> (parts_of b got) = parts_of b ({[i]} ∪ got).
Proof.
  intros Hc. unfold parts_of. rewrite insert_tabulate. apply tabulate_ext. intros j _.
  case_bool_decide as E.
  - subst. rewrite bool_decide_true by set_solver. by rewrite Hc.
  - erewrite bool_decide_ext; [done|]. rewrite elem_of_union, elem_of_singleton. tauto.
Qed.

Lemma forallb_is_some {A} (l : list (option A)) :
  forallb is_some l = true <-> forall i, (i < length l)%nat -> exists x, l !! i = Some (Some x).
Proof.
  induction l as [|o l IH]; cbn; [split; [intros _ i Hi; lia|done]|].
  rewrite andb_true_iff, IH. split.
  - intros [Ho Hl] [|i] Hi; cbn; [destruct o; [eauto|done]|]. apply Hl. lia.
  - intros H. split.
    + destruct (H 0%nat ltac:(lia)) as [x Hx]. cbn in Hx. injection Hx as ->. done.
    + intros i Hi. apply (H (S i)). lia.
Qed.

Lemma parts_complete b got : forallb is_some (parts_of b got) = true <-> complete b got.
Proof.
  rewrite forallb_is_some, length_parts_of. unfold complete. rewrite Forall_forall. split.
  - intros H i Hi%elem_of_seq. destruct (H i ltac:(lia)) as [x Hx].
    unfold parts_of in Hx. rewrite lookup_tabulate in Hx by lia.
    case_bool_decide; [done|congruence].
  - intros H i Hi. destruct (lookup_lt_is_Some_2 (Fragment.pieces b) i) as [x Hx].
    { by rewrite Fragment.length_pieces. }
    exists x. unfold parts_of. rewrite lookup_tabulate by done.
    rewrite bool_decide_true by (apply H, elem_of_seq; lia). by rewrite Hx.
Qed.

Lemma omap_id_tabulate {A} (l : list A) : omap id ((fun i => l !! i) <$> seq 0 (length l)) = l.
Proof.
  induction l as [|x l IH]; [done|]. cbn. f_equal.
  rewrite <- fmap_S_seq, <- list_fmap_compose. exact IH.
Qed.

Lemma parts_concat b got : complete b got -> concat (omap id (parts_of b got)) = b.
Proof.
  intros Hc. rewrite <- (Fragment.pieces_concat b) at 2. f_equal.
  rewrite <- (omap_id_tabulate (Fragment.pieces b)) at 1. rewrite Fragment.length_pieces.
  f_equal. apply tabulate_ext. intros i Hi. rewrite bool_decide_true; [done|].
  unfold complete in Hc. rewrite Forall_forall in Hc. apply Hc, elem_of_seq. lia.
Qed.

(** ** One fragment *)
Lemma fragment_step now tbl p b i c pad got :
  entry_ok b got (tbl !! p) -> p < U64 -> (Fragment.chunk_count b <= 64)%nat ->
  Fragment.pieces b !! i = Some c -> i ∉ got ->
  let shard := Fragment.build (Fragment.mk p i (Fragment.chunk_count b) c) ++ pad in
  (length shard <= SHARD)%nat ->
  exists tbl', fragment now shard tbl
      = (Ok (if decide (complete b ({[i]} ∪ got)) then [b] else []), tbl') /\
    entry_ok b ({[i]} ∪ got) (tbl' !! p) /\ (forall q, q <> p -> tbl' !! q = tbl !! q).
Proof.
  intros He Hp Hn Hc Hi shard Hlen. set (n := Fragment.chunk_count b) in *.
  pose proof (lookup_lt_Some _ _ _ Hc) as Hin. rewrite Fragment.length_pieces in Hin. fold n in Hin.
  assert (Fragment.valid (Fragment.mk p i n c)) as Hv.
  { pose proof (Forall_lookup_1 _ _ _ _ (Fragment.pieces_bounded b) Hc) as Hb. cbn beta in Hb.
    unfold Fragment.valid. cbn [Fragment.packet Fragment.count Fragment.idx Fragment.body]. lia. }
  unfold fragment. unfold_method. unfold shard in *. rewrite Fragment.parse_build by done.
  assert (exists cr, default (mk now (replicate n None)) (tbl !! p) = mk cr (parts_of b got)) as [cr ->].
  { unfold entry_ok in He. destruct (decide _) as [[->|Hcomp]|_].
    - rewrite He. exists now. by rewrite parts_of_empty.
    - exfalso. unfold complete in Hcomp. rewrite Forall_forall in Hcomp.
      apply Hi, Hcomp, elem_of_seq. fold n. lia.
    - destruct He as [cr ->]. by exists cr. }
  cbn [parts created]. rewrite length_parts_of. fold n. rewrite Nat.eqb_refl. cbn [negb].
  unfold index_set. destruct (elem_at_lt (E := string) (parts_of b got) i) as [o Ho].
  { by rewrite length_parts_of. }
  rewrite Ho. cbn [mbind outcome_bind]. rewrite (parts_of_insert _ _ _ _ Hc).
  assert ({[i]} ∪ got <> ∅) as Hne by set_solver.
  destruct (forallb is_some (parts_of b ({[i]} ∪ got))) eqn:Hall.
  - apply parts_complete in Hall as Hcomp. eexists. split.
    { rewrite decide_True by done. by rewrite parts_concat. }
    split.
    + unfold entry_ok. rewrite decide_True by tauto. by rewrite lookup_delete_eq.
    + intros q Hq. by rewrite lookup_delete_ne, !lookup_insert_ne by done.
  - assert (~ complete b ({[i]} ∪ got)) as Hnot.
    { intros H%parts_complete. congruence. }
    eexists. split; [by rewrite decide_False|]. split.
    + unfold entry_ok. rewrite decide_False by tauto. exists cr. by rewrite lookup_insert_eq.
    + intros q Hq. by rewrite !lookup_insert_ne by done.
Qed.

(** ** Many packets *)
Section many.
Context (payload : N -> bytes).

(** [shard] is the fragment of packet [p] at position [i], perhaps padded. *)
Definition carries (p : N) (i : nat) (shard : bytes) : Prop :=
  p < U64 /\ (Fragment.chunk_count (payload p) <= 64)%nat /\ (length shard <= SHARD)%nat /\
  exists c pad, Fragment.pieces (payload p) !! i = Some c /\
    shard = Fragment.build (Fragment.mk p i (Fragment.chunk_count (payload p)) c) ++ pad.

(** The positions of packet [p] among [l]. *)
Definition positions (l : list (N * nat)) (p : N) : gset nat :=
  list_to_set (omap (fun '(q, i) => if decide (q = p) then Some i else None) l).

(** The payloads of the packets of [ps] that are complete. *)
Definition finished (ps : list N) (got : N -> gset nat) : list bytes :=
  payload <$> filter (fun p => complete (payload p) (got p)) ps.

Definition add (p : N) (i : nat) (got : N -> gset nat) : N -> gset nat :=
  fun q => if decide (q = p) then {[i]} ∪ got q else got q.

Lemma finished_ext ps got got' :
  (forall p, p ∈ ps -> got p = got' p) -> finished ps got = finished ps got'.
Proof.
  intros H. unfold finished. f_equal. induction ps as [|p ps IH]; [done|].
  rewrite !filter_cons, H by left. rewrite IH; [done|]. intros q Hq. apply H. by right.
Qed.

Lemma finished_add ps p i got :
  NoDup ps -> p ∈ ps -> ~ complete (payload p) (got p) ->
  (if decide (complete (payload p) ({[i]} ∪ got p)) then [payload p] else []) ++ finished ps got
  ≡ₚ finished ps (add p i got).
Proof.
  intros Hnd Hp Hnot. induction Hnd as [|q ps Hq Hnd IH]; [by apply elem_of_nil in Hp|].
  unfold finished. rewrite !filter_cons. destruct (decide (q = p)) as [->|Hne].
  - rewrite (decide_False (P := complete (payload p) (got p))) by done.
    assert (add p i got p = {[i]} ∪ got p) as -> by (unfold add; by rewrite decide_True).
    pose proof (finished_ext ps got (add p i got)) as Hext. unfold finished in Hext.
    rewrite Hext.
    + by destruct (decide _).
    + intros r Hr. unfold add. rewrite decide_False; [done|]. by intros ->.
  - apply elem_of_cons in Hp as [?|Hp]; [congruence|]. specialize (IH Hp). unfold finished in IH.
    assert (add p i got q = got q) as -> by (unfold add; by rewrite decide_False).
    destruct (decide (complete (payload q) (got q))); [|done].
    cbn [fmap list_fmap]. rewrite <- Permutation_middle. by constructor.
Qed.

Lemma complete_nonempty b got : complete b got -> got <> ∅.
Proof.
  unfold complete. pose proof (Fragment.chunk_count_pos b) as Hn.
  destruct (Fragment.chunk_count b); [lia|]. cbn. intros HF ->. inversion HF as [|?? H0 _].
  by apply not_elem_of_empty in H0.
Qed.

Lemma finished_none ps got : (forall p, p ∈ ps -> got p = ∅) -> finished ps got = [].
Proof.
  intros H. unfold finished. rewrite filter_none; [done|].
  intros p Hp Hc%complete_nonempty. by apply Hc, H.
Qed.

Lemma fragments_spec ps (l : list (N * nat)) shards clk tbl got :
  NoDup ps -> (forall p i, (p, i) ∈ l -> p ∈ ps) -> NoDup l ->
  (forall p i, (p, i) ∈ l -> i ∉ got p) ->
  Forall2 (fun '(p, i) shard => carries p i shard) l shards ->
  (forall p, p ∈ ps -> entry_ok (payload p) (got p) (tbl !! p)) ->
  exists outs tbl', fragments clk shards tbl = (Ok outs, tbl') /\
    outs ++ finished ps got ≡ₚ finished ps (fun p => positions l p ∪ got p) /\
    (forall p, p ∈ ps -> entry_ok (payload p) (positions l p ∪ got p) (tbl' !! p)) /\
    (forall q, q ∉ ps -> tbl' !! q = tbl !! q).
Proof.
  intros Hps. revert shards clk tbl got.
  induction l as [|[p i] l IH]; intros shards clk tbl got Hin Hnd Hout HF He.
  - inversion HF; subst. exists [], tbl. split; [done|].
    assert (forall q, positions [] q ∪ got q = got q) as Hq by (intros q; apply (left_id_L ∅ (∪))).
    split; [|split; [intros q Hqs; rewrite Hq; by apply He|done]].
    cbn [app]. by rewrite (finished_ext ps (fun q => positions [] q ∪ got q) got) by (intros; apply Hq).
  - inversion HF as [|? shard ? shards' Hc HF']; subst.
    destruct Hc as (Hp & Hn & Hlen & c & pad & Hpc & ->).
    inversion Hnd as [|?? Hnot Hnd']; subst.
    assert (p ∈ ps) as Hpp by (apply (Hin p i); left).
    assert (i ∉ got p) as Hig by (apply Hout; left).
    destruct (fragment_step (clk 0%nat) tbl p (payload p) i c pad (got p)) as (tbl1 & Hf & He1 & Hoth);
      [by apply He|done..|].
    destruct (IH shards' (clk ∘ S) tbl1 (add p i got)) as (outs & tbl2 & Hr & Hperm & He2 & Hun); try done.
    + intros q j Hq. apply (Hin q j). by right.
    + intros q j Hq. unfold add. destruct (decide (q = p)) as [->|].
      * rewrite elem_of_union, elem_of_singleton. intros [->|Hj]; [done|].
        eapply Hout; [right; exact Hq|done].
      * apply Hout. by right.
    + intros q Hq. unfold add. destruct (decide (q = p)) as [->|]; [done|].
      rewrite Hoth by done. by apply He.
    + assert (forall q, positions l q ∪ add p i got q = positions ((p, i) :: l) q ∪ got q) as Hpos.
      { intros q. unfold positions, add. cbn. destruct (decide (q = p)) as [->|].
        - rewrite decide_True by done. cbn. rewrite (assoc_L (∪)). by rewrite (comm_L (∪) _ {[i]}).
        - by rewrite decide_False. }
      eexists _, tbl2. split.
      { cbn [fragments]. unfold_method. rewrite Hf. by rewrite Hr. }
      split.
      * rewrite <- (finished_ext ps (fun q => positions l q ∪ add p i got q)
          (fun q => positions ((p, i) :: l) q ∪ got q)) by (intros; apply Hpos).
        rewrite <- Hperm, <- (finished_add ps p i got); [|done..|].
        -- rewrite !app_assoc. f_equiv. apply Permutation_app_comm.
        -- intros Hcomp. unfold complete in Hcomp. rewrite Forall_forall in Hcomp.
           apply Hig, Hcomp, elem_of_seq. apply lookup_lt_Some in Hpc.
           rewrite Fragment.length_pieces in Hpc. lia.
      * split; [intros q Hq; rewrite <- Hpos; by apply He2|].
        intros q Hq. rewrite Hun by done. apply Hoth. by intros ->.
Qed.
End many.

(** ** Totality *)
Lemma fragment_total now shard tbl :
  exists outs tbl', fragment now shard tbl = (Ok outs, tbl') /\ (length outs <= 1)%nat /\
    (size tbl' <= size tbl + 1)%nat /\
    (forall p, is_Some (tbl' !! p) -> is_Some (tbl !! p) \/
      exists f, Fragment.parse shard = Ok (Some f) /\ p = Fragment.packet f).
Proof.
  unfold fragment. unfold_method.
  pose proof (Fragment.parse_no_panic shard) as Hnp.
  destruct (Fragment.parse shard) as [o|e|] eqn:Hparse; [| |done].
  2:{ by apply Fragment.parse_not_err in Hparse. }
  destruct o as [[p i n b]|]; [|exists [], tbl; cbn; split_and!; [done|lia|lia|by left]].
  apply Fragment.parse_inv in Hparse as Hv. destruct Hv as [(_ & Hn & Hi & _) _].
  cbn [Fragment.count Fragment.idx] in Hn, Hi.
  set (entry := default (mk now (replicate n None)) (tbl !! p)).
  assert (forall e : t, size (<[p := e]> tbl) <= size tbl + 1)%nat as Hsize.
  { intros e. rewrite map_size_insert. destruct (tbl !! p); unfold id; lia. }
  assert (forall (e : t) q, is_Some (<[p := e]> tbl !! q) -> is_Some (tbl !! q) \/ q = p) as Hdom.
  { intros e q. destruct (decide (q = p)); [by right|]. rewrite lookup_insert_ne by done. by left. }
  destruct (Nat.eqb_spec (length (parts entry)) n) as [Hl|Hl]; cbn [negb].
  - unfold index_set. destruct (elem_at_lt (E := string) (parts entry) i) as [o Ho]; [lia|].
    rewrite Ho. cbn [mbind outcome_bind]. rewrite insert_insert_eq.
    destruct (forallb _ _).
    + eexists _, _. split; [done|]. split; [cbn; lia|]. split.
      * rewrite map_size_delete. rewrite lookup_insert_eq. specialize (Hsize (mk (created entry) (<[i := Some b]> (parts entry)))). lia.
      * intros q Hq. destruct (Hdom (mk (created entry) (<[i := Some b]> (parts entry))) q) as [?| ->]; [|by left|].
        -- apply lookup_delete_is_Some in Hq. tauto.
        -- right. eauto.
    + eexists _, _. split; [done|]. split; [cbn; lia|]. split; [apply Hsize|].
      intros q Hq. destruct (Hdom _ q Hq) as [?| ->]; [by left|right; eauto].
  - eexists _, _. split; [done|]. split; [cbn; lia|]. split; [apply Hsize|].
    intros q Hq. destruct (Hdom _ q Hq) as [?| ->]; [by left|right; eauto].
Qed.

(** Entries keep their age; new ones take the clock's. *)
Lemma fragment_created T now shard tbl p e :
  T <= now -> snd (fragment now shard tbl) !! p = Some e ->
  T <= created e \/ exists e0, tbl !! p = Some e0 /\ created e0 = created e.
Proof.
  intros Hnow. unfold fragment. unfold_method.
  destruct (Fragment.parse shard) as [[[q i n b]|]|e'|]; cbn [snd]; [|eauto..].
  set (entry := default (mk now (replicate n None)) (tbl !! q)).
  assert (T <= created entry \/ exists e0, tbl !! q = Some e0 /\ created e0 = created entry) as Hent.
  { unfold entry. destruct (tbl !! q) as [e0|]; cbn; [right; by exists e0|by left]. }
  assert (forall e1 : t, created e1 = created entry -> <[q := e1]> tbl !! p = Some e ->
    T <= created e \/ exists e0, tbl !! p = Some e0 /\ created e0 = created e) as Hins.
  { intros e1 He1 Hl. destruct (decide (p = q)) as [->|Hne].
    - rewrite lookup_insert_eq in Hl. injection Hl as ->. by rewrite He1.
    - rewrite lookup_insert_ne in Hl by done. eauto. }
  destruct (negb _); cbn [snd]; [by apply Hins|].
  destruct (index_set _ _ _) as [parts'|e'|]; cbn [snd]; [|by apply Hins..].
  rewrite insert_insert_eq. destruct (forallb _ _); cbn [snd]; [|by apply Hins].
  destruct (decide (p = q)) as [->|Hne]; [by rewrite lookup_delete_eq|].
  rewrite lookup_delete_ne by done. by apply Hins.
Qed.

Lemma fragments_created T clk shards tbl p e :
  (forall i, T <= clk i) -> snd (fragments clk shards tbl) !! p = Some e ->
  T <= created e \/ exists e0, tbl !! p = Some e0 /\ created e0 = created e.
Proof.
  revert clk tbl. induction shards as [|shard shards IH]; intros clk tbl Hclk; cbn [fragments];
    [cbn; eauto|]. unfold_method.
  pose proof (fun p e => fragment_created T (clk 0%nat) shard tbl p e (Hclk 0%nat)) as H1.
  destruct (fragment (clk 0%nat) shard tbl) as [[o|e'|] tbl1]; cbn [snd] in *; [|apply H1..].
  specialize (IH (clk ∘ S) tbl1 (fun i => Hclk (S i))).
  destruct (fragments (clk ∘ S) shards tbl1) as [[o2|e'|] tbl2]; cbn [snd] in *;
    intros Hl; destruct (IH Hl) as [?|(e0 & He0 & <-)]; eauto.
Qed.

Lemma fragments_total clk shards tbl :
  exists outs tbl', fragments clk shards tbl = (Ok outs, tbl') /\
    (length outs <= length shards)%nat /\ (size tbl' <= size tbl + length shards)%nat.
Proof.
  revert clk tbl. induction shards as [|shard shards IH]; intros clk tbl.
  - exists [], tbl. cbn. split_and!; [done|lia|lia].
  - destruct (fragment_total (clk 0%nat) shard tbl) as (o1 & tbl1 & H1 & Hl1 & Hs1 & _).
    destruct (IH (clk ∘ S) tbl1) as (o2 & tbl2 & H2 & Hl2 & Hs2).
    exists (o1 ++ o2), tbl2. cbn [fragments]. unfold_method. rewrite H1, H2.
    split; [done|]. rewrite length_app. cbn [length]. lia.
Qed.
End Reassembly.

(** ** Properties *)
Import Reassembly.

(** C25: reassembly.  Let distinct fragments of the packets [ps] arrive in any
    order and any interleaving, some of them never; padding behind a fragment
    does not matter.  No arrival fails, and what is handed on is, up to order,
    the payload of every packet all of whose fragments arrived, exactly once;
    such a packet leaves no table entry behind. *)
Theorem reassembly_any_order (payload : N -> bytes) (ps : list N) (l : list (N * nat))
    (shards : list bytes) (clk : nat -> N) (tbl : table) :
  NoDup ps -> (forall p, p ∈ ps -> tbl !! p = None) ->
  NoDup l -> (forall p i, (p, i) ∈ l -> p ∈ ps) ->
  Forall2 (fun '(p, i) shard => carries payload p i shard) l shards ->
  exists outs tbl', fragments clk shards tbl = (Ok outs, tbl') /\
    outs ≡ₚ payload <$> filter (fun p => complete (payload p) (positions l p)) ps /\
    (forall p, p ∈ ps -> complete (payload p) (positions l p) -> tbl' !! p = None).
Proof.
  intros Hps Hnone Hnd Hin HF.
  destruct (fragments_spec payload ps l shards clk tbl (fun _ => ∅)) as (outs & tbl' & Hf & Hp & He & _);
    try done.
  exists outs, tbl'. split; [done|].
  pose proof (finished_none payload ps (fun _ => ∅) (fun _ _ => eq_refl)) as H0.
  rewrite H0, app_nil_r in Hp.
  rewrite (finished_ext payload ps _ (positions l)) in Hp by (intros; apply (right_id_L ∅ (∪))).
  split; [exact Hp|]. intros p Hpp Hc. specialize (He p Hpp). rewrite (right_id_L ∅ (∪)) in He.
  unfold entry_ok in He. by rewrite decide_True in He by (by right).
Qed.

Lemma reassembly_any_order_witness :
  exists outs tbl', fragments (fun _ => 0)
      [Fragment.build (Fragment.mk 4 1 2 [x07]); Fragment.build (Fragment.mk 9 0 1 [x01]) ++ [x00];
       Fragment.build (Fragment.mk 4 0 2 (replicate 1326 x61))] ∅ = (Ok outs, tbl') /\
    outs ≡ₚ [replicate 1326 x61 ++ [x07]; [x01]].
Proof.
  set (payload := fun p : N => if p =? 4 then replicate 1326 x61 ++ [x07] else [x01]).
  destruct (reassembly_any_order payload [4; 9] [(4, 1%nat); (9, 0%nat); (4, 0%nat)]
    [Fragment.build (Fragment.mk 4 1 2 [x07]); Fragment.build (Fragment.mk 9 0 1 [x01]) ++ [x00];
       Fragment.build (Fragment.mk 4 0 2 (replicate 1326 x61))] (fun _ => 0) ∅)
    as (outs & tbl' & H & Hp & _).
  - apply (bool_decide_unpack _). vm_compute. exact I.
  - done.
  - apply (bool_decide_unpack _). vm_compute. exact I.
  - intros p i Hin. apply elem_of_cons in Hin as [[= -> _]|Hin]; [left|].
    apply elem_of_cons in Hin as [[= -> _]|Hin]; [right; left|].
    apply elem_of_cons in Hin as [[= -> _]|Hin]; [left|by apply elem_of_nil in Hin].
  - repeat constructor; try (vm_compute; first [reflexivity|lia]).
    + exists [x07], []. split; vm_compute; reflexivity.
    + exists [x01], [x00]. split; vm_compute; reflexivity.
    + exists (replicate 1326 x61), []. split; vm_compute; reflexivity.
  - exists outs, tbl'. split; [exact H|]. rewrite Hp.
    replace (filter _ [4; 9]) with [4; 9]; [done|]. vm_compute. reflexivity.
Defined.
