(* ===== verification/Decoder.v ===== *)
(** * The FEC decoder (src/src/main.rs, [struct Decoder])

    The decoder's sequence window, FEC groups and reassembly table are the
    components of the files Window, Group and Reassembly; this file composes
    them as [Decoder::frame] and [Decoder::prune] do.

    Time: [Instant::now()] is read from a clock [clk : nat -> N] of
    nanoseconds, one reading per call in program order; [clk 0] is the reading of
    the first [prune] of a frame, [clk 1] that of a new group, [clk (2 + i)]
    that of the [i]-th shard's reassembly entry, and the last one is the second
    [prune]'s.  The order in which [sort_unstable_by_key] leaves entries of
    equal age is not specified by the source; the model keeps key order. *)
From stdpp Require Import sorting.
From S2P Require Import Prelude External Wire Adaptive Fragment Encoder Window Group Reassembly.

Definition NANOS : N := 1000000000.
Definition GROUP_TTL : N := 2 * NANOS.
Definition REASSEMBLY_TTL : N := 3 * NANOS.
Definition MAX_GROUPS : nat := 2048.
Definition MAX_REASSEMBLIES : nat := 4096.

Module Decoder.
Record t := mk {
  session : N;
  window : Window.t;
  groups : gmap N Group.t;
  packets : gmap N Reassembly.t;
}.

(** [Decoder::new] *)
Definition new (session : N) : t := mk session Window.new ∅ ∅.

Definition set_window x (s : t) := mk (session s) x (groups s) (packets s).
Definition set_groups x (s : t) := mk (session s) (window s) x (packets s).
Definition set_packets x (s : t) := mk (session s) (window s) (groups s) x.

(** [oldest.sort_unstable_by_key(|(_, created)| *created)] *)
Definition older (a b : N * Reassembly.t) : Prop :=
  Reassembly.created a.2 <= Reassembly.created b.2.

#[global] Instance older_dec a b : Decision (older a b) := decide (_ <= _).

Definition oldest (m : gmap N Reassembly.t) : list N := (merge_sort older (map_to_list m)).*1.

(** [Decoder::prune] at time [now] *)
Definition prune (now : N) (s : t) : t :=
  let groups' := filter (fun '(_, g) => now - Group.created g < GROUP_TTL) (groups s) in
  let live := filter (fun '(_, p) => now - Reassembly.created p < REASSEMBLY_TTL) (packets s) in
  let packets' :=
    if (MAX_REASSEMBLIES <? size live)%nat then
      foldl (fun m id => delete id m) live (take (size live - MAX_REASSEMBLIES) (oldest live))
    else live in
  mk (session s) (window s) groups' packets'.

(** A method of a component, run on the component's part of the state. *)
Definition on_group {A} (id : N) (fresh : Group.t) (m : method Group.t A) : method t A :=
  fun s =>
    let '(r, g) := m (default fresh (groups s !! id)) in
    (r, set_groups (<[id := g]> (groups s)) s).

Definition on_packets {A} (m : method Reassembly.table A) : method t A :=
  fun s => let '(r, tbl) := m (packets s) in (r, set_packets tbl s).

Section frame.
Context {R : ErasureCode}.

(** The tests of [Decoder::frame] that end in [bail!("invalid fec frame")]. *)
Definition invalid_fec (f : Frame.t) : bool :=
  let data := N.to_nat (Frame.data f) in
  let parity := N.to_nat (Frame.parity f) in
  ((data =? 0) || (32 <? data) || (16 <? parity)
   || (data + parity <=? N.to_nat (Frame.index f))
   || (length (Frame.payload f) <? FRAGMENT_HEADER) || (SHARD <? length (Frame.payload f)))%nat.

(** [Decoder::frame] *)
Definition frame (clk : nat -> N) (f : Frame.t) : method t (list bytes) :=
  s ← get;
  if negb (session s =? Frame.session f) then bail "session mismatch"%string else
  let '(fresh, w) := Window.observe_seq (Frame.sequence f) (window s) in
  _ ← modify (set_window w);
  if negb fresh then mret [] else
  if Frame.kind f =? KIND_REPORT then mret [] else
  if negb ((Frame.kind f =? KIND_DATA) || (Frame.kind f =? KIND_PARITY)) then mret [] else
  let data := N.to_nat (Frame.data f) in
  let parity := N.to_nat (Frame.parity f) in
  if invalid_fec f then bail "invalid fec frame"%string else
  _ ← modify (prune (clk 0%nat));
  s ← get;
  if bool_decide (groups s !! Frame.group f = None) && (MAX_GROUPS <=? size (groups s))%nat
  then bail "too many fec groups"%string else
  let pos := N.to_nat (Frame.index f) in
  '(immediate, recovered) ← on_group (Frame.group f) (Group.new (clk 1%nat) data parity)
                              (Group.accept data parity pos (Frame.payload f));
  let handed := option_list immediate ++ recovered in
  output ← on_packets (Reassembly.fragments (fun i => clk (2 + i)%nat) handed);
  _ ← modify (prune (clk (2 + length handed)%nat));
  mret output.

(** Frames arriving one after another, each with its own clock; a frame that
    fails is dropped, as the receive loops do. *)
Fixpoint frames (arrivals : list ((nat -> N) * Frame.t)) (s : t) : list bytes * t :=
  match arrivals with
  | [] => ([], s)
  | (clk, f) :: arrivals =>
      let '(r, s) := frame clk f s in
      let '(rest, s) := frames arrivals s in
      ((match r with Ok out => out | _ => [] end) ++ rest, s)
  end.
End frame.

(** ** Invariant *)
Definition inv (s : t) : Prop :=
  Window.inv (window s) /\
  map_Forall (fun _ g => Group.inv g /\ (0 < Group.data g <= 32 /\ Group.parity g <= 16)%nat) (groups s) /\
  (size (groups s) <= MAX_GROUPS)%nat /\
  (size (packets s) <= MAX_REASSEMBLIES)%nat.

(** ** Pruning *)
Lemma length_oldest m : length (oldest m) = size m.
Proof.
  unfold oldest. rewrite length_fmap. rewrite <- length_map_to_list.
  apply Permutation_length, merge_sort_Permutation.
Qed.

Lemma oldest_keys m : oldest m ≡ₚ (map_to_list m).*1.
Proof. unfold oldest. apply fmap_Permutation, merge_sort_Permutation. Qed.

Lemma oldest_NoDup m : NoDup (oldest m).
Proof. rewrite oldest_keys. apply NoDup_fst_map_to_list. Qed.

Lemma elem_of_oldest m i : i ∈ oldest m <-> is_Some (m !! i).
Proof.
  rewrite oldest_keys, list_elem_of_fmap. split.
  - intros ([j x] & -> & H). apply elem_of_map_to_list in H. by exists x.
  - intros [x Hx]. exists (i, x). split; [done|]. by apply elem_of_map_to_list.
Qed.

Lemma lookup_delete_all {A} (m : gmap N A) (l : list N) i :
  foldl (fun m id => delete id m) m l !! i = if decide (i ∈ l) then None else m !! i.
Proof.
  revert m. induction l as [|j l IH]; intros m; cbn.
  - by rewrite decide_False by (by intros ?%elem_of_nil).
  - rewrite IH. destruct (decide (i ∈ l)) as [Hi|Hi].
    + by rewrite decide_True by (by right).
    + destruct (decide (i = j)) as [->|Hne].
      * by rewrite lookup_delete_eq, decide_True by left.
      * rewrite lookup_delete_ne by done. rewrite decide_False; [done|].
        by intros [?|?]%elem_of_cons.
Qed.

Lemma size_delete_all {A} (m : gmap N A) (l : list N) :
  NoDup l -> (forall i, i ∈ l -> is_Some (m !! i)) ->
  (size (foldl (fun m id => delete id m) m l) = size m - length l)%nat.
Proof.
  revert m. induction l as [|j l IH]; intros m Hnd Hm; cbn; [lia|].
  inversion Hnd as [|?? Hj Hnd']; subst. rewrite IH; [|done|].
  - rewrite map_size_delete. destruct (Hm j ltac:(left)) as [x ->]. lia.
  - intros i Hi. rewrite lookup_delete_ne; [apply Hm; by right|]. by intros ->.
Qed.

Lemma prune_size now s : (size (packets (prune now s)) <= MAX_REASSEMBLIES)%nat.
Proof.
  unfold prune. cbn [packets]. set (live := filter _ (packets s)). destruct (Nat.ltb_spec MAX_REASSEMBLIES (size live)); [|done].
  rewrite size_delete_all.
  - rewrite length_take, length_oldest. lia.
  - eapply sublist_NoDup; [apply oldest_NoDup|apply sublist_take].
  - intros i Hi. apply elem_of_oldest. eapply elem_of_take in Hi as (k & Hk & _).
    by eapply list_elem_of_lookup_2.
Qed.

(** Which entries a prune drops: the groups and reassemblies that have lived
    their time, and beyond the limit the oldest reassemblies. *)
Lemma prune_groups now s id g :
  groups (prune now s) !! id = Some g <->
  groups s !! id = Some g /\ now - Group.created g < GROUP_TTL.
Proof. unfold prune. cbn [groups]. by rewrite map_lookup_filter_Some. Qed.

Lemma live_lookup now (m : gmap N Reassembly.t) id e :
  filter (fun '(_, p) => now - Reassembly.created p < REASSEMBLY_TTL) m !! id = Some e <->
  m !! id = Some e /\ now - Reassembly.created e < REASSEMBLY_TTL.
Proof. by rewrite map_lookup_filter_Some. Qed.

Lemma prune_sub now s id e : packets (prune now s) !! id = Some e ->
  packets s !! id = Some e /\ now - Reassembly.created e < REASSEMBLY_TTL.
Proof.
  unfold prune. cbn [packets]. intros H. apply live_lookup.
  destruct (_ <? _)%nat; [|done]. rewrite lookup_delete_all in H. by destruct (decide _).
Qed.

Lemma prune_keeps now s id e :
  (size (packets s) <= MAX_REASSEMBLIES)%nat ->
  packets s !! id = Some e -> now - Reassembly.created e < REASSEMBLY_TTL ->
  packets (prune now s) !! id = Some e.
Proof.
  intros Hs He Hlive. unfold prune. cbn [packets].
  rewrite (proj2 (Nat.ltb_ge _ _)).
  - by apply live_lookup.
  - etransitivity; [|exact Hs]. apply map_size_filter.
Qed.

Lemma older_sorted m :
  StronglySorted older (merge_sort older (map_to_list m)).
Proof.
  apply Sorted_StronglySorted.
  - intros a b c. unfold older. lia.
  - apply Sorted_merge_sort. intros a b. unfold older. lia.
Qed.

Lemma sorted_split {A} (P : relation A) (l : list A) k x y :
  StronglySorted P l -> x ∈ take k l -> y ∈ drop k l -> P x y.
Proof.
  intros Hs. revert k. induction Hs as [|z l Hs IH Hz]; intros [|k] Hx Hy; cbn in *;
    [by apply elem_of_nil in Hx..| |].
  { by apply elem_of_nil in Hx. }
  apply elem_of_cons in Hx as [->|Hx]; [|by eapply IH].
  rewrite Forall_forall in Hz. apply Hz.
  rewrite <- (take_drop k l). apply elem_of_app. by right.
Qed.

Lemma prune_oldest now s i j a b :
  packets s !! i = Some a -> now - Reassembly.created a < REASSEMBLY_TTL ->
  packets (prune now s) !! i = None ->
  packets (prune now s) !! j = Some b -> Reassembly.created a <= Reassembly.created b.
Proof.
  intros Ha Hlive. unfold prune. cbn [packets].
  set (live := filter _ (packets s)) in *.
  assert (live !! i = Some a) as Hai by (by apply live_lookup).
  destruct (_ <? _)%nat; [|congruence]. rewrite !lookup_delete_all.
  set (k := (size live - MAX_REASSEMBLIES)%nat).
  destruct (decide (i ∈ take k (oldest live))) as [Hi|]; [|congruence]. intros _.
  destruct (decide (j ∈ take k (oldest live))) as [|Hj]; [done|]. intros Hb.
  pose proof (older_sorted live) as Hs. unfold oldest in Hi, Hj.
  set (l := merge_sort older (map_to_list live)) in *.
  assert (forall q e, (q, e) ∈ l <-> live !! q = Some e) as Hl.
  { intros q e. unfold l. rewrite merge_sort_Permutation. apply elem_of_map_to_list. }
  rewrite <- fmap_take in Hi, Hj. apply list_elem_of_fmap in Hi as ([i' a'] & Hi' & Hia).
  cbn in Hi'. subst i'.
  assert (a' = a) as ->.
  { assert ((i, a') ∈ l) as Hia'%Hl; [|congruence].
    rewrite <- (take_drop k l). apply elem_of_app. by left. }
  assert ((j, b) ∈ drop k l) as Hjb.
  { apply Hl in Hb as Hb'. rewrite <- (take_drop k l) in Hb'.
    apply elem_of_app in Hb' as [Hjt|?]; [|done]. exfalso. apply Hj.
    apply list_elem_of_fmap. by exists (j, b). }
  exact (sorted_split older l k _ _ Hs Hia Hjb).
Qed.

(** ** Totality *)
Section frame_total.
Context {R : ErasureCode} {S : ErasureShape R}.

Lemma new_inv ss : inv (new ss).
Proof.
  unfold inv, new. cbn [window groups packets]. split_and!.
  - apply Window.window_new_inv.
  - apply map_Forall_empty.
  - rewrite map_size_empty. lia.
  - rewrite map_size_empty. lia.
Qed.

Lemma prune_inv now s :
  Window.inv (window s) ->
  map_Forall (fun _ g => Group.inv g /\ (0 < Group.data g <= 32 /\ Group.parity g <= 16)%nat) (groups s) ->
  (size (groups s) <= MAX_GROUPS)%nat -> inv (prune now s).
Proof.
  intros Hw Hg Hs. split; [done|]. split_and!.
  - intros id g [Hid _]%prune_groups. by eapply Hg.
  - etransitivity; [|exact Hs]. unfold prune. cbn [groups]. apply map_size_filter.
  - apply prune_size.
Qed.

(** The frames that reach a group. *)
Lemma invalid_fec_false f :
  invalid_fec f = false <->
  (0 < N.to_nat (Frame.data f) <= 32 /\ N.to_nat (Frame.parity f) <= 16 /\
   N.to_nat (Frame.index f) < N.to_nat (Frame.data f) + N.to_nat (Frame.parity f) /\
   FRAGMENT_HEADER <= length (Frame.payload f) <= SHARD)%nat.
Proof.
  unfold invalid_fec. rewrite !orb_false_iff.
  rewrite Nat.eqb_neq, !Nat.ltb_ge, Nat.leb_gt. lia.
Qed.

Lemma frame_total clk f s :
  inv s -> Frame.sequence f < U64 ->
  no_panic (fst (frame clk f s)) /\ inv (snd (frame clk f s)).
Proof.
  intros (Hw & Hg & Hsg & Hsp) Hq. unfold frame. unfold_method.
  destruct (negb _); [done|].
  pose proof (Window.observe_inv (Frame.sequence f) (window s) Hw Hq) as Hw'.
  destruct (Window.observe_seq _ _) as [fresh w]. cbn [snd] in Hw'.
  assert (inv (set_window w s)) as Hi by done.
  destruct (negb fresh); [done|]. destruct (_ =? _); [done|]. destruct (negb _); [done|].
  destruct (invalid_fec f) eqn:Hf; [done|]. apply invalid_fec_false in Hf as (Hd & Hp & Hx & Hl).
  pose proof (prune_inv (clk 0%nat) (set_window w s) Hw' Hg Hsg) as Hi1.
  set (s1 := prune (clk 0%nat) (set_window w s)) in *.
  destruct (_ && _)%bool eqn:Hfull; [done|]. destruct Hi1 as (Hw1 & Hg1 & Hsg1 & Hsp1).
  set (d := N.to_nat (Frame.data f)) in *. set (p := N.to_nat (Frame.parity f)) in *.
  set (g0 := default (Group.new (clk 1%nat) d p) (groups s1 !! Frame.group f)).
  assert (Group.inv g0 /\ (0 < Group.data g0 <= 32 /\ Group.parity g0 <= 16)%nat) as [Hgi Hgr].
  { unfold g0. destruct (groups s1 !! Frame.group f) as [g|] eqn:Hlook; cbn.
    - by apply (Hg1 _ _ Hlook).
    - split; [|lia]. unfold Group.inv, Group.new. cbn. rewrite !length_replicate. done. }
  unfold on_group. fold g0.
  destruct (Group.accept_total g0 d p (N.to_nat (Frame.index f)) (Frame.payload f) Hgi Hx) as [Hnp Hk].
  destruct (Group.accept _ _ _ _ _) as [r g1]. cbn [fst snd] in Hnp, Hk.
  set (s2 := set_groups (<[Frame.group f := g1]> (groups s1)) s1).
  assert (map_Forall (fun _ g => Group.inv g /\ (0 < Group.data g <= 32 /\ Group.parity g <= 16)%nat)
    (groups s2)) as Hg2.
  { cbn [s2 groups set_groups]. apply map_Forall_insert_2; [|done].
    split; [by eapply Group.keeps_inv|]. destruct Hk as (_ & -> & -> & _). done. }
  assert (size (groups s2) <= MAX_GROUPS)%nat as Hsg2.
  { cbn [s2 groups set_groups]. rewrite map_size_insert.
    destruct (groups s1 !! Frame.group f) as [g|] eqn:Hlook; cbn [id]; [done|].
    rewrite bool_decide_true in Hfull by done. cbn [andb] in Hfull.
    apply Nat.leb_gt in Hfull. unfold id. lia. }
  destruct r as [[imm rec]|e|]; cbn [fst snd]; [|done|done].
  unfold on_packets.
  destruct (Reassembly.fragments_total (fun i => clk (2 + i)%nat) (option_list imm ++ rec) (packets s2))
    as (outs & tbl & -> & _).
  cbn [fst snd]. split; [done|]. by apply prune_inv.
Qed.

Lemma frames_inv arrivals s :
  inv s -> Forall (fun '(_, f) => Frame.sequence f < U64) arrivals -> inv (snd (frames arrivals s)).
Proof.
  revert s. induction arrivals as [|[clk f] arrivals IH]; intros s Hs HF; [done|].
  inversion HF as [|?? Hf HF']; subst. cbn [frames].
  destruct (frame_total clk f s Hs Hf) as [_ Hs1]. destruct (frame clk f s) as [r s1].
  cbn in Hs1. specialize (IH s1 Hs1 HF'). by destruct (frames arrivals s1).
Qed.
End frame_total.

(** ** What a frame does *)
Section frame_cases.
Context {R : ErasureCode}.

(** A frame of the session that is not a fresh data or parity frame touches
    the sequence window only. *)
Lemma frame_not_fec clk f s :
  session s = Frame.session f ->
  fst (Window.observe_seq (Frame.sequence f) (window s)) = false \/
    ~ (Frame.kind f = KIND_DATA \/ Frame.kind f = KIND_PARITY) ->
  frame clk f s = (Ok [], set_window (snd (Window.observe_seq (Frame.sequence f) (window s))) s).
Proof.
  intros Hs H. unfold frame. unfold_method. rewrite Hs, N.eqb_refl. cbn [negb].
  destruct (Window.observe_seq _ _) as [fresh w]. cbn [fst snd] in *.
  destruct fresh; [|done]. cbn [negb]. destruct H as [?|H]; [done|].
  destruct (_ =? KIND_REPORT); [done|].
  destruct (N.eqb_spec (Frame.kind f) KIND_DATA); [tauto|].
  destruct (N.eqb_spec (Frame.kind f) KIND_PARITY); [tauto|]. done.
Qed.

Lemma frame_fec clk f s w :
  session s = Frame.session f ->
  Window.observe_seq (Frame.sequence f) (window s) = (true, w) ->
  Frame.kind f = KIND_DATA \/ Frame.kind f = KIND_PARITY ->
  frame clk f s =
    (if invalid_fec f then bail "invalid fec frame"%string else
     _ ← modify (prune (clk 0%nat));
     s ← get;
     if bool_decide (groups s !! Frame.group f = None) && (MAX_GROUPS <=? size (groups s))%nat
     then bail "too many fec groups"%string else
     '(immediate, recovered) ←
        on_group (Frame.group f)
          (Group.new (clk 1%nat) (N.to_nat (Frame.data f)) (N.to_nat (Frame.parity f)))
          (Group.accept (N.to_nat (Frame.data f)) (N.to_nat (Frame.parity f))
             (N.to_nat (Frame.index f)) (Frame.payload f));
     let handed := option_list immediate ++ recovered in
     output ← on_packets (Reassembly.fragments (fun i => clk (2 + i)%nat) handed);
     _ ← modify (prune (clk (2 + length handed)%nat));
     mret output) (set_window w s).
Proof.
  intros Hs Hw Hk. unfold frame at 1. unfold mbind at 1, method_bind at 1, get at 1.
  rewrite Hs, N.eqb_refl. cbn [negb]. rewrite Hw.
  unfold mbind at 1, method_bind at 1, modify at 1. cbn [negb].
  destruct Hk as [-> | ->]; done.
Qed.
End frame_cases.
End Decoder.

(** ** Properties *)
Import Decoder.

(** C20: the receiver cannot be crashed or exhausted by frames.  After any
    history of frames, whatever their fields, payloads and arrival times, no
    frame panics (no index, slice or unwrap out of range), and the state is
    bounded: at most 2048 groups of at most 32 data and 16 parity shards each,
    and at most 4096 datagrams in reassembly. *)
Theorem decoder_total (R : ErasureCode) (S : ErasureShape R) (ss : N)
    (arrivals : list ((nat -> N) * Frame.t)) (clk : nat -> N) (f : Frame.t) :
  Forall (fun '(_, f) => Frame.sequence f < U64) arrivals -> Frame.sequence f < U64 ->
  let s := snd (frames arrivals (new ss)) in
  inv s /\ no_panic (fst (frame clk f s)) /\ inv (snd (frame clk f s)).
Proof.
  intros HF Hf s.
  assert (inv s) as Hs by (apply frames_inv; [apply new_inv|done]).
  split; [done|]. by apply frame_total.
Qed.

Definition stray_frame : Frame.t := Frame.mk 3 5 KIND_PARITY 9 1 0 65535 0 200 [].

Lemma decoder_total_witness :
  no_panic (fst (frame (R := xor_code) (fun _ => 0) stray_frame (snd (frames [] (new 9))))).
Proof.
  apply (decoder_total xor_code xor_code_shape 9 [] (fun _ => 0) stray_frame).
  - constructor.
  - reflexivity.
Defined.

(** what a frame may change before it reaches a group.  A frame of
    another session changes nothing.  A late or repeated frame, a report and a
    frame of unknown kind deliver nothing and change only the sequence
    accounting.  A fresh data or parity frame with impossible counts, position
    or payload size is an error that changes only the accounting; when the
    group table is full and the group unknown, it is an error after expired
    groups are dropped. *)
Theorem frame_filters (R : ErasureCode) (clk : nat -> N) (f : Frame.t) (s : Decoder.t) :
  let '(fresh, w) := Window.observe_seq (Frame.sequence f) (window s) in
  (session s <> Frame.session f -> frame clk f s = (Err "session mismatch"%string, s)) /\
  (session s = Frame.session f ->
   fresh = false \/ ~ (Frame.kind f = KIND_DATA \/ Frame.kind f = KIND_PARITY) ->
   frame clk f s = (Ok [], set_window w s)) /\
  (session s = Frame.session f -> fresh = true ->
   Frame.kind f = KIND_DATA \/ Frame.kind f = KIND_PARITY ->
   (~ (0 < Frame.data f <= 32 /\ Frame.parity f <= 16 /\ Frame.index f < Frame.data f + Frame.parity f
       /\ (FRAGMENT_HEADER <= length (Frame.payload f) <= SHARD)%nat) ->
    frame clk f s = (Err "invalid fec frame"%string, set_window w s)) /\
   (invalid_fec f = false ->
    let s1 := prune (clk 0%nat) (set_window w s) in
    groups s1 !! Frame.group f = None -> (MAX_GROUPS <= size (groups s1))%nat ->
    frame clk f s = (Err "too many fec groups"%string, s1))).
Proof.
  destruct (Window.observe_seq (Frame.sequence f) (window s)) as [fresh w] eqn:Hw.
  split_and!.
  - intros Hs. unfold frame. unfold_method. by rewrite (proj2 (N.eqb_neq _ _)).
  - intros Hs H. rewrite frame_not_fec; [by rewrite Hw|done|by rewrite Hw].
  - intros Hs -> Hk. rewrite (frame_fec clk f s w) by done. split.
    + intros Hbad. destruct (invalid_fec f) eqn:E; [done|]. exfalso. apply Hbad.
      apply invalid_fec_false in E. lia.
    + intros ->. cbv zeta. unfold_method. intros Hnone Hfull.
      rewrite bool_decide_true by done. by rewrite (proj2 (Nat.leb_le _ _)).
Qed.

Lemma frame_session {R : ErasureCode} clk f s : session (snd (frame clk f s)) = session s.
Proof.
  unfold frame. unfold_method. destruct (negb _); [done|].
  destruct (Window.observe_seq _ _) as [fresh w].
  destruct (negb fresh); [done|]. destruct (_ =? _); [done|]. destruct (negb _); [done|]. destruct (invalid_fec f); [done|].
  destruct (_ && _); [done|]. unfold on_group.
  destruct (Group.accept _ _ _ _ _) as [[[imm rec]|e|] g]; [|done..].
  unfold on_packets. by destruct (Reassembly.fragments _ _ _) as [[out|e|] tbl].
Qed.

(** A frame of the session moves the window as [observe_seq] does, whatever
    becomes of it afterwards. *)
Lemma frame_window {R : ErasureCode} clk f s :
  session s = Frame.session f ->
  let s1 := snd (frame clk f s) in
  session s1 = session s /\ window s1 = snd (Window.observe_seq (Frame.sequence f) (window s)).
Proof.
  intros Hs s1.
  destruct (Window.observe_seq (Frame.sequence f) (window s)) as [fresh w] eqn:Ew. cbn [snd].
  set (P := fun s0 => session s0 = session s /\ window s0 = w). change (P s1). unfold s1.
  assert (forall (A : Type) id g (m : method Group.t A) (k : A -> method t (list bytes)) s0,
    P s0 -> (forall a s0, P s0 -> P (snd (k a s0))) -> P (snd ((on_group id g m ≫= k) s0))) as Hgroup.
  { intros A id g m k s0 H0 Hk. unfold_method. unfold on_group.
    destruct (m _) as [[a|e|] g']; [apply Hk|..]; done. }
  destruct (decide (fresh = true /\ (Frame.kind f = KIND_DATA \/ Frame.kind f = KIND_PARITY)))
    as [[-> Hk]|Hn].
  - rewrite (frame_fec clk f s w) by done. destruct (invalid_fec f); [done|].
    unfold mbind at 1, method_bind at 1, modify at 1. unfold mbind at 1, method_bind at 1, get at 1.
    destruct (_ && _)%bool; [done|]. apply Hgroup; [done|].
    intros [imm rec] s0 H0. unfold_method. unfold on_packets.
    by destruct (Reassembly.fragments _ _ _) as [[o|e|] tbl].
  - rewrite frame_not_fec; [by rewrite Ew|done|]. rewrite Ew. cbn [fst].
    destruct fresh; [right; tauto|by left].
Qed.

(** A sequence number already observed: the frame delivers nothing and touches
    only the window. *)
Lemma frame_duplicate {R : ErasureCode} clk f s :
  session s = Frame.session f -> fst (Window.observe_seq (Frame.sequence f) (window s)) = false ->
  let '(r, s1) := frame clk f s in r = Ok [] /\ groups s1 = groups s /\ packets s1 = packets s.
Proof. intros Hs Hdup. rewrite frame_not_fec; [done|done|by left]. Qed.

(** replays deliver nothing.  Whatever a frame did the first time, the
    same sequence number received again, with any content, delivers nothing and
    leaves groups and reassembly untouched. *)
Theorem replay_ignored (R : ErasureCode) (clk clk' : nat -> N) (f f' : Frame.t) (s : Decoder.t) :
  Window.inv (window s) -> session s = Frame.session f -> session s = Frame.session f' ->
  Frame.sequence f' = Frame.sequence f ->
  let s1 := snd (frame clk f s) in
  let '(r, s2) := frame clk' f' s1 in
  r = Ok [] /\ groups s2 = groups s1 /\ packets s2 = packets s1.
Proof.
  intros Hw Hs Hs' Hq s1. destruct (frame_window clk f s Hs) as [Hss Hws].
  apply frame_duplicate; [unfold s1; congruence|]. unfold s1. rewrite Hq, Hws. by apply Window.observe_twice.
Qed.

Lemma replay_ignored_witness :
  fst (frame (R := xor_code) (fun _ => 0) stray_frame
    (snd (frame (fun _ => 0) stray_frame (new 9)))) = Ok [].
Proof.
  pose proof (replay_ignored xor_code (fun _ => 0) (fun _ => 0) stray_frame stray_frame (new 9)) as H.
  cbv zeta in H. destruct (frame (fun _ => 0) stray_frame (snd _)) as [r s2]. apply H.
  - apply Window.window_new_inv.
  - reflexivity.
  - reflexivity.
  - reflexivity.
Defined.

(** pruning.  A prune at time [now] keeps exactly the groups younger than
    two seconds; it keeps no reassembly of three seconds or more and at most
    4096 in all; it drops a live one only to meet that limit, and then one at
    least as old as every one it keeps. *)
Theorem prune_exact (now : N) (s : Decoder.t) :
  let s' := prune now s in
  (forall id g, groups s' !! id = Some g <->
     groups s !! id = Some g /\ now - Group.created g < 2 * NANOS) /\
  (forall id e, packets s' !! id = Some e ->
     packets s !! id = Some e /\ now - Reassembly.created e < 3 * NANOS) /\
  (size (packets s') <= MAX_REASSEMBLIES)%nat /\
  (forall id e, packets s !! id = Some e -> now - Reassembly.created e < 3 * NANOS ->
     packets s' !! id = None ->
     (MAX_REASSEMBLIES < size (packets s))%nat /\
     forall id' e', packets s' !! id' = Some e' -> Reassembly.created e <= Reassembly.created e').
Proof.
  intros s'. split_and!.
  - intros id g. apply prune_groups.
  - intros id e. apply prune_sub.
  - apply prune_size.
  - intros id e He Hlive Hnone. split.
    + destruct (decide (MAX_REASSEMBLIES < size (packets s))%nat) as [|Hn]; [done|].
      exfalso. unfold s' in Hnone. rewrite (prune_keeps now s id e) in Hnone; [done|lia|done|done].
    + intros id' e' He'. by eapply prune_oldest.
Qed.
