(* ===== verification/Tunnel.v ===== *)
(** * The tunnel end to end

    No code of its own: this file composes the encoder and the decoder.  The
    invariant [track] follows one FEC group through [Decoder.frame]: the group
    table, the reassembly table and the sequence window agree with the set of
    Reassembly.positions of the group received so far. *)
From S2P Require Import Prelude External Wire Adaptive Fragment Encoder Window Group Reassembly Decoder.

Import Decoder.

(** ** A decoder between its frames and its report ticks *)
Section hears.
Context {R : ErasureCode}.

(** A frame, with the clock readings made for it, or a report tick ([None]). *)
Definition hear (x : option ((nat -> N) * Frame.t)) (s : Decoder.t) : list bytes * Decoder.t :=
  match x with
  | Some (clk, f) => let '(r, s) := frame clk f s in (match r with Ok out => out | _ => [] end, s)
  | None => ([], set_window (snd (Window.sequence_report (window s))) s)
  end.

Fixpoint hears (xs : list (option ((nat -> N) * Frame.t))) (s : Decoder.t) : list bytes * Decoder.t :=
  match xs with
  | [] => ([], s)
  | x :: xs =>
      let '(out, s) := hear x s in let '(rest, s) := hears xs s in (out ++ rest, s)
  end.

Lemma hears_frames l s : hears (Some <$> l) s = frames l s.
Proof.
  revert s. induction l as [|[clk f] l IH]; intros s; [done|]. cbn [fmap list_fmap hears hear frames].
  destruct (frame clk f s) as [r s1]. by rewrite IH.
Qed.

Lemma hears_app l1 l2 s :
  hears (l1 ++ l2) s = let '(o1, s1) := hears l1 s in let '(o2, s2) := hears l2 s1 in (o1 ++ o2, s2).
Proof.
  revert s. induction l1 as [|x l1 IH]; intros s; [by cbn; destruct (hears l2 s)|].
  cbn [app hears]. destruct (hear x s) as [o s1]. rewrite IH. destruct (hears l1 s1) as [o1 s2].
  destruct (hears l2 s2) as [o2 s3]. by rewrite app_assoc.
Qed.
End hears.

(** ** One group through the decoder *)
Module Track.
Section track.
Context {R : ErasureCode}.
Context (ss gid T : N) (d p : nat) (all : list bytes) (seq_of : nat -> N).
Context (payload : N -> bytes) (ps : list N) (frags : list (N * nat)).
(** Whether report ticks may fall among the frames. *)
Context (ticks : Prop).

Hypothesis Hd : (0 < d <= 32)%nat.
Hypothesis Hp : (p <= 16)%nat.
Hypothesis Hall : length all = (d + p)%nat.
Hypothesis Hsized : Forall (fun x => FRAGMENT_HEADER <= length x <= SHARD)%nat all.
Hypothesis Hcode : (0 < p)%nat -> ErasureLaws R d p /\ exists sh, rs_encode d p sh = Ok all.
Hypothesis Hseq : forall i j, (i < d + p)%nat -> (j < d + p)%nat -> seq_of i = seq_of j -> i = j.
Hypothesis Hspread : ticks -> forall i j, (i < d + p)%nat -> (j < d + p)%nat -> seq_of i < seq_of j + REORDER_WINDOW.
Hypothesis Hps : NoDup ps.
Hypothesis Hfrags : NoDup frags.
Hypothesis Hin : forall q i, (q, i) ∈ frags -> q ∈ ps.
Hypothesis Hcarry : Forall2 (fun '(q, i) shard => Reassembly.carries payload q i shard) frags (take d all).

(** The fragments handed on once the Reassembly.positions [got] have arrived. *)
Definition handed_frags (got : gset nat) : list (N * nat) :=
  omap (fun k => frags !! k) (filter (Group.due d p got) (seq 0 d)).

(** The group and reassembly tables agree with [got]. *)
Record core (got : gset nat) (s : Decoder.t) : Prop := {
  core_session : session s = ss;
  core_group : match groups s !! gid with
    | Some g => Group.holds d p all got g /\ T <= Group.created g
    | None => got = ∅
    end;
  core_room : (size (delete gid (groups s)) < MAX_GROUPS)%nat;
  core_packets : forall q, q ∈ ps ->
    Reassembly.entry_ok (payload q) (Reassembly.positions (handed_frags got) q) (packets s !! q);
  core_age : forall q e, q ∈ ps -> packets s !! q = Some e -> T <= Reassembly.created e;
  core_others : (size (filter (fun '(q, _) => q ∉ ps) (packets s)) + length ps <= MAX_REASSEMBLIES)%nat;
}.

(** The window has accepted the frames of the positions [got], has not yet
    passed or seen the others and, if reports are made, is not about to. *)
Definition window_ok (got : gset nat) (w : Window.t) : Prop :=
  ~ Window.fresh_window w /\
  (forall k, (k < d + p)%nat -> k ∉ got ->
    Window.finalized_sequence w < seq_of k /\ seq_of k ∉ Window.seen_sequences w) /\
  (forall k, k ∈ got -> seq_of k ∈ Window.seen_sequences w /\ (k < d + p)%nat) /\
  (ticks -> forall k, (k < d + p)%nat -> Window.highest_sequence w < seq_of k + REORDER_WINDOW).

Definition track (got : gset nat) (s : Decoder.t) : Prop := core got s /\ window_ok got (window s).

(** A frame carrying position [k] of the group. *)
Definition carries_position (k : nat) (f : Frame.t) : Prop :=
  (k < d + p)%nat /\ Frame.session f = ss /\ Frame.group f = gid /\ Frame.sequence f = seq_of k /\
  Frame.index f = N.of_nat k /\ Frame.data f = N.of_nat d /\ Frame.parity f = N.of_nat p /\
  (Frame.kind f = KIND_DATA \/ Frame.kind f = KIND_PARITY) /\ all !! k = Some (Frame.payload f).

(** Every clock reading falls within the group's life. *)
Definition timely (clk : nat -> N) : Prop := forall i, T <= clk i < T + GROUP_TTL.

Lemma size_packets got s : core got s -> (size (packets s) <= MAX_REASSEMBLIES)%nat.
Proof.
  intros [_ _ _ _ _ Hs]. etransitivity; [|exact Hs].
  rewrite <- !size_dom.
  assert (dom (packets s) ⊆ dom (filter (fun '(q, _) => q ∉ ps) (packets s)) ∪ list_to_set (C := gset N) ps) as Hsub.
  { intros q [e He]%elem_of_dom. apply elem_of_union. destruct (decide (q ∈ ps)) as [Hq|Hq].
    - right. by apply elem_of_list_to_set.
    - left. apply elem_of_dom. exists e. by apply map_lookup_filter_Some. }
  apply subseteq_size in Hsub. rewrite <- (size_list_to_set (C := gset N) ps) by done.
  rewrite size_union_alt in Hsub. etransitivity; [exact Hsub|].
  apply Nat.add_le_mono_l, subseteq_size. set_solver.
Qed.

Lemma prune_core got s now :
  core got s -> T <= now < T + GROUP_TTL -> core got (prune now s).
Proof.
  intros Ht Hnow. pose proof (size_packets _ _ Ht) as Hsz.
  destruct Ht as [Hs Hg Hroom Hpk Hage Hoth].
  assert (forall q, q ∈ ps -> packets (prune now s) !! q = packets s !! q) as Hsame.
  { intros q Hq. destruct (packets s !! q) as [e|] eqn:He.
    - apply prune_keeps; [done|done|]. specialize (Hage q e Hq He).
      unfold REASSEMBLY_TTL, GROUP_TTL, NANOS in *. lia.
    - destruct (packets (prune now s) !! q) as [e|] eqn:He'; [|done].
      apply prune_sub in He' as [? _]. congruence. }
  assert (groups (prune now s) ⊆ groups s) as Hgsub.
  { apply map_subseteq_spec. intros i g [Hi _]%prune_groups. done. }
  split; try done.
  - destruct (groups s !! gid) as [g|] eqn:E.
    + assert (groups (prune now s) !! gid = Some g) as ->; [|done].
      apply prune_groups. split; [done|]. unfold GROUP_TTL, NANOS in *. lia.
    + assert (groups (prune now s) !! gid = None) as ->; [|done].
      destruct (groups (prune now s) !! gid) as [g|] eqn:E'; [|done].
      apply prune_groups in E' as [? _]. congruence.
  - eapply Nat.le_lt_trans; [|exact Hroom]. apply map_subseteq_size.
    by apply delete_mono.
  - intros q Hq. rewrite Hsame by done. by apply Hpk.
  - intros q e Hq. rewrite Hsame by done. by apply Hage.
  - etransitivity; [|exact Hoth]. apply Nat.add_le_mono_r. apply map_subseteq_size.
    apply map_subseteq_spec. intros i e [He Hi]%map_lookup_filter_Some.
    apply map_lookup_filter_Some. split; [|done]. by apply prune_sub in He as [? _].
Qed.

(** *** The window *)
Lemma observe_new got w k :
  window_ok got w -> (k < d + p)%nat -> k ∉ got ->
  exists w', Window.observe_seq (seq_of k) w = (true, w') /\ window_ok ({[k]} ∪ got) w'.
Proof.
  intros (Hf & Hnew & Hold & Hhigh) Hk Hkg. destruct (Hnew k Hk Hkg) as [Hfin Hseen].
  assert (Window.floor (seq_of k) w = Window.finalized_sequence w) as Hfl.
  { destruct (Window.floor_cases (seq_of k) w) as [[? _]|[_ ->]]; done. }
  pose proof (Window.observe_cases (seq_of k) w) as Hc. cbv zeta in Hc. rewrite Hfl in Hc.
  destruct Hc as [[? _]|[(_ & ? & _)|(_ & _ & ->)]]; [lia|done|].
  eexists. split; [done|]. unfold window_ok. cbn. split_and!.
  - intros (_ & _ & H). cbn in H. set_solver.
  - intros j Hj Hjg. destruct (Hnew j Hj) as [H1 H2]; [set_solver|]. split; [done|].
    apply not_elem_of_union. split; [|done]. rewrite not_elem_of_singleton.
    intros Heq. apply Hseq in Heq; [|done|done]. subst. set_solver.
  - intros j [->%elem_of_singleton|Hj]%elem_of_union; (split; [apply elem_of_union|]).
    + left. by apply elem_of_singleton.
    + done.
    + right. by apply Hold.
    + by apply Hold.
  - intros Ht j Hj. specialize (Hhigh Ht j Hj). pose proof (Hspread Ht k j Hk Hj). lia.
Qed.

Lemma observe_old got w k :
  window_ok got w -> k ∈ got ->
  exists w', Window.observe_seq (seq_of k) w = (false, w') /\ window_ok got w'.
Proof.
  intros (Hf & Hnew & Hold & Hhigh) Hk. destruct (Hold k Hk) as [Hs Hkd].
  assert (Window.floor (seq_of k) w = Window.finalized_sequence w) as Hfl.
  { destruct (Window.floor_cases (seq_of k) w) as [[? _]|[_ ->]]; done. }
  pose proof (Window.observe_cases (seq_of k) w) as Hc. cbv zeta in Hc. rewrite Hfl in Hc.
  assert (ticks -> forall j, (j < d + p)%nat -> N.max (Window.highest_sequence w) (seq_of k) < seq_of j + REORDER_WINDOW) as Hmax.
  { intros Ht j Hj. specialize (Hhigh Ht j Hj). pose proof (Hspread Ht k j Hkd Hj). lia. }
  destruct Hc as [[_ ->]|[(_ & _ & ->)|(_ & ? & _)]]; [| |done];
    (eexists; split; [done|]; unfold window_ok; cbn; split_and!; [|done..]);
    intros (_ & _ & H); cbn in H; rewrite H in Hs; by apply not_elem_of_empty in Hs.
Qed.

(** A report drops only numbers 64 behind the highest. *)
Lemma report_window got w :
  ticks -> window_ok got w -> window_ok got (snd (Window.sequence_report w)).
Proof.
  intros Ht (Hf & Hnew & Hold & Hhigh). specialize (Hhigh Ht). unfold Window.sequence_report.
  destruct (N.leb_spec (Window.highest_sequence w - REORDER_WINDOW) (Window.finalized_sequence w)) as [|Hcut]; [done|].
  destruct (_ <? 32); [done|]. cbn [snd]. split_and!; cbn.
  - intros (H & _ & _). cbn in H. lia.
  - intros k Hk Hkg. specialize (Hhigh k Hk). destruct (Hnew k Hk Hkg) as [_ Hs]. split; [lia|].
    by intros [_ ?]%elem_of_filter.
  - intros k Hk. destruct (Hold k Hk) as [Hs Hkd]. specialize (Hhigh k Hkd). split; [|done].
    apply elem_of_filter. split; [lia|done].
  - done.
Qed.

(** *** The fragments handed on *)
Lemma length_frags : length frags = d.
Proof.
  apply Forall2_length in Hcarry. rewrite Hcarry, length_take. lia.
Qed.

Lemma elem_of_positions l q i : i ∈ Reassembly.positions l q <-> (q, i) ∈ l.
Proof.
  unfold Reassembly.positions. rewrite elem_of_list_to_set, list_elem_of_omap. split.
  - intros ([q' i'] & Hl & H). destruct (decide (q' = q)) as [->|]; congruence.
  - intros Hl. exists (q, i). split; [done|]. by rewrite decide_True.
Qed.

Lemma elem_of_handed_frags got x :
  x ∈ handed_frags got <-> exists k, frags !! k = Some x /\ Group.due d p got k.
Proof.
  unfold handed_frags. rewrite list_elem_of_omap. split.
  - intros (k & [Hk _]%list_elem_of_filter & Hx). eauto.
  - intros (k & Hx & Hk). exists k. split; [|done]. apply list_elem_of_filter.
    split; [done|]. apply elem_of_seq. destruct Hk. lia.
Qed.

Lemma omap_lookup_NoDup (l : list nat) : NoDup l -> NoDup (omap (fun j => frags !! j) l).
Proof.
  induction 1 as [|j l Hj _ IH]; [by apply NoDup_nil_2|].
  cbn. destruct (frags !! j) as [x|] eqn:Hx; [|done].
  constructor; [|done]. rewrite list_elem_of_omap. intros (j' & Hj' & Hx').
  assert (j' = j) as ->; [|done]. exact (NoDup_lookup _ _ _ _ Hfrags Hx' Hx).
Qed.

Section batch.
Context (got : gset nat) (k : nat) (idxs : list nat).
Hypothesis Hnd : NoDup idxs.
Hypothesis Hidx : forall j, j ∈ idxs <->
  Group.due d p ({[k]} ∪ got) j /\ ~ Group.due d p got j.

Let batch : list (N * nat) := omap (fun j => frags !! j) idxs.

Lemma elem_of_batch x : x ∈ batch <-> exists j, frags !! j = Some x /\ j ∈ idxs.
Proof. unfold batch. rewrite list_elem_of_omap. naive_solver. Qed.

Lemma batch_NoDup : NoDup batch.
Proof.
  by apply omap_lookup_NoDup.
Qed.

Lemma batch_fresh q i : (q, i) ∈ batch -> i ∉ Reassembly.positions (handed_frags got) q.
Proof.
  rewrite elem_of_batch, elem_of_positions, elem_of_handed_frags.
  intros (j & Hj & [_ Hn]%Hidx) (j' & Hj' & Hdue). apply Hn.
  assert (j = j') as ->; [|done]. exact (NoDup_lookup _ _ _ _ Hfrags Hj Hj').
Qed.

Lemma batch_positions q :
  Reassembly.positions batch q ∪ Reassembly.positions (handed_frags got) q
  = Reassembly.positions (handed_frags ({[k]} ∪ got)) q.
Proof.
  apply set_eq. intros i.
  rewrite elem_of_union, !elem_of_positions, elem_of_batch, !elem_of_handed_frags. split.
  - intros [(j & Hj & [Hdue _]%Hidx)|(j & Hj & Hdue)]; (exists j; split; [done|]); [done|].
    eapply Group.due_monotone; [|exact Hdue]. set_solver.
  - intros (j & Hj & Hdue). destruct (decide (Group.due d p got j)).
    + right. by exists j.
    + left. exists j. split; [done|]. by apply Hidx.
Qed.

Lemma batch_carries :
  Forall2 (fun '(q, i) shard => Reassembly.carries payload q i shard) batch (Group.pick all idxs).
Proof.
  assert (forall j, j ∈ idxs -> (j < d)%nat) as Hlt.
  { intros j [[Hj _] _]%Hidx. done. }
  unfold batch, Group.pick. clear batch Hnd Hidx. induction idxs as [|j l IH]; [constructor|]. cbn.
  assert (j < d)%nat as Hj by (apply Hlt; left).
  destruct (lookup_lt_is_Some_2 frags j) as [x Hx]; [by rewrite length_frags|].
  destruct (lookup_lt_is_Some_2 all j) as [y Hy]; [lia|]. rewrite Hx, Hy.
  constructor; [|apply IH; intros; apply Hlt; by right].
  assert (take d all !! j = Some y) as Hy' by (by rewrite lookup_take_lt).
  exact (Forall2_lookup_lr _ _ _ _ _ _ Hcarry Hx Hy').
Qed.
End batch.

(** *** One frame *)
Lemma frame_old got s clk k f :
  track got s -> carries_position k f -> k ∈ got ->
  exists s', frame clk f s = (Ok [], s') /\ track got s'.
Proof.
  intros [Hc Hw] (_ & Hss & _ & Hsq & _) Hk.
  destruct (observe_old got (window s) k Hw Hk) as (w' & Hobs & Hw').
  exists (set_window w' s). split.
  - rewrite frame_not_fec; [by rewrite Hsq, Hobs|destruct Hc; congruence|left].
    by rewrite Hsq, Hobs.
  - split; [|done]. by destruct Hc.
Qed.

(** The group's state when a frame of it arrives, new or known. *)
Lemma core_entry got s now :
  core got s -> T <= now ->
  let g := default (Group.new now d p) (groups s !! gid) in
  Group.holds d p all got g /\ T <= Group.created g.
Proof.
  intros [_ Hg _ _ _ _] Hnow. destruct (groups s !! gid) as [g|]; [done|]. cbn. subst got.
  split; [apply Group.new_holds; (done || lia)|done].
Qed.

Lemma core_has_room got s :
  core got s -> bool_decide (groups s !! gid = None) && (MAX_GROUPS <=? size (groups s))%nat = false.
Proof.
  intros [_ _ Hr _ _ _]. case_bool_decide as Hn; [|done]. cbn [andb].
  rewrite delete_id in Hr by done. by apply Nat.leb_gt.
Qed.

Lemma core_accepted got got' s g tbl :
  core got s -> Group.holds d p all got' g -> T <= Group.created g ->
  (forall q, q ∈ ps -> Reassembly.entry_ok (payload q) (Reassembly.positions (handed_frags got') q) (tbl !! q)) ->
  (forall q e, q ∈ ps -> tbl !! q = Some e -> T <= Reassembly.created e) ->
  (forall q, q ∉ ps -> tbl !! q = packets s !! q) ->
  core got' (set_packets tbl (set_groups (<[gid := g]> (groups s)) s)).
Proof.
  intros [Hs Hg Hr Hp' Ha Ho] Hh Hc He Hage Hun. split; cbn; try done.
  - by rewrite lookup_insert_eq.
  - by rewrite delete_insert_eq.
  - replace (filter (fun '(q, _) => q ∉ ps) tbl) with (filter (fun '(q, _) => q ∉ ps) (packets s)); [done|].
    apply map_eq. intros q. apply option_eq. intros e. rewrite !map_lookup_filter_Some.
    split; intros [H1 H2]; (split; [|done]); by rewrite ?Hun in *.
Qed.

Lemma frame_new got s clk k f :
  track got s -> timely clk -> carries_position k f -> k ∉ got ->
  exists outs s', frame clk f s = (Ok outs, s') /\ track ({[k]} ∪ got) s' /\
    outs ++ Reassembly.finished payload ps (Reassembly.positions (handed_frags got))
    ≡ₚ Reassembly.finished payload ps (Reassembly.positions (handed_frags ({[k]} ∪ got))).
Proof.
  intros [Hc Hw] Htime (Hk & Hss & Hgid & Hsq & Hix & Hda & Hpa & Hkind & Hpl) Hkg.
  destruct (observe_new got (window s) k Hw Hk Hkg) as (w' & Hobs & Hw').
  assert (core got (set_window w' s)) as Hc0 by (by destruct Hc).
  pose proof (prune_core got _ (clk 0%nat) Hc0 (Htime 0%nat)) as Hc1.
  set (s1 := prune (clk 0%nat) (set_window w' s)) in *.
  destruct (core_entry got s1 (clk 1%nat) Hc1) as [Hh Hcr]; [apply Htime|].
  set (g := default (Group.new (clk 1%nat) d p) (groups s1 !! gid)) in *.
  destruct (Group.accept_holds d p all ltac:(lia) Hall Hcode got g k (Frame.payload f) Hh Hpl)
    as (imm & rec & idxs & g' & Hacc & Hh' & Hcr' & Hout & Hnd & Hidx).
  destruct (Reassembly.fragments_spec payload ps (omap (fun j => frags !! j) idxs)
    (option_list imm ++ rec) (fun i => clk (2 + i)%nat) (packets s1)
    (Reassembly.positions (handed_frags got)))
    as (outs & tbl & Hfr & Hperm & Hent & Hun).
  { done. }
  { intros q i Hq. apply list_elem_of_omap in Hq as (j & _ & Hj). apply (Hin q i).
    by eapply list_elem_of_lookup_2. }
  { by apply omap_lookup_NoDup. }
  { intros q i. by eapply batch_fresh. }
  { rewrite Hout. by eapply batch_carries. }
  { by destruct Hc1. }
  assert (core ({[k]} ∪ got) (set_packets tbl (set_groups (<[gid := g']> (groups s1)) s1))) as Hc2.
  { apply (core_accepted got); try done.
    - by rewrite Hcr'.
    - intros q Hq. erewrite <- batch_positions by done. by apply Hent.
    - intros q e Hq He.
      destruct (Reassembly.fragments_created T (fun i => clk (2 + i)%nat) (option_list imm ++ rec)
        (packets s1) q e) as [?|(e0 & He0 & <-)]; [intros i; apply Htime|by rewrite Hfr|done|].
      by eapply (core_age got). }
  exists outs. eexists. split; [|split].
  - rewrite (frame_fec clk f s w') by (done || (by rewrite Hsq) || (by destruct Hc; congruence)).
    assert (invalid_fec f = false) as ->.
    { apply invalid_fec_false. rewrite Hda, Hpa, Hix, !Nat2N.id.
      pose proof (Forall_lookup_1 _ _ _ _ Hsized Hpl) as Hl. cbn beta in Hl. lia. }
    rewrite Hgid, Hda, Hpa, Hix, !Nat2N.id. unfold_method. fold s1.
    rewrite (core_has_room got s1 Hc1). unfold on_group. fold g. rewrite Hacc.
    unfold on_packets. cbn [packets set_groups]. rewrite Hfr. reflexivity.
  - split; [|done]. apply prune_core; [done|apply Htime].
  - rewrite Hperm. rewrite (Reassembly.finished_ext payload ps _
      (Reassembly.positions (handed_frags ({[k]} ∪ got)))); [done|].
    intros q _. by eapply batch_positions.
Qed.

(** *** All arrivals *)
Lemma hears_track arrivals ks got s :
  track got s -> (None ∈ arrivals -> ticks) ->
  Forall2 (fun '(clk, f) k => timely clk /\ carries_position k f) (omap id arrivals) ks ->
  exists s', track (list_to_set ks ∪ got) s' /\
    exists outs, hears arrivals s = (outs, s') /\
    outs ++ Reassembly.finished payload ps (Reassembly.positions (handed_frags got))
    ≡ₚ Reassembly.finished payload ps (Reassembly.positions (handed_frags (list_to_set ks ∪ got))).
Proof.
  intros Ht Hticks HF. revert ks got s Ht HF.
  induction arrivals as [|[[clk f]|] arrivals IH]; intros ks got s Ht HF.
  - inversion HF; subst. exists s. cbn [list_to_set]. rewrite (left_id_L ∅ (∪)). split; [done|]. by exists [].
  - change (omap id (Some (clk, f) :: arrivals)) with ((clk, f) :: omap id arrivals) in HF.
    apply Forall2_cons_inv_l in HF as (k & ks' & [Htime Hcp] & HF' & ->). rename ks' into ks.
    assert (None ∈ arrivals -> ticks) as Hticks' by (intros ?; apply Hticks; by right).
    specialize (IH Hticks' ks).
    assert (list_to_set (k :: ks) ∪ got = list_to_set ks ∪ ({[k]} ∪ got) :> gset nat) as ->.
    { cbn. rewrite (assoc_L (∪)). by rewrite (comm_L (∪) {[k]}). }
    cbn [hears hear]. destruct (decide (k ∈ got)) as [Hk|Hk].
    + destruct (frame_old got s clk k f Ht Hcp Hk) as (s1 & -> & Ht1).
      destruct (IH got s1 Ht1 HF') as (s' & Ht' & outs & -> & Hp').
      assert ({[k]} ∪ got = got) as -> by (apply subseteq_union_1_L; set_solver).
      exists s'. split; [done|]. by exists outs.
    + destruct (frame_new got s clk k f Ht Htime Hcp Hk) as (o1 & s1 & -> & Ht1 & Hp1).
      destruct (IH _ s1 Ht1 HF') as (s' & Ht' & outs & -> & Hp').
      exists s'. split; [done|]. exists (o1 ++ outs). split; [done|].
      rewrite <- Hp', <- Hp1, !app_assoc. f_equiv. apply Permutation_app_comm.
  - cbn [hears hear]. destruct Ht as [Hc Hw].
    assert (track got (set_window (snd (Window.sequence_report (window s))) s)) as Ht1
      by (split; [by destruct Hc|apply report_window; [apply Hticks; by left|done]]).
    assert (None ∈ arrivals -> ticks) as Hticks' by (intros ?; apply Hticks; by right).
    destruct (IH Hticks' ks got _ Ht1 HF) as (s' & Ht' & outs & -> & Hp'). exists s'. split; [done|]. by exists outs.
Qed.
End track.
End Track.

(** ** A group's worth of datagrams through the encoder *)
Module Batch.

(** The datagrams [ds] with the packet numbers the encoder gives them, and
    their fragments. *)
Fixpoint number (p : N) (ds : list bytes) : list (N * bytes) :=
  match ds with
  | [] => []
  | b :: ds => (p, b) :: number (add64 p 1) ds
  end.

Definition frag_list (nds : list (N * bytes)) : list Fragment.t :=
  nds ≫= fun '(q, b) => Fragment.split q b.

Lemma fragments_number p ds :
  Encoder.fragments p (Encoder.Datagram <$> ds) = Fragment.build <$> frag_list (number p ds).
Proof.
  revert p. induction ds as [|b ds IH]; intros p; [done|]. cbn. rewrite IH.
  unfold frag_list. by rewrite <- fmap_app.
Qed.

Lemma number_ids p ds : p < U64 -> (number p ds).*1 = Encoder.seqs p (length ds).
Proof.
  revert p. induction ds as [|b ds IH]; intros p Hp; [done|].
  cbn [number fmap list_fmap length fst]. rewrite IH by apply add64_lt.
  change (S (length ds)) with (1 + length ds)%nat. rewrite Encoder.seqs_app.
  unfold add64. rewrite Encoder.seqs_as_u64. cbn. by rewrite N.add_0_r, as_u64_small.
Qed.

Lemma number_snd p ds : (number p ds).*2 = ds.
Proof. revert p. induction ds as [|b ds IH]; intros p; [done|]. cbn. by rewrite IH. Qed.

Lemma as_u64_add_inj q i j : i < U64 -> j < U64 -> as_u64 (q + i) = as_u64 (q + j) -> i = j.
Proof. intros Hi Hj. unfold as_u64. widths. div_lia. Qed.

Lemma seqs_NoDup q n : N.of_nat n <= U64 -> NoDup (Encoder.seqs q n).
Proof.
  intros Hn. unfold Encoder.seqs. apply NoDup_fmap_2_strong; [|apply NoDup_seq].
  intros i j Hi%elem_of_seq Hj%elem_of_seq Heq. apply as_u64_add_inj in Heq; lia.
Qed.

Section run_batch.
Context {R : ErasureCode}.

(** One piece that leaves the group open. *)
Lemma push_pieces_cons q count idx c l s :
  (length (Encoder.shards s) + 1 < DATA_SHARDS)%nat ->
  Encoder.push_pieces q count idx (c :: l) s =
  (let '(r, s') := Encoder.push_pieces q count (S idx) l (Encoder.set_shards (Encoder.shards s ++
     [Fragment.build (Fragment.mk q idx count c)]) s) in
   (match r with Ok fs => Ok ([] ++ fs) | Err e => Err e | Panic => Panic end, s')).
Proof.
  intros Hl. cbn [Encoder.push_pieces]. unfold_method. cbn [Encoder.shards Encoder.set_shards].
  rewrite length_app. cbn [length]. rewrite (proj2 (Nat.eqb_neq _ _)) by lia.
  by destruct (Encoder.push_pieces _ _ _ _ _) as [[]].
Qed.

Lemma imap_build_cons q count idx c l :
  imap (fun i c => Fragment.build (Fragment.mk q (idx + i) count c)) (c :: l)
  = Fragment.build (Fragment.mk q idx count c)
    :: imap (fun i c => Fragment.build (Fragment.mk q (S idx + i) count c)) l.
Proof.
  rewrite imap_cons, Nat.add_0_r. f_equal. apply imap_ext. intros i b _. cbn. unfold compose.
  by rewrite Nat.add_succ_r.
Qed.

Lemma set_shards_twice x y s : Encoder.set_shards x (Encoder.set_shards y s) = Encoder.set_shards x s.
Proof. done. Qed.

(** Pieces that do not fill the group only join it. *)
Lemma push_pieces_small q count idx l s :
  (length (Encoder.shards s) + length l < DATA_SHARDS)%nat ->
  Encoder.push_pieces q count idx l s =
  (Ok [], Encoder.set_shards (Encoder.shards s ++
     imap (fun i c => Fragment.build (Fragment.mk q (idx + i) count c)) l) s).
Proof.
  revert idx s. induction l as [|c l IH]; intros idx s Hl.
  - cbn. rewrite app_nil_r. by destruct s.
  - cbn [length] in Hl. rewrite push_pieces_cons by lia. rewrite IH.
    + rewrite set_shards_twice. cbn [Encoder.shards Encoder.set_shards].
      rewrite imap_build_cons, <- app_assoc. done.
    + cbn [Encoder.shards Encoder.set_shards]. rewrite length_app. cbn [length]. lia.
Qed.

(** Pieces that fill it exactly flush it. *)
Lemma push_pieces_full q count idx l s fs s' :
  l <> [] -> (length (Encoder.shards s) + length l = DATA_SHARDS)%nat ->
  Encoder.flush (Encoder.set_shards (Encoder.shards s ++
     imap (fun i c => Fragment.build (Fragment.mk q (idx + i) count c)) l) s) = (Ok fs, s') ->
  Encoder.push_pieces q count idx l s = (Ok fs, s').
Proof.
  revert idx s. induction l as [|c l IH]; intros idx s Hne Hl Hf; [done|].
  cbn [length] in Hl. rewrite imap_build_cons in Hf. destruct l as [|c' l].
  - cbn [imap] in Hf. cbn [Encoder.push_pieces]. unfold_method. cbn [Encoder.shards Encoder.set_shards].
    rewrite length_app. cbn [length] in *. rewrite (proj2 (Nat.eqb_eq _ _)) by lia.
    rewrite Hf. by rewrite app_nil_r.
  - rewrite push_pieces_cons by (cbn [length] in Hl; lia). rewrite (IH (S idx)); [done|done| |].
    + cbn [Encoder.shards Encoder.set_shards]. rewrite length_app. cbn [length] in *. lia.
    + rewrite set_shards_twice. cbn [Encoder.shards Encoder.set_shards].
      rewrite <- app_assoc. exact Hf.
Qed.

(** The state in which the batch is flushed. *)
Definition loaded (ds : list bytes) (s : Encoder.t) : Encoder.t :=
  Encoder.set_shards (Encoder.shards s ++ Encoder.fragments (Encoder.packet s) (Encoder.Datagram <$> ds))
    (Encoder.set_packet (as_u64 (Encoder.packet s + N.of_nat (length ds))) s).

Lemma encode_pieces b s :
  (Fragment.chunk_count b <= 64)%nat ->
  Encoder.encode_datagram b s
  = Encoder.push_pieces (Encoder.packet s) (Fragment.chunk_count b) 0 (Fragment.pieces b)
      (Encoder.set_packet (add64 (Encoder.packet s) 1) s).
Proof.
  intros Hb. unfold Encoder.encode_datagram. unfold_method.
  by rewrite (proj2 (N.ltb_ge _ _)) by lia.
Qed.

Lemma build_split q b :
  imap (fun i c => Fragment.build (Fragment.mk q (0 + i) (Fragment.chunk_count b) c)) (Fragment.pieces b)
  = Fragment.build <$> Fragment.split q b.
Proof. unfold Fragment.split. by rewrite fmap_imap. Qed.

Lemma length_fragments_cons q b ds :
  length (Encoder.fragments q (Encoder.Datagram <$> b :: ds))
  = (Fragment.chunk_count b + length (Encoder.fragments (add64 q 1) (Encoder.Datagram <$> ds)))%nat.
Proof. cbn. by rewrite length_app, length_fmap, Fragment.length_split. Qed.

(** Datagrams whose fragments fit one group, then the flush timer: the frames
    are those of one flush of all the fragments. *)
Lemma run_batch ds s fs s' :
  Encoder.packet s < U64 -> (length (Encoder.shards s) < DATA_SHARDS)%nat ->
  (length (Encoder.shards s)
   + length (Encoder.fragments (Encoder.packet s) (Encoder.Datagram <$> ds)) <= DATA_SHARDS)%nat ->
  Encoder.flush (loaded ds s) = (Ok fs, s') -> Encoder.shards s' = [] ->
  Encoder.run ((Encoder.Datagram <$> ds) ++ [Encoder.Flush]) s = (Ok fs, s').
Proof.
  revert s. induction ds as [|b ds IH]; intros s Hp Hs Hl Hf Hs'.
  - cbn [fmap list_fmap app Encoder.run Encoder.step]. unfold_method.
    assert (loaded [] s = s) as Hid.
    { unfold loaded. cbn. rewrite app_nil_r, N.add_0_r, as_u64_small by done. by destruct s. }
    rewrite Hid in Hf. rewrite Hf. by rewrite app_nil_r.
  - rewrite length_fragments_cons in Hl. pose proof (Fragment.chunk_count_pos b).
    assert (Fragment.chunk_count b <= 64)%nat as Hb by (unfold DATA_SHARDS in Hl; lia).
    cbn [fmap list_fmap app Encoder.run Encoder.step]. unfold_method. rewrite encode_pieces by done.
    set (s1 := Encoder.set_packet (add64 (Encoder.packet s) 1) s).
    destruct (decide (length (Encoder.shards s) + Fragment.chunk_count b < DATA_SHARDS)%nat) as [Hlt|Hge].
    + rewrite push_pieces_small by (rewrite Fragment.length_pieces; done). rewrite build_split.
      set (s2 := Encoder.set_shards _ s1).
      rewrite (IH s2); [done|apply add64_lt| | | |exact Hs'].

      * cbn. rewrite length_app, length_fmap, Fragment.length_split. done.
      * cbn [s2 s1 Encoder.shards Encoder.set_shards Encoder.packet Encoder.set_packet].
        rewrite length_app, length_fmap, Fragment.length_split. lia.
      * replace (loaded ds s2) with (loaded (b :: ds) s); [exact Hf|].
        unfold loaded, s2, s1. destruct s. cbn -[as_u64]. unfold add64, Encoder.set_shards, Encoder.set_packet. cbn -[as_u64].
        f_equal; [rewrite Encoder.as_u64_add_l; f_equal; lia|]. by rewrite <- app_assoc.
    + assert (ds = []) as ->.
      { destruct ds as [|b' ds]; [done|]. rewrite length_fragments_cons in Hl.
        pose proof (Fragment.chunk_count_pos b'). lia. }
      rewrite (push_pieces_full _ _ _ _ _ fs s').
      * cbn [fmap list_fmap app Encoder.run Encoder.step]. unfold_method.
        rewrite Encoder.flush_empty by done. by rewrite app_nil_r.
      * intros Hnil. pose proof (Fragment.length_pieces b) as Hlp. rewrite Hnil in Hlp. cbn [length] in Hlp. lia.
      * rewrite Fragment.length_pieces. cbn [s1 Encoder.shards Encoder.set_packet]. lia.
      * rewrite build_split. replace (Encoder.set_shards _ s1) with (loaded [b] s); [exact Hf|].
        unfold loaded, s1. cbn. by rewrite app_nil_r.
Qed.
End run_batch.

(** The payload a packet number stands for. *)
Definition payload_of (nds : list (N * bytes)) (q : N) : bytes :=
  default [] ((list_to_map nds : gmap N bytes) !! q).

Lemma payload_of_in nds q b : NoDup nds.*1 -> (q, b) ∈ nds -> payload_of nds q = b.
Proof.
  intros Hnd Hin. unfold payload_of. by rewrite (proj1 (elem_of_list_to_map _ _ _ Hnd) Hin).
Qed.

Lemma payload_of_all nds : NoDup nds.*1 -> payload_of nds <$> nds.*1 = nds.*2.
Proof.
  intros Hnd. rewrite <- list_fmap_compose. apply list_fmap_ext. intros i [q b] Hi.
  apply payload_of_in; [done|]. by eapply list_elem_of_lookup_2.
Qed.

(** What identifies a fragment. *)
Definition key_of (f : Fragment.t) : N * nat := (Fragment.packet f, Fragment.idx f).

Lemma elem_of_frag_list nds f :
  NoDup nds.*1 -> f ∈ frag_list nds ->
  Fragment.packet f ∈ nds.*1 /\
  Fragment.count f = Fragment.chunk_count (payload_of nds (Fragment.packet f)) /\
  Fragment.pieces (payload_of nds (Fragment.packet f)) !! Fragment.idx f = Some (Fragment.body f).
Proof.
  intros Hnd ([q b] & Hf & Hin)%list_elem_of_bind.
  apply list_elem_of_lookup in Hf as [i Hi].
  destruct (Fragment.split_lookup _ _ _ _ Hi) as (Hq & Hix & Hc & Hb).
  rewrite Hq, (payload_of_in nds q b) by done. split_and!; [|done|by rewrite Hix].
  apply list_elem_of_fmap. by exists (q, b).
Qed.

Lemma frag_keys_complete nds q b i :
  (q, b) ∈ nds -> (i < Fragment.chunk_count b)%nat -> (q, i) ∈ key_of <$> frag_list nds.
Proof.
  intros Hin Hi. destruct (lookup_lt_is_Some_2 (Fragment.split q b) i) as [f Hf].
  { by rewrite Fragment.length_split. }
  destruct (Fragment.split_lookup _ _ _ _ Hf) as (Hq & Hix & _).
  apply list_elem_of_fmap. exists f. split; [unfold key_of; by rewrite Hq, Hix|].
  apply list_elem_of_bind. exists (q, b). split; [|done]. by eapply list_elem_of_lookup_2.
Qed.

Lemma split_keys q b : key_of <$> Fragment.split q b = (fun i => (q, i)) <$> seq 0 (Fragment.chunk_count b).
Proof.
  apply list_eq. intros i. rewrite !list_lookup_fmap. rewrite <- Fragment.length_pieces.
  unfold Fragment.split. rewrite list_lookup_imap.
  destruct (Fragment.pieces b !! i) as [c|] eqn:E; cbn.
  - rewrite lookup_seq_lt by (by apply lookup_lt_Some in E). done.
  - apply lookup_ge_None in E. by rewrite lookup_seq_ge.
Qed.

Lemma frag_keys_NoDup nds : NoDup nds.*1 -> NoDup (key_of <$> frag_list nds).
Proof.
  induction nds as [|[q b] nds IH]; intros Hnd; [by apply NoDup_nil_2|].
  cbn [fmap list_fmap fst] in Hnd. apply NoDup_cons in Hnd as [Hq Hnd].
  change (frag_list ((q, b) :: nds)) with (Fragment.split q b ++ frag_list nds).
  rewrite fmap_app, split_keys. apply NoDup_app. split_and!; [| |by apply IH].
  - apply NoDup_fmap_2; [by intros ?? [= ->]|apply NoDup_seq].
  - intros x (i & -> & _)%list_elem_of_fmap (f & Hk & Hf)%list_elem_of_fmap.
    apply elem_of_frag_list in Hf as [Hf _]; [|done].
    unfold key_of in Hk. injection Hk as Hqq _. by rewrite Hqq in Hq.
Qed.

Lemma chunk_count_le_total nds q b :
  (q, b) ∈ nds -> (Fragment.chunk_count b <= length (frag_list nds))%nat.
Proof.
  induction nds as [|[q' b'] nds IH]; intros Hin; [by apply elem_of_nil in Hin|].
  change (frag_list ((q', b') :: nds)) with (Fragment.split q' b' ++ frag_list nds).
  rewrite length_app, Fragment.length_split.
  apply elem_of_cons in Hin as [[= -> ->]|Hin]; [lia|]. specialize (IH Hin). lia.
Qed.

(** The shards a batch puts on the wire carry its fragments. *)
Lemma codeword_carries {R : ErasureCode} nds s all :
  NoDup nds.*1 -> (forall q, q ∈ nds.*1 -> q < U64) -> (length (frag_list nds) <= 64)%nat ->
  Encoder.shards s = Fragment.build <$> frag_list nds -> Encoder.shards s <> [] ->
  Forall Encoder.whole (Encoder.shards s) -> Encoder.codeword s all ->
  Forall2 (fun '(q, i) shard => Reassembly.carries (payload_of nds) q i shard)
    (key_of <$> frag_list nds) (take (length (Encoder.shards s)) all).
Proof.
  intros Hnd Hlt H64 Hsh Hne Hw Hc.
  pose proof (Encoder.codeword_sized s all Hw Hne Hc) as Hsz.
  destruct (Encoder.max_len_spec _ Hne Hw) as [_ Hle].
  assert (forall i x, take (length (Encoder.shards s)) all !! i = Some x ->
    exists y pad, Encoder.shards s !! i = Some y /\ x = y ++ pad) as Hpad.
  { intros i x. unfold Encoder.codeword in Hc. cbv zeta in Hc. destruct (_ =? 0)%nat.
    - subst all. rewrite take_ge by done. intros Hx. exists x, []. by rewrite app_nil_r.
    - destruct Hc as (par & _ & -> & _). rewrite take_app_le, take_ge by (rewrite length_fmap; done).
      rewrite list_lookup_fmap. intros (y & Hy & ->)%fmap_Some. exists y. unfold resize.
      eapply Forall_lookup_1 in Hle; [|done]. rewrite take_ge by done. by eexists. }
  apply Forall2_same_length_lookup. split.
  { rewrite length_fmap, length_take, (Encoder.codeword_length s all Hc), Hsh, length_fmap. lia. }
  intros i [q j] x Hk Hx. apply list_lookup_fmap_Some in Hk as (f & Hkf & Hf).
  injection Hkf as Hq Hj. destruct (Hpad i x Hx) as (y & pad & Hy & ->).
  rewrite Hsh, list_lookup_fmap, Hf in Hy. injection Hy as <-.
  destruct (elem_of_frag_list nds f Hnd) as (Hin & Hcount & Hbody);
    [by eapply list_elem_of_lookup_2|]. rewrite <- Hq in Hin, Hcount, Hbody. rewrite <- Hj in Hbody.
  split; [by apply Hlt|]. split.
  { apply list_elem_of_fmap in Hin as ([q' b] & -> & Hin). cbn [fst] in *.
    rewrite (payload_of_in nds q' b) by done.
    pose proof (chunk_count_le_total nds q' b Hin). lia. }
  split.
  { assert (all !! i = Some (Fragment.build f ++ pad)) as Hal.
    { rewrite lookup_take_Some in Hx. tauto. }
    eapply Forall_lookup_1 in Hsz; [|done]. cbn beta in Hsz. lia. }
  exists (Fragment.body f), pad. split; [done|]. f_equal. f_equal.
  destruct f. cbn in *. by subst.
Qed.
End Batch.

(** ** Properties *)
Import Encoder Track Batch.

(** The decoder is ready for a batch of [n] datagrams: its session, room in its
    tables, and a sequence window that has started but not reached the sequence
    numbers a group can take. *)
Definition ready (s : Decoder.t) (e : Encoder.t) (n : nat) : Prop :=
  Decoder.session s = Encoder.session e /\
  groups s !! Encoder.group e = None /\ (size (groups s) < MAX_GROUPS)%nat /\
  (forall q, q ∈ seqs (Encoder.packet e) n -> packets s !! q = None) /\
  (size (packets s) + n <= MAX_REASSEMBLIES)%nat /\
  ~ Window.fresh_window (window s) /\
  Forall (fun q => Window.finalized_sequence (window s) < q /\ q ∉ Window.seen_sequences (window s))
    (seqs (sequence e) (DATA_SHARDS + MAX_PARITY)).

(** Report ticks cannot drop numbers of the next group: they do not wrap, and the
    window is not 64 ahead of them. *)
Definition reports_safe (s : Decoder.t) (e : Encoder.t) : Prop :=
  sequence e + N.of_nat (DATA_SHARDS + MAX_PARITY) <= U64 /\
  Window.highest_sequence (window s) < sequence e + REORDER_WINDOW.

Lemma loaded_within ds e :
  inv e -> shards e = [] ->
  (length (fragments (packet e) (Datagram <$> ds)) <= DATA_SHARDS)%nat ->
  within DATA_SHARDS (loaded ds e).
Proof.
  intros (Hv & Hk & Hs & Hq & Hp & Hg & Hl & Hw & Ha & Hf) He Hn.
  unfold within, loaded. cbn [Encoder.version Encoder.key_id Encoder.session sequence packet group
    shards adaptive force_parity set_shards set_packet]. rewrite He. cbn [app].
  split_and!; try done; [apply as_u64_lt|]. rewrite fragments_number.
  apply Forall_fmap, Forall_forall. intros f Hin.
  apply list_elem_of_bind in Hin as ([q b] & Hf' & _). apply list_elem_of_lookup in Hf' as [i Hi].
  destruct (Fragment.split_lookup _ _ _ _ Hi) as (_ & _ & _ & Hb).
  pose proof (Forall_lookup_1 _ _ _ _ (Fragment.pieces_bounded b) Hb) as Hlen. cbn beta in Hlen.
  cbn. destruct f as [q' i' c' b']. by apply build_whole.
Qed.

Section end_to_end.
Context {R : ErasureCode} (e : Encoder.t) (ds : list bytes).
Hypothesis He : inv e.
Hypothesis Hopen : shards e = [].
Hypothesis Hcodes : codes R (ceiling e).
Hypothesis Hne : ds <> [].

Let n := length (fragments (packet e) (Datagram <$> ds)).
Hypothesis Hn : (n <= DATA_SHARDS)%nat.

Let nds := number (packet e) ds.

Lemma shards_loaded : shards (loaded ds e) = Fragment.build <$> frag_list nds.
Proof. unfold loaded. cbn. rewrite Hopen. cbn. apply fragments_number. Qed.

Lemma length_frag_list : length (frag_list nds) = n.
Proof. unfold n. by rewrite fragments_number, length_fmap. Qed.

Lemma batch_positive : (0 < n)%nat /\ (length ds <= n)%nat.
Proof.
  unfold n. clear Hn nds. split.
  - destruct ds as [|b l]; [done|]. rewrite length_fragments_cons.
    pose proof (Fragment.chunk_count_pos b). lia.
  - generalize (packet e). clear Hne. induction ds as [|b l IH]; intros q; [cbn; lia|].
    rewrite length_fragments_cons. pose proof (Fragment.chunk_count_pos b).
    specialize (IH (add64 q 1)). cbn [length]. lia.
Qed.

Lemma ids_seqs : nds.*1 = seqs (packet e) (length ds).
Proof. apply number_ids. by destruct He as (_ & _ & _ & _ & ? & _). Qed.

Lemma ids_NoDup : NoDup nds.*1.
Proof.
  rewrite ids_seqs. apply seqs_NoDup. destruct batch_positive. unfold DATA_SHARDS in Hn. width_lia.
Qed.

Lemma ids_lt q : q ∈ nds.*1 -> q < U64.
Proof. rewrite ids_seqs. unfold seqs. intros (k & -> & _)%list_elem_of_fmap. apply as_u64_lt. Qed.

(** The batch is one codeword of [n] data shards. *)
Lemma batch_codeword :
  exists all e', codeword (loaded ds e) all /\
    run ((Datagram <$> ds) ++ [Flush]) e = (Ok (group_frames (loaded ds e) n all), e').
Proof.
  destruct batch_positive as [Hpos _].
  pose proof (loaded_within ds e He Hopen Hn) as Hw.
  assert (shards (loaded ds e) <> []) as Hnil.
  { rewrite shards_loaded. intros H%(f_equal length). rewrite length_fmap, length_frag_list in H.
    cbn in H. lia. }
  assert (length (shards (loaded ds e)) = n) as Hl
    by (by rewrite shards_loaded, length_fmap, length_frag_list).
  destruct (flush_spec (loaded ds e)) as (all & Hc & Hf).
  { by destruct Hw as (_ & _ & _ & ? & _). }
  { done. }
  { by rewrite Hl. }
  { by destruct Hw as (_ & _ & _ & _ & _ & _ & _ & ? & _). }
  { cbv zeta. intros Hp. apply Hcodes; [rewrite Hl; done|]. split; [done|].
    apply (flush_parity_ceiling (loaded ds e)); [done|]. rewrite Hl. done. }
  rewrite Hl in Hf. eexists all, _. split; [done|].
  eapply run_batch; [| | |exact Hf|done].
  - by destruct He as (_ & _ & _ & _ & ? & _).
  - rewrite Hopen. unfold DATA_SHARDS. cbn. lia.
  - rewrite Hopen. cbn [length]. exact Hn.
Qed.

(** Its group, as [Track] wants it. *)
Let p := (level e `min` n)%nat.

Lemma batch_facts all :
  codeword (loaded ds e) all ->
  length all = (n + p)%nat /\
  Forall (fun x => FRAGMENT_HEADER <= length x <= SHARD)%nat all /\
  ((0 < p)%nat -> ErasureLaws R n p /\ exists sh, rs_encode n p sh = Ok all) /\
  Forall2 (fun '(q, i) shard => Reassembly.carries (payload_of nds) q i shard)
    (key_of <$> frag_list nds) (take n all).
Proof.
  intros Hc. destruct batch_positive as [Hpos _].
  pose proof (loaded_within ds e He Hopen Hn) as Hw.
  assert (length (shards (loaded ds e)) = n) as Hl
    by (by rewrite shards_loaded, length_fmap, length_frag_list).
  assert (shards (loaded ds e) <> []) as Hnil.
  { intros H%(f_equal length). rewrite Hl in H. cbn in H. lia. }
  pose proof Hw as (_ & _ & _ & _ & _ & _ & _ & Hwhole & (Ha & _) & Hf).
  assert (flush_parity (loaded ds e) n = p) as Hfp by (by apply (flush_parity_level (loaded ds e))).
  split_and!.
  - rewrite (codeword_length _ _ Hc), Hl. by rewrite Hfp.
  - by eapply codeword_sized.
  - intros Hp. split.
    + apply Hcodes; [done|]. split; [done|].
      pose proof (level_le_ceiling _ _ He). unfold p. lia.
    + unfold codeword in Hc. rewrite Hl, Hfp in Hc. cbv zeta in Hc.
      rewrite (proj2 (Nat.eqb_neq _ _)) in Hc by lia. destruct Hc as (par & _ & _ & Henc & _). eauto.
  - rewrite <- Hl. apply codeword_carries; try done.
    + apply ids_NoDup.
    + apply ids_lt.
    + rewrite length_frag_list. unfold DATA_SHARDS in Hn. lia.
    + apply shards_loaded.
Qed.

Lemma ready_track all s T :
  (p <= MAX_PARITY)%nat -> length all = (n + p)%nat -> ready s e (length ds) ->
  track (Encoder.session e) (Encoder.group e) T n p all (fun i => as_u64 (sequence e + N.of_nat i))
    (payload_of nds) nds.*1 (key_of <$> frag_list nds) (reports_safe s e) ∅ s.
Proof.
  intros Hp4 Hlen (Hss & Hgid & Hroom & Hpk & Hcap & Hfresh & Hwin).
  assert (handed_frags n p (key_of <$> frag_list nds) ∅ = []) as Hnone.
  { unfold handed_frags. rewrite filter_none; [done|]. intros i _ [_ [?|[_ H]]]; [set_solver|].
    rewrite size_empty in H. destruct batch_positive. lia. }
  split; [split|].
  - done.
  - by rewrite Hgid.
  - by rewrite delete_id.
  - intros q Hq. rewrite Hnone. unfold Reassembly.entry_ok. rewrite decide_True by (by left).
    apply Hpk. by rewrite <- ids_seqs.
  - intros q x Hq Hx. rewrite Hpk in Hx by (by rewrite <- ids_seqs). done.
  - rewrite length_fmap.
    assert (length nds = length ds) as ->.
    { transitivity (length nds.*2); [by rewrite length_fmap|]. unfold nds. by rewrite number_snd. }
    etransitivity; [|exact Hcap]. apply Nat.add_le_mono_r. apply map_size_filter.
  - split_and!; [done| |intros k Hk; set_solver|].
    2:{ intros [Hwrap Hhigh] k Hk. assert (p <= 4)%nat by (unfold MAX_PARITY in Hp4; lia).
      unfold DATA_SHARDS, MAX_PARITY in *. unfold as_u64. rewrite N.mod_small by lia. lia. }
    intros k Hk _. rewrite Forall_forall in Hwin. apply Hwin. unfold seqs.
    apply list_elem_of_fmap. exists k. split; [done|]. apply elem_of_seq. lia.
Qed.

(** The frames of the batch, position by position. *)
Lemma group_carries all k f :
  length all = (n + p)%nat -> group_frames (loaded ds e) n all !! k = Some f ->
  carries_position (Encoder.session e) (Encoder.group e) n p all
    (fun i => as_u64 (sequence e + N.of_nat i)) k f.
Proof.
  intros Hlen Hf. unfold group_frames in Hf. rewrite list_lookup_imap in Hf.
  destruct (all !! k) as [x|] eqn:Hx; [|done]. cbn [fmap option_fmap option_map] in Hf. injection Hf as <-.
  pose proof (lookup_lt_Some _ _ _ Hx). unfold carries_position.
  cbn [Frame.session Frame.group Frame.sequence Frame.index Frame.data Frame.parity Frame.kind Frame.payload].
  split_and!; try done; [lia|by rewrite Hlen, Nat.add_comm, Nat.add_sub|].
  destruct (k <? n)%nat; [by left|by right].
Qed.

(** When enough frames have arrived, every fragment is due. *)
Lemma all_finished got :
  (forall k, (k < n)%nat -> k ∈ got) \/ (0 < p /\ n <= size got)%nat ->
  Reassembly.finished (payload_of nds) nds.*1
    (Reassembly.positions (handed_frags n p (key_of <$> frag_list nds) got)) = ds.
Proof.
  intros Hgot.
  assert (forall x, x ∈ key_of <$> frag_list nds -> x ∈ handed_frags n p (key_of <$> frag_list nds) got) as Hall.
  { intros x [i Hi]%list_elem_of_lookup. pose proof (lookup_lt_Some _ _ _ Hi) as Hlt.
    rewrite length_fmap, length_frag_list in Hlt. unfold handed_frags.
    apply list_elem_of_omap. exists i. split; [|done]. apply list_elem_of_filter. split.
    - split; [done|]. destruct Hgot as [H|H]; [left; by apply H|by right].
    - apply elem_of_seq. lia. }
  unfold Reassembly.finished. rewrite filter_all.
  - rewrite payload_of_all by apply ids_NoDup. apply number_snd.
  - intros q Hq. apply list_elem_of_fmap in Hq as ([q' b] & -> & Hin). cbn [fst].
    rewrite (payload_of_in nds q' b) by (apply ids_NoDup || done).
    unfold Reassembly.complete. apply Forall_forall. intros i Hi%elem_of_seq.
    unfold Reassembly.positions. apply elem_of_list_to_set, list_elem_of_omap.
    exists (q', i). split; [|by rewrite decide_True]. apply Hall.
    apply (frag_keys_complete nds q' b); [done|lia].
Qed.
End end_to_end.

Lemma group_kinds s n all :
  Forall (fun f => Frame.kind f = KIND_DATA \/ Frame.kind f = KIND_PARITY) (group_frames s n all).
Proof.
  apply Forall_forall. intros f [k Hk]%list_elem_of_lookup. unfold group_frames in Hk.
  rewrite list_lookup_imap in Hk. destruct (all !! k); [|done]. injection Hk as <-. cbn [Frame.kind].
  destruct (k <? n)%nat; [by left|by right].
Qed.

(** A batch of datagrams that fits one group: the frames the encoder makes of
    it, and what a ready decoder hands on when copies of them arrive. *)
Lemma batch_delivered (R : ErasureCode) (e : Encoder.t) (ds : list bytes) (s : Decoder.t) :
  let n := length (fragments (packet e) (Datagram <$> ds)) in
  inv e -> shards e = [] -> codes R (ceiling e) -> ds <> [] -> (n <= DATA_SHARDS)%nat ->
  ready s e (length ds) ->
  exists fs e', run ((Datagram <$> ds) ++ [Flush]) e = (Ok fs, e') /\
    Forall (fun f => Frame.kind f = KIND_DATA \/ Frame.kind f = KIND_PARITY) fs /\ (n <= length fs <= 14)%nat /\
    forall T (arrivals : list (option ((nat -> N) * Frame.t))) (ks : list nat),
    (None ∈ arrivals -> reports_safe s e) ->
    Forall2 (fun '(clk, f) k => (forall i, T <= clk i < T + GROUP_TTL) /\ fs !! k = Some f) (omap id arrivals) ks ->
    (forall k, (k < n)%nat -> k ∈ ks) \/
      (0 < level e /\ n <= size (list_to_set ks : gset nat))%nat ->
    fst (hears arrivals s) ≡ₚ ds.
Proof.
  intros n He Hopen Hcodes Hne Hn Hready.
  destruct (batch_codeword e ds He Hopen Hcodes Hne Hn) as (all & e1 & Hc & Hrun1).
  fold n in Hrun1. exists (group_frames (loaded ds e) n all), e1. split; [done|]. split; [apply group_kinds|].
  set (nds := number (packet e) ds). set (p := (level e `min` n)%nat).
  assert (length all = (n + p)%nat /\
    Forall (fun x => FRAGMENT_HEADER <= length x <= SHARD)%nat all /\
    ((0 < p)%nat -> ErasureLaws R n p /\ exists sh, rs_encode n p sh = Ok all) /\
    Forall2 (fun '(q, i) shard => Reassembly.carries (payload_of nds) q i shard)
      (key_of <$> frag_list nds) (take n all)) as (Hlen & Hsz & Hlaws & Hcarry)
    by (by eapply batch_facts).
  assert (0 < n)%nat as Hpos by (by eapply batch_positive).
  assert (NoDup nds.*1) as Hids by (by eapply ids_NoDup).
  assert (p <= 4)%nat as Hp4.
  { destruct He as (_ & _ & _ & _ & _ & _ & _ & _ & (Ha & _) & Hf). unfold p, level, MAX_PARITY in *.
    destruct (force_parity e) as [m|]; cbn; [specialize (Hf m eq_refl)|]; lia. }
  assert (n <= 10)%nat as Hn10 by exact Hn.
  split; [unfold group_frames; rewrite length_imap, Hlen; lia|].
  intros T arrivals ks Hticks HF Henough.
  assert (track (Encoder.session e) (Encoder.group e) T n p all
    (fun i => as_u64 (sequence e + N.of_nat i)) (payload_of nds) nds.*1 (key_of <$> frag_list nds) (reports_safe s e) ∅ s)
    as Htr by (by eapply ready_track).
  eapply hears_track with (ks := ks) (arrivals := arrivals) in Htr as (s' & _ & outs & Hfr & Hperm);
    try done.
  - rewrite Hfr. cbn [fst]. rewrite (right_id_L ∅ (∪)) in Hperm.
    rewrite (Reassembly.finished_none _ _ (Reassembly.positions _)), app_nil_r in Hperm.
    + etransitivity; [exact Hperm|]. unfold nds, p, n. rewrite all_finished; try done.
      destruct Henough as [H|[H1 H2]].
      * left. intros k Hk. apply elem_of_list_to_set. by apply H.
      * right. fold n. split; [lia|done].
    + intros q _. unfold handed_frags. rewrite filter_none; [done|].
      intros i _ [_ [?|[_ H]]]; [set_solver|]. rewrite size_empty in H. lia.
  - lia.
  - lia.
  - intros i j Hi Hj Heq. apply as_u64_add_inj in Heq; width_lia.
  - intros [Hwrap _] i j Hi Hj. unfold DATA_SHARDS, MAX_PARITY, REORDER_WINDOW in *. unfold as_u64.
    rewrite !N.mod_small by lia. lia.
  - by apply frag_keys_NoDup.
  - intros q i (f & Hk & Hf)%list_elem_of_fmap. unfold key_of in Hk. injection Hk as -> _.
    by apply elem_of_frag_list in Hf as [? _].
  - eapply Forall2_impl; [exact HF|]. intros [clk f] k [Htime Hf]. split; [done|]. by eapply group_carries.
Qed.

(** the tunnel delivers.  Let an encoder with an empty group take in any
    datagrams that fit one group, then flush.  Let the frames it sent reach a
    ready decoder within the group's life of two seconds in any order, with any
    repetitions and any losses, as long as either all source frames arrive or,
    when the encoder's level is above zero, any distinct frames as many as
    there are fragments.  Then the decoder hands on exactly the datagrams sent,
    each once, unaltered. *)
Theorem tunnel_delivers (R : ErasureCode) (e e' : Encoder.t) (ds : list bytes)
    (fs : list Frame.t) (s : Decoder.t) (T : N)
    (arrivals : list ((nat -> N) * Frame.t)) (ks : list nat) :
  let n := length (fragments (packet e) (Datagram <$> ds)) in
  inv e -> shards e = [] -> codes R (ceiling e) -> ds <> [] -> (n <= DATA_SHARDS)%nat ->
  run ((Datagram <$> ds) ++ [Flush]) e = (Ok fs, e') ->
  ready s e (length ds) ->
  Forall2 (fun '(clk, f) k => (forall i, T <= clk i < T + GROUP_TTL) /\ fs !! k = Some f) arrivals ks ->
  (forall k, (k < n)%nat -> k ∈ ks) \/
    (0 < level e /\ n <= size (list_to_set ks : gset nat))%nat ->
  fst (frames arrivals s) ≡ₚ ds.
Proof.
  intros n He Hopen Hcodes Hne Hn Hrun Hready.
  destruct (batch_delivered R e ds s He Hopen Hcodes Hne Hn Hready) as (fs' & e1 & Hrun1 & _ & _ & Hall).
  rewrite Hrun in Hrun1. injection Hrun1 as <- <-. intros HF Henough. rewrite <- hears_frames.
  assert (omap id (Some <$> arrivals) = arrivals) as Hid.
  { clear. induction arrivals as [|x l IH]; [done|]. cbn. by rewrite IH. }
  apply (Hall T _ ks); [|by rewrite Hid|done]. by intros (? & ? & _)%list_elem_of_fmap.
Qed.

(** A concrete run: two datagrams, one parity shard, the first frame lost. *)
Definition demo_encoder : Encoder.t := snd (report_frame 0 (with_identity (Some 1%nat) 9 3 5)).
Definition demo_decoder : Decoder.t :=
  Decoder.mk 9 (snd (Window.observe_seq 1 Window.new)) ∅ ∅.
Definition demo_datagrams : list bytes := [[x61]; [x62; x63]].
Definition demo_sent : result (list Frame.t) * Encoder.t :=
  run (R := xor_code) ((Datagram <$> demo_datagrams) ++ [Flush]) demo_encoder.
Definition demo_frames : list Frame.t := match fst demo_sent with Ok fs => fs | _ => [] end.
Definition demo_arrivals : list ((nat -> N) * Frame.t) :=
  (fun f => (fun _ => 7, f)) <$> omap (fun k => demo_frames !! k) [2; 1; 2]%nat.

Lemma tunnel_delivers_witness :
  fst (frames (R := xor_code) demo_arrivals demo_decoder) ≡ₚ [[x61]; [x62; x63]].
Proof.
  apply (tunnel_delivers xor_code demo_encoder (snd demo_sent) demo_datagrams demo_frames
    demo_decoder 7 demo_arrivals [2; 1; 2]%nat).
  - apply (report_effect (with_identity (Some 1%nat) 9 3 5) 0).
    apply with_identity_inv; reflexivity.
  - reflexivity.
  - apply xor_codes.
  - discriminate.
  - apply Nat.leb_le. vm_compute. reflexivity.
  - vm_compute. reflexivity.
  - unfold ready. split_and!.
    + reflexivity.
    + reflexivity.
    + apply Nat.ltb_lt. vm_compute. reflexivity.
    + intros q _. apply lookup_empty.
    + apply Nat.leb_le. vm_compute. reflexivity.
    + intros (H & _). vm_compute in H. discriminate H.
    + apply (bool_decide_unpack _). vm_compute. exact I.
  - assert (forall k, (k < 3)%nat -> exists f, demo_frames !! k = Some f) as Hk.
    { intros k Hk. apply lookup_lt_is_Some_2. replace (length demo_frames) with 3%nat; [done|].
      vm_compute. reflexivity. }
    destruct (Hk 1%nat ltac:(lia)) as [f1 H1]. destruct (Hk 2%nat ltac:(lia)) as [f2 H2].
    unfold demo_arrivals. cbn [omap list_omap]. rewrite H1, H2. cbn [fmap list_fmap].
    repeat constructor; (done || (intros; unfold GROUP_TTL, NANOS; lia)).
  - right. split; vm_compute; lia.
Defined.
