(* ===== verification/QuicAuth.v ===== *)
(** * Device authentication of the QUIC transports (src/src/quic_auth.rs)

    A proof envelope binds a device, a timestamp, a nonce and the TLS exporter
    of the connection under the device's secret; [ReplayCache] remembers the
    nonces of accepted envelopes.  Times are seconds as [u64]; a secret is its
    UTF-8 bytes. *)
From S2P Require Import Prelude External.

Definition AUTH_MAGIC : bytes := bytes_of_string "SFTA".
Definition AUTH_VERSION : byte := x01.
Definition PREFIX_LEN : nat := 4 + 1 + 8 + 8 + 16.
Definition ENVELOPE_LEN : nat := PREFIX_LEN + 32.
Definition DEFAULT_AUTH_WINDOW_SECS : N := 30.

Module ReplayCache.
Record t := mk {
  capacity : nat;
  entries : gmap bytes N;
  order : list (bytes * N);
}.

(** [ReplayCache::new] *)
Definition new (capacity : nat) : result t :=
  if (capacity =? 0)%nat then Err "replay cache capacity must be non-zero"%string
  else Ok (mk capacity ∅ []).

(** [if self.entries.get(&old_nonce) == Some(&expires_at) { remove }] *)
Definition forget (old_nonce : bytes) (expires_at : N) (entries : gmap bytes N) : gmap bytes N :=
  if bool_decide (entries !! old_nonce = Some expires_at) then delete old_nonce entries else entries.

(** [while let Some((old_nonce, expires_at)) = self.order.front()] *)
Fixpoint expire (now : N) (order : list (bytes * N)) (entries : gmap bytes N)
    : list (bytes * N) * gmap bytes N :=
  match order with
  | [] => ([], entries)
  | (old_nonce, expires_at) :: rest =>
      if now <? expires_at then (order, entries)
      else expire now rest (forget old_nonce expires_at entries)
  end.

(** [while self.entries.len() >= self.capacity] *)
Fixpoint evict (capacity : nat) (order : list (bytes * N)) (entries : gmap bytes N)
    : list (bytes * N) * gmap bytes N :=
  if (capacity <=? size entries)%nat then
    match order with
    | [] => ([], entries)
    | (old_nonce, expires_at) :: rest => evict capacity rest (forget old_nonce expires_at entries)
    end
  else (order, entries).

(** [ReplayCache::check_and_insert] *)
Definition check_and_insert (nonce : bytes) (now window_secs : N) (c : t) : bool * t :=
  let '(order1, entries1) := expire now (order c) (entries c) in
  if bool_decide (is_Some (entries1 !! nonce)) then (false, mk (capacity c) entries1 order1) else
  let '(order2, entries2) := evict (capacity c) order1 entries1 in
  let expires_at := sat_add64 (sat_add64 now window_secs) 1 in
  (true, mk (capacity c) (<[nonce := expires_at]> entries2) (order2 ++ [(nonce, expires_at)])).

(** A sequence of checks: how many nonces were accepted, and the cache left. *)
Fixpoint checks (window_secs : N) (l : list (bytes * N)) (c : t) : nat * t :=
  match l with
  | [] => (0%nat, c)
  | (nonce, now) :: l =>
      let '(fresh, c) := check_and_insert nonce now window_secs c in
      let '(n, c) := checks window_secs l c in
      ((if fresh : bool then 1 else 0) + n, c)%nat
  end.

(** The queue lists the map's entries, each once, and there is room. *)
Definition inv (c : t) : Prop :=
  NoDup (order c).*1 /\ entries c = list_to_map (order c) /\
  (0 < capacity c)%nat /\ (length (order c) <= capacity c)%nat.

(** ** Lemmas *)
Lemma empty_inv cap : (0 < cap)%nat -> inv (mk cap ∅ []).
Proof.
  intros Hcap. unfold inv. cbn [order entries capacity fmap list_fmap list_to_map length].
  split_and!; [by apply NoDup_nil_2|done|done|lia].
Qed.

Lemma size_entries (l : list (bytes * N)) :
  NoDup l.*1 -> size (list_to_map l : gmap bytes N) = length l.
Proof. apply map_size_list_to_map. Qed.

Lemma forget_head n e (l : list (bytes * N)) :
  NoDup ((n, e) :: l).*1 -> forget n e (list_to_map ((n, e) :: l)) = list_to_map l.
Proof.
  cbn. intros [Hn _]%NoDup_cons. unfold forget. rewrite bool_decide_true by apply lookup_insert_eq.
  apply delete_insert_id. by apply not_elem_of_list_to_map.
Qed.

(** Both loops drop a front part of the queue. *)
Lemma expire_spec now l :
  NoDup l.*1 ->
  exists k, expire now l (list_to_map l) = (drop k l, list_to_map (drop k l)) /\
    Forall (fun x => x.2 <= now) (take k l).
Proof.
  induction l as [|[n e] l IH]; intros Hnd; [exists 0%nat; cbn; split; [done|constructor]|].
  cbn [expire]. destruct (N.ltb_spec now e) as [Hlt|Hge].
  - exists 0%nat. split; [done|constructor].
  - rewrite forget_head by done. cbn in Hnd. apply NoDup_cons in Hnd as [_ Hnd].
    destruct (IH Hnd) as (k & -> & HF). exists (S k). split; [done|]. by constructor.
Qed.

Lemma evict_spec cap l :
  NoDup l.*1 -> (0 < cap)%nat ->
  evict cap l (list_to_map l)
  = (drop (S (length l) - cap) l, list_to_map (drop (S (length l) - cap) l)).
Proof.
  intros Hnd Hcap. induction l as [|[n e] l IH].
  - cbn [evict]. rewrite drop_nil. by destruct (_ <=? _)%nat.
  - cbn [evict]. rewrite size_entries by done. rewrite length_cons.
    destruct (Nat.leb_spec cap (S (length l))) as [Hfull|Hroom].
    + rewrite forget_head by done. cbn in Hnd. apply NoDup_cons in Hnd as [_ Hnd].
      rewrite IH by done.
      by replace (S (S (length l)) - cap)%nat with (S (S (length l) - cap)) by lia.
    + by replace (S (S (length l)) - cap)%nat with 0%nat by lia.
Qed.

Lemma drop_keys {A B} k (l : list (A * B)) : NoDup l.*1 -> NoDup (drop k l).*1.
Proof.
  intros Hnd. rewrite fmap_drop. eapply sublist_NoDup; [exact Hnd|apply sublist_drop].
Qed.

(** [check_and_insert] in terms of the queue: some expired front part goes; a
    nonce still queued is refused; otherwise it is queued last, after the oldest
    were dropped to make room. *)
Lemma check_spec nonce now w c :
  inv c ->
  let e := sat_add64 (sat_add64 now w) 1 in
  exists k, Forall (fun x => x.2 <= now) (take k (order c)) /\
    let l := drop k (order c) in
    check_and_insert nonce now w c =
    if bool_decide (nonce ∈ l.*1) then (false, mk (capacity c) (list_to_map l) l)
    else
      let l' := drop (S (length l) - capacity c) l in
      (true, mk (capacity c) (<[nonce := e]> (list_to_map l')) (l' ++ [(nonce, e)])).
Proof.
  intros (Hnd & He & Hcap & Hlen) e. unfold check_and_insert. rewrite He.
  destruct (expire_spec now (order c) Hnd) as (k & -> & HF). exists k. split; [done|]. cbv zeta.
  set (l := drop k (order c)). assert (NoDup l.*1) as Hl by (by apply drop_keys).
  assert (is_Some ((list_to_map l : gmap bytes N) !! nonce) <-> nonce ∈ l.*1) as Hin.
  { rewrite <- not_eq_None_Some, <- not_elem_of_list_to_map. split; [|tauto].
    apply dec_stable. }
  rewrite (bool_decide_ext _ _ Hin). case_bool_decide; [done|].
  rewrite evict_spec by done. done.
Qed.

(** The invariant, and what it says about the queue after a check. *)
Lemma check_inv nonce now w c : inv c -> inv (snd (check_and_insert nonce now w c)).
Proof.
  intros Hi. pose proof Hi as (Hnd & He & Hcap & Hlen).
  destruct (check_spec nonce now w c Hi) as (k & _ & ->). cbv zeta.
  set (l := drop k (order c)). assert (NoDup l.*1) as Hl by (by apply drop_keys).
  assert (length l <= capacity c)%nat as Hll by (unfold l; rewrite length_drop; lia).
  case_bool_decide as Hn; cbn [snd]; unfold inv; cbn [order entries capacity].
  - done.
  - set (l' := drop _ l). assert (NoDup l'.*1) as Hl' by (by apply drop_keys).
    assert (nonce ∉ l'.*1) as Hn'.
    { intros H. apply Hn. unfold l' in H. rewrite fmap_drop in H.
      eapply elem_of_sublist; [exact H|apply sublist_drop]. }
    split_and!.
    + rewrite fmap_app. apply NoDup_app. split_and!; [done| |apply NoDup_singleton].
      intros x Hx. cbn. by intros ->%list_elem_of_singleton.
    + symmetry. by apply list_to_map_snoc.
    + done.
    + rewrite length_app. unfold l'. rewrite length_drop. cbn. lia.
Qed.

Lemma checks_inv w l c : inv c -> inv (snd (checks w l c)).
Proof.
  revert c. induction l as [|[n now] l IH]; intros c Hc; [done|]. cbn [checks].
  pose proof (check_inv n now w c Hc) as H1. destruct (check_and_insert n now w c) as [b c1].
  specialize (IH c1 H1). by destruct (checks w l c1).
Qed.

(** [nonce] is queued with expiry [e] and [n] others behind it. *)
Definition queued (nonce : bytes) (e : N) (n : nat) (c : t) : Prop :=
  exists l1 l2, order c = l1 ++ (nonce, e) :: l2 /\ length l2 = n.

Lemma drop_before {A} k (l1 : list A) x l2 :
  (k <= length l1)%nat -> drop k (l1 ++ x :: l2) = drop k l1 ++ x :: l2.
Proof. intros. by rewrite drop_app_le. Qed.

Lemma check_queued nonce e n nonce' now w c :
  inv c -> queued nonce e n c -> now < e ->
  let '(fresh, c') := check_and_insert nonce' now w c in
  (nonce' = nonce -> fresh = false) /\
  ((S n < capacity c)%nat \/ fresh = false ->
    queued nonce e ((if fresh : bool then 1 else 0) + n) c' /\ capacity c' = capacity c).
Proof.
  intros Hi (l1 & l2 & Hq & Hn) Hlive.
  destruct (check_spec nonce' now w c Hi) as (k & HF & Hc). cbv zeta in Hc. rewrite Hc. clear Hc.
  assert (k <= length l1)%nat as Hk.
  { destruct (decide (k <= length l1)%nat) as [|Hgt]; [done|exfalso].
    rewrite Forall_forall in HF. specialize (HF (nonce, e)). cbn in HF.
    assert (e <= now); [|lia]. apply HF. rewrite Hq. rewrite take_app_ge by lia.
    apply elem_of_app. right. destruct (k - length l1)%nat eqn:E; [lia|]. cbn [take]. left. }
  rewrite Hq in *. rewrite drop_before by done. set (l1' := drop k l1).
  case_bool_decide as Hin; cbv beta iota zeta.
  - split; [done|]. intros _. split; [|done]. exists l1', l2. done.
  - split.
    + intros ->. exfalso. apply Hin. rewrite fmap_app. apply elem_of_app. right. left.
    + intros [Hroom|?]; [|done]. split; [|done]. rewrite length_app, length_cons.
      rewrite drop_before by lia. eexists _, (l2 ++ [_]).
      cbn [order]. rewrite <- app_assoc. split; [done|]. rewrite length_app. cbn. lia.
Qed.

Lemma checks_queued nonce e w l n c :
  inv c -> queued nonce e n c -> Forall (fun '(_, now) => now < e) l ->
  let '(m, c') := checks w l c in
  (n + m < capacity c)%nat -> queued nonce e (m + n) c' /\ capacity c' = capacity c.
Proof.
  revert n c. induction l as [|[nonce' now] l IH]; intros n c Hi Hq HF; [done|].
  inversion HF as [|?? Hnow HF']; subst. cbn [checks].
  pose proof (check_queued nonce e n nonce' now w c Hi Hq Hnow) as H1.
  pose proof (check_inv nonce' now w c Hi) as Hi1.
  destruct (check_and_insert nonce' now w c) as [fresh c1]. cbn [snd] in Hi1.
  destruct H1 as [_ H1]. destruct (checks w l c1) as [m c2] eqn:Hcs. intros Hm.
  destruct H1 as [Hq1 Hc1]; [destruct fresh; [left; lia|by right]|].
  specialize (IH _ c1 Hi1 Hq1 HF'). rewrite Hcs in IH. rewrite Hc1 in IH.
  destruct IH as [Hq2 Hc2]; [destruct fresh; lia|]. split; [|done].
  by replace ((if fresh then 1 else 0) + m + n)%nat with (m + ((if fresh then 1 else 0) + n))%nat by lia.
Qed.

(** An accepted nonce is queued last. *)
Lemma check_accepts nonce now w c :
  inv c -> fst (check_and_insert nonce now w c) = true ->
  queued nonce (sat_add64 (sat_add64 now w) 1) 0 (snd (check_and_insert nonce now w c)) /\
  capacity (snd (check_and_insert nonce now w c)) = capacity c.
Proof.
  intros Hi. destruct (check_spec nonce now w c Hi) as (k & _ & ->). cbv zeta.
  case_bool_decide; [done|]. intros _. split; [|done]. eexists _, []. done.
Qed.
End ReplayCache.

(** ** Envelopes *)
Record AuthClaims := mk_claims {
  device_id : N;
  timestamp : N;
  nonce : bytes;
}.

Section envelopes.
Context {C : Crypto}.

(** [device_key] *)
Definition device_key (secret : bytes) : bytes := blake3_hash secret.

(** The first [PREFIX_LEN] bytes [make_envelope] writes. *)
Definition envelope_prefix (device_id timestamp : N) (nonce : bytes) : bytes :=
  AUTH_MAGIC ++ [AUTH_VERSION] ++ u64_be device_id ++ u64_be timestamp ++ nonce.

(** [make_envelope] *)
Definition make_envelope (secret : bytes) (device_id timestamp : N) (nonce tls_exporter : bytes)
    : bytes :=
  let out := envelope_prefix device_id timestamp nonce in
  out ++ blake3_keyed (device_key secret) (out ++ tls_exporter).

(** The guard both readers start with; [||] stops at the first true test. *)
Definition malformed (envelope : bytes) : result bool :=
  if negb (length envelope =? ENVELOPE_LEN)%nat then Ok true else
  magic ← slice envelope 0 4;
  if negb (bool_decide (magic = AUTH_MAGIC)) then Ok true else
  version ← elem_at envelope 4;
  Ok (negb (bool_decide (version = AUTH_VERSION))).

(** [envelope_device_id] *)
Definition envelope_device_id (envelope : bytes) : result N :=
  bad ← malformed envelope;
  if (bad : bool) then Err "invalid authentication envelope"%string else
  id ← slice envelope 5 13;
  if from_be_bytes id =? 0 then Err "device id must be non-zero"%string else
  Ok (from_be_bytes id).

(** [u64::abs_diff] *)
Definition abs_diff (a b : N) : N := N.max a b - N.min a b.

(** [verify_envelope] *)
Definition verify_envelope (envelope : bytes) (secret : bytes) (tls_exporter : bytes)
    (now window_secs : N) : method ReplayCache.t AuthClaims :=
  bad ← lift (malformed envelope);
  if (bad : bool) then bail "invalid authentication envelope"%string else
  device_id ← lift (envelope_device_id envelope);
  timestamp ← lift (slice envelope 13 21);
  let timestamp := from_be_bytes timestamp in
  if window_secs <? abs_diff now timestamp then bail "expired authentication envelope"%string else
  nonce ← lift (slice envelope 21 37);
  let expected := make_envelope secret device_id timestamp nonce tls_exporter in
  mac ← lift (slice expected PREFIX_LEN (length expected));
  got ← lift (slice envelope PREFIX_LEN (length envelope));
  if negb (bool_decide (mac = got)) then bail "invalid device proof"%string else
  cache ← get;
  let '(fresh, cache) := ReplayCache.check_and_insert nonce now window_secs cache in
  _ ← put cache;
  if negb fresh then bail "replayed authentication envelope"%string else
  mret (mk_claims device_id timestamp nonce).
End envelopes.

(** ** Lemmas *)
Section envelope_lemmas.
Context {C : Crypto} {L : CryptoLaws C}.

Lemma length_envelope_prefix id ts n : length n = 16%nat -> length (envelope_prefix id ts n) = PREFIX_LEN.
Proof. intros Hn. unfold envelope_prefix, PREFIX_LEN. autorewrite with sft_len. rewrite Hn. done. Qed.

Lemma length_make_envelope secret id ts n ex :
  length n = 16%nat -> length (make_envelope secret id ts n ex) = ENVELOPE_LEN.
Proof.
  intros Hn. unfold make_envelope. rewrite length_app, length_envelope_prefix by done.
  by rewrite blake3_keyed_length.
Qed.

(** The fields of an envelope prefix, whatever follows it. *)
Lemma envelope_fields id ts n mac (buf := envelope_prefix id ts n ++ mac) :
  length n = 16%nat ->
  slice (E := string) buf 0 4 = Ok AUTH_MAGIC /\
  elem_at (E := string) buf 4 = Ok AUTH_VERSION /\
  slice (E := string) buf 5 13 = Ok (u64_be id) /\
  slice (E := string) buf 13 21 = Ok (u64_be ts) /\
  slice (E := string) buf 21 37 = Ok n.
Proof.
  intros Hn. unfold buf, envelope_prefix. rewrite <- !app_assoc. unfold AUTH_MAGIC.
  assert (length (bytes_of_string "SFTA") = 4%nat) as H4 by done.
  split_and!.
  - by apply slice_here.
  - rewrite (elem_at_skip 4) by done. done.
  - rewrite (slice_skip 4) by done. slices. done.
  - rewrite (slice_skip 4) by done. slices. done.
  - rewrite (slice_skip 4) by done. slices. by apply slice_here.
Qed.

Lemma envelope_prefix_inj id1 id2 ts1 ts2 n1 n2 mac1 mac2 :
  length n1 = 16%nat -> length n2 = 16%nat -> id1 < U64 -> id2 < U64 -> ts1 < U64 -> ts2 < U64 ->
  envelope_prefix id1 ts1 n1 ++ mac1 = envelope_prefix id2 ts2 n2 ++ mac2 ->
  id1 = id2 /\ ts1 = ts2 /\ n1 = n2 /\ mac1 = mac2.
Proof.
  intros Hn1 Hn2 Hi1 Hi2 Ht1 Ht2 Heq.
  destruct (envelope_fields id1 ts1 n1 mac1 Hn1) as (_ & _ & H1 & H2 & H3).
  destruct (envelope_fields id2 ts2 n2 mac2 Hn2) as (_ & _ & H1' & H2' & H3').
  rewrite Heq in H1, H2, H3. rewrite H1 in H1'. rewrite H2 in H2'. rewrite H3 in H3'.
  apply Ok_inj, (f_equal from_be_bytes) in H1', H2'. rewrite !from_u64_be in H1', H2' by done.
  apply Ok_inj in H3'. subst. split_and!; [done..|]. by apply app_inv_head in Heq.
Qed.

Lemma malformed_ok id ts n mac :
  length n = 16%nat -> length mac = 32%nat -> malformed (envelope_prefix id ts n ++ mac) = Ok false.
Proof.
  intros Hn Hm. unfold malformed.
  rewrite length_app, length_envelope_prefix, Hm by done. rewrite Nat.eqb_refl. cbn [negb].
  destruct (envelope_fields id ts n mac Hn) as (-> & -> & _). cbn.
  by rewrite !bool_decide_true.
Qed.

(** A well-formed envelope is a prefix and a 32-byte proof. *)
Lemma malformed_inv envelope :
  malformed envelope = Ok false ->
  exists id ts n mac, id < U64 /\ ts < U64 /\ length n = 16%nat /\ length mac = 32%nat /\
    envelope = envelope_prefix id ts n ++ mac.
Proof.
  unfold malformed. destruct (Nat.eqb_spec (length envelope) ENVELOPE_LEN) as [Hl|]; [|done].
  cbn [negb]. intros H. case_res H as magic Hm.
  destruct (bool_decide_reflect (magic = AUTH_MAGIC)) as [->|]; [|done]. cbn [negb] in H.
  case_res H as v Hv. injection H as H. apply negb_false_iff, bool_decide_eq_true in H as ->.
  unfold ENVELOPE_LEN, PREFIX_LEN in Hl. cbn in Hl.
  set (sl := fun i j => take (j - i) (drop i envelope)).
  assert (forall i j, (i <= j <= 69)%nat -> slice (E := string) envelope i j = Ok (sl i j)) as Hs.
  { intros i j Hij. apply slice_ok. lia. }
  pose proof (elem_at_slice _ _ _ Hv) as Hv'.
  pose proof (Hs 5 13 ltac:(lia))%nat as H1. pose proof (Hs 13 21 ltac:(lia))%nat as H2.
  pose proof (Hs 21 37 ltac:(lia))%nat as H3. pose proof (Hs 37 69 ltac:(lia))%nat as H4.
  slice_lengths. exists (from_be_bytes (sl 5 13)%nat), (from_be_bytes (sl 13 21)%nat), (sl 21 37)%nat, (sl 37 69)%nat.
  split; [apply from_be_u64_lt; lia|]. split; [apply from_be_u64_lt; lia|]. split; [lia|]. split; [lia|].
  unfold envelope_prefix. rewrite !u64_be_from by lia.
  chain Hm Hv'. chain Hm H1. chain Hm H2. chain Hm H3. chain Hm H4.
  symmetry. apply (slice_all (E := string)). rewrite Hl, Hm. by rewrite <- !app_assoc.
Qed.

(** What [verify_envelope] does with a well-formed envelope. *)
Lemma verify_well_formed secret ex now w c id ts n mac :
  id < U64 -> ts < U64 -> length n = 16%nat -> length mac = 32%nat ->
  verify_envelope (envelope_prefix id ts n ++ mac) secret ex now w c =
  if id =? 0 then (Err "device id must be non-zero"%string, c)
  else if w <? abs_diff now ts then (Err "expired authentication envelope"%string, c)
  else if negb (bool_decide (mac = blake3_keyed (device_key secret) (envelope_prefix id ts n ++ ex)))
  then (Err "invalid device proof"%string, c)
  else let '(fresh, c') := ReplayCache.check_and_insert n now w c in
    ((if fresh then Ok (mk_claims id ts n) else Err "replayed authentication envelope"%string), c').
Proof.
  intros Hid Hts Hn Hm. unfold verify_envelope, envelope_device_id. unfold_method.
  rewrite malformed_ok by done. cbn [mbind outcome_bind].
  destruct (envelope_fields id ts n mac Hn) as (_ & _ & -> & -> & ->).
  cbn [mbind outcome_bind]. rewrite !from_u64_be by done.
  destruct (id =? 0); [done|]. destruct (w <? _); [done|].
  unfold make_envelope. rewrite !slice_suffix by (by apply length_envelope_prefix).
  rewrite (bool_decide_ext _ (mac = blake3_keyed (device_key secret) (envelope_prefix id ts n ++ ex)))
    by (split; congruence).
  destruct (bool_decide _); cbn [negb]; [|done].
  by destruct (ReplayCache.check_and_insert n now w c) as [[] c'].
Qed.

Lemma malformed_true envelope : malformed envelope <> Ok false -> malformed (envelope : bytes) = Ok true.
Proof.
  unfold malformed. destruct (Nat.eqb_spec (length envelope) ENVELOPE_LEN) as [Hl|]; [|done].
  cbn [negb]. unfold ENVELOPE_LEN, PREFIX_LEN in Hl. cbn in Hl.
  rewrite slice_ok by lia. cbn [mbind outcome_bind]. destruct (negb _); [done|].
  destruct (elem_at_lt (E := string) envelope 4) as [v ->]; [lia|]. cbn.
  by destruct (negb _).
Qed.

Lemma verify_malformed envelope secret ex now w c :
  malformed envelope <> Ok false ->
  verify_envelope envelope secret ex now w c = (Err "invalid authentication envelope"%string, c).
Proof. intros H. unfold verify_envelope. unfold_method. by rewrite malformed_true. Qed.
End envelope_lemmas.

(** ** Properties *)

(** what a proof establishes.  [verify_envelope] never panics, and accepts
    an envelope exactly when it is, byte for byte, the envelope the device's
    secret makes for this TLS connection, with a non-zero device, a timestamp
    within the window and a nonce the cache does not know; it returns those
    claims.  An envelope without a valid proof leaves the cache untouched. *)
Theorem verify_envelope_iff (C : Crypto) (L : CryptoLaws C) (envelope : bytes) (secret : bytes)
    (ex : bytes) (now w : N) (c : ReplayCache.t) (a : AuthClaims) :
  let '(r, c') := verify_envelope envelope secret ex now w c in
  no_panic r /\
  (r = Ok a <->
   0 < device_id a < U64 /\ timestamp a < U64 /\ length (nonce a) = 16%nat /\
   envelope = make_envelope secret (device_id a) (timestamp a) (nonce a) ex /\
   now <= timestamp a + w /\ timestamp a <= now + w /\
   fst (ReplayCache.check_and_insert (nonce a) now w c) = true) /\
  (c' = c \/ exists id ts n, length n = 16%nat /\ envelope = make_envelope secret id ts n ex /\
     c' = snd (ReplayCache.check_and_insert n now w c)).
Proof.
  assert (malformed envelope = Ok false \/ malformed envelope <> Ok false) as [Hwf|Hbad]
    by (destruct (malformed envelope) as [[]|?|]; first [by left|by right]).
  - apply malformed_inv in Hwf as (id & ts & n & mac & Hid & Hts & Hn & Hm & ->).
    rewrite verify_well_formed by done.
    assert (forall id' ts' n', length n' = 16%nat -> id' < U64 -> ts' < U64 ->
      envelope_prefix id ts n ++ mac = make_envelope secret id' ts' n' ex ->
      id' = id /\ ts' = ts /\ n' = n /\
      mac = blake3_keyed (device_key secret) (envelope_prefix id ts n ++ ex)) as Hinj.
    { intros id' ts' n' Hn' Hid' Hts' Heq.
      apply envelope_prefix_inj in Heq as (<- & <- & <- & ->); done. }
    destruct (N.eqb_spec id 0) as [Hz|Hz].
    { split; [done|]. split; [|by left]. split; [done|].
      intros (Hd & Ht & Hl & Heq & _). apply Hinj in Heq as (Hidd & _); [lia|done|lia|done]. }
    destruct (N.ltb_spec w (abs_diff now ts)) as [Hexp|Hfresh].
    { split; [done|]. split; [|by left]. split; [done|].
      intros (Hd & Ht & Hl & Heq & H1 & H2 & _).
      apply Hinj in Heq as (_ & Htt & _); [|done|lia|done]. unfold abs_diff in Hexp. lia. }
    case_bool_decide as Hmac; cbn [negb].
    + destruct (ReplayCache.check_and_insert n now w c) as [fresh c'] eqn:Hchk.
      split; [by destruct fresh|]. split.
      * split.
        -- destruct fresh; [|done]. intros [= <-]. cbn. unfold abs_diff in Hfresh. rewrite Hchk.
           split_and!; try done; try lia. unfold make_envelope. by rewrite Hmac.
        -- intros (Hd & Ht & Hl & Heq & _ & _ & Hf).
           apply Hinj in Heq as (Hi & Htt & Hnn & _); [|done|lia|done].
           destruct a as [ai at' an]. cbn in *. subst. rewrite Hchk in Hf. cbn in Hf. by subst.
      * right. exists id, ts, n. rewrite Hchk. split_and!; try done. unfold make_envelope.
        by rewrite Hmac.
    + split; [done|]. split; [|by left]. split; [done|].
      intros (Hd & Ht & Hl & Heq & _). apply Hinj in Heq as (_ & _ & _ & Hm'); [done|done|lia|done].
  - rewrite verify_malformed by done. split; [done|]. split; [|by left]. split; [done|].
    intros (_ & _ & Hl & -> & _). exfalso. apply Hbad. unfold make_envelope.
    apply malformed_ok; [done|]. apply blake3_keyed_length.
Qed.

Lemma verify_envelope_iff_witness :
  fst (verify_envelope (C := toy_crypto) (make_envelope (bytes_of_string "secret") 7 1000 (replicate 16 x01) [x09])
    (bytes_of_string "secret") [x09] 1010 30 (ReplayCache.mk 4 ∅ [])) = Ok (mk_claims 7 1000 (replicate 16 x01)).
Proof.
  pose proof (verify_envelope_iff toy_crypto toy_crypto_laws
    (make_envelope (bytes_of_string "secret") 7 1000 (replicate 16 x01) [x09]) (bytes_of_string "secret") [x09] 1010 30
    (ReplayCache.mk 4 ∅ []) (mk_claims 7 1000 (replicate 16 x01))) as H.
  destruct (verify_envelope _ _ _ _ _ _) as [r c']. apply H.
  split_and!; try reflexivity; vm_compute; congruence.
Defined.

(** no proof is accepted twice.  Once an envelope that is not dated in the
    future has been accepted, the same envelope is refused at every later time,
    whatever other envelopes are checked in between, as long as fewer of them
    are accepted than the cache holds, and also under another secret or on another connection. *)
Theorem proof_accepted_once (C : Crypto) (L : CryptoLaws C) (envelope : bytes) (secret secret2 : bytes)
    (ex ex2 : bytes) (now1 now2 w : N) (c c1 : ReplayCache.t) (a : AuthClaims) (l : list (bytes * N)) :
  ReplayCache.inv c -> now1 + w + 1 < U64 ->
  verify_envelope envelope secret ex now1 w c = (Ok a, c1) -> timestamp a <= now1 ->
  now1 <= now2 -> Forall (fun '(_, now) => now <= now2) l ->
  let '(accepted, c2) := ReplayCache.checks w l c1 in
  (accepted < ReplayCache.capacity c)%nat ->
  is_ok (fst (verify_envelope envelope secret2 ex2 now2 w c2)) = false.
Proof.
  intros Hi Hw Hv Hts Hle HF.
  destruct (malformed envelope) as [[]|e|] eqn:Hwf;
    [by rewrite verify_malformed in Hv by (by rewrite Hwf)| |
     by rewrite verify_malformed in Hv by (by rewrite Hwf)..].
  apply malformed_inv in Hwf as (id & ts & n & mac & Hid & Hts' & Hn & Hm & ->).
  rewrite verify_well_formed in Hv by done.
  destruct (id =? 0) eqn:Ez; [done|]. destruct (w <? abs_diff now1 ts) eqn:Eexp; [done|].
  destruct (negb _) eqn:Emac; [done|].
  destruct (ReplayCache.check_and_insert n now1 w c) as [fresh c1'] eqn:Hchk.
  destruct fresh; [|done]. injection Hv as <- <-. cbn in Hts.
  destruct (ReplayCache.check_accepts n now1 w c Hi) as [Hq Hcap]; [by rewrite Hchk|].
  pose proof (ReplayCache.check_inv n now1 w c Hi) as Hi1. rewrite Hchk in Hq, Hcap, Hi1. cbn in Hq, Hcap, Hi1.
  assert (sat_add64 (sat_add64 now1 w) 1 = now1 + w + 1) as He by (unfold sat_add64; width_lia).
  rewrite He in Hq.
  destruct (N.le_gt_cases now2 (now1 + w)) as [Hin|Hout].
  - pose proof (ReplayCache.checks_queued n (now1 + w + 1) w l 0 c1' Hi1 Hq) as Hqs.
    pose proof (ReplayCache.checks_inv w l c1' Hi1) as Hi2.
    destruct (ReplayCache.checks w l c1') as [m c2]. intros Hroom. cbn [snd] in Hi2.
    destruct Hqs as [Hq2 _]; [|lia|].
    { eapply Forall_impl; [exact HF|]. intros [x t] Ht. cbn beta iota in Ht |- *. lia. }
    rewrite verify_well_formed by done. rewrite Ez.
    pose proof (ReplayCache.check_queued n _ _ n now2 w c2 Hi2 Hq2 ltac:(lia)) as Hdup.
    destruct (ReplayCache.check_and_insert n now2 w c2) as [fresh c3].
    destruct Hdup as [Hdup _]. rewrite (Hdup eq_refl).
    destruct (w <? abs_diff now2 ts); [done|]. clear Emac. by destruct (negb _).
  - destruct (ReplayCache.checks w l c1') as [m c2]. intros _.
    rewrite verify_well_formed by done. rewrite Ez.
    assert ((w <? abs_diff now2 ts) = true) as ->; [|done].
    apply N.ltb_lt. unfold abs_diff. lia.
Qed.

Definition sample_cache : ReplayCache.t := ReplayCache.mk 4 ∅ [].
Definition sample_envelope : bytes :=
  make_envelope (C := toy_crypto) (bytes_of_string "secret") 7 1000 (replicate 16 x01) [x09].

Lemma proof_accepted_once_witness :
  is_ok (fst (verify_envelope (C := toy_crypto) sample_envelope (bytes_of_string "secret") [x09] 1025 30
    (snd (ReplayCache.checks 30 [(replicate 16 x02, 1012)]
      (snd (verify_envelope sample_envelope (bytes_of_string "secret") [x09] 1010 30 sample_cache)))))) = false.
Proof.
  pose proof (proof_accepted_once toy_crypto toy_crypto_laws sample_envelope (bytes_of_string "secret") (bytes_of_string "secret")
    [x09] [x09] 1010 1025 30
    sample_cache (snd (verify_envelope sample_envelope (bytes_of_string "secret") [x09] 1010 30 sample_cache))
    (mk_claims 7 1000 (replicate 16 x01)) [(replicate 16 x02, 1012)]) as H.
  destruct (ReplayCache.checks 30 _ _) as [m c2] eqn:E. cbn [snd]. apply H.
  - apply ReplayCache.empty_inv. lia.
  - reflexivity.
  - vm_compute. reflexivity.
  - vm_compute. congruence.
  - lia.
  - repeat constructor. lia.
  - apply (f_equal fst) in E. vm_compute in E. subst m. cbn. lia.
Defined.

(** the exception.  The cache forgets a nonce one second after the window
    counted from its acceptance, not from its timestamp: an envelope dated [k]
    seconds ahead, [0 < k <= w], is accepted, and is accepted again at the
    moment its entry expires, while its timestamp is still within the window. *)
Theorem future_dated_replay (C : Crypto) (L : CryptoLaws C) (secret : bytes) (id now w k : N)
    (n ex : bytes) (capacity : nat) :
  0 < id < U64 -> length n = 16%nat -> 0 < k <= w -> now + w + 1 < U64 -> (0 < capacity)%nat ->
  let envelope := make_envelope secret id (now + k) n ex in
  let a := mk_claims id (now + k) n in
  let '(r1, c1) := verify_envelope envelope secret ex now w (ReplayCache.mk capacity ∅ []) in
  let '(r2, _) := verify_envelope envelope secret ex (now + w + 1) w c1 in
  r1 = Ok a /\ r2 = Ok a.
Proof.
  intros Hid Hn Hk Hw Hcap envelope a. unfold envelope, make_envelope.
  rewrite verify_well_formed by (done || (by destruct Hid) || lia || apply blake3_keyed_length).
  rewrite (proj2 (N.eqb_neq id 0)) by lia.
  rewrite (proj2 (N.ltb_ge w (abs_diff now (now + k)))) by (unfold abs_diff; lia).
  rewrite bool_decide_true by done. cbn [negb].
  assert (sat_add64 (sat_add64 now w) 1 = now + w + 1) as He by (unfold sat_add64; width_lia).
  assert (ReplayCache.check_and_insert n now w (ReplayCache.mk capacity ∅ [])
    = (true, ReplayCache.mk capacity {[n := now + w + 1]} [(n, now + w + 1)])) as ->.
  { unfold ReplayCache.check_and_insert. cbn [ReplayCache.order ReplayCache.entries ReplayCache.capacity
      ReplayCache.expire]. rewrite lookup_empty, bool_decide_false by (by intros [? ?]).
    destruct capacity as [|m]; [lia|]. cbn [ReplayCache.evict]. rewrite map_size_empty. cbn.
    by rewrite He. }
  rewrite verify_well_formed by (done || (by destruct Hid) || lia || apply blake3_keyed_length).
  rewrite (proj2 (N.eqb_neq id 0)) by lia.
  rewrite (proj2 (N.ltb_ge w (abs_diff (now + w + 1) (now + k)))) by (unfold abs_diff; lia).
  rewrite bool_decide_true by done. cbn [negb].
  destruct (ReplayCache.check_and_insert n (now + w + 1) w _) as [fresh c2] eqn:Hchk.
  assert (fresh = true) as ->; [|done].
  unfold ReplayCache.check_and_insert in Hchk. cbn [ReplayCache.order ReplayCache.entries
    ReplayCache.capacity ReplayCache.expire] in Hchk. rewrite N.ltb_irrefl in Hchk.
  assert (ReplayCache.forget n (now + w + 1) {[n := now + w + 1]} = ∅) as Hforget.
  { unfold ReplayCache.forget. rewrite lookup_singleton_eq, bool_decide_true by done.
    apply delete_singleton_eq. }
  rewrite Hforget, lookup_empty, bool_decide_false in Hchk by (by intros [? ?]).
  destruct (ReplayCache.evict _ _ _). congruence.
Qed.

Lemma future_dated_replay_witness :
  let envelope := make_envelope (C := toy_crypto) (bytes_of_string "secret") 7 (1000 + 30) (replicate 16 x01) [x09] in
  let a := mk_claims 7 (1000 + 30) (replicate 16 x01) in
  let '(r1, c1) := verify_envelope envelope (bytes_of_string "secret") [x09] 1000 30 (ReplayCache.mk 4 ∅ []) in
  let '(r2, _) := verify_envelope envelope (bytes_of_string "secret") [x09] (1000 + 30 + 1) 30 c1 in
  r1 = Ok a /\ r2 = Ok a.
Proof.
  apply (future_dated_replay toy_crypto toy_crypto_laws (bytes_of_string "secret") 7 1000 30 30 (replicate 16 x01) [x09] 4).
  - split; reflexivity.
  - reflexivity.
  - lia.
  - reflexivity.
  - lia.
Defined.
