(* ===== verification/Carrier.v ===== *)
(** * The QUIC DATAGRAM carrier (src/src/quic_relay.rs)

    A relayed datagram travels as carrier fragments: [send_carrier] cuts it,
    [CarrierReassembly.push] puts it together.  The reliable alternative frames
    datagrams on a stream: [write_stream_datagram], [read_stream_datagram].
    What a connection or a stream does with the bytes is not modelled: a sender
    returns the datagrams it hands to the connection, a reader takes the bytes
    of the stream. *)
From S2P Require Import Prelude.

Definition MAX_DATAGRAM : nat := N.to_nat 65535.
Definition CARRIER_HEADER : nat := 12.
Definition MAX_CARRIER_FRAGMENTS : nat := 128.
Definition MAX_CARRIER_GROUPS : nat := 2048.
Definition CARRIER_TTL : N := 3000000000.
Definition CARRIER_PING : bytes := bytes_of_string "SFT-Q-PING-1".
Definition CARRIER_PONG : bytes := bytes_of_string "SFT-Q-PONG-1".

Module CarrierReassembly.
(** [struct CarrierGroup] *)
Record group := mk_group {
  created : N;
  parts : list (option bytes);
}.

(** [struct CarrierReassembly] *)
Abbreviation t := (gmap N group).

Definition is_none {A} (o : option A) : bool := match o with None => true | Some _ => false end.

(** [group.parts.iter().map(|part| part.as_ref().unwrap().len()).sum()] and the
    loop that appends the parts: both unwrap every part. *)
Fixpoint unwrap_all (parts : list (option bytes)) : result (list bytes) :=
  match parts with
  | [] => Ok []
  | o :: parts => p ← unwrap o; ps ← unwrap_all parts; Ok (p :: ps)
  end.

(** [CarrierReassembly::push] at time [now] *)
Definition push (now : N) (frame : bytes) : method t (option bytes) :=
  if (length frame <? CARRIER_HEADER)%nat then bail "short QUIC carrier fragment"%string else
  message ← lift (slice frame 0 8);
  index ← lift (slice frame 8 10);
  count ← lift (slice frame 10 12);
  let message := from_be_bytes message in
  let index := N.to_nat (from_be_bytes index) in
  let count := N.to_nat (from_be_bytes count) in
  if (count =? 0)%nat || (MAX_CARRIER_FRAGMENTS <? count)%nat || (count <=? index)%nat
  then bail "invalid QUIC carrier dimensions"%string else
  _ ← modify (filter (fun '(_, g) => now - created g <= CARRIER_TTL));
  groups ← get;
  if bool_decide (groups !! message = None) && (MAX_CARRIER_GROUPS <=? size groups)%nat
  then bail "QUIC carrier reassembly limit reached"%string else
  let g := default (mk_group now (replicate count None)) (groups !! message) in
  _ ← put (<[message := g]> groups);
  if negb (length (parts g) =? count)%nat
  then bail "inconsistent QUIC carrier fragment count"%string else
  slot ← lift (elem_at (parts g) index);
  data ← lift (slice frame CARRIER_HEADER (length frame));
  let parts' := match slot with Some _ => parts g | None => <[index := Some data]> (parts g) end in
  _ ← put (<[message := mk_group (created g) parts']> groups);
  if existsb is_none parts' then mret None else
  _ ← modify (delete message);
  pieces ← lift (unwrap_all parts');
  let payload := concat pieces in
  if (MAX_DATAGRAM <? length payload)%nat
  then bail "reassembled QUIC carrier datagram too large"%string else
  mret (Some payload).
End CarrierReassembly.

(** [message.wrapping_add(1)] *)
Definition next_message (message : N) : N := as_u64 (message + 1).

(** One carrier fragment, as [send_carrier] builds it. *)
Definition carrier_frame (message : N) (index count : nat) (part : bytes) : bytes :=
  u64_be message ++ u16_be (as_u16 (N.of_nat index)) ++ u16_be (as_u16 (N.of_nat count)) ++ part.

(** [send_carrier]: the state is the message counter, [maximum] the
    connection's [max_datagram_size()]; the result lists the datagrams sent. *)
Definition send_carrier (maximum : option nat) (payload : bytes) : method N (list bytes) :=
  maximum ← lift (context "peer did not negotiate QUIC DATAGRAM"%string maximum);
  if (maximum <=? CARRIER_HEADER)%nat
  then bail "negotiated QUIC DATAGRAM size is too small"%string else
  let chunk := (maximum - CARRIER_HEADER)%nat in
  let count := div_ceil (length payload `max` 1) chunk in
  if (MAX_CARRIER_FRAGMENTS <? count)%nat
  then bail "QUIC carrier requires too many fragments"%string else
  _ ← modify next_message;
  message ← get;
  let sent := imap (fun index part => carrier_frame message index count part) (chunks chunk payload) in
  mret (sent ++ (match payload with [] => [carrier_frame message 0 1 []] | _ => [] end)).

(** [write_stream_datagram]: the bytes written. *)
Definition write_stream_datagram (payload : bytes) : result bytes :=
  if (MAX_DATAGRAM <? length payload)%nat then Err "stream carrier datagram is too large"%string
  else Ok (u32_be (as_u32 (N.of_nat (length payload))) ++ payload).

(** [read_stream_datagram] *)
Definition read_stream_datagram : method bytes bytes :=
  header ← read_exact 4;
  let size := N.to_nat (from_be_bytes header) in
  if (MAX_DATAGRAM <? size)%nat then bail "stream carrier datagram is too large"%string else
  read_exact size.

(** What the server's relay loop does with an incoming QUIC datagram: the reply
    sent back and the datagram passed to the upstream socket. *)
Definition on_datagram (now : N) (incoming : bytes)
    : method CarrierReassembly.t (option bytes * option bytes) :=
  if bool_decide (incoming = CARRIER_PING) then mret (Some CARRIER_PONG, None)
  else payload ← CarrierReassembly.push now incoming; mret (None, payload).

(** Fragments arriving one after another, with their arrival times. *)
Fixpoint push_all (arrivals : list (N * bytes)) : method CarrierReassembly.t (list (option bytes)) :=
  match arrivals with
  | [] => mret []
  | (now, frame) :: arrivals =>
      out ← CarrierReassembly.push now frame;
      rest ← push_all arrivals;
      mret (out :: rest)
  end.

(** Datagrams written to a stream one after another, and [n] read back. *)
Fixpoint write_all (payloads : list bytes) : result bytes :=
  match payloads with
  | [] => Ok []
  | p :: payloads => w ← write_stream_datagram p; ws ← write_all payloads; Ok (w ++ ws)
  end.

Fixpoint read_all (n : nat) : method bytes (list bytes) :=
  match n with
  | O => mret []
  | S n => p ← read_stream_datagram; ps ← read_all n; mret (p :: ps)
  end.

(** ** Lemmas *)
Lemma MAX_DATAGRAM_val : N.of_nat MAX_DATAGRAM = 65535.
Proof. apply N2Nat.id. Qed.

#[global] Opaque MAX_DATAGRAM MAX_CARRIER_GROUPS.

(** The pieces of a payload, at least one. *)
Definition carrier_pieces (chunk : nat) (payload : bytes) : list bytes :=
  match payload with [] => [[]] | _ => chunks chunk payload end.

Lemma carrier_pieces_concat chunk payload :
  (0 < chunk)%nat -> concat (carrier_pieces chunk payload) = payload.
Proof. intros. destruct payload; [done|]. by apply chunks_concat. Qed.

Lemma length_carrier_pieces chunk payload :
  (0 < chunk)%nat -> length (carrier_pieces chunk payload) = div_ceil (length payload `max` 1) chunk.
Proof.
  intros Hc. destruct payload as [|b l].
  - symmetry. apply div_ceil_unique; cbn; lia.
  - cbn [carrier_pieces]. rewrite length_chunks by done. f_equal. cbn [length]. lia.
Qed.

Lemma carrier_pieces_bounded chunk payload :
  (0 < chunk)%nat -> Forall (fun c => length c <= chunk)%nat (carrier_pieces chunk payload).
Proof.
  intros Hc. destruct payload as [|b l]; [repeat constructor; cbn; lia|].
  cbn [carrier_pieces]. eapply Forall_impl; [by apply chunks_length_each|]. cbn. lia.
Qed.

Lemma send_carrier_spec maximum payload m :
  (CARRIER_HEADER < maximum)%nat ->
  let chunk := (maximum - CARRIER_HEADER)%nat in
  let pieces := carrier_pieces chunk payload in
  (length pieces <= MAX_CARRIER_FRAGMENTS)%nat ->
  send_carrier (Some maximum) payload m
  = (Ok (imap (fun i p => carrier_frame (next_message m) i (length pieces) p) pieces), next_message m).
Proof.
  intros Hmax chunk pieces Hn. assert (0 < chunk)%nat as Hc by (unfold chunk; lia).
  unfold send_carrier. unfold_method. cbn [context].
  rewrite (proj2 (Nat.leb_gt _ _)) by done. fold chunk.
  pose proof (length_carrier_pieces chunk payload Hc) as Hl. fold pieces in Hl. rewrite <- Hl.
  rewrite (proj2 (Nat.ltb_ge _ _)) by done. unfold pieces, carrier_pieces.
  destruct payload; [done|]. by rewrite app_nil_r.
Qed.

Lemma length_carrier_frame m i n p : length (carrier_frame m i n p) = (CARRIER_HEADER + length p)%nat.
Proof. unfold carrier_frame, CARRIER_HEADER. len. Qed.

(** The parts present once the positions [got] have arrived. *)
Definition present (pieces : list bytes) (got : gset nat) : list (option bytes) :=
  (fun i => if bool_decide (i ∈ got) then pieces !! i else None) <$> seq 0 (length pieces).

Definition whole_message (pieces : list bytes) (got : gset nat) : Prop :=
  Forall (.∈ got) (seq 0 (length pieces)).

#[global] Instance whole_message_dec pieces got : Decision (whole_message pieces got).
Proof. unfold whole_message. apply _. Defined.

Lemma length_present pieces got : length (present pieces got) = length pieces.
Proof. unfold present. by rewrite length_fmap, length_seq. Qed.

Lemma present_lookup pieces got i c :
  pieces !! i = Some c -> present pieces got !! i = Some (if bool_decide (i ∈ got) then Some c else None).
Proof.
  intros Hc. unfold present. rewrite lookup_tabulate by (by apply lookup_lt_Some in Hc). by rewrite Hc.
Qed.

Lemma present_insert pieces got i c :
  pieces !! i = Some c -> <[i := Some c]> (present pieces got) = present pieces ({[i]} ∪ got).
Proof.
  intros Hc. unfold present. rewrite insert_tabulate. apply tabulate_ext. intros j _.
  case_bool_decide as E.
  - subst. rewrite bool_decide_true by set_solver. by rewrite Hc.
  - erewrite bool_decide_ext; [done|]. rewrite elem_of_union, elem_of_singleton. tauto.
Qed.

Lemma present_empty pieces : present pieces ∅ = replicate (length pieces) None.
Proof.
  apply list_eq. intros i. destruct (decide (i < length pieces)%nat).
  - unfold present. rewrite lookup_tabulate, lookup_replicate_2 by done. done.
  - rewrite !lookup_ge_None_2; [done|rewrite length_replicate; lia|rewrite length_present; lia].
Qed.

Lemma present_whole pieces got : whole_message pieces got -> present pieces got = Some <$> pieces.
Proof.
  intros Hw. apply list_eq. intros i. rewrite list_lookup_fmap.
  destruct (pieces !! i) as [c|] eqn:Hc; cbn.
  - rewrite (present_lookup _ _ _ _ Hc), bool_decide_true; [done|].
    unfold whole_message in Hw. rewrite Forall_forall in Hw. apply Hw, elem_of_seq.
    apply lookup_lt_Some in Hc. lia.
  - apply lookup_ge_None. rewrite length_present. by apply lookup_ge_None.
Qed.

Lemma is_none_present pieces got :
  existsb CarrierReassembly.is_none (present pieces got) = negb (bool_decide (whole_message pieces got)).
Proof.
  case_bool_decide as Hw.
  - rewrite present_whole by done. cbn. induction pieces as [|c l IH] in |-*; [done|]. cbn. done.
  - cbn. apply existsb_exists. apply not_Forall_Exists in Hw; [|apply _].
    apply Exists_exists in Hw as (i & Hi & Hn). apply elem_of_seq in Hi.
    destruct (lookup_lt_is_Some_2 pieces i) as [c Hc]; [lia|].
    exists None. split; [|done]. apply list_elem_of_In.
    apply list_elem_of_lookup_2 with (i := i). rewrite (present_lookup _ _ _ _ Hc).
    by rewrite bool_decide_false.
Qed.

Lemma unwrap_all_omap parts :
  existsb CarrierReassembly.is_none parts = false -> CarrierReassembly.unwrap_all parts = Ok (omap id parts).
Proof.
  induction parts as [|[p|] parts IH]; cbn; intros H; [done| |done]. by rewrite (IH H).
Qed.

(** ** One fragment of a message *)
Section message.
Context (m T : N) (pieces : list bytes).
Hypothesis Hm : m < U64.
Hypothesis Hn : (length pieces <= MAX_CARRIER_FRAGMENTS)%nat.

(** The message's entry once the positions [got] have arrived. *)
Definition entry_ok (got : gset nat) (groups : CarrierReassembly.t) : Prop :=
  match groups !! m with
  | None => got = ∅ /\ (size groups < MAX_CARRIER_GROUPS)%nat
  | Some g => T <= CarrierReassembly.created g /\ CarrierReassembly.parts g = present pieces got
  end.

(** The fields [push] reads from a fragment. *)
Lemma frame_fields i c :
  (i < length pieces)%nat ->
  let f := carrier_frame m i (length pieces) c in
  slice (E := string) f 0 8 = Ok (u64_be m) /\
  slice (E := string) f 8 10 = Ok (u16_be (N.of_nat i)) /\
  slice (E := string) f 10 12 = Ok (u16_be (N.of_nat (length pieces))) /\
  slice (E := string) f CARRIER_HEADER (length f) = Ok c.
Proof.
  intros Hi f. unfold MAX_CARRIER_FRAGMENTS in Hn.
  assert (as_u16 (N.of_nat i) = N.of_nat i) as Hi' by (apply as_u16_small; width_lia).
  assert (as_u16 (N.of_nat (length pieces)) = N.of_nat (length pieces)) as Hn'
    by (apply as_u16_small; width_lia).
  unfold f, carrier_frame. rewrite Hi', Hn'. split_and!; [by slices..|].
  rewrite !app_assoc. apply slice_suffix. unfold CARRIER_HEADER. len.
Qed.

(** What [push] does with a fragment of the message. *)
Lemma push_fragment now i c (groups : CarrierReassembly.t) :
  (i < length pieces)%nat ->
  let live := filter (fun '(_, g) => now - CarrierReassembly.created g <= CARRIER_TTL) groups in
  let g := default (CarrierReassembly.mk_group now (replicate (length pieces) None)) (live !! m) in
  let parts' := match CarrierReassembly.parts g !! i with
    | Some (Some _) => CarrierReassembly.parts g | _ => <[i := Some c]> (CarrierReassembly.parts g) end in
  CarrierReassembly.push now (carrier_frame m i (length pieces) c) groups =
  if bool_decide (live !! m = None) && (MAX_CARRIER_GROUPS <=? size live)%nat
  then (Err "QUIC carrier reassembly limit reached"%string, live) else
  if negb (length (CarrierReassembly.parts g) =? length pieces)%nat
  then (Err "inconsistent QUIC carrier fragment count"%string, <[m := g]> live) else
  if existsb CarrierReassembly.is_none parts'
  then (Ok None, <[m := CarrierReassembly.mk_group (CarrierReassembly.created g) parts']> live) else
  (if (MAX_DATAGRAM <? length (concat (omap id parts')))%nat
   then Err "reassembled QUIC carrier datagram too large"%string
   else Ok (Some (concat (omap id parts'))), delete m live).
Proof.
  intros Hi live g parts'. destruct (frame_fields i c Hi) as (H1 & H2 & H3 & H4).
  unfold CarrierReassembly.push. unfold_method.
  rewrite (proj2 (Nat.ltb_ge _ CARRIER_HEADER)) by (rewrite length_carrier_frame; lia).
  rewrite H1, H2, H3, H4. rewrite from_u64_be by done.
  unfold MAX_CARRIER_FRAGMENTS in *. rewrite !from_u16_be by width_lia. rewrite !Nat2N.id.
  rewrite (proj2 (Nat.eqb_neq _ _)), (proj2 (Nat.ltb_ge _ _)), (proj2 (Nat.leb_gt _ _)) by lia.
  cbn [orb]. fold live. destruct (bool_decide _ && _); [done|]. fold g.
  destruct (Nat.eqb_spec (length (CarrierReassembly.parts g)) (length pieces)) as [Hg|]; [|done]. cbn [negb].
  destruct (lookup_lt_is_Some_2 (CarrierReassembly.parts g) i) as [slot Hslot]; [lia|].
  rewrite (elem_at_ok _ _ _ Hslot).
  assert (parts' = match slot with Some _ => CarrierReassembly.parts g | None => <[i:=Some c]> (CarrierReassembly.parts g) end)
    as <- by (unfold parts'; rewrite Hslot; by destruct slot).
  destruct (existsb _ parts') eqn:Hx; [done|].
  rewrite (unwrap_all_omap _ Hx), delete_insert_eq. by destruct (_ <? _)%nat.
Qed.

Lemma push_frame got now i c groups :
  entry_ok got groups -> T <= now <= T + CARRIER_TTL -> pieces !! i = Some c ->
  ~ whole_message pieces got ->
  exists groups',
    CarrierReassembly.push now (carrier_frame m i (length pieces) c) groups
    = (if decide (whole_message pieces ({[i]} ∪ got)) then
         if (MAX_DATAGRAM <? length (concat pieces))%nat
         then Err "reassembled QUIC carrier datagram too large"%string
         else Ok (Some (concat pieces))
       else Ok None, groups') /\
    (if decide (whole_message pieces ({[i]} ∪ got)) then groups' !! m = None
     else entry_ok ({[i]} ∪ got) groups' /\ groups' !! m <> None) /\
    (forall m', m' <> m -> groups' !! m' =
       filter (fun '(_, g) => now - CarrierReassembly.created g <= CARRIER_TTL) groups !! m').
Proof.
  intros He Hnow Hc Hnot. pose proof (lookup_lt_Some _ _ _ Hc) as Hi.
  rewrite push_fragment by done. set (live := filter _ groups).
  assert (entry_ok got live) as Hlive.
  { unfold entry_ok in *. destruct (groups !! m) as [g|] eqn:Hg.
    - assert (live !! m = Some g) as ->; [|done].
      apply map_lookup_filter_Some. split; [done|]. unfold CARRIER_TTL in *. lia.
    - assert (live !! m = None) as ->.
      { apply map_lookup_filter_None. by left. }
      destruct He as [-> Hs]. split; [done|].
      eapply Nat.le_lt_trans; [apply map_size_filter|done]. }
  assert (bool_decide (live !! m = None) && (MAX_CARRIER_GROUPS <=? size live)%nat = false) as ->.
  { unfold entry_ok in Hlive. case_bool_decide as Hnone; [|done]. rewrite Hnone in Hlive.
    cbn [andb]. apply Nat.leb_gt. tauto. }
  assert (exists cr, default (CarrierReassembly.mk_group now (replicate (length pieces) None)) (live !! m)
    = CarrierReassembly.mk_group cr (present pieces got) /\ T <= cr) as (cr & -> & Hcr).
  { unfold entry_ok in Hlive. destruct (live !! m) as [[cr ps]|]; cbn in *.
    - exists cr. destruct Hlive as [? ->]. done.
    - exists now. destruct Hlive as [-> _]. rewrite present_empty. split; [done|lia]. }
  cbn [CarrierReassembly.parts CarrierReassembly.created].
  rewrite length_present, Nat.eqb_refl. cbn [negb]. rewrite (present_lookup pieces got i c Hc).
  assert ((match Some (if bool_decide (i ∈ got) then Some c else None) with
    | Some (Some _) => present pieces got | _ => <[i:=Some c]> (present pieces got) end)
    = present pieces ({[i]} ∪ got)) as ->.
  { case_bool_decide.
    - by rewrite subseteq_union_1_L by set_solver.
    - by apply present_insert. }
  rewrite is_none_present, bool_decide_decide.
  destruct (decide (whole_message pieces ({[i]} ∪ got))) as [Hw|Hw]; cbn [negb].
  - rewrite present_whole, omap_id_Some by done.
    destruct (_ <? _)%nat; (eexists; split; [done|]); (split; [apply lookup_delete_eq|]); intros m' Hm';
      by rewrite lookup_delete_ne.
  - eexists. split; [done|]. unfold entry_ok. rewrite lookup_insert_eq. split; [done|].
    intros m' Hm'. by rewrite lookup_insert_ne.
Qed.

Lemma push_all_open got ks arrivals groups :
  entry_ok got groups ->
  Forall2 (fun '(now, f) k => T <= now <= T + CARRIER_TTL /\ exists c,
    pieces !! k = Some c /\ f = carrier_frame m k (length pieces) c) arrivals ks ->
  ~ whole_message pieces (list_to_set ks ∪ got) ->
  exists groups', push_all arrivals groups = (Ok (replicate (length ks) None), groups') /\
    entry_ok (list_to_set ks ∪ got) groups'.
Proof.
  intros He HF Hopen. revert got groups He Hopen.
  induction HF as [|[now f] k arrivals ks (Hnow & c & Hc & ->) _ IH]; intros got groups He Hopen.
  - exists groups. cbn. rewrite (left_id_L ∅ (∪)). done.
  - assert (list_to_set (k :: ks) ∪ got = list_to_set ks ∪ ({[k]} ∪ got) :> gset nat) as Heq.
    { cbn. rewrite (assoc_L (∪)). by rewrite (comm_L (∪) {[k]}). }
    rewrite Heq in Hopen |- *.
    assert (forall X, X ⊆ list_to_set ks ∪ ({[k]} ∪ got) -> ~ whole_message pieces X) as Hsub.
    { intros X HX Hw. apply Hopen. unfold whole_message in *. eapply Forall_impl; [exact Hw|].
      cbn. intros x Hx. by apply HX. }
    destruct (push_frame got now k c groups He Hnow Hc) as (g1 & Hpush & Hrest & _);
      [apply Hsub; set_solver|].
    destruct (decide _) as [Hw|_] in Hpush, Hrest; [by destruct (Hsub _ (union_subseteq_r _ _) Hw)|].
    destruct (IH ({[k]} ∪ got) g1) as (g2 & Hall & He2); [by destruct Hrest|done|].
    exists g2. split; [|done]. cbn [push_all]. unfold_method. rewrite Hpush, Hall. done.
Qed.
End message.

Lemma push_all_snoc arrivals now f groups g1 g2 outs out :
  push_all arrivals groups = (Ok outs, g1) ->
  CarrierReassembly.push now f g1 = (Ok out, g2) ->
  push_all (arrivals ++ [(now, f)]) groups = (Ok (outs ++ [out]), g2).
Proof.
  revert groups outs. induction arrivals as [|[t e] arrivals IH]; intros groups outs H Hlast.
  - injection H as <- <-. cbn. unfold_method. by rewrite Hlast.
  - cbn [app push_all] in *. revert H. unfold_method.
    destruct (CarrierReassembly.push t e groups) as [[o| |] g0]; [|done..].
    destruct (push_all arrivals g0) as [[os| |] g0'] eqn:E; [|done..].
    intros [= <- ->]. by rewrite (IH _ _ E Hlast).
Qed.

(** ** Invariant of the reassembly table *)
Definition group_open (_ : N) (g : CarrierReassembly.group) : Prop :=
  (0 < length (CarrierReassembly.parts g) <= MAX_CARRIER_FRAGMENTS)%nat /\
  existsb CarrierReassembly.is_none (CarrierReassembly.parts g) = true.

(** At most 2048 messages, each with 1 to 128 positions, one of them missing. *)
Definition table_ok (groups : CarrierReassembly.t) : Prop :=
  map_Forall group_open groups /\ (size groups <= MAX_CARRIER_GROUPS)%nat.

Lemma table_ok_empty : table_ok ∅.
Proof. split; [apply map_Forall_empty|]. rewrite map_size_empty. lia. Qed.

Lemma replicate_open n : (0 < n)%nat -> existsb CarrierReassembly.is_none (replicate n (@None bytes)) = true.
Proof. destruct n; [lia|done]. Qed.

(** Storing the entry a fragment belongs to keeps the table's bounds. *)
Lemma table_ok_insert groups m g :
  table_ok groups -> group_open m g ->
  bool_decide (groups !! m = None) && (MAX_CARRIER_GROUPS <=? size groups)%nat = false ->
  table_ok (<[m := g]> groups).
Proof.
  intros [HF Hs] Hg Hroom. split; [by apply map_Forall_insert_2|].
  rewrite map_size_insert. destruct (groups !! m) as [x|] eqn:E; [done|].
  rewrite bool_decide_true in Hroom by done. cbn in Hroom. apply Nat.leb_gt in Hroom. cbn. lia.
Qed.

Lemma table_ok_filter P `{!forall x, Decision (P x)} groups : table_ok groups -> table_ok (filter P groups).
Proof.
  intros [HF Hs]. split.
  - intros k g Hk. apply map_lookup_filter_Some in Hk as [Hk _]. by apply (HF k g).
  - etrans; [apply map_size_filter|done].
Qed.

Lemma table_ok_delete groups m : table_ok groups -> table_ok (delete m groups).
Proof.
  intros [HF Hs]. split; [by apply map_Forall_delete|].
  rewrite map_size_delete. destruct (groups !! m); cbn; lia.
Qed.

(** A fragment stored in an entry that stays open. *)
Lemma table_ok_store (groups : CarrierReassembly.t) m g (index : nat) (slot : option bytes) data :
  table_ok groups -> table_ok (<[m := g]> groups) -> group_open m g ->
  let parts' := match slot with
    | Some _ => CarrierReassembly.parts g
    | None => <[index := Some data]> (CarrierReassembly.parts g) end in
  existsb CarrierReassembly.is_none parts' = true ->
  table_ok (<[m := CarrierReassembly.mk_group (CarrierReassembly.created g) parts']> groups).
Proof.
  intros Ht [HF Hs] [Hb _] parts' Hopen. split.
  - apply map_Forall_insert_2; [|by destruct Ht]. split; [|done].
    unfold parts'. destruct slot; cbn; by rewrite ?length_insert.
  - rewrite !map_size_insert in *. done.
Qed.

(** ** What [send_carrier] sends *)
Lemma send_carrier_inv maximum payload m0 frames m :
  send_carrier (Some maximum) payload m0 = (Ok frames, m) ->
  let pieces := carrier_pieces (maximum - CARRIER_HEADER) payload in
  (CARRIER_HEADER < maximum)%nat /\ (length pieces <= MAX_CARRIER_FRAGMENTS)%nat /\
  m = next_message m0 /\
  frames = imap (fun i p => carrier_frame m i (length pieces) p) pieces.
Proof.
  intros H pieces. assert (CARRIER_HEADER < maximum)%nat as Hmax.
  { unfold send_carrier in H. revert H. unfold_method. cbn [context].
    destruct (Nat.leb_spec maximum CARRIER_HEADER); [done|lia]. }
  assert (length pieces <= MAX_CARRIER_FRAGMENTS)%nat as Hn.
  { unfold pieces. rewrite length_carrier_pieces by lia. revert H. unfold send_carrier.
    unfold_method. cbn [context]. rewrite (proj2 (Nat.leb_gt _ _)) by done.
    destruct (Nat.ltb_spec MAX_CARRIER_FRAGMENTS
      (div_ceil (length payload `max` 1) (maximum - CARRIER_HEADER))); [done|lia]. }
  pose proof (send_carrier_spec maximum payload m0 Hmax Hn) as Hs. fold pieces in Hs.
  rewrite Hs in H. injection H as <- <-. done.
Qed.

(** A fragment's count field is at most 128, the heartbeats' is 0x2d31. *)
Lemma carrier_frame_not_control m i n p ping :
  (n <= MAX_CARRIER_FRAGMENTS)%nat -> slice (E := string) ping 10 12 = Ok [x2d; x31] ->
  carrier_frame m i n p <> ping.
Proof.
  intros Hn Hping <-. unfold MAX_CARRIER_FRAGMENTS in Hn.
  assert (as_u16 (N.of_nat n) = N.of_nat n) as Hn'
    by (apply as_u16_small; width_lia).
  assert (slice (E := string) (carrier_frame m i n p) 10 12 = Ok (u16_be (N.of_nat n))) as Hs.
  { unfold carrier_frame. rewrite Hn'. by slices. }
  rewrite Hs in Hping. apply Ok_inj in Hping as Hb.
  assert (from_be_bytes (u16_be (N.of_nat n)) = 11569) as Hv by (by rewrite Hb).
  rewrite from_u16_be in Hv by width_lia. lia.
Qed.

Lemma carrier_frame_fits m chunk payload i p :
  (0 < chunk)%nat -> carrier_pieces chunk payload !! i = Some p ->
  (length (carrier_frame m i (length (carrier_pieces chunk payload)) p) <= CARRIER_HEADER + chunk)%nat.
Proof.
  intros Hc Hp. pose proof (carrier_pieces_bounded chunk payload Hc) as HF.
  rewrite Forall_lookup in HF. rewrite length_carrier_frame. specialize (HF i p Hp). cbn in HF. lia.
Qed.

(** ** Stream framing *)
Lemma write_stream_datagram_Ok p :
  (length p <= MAX_DATAGRAM)%nat ->
  write_stream_datagram p = Ok (u32_be (N.of_nat (length p)) ++ p).
Proof.
  intros Hp. unfold write_stream_datagram. rewrite (proj2 (Nat.ltb_ge _ _)) by done.
  assert (as_u32 (N.of_nat (length p)) = N.of_nat (length p)) as ->; [|done].
  apply N.mod_small. pose proof MAX_DATAGRAM_val. width_lia.
Qed.

Lemma write_stream_datagram_inv p w :
  write_stream_datagram p = Ok w ->
  (length p <= MAX_DATAGRAM)%nat /\ w = u32_be (N.of_nat (length p)) ++ p.
Proof.
  intros H. assert (length p <= MAX_DATAGRAM)%nat as Hp.
  { unfold write_stream_datagram in H. destruct (Nat.ltb_spec MAX_DATAGRAM (length p)); [done|lia]. }
  rewrite (write_stream_datagram_Ok p Hp) in H. split; [done|congruence].
Qed.

Lemma read_written p rest :
  (length p <= MAX_DATAGRAM)%nat ->
  read_stream_datagram (u32_be (N.of_nat (length p)) ++ p ++ rest) = (Ok p, rest).
Proof.
  intros Hp. unfold read_stream_datagram. unfold_method.
  rewrite read_exact_app by apply length_u32_be. rewrite from_u32_be.
  2: { pose proof MAX_DATAGRAM_val. width_lia. }
  rewrite Nat2N.id, (proj2 (Nat.ltb_ge _ _)) by done. by rewrite read_exact_app.
Qed.

(** [push] never panics and keeps the table's bounds. *)
Lemma push_total (now : N) (frame : bytes) (groups : CarrierReassembly.t) :
  table_ok groups ->
  let '(r, groups') := CarrierReassembly.push now frame groups in
  no_panic r /\ table_ok groups' /\
  (forall payload, r = Ok (Some payload) -> (length payload <= MAX_DATAGRAM)%nat).
Proof.
  intros Ht. unfold CarrierReassembly.push. unfold_method.
  destruct (Nat.ltb_spec (length frame) CARRIER_HEADER) as [|Hlen]; [done|].
  unfold CARRIER_HEADER in *. rewrite !slice_ok by lia.
  set (index := N.to_nat (from_be_bytes (take (10 - 8) _))).
  set (count := N.to_nat (from_be_bytes (take (12 - 10) _))).
  destruct ((count =? 0)%nat || (MAX_CARRIER_FRAGMENTS <? count)%nat || (count <=? index)%nat) eqn:Hdim;
    [done|]. bool_to_prop.
  set (live := filter _ groups).
  assert (table_ok live) as Hlive by (by apply table_ok_filter).
  destruct (bool_decide _ && _) eqn:Hroom; [done|].
  set (g := default _ _). set (m := from_be_bytes (take (8 - 0) _)) in *.
  assert (group_open m g) as Hg.
  { unfold g. destruct (live !! m) as [g0|] eqn:E; cbn; [exact (proj1 Hlive m g0 E)|].
    split; cbn; [rewrite length_replicate; lia|apply replicate_open; lia]. }
  pose proof (table_ok_insert live m g Hlive Hg Hroom) as Hins.
  destruct (Nat.eqb_spec (length (CarrierReassembly.parts g)) count) as [Hc|]; [|done]. cbn [negb].
  destruct (lookup_lt_is_Some_2 (CarrierReassembly.parts g) index) as [slot Hslot]; [lia|].
  rewrite (elem_at_ok _ _ _ Hslot). cbv zeta.
  destruct (existsb _ (match slot with Some _ => _ | None => _ end)) eqn:Hx.
  - split_and!; [done| |done]. by apply table_ok_store.
  - rewrite (unwrap_all_omap _ Hx), delete_insert_eq. set (pieces := omap id _).
    assert (table_ok (delete m live)) as Hdel by (by apply table_ok_delete).
    destruct (Nat.ltb_spec MAX_DATAGRAM (length (concat pieces))); (split_and!; [done|done|]); [done|].
    by intros p [= <-].
Qed.

(** ** Properties *)

(** fragments sent through the QUIC DATAGRAM carrier come back as the
    datagram, in any order.  [send_carrier] cuts a datagram for a connection of
    datagram size [maximum]; no fragment is longer than [maximum] and none is
    mistaken for a heartbeat.  When every fragment reaches a reassembly that does not
    know the message number, in any order and with repetitions, within three
    seconds of the first, each arrival but the last needed one yields nothing,
    that one yields exactly the datagram, and the entry is gone. *)
Theorem carrier_roundtrip (maximum : nat) (payload : bytes) (m0 : N) (frames : list bytes) (m : N)
    (groups : CarrierReassembly.t) (T now : N) (arrivals : list (N * bytes)) (ks : list nat) (k : nat)
    (last : bytes) :
  send_carrier (Some maximum) payload m0 = (Ok frames, m) ->
  (length payload <= MAX_DATAGRAM)%nat ->
  groups !! m = None -> (size groups < MAX_CARRIER_GROUPS)%nat ->
  Forall2 (fun '(t, f) i => T <= t <= T + CARRIER_TTL /\ frames !! i = Some f) arrivals ks ->
  T <= now <= T + CARRIER_TTL -> frames !! k = Some last ->
  k ∉ ks -> (forall i, (i < length frames)%nat -> i ∈ k :: ks) ->
  Forall (fun f => (length f <= maximum)%nat /\ f <> CARRIER_PING /\ f <> CARRIER_PONG) frames /\
  exists groups',
    push_all (arrivals ++ [(now, last)]) groups
    = (Ok (replicate (length ks) None ++ [Some payload]), groups') /\
    groups' !! m = None.
Proof.
  intros Hsend Hp Hfresh Hroom HF Hnow Hlast Hk Hall.
  destruct (send_carrier_inv _ _ _ _ _ Hsend) as (Hmax & Hn & -> & ->).
  set (pieces := carrier_pieces _ payload) in *. set (m := next_message m0) in *.
  assert (m < U64) as Hm by apply as_u64_lt. assert (0 < maximum - CARRIER_HEADER)%nat as Hc by lia.
  split.
  { apply Forall_lookup. intros i f Hf. apply list_lookup_imap_Some in Hf as (p & Hpi & ->).
    split_and!; [|by apply carrier_frame_not_control..].
    pose proof (carrier_frame_fits m _ _ _ _ Hc Hpi). fold pieces in H. lia. }
  apply list_lookup_imap_Some in Hlast as (c & Hck & ->). rewrite length_imap in Hall.
  assert (entry_ok m T pieces ∅ groups) as He by (unfold entry_ok; rewrite Hfresh; done).
  destruct (push_all_open m T pieces Hm Hn ∅ ks arrivals groups He) as (g1 & Hopen & He1).
  { eapply Forall2_impl; [exact HF|]. intros [t f] i [Ht Hf]. split; [done|].
    by apply list_lookup_imap_Some in Hf. }
  { intros Hw. unfold whole_message in Hw. rewrite Forall_forall in Hw.
    specialize (Hw k). apply Hk. apply lookup_lt_Some in Hck.
    rewrite <- (elem_of_list_to_set (C := gset nat)).
    rewrite <- (right_id_L ∅ (∪) (list_to_set ks)). apply Hw, elem_of_seq. lia. }
  rewrite (right_id_L ∅ (∪)) in He1.
  assert (~ whole_message pieces (list_to_set ks)) as Hopen1.
  { intros Hw. unfold whole_message in Hw. rewrite Forall_forall in Hw. apply Hk.
    rewrite <- (elem_of_list_to_set (C := gset nat)). apply Hw, elem_of_seq.
    apply lookup_lt_Some in Hck. lia. }
  destruct (push_frame m T pieces Hm Hn _ now k c g1 He1 Hnow Hck Hopen1) as (g2 & Hpush & Hgone & _).
  assert (whole_message pieces ({[k]} ∪ list_to_set ks)) as Hw.
  { apply Forall_forall. intros i Hi. apply elem_of_seq in Hi. destruct Hi as [_ Hi].
    apply Hall, elem_of_cons in Hi. set_solver. }
  destruct (decide _) as [_|]; [|done]. exists g2. split; [|done].
  unfold pieces in Hpush at 2 3. rewrite carrier_pieces_concat in Hpush by done.
  rewrite (proj2 (Nat.ltb_ge _ _)) in Hpush by done.
  by rewrite (push_all_snoc _ _ _ _ _ _ _ _ Hopen Hpush).
Qed.

Definition demo_payload : bytes := bytes_of_string "hello".
Definition demo_fragments : list bytes :=
  match fst (send_carrier (Some 14%nat) demo_payload 6) with Ok fs => fs | _ => [] end.

Lemma carrier_roundtrip_witness :
  exists groups', push_all
    [(11, default [] (demo_fragments !! 2%nat)); (12, default [] (demo_fragments !! 0%nat));
     (13, default [] (demo_fragments !! 2%nat)); (14, default [] (demo_fragments !! 1%nat))] ∅
    = (Ok [None; None; None; Some demo_payload], groups').
Proof.
  destruct (carrier_roundtrip 14 demo_payload 6 demo_fragments 7 ∅ 10 14
    [(11, default [] (demo_fragments !! 2%nat)); (12, default [] (demo_fragments !! 0%nat));
     (13, default [] (demo_fragments !! 2%nat))] [2%nat; 0%nat; 2%nat] 1
    (default [] (demo_fragments !! 1%nat))) as (_ & groups' & H & _).
  - vm_compute. reflexivity.
  - apply Nat.leb_le. vm_compute. reflexivity.
  - reflexivity.
  - apply Nat.ltb_lt. vm_compute. reflexivity.
  - repeat constructor; try (vm_compute; discriminate); vm_compute; reflexivity.
  - vm_compute. split; discriminate.
  - vm_compute. reflexivity.
  - refine (bool_decide_unpack _ _). vm_compute. exact I.
  - intros i Hi. change (length demo_fragments) with 3%nat in Hi.
    destruct i as [|[|[|i]]]; [refine (bool_decide_unpack _ _); exact I..|lia].
  - exists groups'. exact H.
Defined.

(** no datagram can crash the carrier or exhaust it.  From a table of at
    most 2048 messages of 1 to 128 positions, one of them missing, every
    datagram, whatever its bytes, is either refused with an error or accepted
    without a panic (no index, slice or unwrap out of range), leaves such a
    table, and never yields a payload over 65535 bytes. *)
Theorem carrier_push_total (now : N) (frame : bytes) (groups : CarrierReassembly.t) :
  table_ok groups ->
  let '(r, groups') := CarrierReassembly.push now frame groups in
  no_panic r /\ table_ok groups' /\
  (forall payload, r = Ok (Some payload) -> (length payload <= MAX_DATAGRAM)%nat).
Proof. apply push_total. Qed.

Lemma carrier_push_total_witness :
  no_panic (fst (CarrierReassembly.push 5 (replicate 12 x00) ∅)).
Proof.
  pose proof (carrier_push_total 5 (replicate 12 x00) ∅) as H.
  destruct (CarrierReassembly.push 5 (replicate 12 x00) ∅) as [r g'].
  apply H. split; [apply map_Forall_empty|apply Nat.leb_le; vm_compute; reflexivity].
Defined.

(** the stream carrier frames datagrams faithfully.  What [n] calls of
    [write_stream_datagram] put on a stream, [n] calls of
    [read_stream_datagram] take off it, datagram by datagram in order, leaving
    the bytes behind them untouched; writing fails only on a datagram over
    65535 bytes, and a reader refuses a length field over 65535 having consumed
    only its four bytes. *)
Theorem stream_roundtrip (payloads : list bytes) (rest header : bytes) :
  (if forallb (fun p => length p <=? MAX_DATAGRAM)%nat payloads
   then exists ws, write_all payloads = Ok ws /\
     read_all (length payloads) (ws ++ rest) = (Ok payloads, rest)
   else write_all payloads = Err "stream carrier datagram is too large"%string) /\
  (length header = 4%nat -> 65535 < from_be_bytes header ->
   read_stream_datagram (header ++ rest) = (Err "stream carrier datagram is too large"%string, rest)).
Proof.
  split.
  - induction payloads as [|p ps IH]; [by exists []|]. cbn [forallb].
    destruct (Nat.leb_spec (length p) MAX_DATAGRAM) as [Hp|Hp]; cbn [andb].
    + cbn [write_all length read_all]. rewrite write_stream_datagram_Ok by done. cbn [mbind outcome_bind].
      destruct (forallb _ ps); [|by rewrite IH].
      destruct IH as (ws & -> & Hr). eexists. split; [reflexivity|]. unfold_method.
      rewrite <- !(assoc_L (++)). by rewrite read_written, Hr.
    + cbn [write_all]. unfold write_stream_datagram. by rewrite (proj2 (Nat.ltb_lt _ _)).
  - intros Hl Hb. unfold read_stream_datagram. unfold_method. rewrite read_exact_app by done.
    rewrite (proj2 (Nat.ltb_lt _ _)); [done|]. pose proof MAX_DATAGRAM_val. lia.
Qed.

Lemma stream_roundtrip_witness :
  read_stream_datagram ([x00; x01; x00; x00] ++ [x61]) = (Err "stream carrier datagram is too large"%string, [x61]).
Proof. apply (stream_roundtrip [] [x61] [x00; x01; x00; x00]); reflexivity. Defined.
