(* ===== verification/ProductConfig.v ===== *)
(** * The product configuration (src/src/product_config.rs)

    The profiles, the modules with their dependencies, the operator overrides,
    and [resolve_modules], which turns a configuration into the set of modules
    to run.  A [BTreeSet<ModuleId>] is a [gset] iterated in the derived order
    ([in_order]), a [BTreeMap] a [gmap] iterated the same way ([entries]). *)
From S2P Require Import Prelude.

Definition CURRENT_SCHEMA_VERSION : N := 1.

Inductive Profile := Standard | Enhanced | LowResource | Laboratory.

Inductive ModuleId :=
| Tuic | Masque | AdaptiveFec | Pmtu | DirectEgress | MultiWarp | StableGoogleEgress
| DnsDoh | DnsDotFallback | DnsDoq | Observability | AutomaticRollback.

Inductive ModuleSetting := Enabled | Disabled | Auto.

#[global] Instance Profile_eq_dec : EqDecision Profile.
Proof. solve_decision. Defined.
#[global] Instance ModuleSetting_eq_dec : EqDecision ModuleSetting.
Proof. solve_decision. Defined.

(** The modules in declaration order, which [derive(Ord)] makes the order of
    sets and maps. *)
Definition all_modules : list ModuleId :=
  [Tuic; Masque; AdaptiveFec; Pmtu; DirectEgress; MultiWarp; StableGoogleEgress;
   DnsDoh; DnsDotFallback; DnsDoq; Observability; AutomaticRollback].

Definition rank (m : ModuleId) : nat :=
  match m with
  | Tuic => 0 | Masque => 1 | AdaptiveFec => 2 | Pmtu => 3 | DirectEgress => 4 | MultiWarp => 5
  | StableGoogleEgress => 6 | DnsDoh => 7 | DnsDotFallback => 8 | DnsDoq => 9
  | Observability => 10 | AutomaticRollback => 11
  end.

Lemma lookup_rank m : all_modules !! rank m = Some m.
Proof. by destruct m. Qed.

#[global] Instance rank_inj : Inj (=) (=) rank.
Proof. intros x y H. pose proof (lookup_rank x) as Hx. rewrite H, lookup_rank in Hx. congruence. Qed.

#[global] Instance ModuleId_eq_dec : EqDecision ModuleId := fun x y =>
  match decide (rank x = rank y) with
  | left H => left (inj rank x y H)
  | right H => right (fun E => H (f_equal rank E))
  end.

#[global] Instance ModuleId_countable : Countable ModuleId :=
  inj_countable rank (fun n => all_modules !! n) lookup_rank.

(** [BTreeSet] and [BTreeMap] iteration. *)
Definition in_order (s : gset ModuleId) : list ModuleId := filter (.∈ s) all_modules.

Definition entries {A} (m : gmap ModuleId A) : list (ModuleId * A) :=
  omap (fun k => pair k <$> m !! k) all_modules.

(** [ModuleId::dependencies] *)
Definition dependencies (m : ModuleId) : list ModuleId :=
  match m with
  | AdaptiveFec => [Tuic; Pmtu]
  | MultiWarp => [DirectEgress]
  | StableGoogleEgress => [DirectEgress]
  | DnsDotFallback => [DnsDoh]
  | DnsDoq => [DirectEgress]
  | Tuic | Masque | Pmtu | DirectEgress | DnsDoh | Observability | AutomaticRollback => []
  end.

Record ServerConfig := mk_server {
  bandwidth_mbps : N;
  public_tcp_port : N;
  public_udp_port : N;
}.

Module ProductConfig.
Record t := mk {
  schema_version : N;
  profile : Profile;
  server : ServerConfig;
  modules : gmap ModuleId ModuleSetting;
}.

Inductive ConfigError :=
| UnsupportedSchema (found supported : N)
| ZeroBandwidth
| UnsafePublicPort
| MissingDependency (module dependency : ModuleId)
| ConflictingTransports
| ExperimentalModuleOutsideLaboratory (module : ModuleId).

(** [ProductConfig::for_profile] *)
Definition for_profile (profile : Profile) : t :=
  mk CURRENT_SCHEMA_VERSION profile (mk_server 30 443 443) ∅.

(** [profile_defaults] *)
Definition profile_defaults (profile : Profile) : gset ModuleId :=
  list_to_set match profile with
  | Standard => [Tuic; AdaptiveFec; Pmtu; DirectEgress; DnsDoh; DnsDotFallback; Observability;
      AutomaticRollback]
  | Enhanced => [Tuic; AdaptiveFec; Pmtu; DirectEgress; MultiWarp; StableGoogleEgress; DnsDoh;
      DnsDotFallback; Observability; AutomaticRollback]
  | LowResource => [Tuic; AdaptiveFec; Pmtu; DirectEgress; DnsDoh; AutomaticRollback]
  | Laboratory => [Masque; Pmtu; DirectEgress; DnsDoh; DnsDoq; Observability; AutomaticRollback]
  end.

(** [ProductConfig::validate_scalar_fields] *)
Definition validate_scalar_fields (c : t) : outcome ConfigError () :=
  if negb (schema_version c =? CURRENT_SCHEMA_VERSION)
  then Err (UnsupportedSchema (schema_version c) CURRENT_SCHEMA_VERSION) else
  if bandwidth_mbps (server c) =? 0 then Err ZeroBandwidth else
  if (public_tcp_port (server c) =? 0) || (public_udp_port (server c) =? 0)
  then Err UnsafePublicPort else Ok ().

(** The body of the loop over the overrides. *)
Definition apply_setting (resolved : gset ModuleId) (e : ModuleId * ModuleSetting) : gset ModuleId :=
  match e.2 with
  | Enabled => {[e.1]} ∪ resolved
  | Disabled => resolved ∖ {[e.1]}
  | Auto => resolved
  end.

(** The loop over [[Masque, DnsDoq]]. *)
Fixpoint check_experimental (p : Profile) (resolved : gset ModuleId) (l : list ModuleId)
    : outcome ConfigError () :=
  match l with
  | [] => Ok ()
  | experimental :: l =>
      if bool_decide (experimental ∈ resolved) && bool_decide (p <> Laboratory)
      then Err (ExperimentalModuleOutsideLaboratory experimental)
      else check_experimental p resolved l
  end.

(** The two nested loops over the dependencies. *)
Fixpoint check_dependencies_of (resolved : gset ModuleId) (module : ModuleId) (l : list ModuleId)
    : outcome ConfigError () :=
  match l with
  | [] => Ok ()
  | dependency :: l =>
      if negb (bool_decide (dependency ∈ resolved)) then Err (MissingDependency module dependency)
      else check_dependencies_of resolved module l
  end.

Fixpoint check_dependencies (resolved : gset ModuleId) (l : list ModuleId) : outcome ConfigError () :=
  match l with
  | [] => Ok ()
  | module :: l =>
      _ ← check_dependencies_of resolved module (dependencies module);
      check_dependencies resolved l
  end.

(** [ProductConfig::resolve_modules] *)
Definition resolve_modules (c : t) : outcome ConfigError (gset ModuleId) :=
  _ ← validate_scalar_fields c;
  let resolved := foldl apply_setting (profile_defaults (profile c)) (entries (modules c)) in
  if bool_decide (Tuic ∈ resolved) && bool_decide (Masque ∈ resolved) then Err ConflictingTransports else
  _ ← check_experimental (profile c) resolved [Masque; DnsDoq];
  _ ← check_dependencies resolved (in_order resolved);
  Ok resolved.

(** ** Specification *)

(** The operator's and the profile's say on one module. *)
Definition selected (c : t) (m : ModuleId) : Prop :=
  modules c !! m = Some Enabled \/
  (modules c !! m <> Some Disabled /\ m ∈ profile_defaults (profile c)).

Definition scalars_ok (c : t) : Prop :=
  schema_version c = CURRENT_SCHEMA_VERSION /\ bandwidth_mbps (server c) <> 0 /\
  public_tcp_port (server c) <> 0 /\ public_udp_port (server c) <> 0.

Definition needs (m d : ModuleId) : Prop := d ∈ dependencies m.

(** What an error claims of the configuration. *)
Definition violated (c : t) (e : ConfigError) : Prop :=
  match e with
  | UnsupportedSchema found supported =>
      found = schema_version c /\ supported = CURRENT_SCHEMA_VERSION /\ found <> supported
  | ZeroBandwidth => bandwidth_mbps (server c) = 0
  | UnsafePublicPort => public_tcp_port (server c) = 0 \/ public_udp_port (server c) = 0
  | MissingDependency m d => selected c m /\ needs m d /\ ~ selected c d
  | ConflictingTransports => selected c Tuic /\ selected c Masque
  | ExperimentalModuleOutsideLaboratory m =>
      m ∈ [Masque; DnsDoq] /\ selected c m /\ profile c <> Laboratory
  end.
End ProductConfig.

(** ** Lemmas *)
Import ProductConfig.

Lemma all_modules_complete m : m ∈ all_modules.
Proof. destruct m; by apply bool_decide_unpack with (dec := list_elem_of_dec _ _). Qed.

Lemma all_modules_NoDup : NoDup all_modules.
Proof. by apply bool_decide_unpack with (dec := NoDup_dec _). Qed.

Lemma elem_of_in_order m s : m ∈ in_order s <-> m ∈ s.
Proof.
  unfold in_order. rewrite list_elem_of_filter. pose proof (all_modules_complete m). tauto.
Qed.

Lemma in_order_NoDup s : NoDup (in_order s).
Proof. apply NoDup_filter, all_modules_NoDup. Qed.

(** One override decides its own module and no other. *)
Definition overridden (o : option ModuleSetting) (before : Prop) : Prop :=
  match o with Some Enabled => True | Some Disabled => False | _ => before end.

Lemma elem_of_overrides (mods : gmap ModuleId ModuleSetting) l m s :
  NoDup l ->
  m ∈ foldl apply_setting s (omap (fun k => pair k <$> mods !! k) l) <->
  if decide (m ∈ l) then overridden (mods !! m) (m ∈ s) else m ∈ s.
Proof.
  intros Hl. revert s. induction Hl as [|k l Hk Hl IH]; intros s; [done|].
  assert (m ∈ k :: l <-> m = k \/ m ∈ l) as Hcons by apply elem_of_cons.
  destruct (mods !! k) as [o|] eqn:Ho; cbn [omap list_omap]; rewrite Ho;
    cbn [fmap option_fmap option_map foldl]; rewrite IH; unfold overridden.
  - destruct (decide (m = k)) as [->|Hmk].
    + destruct (decide (k ∈ l)) as [|_]; [done|]. destruct (decide (k ∈ k :: l)) as [_|Hn]; [|tauto].
      rewrite Ho. unfold apply_setting; destruct o; cbn; set_solver.
    + assert (m ∈ apply_setting s (k, o) <-> m ∈ s) by (unfold apply_setting; destruct o; cbn; set_solver).
      destruct (decide (m ∈ l)), (decide (m ∈ k :: l)); try tauto.
      destruct (mods !! m) as [[]|]; tauto.
  - destruct (decide (m = k)) as [->|Hmk].
    + destruct (decide (k ∈ l)) as [|_]; [done|]. destruct (decide (k ∈ k :: l)) as [_|Hn]; [|tauto].
      by rewrite Ho.
    + destruct (decide (m ∈ l)), (decide (m ∈ k :: l)); tauto.
Qed.

Lemma elem_of_resolved c m :
  m ∈ foldl apply_setting (profile_defaults (profile c)) (entries (modules c)) <-> selected c m.
Proof.
  unfold entries. rewrite elem_of_overrides by apply all_modules_NoDup.
  destruct (decide _) as [_|Hn]; [|by destruct (Hn (all_modules_complete m))].
  unfold overridden, selected.
  destruct (modules c !! m) as [[]|]; naive_solver.
Qed.

Lemma validate_scalar_fields_spec c :
  match validate_scalar_fields c with
  | Ok _ => scalars_ok c | Err e => violated c e | Panic => False end.
Proof.
  unfold validate_scalar_fields, scalars_ok. split_ifs; bool_to_prop; cbn; try done.
  by destruct E1 as [?%N.eqb_eq|?%N.eqb_eq]; [left|right].
Qed.

Lemma check_experimental_spec c (resolved : gset ModuleId) l :
  (forall m, m ∈ resolved <-> selected c m) -> l ⊆ [Masque; DnsDoq] ->
  match check_experimental (profile c) resolved l with
  | Ok _ => forall m, m ∈ l -> selected c m -> profile c = Laboratory
  | Err e => violated c e | Panic => False end.
Proof.
  intros Hr. induction l as [|x l IH]; intros Hl; [by intros m Hm; apply not_elem_of_nil in Hm|].
  cbn. destruct (bool_decide (x ∈ resolved) && bool_decide (profile c <> Laboratory)) eqn:E; bool_to_prop.
  - cbn. rewrite <- Hr. split_and!; [apply Hl; set_solver|done|done].
  - specialize (IH ltac:(set_solver)). destruct (check_experimental _ _ _); [|done..].
    intros m [->|Hm]%elem_of_cons Hs; [|by apply (IH m)].
    apply Hr in Hs. destruct E as [E|E]; bool_to_prop; [done|]. by destruct (decide (profile c = Laboratory)).
Qed.

Lemma check_dependencies_of_spec c (resolved : gset ModuleId) m l :
  (forall m, m ∈ resolved <-> selected c m) -> selected c m -> l ⊆ dependencies m ->
  match check_dependencies_of resolved m l with
  | Ok _ => forall d, d ∈ l -> selected c d | Err e => violated c e | Panic => False end.
Proof.
  intros Hr Hm. induction l as [|x l IH]; intros Hl; [by intros d Hd; apply not_elem_of_nil in Hd|].
  cbn. destruct (bool_decide (x ∈ resolved)) eqn:E; bool_to_prop; cbn [negb].
  - specialize (IH ltac:(set_solver)). destruct (check_dependencies_of _ _ _); [|done..].
    intros d [->|Hd]%elem_of_cons; [by apply Hr|by apply IH].
  - cbn. rewrite <- (Hr x). split_and!; [done|apply Hl; set_solver|done].
Qed.

Lemma check_dependencies_spec c (resolved : gset ModuleId) l :
  (forall m, m ∈ resolved <-> selected c m) -> (forall m, m ∈ l -> selected c m) ->
  match check_dependencies resolved l with
  | Ok _ => forall m d, m ∈ l -> needs m d -> selected c d
  | Err e => violated c e | Panic => False end.
Proof.
  intros Hr. induction l as [|x l IH]; intros Hl; [by intros m d Hm; apply not_elem_of_nil in Hm|].
  cbn. pose proof (check_dependencies_of_spec c resolved x (dependencies x) Hr (Hl x ltac:(set_solver))
    ltac:(set_solver)) as Hx.
  destruct (check_dependencies_of _ _ _); cbn; [|done..].
  specialize (IH ltac:(set_solver)). destruct (check_dependencies _ _); [|done..].
  intros m d [->|Hm]%elem_of_cons Hd; [by apply Hx|by apply (IH m d)].
Qed.

(** Every outcome of [resolve_modules] says what it claims. *)
Lemma resolve_modules_spec c :
  match resolve_modules c with
  | Ok s => scalars_ok c /\ (forall m, m ∈ s <-> selected c m) /\
      ~ (selected c Tuic /\ selected c Masque) /\
      (forall m, m ∈ [Masque; DnsDoq] -> selected c m -> profile c = Laboratory) /\
      (forall m d, selected c m -> needs m d -> selected c d)
  | Err e => violated c e | Panic => False end.
Proof.
  unfold resolve_modules. pose proof (validate_scalar_fields_spec c) as Hv.
  destruct (validate_scalar_fields c) as [[]| |]; cbn [mbind outcome_bind]; [|done..].
  pose proof (elem_of_resolved c) as Hr. set (s := foldl _ _ _) in *.
  destruct (bool_decide (Tuic ∈ s) && bool_decide (Masque ∈ s)) eqn:Hc; bool_to_prop.
  { cbn. by rewrite <- !Hr. }
  pose proof (check_experimental_spec c s [Masque; DnsDoq] Hr ltac:(done)) as He.
  destruct (check_experimental _ _ _); cbn [mbind outcome_bind]; [|done..].
  pose proof (check_dependencies_spec c s (in_order s) Hr) as Hd.
  specialize (Hd ltac:(intros m Hm; by apply Hr, elem_of_in_order)).
  destruct (check_dependencies _ _); cbn [mbind outcome_bind]; [|done..].
  split_and!; [done|done| |done|].
  - rewrite <- !Hr. intros [? ?]. destruct Hc as [Hc|Hc]; bool_to_prop; done.
  - intros m d Hm. apply Hd. by apply elem_of_in_order, Hr.
Qed.

(** ** Properties *)

(** C16: [resolve_modules] succeeds exactly on the valid configurations, and
    then returns exactly the selected modules: those the operator enabled and
    those of the profile the operator did not disable.  Valid means: the
    schema is supported, bandwidth and both ports are not zero, TUIC and MASQUE
    are not both selected, MASQUE and DNS over QUIC only in the laboratory
    profile, and every selected module's dependencies are selected.  The
    resolved set is then closed under dependencies of dependencies, too. *)
Theorem resolve_modules_iff (c : ProductConfig.t) (s : gset ModuleId) :
  (resolve_modules c = Ok s <->
    scalars_ok c /\ (forall m, m ∈ s <-> selected c m) /\
    ~ (selected c Tuic /\ selected c Masque) /\
    (forall m, m ∈ [Masque; DnsDoq] -> selected c m -> profile c = Laboratory) /\
    (forall m d, selected c m -> needs m d -> selected c d)) /\
  (resolve_modules c = Ok s -> forall m d, m ∈ s -> rtc needs m d -> d ∈ s).
Proof.
  pose proof (resolve_modules_spec c) as H. split; [split|].
  - intros E. by rewrite E in H.
  - intros ((Hs & Hb & Ht & Hu) & Hin & Hconf & Hexp & Hdep).
    destruct (resolve_modules c) as [s'|e|]; [| |done].
    + f_equal. apply set_eq. intros m. rewrite Hin. by destruct H as (_ & -> & _).
    + exfalso. destruct e; cbn in H; naive_solver.
  - intros E. rewrite E in H. destruct H as (_ & Hin & _ & _ & Hdep).
    intros m d Hm Hr. apply Hin. apply Hin in Hm. induction Hr as [|x y z Hxy _ IH]; [done|].
    apply IH. by apply (Hdep x).
Qed.

Lemma resolve_modules_iff_witness :
  resolve_modules (for_profile Enhanced) = Ok (profile_defaults Enhanced) /\
  DirectEgress ∈ profile_defaults Enhanced.
Proof.
  split; [vm_compute; reflexivity|].
  apply (proj2 (resolve_modules_iff (for_profile Enhanced) (profile_defaults Enhanced))) with (m := MultiWarp).
  - vm_compute. reflexivity.
  - apply bool_decide_unpack with (dec := gset_elem_of_dec _ _). vm_compute. exact I.
  - apply rtc_once. apply list_elem_of_here.
Defined.

(** errors are true.  [resolve_modules] never panics; an error it returns
    names a rule the configuration breaks (with the module and the missing
    dependency, the schema version found, and so on), and a configuration that
    breaks a rule is never resolved.  Untouched presets break none: each
    profile resolves to its own defaults. *)
Theorem resolve_modules_errors (c : ProductConfig.t) (p : Profile) :
  no_panic (resolve_modules c) /\
  (forall e, resolve_modules c = Err e -> violated c e) /\
  (forall e s, violated c e -> resolve_modules c <> Ok s) /\
  resolve_modules (for_profile p) = Ok (profile_defaults p).
Proof.
  pose proof (resolve_modules_spec c) as H. split_and!.
  - intros E. by rewrite E in H.
  - intros e E. by rewrite E in H.
  - intros e s Hv E. rewrite E in H.
    destruct H as ((Hs & Hb & Ht & Hu) & Hin & Hconf & Hexp & Hdep). destruct e; cbn in Hv; naive_solver.
  - destruct p; vm_compute; reflexivity.
Qed.

Definition broken_config : ProductConfig.t :=
  mk 1 Enhanced (mk_server 30 443 443) {[ Pmtu := Disabled ]}.

Lemma resolve_modules_errors_witness : violated broken_config (MissingDependency AdaptiveFec Pmtu).
Proof.
  apply (resolve_modules_errors broken_config Standard). vm_compute. reflexivity.
Defined.
