(* ===== verification/Planner.v ===== *)
(** * The deployment planner (src/src/controller.rs and
    src/src/bin/smart-gateway-controller.rs)

    [build] resolves a configuration, asks a probe about every port the
    deployment needs and lists the actions to take; the probe is trait
    [PortProbe], an I/O error is its message.  [main] is the command line tool:
    it probes by binding sockets ([bind_port] is the operating system) and
    prints the plan; what it prints is a list of lines' contents. *)
From Stdlib Require Import Sorted.
From S2P Require Import Prelude ProductConfig.
Import ProductConfig.

Inductive TransportProtocol := Tcp | Udp.

(** [IpAddr::V4(Ipv4Addr::UNSPECIFIED)] is the one address the planner uses;
    an address is its four bytes. *)
Definition UNSPECIFIED : N * N * N * N := (0, 0, 0, 0).

Record PortBinding := mk_binding {
  address : N * N * N * N;
  port : N;
  protocol : TransportProtocol;
  owner : string;
}.

Record PortConflict := mk_conflict {
  requested : PortBinding;
  current_owner : option string;
}.

Inductive PlanAction :=
| EnableModule (module : ModuleId)
| BindPort (binding : PortBinding)
| StageRevision
| ValidateCandidate
| CommitRevision.

Record DeploymentPlan := mk_plan {
  plan_schema_version : N;
  plan_modules : gset ModuleId;
  actions : list PlanAction;
  conflicts : list PortConflict;
}.

Inductive PlanError :=
| Config (error : ConfigError)
| Probe (error : string).

(** [requested_bindings] *)
Definition requested_bindings (c : ProductConfig.t) (modules : gset ModuleId) : list PortBinding :=
  (if bool_decide (Tuic ∈ modules) || bool_decide (Masque ∈ modules)
   then [mk_binding UNSPECIFIED (public_udp_port (server c)) Udp "smart-gateway-transport"] else [])
  ++ [mk_binding UNSPECIFIED (public_tcp_port (server c)) Tcp "smart-gateway-public"].

(** [map_err] *)
Definition map_err {E F A} (f : E -> F) (m : outcome E A) : outcome F A :=
  match m with Ok a => Ok a | Err e => Err (f e) | Panic => Panic end.

Section planner.
(** [PortProbe::conflict] *)
Context (probe : PortBinding -> result (option PortConflict)).

(** The loop over the bindings. *)
Fixpoint probe_all (bindings : list PortBinding) (conflicts : list PortConflict)
    : outcome PlanError (list PortConflict) :=
  match bindings with
  | [] => Ok conflicts
  | binding :: bindings =>
      found ← map_err Probe (probe binding);
      probe_all bindings (match found with Some conflict => conflicts ++ [conflict] | None => conflicts end)
  end.

(** [Planner::build] *)
Definition build (c : ProductConfig.t) : outcome PlanError DeploymentPlan :=
  modules ← map_err Config (resolve_modules c);
  let bindings := requested_bindings c modules in
  conflicts ← probe_all bindings [];
  Ok (mk_plan (schema_version c) modules
    ((EnableModule <$> in_order modules) ++ (BindPort <$> bindings)
     ++ [StageRevision; ValidateCandidate; CommitRevision])
    conflicts).

End planner.

(** *** The command line tool *)
Inductive ProfileArg := ArgStandard | ArgEnhanced | ArgLowResource | ArgLaboratory.

(** [impl From<ProfileArg> for Profile] *)
Definition profile_of_arg (value : ProfileArg) : Profile :=
  match value with
  | ArgStandard => Standard
  | ArgEnhanced => Enhanced
  | ArgLowResource => LowResource
  | ArgLaboratory => Laboratory
  end.

Record Cli := mk_cli {
  arg_profile : ProfileArg;
  arg_bandwidth_mbps : N;
  arg_tcp_port : N;
  arg_udp_port : N;
}.

(** What binding a socket and dropping it again ends in. *)
Inductive bind_outcome := Bound | AddrInUse | BindError (error : string).

#[global] Instance bind_outcome_eq_dec : EqDecision bind_outcome.
Proof. solve_decision. Defined.

Inductive output :=
| PrintSchema (schema_version : N) (profile : Profile)
| PrintModules (modules : list ModuleId)
| PrintBind (binding : PortBinding)
| PrintConflict (conflict : PortConflict)
| PrintStatus.

Inductive MainError := Plan (error : PlanError) | HasConflicts (n : nat).

Section tool.
Context (bind_port : TransportProtocol -> N * N * N * N -> N -> bind_outcome).

(** [SocketProbe::conflict] *)
Definition socket_probe (requested : PortBinding) : result (option PortConflict) :=
  match bind_port (protocol requested) (address requested) (port requested) with
  | Bound => Ok None
  | AddrInUse => Ok (Some (mk_conflict requested None))
  | BindError error => Err error
  end.

Definition cli_config (cli : Cli) : ProductConfig.t :=
  let c := for_profile (profile_of_arg (arg_profile cli)) in
  ProductConfig.mk (schema_version c) (profile c)
    (mk_server (arg_bandwidth_mbps cli) (arg_tcp_port cli) (arg_udp_port cli)) (modules c).

(** [main] *)
Definition main (cli : Cli) : outcome MainError () * list output :=
  let config := cli_config cli in
  match build socket_probe config with
  | Err e => (Err (Plan e), [])
  | Panic => (Panic, [])
  | Ok plan =>
      let printed := [PrintSchema (plan_schema_version plan) (profile config);
          PrintModules (in_order (plan_modules plan))]
        ++ omap (fun a => match a with BindPort b => Some (PrintBind b) | _ => None end) (actions plan) in
      match conflicts plan with
      | [] => (Ok (), printed ++ [PrintStatus])
      | _ => (Err (HasConflicts (length (conflicts plan))), printed ++ (PrintConflict <$> conflicts plan))
      end
  end.
End tool.

(** ** Lemmas *)

Section planner_lemmas.
Context (probe : PortBinding -> result (option PortConflict)).

(** What the probe reports of a binding, when it answers. *)
Definition reported (b : PortBinding) : option PortConflict :=
  match probe b with Ok o => o | _ => None end.

Lemma probe_all_spec bindings acc :
  (forall b, probe b <> Panic) ->
  match probe_all probe bindings acc with
  | Ok found => found = acc ++ omap reported bindings /\ Forall (fun b => exists o, probe b = Ok o) bindings
  | Err e => exists b message, b ∈ bindings /\ probe b = Err message /\ e = Probe message
  | Panic => False
  end.
Proof.
  intros Hp. revert acc. induction bindings as [|b l IH]; intros acc; cbn.
  - by rewrite app_nil_r.
  - pose proof (Hp b) as Hb. destruct (probe b) as [o|message|] eqn:E; cbn; [| |done].
    + specialize (IH (match o with Some conflict => acc ++ [conflict] | None => acc end)).
      destruct (probe_all _ _ _) as [found|e|]; [| |done].
      * destruct IH as [-> HF]. unfold reported at 2. rewrite E. split; [|constructor; [by eexists|done]].
        destruct o; [by rewrite <- (assoc_L (++))|done].
      * destruct IH as (b' & message & ? & ? & ?). exists b', message. set_solver.
    + exists b, message. set_solver.
Qed.
End planner_lemmas.

Section tool_lemmas.
Context (bind_port : TransportProtocol -> N * N * N * N -> N -> bind_outcome).
Definition bound (b : PortBinding) : bind_outcome := bind_port (protocol b) (address b) (port b).

(** The probe's conflicts are the bindings in use. *)
Lemma probe_conflicts l :
  Forall (fun b => exists o, socket_probe bind_port b = Ok o) l ->
  omap (reported (socket_probe bind_port)) l
    = (fun b => mk_conflict b None) <$> filter (fun b => bound b = AddrInUse) l /\
  Forall (fun b => bound b = Bound \/ bound b = AddrInUse) l.
Proof.
  induction 1 as [|b l [o Hb] _ [Hl IH]]; [done|]. unfold socket_probe in Hb. fold (bound b) in Hb.
  rewrite filter_cons. cbn [omap list_omap].
  change (list_omap _ _ (reported (socket_probe bind_port)) l) with (omap (reported (socket_probe bind_port)) l).
  rewrite Hl. unfold reported, socket_probe. fold (bound b).
  destruct (bound b) eqn:E; [| |done].
  - split; [|constructor; [by left|done]]. by destruct (decide _).
  - split; [|constructor; [by right|done]]. by destruct (decide _).
Qed.

Lemma printed_bindings ms bindings :
  omap (fun a => match a with BindPort b => Some (PrintBind b) | _ => None end)
    ((EnableModule <$> ms) ++ (BindPort <$> bindings) ++ [StageRevision; ValidateCandidate; CommitRevision])
  = PrintBind <$> bindings.
Proof.
  rewrite !omap_app. cbn. rewrite app_nil_r.
  induction ms as [|m ms IH]; [|exact IH]. cbn. induction bindings as [|b l IHl]; [done|]. cbn. by f_equal.
Qed.

(** [build] with the socket probe, in terms of the bindings. *)
Lemma build_socket c :
  match build (socket_probe bind_port) c with
  | Ok plan => exists ms, resolve_modules c = Ok ms /\ plan_modules plan = ms /\
      plan_schema_version plan = schema_version c /\
      Forall (fun b => bound b = Bound \/ bound b = AddrInUse) (requested_bindings c ms) /\
      conflicts plan = (fun b => mk_conflict b None) <$>
        filter (fun b => bound b = AddrInUse) (requested_bindings c ms) /\
      actions plan = (EnableModule <$> in_order ms) ++ (BindPort <$> requested_bindings c ms)
        ++ [StageRevision; ValidateCandidate; CommitRevision]
  | Err (Config e) => resolve_modules c = Err e
  | Err (Probe _) => exists ms b, resolve_modules c = Ok ms /\ b ∈ requested_bindings c ms /\
      bound b <> Bound /\ bound b <> AddrInUse
  | Panic => False
  end.
Proof.
  unfold build. pose proof (resolve_modules_spec c) as Hr.
  destruct (resolve_modules c) as [ms|e|]; cbn [map_err mbind outcome_bind]; [|done|done].
  pose proof (probe_all_spec (socket_probe bind_port) (requested_bindings c ms) []) as Ha.
  specialize (Ha ltac:(intros b; unfold socket_probe; by destruct (bind_port _ _ _))).
  destruct (probe_all _ _ _) as [found|e|]; cbn [mbind outcome_bind]; [| |done].
  - destruct Ha as [-> HF]. destruct (probe_conflicts _ HF) as [Hc Hb]. exists ms. by split_and!.
  - destruct Ha as (b & message & Hb & Hm & ->). exists ms, b. unfold socket_probe in Hm. fold (bound b) in Hm.
    split_and!; [done|done|intros E; by rewrite E in Hm..].
Qed.
End tool_lemmas.

Lemma filter_StronglySorted {A} (R : A -> A -> Prop) (P : A -> Prop) `{!forall x, Decision (P x)} l :
  StronglySorted R l -> StronglySorted R (filter P l).
Proof.
  induction 1 as [|x l Hl IH HF]; [constructor|]. rewrite filter_cons. destruct (decide (P x)); [|done].
  constructor; [done|]. rewrite Forall_forall in *. intros y [_ Hy]%list_elem_of_filter. by apply HF.
Qed.

Lemma in_order_sorted s : StronglySorted (fun a b => (rank a < rank b)%nat) (in_order s).
Proof. apply filter_StronglySorted. repeat constructor. Qed.

(** ** Properties *)

(** what a plan says.  [build] yields a plan exactly when the
    configuration resolves and the probe answers for every port: one TCP
    binding for the public port, and one UDP binding when a UDP transport is
    selected.  The plan enables every resolved module once, in declaration
    order, binds those ports, then stages, validates and commits, in this order, and
    lists the conflicts the probe reported, one per conflicting port, in
    order; an invalid configuration or a probe failure is the error. *)
Theorem build_iff (probe : PortBinding -> result (option PortConflict)) (c : ProductConfig.t) :
  (forall b, probe b <> Panic) ->
  match build probe c with
  | Ok plan =>
      resolve_modules c = Ok (plan_modules plan) /\ plan_schema_version plan = schema_version c /\
      let bindings := requested_bindings c (plan_modules plan) in
      Forall (fun b => exists o, probe b = Ok o) bindings /\
      conflicts plan = omap (reported probe) bindings /\
      exists ms, StronglySorted (fun a b => (rank a < rank b)%nat) ms /\ (forall m, m ∈ ms <-> m ∈ plan_modules plan) /\
        actions plan = (EnableModule <$> ms) ++ (BindPort <$> bindings)
          ++ [StageRevision; ValidateCandidate; CommitRevision]
  | Err (Config e) => resolve_modules c = Err e
  | Err (Probe message) => exists modules b, resolve_modules c = Ok modules /\
      b ∈ requested_bindings c modules /\ probe b = Err message
  | Panic => False
  end.
Proof.
  intros Hp. unfold build. pose proof (resolve_modules_spec c) as Hr.
  destruct (resolve_modules c) as [modules|e|]; cbn [map_err mbind outcome_bind]; [|done|done].
  pose proof (probe_all_spec probe (requested_bindings c modules) [] Hp) as Ha.
  destruct (probe_all _ _ _) as [found|e|]; cbn [mbind outcome_bind]; [| |done].
  - destruct Ha as [-> HF]. cbn. split_and!; try done. exists (in_order modules).
    split_and!; [apply in_order_sorted|intros m; apply elem_of_in_order|done].
  - destruct Ha as (b & message & Hb & Hm & ->). by exists modules, b.
Qed.

Definition busy_udp (b : PortBinding) : result (option PortConflict) :=
  match protocol b with
  | Udp => Ok (Some (mk_conflict b (Some "existing-daemon"%string)))
  | Tcp => Ok None
  end.

Lemma build_iff_witness :
  exists plan, build busy_udp (for_profile Enhanced) = Ok plan /\
  conflicts plan = [mk_conflict (mk_binding UNSPECIFIED 443 Udp "smart-gateway-transport")
    (Some "existing-daemon"%string)].
Proof.
  pose proof (build_iff busy_udp (for_profile Enhanced)) as H.
  destruct (build busy_udp (for_profile Enhanced)) as [plan|e|] eqn:E.
  - exists plan. split; [reflexivity|].
    destruct H as (Hr & _ & _ & Hc & _); [by intros b; unfold busy_udp; destruct (protocol b)|].
    assert (resolve_modules (for_profile Enhanced) = Ok (profile_defaults Enhanced)) as Hd
      by (vm_compute; reflexivity).
    rewrite Hc. rewrite Hd in Hr. apply Ok_inj in Hr. rewrite <- Hr. vm_compute. reflexivity.
  - exfalso. revert E. vm_compute. discriminate.
  - exfalso. revert E. vm_compute. discriminate.
Defined.

(** the tool's verdict.  [main] succeeds exactly when the configuration
    given on the command line is valid and every port the deployment needs can
    be bound; it ends with the number of busy ports only when the
    configuration is valid and that many needed ports are in use; a successful
    run prints the resolved modules, a [bind] line for exactly the needed ports
    and the final status. *)
Theorem main_verdict (bind_port : TransportProtocol -> N * N * N * N -> N -> bind_outcome) (cli : Cli) :
  let c := cli_config cli in
  (fst (main bind_port cli) = Ok () <->
    exists ms, resolve_modules c = Ok ms /\
      Forall (fun b => bound bind_port b = Bound) (requested_bindings c ms)) /\
  (forall n, fst (main bind_port cli) = Err (HasConflicts n) ->
    exists ms, resolve_modules c = Ok ms /\ (0 < n)%nat /\
      n = length (filter (fun b => bound bind_port b = AddrInUse) (requested_bindings c ms))) /\
  (forall ms, resolve_modules c = Ok ms -> fst (main bind_port cli) = Ok () ->
    snd (main bind_port cli) = [PrintSchema (schema_version c) (profile c); PrintModules (in_order ms)]
      ++ (PrintBind <$> requested_bindings c ms) ++ [PrintStatus]).
Proof.
  cbn zeta. unfold main. pose proof (build_socket bind_port (cli_config cli)) as H.
  destruct (build _ _) as [plan|[e|message]|]; [| | |done].
  - destruct H as (ms & Hr & Hms & Hv & Hb & Hc & Ha). rewrite Hc, Ha, printed_bindings, Hv, Hms, Hr.
    set (busy := filter _ _). assert (busy = [] <-> Forall (fun b => bound bind_port b = Bound)
      (requested_bindings (cli_config cli) ms)) as Hbusy.
    { unfold busy. rewrite !Forall_forall in *. split.
      - intros Hnil b Hin. destruct (Hb b Hin) as [|Hu]; [done|].
        exfalso. apply (not_elem_of_nil b). rewrite <- Hnil. by apply list_elem_of_filter.
      - intros Hall. apply filter_none. intros b Hin. by rewrite Hall. }
    destruct busy as [|b0 busy0] eqn:Eb; cbn [fmap list_fmap fst snd length].
    + split_and!; [|done|].
      * split; [|done]. intros _. exists ms. split; [done|by apply Hbusy].
      * intros ms' [= <-] _. done.
    + split_and!; [|intros n [= <-]; exists ms|done].
      * split; [done|]. intros (ms' & [= <-] & Hall). by apply Hbusy in Hall.
      * rewrite length_fmap. split_and!; [done|lia|]. unfold busy in Eb. by rewrite Eb.
  - rewrite H. split_and!; [|done|done]. split; [done|]. by intros (ms & ? & _).
  - destruct H as (ms & b & Hr & Hb & Hn1 & Hn2). rewrite Hr. split_and!; [|done|done].
    split; [done|]. intros (ms' & [= <-] & Hall). rewrite Forall_forall in Hall. by apply Hall in Hb.
Qed.

Definition free_ports (p : TransportProtocol) (a : N * N * N * N) (n : N) : bind_outcome :=
  if n =? 0 then BindError "refused"%string else match p with Udp => AddrInUse | Tcp => Bound end.

Lemma main_verdict_witness :
  exists ms, resolve_modules (cli_config (mk_cli ArgStandard 30 443 443)) = Ok ms /\ (0 < 1)%nat /\
    1%nat = length (filter (fun b => bound free_ports b = AddrInUse)
      (requested_bindings (cli_config (mk_cli ArgStandard 30 443 443)) ms)).
Proof.
  apply (main_verdict free_ports (mk_cli ArgStandard 30 443 443)). vm_compute. reflexivity.
Defined.
