(* ===== verification/Filesystem.v ===== *)
(** * Paths and files (the part of std::path and std::fs that
    src/src/controller.rs uses)

    Unix semantics: a path is its list of [/]-separated segments, [components]
    is [Path::components], [resolve] walks a path without symbolic links.  A
    file system maps resolved paths to files and directories.  Every call may
    fail: [fault n] says whether the [n]-th system call fails, with which error
    and after how many bytes of a write; theorems hold for every [fault]. *)
From Stdlib Require Import Ascii.
From S2P Require Import Prelude.

Abbreviation path := (list string).

(** The pieces of a string between the slashes. *)
Fixpoint segments (s : string) : path :=
  match s with
  | EmptyString => [""%string]
  | String c s =>
      if bool_decide (c = "/"%char) then ""%string :: segments s
      else match segments s with w :: ws => String c w :: ws | [] => [] end
  end.

Definition absolute (s : string) : bool :=
  match s with String c _ => bool_decide (c = "/"%char) | _ => false end.

(** [Path::components] *)
Inductive component := RootDir | CurDir | ParentDir | Normal (name : string).

Definition is_empty_or_dot (s : string) : bool := bool_decide (s = ""%string) || bool_decide (s = "."%string).

Definition to_component (s : string) : component :=
  if bool_decide (s = ".."%string) then ParentDir else Normal s.

Definition components (s : string) : list component :=
  (if absolute s then [RootDir]
   else if bool_decide (head (segments s) = Some "."%string) then [CurDir] else [])
  ++ (to_component <$> filter (fun x => is_empty_or_dot x = false) (segments s)).

(** [Path::join] *)
Definition join (p : path) (s : string) : path :=
  if absolute s then segments s else p ++ segments s.

(** One segment of a walk, and the walk from the root. *)
Definition walk (at_ : path) (s : string) : path :=
  if is_empty_or_dot s then at_
  else if bool_decide (s = ".."%string) then take (length at_ - 1) at_
  else at_ ++ [s].

Definition resolve (p : path) : path := foldl walk [] p.

Definition parent (p : path) : path := take (length p - 1) p.

(** A path that ends in a slash or a dot names a directory. *)
Definition names_directory (p : path) : bool :=
  match last p with Some s => is_empty_or_dot s | None => true end.

Module Fs.
Inductive node := File (content : bytes) | Dir.

#[global] Instance node_eq_dec : EqDecision node.
Proof. solve_decision. Defined.

Record t := mk {
  nodes : gmap path node;
  calls : nat;
}.

Definition set_nodes x (s : t) := mk x (calls s).

Section calls.
Context (fault : nat -> option (string * nat)).

(** Whether this system call fails. *)
Definition tick : method t (option (string * nat)) := fun s =>
  (Ok (fault (calls s)), mk (nodes s) (S (calls s))).

(** A call that succeeds or fails as a whole. *)
Definition syscall (body : method t ()) : method t () :=
  f ← tick;
  match f with Some (e, _) => bail e | None => body end.

(** [Path::is_dir] and [Path::exists], which answer [false] when the call fails. *)
Definition is_dir (p : path) : method t bool :=
  f ← tick;
  s ← get;
  mret (match f with Some _ => false | None => bool_decide (nodes s !! resolve p = Some Dir) end).

Definition exists_ (p : path) : method t bool :=
  f ← tick;
  s ← get;
  mret (match f with Some _ => false | None => bool_decide (nodes s !! resolve p <> None) end).

(** [fs::create_dir] *)
Definition create_dir (p : path) : method t () := syscall (
  s ← get;
  let q := resolve p in
  if bool_decide (nodes s !! q <> None) then bail "File exists"%string else
  if negb (bool_decide (nodes s !! parent q = Some Dir)) then bail "No such file or directory"%string else
  put (set_nodes (<[q := Dir]> (nodes s)) s)).

(** [fs::create_dir_all]: the missing directories from the top down. *)
Fixpoint create_dirs (l : list path) : method t () :=
  match l with
  | [] => mret ()
  | p :: l =>
      s ← get;
      _ ← (if bool_decide (nodes s !! resolve p = Some Dir) then mret () else create_dir p);
      create_dirs l
  end.

Definition create_dir_all (p : path) : method t () :=
  create_dirs ((fun n => take n (resolve p)) <$> seq 1 (length (resolve p))).

(** [OpenOptions::new().write(true).create_new(true).open(p)] *)
Definition create_new (p : path) : method t () := syscall (
  s ← get;
  let q := resolve p in
  if names_directory p then bail "Is a directory"%string else
  if bool_decide (nodes s !! q <> None) then bail "File exists"%string else
  if negb (bool_decide (nodes s !! parent q = Some Dir)) then bail "No such file or directory"%string else
  put (set_nodes (<[q := File []]> (nodes s)) s)).

(** [file.write_all(data)] on the file opened at [p]; a failing write may have
    written a prefix. *)
Definition write_all (p : path) (data : bytes) : method t () :=
  f ← tick;
  s ← get;
  match nodes s !! resolve p with
  | Some (File old) =>
      let written := match f with Some (_, n) => take n data | None => data end in
      _ ← put (set_nodes (<[resolve p := File (old ++ written)]> (nodes s)) s);
      match f with Some (e, _) => bail e | None => mret () end
  | _ => bail "Bad file descriptor"%string
  end.

(** [file.sync_all()] *)
Definition sync_all (p : path) : method t () := syscall (mret ()).

(** [fs::remove_file] *)
Definition remove_file (p : path) : method t () := syscall (
  s ← get;
  match nodes s !! resolve p with
  | Some (File _) => put (set_nodes (delete (resolve p) (nodes s)) s)
  | Some Dir => bail "Is a directory"%string
  | None => bail "No such file or directory"%string
  end).

(** Everything at or below [a] moved to [b], which is replaced. *)
Definition move (a b : path) (m : gmap path node) : gmap path node :=
  list_to_map ((fun '(k, v) => (b ++ drop (length a) k, v)) <$>
    filter (fun '(k, _) => a `prefix_of` k) (map_to_list m))
  ∪ filter (fun '(k, _) => ~ a `prefix_of` k /\ ~ b `prefix_of` k) m.

(** Nothing strictly below [b]. *)
Definition empty_below (b : path) (m : gmap path node) : bool :=
  bool_decide (Forall (fun kv => ~ (b `prefix_of` kv.1 /\ kv.1 <> b)) (map_to_list m)).

(** [fs::rename] *)
Definition rename (from to : path) : method t () := syscall (
  s ← get;
  let a := resolve from in
  let b := resolve to in
  if negb (bool_decide (nodes s !! parent b = Some Dir)) then bail "No such file or directory"%string else
  match nodes s !! a with
  | None => bail "No such file or directory"%string
  | Some (File content) =>
      if names_directory from || names_directory to then bail "Not a directory"%string else
      if bool_decide (nodes s !! b = Some Dir) then bail "Is a directory"%string else
      put (set_nodes (<[b := File content]> (delete a (nodes s))) s)
  | Some Dir =>
      if bool_decide (a = b) then mret () else
      if bool_decide (a `prefix_of` b) then bail "Invalid argument"%string else
      match nodes s !! b with
      | Some (File _) => bail "Not a directory"%string
      | _ =>
          if negb (empty_below b (nodes s)) then bail "Directory not empty"%string
          else put (set_nodes (move a b (nodes s)) s)
      end
  end).
End calls.
End Fs.

(** ** Walking paths *)
Definition plain (s : string) : Prop := is_empty_or_dot s = false /\ s <> ".."%string.
Definition clean (p : path) : Prop := Forall plain p.

#[global] Instance plain_dec s : Decision (plain s).
Proof. unfold plain. apply _. Defined.

Lemma resolve_app p q : resolve (p ++ q) = foldl walk (resolve p) q.
Proof. unfold resolve. by rewrite foldl_app. Qed.

(** A walk without [..] goes down through the segments that are not empty or a dot. *)
Lemma walk_down q : forall at_, (".."%string ∉ q) ->
  foldl walk at_ q = at_ ++ filter (fun x => is_empty_or_dot x = false) q.
Proof.
  induction q as [|x q IH]; intros at_ Hq; [by rewrite app_nil_r|].
  apply not_elem_of_cons in Hq as [Hx Hq]. cbn [foldl]. rewrite IH by done.
  rewrite filter_cons. unfold walk. destruct (is_empty_or_dot x).
  - by rewrite decide_False by done.
  - rewrite bool_decide_false by congruence. rewrite decide_True by done.
    by rewrite <- (assoc_L (++)).
Qed.

Lemma clean_no_dotdot p : clean p -> ".."%string ∉ p.
Proof. intros Hp Hin. unfold clean in Hp. rewrite Forall_forall in Hp. by destruct (Hp _ Hin). Qed.

Lemma clean_filter p : clean p -> filter (fun x => is_empty_or_dot x = false) p = p.
Proof.
  intros Hp. apply filter_all. intros x Hx. unfold clean in Hp. rewrite Forall_forall in Hp.
  by destruct (Hp x Hx).
Qed.

Lemma resolve_clean p : clean p -> resolve p = p.
Proof.
  intros Hp. unfold resolve. rewrite walk_down by by apply clean_no_dotdot.
  by rewrite clean_filter.
Qed.

Lemma segments_not_nil s : segments s <> [].
Proof.
  induction s as [|c s IH]; cbn; [discriminate|]. case_bool_decide; [discriminate|].
  by destruct (segments s).
Qed.

(** A string without a slash is one segment. *)
Lemma segments_one s : Forall (fun c => c <> "/"%char) (String.list_ascii_of_string s) -> segments s = [s].
Proof.
  induction s as [|c s IH]; [done|]. cbn [String.list_ascii_of_string segments]. intros H.
  inversion H; subst. rewrite bool_decide_false by done. by rewrite IH.
Qed.

(** Segments of a concatenation: the last of the left and the first of the
    right become one. *)
Lemma segments_app a b : exists l w v r,
  segments a = l ++ [w] /\ segments b = v :: r /\ segments (a +:+ b) = l ++ (w +:+ v)%string :: r.
Proof.
  induction a as [|c a (l & w & v & r & Ha & Hb & Hab)].
  - destruct (segments b) as [|v r] eqn:E; [by destruct (segments_not_nil b)|].
    by exists [], ""%string, v, r.
  - change (String c a +:+ b) with (String c (a +:+ b)). cbn [segments]. case_bool_decide.
    + exists (""%string :: l), w, v, r. by rewrite Ha, Hab.
    + rewrite Ha, Hab. destruct l as [|x l]; cbn.
      * by exists [], (String c w), v, r.
      * by exists (String c x :: l), w, v, r.
Qed.

(** ** Faults *)
(** The [n]th call does not fail after all. *)
Definition heal (n : nat) (fault : nat -> option (string * nat)) : nat -> option (string * nat) :=
  fun i => if decide (i = n) then None else fault i.

Lemma heal_before n fault i : (i < n)%nat -> heal n fault i = fault i.
Proof. intros Hi. unfold heal. by rewrite decide_False by lia. Qed.

Lemma heal_same n fault : heal n fault n = None.
Proof. unfold heal. by rewrite decide_True. Qed.

(** A call of one system call: it counts, and asks only for its own fault. *)
Definition one_call {A} (op : (nat -> option (string * nat)) -> method Fs.t A) : Prop :=
  (forall fault s, Fs.calls (snd (op fault s)) = S (Fs.calls s)) /\
  (forall fault fault' s, fault' (Fs.calls s) = fault (Fs.calls s) -> op fault' s = op fault s).

Lemma syscall_one (body : method Fs.t ()) :
  (forall s, Fs.calls (snd (body s)) = Fs.calls s) -> one_call (fun fault => Fs.syscall fault body).
Proof.
  intros Hb. unfold Fs.syscall, Fs.tick. split; [intros fault s|intros fault fault' s H]; unfold_method.
  - destruct (fault _) as [[]|]; [done|]. by rewrite Hb.
  - by rewrite H.
Qed.

Lemma create_new_one p : one_call (fun fault => Fs.create_new fault p).
Proof. apply syscall_one. intros s. unfold_method. by split_ifs. Qed.

Lemma sync_all_one p : one_call (fun fault => Fs.sync_all fault p).
Proof. by apply syscall_one. Qed.

Lemma remove_file_one p : one_call (fun fault => Fs.remove_file fault p).
Proof. apply syscall_one. intros s. unfold_method. by destruct (_ !! _) as [[]|]. Qed.

Lemma rename_one a b : one_call (fun fault => Fs.rename fault a b).
Proof.
  apply syscall_one. intros s. unfold_method. destruct (negb _); [done|].
  destruct (_ !! resolve a) as [[]|]; [by split_ifs| |done]. do 2 (destruct (bool_decide _); [done|]).
  destruct (_ !! resolve b) as [[]|]; [done|..]; by destruct (negb _).
Qed.

Lemma write_all_one p data : one_call (fun fault => Fs.write_all fault p data).
Proof.
  unfold Fs.write_all, Fs.tick. split; [intros fault s|intros fault fault' s H]; unfold_method; cbn.
  - destruct (_ !! _) as [[]|]; [|done..]. by destruct (fault _) as [[]|].
  - by rewrite H.
Qed.

(** ** What each call does *)
Section call_specs.
Context (fault : nat -> option (string * nat)).
Import Fs.

Lemma create_new_spec p s :
  match create_new fault p s with
  | (Ok _, s') => nodes s !! resolve p = None /\ nodes s' = <[resolve p := File []]> (nodes s)
  | (Err _, s') => nodes s' = nodes s
  | (Panic, _) => False
  end.
Proof.
  unfold create_new, syscall, tick. unfold_method. destruct (fault _) as [[e n]|]; [done|].
  cbn. split_ifs; bool_to_prop; try done. cbn. split; [|done].
  by apply dec_stable.
Qed.

Lemma create_new_there p s :
  nodes s !! resolve p <> None -> match create_new fault p s with
  | (Err _, s') => nodes s' = nodes s | _ => False end.
Proof.
  intros Hp. pose proof (create_new_spec p s) as H.
  destruct (create_new fault p s) as [[| |] s']; [|done..]. by destruct H.
Qed.

Lemma write_all_spec p data old s :
  nodes s !! resolve p = Some (File old) ->
  match write_all fault p data s with
  | (Ok _, s') => nodes s' = <[resolve p := File (old ++ data)]> (nodes s)
  | (Err _, s') => exists n, nodes s' = <[resolve p := File (old ++ take n data)]> (nodes s)
  | (Panic, _) => False
  end.
Proof.
  intros Hp. unfold write_all, tick. unfold_method. cbn. rewrite Hp.
  destruct (fault _) as [[e n]|]; [|done]. by exists n.
Qed.

Lemma sync_all_spec p s :
  match sync_all fault p s with
  | (Panic, _) => False | (_, s') => nodes s' = nodes s end.
Proof. unfold sync_all, syscall, tick. unfold_method. by destruct (fault _) as [[]|]. Qed.

Lemma is_dir_spec p s :
  match is_dir fault p s with
  | (Ok b, s') => nodes s' = nodes s /\ (b = true -> nodes s !! resolve p = Some Dir)
  | _ => False end.
Proof.
  unfold is_dir, tick. unfold_method. destruct (fault _) as [[]|]; [done|].
  cbn. split; [done|]. by intros ?%bool_decide_eq_true.
Qed.

Lemma remove_file_spec p s content :
  nodes s !! resolve p = Some (File content) ->
  match remove_file fault p s with
  | (Ok _, s') => nodes s' = delete (resolve p) (nodes s)
  | (Err _, s') => nodes s' = nodes s
  | (Panic, _) => False
  end.
Proof.
  intros Hp. unfold remove_file, syscall, tick. unfold_method.
  destruct (fault _) as [[]|]; [done|]. cbn. by rewrite Hp.
Qed.

Lemma rename_file_spec from to s content :
  nodes s !! resolve from = Some (File content) ->
  match rename fault from to s with
  | (Ok _, s') => nodes s' = <[resolve to := File content]> (delete (resolve from) (nodes s))
  | (Err _, s') => nodes s' = nodes s
  | (Panic, _) => False
  end.
Proof.
  intros Hp. unfold rename, syscall, tick. unfold_method.
  destruct (fault _) as [[]|]; [done|]. cbn. rewrite Hp. split_ifs; done.
Qed.

Lemma rename_dir_spec from to s :
  nodes s !! resolve from = Some Dir -> resolve from <> resolve to ->
  match rename fault from to s with
  | (Ok _, s') => nodes s' = move (resolve from) (resolve to) (nodes s) /\
      ~ resolve from `prefix_of` resolve to
  | (Err _, s') => nodes s' = nodes s
  | (Panic, _) => False
  end.
Proof.
  intros Hp Hne. unfold rename, syscall, tick. unfold_method.
  destruct (fault _) as [[]|]; [done|]. cbn. rewrite Hp. rewrite (bool_decide_false (resolve from = resolve to)) by done.
  destruct (negb _); [done|]. case_bool_decide; [done|].
  destruct (nodes s !! resolve to) as [[]|]; [done|..]; destruct (negb _); done.
Qed.

Lemma rename_missing from to s :
  nodes s !! resolve from = None ->
  match rename fault from to s with (Err _, s') => nodes s' = nodes s | _ => False end.
Proof.
  intros Hp. unfold rename, syscall, tick. unfold_method.
  destruct (fault _) as [[]|]; [done|]. cbn. rewrite Hp. by destruct (negb _).
Qed.

Lemma create_dir_spec p s :
  match create_dir fault p s with
  | (Ok _, s') => nodes s !! resolve p = None /\ nodes s' = <[resolve p := Dir]> (nodes s)
  | (Err _, s') => nodes s' = nodes s
  | (Panic, _) => False
  end.
Proof.
  unfold create_dir, syscall, tick. unfold_method. destruct (fault _) as [[e n]|]; [done|].
  cbn. split_ifs; bool_to_prop; try done. cbn. split; [|done].
  by apply dec_stable.
Qed.
End call_specs.

(** ** Moving a directory *)
Section move.
Context (a b : path) (m : gmap path Fs.node).

Lemma lookup_moved k :
  (list_to_map ((fun '(k, v) => (b ++ drop (length a) k, v)) <$>
    filter (fun '(k, _) => a `prefix_of` k) (map_to_list m)) : gmap path Fs.node) !! k
  = if decide (b `prefix_of` k) then m !! (a ++ drop (length b) k) else None.
Proof.
  set (l := _ <$> _). assert (NoDup l.*1) as Hnd.
  { unfold l. rewrite <- list_fmap_compose. apply NoDup_fmap_2_strong.
    - intros [k1 v1] [k2 v2] [H1 Hm1]%list_elem_of_filter [H2 Hm2]%list_elem_of_filter Heq.
      cbn in Heq. apply app_inv_head in Heq. destruct H1 as [r1 ->], H2 as [r2 ->].
      rewrite !drop_app_length in Heq. subst. apply elem_of_map_to_list in Hm1, Hm2. congruence.
    - apply NoDup_filter, NoDup_map_to_list. }
  assert (forall v, (k, v) ∈ l <-> b `prefix_of` k /\ m !! (a ++ drop (length b) k) = Some v) as Hl.
  { intros v. unfold l. rewrite list_elem_of_fmap. split.
    - intros ([k0 v0] & [= -> ->] & [[r ->] Hm]%list_elem_of_filter). apply elem_of_map_to_list in Hm.
      split; [by eexists|]. by rewrite !drop_app_length.
    - intros [[r ->] Hm]. rewrite drop_app_length in Hm. exists (a ++ r, v).
      rewrite drop_app_length. split; [done|]. apply list_elem_of_filter.
      split; [by eexists|]. by apply elem_of_map_to_list. }
  destruct (list_to_map l !! k) as [v|] eqn:E.
  - apply elem_of_list_to_map_2, Hl in E as [Hb Hm]. by rewrite decide_True.
  - destruct (decide (b `prefix_of` k)) as [Hb|]; [|done].
    destruct (m !! (a ++ drop (length b) k)) as [v|] eqn:Hm; [|done].
    by rewrite (elem_of_list_to_map_1 l k v Hnd (proj2 (Hl v) (conj Hb eq_refl))) in E.
Qed.

Lemma lookup_move k :
  Fs.move a b m !! k =
  if decide (b `prefix_of` k) then m !! (a ++ drop (length b) k)
  else if decide (a `prefix_of` k) then None else m !! k.
Proof.
  unfold Fs.move. rewrite lookup_union, lookup_moved.
  destruct (decide (b `prefix_of` k)) as [Hb|Hb].
  - assert (filter (fun '(k, _) => ~ a `prefix_of` k /\ ~ b `prefix_of` k) m !! k = None) as ->.
    { apply map_lookup_filter_None. right. intros x _ [_ H]. by destruct H. }
    by rewrite right_id_L by apply _.
  - rewrite left_id_L by apply _. destruct (decide (a `prefix_of` k)) as [Ha|Ha].
    + apply map_lookup_filter_None. right. intros x _ [H _]. by destruct H.
    + destruct (m !! k) as [v|] eqn:Hk.
      * by apply map_lookup_filter_Some.
      * apply map_lookup_filter_None. by left.
Qed.
End move.

(** [rename] touches nothing outside the two paths. *)
Lemma rename_frame fault from to s k :
  ~ resolve from `prefix_of` k -> ~ resolve to `prefix_of` k ->
  match Fs.rename fault from to s with
  | (Panic, _) => False | (_, s') => Fs.nodes s' !! k = Fs.nodes s !! k end.
Proof.
  intros Ha Hb. destruct (Fs.nodes s !! resolve from) as [[content|]|] eqn:E.
  - pose proof (rename_file_spec fault from to s content E) as H.
    destruct (Fs.rename fault from to s) as [[[]|e|] s']; [|by rewrite H|done].
    rewrite H, lookup_insert_ne, lookup_delete_ne; [done|by intros <-; apply Ha|by intros <-; apply Hb].
  - destruct (decide (resolve from = resolve to)) as [Heq|Hne].
    + unfold Fs.rename, Fs.syscall, Fs.tick. unfold_method. destruct (fault _) as [[]|]; [done|].
      cbn. rewrite E. destruct (negb _); [done|]. by rewrite bool_decide_true.
    + pose proof (rename_dir_spec fault from to s E Hne) as H.
      destruct (Fs.rename fault from to s) as [[[]|e|] s']; [|by rewrite H|done].
      destruct H as [-> _]. rewrite lookup_move.
      destruct (decide (resolve to `prefix_of` k)); [done|]. by destruct (decide (resolve from `prefix_of` k)).
  - pose proof (rename_missing fault from to s E) as H.
    destruct (Fs.rename fault from to s) as [[[]|e|] s']; [done|by rewrite H|done].
Qed.

(** Moving there and back, when there was nothing there. *)
Lemma move_back a b m :
  ~ a `prefix_of` b -> ~ b `prefix_of` a -> (forall q, m !! (b ++ q) = None) ->
  Fs.move b a (Fs.move a b m) = m.
Proof.
  intros Hab Hba Hfresh. apply map_eq. intros k. rewrite lookup_move.
  destruct (decide (a `prefix_of` k)) as [[q ->]|Ha].
  - rewrite drop_app_length, lookup_move. rewrite decide_True by by eexists.
    by rewrite drop_app_length.
  - destruct (decide (b `prefix_of` k)) as [[q ->]|Hb]; [by rewrite Hfresh|].
    rewrite lookup_move. by rewrite !decide_False by done.
Qed.

Lemma move_insert a b k x m :
  ~ a `prefix_of` k -> ~ b `prefix_of` k -> ~ a `prefix_of` b ->
  Fs.move a b (<[k := x]> m) = <[k := x]> (Fs.move a b m).
Proof.
  intros Ha Hb Hab. apply map_eq. intros i. rewrite lookup_move.
  destruct (decide (i = k)) as [->|Hik].
  - rewrite lookup_insert_eq. by rewrite !decide_False, lookup_insert_eq by done.
  - rewrite !(lookup_insert_ne _ k i) by done. rewrite lookup_move.
    destruct (decide (b `prefix_of` i)); [|done].
    rewrite lookup_insert_ne; [done|]. intros ->. apply Ha. by eexists.
Qed.
