(* ===== verification/Transaction.v ===== *)
(** * Revision transactions (src/src/controller.rs)

    [RevisionTransaction] stages artifacts in a candidate directory, has them
    validated, moves the directory among the revisions and repoints [current];
    [rollback] repoints it at the previous revision.  The file system is that
    of the file Filesystem, where any call may fail.  The clock reading and the
    process id that make the revision's name are arguments; the validator is a
    parameter that reads the file system. *)
From Stdlib Require Import Ascii.
From stdpp Require Import pretty.
From S2P Require Import Prelude Filesystem.

Inductive TransactionState := Candidate | Validated | Committed | RolledBack.

#[global] Instance TransactionState_eq_dec : EqDecision TransactionState.
Proof. solve_decision. Defined.

Inductive TransactionError :=
| Io (error : string)
| InvalidState (expected actual : TransactionState)
| InvalidArtifactName
| Validation (reason : string)
| NoPreviousRevision.

(** Computations over a state [S] that fail with a [TransactionError]. *)
Definition txn (S A : Type) : Type := S -> outcome TransactionError A * S.

#[global] Instance txn_ret {S} : MRet (txn S) := fun A a s => (Ok a, s).
#[global] Instance txn_bind {S} : MBind (txn S) := fun A B f m s =>
  match m s with
  | (Ok a, s) => f a s
  | (Err e, s) => (Err e, s)
  | (Panic, s) => (Panic, s)
  end.

Definition throw {S A} (e : TransactionError) : txn S A := fun s => (Err e, s).

(** [?] on an [io::Result] ([From<io::Error>]). *)
Definition io_error {A} (r : result A) : outcome TransactionError A :=
  match r with Ok a => Ok a | Err e => Err (Io e) | Panic => Panic end.

Definition is_plain_file_name (value : string) : bool :=
  negb (bool_decide (value = ""%string)) && (length (components value) =? 1)%nat &&
  match head (components value) with Some (Normal _) => true | _ => false end.

(** [cfg!(windows)] on the gateways, which run Linux. *)
Definition cfg_windows : bool := false.

Definition newline : string := String "010"%char EmptyString.

(** [write_pointer] *)
Definition write_pointer (fault : nat -> option (string * nat)) (root : path) (name revision : string) : method Fs.t () :=
  let temporary := join root ("." +:+ name +:+ ".tmp") in
  let backup := join root ("." +:+ name +:+ ".previous") in
  let destination := join root name in
  _ ← Fs.create_new fault temporary;
  _ ← Fs.write_all fault temporary (bytes_of_string (revision +:+ newline));
  _ ← Fs.sync_all fault temporary;
  there ← (if cfg_windows then Fs.exists_ fault destination else mret false);
  if there : bool then
    old ← Fs.exists_ fault backup;
    _ ← (if old : bool then Fs.remove_file fault backup else mret ());
    _ ← Fs.rename fault destination backup;
    _ ← (fun s => match Fs.rename fault temporary destination s with
      | (Err e, s) => (Err e, snd (Fs.rename fault backup destination s))
      | r => r end);
    Fs.remove_file fault backup
  else Fs.rename fault temporary destination.

Module RevisionTransaction.
Record t := mk {
  root : path;
  candidate : path;
  previous : option string;
  revision_id : string;
  state : TransactionState;
}.

Definition set_state x (tx : t) := mk (root tx) (candidate tx) (previous tx) (revision_id tx) x.

(** [&mut self] methods act on the transaction and the file system. *)
Abbreviation self := (t * Fs.t)%type.

Definition this : txn self t := fun s => (Ok (fst s), s).
Definition become (state : TransactionState) : txn self () := fun '(tx, s) => (Ok (), (set_state state tx, s)).

(** An I/O call: [io] propagates its error with [?], [attempt] returns it. *)
Definition io {A} (m : method Fs.t A) : txn self A := fun '(tx, s) =>
  let '(r, s) := m s in (io_error r, (tx, s)).

Definition attempt {A} (m : method Fs.t A) : txn self (result A) := fun '(tx, s) =>
  match m s with
  | (Panic, s) => (Panic, (tx, s))
  | (r, s) => (Ok r, (tx, s))
  end.

(** [RevisionTransaction::expect] *)
Definition expect (expected : TransactionState) : txn self () :=
  tx ← this;
  if bool_decide (state tx = expected) then mret () else throw (InvalidState expected (state tx)).

Section methods.
Context (fault : nat -> option (string * nat)).

(** [RevisionTransaction::begin] *)
Definition begin (root : path) (previous : option string) (now : option N) (pid : N) : txn Fs.t t :=
  let try {A} (m : method Fs.t A) : txn Fs.t A := fun s => let '(r, s) := m s in (io_error r, s) in
  if match previous with Some value => negb (is_plain_file_name value) | None => false end
  then throw InvalidArtifactName else
  _ ← try (Fs.create_dir_all fault (join root "candidates"));
  _ ← try (Fs.create_dir_all fault (join root "revisions"));
  nanos ← (match now with
    | Some nanos => mret nanos
    | None => throw (Io "system clock before epoch")
    end);
  let revision_id := ("rev-" +:+ pretty (nanos : N) +:+ "-" +:+ pretty pid)%string in
  let candidate := join (join root "candidates") revision_id in
  _ ← try (Fs.create_dir fault candidate);
  mret (mk root candidate previous revision_id Candidate).

(** [RevisionTransaction::stage] *)
Definition stage (artifact_name : string) (data : bytes) : txn self () :=
  _ ← expect Candidate;
  if negb (is_plain_file_name artifact_name) then throw InvalidArtifactName else
  tx ← this;
  let destination := join (candidate tx) artifact_name in
  let temporary := join (candidate tx) ("." +:+ artifact_name +:+ ".tmp") in
  _ ← io (Fs.create_new fault temporary);
  written ← attempt (_ ← Fs.write_all fault temporary data; Fs.sync_all fault temporary);
  match written with
  | Err error => _ ← attempt (Fs.remove_file fault temporary); throw (Io error)
  | _ =>
      renamed ← attempt (Fs.rename fault temporary destination);
      match renamed with
      | Err error => _ ← attempt (Fs.remove_file fault temporary); throw (Io error)
      | _ => mret ()
      end
  end.

(** [RevisionTransaction::validate] *)
Definition validate (validator : path -> Fs.t -> string + ()) : txn self () :=
  _ ← expect Candidate;
  _ ← (fun '(tx, s) => match validator (candidate tx) s with
    | inr _ => (Ok (), (tx, s))
    | inl reason => (Err (Validation reason), (tx, s))
    end);
  become Validated.

(** [RevisionTransaction::commit] *)
Definition commit : txn self () :=
  _ ← expect Validated;
  tx ← this;
  let committed := join (join (root tx) "revisions") (revision_id tx) in
  _ ← io (Fs.rename fault (candidate tx) committed);
  pointed ← attempt (write_pointer fault (root tx) "current" (revision_id tx));
  match pointed with
  | Err error => _ ← attempt (Fs.rename fault committed (candidate tx)); throw (Io error)
  | _ => become Committed
  end.

(** [RevisionTransaction::rollback] *)
Definition rollback : txn self () :=
  _ ← expect Committed;
  tx ← this;
  match previous tx with
  | None => throw NoPreviousRevision
  | Some previous =>
      let previous_path := join (join (root tx) "revisions") previous in
      there ← io (Fs.is_dir fault previous_path);
      if negb there then throw NoPreviousRevision else
      _ ← io (write_pointer fault (root tx) "current" previous);
      become RolledBack
  end.
End methods.
End RevisionTransaction.

(** ** The transaction's paths *)
Import RevisionTransaction.

Definition pointer (root : path) : path := root ++ ["current"%string].
Definition pointer_tmp (root : path) : path := root ++ [".current.tmp"%string].
Definition candidate_dir (root : path) (id : string) : path := root ++ ["candidates"%string; id].
Definition revision_dir (root : path) (id : string) : path := root ++ ["revisions"%string; id].

(** A single plain segment, as the revision's name is. *)
Definition one_name (id : string) : Prop := segments id = [id] /\ plain id /\ absolute id = false.

(** What [begin] establishes of the transaction's fields. *)
Definition tx_ok (tx : t) : Prop :=
  clean (root tx) /\ one_name (revision_id tx) /\
  candidate tx = candidate_dir (root tx) (revision_id tx) /\
  match previous tx with Some v => is_plain_file_name v = true | None => True end.

Lemma one_name_intro id :
  bool_decide (segments id = [id]) && bool_decide (plain id) && negb (absolute id) = true -> one_name id.
Proof. intros H. bool_to_prop. done. Qed.

Lemma join_name p n : one_name n -> join p n = p ++ [n].
Proof. intros (Hs & _ & Ha). unfold join. by rewrite Ha, Hs. Qed.

Lemma clean_app p q : clean p -> clean q -> clean (p ++ q).
Proof. apply Forall_app_2. Qed.

Lemma resolve_names p q : clean p -> clean q -> resolve (p ++ q) = p ++ q.
Proof. intros. by apply resolve_clean, clean_app. Qed.

Lemma join_const root n : clean root -> one_name n ->
  join root n = root ++ [n] /\ resolve (join root n) = root ++ [n].
Proof.
  intros Hr Hn. rewrite join_name by done. split; [done|].
  apply resolve_names; [done|]. constructor; [apply Hn|constructor].
Qed.

(** [current] is repointed as a whole or not at all; a failure after the open
    leaves the temporary file. *)
Lemma write_pointer_spec fault root rev s :
  clean root ->
  match write_pointer fault root "current" rev s with
  | (Ok _, s') => Fs.nodes s !! pointer_tmp root = None /\
      Fs.nodes s' = <[pointer root := Fs.File (bytes_of_string (rev +:+ newline))]> (Fs.nodes s)
  | (Err _, s') => Fs.nodes s' = Fs.nodes s \/
      (Fs.nodes s !! pointer_tmp root = None /\
       exists c, Fs.nodes s' = <[pointer_tmp root := Fs.File c]> (Fs.nodes s))
  | (Panic, _) => False
  end.
Proof.
  intros Hr. unfold write_pointer, cfg_windows.
  destruct (join_const root "current" Hr (one_name_intro "current" eq_refl)) as [_ Hcur].
  destruct (join_const root ".current.tmp" Hr (one_name_intro ".current.tmp" eq_refl)) as [_ Htmp].
  change ("." +:+ "current" +:+ ".tmp")%string with ".current.tmp"%string.
  fold (pointer root) in Hcur. fold (pointer_tmp root) in Htmp.
  assert (pointer_tmp root <> pointer root) as Hne by (intros H; by apply app_inv_head in H).
  unfold_method.
  pose proof (create_new_spec fault (join root ".current.tmp") s) as H1. rewrite Htmp in H1.
  destruct (Fs.create_new _ _ s) as [[[]|e|] s1]; [|by left|done]. destruct H1 as [Hnone H1].
  pose proof (write_all_spec fault (join root ".current.tmp") (bytes_of_string (rev +:+ newline)) [] s1) as H2.
  rewrite Htmp, H1, lookup_insert_eq in H2. specialize (H2 eq_refl).
  destruct (Fs.write_all _ _ _ s1) as [[[]|e|] s2]; [| |done].
  2: { right. destruct H2 as [n H2]. split; [done|]. rewrite insert_insert_eq in H2. by eexists. }
  rewrite insert_insert_eq in H2.
  pose proof (sync_all_spec fault (join root ".current.tmp") s2) as H3.
  destruct (Fs.sync_all _ _ s2) as [[[]|e|] s3]; [| |done].
  2: { right. split; [done|]. rewrite H3, H2. by eexists. }
  pose proof (rename_file_spec fault (join root ".current.tmp") (join root "current") s3
    ([] ++ bytes_of_string (rev +:+ newline))) as H4.
  rewrite Htmp, Hcur, H3, H2, lookup_insert_eq in H4. specialize (H4 eq_refl).
  destruct (Fs.rename _ _ _ s3) as [[[]|e|] s4]; [| |done].
  - split; [done|]. rewrite H4. cbn [app]. f_equal. rewrite delete_insert_eq. by apply delete_id.
  - right. split; [done|]. rewrite H4. by eexists.
Qed.

(** ** Artifact names *)
Lemma plain_file_name_inv v :
  is_plain_file_name v = true ->
  absolute v = false /\ exists n tl, segments v = n :: tl /\ plain n /\
    Forall (fun x => is_empty_or_dot x = true) tl.
Proof.
  unfold is_plain_file_name, components.
  intros [[Hne Hlen]%andb_true_iff Hhead]%andb_true_iff. apply Nat.eqb_eq in Hlen.
  destruct (absolute v) eqn:Ha; [done|]. split; [done|].
  destruct (segments v) as [|w ws] eqn:Hs; [by destruct (segments_not_nil v)|]. cbn [head] in *.
  case_bool_decide as Hdot; [done|]. cbn [app] in *.
  assert (is_empty_or_dot w = false) as Hw.
  { unfold is_empty_or_dot. rewrite (bool_decide_false (w = ".")%string) by congruence.
    rewrite orb_false_r. apply bool_decide_eq_false. intros ->. destruct v as [|c v]; [done|].
    cbn in Hs, Ha. rewrite Ha in Hs. by destruct (segments v). }
  rewrite filter_cons, decide_True in * by done. cbn [length fmap list_fmap head] in *.
  exists w, ws. split; [done|]. split.
  - split; [done|]. intros ->. discriminate Hhead.
  - apply Forall_forall. intros x Hx. destruct (is_empty_or_dot x) eqn:E; [done|].
    assert (x ∈ filter (fun x => is_empty_or_dot x = false) ws) as Hin by (by apply list_elem_of_filter).
    destruct (filter _ ws); [by apply not_elem_of_nil in Hin|]. cbn in *. lia.
Qed.

Lemma length_string_app a b : String.length (a +:+ b) = (String.length a + String.length b)%nat.
Proof. induction a as [|c a IH]; [done|]. change (String c a +:+ b) with (String c (a +:+ b)). cbn. lia. Qed.

Lemma long_plain s : (2 < String.length s)%nat -> plain s.
Proof.
  intros H. split; [|by intros ->; cbn in H; lia].
  unfold is_empty_or_dot. rewrite !bool_decide_false; [done|by intros ->; cbn in H; lia..].
Qed.

Lemma dot_plain n : plain n -> plain (String "."%char n).
Proof.
  intros [Hn _]. unfold is_empty_or_dot in Hn. bool_to_prop. split.
  - unfold is_empty_or_dot. rewrite !bool_decide_false; [done|congruence..].
  - congruence.
Qed.

Lemma walk_names at_ q : clean q -> foldl walk at_ q = at_ ++ q.
Proof. intros Hq. rewrite walk_down by by apply clean_no_dotdot. by rewrite clean_filter. Qed.

Lemma walk_dots at_ q : Forall (fun x => is_empty_or_dot x = true) q -> foldl walk at_ q = at_.
Proof.
  induction 1 as [|x q Hx _ IH]; [done|]. cbn. unfold walk at 2. by rewrite Hx.
Qed.

(** The artifact and its temporary file: two different names, both inside the
    candidate directory. *)
Lemma stage_paths c v :
  clean c -> is_plain_file_name v = true ->
  exists n q, head (segments v) = Some n /\ plain n /\ resolve (join c v) = c ++ [n] /\
    resolve (join c ("." +:+ v +:+ ".tmp")) = c ++ q /\ q <> [n] /\ q <> [].
Proof.
  intros Hc Hv. destruct (plain_file_name_inv v Hv) as (Ha & n & tl & Hs & Hn & Htl).
  pose proof (resolve_clean c Hc) as Hrc. unfold join. rewrite Ha, resolve_app, Hrc, Hs. cbn [head].
  assert (foldl walk c (n :: tl) = c ++ [n]) as Hdest.
  { change (n :: tl) with ([n] ++ tl). rewrite foldl_app, walk_dots by done.
    by apply walk_names; constructor. }
  change ("." +:+ v +:+ ".tmp")%string with (String "."%char (v +:+ ".tmp")). cbn [absolute].
  rewrite bool_decide_false by done. rewrite resolve_app, Hrc. cbn [segments].
  rewrite bool_decide_false by done.
  destruct (segments_app v ".tmp") as (l & w & x & r & Hvl & [= <- <-] & ->). rewrite Hs in Hvl.
  destruct l as [|y l]; injection Hvl as -> ->; cbn [app].
  - exists w, [String "."%char (w +:+ ".tmp")]. split_and!; try done.
    + apply walk_names. constructor; [|constructor]. apply long_plain. cbn. rewrite length_string_app. cbn. lia.
    + intros [= Hw]. apply (f_equal String.length) in Hw. cbn in Hw. rewrite length_string_app in Hw. cbn in Hw. lia.
  - exists y, [String "."%char y; w +:+ ".tmp"]. split_and!; try done.
    apply Forall_app in Htl as [Hl _].
    change (String "."%char y :: l ++ [w +:+ ".tmp"]) with ([String "."%char y] ++ l ++ [w +:+ ".tmp"]).
    rewrite !foldl_app, walk_names, walk_dots, walk_names; [by rewrite <- (assoc_L (++))| | |].
    + constructor; [by apply dot_plain|constructor].
    + done.
    + constructor; [|constructor]. apply long_plain. rewrite length_string_app. cbn. lia.
Qed.

(** ** The methods *)
Ltac unfold_txn := unfold mbind, txn_bind, mret, txn_ret, this, become, io, attempt, throw; cbn beta iota zeta.

Lemma expect_eq expected tx s :
  expect expected (tx, s) =
  (if bool_decide (state tx = expected) then Ok () else Err (InvalidState expected (state tx)), (tx, s)).
Proof. unfold expect. unfold_txn. cbn. by case_bool_decide. Qed.

(** In the wrong state a method does nothing. *)
Definition refused {A} (expected : TransactionState) (m : txn self A) : Prop :=
  forall tx s, state tx <> expected -> m (tx, s) = (Err (InvalidState expected (state tx)), (tx, s)).

Lemma refused_expect {A} expected (k : () -> txn self A) : refused expected (mbind k (expect expected)).
Proof. intros tx s H. unfold_txn. rewrite expect_eq. by rewrite bool_decide_false. Qed.

Lemma candidate_clean tx : tx_ok tx -> clean (candidate tx).
Proof.
  intros (Hr & (_ & Hid & _) & -> & _). apply clean_app; [done|].
  repeat constructor; [|apply Hid..]. intros [=].
Qed.

Section methods.
Context (fault : nat -> option (string * nat)).

(** What a failed call leaves of a temporary file that did not exist before:
    nothing; or the file when removing it was made to fail as well, in the last
    call. *)
Lemma cleanup_spec tmp s s2 x :
  Fs.nodes s !! resolve tmp = None -> Fs.nodes s2 = <[resolve tmp := Fs.File x]> (Fs.nodes s) ->
  match Fs.remove_file fault tmp s2 with
  | (Ok _, s') => Fs.nodes s' = Fs.nodes s
  | (Err _, s') => Fs.nodes s' = <[resolve tmp := Fs.File x]> (Fs.nodes s) /\
      Fs.calls s' = S (Fs.calls s2) /\ fault (Fs.calls s2) <> None /\
      exists s4, Fs.remove_file (heal (Fs.calls s2) fault) tmp s2 = (Ok (), s4) /\ Fs.nodes s4 = Fs.nodes s
  | (Panic, _) => False
  end.
Proof.
  intros Hnone H2.
  assert (forall fault', match Fs.remove_file fault' tmp s2 with
    | (Ok _, s') => Fs.nodes s' = Fs.nodes s | (Err _, s') => Fs.nodes s' = Fs.nodes s2 | (Panic, _) => False end) as Hany.
  { intros fault'. pose proof (remove_file_spec fault' tmp s2 x) as H3.
    rewrite H2, lookup_insert_eq, delete_insert_eq, delete_id in H3 by done. rewrite H2. exact (H3 eq_refl). }
  destruct (remove_file_one tmp) as [Hcalls Hsame]. specialize (Hcalls fault s2).
  specialize (Hsame fault (heal (Fs.calls s2) fault) s2).
  assert (fst (Fs.remove_file (heal (Fs.calls s2) fault) tmp s2) = Ok ()) as Hok.
  { unfold Fs.remove_file, Fs.syscall, Fs.tick. unfold_method. rewrite heal_same. cbn.
    by rewrite H2, lookup_insert_eq. }
  pose proof (Hany fault) as H3. pose proof (Hany (heal (Fs.calls s2) fault)) as H4.
  destruct (Fs.remove_file (heal _ _) tmp s2) as [r4 s4]. cbn [fst] in Hok. subst r4.
  destruct (Fs.remove_file fault tmp s2) as [[[]|e|] s3]; [done| |done]. cbn [snd] in Hcalls.
  rewrite H3, H2. split_and!; [done|done| |by exists s4].
  intros Hnf. by specialize (Hsame ltac:(by rewrite heal_same, Hnf)).
Qed.

(** The temporary file of an artifact. *)
Definition stage_tmp (tx : t) (v : string) : path := resolve (join (candidate tx) ("." +:+ v +:+ ".tmp")).

(** What [stage] leaves when it fails: nothing new; or the temporary file with a
    prefix of the artifact, and then only because removing it, the last call, was made to
    fail: with that call healed the same error leaves nothing new. *)
Definition cleaned (v : string) (data : bytes) (tx : t) (s : Fs.t) (e : TransactionError) (s' : Fs.t) : Prop :=
  Fs.nodes s' = Fs.nodes s \/
  is_plain_file_name v = true /\
  (exists left_over, left_over `prefix_of` data /\ Fs.nodes s !! stage_tmp tx v = None /\
     Fs.nodes s' = <[stage_tmp tx v := Fs.File left_over]> (Fs.nodes s)) /\
  let last := (Fs.calls s' - 1)%nat in
  fault last <> None /\
  exists s'', stage (heal last fault) v data (tx, s) = (Err e, (tx, s'')) /\ Fs.nodes s'' = Fs.nodes s.

(** Removing the temporary file and reporting the error. *)
Definition gives_up (fault' : nat -> option (string * nat)) (tmp : path) (e : string) (tx : t) (s : Fs.t)
    : outcome TransactionError () * self :=
  let '(r, s) := Fs.remove_file fault' tmp s in (match r with Panic => Panic | _ => Err (Io e) end, (tx, s)).

(** [stage], call by call. *)
Lemma stage_calls fault' v data tx s :
  state tx = Candidate -> is_plain_file_name v = true ->
  let tmp := join (candidate tx) ("." +:+ v +:+ ".tmp") in let dst := join (candidate tx) v in
  stage fault' v data (tx, s) =
  match Fs.create_new fault' tmp s with
  | (Ok _, s) => match Fs.write_all fault' tmp data s with
    | (Ok _, s) => match Fs.sync_all fault' tmp s with
      | (Ok _, s) => match Fs.rename fault' tmp dst s with
        | (Ok _, s) => (Ok (), (tx, s))
        | (Err e, s) => gives_up fault' tmp e tx s
        | (Panic, s) => (Panic, (tx, s))
        end
      | (Err e, s) => gives_up fault' tmp e tx s
      | (Panic, s) => (Panic, (tx, s))
      end
    | (Err e, s) => gives_up fault' tmp e tx s
    | (Panic, s) => (Panic, (tx, s))
    end
  | (Err e, s) => (Err (Io e), (tx, s))
  | (Panic, s) => (Panic, (tx, s))
  end.
Proof.
  intros Hst Hv tmp dst. unfold stage, gives_up. unfold_txn. rewrite expect_eq, bool_decide_true, Hv by done.
  cbn [negb fst]. fold tmp dst. unfold_method.
  destruct (Fs.create_new fault' tmp s) as [[[]|e|] s1]; [|done..]. cbn [io_error].
  destruct (Fs.write_all fault' tmp data s1) as [[[]|e|] s2]; [|by destruct (Fs.remove_file _ _ _) as [[]]|done].
  destruct (Fs.sync_all fault' tmp s2) as [[[]|e|] s3]; [|by destruct (Fs.remove_file _ _ _) as [[]]|done].
  by destruct (Fs.rename fault' tmp dst s3) as [[[]|e|] s4]; [|destruct (Fs.remove_file _ _ _) as [[]]|].
Qed.

(** A failure after the temporary file was written in part or in full. *)
Lemma cleaned_after v data tx s s2 e x :
  let tmp := join (candidate tx) ("." +:+ v +:+ ".tmp") in
  is_plain_file_name v = true ->
  Fs.nodes s !! resolve tmp = None -> Fs.nodes s2 = <[resolve tmp := Fs.File x]> (Fs.nodes s) -> x `prefix_of` data ->
  (forall fault', (forall i, (i < Fs.calls s2)%nat -> fault' i = fault i) ->
     stage fault' v data (tx, s) = gives_up fault' tmp e tx s2) ->
  exists s', gives_up fault tmp e tx s2 = (Err (Io e), (tx, s')) /\ cleaned v data tx s (Io e) s'.
Proof.
  intros tmp Hv Hnone H2 Hx Hrun. pose proof (cleanup_spec tmp s s2 x Hnone H2) as H3. unfold gives_up in *.
  destruct (Fs.remove_file fault tmp s2) as [[[]|e'|] s3]; [|..|done]; exists s3; (split; [done|]); [by left|].
  destruct H3 as (H3 & C3 & Hf & s4 & Hh & H4). right. split; [done|]. split; [by exists x|].
  rewrite C3, Nat.sub_succ, Nat.sub_0_r. split; [done|]. exists s4.
  rewrite Hrun by (intros i Hi; by apply heal_before). by rewrite Hh.
Qed.

Lemma stage_spec v data tx s :
  tx_ok tx -> state tx = Candidate ->
  let c := candidate tx in
  match stage fault v data (tx, s) with
  | (Ok _, (tx', s')) => tx' = tx /\ is_plain_file_name v = true /\
      exists n, head (segments v) = Some n /\ plain n /\
        Fs.nodes s' = <[c ++ [n] := Fs.File data]> (Fs.nodes s)
  | (Err e, (tx', s')) => tx' = tx /\ cleaned v data tx s e s'
  | (Panic, _) => False
  end.
Proof.
  intros Hok Hst c. pose proof (candidate_clean tx Hok) as Hc.
  destruct (is_plain_file_name v) eqn:Hv.
  2: { unfold stage. unfold_txn. rewrite expect_eq, bool_decide_true, Hv by done. split; [done|by left]. }
  destruct (stage_paths c v Hc Hv) as (n & q & Hhead & Hn & Hdst & Htmp & Hne & Hnil).
  pose proof (cleaned_after v data tx s) as Hclean. cbv zeta in Hclean.
  pose proof (fun fault' => stage_calls fault' v data tx s Hst Hv) as Hcalls. cbv zeta in Hcalls.
  rewrite Hcalls. setoid_rewrite Hcalls in Hclean. clear Hcalls. fold c in Hclean |- *.
  set (tmp := join c ("." +:+ v +:+ ".tmp")) in *. set (dst := join c v) in *. rewrite Htmp in Hclean.
  assert (c ++ q <> c ++ [n]) as Hneq by (by intros H%app_inv_head).
  destruct (create_new_one tmp) as [C1 E1]. specialize (C1 fault s). pose proof (create_new_spec fault tmp s) as H1.
  rewrite Htmp in H1. destruct (Fs.create_new fault tmp s) as [[[]|e|] s1] eqn:F1; [|split; [done|by left]|done].
  destruct H1 as [Hnone H1]. cbn [snd] in C1. specialize (fun s2 e x => Hclean s2 e x Hv Hnone) as Hclean'.
  destruct (write_all_one tmp data) as [C2 E2]. specialize (C2 fault s1). pose proof (write_all_spec fault tmp data [] s1) as H2.
  rewrite Htmp, H1, lookup_insert_eq in H2. specialize (H2 eq_refl).
  destruct (Fs.write_all fault tmp data s1) as [[[]|e|] s2] eqn:F2; cbn [snd] in C2; [| |done].
  2: { destruct H2 as [k H2]. rewrite insert_insert_eq in H2.
    destruct (Hclean' s2 e (take k data) H2) as (s' & -> & Hd); [by exists (drop k data); rewrite take_drop| |done].
    intros fault' Hf. by rewrite (E1 fault), F1, (E2 fault), F2 by (apply Hf; lia). }
  rewrite insert_insert_eq in H2. cbn [app] in H2.
  destruct (sync_all_one tmp) as [C3 E3]. specialize (C3 fault s2). pose proof (sync_all_spec fault tmp s2) as H3.
  destruct (Fs.sync_all fault tmp s2) as [[[]|e|] s3] eqn:F3; cbn [snd] in C3; [| |done]; rewrite H2 in H3.
  2: { destruct (Hclean' s3 e data H3) as (s' & -> & Hd); [done| |done].
    intros fault' Hf. by rewrite (E1 fault), F1, (E2 fault), F2, (E3 fault), F3 by (apply Hf; lia). }
  destruct (rename_one tmp dst) as [C4 E4]. specialize (C4 fault s3). pose proof (rename_file_spec fault tmp dst s3 data) as H4.
  rewrite Htmp, Hdst, H3, lookup_insert_eq in H4. specialize (H4 eq_refl).
  destruct (Fs.rename fault tmp dst s3) as [[[]|e|] s4] eqn:F4; cbn [snd] in C4; [| |done].
  - split_and!; [done|done|]. exists n. split_and!; [done|done|]. rewrite H4, delete_insert_eq. by rewrite delete_id.
  - destruct (Hclean' s4 e data H4) as (s' & -> & Hd); [done| |done].
    intros fault' Hf. by rewrite (E1 fault), F1, (E2 fault), F2, (E3 fault), F3, (E4 fault), F4 by (apply Hf; lia).
Qed.

(** The pointer files lie outside the two directories, which do not contain
    each other. *)
Lemma paths_apart root id :
  let cand := candidate_dir root id in let comm := revision_dir root id in
  ~ cand `prefix_of` pointer root /\ ~ comm `prefix_of` pointer root /\
  ~ cand `prefix_of` pointer_tmp root /\ ~ comm `prefix_of` pointer_tmp root /\
  ~ cand `prefix_of` comm /\ ~ comm `prefix_of` cand /\ pointer_tmp root <> pointer root.
Proof.
  cbn. unfold pointer, pointer_tmp, candidate_dir, revision_dir.
  split_and!; first [intros [r H]; rewrite <- (assoc_L (++)) in H; apply app_inv_head in H; discriminate H
    | intros H; apply app_inv_head in H; discriminate H].
Qed.

Lemma committed_path tx : tx_ok tx ->
  resolve (join (join (root tx) "revisions") (revision_id tx)) = revision_dir (root tx) (revision_id tx) /\
  resolve (candidate tx) = candidate_dir (root tx) (revision_id tx).
Proof.
  intros Hok. pose proof (candidate_clean tx Hok) as Hc. destruct Hok as (Hr & Hid & Hcand & _). split.
  - rewrite (join_name (root tx)) by (by apply one_name_intro). rewrite join_name by done.
    rewrite <- (assoc_L (++)). apply resolve_names; [done|]. repeat constructor; [intros [=]|apply Hid..].
  - rewrite resolve_clean by done. done.
Qed.

(** [commit] on the pointer: repointed by a success, untouched by a failure. *)
Lemma commit_pointer tx s :
  tx_ok tx -> state tx = Validated ->
  match commit fault (tx, s) with
  | (Ok _, (tx', s')) => tx' = set_state Committed tx /\ Fs.nodes s' !! pointer (root tx)
      = Some (Fs.File (bytes_of_string (revision_id tx +:+ newline)))
  | (Err _, (tx', s')) => tx' = tx /\ Fs.nodes s' !! pointer (root tx) = Fs.nodes s !! pointer (root tx)
  | (Panic, _) => False
  end.
Proof.
  intros Hok Hst. unfold commit. unfold_txn. rewrite expect_eq, bool_decide_true by done. cbn [fst].
  destruct (committed_path tx Hok) as [Hcomm Hcand].
  destruct (paths_apart (root tx) (revision_id tx)) as (H1 & H2 & H3 & H4 & H5 & H6 & H7).
  set (committed := join _ (revision_id tx)) in *.
  rewrite <- Hcand, <- Hcomm in *.
  pose proof (rename_frame fault (candidate tx) committed s _ H1 H2) as Hf.
  destruct (Fs.rename fault (candidate tx) committed s) as [[[]|e|] s1]; cbn [io_error]; [|done..].
  pose proof (write_pointer_spec fault (root tx) (revision_id tx) s1 (proj1 Hok)) as Hw.
  destruct (write_pointer fault (root tx) "current" (revision_id tx) s1) as [[[]|e|] s2]; [| |done].
  - destruct Hw as [_ Hw]. split; [done|]. by rewrite Hw, lookup_insert_eq.
  - assert (Fs.nodes s2 !! pointer (root tx) = Fs.nodes s !! pointer (root tx)) as Hp.
    { rewrite <- Hf. destruct Hw as [->|(_ & c & ->)]; [done|]. by rewrite lookup_insert_ne. }
    pose proof (rename_frame fault committed (candidate tx) s2 _ H2 H1) as Hf2.
    destruct (Fs.rename fault committed (candidate tx) s2) as [[[]|e'|] s3]; [| |done];
      (split; [done|congruence]).
Qed.

(** A failed pointer write may have left the temporary file behind. *)
Definition or_tmp (root : path) (before m m' : gmap path Fs.node) : Prop :=
  m' = m \/ (before !! pointer_tmp root = None /\ exists c, m' = <[pointer_tmp root := Fs.File c]> m).

(** [commit] on the whole file system, when the revision's name is fresh. *)
Lemma commit_spec tx s :
  tx_ok tx -> state tx = Validated ->
  let cand := candidate_dir (root tx) (revision_id tx) in
  let comm := revision_dir (root tx) (revision_id tx) in
  Fs.nodes s !! cand = Some Fs.Dir -> (forall q, Fs.nodes s !! (comm ++ q) = None) ->
  match commit fault (tx, s) with
  | (Ok _, (tx', s')) => Fs.nodes s !! pointer_tmp (root tx) = None /\ Fs.nodes s'
      = <[pointer (root tx) := Fs.File (bytes_of_string (revision_id tx +:+ newline))]>
          (Fs.move cand comm (Fs.nodes s))
  | (Err _, (tx', s')) => or_tmp (root tx) (Fs.nodes s) (Fs.nodes s) (Fs.nodes s') \/
      or_tmp (root tx) (Fs.nodes s) (Fs.move cand comm (Fs.nodes s)) (Fs.nodes s')
  | (Panic, _) => False
  end.
Proof.
  intros Hok Hst cand comm Hdir Hfresh. unfold commit. unfold_txn.
  rewrite expect_eq, bool_decide_true by done. cbn [fst].
  destruct (committed_path tx Hok) as [Hcomm Hcand]. fold comm in Hcomm. fold cand in Hcand.
  destruct (paths_apart (root tx) (revision_id tx)) as (H1 & H2 & H3 & H4 & H5 & H6 & H7).
  fold cand comm in H1, H2, H3, H4, H5, H6. set (committed := join _ (revision_id tx)) in *.
  assert (cand <> comm) as Hne by (intros E; apply H5; by rewrite E).
  pose proof (rename_dir_spec fault (candidate tx) committed s) as Hmv. rewrite Hcand, Hcomm in Hmv.
  specialize (Hmv Hdir Hne).
  destruct (Fs.rename fault (candidate tx) committed s) as [[[]|e|] s1]; cbn [io_error]; [| |done].
  2: { left. by left. }
  destruct Hmv as [Hmv _].
  assert (Fs.nodes s1 !! pointer_tmp (root tx) = Fs.nodes s !! pointer_tmp (root tx)) as Htmp.
  { rewrite Hmv, lookup_move. destruct (decide _) as [?|_]; [done|]. by destruct (decide _). }
  pose proof (write_pointer_spec fault (root tx) (revision_id tx) s1 (proj1 Hok)) as Hw.
  destruct (write_pointer fault (root tx) "current" (revision_id tx) s1) as [[[]|e|] s2]; [| |done].
  { destruct Hw as [Hn ->]. by rewrite <- Htmp, <- Hmv. }
  rewrite Htmp, Hmv in Hw.
  assert (Fs.nodes s2 !! comm = Some Fs.Dir) as Hdir2.
  { assert (Fs.move cand comm (Fs.nodes s) !! comm = Some Fs.Dir) as Hm.
    { rewrite lookup_move. destruct (decide _) as [_|Hn]; [|by destruct Hn].
      rewrite drop_ge by done. by rewrite app_nil_r. }
    destruct Hw as [->|(_ & c & ->)]; [done|]. rewrite lookup_insert_ne; [done|].
    intros E. apply H4. by rewrite E. }
  pose proof (rename_dir_spec fault committed (candidate tx) s2) as Hback. rewrite Hcand, Hcomm in Hback.
  specialize (Hback Hdir2 (not_eq_sym Hne)).
  destruct (Fs.rename fault committed (candidate tx) s2) as [[[]|e'|] s3]; [| |done].
  - left. destruct Hback as [-> _]. destruct Hw as [->|(Hn & c & ->)].
    + left. by apply move_back.
    + right. split; [done|]. exists c. by rewrite move_insert, move_back by done.
  - right. rewrite Hback. exact Hw.
Qed.

Lemma validate_spec validator tx s :
  state tx = Candidate ->
  validate validator (tx, s) = match validator (candidate tx) s with
  | inr _ => (Ok (), (set_state Validated tx, s))
  | inl reason => (Err (Validation reason), (tx, s)) end.
Proof.
  intros Hst. unfold validate. unfold_txn. rewrite expect_eq, bool_decide_true by done.
  by destruct (validator _ _).
Qed.

(** [rollback] repoints [current] at the previous revision, or changes
    nothing but the temporary file. *)
Lemma rollback_spec tx s :
  clean (root tx) -> state tx = Committed ->
  match rollback fault (tx, s) with
  | (Ok _, (tx', s')) => exists v, previous tx = Some v /\ tx' = set_state RolledBack tx /\
      Fs.nodes s !! resolve (join (join (root tx) "revisions") v) = Some Fs.Dir /\
      Fs.nodes s' = <[pointer (root tx) := Fs.File (bytes_of_string (v +:+ newline))]> (Fs.nodes s)
  | (Err _, (tx', s')) => tx' = tx /\ or_tmp (root tx) (Fs.nodes s) (Fs.nodes s) (Fs.nodes s')
  | (Panic, _) => False
  end.
Proof.
  intros Hr Hst. unfold rollback. unfold_txn. rewrite expect_eq, bool_decide_true by done. cbn [fst].
  destruct (previous tx) as [v|] eqn:Hv; [|split; [done|by left]].
  set (dir := join _ v). pose proof (is_dir_spec fault dir s) as Hd.
  destruct (Fs.is_dir fault dir s) as [[b| |] s1]; [|done..]. destruct Hd as [Hn Hd]. cbn [io_error].
  destruct b; cbn [negb]; [|split; [done|by left]].
  pose proof (write_pointer_spec fault (root tx) v s1 Hr) as Hw. rewrite Hn in Hw.
  destruct (write_pointer fault (root tx) "current" v s1) as [[[]|e|] s2]; [| |done].
  - exists v. split_and!; [done|done|by apply Hd|apply Hw].
  - done.
Qed.
End methods.

(** ** The revision's name and [begin] *)
Definition no_slash (s : string) : Prop := Forall (fun c => c <> "/"%char) (String.list_ascii_of_string s).

Lemma no_slash_app a b : no_slash a -> no_slash b -> no_slash (a +:+ b).
Proof.
  unfold no_slash. induction a as [|c a IH]; [done|]. intros Ha Hb.
  change (String c a +:+ b) with (String c (a +:+ b)). cbn in *. inversion Ha; subst.
  constructor; [done|by apply IH].
Qed.

Lemma no_slash_pretty (n : N) : no_slash (pretty n).
Proof.
  assert (forall s, no_slash s -> no_slash (pretty_N_go n s)) as Hgo.
  { induction (N.lt_wf_0 n) as [n _ IH]; intros s Hs.
    destruct (decide (n = 0)) as [->|Hn]; [by rewrite pretty_N_go_0|].
    rewrite pretty_N_go_step by lia. apply IH; [apply N.div_lt; lia|].
    constructor; [|done]. unfold pretty_N_char. by repeat case_match. }
  unfold pretty, pretty_N. destruct (decide (n = 0)); [repeat constructor; discriminate|by apply Hgo; constructor].
Qed.

Lemma revision_name nanos pid : one_name ("rev-" +:+ pretty (nanos : N) +:+ "-" +:+ pretty (pid : N)).
Proof.
  assert (no_slash ("rev-" +:+ pretty nanos +:+ "-" +:+ pretty pid)) as Hs.
  { repeat apply no_slash_app; try apply no_slash_pretty; repeat constructor; discriminate. }
  split_and!; [by apply segments_one| |done]. apply long_plain. rewrite length_string_app. cbn. lia.
Qed.

Lemma create_dirs_frame fault l s k :
  Forall clean l -> k ∉ l ->
  match Fs.create_dirs fault l s with
  | (Panic, _) => False | (_, s') => Fs.nodes s' !! k = Fs.nodes s !! k end.
Proof.
  intros Hl. revert s. induction Hl as [|p l Hp Hl IH]; intros s Hk; [done|].
  apply not_elem_of_cons in Hk as [Hkp Hk]. cbn [Fs.create_dirs]. unfold_method. case_bool_decide.
  - by apply IH.
  - pose proof (create_dir_spec fault p s) as Hc. rewrite resolve_clean in Hc by done.
    destruct (Fs.create_dir fault p s) as [[[]|e|] s1]; [|by rewrite Hc|done].
    specialize (IH s1 Hk). destruct Hc as [_ Hc].
    destruct (Fs.create_dirs fault l s1) as [[| |] s2]; rewrite ?IH, ?Hc, ?lookup_insert_ne by congruence; done.
Qed.

Lemma create_dir_all_frame fault root n s k :
  clean root -> one_name n -> (length k = S (length root)) -> k <> root ++ [n] ->
  match Fs.create_dir_all fault (join root n) s with
  | (Panic, _) => False | (_, s') => Fs.nodes s' !! k = Fs.nodes s !! k end.
Proof.
  intros Hr Hn Hlen Hk. destruct (join_const root n Hr Hn) as [_ Hres].
  unfold Fs.create_dir_all. rewrite Hres. apply create_dirs_frame.
  - apply Forall_forall. intros x (i & -> & _)%list_elem_of_fmap.
    apply Forall_take, clean_app; [done|]. by constructor; [apply Hn|].
  - intros (i & -> & _)%list_elem_of_fmap. apply Hk. rewrite length_take, length_app in Hlen. cbn in Hlen.
    apply take_ge. rewrite length_app. cbn. lia.
Qed.

Lemma begin_spec fault root prev now pid s :
  clean root ->
  match begin fault root prev now pid s with
  | (Ok tx, s') => tx_ok tx /\ state tx = Candidate /\ RevisionTransaction.root tx = root /\ previous tx = prev /\
      Fs.nodes s' !! pointer root = Fs.nodes s !! pointer root /\
      Fs.nodes s' !! candidate tx = Some Fs.Dir
  | (Err _, s') => Fs.nodes s' !! pointer root = Fs.nodes s !! pointer root
  | (Panic, _) => False
  end.
Proof.
  intros Hr. unfold begin. unfold mbind, txn_bind, mret, txn_ret, throw. cbn beta iota zeta.
  destruct (match prev with Some v => negb (is_plain_file_name v) | None => false end) eqn:Hprev; [done|].
  assert (length (pointer root) = S (length root)) as Hlen by (unfold pointer; len).
  assert (forall n, n <> "current"%string -> pointer root <> root ++ [n]) as Hne
    by (intros n Hn H; apply app_inv_head in H; congruence).
  pose proof (create_dir_all_frame fault root "candidates" s (pointer root) Hr
    (one_name_intro "candidates" eq_refl) Hlen (Hne "candidates"%string ltac:(done))) as H1.
  destruct (Fs.create_dir_all fault (join root "candidates") s) as [[[]|e|] s1]; [|done..]. cbn [io_error].
  pose proof (create_dir_all_frame fault root "revisions" s1 (pointer root) Hr
    (one_name_intro "revisions" eq_refl) Hlen (Hne "revisions"%string ltac:(done))) as H2.
  destruct (Fs.create_dir_all fault (join root "revisions") s1) as [[[]|e|] s2]; [|cbn; congruence|done].
  cbn [io_error]. destruct now as [nanos|]; [|cbn; congruence].
  set (id := ("rev-" +:+ _)%string). assert (one_name id) as Hid by apply revision_name.
  assert (join (join root "candidates") id = candidate_dir root id) as Hcand.
  { rewrite (join_name root) by (by apply one_name_intro). rewrite join_name by done.
    unfold candidate_dir. by rewrite <- (assoc_L (++)). }
  set (tx := mk root _ prev id Candidate).
  assert (tx_ok tx) as Hok.
  { split_and!; [done|done|done|]. cbn. destruct prev; [|done]. by apply negb_false_iff in Hprev. }
  pose proof (create_dir_spec fault (join (join root "candidates") id) s2) as H3.
  pose proof (resolve_clean _ (candidate_clean tx Hok)) as Hres. cbn [candidate tx] in Hres. rewrite Hres in H3.
  destruct (Fs.create_dir fault _ s2) as [[[]|e|] s3]; cbn [io_error]; [|by rewrite H3; congruence|done].
  destruct H3 as [_ H3]. split_and!; try done.
  - rewrite H3, lookup_insert_ne; [congruence|]. rewrite Hcand.
    destruct (paths_apart root id) as (H & _). intros E. apply H. by rewrite E.
  - by rewrite H3, lookup_insert_eq.
Qed.

(** ** Sequences of operations *)
Inductive op :=
| Stage (artifact_name : string) (data : bytes)
| Validate (validator : path -> Fs.t -> string + ())
| Commit
| Rollback.

Definition step (fault : nat -> option (string * nat)) (o : op) : txn self () :=
  match o with
  | Stage name data => stage fault name data
  | Validate validator => validate validator
  | Commit => commit fault
  | Rollback => rollback fault
  end.

(** The operations one after another, each after the previous one returned,
    successfully or not. *)
Fixpoint run (fault : nat -> option (string * nat)) (ops : list op) (st : self)
    : list (outcome TransactionError ()) * self :=
  match ops with
  | [] => ([], st)
  | o :: ops => let '(r, st) := step fault o st in
      let '(rs, st) := run fault ops st in (r :: rs, st)
  end.

(** What [current] holds in each state; [initial] is what it held at first. *)
Definition expected_pointer (initial : option Fs.node) (tx : t) : option Fs.node :=
  match state tx with
  | Candidate | Validated => initial
  | Committed => Some (Fs.File (bytes_of_string (revision_id tx +:+ newline)))
  | RolledBack => (fun v => Fs.File (bytes_of_string (v +:+ newline))) <$> previous tx
  end.

(** The validator among [ops] that accepted the candidate, once it is validated. *)
Definition vetted (ops : list op) (tx : t) : Prop :=
  state tx <> Candidate ->
  exists validator s, Validate validator ∈ ops /\ validator (candidate tx) s = inr ().

Definition tx_inv (initial : option Fs.node) (ops : list op) (st : self) : Prop :=
  tx_ok (fst st) /\ Fs.nodes (snd st) !! pointer (root (fst st)) = expected_pointer initial (fst st) /\
  vetted ops (fst st).

(** No method changes where the transaction lives. *)
Lemma step_root fault o st : root (fst (snd (step fault o st))) = root (fst st).
Proof.
  destruct st as [tx s], o; cbn [step]; unfold stage, validate, commit, rollback; unfold_txn;
    rewrite expect_eq; repeat case_match; simplify_eq; cbn in *; simplify_eq; done.
Qed.

Lemma run_root fault ops st : root (fst (snd (run fault ops st))) = root (fst st).
Proof.
  revert st. induction ops as [|o ops IH]; intros st; [done|]. cbn.
  pose proof (step_root fault o st) as H. destruct (step fault o st) as [r st1]. cbn in H.
  specialize (IH st1). destruct (run fault ops st1) as [rs st2]. cbn in *. congruence.
Qed.


Lemma tx_ok_set_state x tx : tx_ok tx -> tx_ok (set_state x tx).
Proof. done. Qed.

(** The method an operation runs, and the state it needs. *)
Definition needed (o : op) : TransactionState :=
  match o with Stage _ _ | Validate _ => Candidate | Commit => Validated | Rollback => Committed end.

Lemma step_refused fault o : refused (needed o) (step fault o).
Proof. destruct o; apply refused_expect. Qed.

Lemma or_tmp_pointer root m m' : or_tmp root m m m' -> m' !! pointer root = m !! pointer root.
Proof.
  intros [->|(_ & c & ->)]; [done|]. apply lookup_insert_ne. intros H. by apply app_inv_head in H.
Qed.

Lemma stage_pointer (tx : t) (q : path) (x : Fs.node) (m : gmap path Fs.node) :
  tx_ok tx -> <[candidate tx ++ q := x]> m !! pointer (root tx) = m !! pointer (root tx).
Proof.
  intros (_ & _ & -> & _). apply lookup_insert_ne. intros H.
  destruct (paths_apart (root tx) (revision_id tx)) as (Hp & _). apply Hp. rewrite <- H. by eexists.
Qed.

Lemma stage_tmp_pointer (tx : t) (v : string) (x : Fs.node) (m : gmap path Fs.node) :
  tx_ok tx -> is_plain_file_name v = true -> <[stage_tmp tx v := x]> m !! pointer (root tx) = m !! pointer (root tx).
Proof.
  intros Hok Hv. destruct (stage_paths (candidate tx) v (candidate_clean tx Hok) Hv) as (n & q & _ & _ & _ & Htmp & _).
  unfold stage_tmp. rewrite Htmp. by apply stage_pointer.
Qed.

Lemma txn_step_inv fault initial done_ o st :
  tx_inv initial done_ st -> fst (step fault o st) <> Panic /\ tx_inv initial (done_ ++ [o]) (snd (step fault o st)).
Proof.
  destruct st as [tx s]. intros (Hok & Hp & Hv). cbn [fst snd] in *.
  assert (vetted (done_ ++ [o]) tx) as Hv'.
  { intros H. destruct (Hv H) as (v & s0 & Hin & Ho). exists v, s0. split; [|done].
    apply elem_of_app. by left. }
  destruct (decide (state tx = needed o)) as [Hst|Hst].
  2: { rewrite (step_refused fault o tx s Hst). done. }
  destruct o as [name data|validator| |]; cbn [step needed] in *.
  - pose proof (stage_spec fault name data tx s Hok Hst) as H.
    destruct (stage fault name data (tx, s)) as [[[]|e|] [tx' s']]; [| |done]; cbn [fst snd].
    + destruct H as (-> & _ & n & _ & _ & Hn). split; [done|]. split_and!; [done| |done]. cbn.
      by rewrite Hn, stage_pointer.
    + destruct H as [-> H]. split; [done|]. split_and!; [done| |done]. cbn.
      destruct H as [->|(Hn & (y & _ & _ & ->) & _)]; [done|]. by rewrite stage_tmp_pointer.
  - rewrite validate_spec by done. destruct (validator (candidate tx) s) as [e|[]] eqn:Hval; cbn [fst snd].
    + done.
    + split; [done|]. split_and!; [done| |].
      * unfold expected_pointer in Hp. by rewrite Hst in Hp.
      * intros _. exists validator, s. split; [|done]. apply elem_of_app. right. by apply list_elem_of_singleton.
  - pose proof (commit_pointer fault tx s Hok Hst) as H.
    destruct (commit fault (tx, s)) as [[[]|e|] [tx' s']]; [| |done]; cbn [fst snd]; destruct H as [-> H].
    + split; [done|]. split_and!; [done|done|]. intros _. apply Hv'. by rewrite Hst.
    + split; [done|]. split_and!; [done|cbn; congruence|done].
  - pose proof (rollback_spec fault tx s (proj1 Hok) Hst) as H.
    destruct (rollback fault (tx, s)) as [[[]|e|] [tx' s']]; [| |done]; cbn [fst snd].
    + destruct H as (v & Hprev & -> & _ & Hn). split; [done|]. split_and!; [done| |].
      * cbn. unfold expected_pointer. cbn. by rewrite Hn, lookup_insert_eq, Hprev.
      * intros _. apply Hv'. by rewrite Hst.
    + destruct H as [-> H]. split; [done|]. split_and!; [done| |done]. cbn.
      by rewrite (or_tmp_pointer _ _ _ H).
Qed.

Lemma txn_run_inv fault initial done_ ops st :
  tx_inv initial done_ st ->
  Forall (fun r => r <> Panic) (fst (run fault ops st)) /\ tx_inv initial (done_ ++ ops) (snd (run fault ops st)).
Proof.
  revert done_ st. induction ops as [|o ops IH]; intros done_ st Hst.
  - cbn. rewrite app_nil_r. split; [constructor|done].
  - cbn. destruct (txn_step_inv fault initial done_ o st Hst) as [Hr Hst1].
    destruct (step fault o st) as [r st1]. cbn [fst snd] in *.
    destruct (IH _ st1 Hst1) as [Hrs Hst2]. destruct (run fault ops st1) as [rs st2]. cbn [fst snd] in *.
    rewrite <- (assoc_L (++)) in Hst2. split; [by constructor|done].
Qed.

(** A temporary pointer file that is already there makes every commit fail. *)
Lemma commit_blocked fault tx s :
  tx_ok tx -> state tx = Validated -> Fs.nodes s !! pointer_tmp (root tx) <> None ->
  exists e s', commit fault (tx, s) = (Err e, (tx, s')) /\
    Fs.nodes s' !! pointer_tmp (root tx) = Fs.nodes s !! pointer_tmp (root tx).
Proof.
  intros Hok Hst Hthere. unfold commit. unfold_txn. rewrite expect_eq, bool_decide_true by done. cbn [fst].
  destruct (committed_path tx Hok) as [Hcomm Hcand].
  destruct (paths_apart (root tx) (revision_id tx)) as (_ & _ & H3 & H4 & _).
  set (committed := join _ (revision_id tx)) in *. rewrite <- Hcand, <- Hcomm in *.
  pose proof (rename_frame fault (candidate tx) committed s _ H3 H4) as Hf.
  destruct (Fs.rename fault (candidate tx) committed s) as [[[]|e|] s1]; cbn [io_error]; [|by eexists _, _|done].
  unfold write_pointer. unfold_method.
  destruct (join_const (root tx) ".current.tmp" (proj1 Hok) (one_name_intro ".current.tmp" eq_refl)) as [_ Htmp].
  change ("." +:+ "current" +:+ ".tmp")%string with ".current.tmp"%string.
  fold (pointer_tmp (root tx)) in Htmp.
  pose proof (create_new_there fault (join (root tx) ".current.tmp") s1) as Hc.
  rewrite Htmp, Hf in Hc. specialize (Hc Hthere).
  destruct (Fs.create_new _ _ s1) as [[|e|] s2]; [done| |done].
  pose proof (rename_frame fault committed (candidate tx) s2 _ H4 H3) as Hf2.
  destruct (Fs.rename fault committed (candidate tx) s2) as [[[]|e'|] s3]; [| |done];
    (eexists _, _; split; [done|congruence]).
Qed.

Lemma not_below (a k q : path) : ~ a `prefix_of` k -> a ++ q <> k.
Proof. intros H E. apply H. rewrite <- E. by eexists. Qed.

Lemma below_apart root id q : ~ revision_dir root id `prefix_of` candidate_dir root id ++ q.
Proof.
  intros [r H]. unfold revision_dir, candidate_dir in H. rewrite <- !(assoc_L (++)) in H.
  apply app_inv_head in H. discriminate H.
Qed.

Lemma none_below (b : path) (m : gmap path Fs.node) :
  bool_decide (Forall (fun kv => ~ b `prefix_of` kv.1) (map_to_list m)) = true ->
  forall q, m !! (b ++ q) = None.
Proof.
  intros H%bool_decide_eq_true q. destruct (m !! (b ++ q)) as [v|] eqn:E; [|done].
  rewrite Forall_forall in H. apply elem_of_map_to_list, H in E. destruct E. by eexists.
Qed.

(** ** Properties *)

(** C10: the pointer follows the transaction.  Start a transaction and run any
    sequence of stage, validate, commit and rollback, any system call of which
    may fail.  [current] holds what it held at first until a commit succeeds,
    then the new revision's name until a rollback succeeds, then the previous
    revision's name; no operation panics, and a transaction is past the
    candidate state only if one of the validators accepted its directory. *)
Theorem pointer_follows_state (fault : nat -> option (string * nat)) (root : path)
    (prev : option string) (now : option N) (pid : N) (s0 s1 s : Fs.t) (tx0 tx : t) (ops : list op)
    (rs : list (outcome TransactionError ())) :
  clean root -> begin fault root prev now pid s0 = (Ok tx0, s1) ->
  run fault ops (tx0, s1) = (rs, (tx, s)) ->
  Forall (fun r => r <> Panic) rs /\
  Fs.nodes s !! pointer root = expected_pointer (Fs.nodes s0 !! pointer root) tx /\
  vetted ops tx.
Proof.
  intros Hr Hb Hrun. pose proof (begin_spec fault root prev now pid s0 Hr) as H. rewrite Hb in H.
  destruct H as (Hok & Hst & Hroot & _ & Hp & _).
  assert (tx_inv (Fs.nodes s0 !! pointer root) [] (tx0, s1)) as Hinv.
  { split_and!; [done| |by intros Hn; destruct Hn]. unfold expected_pointer. cbn. by rewrite Hst, Hroot. }
  pose proof (txn_run_inv fault _ [] ops _ Hinv) as (Hrs & Hok2 & Hp2 & Hv). rewrite Hrun in *. cbn in *.
  pose proof (run_root fault ops (tx0, s1)) as Hr2. rewrite Hrun in Hr2. cbn in Hr2.
  rewrite Hr2, Hroot in Hp2. done.
Qed.

Definition no_fault (n : nat) : option (string * nat) := None.
Definition demo_fs : Fs.t := Fs.mk (<[["srv"%string] := Fs.Dir]> (<[[] := Fs.Dir]> ∅)) 0.
Definition demo_tx : t := mk ["srv"%string] ["srv"%string; "candidates"%string; "rev-17-4"%string] None
  "rev-17-4" Candidate.
Definition demo_begun : Fs.t := snd (begin no_fault ["srv"%string] None (Some 17) 4 demo_fs).
Definition demo_ops : list op :=
  [Commit; Stage "config.yaml" [x61]; Stage "../escape" [x61]; Validate (fun _ _ => inr ());
   Stage "late.yaml" [x61]; Commit].
Definition demo_end : self := snd (run no_fault demo_ops (demo_tx, demo_begun)).

Lemma pointer_follows_state_witness :
  state (fst demo_end) = Committed /\
  Fs.nodes (snd demo_end) !! ["srv"%string; "current"%string]
    = Some (Fs.File (bytes_of_string ("rev-17-4" +:+ newline))).
Proof.
  split; [vm_compute; reflexivity|].
  pose proof (pointer_follows_state no_fault ["srv"%string] None (Some 17) 4 demo_fs demo_begun
    (snd demo_end) demo_tx (fst demo_end) demo_ops (fst (run no_fault demo_ops (demo_tx, demo_begun)))) as H.
  destruct H as (_ & H & _).
  - repeat constructor; discriminate.
  - vm_compute. reflexivity.
  - vm_compute. reflexivity.
  - exact H.
Defined.

(** C14: a commit is all or nothing, whatever system call fails.  On success
    the candidate directory has become the revision's directory, file by file,
    [current] holds the revision's name and nothing else changed.  On an error
    the transaction is still [Validated], [current] and everything outside the
    two directories is unchanged except that [.current.tmp] may be left over,
    and the revision is complete in the one directory or the other. *)
Theorem commit_atomic (fault : nat -> option (string * nat)) (tx : t) (s : Fs.t) :
  let cand := candidate_dir (root tx) (revision_id tx) in
  let comm := revision_dir (root tx) (revision_id tx) in
  let outside k := ~ cand `prefix_of` k /\ ~ comm `prefix_of` k in
  tx_ok tx -> state tx = Validated ->
  Fs.nodes s !! cand = Some Fs.Dir -> (forall q, Fs.nodes s !! (comm ++ q) = None) ->
  match commit fault (tx, s) with
  | (Ok _, (tx', s')) => tx' = set_state Committed tx /\
      (forall q, Fs.nodes s' !! (comm ++ q) = Fs.nodes s !! (cand ++ q) /\ Fs.nodes s' !! (cand ++ q) = None) /\
      Fs.nodes s' !! pointer (root tx) = Some (Fs.File (bytes_of_string (revision_id tx +:+ newline))) /\
      (forall k, outside k -> k <> pointer (root tx) -> Fs.nodes s' !! k = Fs.nodes s !! k)
  | (Err _, (tx', s')) => tx' = tx /\
      ((forall q, Fs.nodes s' !! (cand ++ q) = Fs.nodes s !! (cand ++ q)) \/
       (forall q, Fs.nodes s' !! (comm ++ q) = Fs.nodes s !! (cand ++ q))) /\
      (forall k, outside k -> k <> pointer_tmp (root tx) -> Fs.nodes s' !! k = Fs.nodes s !! k)
  | (Panic, _) => False
  end.
Proof.
  intros cand comm outside Hok Hst Hdir Hfresh.
  pose proof (commit_spec fault tx s Hok Hst Hdir Hfresh) as H.
  pose proof (commit_pointer fault tx s Hok Hst) as Hp.
  destruct (paths_apart (root tx) (revision_id tx)) as (H1 & H2 & H3 & H4 & H5 & H6 & H7).
  fold cand comm in H, H1, H2, H3, H4, H5, H6.
  assert (forall k, outside k -> Fs.move cand comm (Fs.nodes s) !! k = Fs.nodes s !! k) as Hout.
  { intros k [Ha Hb]. rewrite lookup_move. destruct (decide _); [done|]. by destruct (decide _). }
  assert (forall q, Fs.move cand comm (Fs.nodes s) !! (comm ++ q) = Fs.nodes s !! (cand ++ q)) as Hin.
  { intros q. rewrite lookup_move. destruct (decide _) as [_|Hn]; [by rewrite drop_app_length|].
    destruct Hn. by eexists. }
  destruct (commit fault (tx, s)) as [[[]|e|] [tx' s']]; [| |done].
  - destruct Hp as [-> Hp]. destruct H as [_ H]. split_and!; [done| |done|].
    + intros q. rewrite H, !lookup_insert_ne by (by apply not_eq_sym, not_below).
      split; [apply Hin|]. rewrite lookup_move.
      destruct (decide _) as [Hn|_]; [by destruct (below_apart (root tx) (revision_id tx) q)|].
      destruct (decide _) as [_|Hn]; [done|]. destruct Hn. by eexists.
    + intros k Hk Hne. rewrite H, lookup_insert_ne by done. by apply Hout.
  - destruct Hp as [-> _]. split; [done|].
    destruct H as [[->|(_ & c & ->)]|[->|(_ & c & ->)]].
    + split; [by left|done].
    + split; [left|].
      * intros q. apply lookup_insert_ne. by apply not_eq_sym, not_below.
      * intros k _ Hne. by apply lookup_insert_ne.
    + split; [by right|]. intros k Hk _. by apply Hout.
    + split; [right|].
      * intros q. rewrite lookup_insert_ne by (by apply not_eq_sym, not_below). apply Hin.
      * intros k Hk Hne. rewrite lookup_insert_ne by done. by apply Hout.
Qed.

Definition demo_validated : self := snd (run no_fault (take 4 demo_ops) (demo_tx, demo_begun)).

Lemma commit_atomic_witness :
  Fs.nodes (snd demo_end) !! ["srv"%string; "revisions"%string; "rev-17-4"%string; "config.yaml"%string]
  = Some (Fs.File [x61]).
Proof.
  pose proof (commit_atomic no_fault (fst demo_validated) (snd demo_validated)) as H.
  assert (tx_ok (fst demo_validated)) as Hok.
  { split_and!; [repeat constructor; discriminate|by apply one_name_intro|reflexivity|exact I]. }
  assert (forall q, Fs.nodes (snd demo_validated) !! (revision_dir ["srv"%string] "rev-17-4" ++ q) = None) as Hf
    by (apply none_below; vm_compute; reflexivity).
  specialize (H Hok eq_refl ltac:(vm_compute; reflexivity) Hf).
  assert (commit no_fault (fst demo_validated, snd demo_validated) = (Ok (), (fst demo_end, snd demo_end))) as E
    by (vm_compute; reflexivity).
  rewrite E in H. destruct H as (_ & H & _).
  etransitivity; [exact (proj1 (H ["config.yaml"%string]))|vm_compute; reflexivity].
Defined.

(** C37: staging cannot reach outside the candidate directory and never leaves
    half an artifact.  On success, for an accepted name, exactly one file
    changed: the artifact, directly in the candidate directory under the
    name's first segment, with exactly the staged bytes.  On an error, with any
    system calls failing, also with all of them failing from some point on, nothing changed: the artifact
    in particular is still what it was.  The one exception is the temporary file, which
    is another path inside the directory and did not exist: it is left, with a prefix of
    the bytes, only when the last call, its removal, was made to fail; had
    that call alone succeeded, the same error would have left nothing.  A
    name that is not plain, like [../x] or [/etc/x], changes nothing. *)
Theorem stage_contained (fault : nat -> option (string * nat)) (v : string) (data : bytes) (tx : t) (s : Fs.t) :
  let c := candidate_dir (root tx) (revision_id tx) in
  tx_ok tx -> state tx = Candidate ->
  (is_plain_file_name v = false -> stage fault v data (tx, s) = (Err InvalidArtifactName, (tx, s))) /\
  (is_plain_file_name v = true -> exists n q, head (segments v) = Some n /\ n <> ".."%string /\
    stage_tmp tx v = c ++ q /\ q <> [] /\ q <> [n]) /\
  match stage fault v data (tx, s) with
  | (Ok _, (tx', s')) => tx' = tx /\ is_plain_file_name v = true /\
      exists n, head (segments v) = Some n /\ Fs.nodes s' = <[c ++ [n] := Fs.File data]> (Fs.nodes s)
  | (Err e, (tx', s')) => tx' = tx /\
      (Fs.nodes s' = Fs.nodes s \/
       is_plain_file_name v = true /\
       (exists left_over, left_over `prefix_of` data /\ Fs.nodes s !! stage_tmp tx v = None /\
          Fs.nodes s' = <[stage_tmp tx v := Fs.File left_over]> (Fs.nodes s)) /\
       let last := (Fs.calls s' - 1)%nat in
       fault last <> None /\
       exists s'', stage (heal last fault) v data (tx, s) = (Err e, (tx, s'')) /\ Fs.nodes s'' = Fs.nodes s)
  | (Panic, _) => False
  end.
Proof.
  intros c Hok Hst. pose proof (candidate_clean tx Hok) as Hc. split_and!.
  - intros Hv. unfold stage. unfold_txn. rewrite expect_eq, bool_decide_true by done. by rewrite Hv.
  - intros Hv. destruct (stage_paths _ v Hc Hv) as (n & q & Hh & [_ Hn] & _ & Htmp & Hne & Hnil).
    exists n, q. unfold stage_tmp. rewrite Htmp. destruct Hok as (_ & _ & -> & _). by split_and!.
  - pose proof (stage_spec fault v data tx s Hok Hst) as H. cbn zeta in H.
    destruct Hok as (_ & _ & Hcand & _). rewrite Hcand in H.
    destruct (stage fault v data (tx, s)) as [[[]|e|] [tx' s']]; [|done..].
    destruct H as (? & ? & n & ? & _ & ?). split_and!; [done|done|]. by exists n.
Qed.

(** A short write, and then the removal of the temporary file, made to fail: two bytes
    are left in it, and nothing when only the write fails. *)
Definition write_fails (twice : bool) (n : nat) : option (string * nat) :=
  if (n =? Fs.calls demo_begun + 1)%nat || (twice && (n =? Fs.calls demo_begun + 2)%nat)
  then Some ("No space left on device"%string, 2%nat) else None.

Lemma stage_contained_witness :
  stage no_fault "../escape" [x61] (demo_tx, demo_begun) = (Err InvalidArtifactName, (demo_tx, demo_begun)) /\
  (exists s', stage (write_fails true) "a" [x61; x62; x63] (demo_tx, demo_begun)
      = (Err (Io "No space left on device"), (demo_tx, s')) /\
    Fs.nodes s' !! stage_tmp demo_tx "a" = Some (Fs.File [x61; x62])) /\
  (exists s', stage (write_fails false) "a" [x61; x62; x63] (demo_tx, demo_begun)
      = (Err (Io "No space left on device"), (demo_tx, s')) /\ Fs.nodes s' = Fs.nodes demo_begun).
Proof.
  assert (tx_ok demo_tx) as Hok
    by (split_and!; [repeat constructor; discriminate|by apply one_name_intro|reflexivity|exact I]).
  split; [|split].
  - apply (stage_contained no_fault "../escape" [x61] demo_tx demo_begun Hok eq_refl). vm_compute. reflexivity.
  - eexists. split; vm_compute; reflexivity.
  - destruct (stage_contained (write_fails false) "a" [x61; x62; x63] demo_tx demo_begun Hok eq_refl) as (_ & _ & H).
    destruct (stage (write_fails false) "a" [x61; x62; x63] (demo_tx, demo_begun)) as [r [tx' s']] eqn:E.
    assert (r = Err (Io "No space left on device") /\ (Fs.calls s' - 1)%nat = (Fs.calls demo_begun + 2)%nat) as [-> Hlast].
    { split; [change r with (fst (r, (tx', s'))); rewrite <- E; vm_compute; reflexivity|].
      change s' with (snd (snd (Err (Io "") : outcome TransactionError (), (tx', s')))).
      transitivity (Fs.calls (snd (snd (stage (write_fails false) "a" [x61; x62; x63] (demo_tx, demo_begun)))) - 1)%nat;
        [by rewrite E|vm_compute; reflexivity]. }
    destruct H as [-> [H|(_ & _ & Hf & _)]]; [by exists s'|].
    rewrite Hlast in Hf. destruct Hf. vm_compute. reflexivity.
Defined.

(** C40: a failed commit cannot be retried.  When a commit has failed and
    [.current.tmp] is there afterwards, as it is when writing, syncing or
    renaming the pointer file failed, every later attempt to commit fails too,
    whatever the file system does: [create_new] refuses the existing file, and
    no method removes it. *)
Theorem failed_commit_blocks_retry (fault fault' : nat -> option (string * nat)) (tx tx1 : t) (s s1 : Fs.t)
    (e : TransactionError) (n : nat) :
  tx_ok tx -> state tx = Validated -> commit fault (tx, s) = (Err e, (tx1, s1)) ->
  Fs.nodes s1 !! pointer_tmp (root tx) <> None ->
  let retried := run fault' (replicate n Commit) (tx1, s1) in
  Forall (fun r => exists e', r = Err e') (fst retried) /\ fst (snd retried) = tx /\
  Fs.nodes (snd (snd retried)) !! pointer (root tx) = Fs.nodes s !! pointer (root tx).
Proof.
  intros Hok Hst Hc Htmp. pose proof (commit_pointer fault tx s Hok Hst) as Hp. rewrite Hc in Hp.
  destruct Hp as [-> <-]. clear Hc s e. revert s1 Htmp. induction n as [|n IH]; intros s1 Htmp; [done|].
  cbn [replicate run step].
  destruct (commit_blocked fault' tx s1 Hok Hst Htmp) as (e & s2 & Hc & Ht).
  pose proof (commit_pointer fault' tx s1 Hok Hst) as Hp. rewrite Hc in Hp |- *. destruct Hp as [_ Hp].
  specialize (IH s2 ltac:(by rewrite Ht)). destruct (run fault' (replicate n Commit) (tx, s2)) as [rs [tx2 s3]].
  destruct IH as (HF & IH & Hp2). cbn in *. split_and!; [|done|congruence]. constructor; [by eexists|done].
Qed.

Lemma run_commit fault st : fst (run fault (replicate 1 Commit) st) = [fst (commit fault st)].
Proof. cbn. by destruct (commit fault st). Qed.

Definition sync_fails (n : nat) : option (string * nat) :=
  if (n =? 10)%nat then Some ("No space left on device"%string, 0%nat) else None.
Definition demo_failed : outcome TransactionError () * self := commit sync_fails demo_validated.

Lemma failed_commit_blocks_retry_witness :
  fst demo_failed = Err (Io "No space left on device") /\
  exists e, fst (commit no_fault (snd demo_failed)) = Err e.
Proof.
  split; [vm_compute; reflexivity|].
  pose proof (failed_commit_blocks_retry sync_fails no_fault (fst demo_validated) (fst (snd demo_failed))
    (snd demo_validated) (snd (snd demo_failed)) (Io "No space left on device") 1) as H.
  destruct H as (H & _).
  - split_and!; [repeat constructor; discriminate|by apply one_name_intro|reflexivity|exact I].
  - reflexivity.
  - vm_compute. reflexivity.
  - vm_compute. discriminate.
  - rewrite <- surjective_pairing, run_commit in H. by apply Forall_inv in H.
Defined.
