(* ===== verification/Keyring.v ===== *)
(** * Key files (src/src/main.rs [load_keyring], [parse_keyring]; src/src/quic_relay.rs
    [parse_keyring], [parse_stream_lanes])

    A [str] is its list of Unicode scalar values; what the parsers use of the
    standard library ([lines], [trim], [split_whitespace], [u64::from_str],
    the UTF-8 length) is defined here.  The file's permission bits and its text
    are arguments, [None] standing for a failed system call. *)
From Stdlib Require Import Ascii.
From stdpp Require Import pretty.
From S2P Require Import Prelude External Wire.

Abbreviation str := (list N).

Definition MAX_DEVICE_KEYS : nat := N.to_nat 65536.
Definition MAX_STREAM_LANES : N := 1.

(** [char::is_whitespace]: the characters with property White_Space. *)
Definition is_whitespace (c : N) : bool :=
  ((9 <=? c) && (c <=? 13)) || (c =? 32) || (c =? 133) || (c =? 160) || (c =? 5760)
  || ((8192 <=? c) && (c <=? 8202)) || (c =? 8232) || (c =? 8233) || (c =? 8239)
  || (c =? 8287) || (c =? 12288).

(** The UTF-8 encoding of a scalar value, and of a string ([as_bytes]). *)
Definition utf8_char (c : N) : bytes :=
  if c <? 128 then [byte_of_N c]
  else if c <? 2048 then [byte_of_N (192 + c / 64); byte_of_N (128 + c mod 64)]
  else if c <? 65536 then
    [byte_of_N (224 + c / 4096); byte_of_N (128 + c / 64 mod 64); byte_of_N (128 + c mod 64)]
  else [byte_of_N (240 + c / 262144); byte_of_N (128 + c / 4096 mod 64);
        byte_of_N (128 + c / 64 mod 64); byte_of_N (128 + c mod 64)].

Definition utf8 (s : str) : bytes := s ≫= utf8_char.

(** [str::lines]: the pieces before each line feed, a carriage return before it
    dropped, and what follows the last line feed unless it is empty. *)
Definition strip_cr (line : str) : str :=
  match last line with Some 13 => take (length line - 1) line | _ => line end.

Fixpoint lines_from (current : str) (s : str) : list str :=
  match s with
  | [] => match current with [] => [] | _ => [current] end
  | 10 :: s => strip_cr current :: lines_from [] s
  | c :: s => lines_from (current ++ [c]) s
  end.

Definition lines (s : str) : list str := lines_from [] s.

(** [str::trim] *)
Fixpoint trim_start (s : str) : str :=
  match s with
  | [] => []
  | c :: s' => if is_whitespace c then trim_start s' else s
  end.

Definition trim (s : str) : str := rev (trim_start (rev (trim_start s))).

(** [str::split_whitespace] *)
Fixpoint fields_from (current : str) (s : str) : list str :=
  match s with
  | [] => match current with [] => [] | _ => [current] end
  | c :: s =>
      if is_whitespace c then match current with [] => fields_from [] s | _ => current :: fields_from [] s end
      else fields_from (current ++ [c]) s
  end.

Definition split_whitespace (s : str) : list str := fields_from [] s.

(** [<u64 as FromStr>::from_str]: an optional plus sign, then decimal digits
    that do not overflow. *)
Definition digit (c : N) : option N := if (48 <=? c) && (c <=? 57) then Some (c - 48) else None.

Fixpoint parse_digits (acc : N) (s : str) : option N :=
  match s with
  | [] => Some acc
  | c :: s => d ← digit c; let n := acc * 10 + d in if n <? U64 then parse_digits n s else None
  end.

Definition parse_u64 (s : str) : option N :=
  match s with
  | [] => None
  | [43] => None
  | 43 :: s => parse_digits 0 s
  | _ => parse_digits 0 s
  end.

(** [format!("{message}{n}")] *)
Definition at_line (message : string) (n : N) : string := message +:+ pretty n.

Section keyring.
Context {C : Crypto}.

(** [key] *)
Definition key (raw : str) : bytes := blake3_hash (utf8 raw).

(** [parse_keyring] of main.rs, from line number [line_no] (counted from 0) on. *)
Fixpoint parse_lines (line_no : N) (ls : list str) (keys : gmap N bytes) : result (gmap N bytes) :=
  match ls with
  | [] => Ok keys
  | line :: ls =>
      let line := trim line in
      if match line with [] => true | c :: _ => c =? 35 end then parse_lines (line_no + 1) ls keys else
      let fields := split_whitespace line in
      first ← context "missing key id"%string (fields !! 0%nat);
      id ← context (at_line "invalid key id at line " (line_no + 1)) (parse_u64 first);
      secret ← context "missing key secret"%string (fields !! 1%nat);
      if (id =? 0) || (length (utf8 secret) <? 32)%nat || bool_decide (fields !! 2%nat <> None)
      then Err (at_line "invalid keyring entry at line " (line_no + 1)) else
      let old := keys !! id in
      let keys := <[id := key secret]> keys in
      if bool_decide (old <> None) then Err (at_line "duplicate key id at line " (line_no + 1)) else
      if (MAX_DEVICE_KEYS <? size keys)%nat then Err "keyring exceeds maximum device count"%string else
      parse_lines (line_no + 1) ls keys
  end.

Definition parse_keyring (text : str) : result (gmap N bytes) :=
  keys ← parse_lines 0 (lines text) ∅;
  if bool_decide (keys = ∅) then Err "keyring contains no device keys"%string else Ok keys.

(** [load_keyring] *)
Definition load_keyring (mode : option N) (text : option str) : result (gmap N bytes) :=
  mode ← context "stat"%string mode;
  if negb (N.land mode 63 =? 0)
  then Err "keyring must not be accessible by group or other users"%string else
  text ← context "read keyring"%string text;
  parse_keyring text.
End keyring.

(** The loop of [parse_keyring] of quic_relay.rs. *)
Fixpoint relay_parse_lines (line_index : N) (ls : list str) (keys : gmap N str) : result (gmap N str) :=
  match ls with
  | [] => Ok keys
  | line :: ls =>
      let line := trim line in
      if match line with [] => true | c :: _ => c =? 35 end then relay_parse_lines (line_index + 1) ls keys else
      let fields := split_whitespace line in
      first ← context "missing device id"%string (fields !! 0%nat);
      id ← context (at_line "invalid device id on line " (line_index + 1)) (parse_u64 first);
      secret ← context "missing device secret"%string (fields !! 1%nat);
      if (id =? 0) || (length (utf8 secret) <? 32)%nat || bool_decide (fields !! 2%nat <> None)
        || bool_decide (keys !! id <> None)
      then Err (at_line "invalid keyring entry on line " (line_index + 1)) else
      relay_parse_lines (line_index + 1) ls (<[id := secret]> keys)
  end.

(** [parse_keyring] of quic_relay.rs *)
Definition relay_parse_keyring (mode : option N) (text : option str) : result (gmap N str) :=
  mode ← context "stat keyring"%string mode;
  if negb (N.land mode 63 =? 0)
  then Err "keyring must not be accessible by group or other users"%string else
  text ← context "read keyring"%string text;
  keys ← relay_parse_lines 0 (lines text) ∅;
  if bool_decide (keys = ∅) then Err "keyring contains no devices"%string else Ok keys.

(** [parse_stream_lanes]; [usize] is 64 bits wide. *)
Definition parse_stream_lanes (value : option str) : result N :=
  match value with
  | None => Ok 0
  | Some value =>
      lanes ← context "SMART_QUIC_STREAM_LANES must be an integer"%string (parse_u64 value);
      if negb (lanes =? MAX_STREAM_LANES) then Err "SMART_QUIC_STREAM_LANES currently supports only 1"%string
      else Ok lanes
  end.

(** ** Lemmas *)
Lemma stream_lanes_one value n : parse_stream_lanes value = Ok n -> n <> 0 -> n = 1.
Proof.
  unfold parse_stream_lanes. destruct value as [v|]; [|by intros [= <-]]. destruct (parse_u64 v) as [l|]; [|done].
  cbn [context mbind outcome_bind]. unfold MAX_STREAM_LANES. destruct (N.eqb_spec l 1); [|done]. by intros [= <-].
Qed.

#[global] Opaque MAX_DEVICE_KEYS.

Definition word (w : str) : Prop := Forall (fun c => is_whitespace c = false) w.

Lemma fields_from_word w current rest :
  word w -> fields_from current (w ++ rest) = fields_from (current ++ w) rest.
Proof.
  intros Hw. revert current. induction Hw as [|c w Hc _ IH]; intros current; [by rewrite app_nil_r|].
  cbn. rewrite Hc, IH. by rewrite <- (assoc_L (++)).
Qed.

Lemma split_two a b :
  word a -> word b -> a <> [] -> b <> [] -> split_whitespace (a ++ 32 :: b) = [a; b].
Proof.
  intros Ha Hb Hna Hnb. unfold split_whitespace. rewrite fields_from_word by done. cbn.
  destruct a as [|x a]; [done|]. f_equal. rewrite <- (app_nil_r b), fields_from_word by done. cbn.
  rewrite app_nil_r. by destruct b.
Qed.

Lemma trim_words a b : word a -> word b -> a <> [] -> b <> [] -> trim (a ++ 32 :: b) = a ++ 32 :: b.
Proof.
  intros Ha Hb Hna Hnb. unfold trim.
  assert (forall x l, is_whitespace x = false -> trim_start (x :: l) = x :: l) as Hx
    by (intros x l H; cbn; by rewrite H).
  assert (trim_start (a ++ 32 :: b) = a ++ 32 :: b) as ->.
  { destruct a as [|x a]; [done|]. inversion Ha; subst. by apply Hx. }
  destruct b as [|y b] using rev_ind; [done|]. apply Forall_app in Hb as [_ Hy]. inversion Hy; subst.
  rewrite app_comm_cons, (assoc_L (++)), rev_app_distr. cbn [rev app]. rewrite Hx by done.
  cbn [rev]. by rewrite rev_involutive.
Qed.

Lemma lines_from_line l current rest :
  Forall (fun c => c <> 10) l -> lines_from current (l ++ 10 :: rest) = strip_cr (current ++ l) :: lines_from [] rest.
Proof.
  intros Hl. revert current. induction Hl as [|c l Hc _ IH]; intros current; [by rewrite app_nil_r|].
  cbn [app lines_from]. rewrite IH. rewrite <- (assoc_L (++)). cbn.
  destruct c as [|c]; [done|]. repeat (destruct c as [c|c|]; try done).
Qed.

Lemma word_no_lf w : word w -> Forall (fun c => c <> 10) w.
Proof. intros H. eapply Forall_impl; [exact H|]. by intros c Hc ->. Qed.

Lemma strip_cr_word l b : word b -> b <> [] -> strip_cr (l ++ b) = l ++ b.
Proof.
  intros Hb Hnb. destruct b as [|y b _] using rev_ind; [done|]. apply Forall_app in Hb as [_ Hy].
  inversion Hy as [|? ? Hw]; subst. unfold strip_cr. rewrite (assoc_L (++)), last_snoc.
  destruct (decide (y = 13)) as [->|Hne]; [done|].
  destruct y as [|y]; [done|]. repeat (destruct y as [y|y|]; try done).
Qed.

(** Decimal numbers. *)
Definition codes (s : string) : str := N_of_ascii <$> String.list_ascii_of_string s.
Definition decimal (n : N) : str := codes (pretty n).

Lemma digit_char d : d < 10 -> digit (N_of_ascii (pretty_N_char d)) = Some d.
Proof.
  intros Hd. assert (d = 0 \/ d = 1 \/ d = 2 \/ d = 3 \/ d = 4 \/ d = 5 \/ d = 6 \/ d = 7 \/ d = 8 \/ d = 9)
    as Hin by lia.
  repeat (destruct Hin as [->|Hin]; [reflexivity|]). by subst.
Qed.

Lemma parse_digits_go n s :
  n < U64 -> parse_digits 0 (codes (pretty_N_go n s)) = parse_digits n (codes s).
Proof.
  revert s. induction (N.lt_wf_0 n) as [n _ IH]; intros s Hn.
  destruct (decide (n = 0)) as [->|H0]; [by rewrite pretty_N_go_0|].
  pose proof (N.div_mod n 10 ltac:(lia)) as Hdm. pose proof (N.mod_lt n 10 ltac:(lia)) as Hm.
  assert (n / 10 < n) as Hlt by (apply N.div_lt; lia).
  rewrite pretty_N_go_step by lia. rewrite IH; [|done|by etrans].
  unfold codes at 1. cbn [String.list_ascii_of_string fmap list_fmap parse_digits].
  rewrite digit_char by done. cbn [mbind option_bind].
  replace (n / 10 * 10 + n mod 10) with n by lia. by rewrite (proj2 (N.ltb_lt n U64)).
Qed.

Definition digits (s : str) : Prop := Forall (fun c => 48 <= c <= 57) s.

Lemma digits_go n s : digits (codes s) -> digits (codes (pretty_N_go n s)).
Proof.
  revert s. induction (N.lt_wf_0 n) as [n _ IH]; intros s Hs.
  destruct (decide (n = 0)) as [->|H0]; [by rewrite pretty_N_go_0|].
  rewrite pretty_N_go_step by lia. apply IH; [apply N.div_lt; lia|].
  constructor; [|done]. pose proof (N.mod_lt n 10 ltac:(lia)) as Hm.
  pose proof (digit_char (n mod 10) Hm) as Hd. unfold digit in Hd.
  destruct ((48 <=? _) && _) eqn:E; [|done]. bool_to_prop. lia.
Qed.

Lemma decimal_digits n : digits (decimal n) /\ decimal n <> [].
Proof.
  unfold decimal, pretty, pretty_N. destruct (decide (n = 0)) as [|H0].
  { split; [repeat constructor; done|done]. }
  split; [apply digits_go; constructor|].
  rewrite pretty_N_go_step by lia.
  assert (forall m s, s <> ""%string -> pretty_N_go m s <> ""%string) as Hne.
  { intros m. induction (N.lt_wf_0 m) as [m _ IH]; intros s Hs.
    destruct (decide (m = 0)) as [->|Hm]; [by rewrite pretty_N_go_0|].
    rewrite pretty_N_go_step by lia. apply IH; [apply N.div_lt; lia|done]. }
  intros Hc. destruct (pretty_N_go (n / 10) _) eqn:E; [by eapply Hne in E|done].
Qed.

Lemma digits_word s : digits s -> word s.
Proof.
  intros H. eapply Forall_impl; [exact H|]. cbn. intros c Hc. unfold is_whitespace.
  repeat (apply orb_false_iff; split); try (apply N.eqb_neq; lia); apply andb_false_iff;
    rewrite !N.leb_gt; lia.
Qed.

Lemma parse_decimal n : n < U64 -> parse_u64 (decimal n) = Some n.
Proof.
  intros Hn. destruct (decimal_digits n) as [Hd Hne].
  assert (parse_digits 0 (decimal n) = Some n) as Hp.
  { unfold decimal, pretty, pretty_N. destruct (decide (n = 0)) as [->|]; [done|].
    by rewrite parse_digits_go. }
  unfold parse_u64. destruct (decimal n) as [|c s]; [done|]. inversion Hd as [|? ? Hc]; subst.
  destruct (decide (c = 43)) as [->|Hc43]; [lia|].
  destruct c as [|c]; [done|]. repeat (destruct c as [c|c|]; try done).
Qed.

(** ** Both parsers *)
Section both.
Context {C : Crypto}.

Lemma relay_lines_grow n ls keys keys' :
  relay_parse_lines n ls keys = Ok keys' -> (size keys <= size keys')%nat.
Proof.
  revert n keys. induction ls as [|line ls IH]; intros n keys; cbn; [by intros [= ->]|].
  destruct (match trim line with [] => true | c :: _ => c =? 35 end); [apply IH|]. intros H.
  case_res H as first Ef. case_res H as id Eid. case_res H as secret Es.
  destruct (_ || _ || _ || _) eqn:Hbad; [discriminate H|]. bool_to_prop.
  apply IH in H. rewrite map_size_insert_None in H; [lia|]. by apply dec_stable.
Qed.

(** Line by line, the two loops keep the same devices. *)
Lemma lines_agree n ls keys m :
  (size keys <= MAX_DEVICE_KEYS)%nat ->
  parse_lines n ls (key <$> keys) = Ok m <->
  exists keys', relay_parse_lines n ls keys = Ok keys' /\ (size keys' <= MAX_DEVICE_KEYS)%nat /\ m = key <$> keys'.
Proof.
  revert n keys. induction ls as [|line ls IH]; intros n keys Hsize; cbn.
  { split; [intros [= <-]; by exists keys|by intros (? & [= <-] & _ & ->)]. }
  destruct (match trim line with [] => true | c :: _ => c =? 35 end); [by apply IH|].
  destruct (split_whitespace (trim line) !! 0%nat) as [first|]; cbn; [|naive_solver].
  destruct (parse_u64 first) as [id|]; cbn; [|naive_solver].
  destruct (split_whitespace (trim line) !! 1%nat) as [secret|]; cbn; [|naive_solver].
  destruct ((id =? 0) || _ || _); cbn; [naive_solver|].
  rewrite lookup_fmap. destruct (keys !! id) as [old|] eqn:Hid; cbn.
  { naive_solver. }
  rewrite <- fmap_insert, map_size_fmap.
  change (match size (<[id:=secret]> keys) with 0%nat => false | S m' => (MAX_DEVICE_KEYS <=? m')%nat end)
    with (MAX_DEVICE_KEYS <? size (<[id:=secret]> keys))%nat.
  destruct (Nat.ltb_spec MAX_DEVICE_KEYS (size (<[id := secret]> keys))) as [Hbig|Hfits].
  - split; [done|]. intros (keys' & Hr & Hs & _). apply relay_lines_grow in Hr. lia.
  - by apply IH.
Qed.

(** One line of a rendered key file. *)
Definition render_entry (e : N * str) : str := decimal e.1 ++ 32 :: e.2 ++ [10].
Definition render (entries : list (N * str)) : str := entries ≫= render_entry.

Definition entry_valid (e : N * str) : Prop :=
  0 < e.1 < U64 /\ word e.2 /\ (32 <= length (utf8 e.2))%nat.

Lemma render_lines e entries :
  entry_valid e -> lines (render (e :: entries)) = (decimal e.1 ++ 32 :: e.2) :: lines (render entries).
Proof.
  intros (Hid & Hw & Hlen). destruct (decimal_digits e.1) as [Hd Hne].
  assert (e.2 <> []) as Hs by (intros E; rewrite E in Hlen; cbn in Hlen; lia).
  assert (render (e :: entries) = (decimal e.1 ++ 32 :: e.2) ++ 10 :: render entries) as ->.
  { change (render (e :: entries)) with (render_entry e ++ render entries). unfold render_entry.
    rewrite <- !(assoc_L (++)). cbn. by rewrite <- (assoc_L (++)). }
  unfold lines.
  rewrite lines_from_line.
  - cbn [app]. replace (decimal e.1 ++ 32 :: e.2) with ((decimal e.1 ++ [32]) ++ e.2)
      by (by rewrite <- (assoc_L (++))). by rewrite strip_cr_word.
  - apply Forall_app. split; [by apply word_no_lf, digits_word|]. constructor; [done|by apply word_no_lf].
Qed.

Lemma relay_parse_render n entries keys :
  Forall entry_valid entries -> NoDup entries.*1 -> (forall e, e ∈ entries -> keys !! e.1 = None) ->
  relay_parse_lines n (lines (render entries)) keys = Ok (list_to_map entries ∪ keys).
Proof.
  intros HF. revert n keys. induction HF as [|[id secret] entries He HF IH]; intros n keys Hnd Hfresh.
  { cbn. by rewrite left_id_L by apply _. }
  apply NoDup_cons in Hnd as [Hid Hnd]. rewrite render_lines by done. destruct He as (Hid0 & Hw & Hlen).
  cbn [relay_parse_lines fst snd fmap list_fmap] in *.
  destruct (decimal_digits id) as [Hd Hne].
  assert (secret <> []) as Hs by (intros E; rewrite E in Hlen; cbn in Hlen; lia).
  rewrite trim_words by (try done; by apply digits_word).
  rewrite split_two by (try done; by apply digits_word).
  cbn [lookup list_lookup context mbind outcome_bind]. rewrite parse_decimal by lia.
  cbn [context mbind outcome_bind].
  assert (match decimal id ++ 32 :: secret with [] => true | c :: _ => c =? 35 end = false) as ->.
  { destruct (decimal id) as [|c s]; [done|]. inversion Hd; subst. apply N.eqb_neq. cbn. lia. }
  rewrite (proj2 (N.eqb_neq id 0)) by lia. rewrite (proj2 (Nat.ltb_ge _ 32)) by done.
  rewrite !bool_decide_false; [| |by intros []].
  2: { intros H. apply H. apply (Hfresh (id, secret)). by left. }
  cbn [orb]. rewrite IH.
  - f_equal. rewrite <- insert_union_r, insert_union_l; [done|].
    apply not_elem_of_list_to_map_1. done.
  - done.
  - intros e Hin. rewrite lookup_insert_ne; [by apply Hfresh; right|].
    intros E. apply Hid. rewrite E. by apply list_elem_of_fmap_2.
Qed.
End both.

(** ** Properties *)

(** C36: the two transports read a key file alike.  The UDP tunnel's
    [load_keyring] accepts a file exactly when the QUIC relay's
    [parse_keyring] accepts it and it names at most 65,536 devices, and the
    tunnel's keys are the hashes of the relay's secrets; both refuse a file
    that group or others may access. *)
Theorem keyring_parsers_agree (C : Crypto) (mode : option N) (text : option str) (m : gmap N bytes) :
  (load_keyring mode text = Ok m <->
    exists keys, relay_parse_keyring mode text = Ok keys /\ (size keys <= MAX_DEVICE_KEYS)%nat /\ m = key <$> keys) /\
  (forall bits, mode = Some bits -> N.land bits 63 <> 0 ->
    load_keyring mode text = Err "keyring must not be accessible by group or other users"%string).
Proof.
  split.
  - unfold load_keyring, relay_parse_keyring, parse_keyring.
    destruct mode as [mode|]; cbn [context mbind outcome_bind]; [|naive_solver].
    destruct (negb _); [naive_solver|].
    destruct text as [text|]; cbn [context mbind outcome_bind]; [|naive_solver].
    pose proof (fun m => lines_agree 0 (lines text) ∅ m (Nat.le_0_l _)) as Ha. rewrite fmap_empty in Ha.
    destruct (relay_parse_lines 0 (lines text) ∅) as [keys|e|] eqn:Er; cbn [mbind outcome_bind].
    + destruct (decide (size keys <= MAX_DEVICE_KEYS)%nat) as [Hs|Hs].
      * rewrite (proj2 (Ha (key <$> keys))) by (by exists keys). cbn [mbind outcome_bind].
        assert (bool_decide (key <$> keys = ∅) = bool_decide (keys = ∅)) as ->
          by (apply bool_decide_ext, fmap_empty_iff).
        case_bool_decide; naive_solver.
      * split; [|case_bool_decide; naive_solver].
        destruct (parse_lines 0 (lines text) ∅) as [m'|e|]; [|done..].
        destruct (proj1 (Ha m') eq_refl) as (keys' & [= <-] & ? & _). done.
    + split; [|naive_solver]. destruct (parse_lines 0 (lines text) ∅) as [m'|e'|]; [|done..].
      by destruct (proj1 (Ha m') eq_refl) as (keys' & ? & _).
    + split; [|naive_solver]. destruct (parse_lines 0 (lines text) ∅) as [m'|e'|]; [|done..].
      by destruct (proj1 (Ha m') eq_refl) as (keys' & ? & _).
  - intros bits -> Hbits. unfold load_keyring. cbn. by rewrite (proj2 (N.eqb_neq _ 0)).
Qed.

Lemma keyring_parsers_agree_witness :
  load_keyring (C := toy_crypto) (Some 420) (Some [])
  = Err "keyring must not be accessible by group or other users"%string.
Proof.
  apply (keyring_parsers_agree toy_crypto (Some 420) (Some []) ∅) with (bits := 420).
  - reflexivity.
  - discriminate.
Defined.

(** a key file written line by line, device number and secret, is read
    back: for any non-empty list of devices with distinct numbers from 1 to
    2^64 - 1 and secrets of at least 32 bytes without white space, both
    parsers return exactly these devices with their secrets, or the secrets'
    hashes. *)
Theorem keyring_roundtrip (C : Crypto) (mode : N) (entries : list (N * str)) :
  N.land mode 63 = 0 -> entries <> [] -> Forall entry_valid entries -> NoDup entries.*1 ->
  relay_parse_keyring (Some mode) (Some (render entries)) = Ok (list_to_map entries) /\
  ((length entries <= MAX_DEVICE_KEYS)%nat ->
   load_keyring (Some mode) (Some (render entries)) = Ok (key <$> list_to_map entries)).
Proof.
  intros Hmode Hne HF Hnd.
  pose proof (relay_parse_render 0 entries ∅ HF Hnd (fun _ _ => lookup_empty _)) as Hr.
  rewrite (right_id_L ∅ (∪)) in Hr.
  assert ((list_to_map entries : gmap N str) <> ∅) as Hmap.
  { destruct entries as [|[id secret] l]; [done|]. cbn. apply insert_non_empty. }
  assert (negb (N.land mode 63 =? 0) = false) as Hm by (by rewrite Hmode). split.
  - unfold relay_parse_keyring. cbn [context mbind outcome_bind]. rewrite Hm, Hr. cbn [mbind outcome_bind].
    by rewrite bool_decide_false.
  - intros Hlen. unfold load_keyring, parse_keyring. cbn [context mbind outcome_bind]. rewrite Hm.
    pose proof (lines_agree 0 (lines (render entries)) ∅ (key <$> list_to_map entries) (Nat.le_0_l _)) as Ha.
    rewrite fmap_empty in Ha. rewrite (proj2 Ha).
    + cbn [mbind outcome_bind]. rewrite bool_decide_false; [done|]. by rewrite fmap_empty_iff.
    + exists (list_to_map entries). split_and!; [done| |done]. by rewrite map_size_list_to_map.
Qed.

Definition demo_entries : list (N * str) := [(7, replicate 32 97); (18446744073709551615, replicate 33 8364)].

Lemma keyring_roundtrip_witness :
  relay_parse_keyring (Some 384) (Some (render demo_entries)) = Ok (list_to_map demo_entries).
Proof.
  apply (keyring_roundtrip toy_crypto 384 demo_entries).
  - reflexivity.
  - discriminate.
  - repeat constructor; try reflexivity; apply Nat.leb_le; reflexivity.
  - apply NoDup_cons. split; [|apply NoDup_singleton]. intros H. apply list_elem_of_singleton in H. discriminate H.
Defined.
