(* ===== verification/Balance.v ===== *)
(** * The TCP load balancer (src/src/main.rs: [balance], [handle_balanced_client],
    [socks_connect], [read_socks_address])

    A connection is the bytes its peer still delivers and what has been written
    to it.  [dial n i] is the network's answer to the [n]-th connection attempt
    of a request, made to upstream [i]: an error (a refusal or the timeout) or the
    bytes that upstream delivers.  A client's choice of upstream is one step:
    the relaxed atomics of [BalanceUpstream] are read and written as if no other
    connection ran in between.  Copying between client and upstream, once
    connected, is left to the library. *)
From stdpp Require Import pretty.
From S2P Require Import Prelude.

(** ** The SOCKS5 messages *)

(** [read_socks_address] *)
Definition read_socks_address (atyp : byte) : method bytes bytes :=
  if bool_decide (atyp = x01) then read_exact 6 else
  if bool_decide (atyp = x03) then
    length ← read_u8;
    if Byte.to_N length =? 0 then bail "empty socks domain"%string else
    rest ← read_exact (N.to_nat (Byte.to_N length) + 2);
    mret (length :: rest)
  else if bool_decide (atyp = x04) then read_exact 18
  else bail "unsupported socks address type"%string.

(** [socks_connect], once connected: the upstream's response. *)
Definition socks_connect (request : bytes) : method conn bytes :=
  _ ← say [x05; x01; x00];
  method ← hear (read_exact 2);
  if negb (bool_decide (method = [x05; x00])) then bail "socks upstream rejected authentication"%string else
  _ ← say request;
  head ← hear (read_exact 4);
  atyp ← lift (elem_at head 3);
  tail ← hear (read_socks_address atyp);
  version ← lift (elem_at head 0);
  code ← lift (elem_at head 1);
  if negb (bool_decide (version = x05)) || negb (bool_decide (code = x00))
  then bail ("socks upstream connect failed code=" +:+ pretty (Byte.to_N code))%string
  else mret (head ++ tail).

(** The client's side of [handle_balanced_client], up to its request. *)
Definition negotiate : method conn bytes :=
  version ← hear read_u8;
  methods ← hear read_u8;
  let methods := N.to_nat (Byte.to_N methods) in
  if negb (bool_decide (version = x05)) || (methods =? 0)%nat || (32 <? methods)%nat
  then bail "invalid socks greeting"%string else
  offered ← hear (read_exact methods);
  if negb (bool_decide (x00 ∈ offered)) then
    _ ← say [x05; xff]; bail "socks client requires authentication"%string
  else
  _ ← say [x05; x00];
  head ← hear (read_exact 4);
  version ← lift (elem_at head 0);
  command ← lift (elem_at head 1);
  reserved ← lift (elem_at head 2);
  if negb (bool_decide (version = x05)) || negb (bool_decide (command = x01)) || negb (bool_decide (reserved = x00)) then
    _ ← say [x05; x07; x00; x01; x00; x00; x00; x00; x00; x00]; bail "only socks CONNECT is supported"%string
  else
  atyp ← lift (elem_at head 3);
  address ← hear (read_socks_address atyp);
  mret (head ++ address).

(** ** The balancer *)
Module Balance.
Section balance.
Context {Addr : Type}.

(** [struct BalanceUpstream] *)
Record upstream := mk_upstream {
  address : Addr;
  healthy : bool;
  active : N;
}.

Record t := mk {
  upstreams : list upstream;
  cursor : N;
}.

Definition set_healthy x u := mk_upstream (address u) x (active u).
Definition set_active x u := mk_upstream (address u) (healthy u) x.

(** [balance]'s start *)
Definition new (addresses : list Addr) : result t :=
  if (length addresses <? 2)%nat then Err "balance requires at least two upstreams"%string
  else Ok (mk ((fun a => mk_upstream a true 0) <$> addresses) 0).

Section handle.
Context (dial : nat -> nat -> string + bytes).

(** [socks_connect(state.address, &request)] as attempt [n]: the stream left
    after the response, and the response. *)
Definition connect (n i : nat) (request : bytes) : result (bytes * bytes) :=
  stream ← match dial n i with inl e => Err e | inr stream => Ok stream end;
  let '(r, (rest, _)) := socks_connect request (stream, []) in
  response ← r; Ok (rest, response).

(** The variables of the search loops; [attempts] is ghost: the upstreams
    dialled so far. *)
Record search := mk_search {
  states : list upstream;
  attempts : list nat;
  chosen : option (nat * (bytes * bytes));
  last_error : option string;
}.

(** One dial. *)
Definition attempt (request : bytes) (index : nat) (x : search) : search :=
  match connect (length (attempts x)) index request with
  | Ok found => mk_search (alter (set_healthy true) index (states x)) (attempts x ++ [index])
      (Some (index, found)) (last_error x)
  | Err error => mk_search (alter (set_healthy false) index (states x)) (attempts x ++ [index])
      (chosen x) (Some error)
  | Panic => x
  end.

(** [for offset in 0..upstreams.len()]; every index is below the length. *)
Fixpoint pass (healthy_only : bool) (request : bytes) (order : list nat) (x : search) : search :=
  match order with
  | [] => x
  | index :: order =>
      if healthy_only && negb (default false (healthy <$> states x !! index)) then pass healthy_only request order x else
      let x := attempt request index x in
      match chosen x with Some _ => x | None => pass healthy_only request order x end
  end.

(** The rotation from [start]. *)
Definition rotation (start len : nat) : list nat := (fun offset => (start + offset) mod len)%nat <$> seq 0 len.

(** [for healthy_only in [true, false]] *)
Definition choose (request : bytes) (start : nat) (states : list upstream) : search :=
  let order := rotation start (length states) in
  let x := pass true request order (mk_search states [] None None) in
  match chosen x with Some _ => x | None => pass false request order x end.

(** [handle_balanced_client], up to [copy_bidirectional]: the upstream's index
    and what it still delivers. *)
Definition handle_balanced_client (client : conn) (s : t) : result (nat * bytes) * conn * t :=
  match negotiate client with
  | (Ok request, client) =>
      let start := N.to_nat (cursor s mod N.of_nat (length (upstreams s))) in
      let x := choose request start (upstreams s) in
      let s := mk (states x) (add64 (cursor s) 1) in
      match chosen x with
      | None =>
          let '(_, client) := say [x05; x01; x00; x01; x00; x00; x00; x00; x00; x00] client in
          (Err (default "no healthy WARP upstream"%string (last_error x)), client, s)
      | Some (index, (remote, response)) =>
          let '(_, client) := say response client in
          (Ok (index, remote), client, mk (alter (fun u => set_active (add64 (active u) 1) u) index (upstreams s)) (cursor s))
      end
  | (Err e, client) => (Err e, client, s)
  | (Panic, client) => (Panic, client, s)
  end.

(** The task that checks every upstream, each with one dial. *)
Definition health_request : bytes :=
  [x05; x01; x00; x03; x0f] ++ bytes_of_string "www.gstatic.com" ++ [x01; xbb].

Definition check_health (s : t) : t :=
  mk (imap (fun i u => set_healthy (is_ok (connect i i health_request)) u) (upstreams s)) (cursor s).
End handle.

(** After the copy: [fetch_sub(1)]. *)
Definition finish (index : nat) (s : t) : t :=
  mk (alter (fun u => set_active (as_u64 (active u + (U64 - 1))) u) index (upstreams s)) (cursor s).
End balance.
Arguments upstream : clear implicits.
Arguments t : clear implicits.
Arguments search : clear implicits.
End Balance.

(** ** The SOCKS5 messages *)

(** The addresses of RFC 1928, with their port. *)
Inductive socks_address : byte -> bytes -> Prop :=
| Ipv4 b : length b = 6%nat -> socks_address x01 b
| Domain n b : n <> x00 -> length b = (N.to_nat (Byte.to_N n) + 2)%nat -> socks_address x03 (n :: b)
| Ipv6 b : length b = 18%nat -> socks_address x04 b.

(** [hear] and [say] in a computation. *)
Lemma read_exact_inv n s b rest : read_exact n s = (Ok b, rest) -> length b = n /\ s = b ++ rest.
Proof.
  unfold read_exact. destruct (Nat.ltb_spec (length s) n); [done|]. intros [= <- <-].
  split; [rewrite length_take; lia|by rewrite take_drop].
Qed.

Lemma read_exact_cases n s :
  read_exact n s = (Err "early eof"%string, []) \/ exists b, read_exact n s = (Ok b, drop n s) /\ length b = n /\ s = b ++ drop n s.
Proof.
  unfold read_exact. destruct (Nat.ltb_spec (length s) n); [by left|]. right. exists (take n s).
  split; [done|]. split; [rewrite length_take; lia|by rewrite take_drop].
Qed.

Lemma read_u8_inv s b rest : read_u8 s = (Ok b, rest) -> s = b :: rest.
Proof. destruct s as [|c s]; [done|]. by intros [= <- <-]. Qed.

Lemma read_address_app atyp b rest :
  socks_address atyp b -> read_socks_address atyp (b ++ rest) = (Ok b, rest).
Proof.
  destruct 1 as [b Hb|n b Hn Hb|b Hb]; unfold read_socks_address; cbn [bool_decide]; [by apply read_exact_app| |by apply read_exact_app].
  rewrite bool_decide_false by done. rewrite bool_decide_true by done. unfold_method. cbn [app]. rewrite read_u8_cons.
  assert (Byte.to_N n <> 0) as Hz by (intros H; apply Hn; by destruct n).
  rewrite (proj2 (N.eqb_neq _ _)) by done. rewrite read_exact_app by done. done.
Qed.

Lemma read_address_inv atyp s b rest :
  read_socks_address atyp s = (Ok b, rest) -> socks_address atyp b /\ s = b ++ rest.
Proof.
  unfold read_socks_address. case_bool_decide as H1; [subst|case_bool_decide as H3; [subst|case_bool_decide as H4; [subst|done]]].
  - intros [? ->]%read_exact_inv. split; [by constructor|done].
  - unfold_method. destruct (read_u8 s) as [[n|e|] s1] eqn:Hn; [|done..]. apply read_u8_inv in Hn as ->.
    destruct (N.eqb_spec (Byte.to_N n) 0) as [|Hz]; [done|].
    destruct (read_exact _ s1) as [[r|e|] s2] eqn:Hr; [|done..]. apply read_exact_inv in Hr as [Hl ->].
    intros [= <- <-]. split; [|done]. constructor; [|done]. by intros ->.
  - intros [? ->]%read_exact_inv. split; [by constructor|done].
Qed.

Lemma read_exact_no_panic n s : no_panic (fst (read_exact n s)).
Proof. unfold read_exact. by destruct (_ <? _)%nat. Qed.

Lemma read_u8_no_panic s : no_panic (fst (read_u8 s)).
Proof. by destruct s as [|b s]. Qed.

Lemma read_address_no_panic atyp s : no_panic (fst (read_socks_address atyp s)).
Proof.
  unfold read_socks_address. repeat case_bool_decide; try apply read_exact_no_panic; [|done].
  unfold_method. pose proof (read_u8_no_panic s). destruct (read_u8 s) as [[n|e|] s1]; [|done..].
  destruct (_ =? _); [done|]. pose proof (read_exact_no_panic (N.to_nat (Byte.to_N n) + 2) s1).
  by destruct (read_exact _ s1) as [[r|e|] s2].
Qed.

(** Four bytes read are four bytes. *)
Lemma four_bytes (b : bytes) : length b = 4%nat -> exists b0 b1 b2 b3, b = [b0; b1; b2; b3].
Proof. destruct b as [|b0 [|b1 [|b2 [|b3 [|b4 b]]]]]; try done. eauto. Qed.

(** What [negotiate] accepts: a greeting that offers no authentication, and a
    CONNECT request, which it returns as it came. *)
Definition greets (s : bytes) (offered : bytes) (rest : bytes) : Prop :=
  exists n, s = x05 :: n :: offered ++ rest /\ length offered = N.to_nat (Byte.to_N n) /\
    (0 < length offered <= 32)%nat /\ x00 ∈ offered.

Definition requests (rest request rest' : bytes) : Prop :=
  exists atyp address, request = [x05; x01; x00; atyp] ++ address /\ socks_address atyp address /\ rest = request ++ rest'.

Ltac refused said := right; eexists _, _, said; split; [by rewrite ?app_nil_r|tauto].

(** [negotiate], branch by branch. *)
Lemma negotiate_cases s w :
  (exists offered rest request rest', greets s offered rest /\ requests rest request rest' /\
     negotiate (s, w) = (Ok request, (rest', w ++ [[x05; x00]]))) \/
  (exists e rest said, negotiate (s, w) = (Err e, (rest, w ++ said)) /\
     (said = [] \/ said = [[x05; xff]] \/ said = [[x05; x00]] \/
      said = [[x05; x00]; [x05; x07; x00; x01; x00; x00; x00; x00; x00; x00]])).
Proof.
  unfold negotiate. rewrite hear_bind. destruct s as [|v s]; [refused (@nil bytes)|].
  rewrite read_u8_cons, hear_bind. destruct s as [|n s]; [refused (@nil bytes)|]. rewrite read_u8_cons.
  destruct (_ || _ || _)%bool eqn:Hg; [refused (@nil bytes)|]. bool_to_prop.
  rewrite hear_bind. destruct (read_exact_cases (N.to_nat (Byte.to_N n)) s) as [->|(offered & -> & Hlen & Hs)];
    [refused (@nil bytes)|].
  case_bool_decide as Hin; cbn [negb]; [|rewrite say_bind; refused [[x05; xff]]].
  rewrite say_bind, hear_bind. set (s1 := drop _ s) in *.
  destruct (read_exact_cases 4 s1) as [->|(head & -> & Hhead & Hs1)]; [refused [[x05; x00]]|].
  apply four_bytes in Hhead as (b0 & b1 & b2 & b3 & ->). unfold_method.
  cbn [elem_at unwrap lookup list_lookup].
  destruct (negb _ || _ || _)%bool eqn:Hc.
  { right. do 2 eexists. exists [[x05; x00]; [x05; x07; x00; x01; x00; x00; x00; x00; x00; x00]].
    split; [cbn; by rewrite <- app_assoc|tauto]. }
  bool_to_prop. cbn [hear]. set (s2 := drop 4 s1) in *.
  pose proof (read_address_no_panic b3 s2) as Hnp. pose proof (read_address_inv b3 s2) as Hinv.
  destruct (read_socks_address b3 s2) as [[address|e|] s3]; [|refused [[x05; x00]]|done].
  destruct (Hinv address s3 eq_refl) as [Ha Hs2]. left. exists offered, s1, ([x05; x01; x00; b3] ++ address), s3.
  subst v b0 b1 b2. split; [|split].
  - exists n. rewrite <- Hs. by split_and!; [|lia..|].
  - exists b3, address. split; [done|]. split; [done|]. rewrite Hs1 at 1. by rewrite Hs2, app_assoc.
  - done.
Qed.

Lemma socks_connect_no_panic request c : no_panic (fst (socks_connect request c)).
Proof.
  destruct c as [s w]. unfold socks_connect. rewrite say_bind, hear_bind.
  destruct (read_exact_cases 2 s) as [->|(m & -> & _)]; [done|]. destruct (negb _); [done|].
  rewrite say_bind, hear_bind. set (s1 := drop 2 s).
  destruct (read_exact_cases 4 s1) as [->|(head & -> & Hhead & _)]; [done|].
  apply four_bytes in Hhead as (b0 & b1 & b2 & b3 & ->). unfold_method. cbn [elem_at unwrap lookup list_lookup hear].
  pose proof (read_address_no_panic b3 (drop 4 s1)) as Hnp.
  destruct (read_socks_address b3 (drop 4 s1)) as [[a|e|] s3]; [|done..]. by destruct (_ || _)%bool.
Qed.

(** ** The search for an upstream *)
Import Balance.

Section search.
Context {Addr : Type} (dial : nat -> nat -> string + bytes) (request : bytes).

(** The specification: the candidates in order, the [n]-th dial first, until
    one answers; those dialled, and the answer. *)
Fixpoint first_answer (n : nat) (candidates : list nat) : list nat * option (nat * (bytes * bytes)) :=
  match candidates with
  | [] => ([], None)
  | i :: candidates =>
      match connect dial n i request with
      | Ok answer => ([i], Some (i, answer))
      | _ => let '(l, r) := first_answer (S n) candidates in (i :: l, r)
      end
  end.

(** The upstreams after the search: each one dialled is healthy exactly if it
    is the one chosen. *)
Definition marked (l : list nat) (r : option nat) (us : list (upstream Addr)) : list (upstream Addr) :=
  imap (fun i u => if bool_decide (i ∈ l) then set_healthy (bool_decide (r = Some i)) u else u) us.

Definition is_healthy (us : list (upstream Addr)) (i : nat) : bool := default false (healthy <$> us !! i).

Lemma connect_no_panic n i : no_panic (connect dial n i request).
Proof.
  unfold connect. destruct (dial n i) as [e|s]; [done|]. cbn [mbind outcome_bind].
  pose proof (socks_connect_no_panic request (s, [])) as H.
  by destruct (socks_connect request (s, [])) as [[r|e|] [rest w]].
Qed.

Lemma length_marked l r us : length (marked l r us) = length us.
Proof. apply length_imap. Qed.

Lemma lookup_marked l r us i :
  marked l r us !! i = (fun u => if bool_decide (i ∈ l) then set_healthy (bool_decide (r = Some i)) u else u) <$> us !! i.
Proof. apply list_lookup_imap. Qed.

Lemma marked_nil r us : marked [] r us = us.
Proof.
  apply list_eq. intros i. rewrite lookup_marked. destruct (us !! i); [|done]. cbn.
  by rewrite bool_decide_false by set_solver.
Qed.

Lemma first_answer_sub n cs i : i ∈ fst (first_answer n cs) -> i ∈ cs.
Proof.
  revert n. induction cs as [|c cs IH]; intros n; [done|]. cbn. destruct (connect dial n c request).
  1: cbn; set_solver.
  all: specialize (IH (S n)); destruct (first_answer (S n) cs); cbn in *; set_solver.
Qed.

Lemma first_answer_chosen n cs i a : snd (first_answer n cs) = Some (i, a) -> i ∈ fst (first_answer n cs).
Proof.
  revert n. induction cs as [|c cs IH]; intros n; [done|]. cbn. destruct (connect dial n c request).
  1: cbn; intros [= -> _]; set_solver.
  all: specialize (IH (S n)); destruct (first_answer (S n) cs); cbn in *; intros ?; right; by apply IH.
Qed.

(** A failed dial, then a search of candidates without that upstream. *)
Lemma marked_step i l r us :
  i ∉ l -> r <> Some i -> marked l r (alter (set_healthy false) i us) = marked (i :: l) r us.
Proof.
  intros Hi Hr. apply list_eq. intros j. rewrite !lookup_marked. destruct (decide (i = j)) as [<-|Hne].
  - rewrite list_lookup_alter_eq. destruct (us !! i); [|done]. cbn.
    rewrite (bool_decide_false (i ∈ l)) by done. rewrite (bool_decide_true (i ∈ i :: l)) by left.
    by rewrite (bool_decide_false (r = Some i)) by done.
  - rewrite list_lookup_alter_ne by done. destruct (us !! j); [|done]. cbn.
    assert (bool_decide (j ∈ i :: l) = bool_decide (j ∈ l)) as -> by (apply bool_decide_ext; set_solver). done.
Qed.

(** One pass over distinct upstreams. *)
Lemma pass_spec (h : bool) order x :
  NoDup order -> chosen x = None ->
  let candidates := filter (fun i => h = true -> is_healthy (states x) i = true) order in
  let '(l, r) := first_answer (length (attempts x)) candidates in
  let x' := pass dial h request order x in
  attempts x' = attempts x ++ l /\ chosen x' = r /\ states x' = marked l (fst <$> r) (states x).
Proof.
  revert x. induction order as [|i order IH]; intros x Hnd Hx; cbv zeta.
  { cbn. by rewrite app_nil_r, marked_nil. }
  apply NoDup_cons in Hnd as [Hi Hnd]. cbn [pass]. rewrite filter_cons.
  fold (is_healthy (states x) i). destruct (h && negb (is_healthy (states x) i)) eqn:Hskip.
  - rewrite decide_False; [by apply IH|]. bool_to_prop. intros Hq. specialize (Hq ltac:(done)). congruence.
  - rewrite decide_True.
    2:{ intros ->. cbn in Hskip. by apply negb_false_iff in Hskip. }
    cbn [first_answer]. unfold attempt at 1.
    pose proof (connect_no_panic (length (attempts x)) i) as Hnp.
    destruct (connect dial (length (attempts x)) i request) as [answer|e|] eqn:Hc; [| |done].
    + unfold attempt. rewrite Hc. cbn [chosen attempts states fmap option_fmap option_map fst]. split; [done|]. split; [done|].
      apply list_eq. intros j. rewrite lookup_marked. destruct (decide (i = j)) as [<-|Hne].
      * rewrite list_lookup_alter_eq. destruct (states x !! i); [|done]. cbn.
        rewrite (bool_decide_true (i ∈ [i])) by left. by rewrite bool_decide_true by done.
      * rewrite list_lookup_alter_ne by done. rewrite bool_decide_false by set_solver. by destruct (states x !! j).
    + unfold attempt. rewrite Hc. cbn [chosen]. rewrite Hx.
      set (x1 := mk_search (alter (set_healthy false) i (states x)) (attempts x ++ [i]) None (Some e)).
      specialize (IH x1 Hnd eq_refl). cbv zeta in IH.
      assert (filter (fun j => h = true -> is_healthy (states x1) j = true) order
        = filter (fun j => h = true -> is_healthy (states x) j = true) order) as Hf.
      { apply filter_ext_elem. intros j Hj. unfold is_healthy, x1. cbn [states].
        rewrite list_lookup_alter_ne; [done|]. by intros ->. }
      rewrite Hf in IH. replace (length (attempts x1)) with (S (length (attempts x))) in IH
        by (unfold x1; cbn; rewrite length_app; cbn; lia).
      pose proof (first_answer_sub (S (length (attempts x))) (filter (fun j => h = true -> is_healthy (states x) j = true) order)) as Hsub.
      pose proof (first_answer_chosen (S (length (attempts x))) (filter (fun j => h = true -> is_healthy (states x) j = true) order)) as Hch.
      destruct (first_answer _ _) as [l r]. destruct IH as (Ha & Hr & Hs). cbn [fst snd] in *.
      split; [rewrite Ha; unfold x1; cbn; by rewrite <- app_assoc|]. split; [done|]. rewrite Hs. unfold x1. cbn [states].
      assert (i ∉ l) as Hil by (intros H%Hsub; apply list_elem_of_filter in H as [_ H]; done).
      apply marked_step; [done|]. destruct r as [[j a]|]; [|done]. cbn. intros [= ->]. by apply Hil, (Hch i a).
Qed.
End search.

Section choice.
Context {Addr : Type} (dial : nat -> nat -> string + bytes) (request : bytes).

Lemma rotation_NoDup start len : NoDup (rotation start len).
Proof.
  unfold rotation. apply NoDup_fmap_2_strong; [|apply NoDup_seq].
  intros x y Hx%elem_of_seq Hy%elem_of_seq Heq.
  pose proof (Nat.div_mod_eq (start + x) len) as Hdx. pose proof (Nat.div_mod_eq (start + y) len) as Hdy.
  rewrite Heq in Hdx. set (r := ((start + y) mod len)%nat) in *.
  set (a := ((start + x) / len)%nat) in *. set (b := ((start + y) / len)%nat) in *. clearbody a b r.
  assert (a = b) as ->; [|lia]. destruct (Nat.lt_trichotomy a b) as [H|[H|H]]; [|done|]; nia.
Qed.

Lemma elem_of_rotation start len i : i ∈ rotation start len <-> (i < len)%nat.
Proof.
  unfold rotation. rewrite list_elem_of_fmap. split.
  - intros (k & -> & Hk%elem_of_seq). apply Nat.mod_upper_bound. lia.
  - intros Hi. exists ((i + (len - start mod len)) mod len)%nat. split.
    + rewrite Nat.Div0.add_mod_idemp_r. pose proof (Nat.div_mod_eq start len).
      pose proof (Nat.mod_upper_bound start len ltac:(lia)).
      replace (start + (i + (len - start mod len)))%nat with (i + (start / len + 1) * len)%nat by nia.
      rewrite Nat.Div0.mod_add. by rewrite Nat.mod_small.
    + apply elem_of_seq. pose proof (Nat.mod_upper_bound (i + (len - start mod len)) len ltac:(lia)). lia.
Qed.

(** The candidates: the healthy upstreams of the rotation, then all of them. *)
Definition candidates (us : list (upstream Addr)) (start : nat) : list nat :=
  filter (fun i => is_healthy us i = true) (rotation start (length us)) ++ rotation start (length us).

Lemma first_answer_app n l1 l2 :
  first_answer dial request n (l1 ++ l2) =
    let '(a, r) := first_answer dial request n l1 in
    match r with
    | Some _ => (a, r)
    | None => let '(b, r) := first_answer dial request (n + length a) l2 in (a ++ b, r)
    end.
Proof.
  revert n. induction l1 as [|i l1 IH]; intros n; cbn [app first_answer].
  { cbn. rewrite Nat.add_0_r. by destruct (first_answer _ _ n l2). }
  pose proof (connect_no_panic dial request n i).
  destruct (connect dial n i request); [done| |done]. rewrite IH.
  destruct (first_answer dial request (S n) l1) as [a [r|]]; [done|]. cbn [length].
  replace (S n + length a)%nat with (n + S (length a))%nat by lia. by destruct (first_answer _ _ _ l2).
Qed.

(** Two markings of failures and one of a search merge. *)
Lemma marked_marked l1 l2 r (us : list (upstream Addr)) :
  (forall i, r = Some i -> i ∈ l2) -> marked l2 r (marked l1 None us) = marked (l1 ++ l2) r us.
Proof.
  intros Hr. apply list_eq. intros i. rewrite !lookup_marked. destruct (us !! i) as [u|]; [|done]. cbn. f_equal.
  destruct (decide (i ∈ l2)) as [H2|H2].
  - rewrite (bool_decide_true (i ∈ l2)), (bool_decide_true (i ∈ l1 ++ l2)) by set_solver. by repeat case_bool_decide.
  - rewrite (bool_decide_false (i ∈ l2)) by done.
    assert (bool_decide (i ∈ l1 ++ l2) = bool_decide (i ∈ l1)) as -> by (apply bool_decide_ext; set_solver).
    case_bool_decide; [|done]. rewrite (bool_decide_false (r = Some i)); [done|]. intros ->. by apply H2, Hr.
Qed.

(** The two loops search the candidates. *)
Lemma choose_spec start (us : list (upstream Addr)) :
  let '(l, r) := first_answer dial request 0 (candidates us start) in
  let x := choose dial request start us in
  attempts x = l /\ chosen x = r /\ states x = marked l (fst <$> r) us.
Proof.
  unfold candidates. rewrite first_answer_app. unfold choose.
  pose proof (pass_spec dial request true (rotation start (length us)) (mk_search us [] None None)
    (rotation_NoDup start (length us)) eq_refl) as H1. cbv zeta in H1. cbn [states attempts chosen length app] in H1.
  assert (filter (fun i => true = true -> is_healthy us i = true) (rotation start (length us))
    = filter (fun i => is_healthy us i = true) (rotation start (length us))) as Hf
    by (apply filter_ext_elem; naive_solver).
  rewrite Hf in H1. destruct (first_answer dial request 0 (filter _ _)) as [l1 r1]. destruct H1 as (Ha & Hr & Hs).
  set (x1 := pass dial true request _ _) in *. rewrite Hr. destruct r1 as [a|]; [done|].
  pose proof (pass_spec dial request false (rotation start (length us)) x1
    (rotation_NoDup start (length us)) Hr) as H2. cbv zeta in H2.
  rewrite filter_all in H2 by done. rewrite Ha in H2.
  pose proof (first_answer_chosen dial request (length l1) (rotation start (length us))) as Hch.
  rewrite Nat.add_0_l. destruct (first_answer dial request (length l1) _) as [l2 r2]. destruct H2 as (Ha2 & Hr2 & Hs2).
  split_and!; [done..|]. rewrite Hs2, Hs. apply marked_marked. intros i Hi.
  destruct r2 as [[j a]|]; [|done]. injection Hi as ->. by apply (Hch i a).
Qed.
End choice.

Lemma negotiate_accepts s w offered rest request rest' :
  greets s offered rest -> requests rest request rest' ->
  negotiate (s, w) = (Ok request, (rest', w ++ [[x05; x00]])).
Proof.
  intros (n & -> & Hlen & Hpos & Hin) (atyp & address & -> & Ha & ->).
  unfold negotiate. rewrite hear_bind, read_u8_cons, hear_bind, read_u8_cons.
  rewrite bool_decide_true by done. rewrite <- Hlen. cbn [negb orb].
  rewrite (proj2 (Nat.eqb_neq _ _)), (proj2 (Nat.ltb_ge _ _)) by lia. cbn [orb].
  rewrite hear_bind, read_exact_app by done. rewrite bool_decide_true by done. cbn [negb].
  rewrite say_bind, hear_bind, <- app_assoc, read_exact_app by done. unfold_method.
  cbn [elem_at unwrap lookup list_lookup]. rewrite !bool_decide_true by done. cbn [negb orb hear].
  by rewrite read_address_app.
Qed.

Lemma first_answer_none dial request n cs :
  snd (first_answer dial request n cs) = None ->
  fst (first_answer dial request n cs) = cs /\
  forall k i, cs !! k = Some i -> is_ok (connect dial (n + k) i request) = false.
Proof.
  revert n. induction cs as [|i cs IH]; intros n; [done|]. cbn.
  destruct (connect dial n i request) eqn:Hc; [done|..]; specialize (IH (S n));
    (destruct (first_answer dial request (S n) cs) as [l r]; cbn in *; intros Hr;
     destruct (IH Hr) as [-> Hall]; split; [done|]; intros [|k] j Hj;
     [injection Hj as <-; by rewrite Nat.add_0_r, Hc|rewrite <- Nat.add_succ_comm; by apply Hall]).
Qed.

(** *** Clients one after another *)

(** A client arrives, or the connection of one of upstream [i]'s clients ends. *)
Inductive happening :=
| Arrives (dial : nat -> nat -> string + bytes) (client : conn)
| Ends (i : nat).

(** What each client is told, in order: the upstream serving it. *)
Fixpoint serve {Addr} (l : list happening) (s : t Addr) : list (result nat) * t Addr :=
  match l with
  | [] => ([], s)
  | Arrives dial client :: l =>
      let '(r, _, s) := handle_balanced_client dial client s in
      let '(rs, s) := serve l s in
      ((x ← r; Ok (fst x)) :: rs, s)
  | Ends i :: l => serve l (finish i s)
  end.

(** A client whose request any upstream answers. *)
Definition welcome (len : nat) (h : happening) : Prop :=
  match h with
  | Arrives dial client => exists request client', negotiate client = (Ok request, client') /\
      forall i, (i < len)%nat -> is_ok (connect dial 0 i request) = true
  | Ends _ => True
  end.

Definition arrivals (l : list happening) : nat :=
  length (omap (fun h => match h with Arrives _ _ => Some () | Ends _ => None end) l).

Definition all_healthy {Addr} (us : list (upstream Addr)) : Prop := Forall (fun u => healthy u = true) us.

Lemma all_healthy_alter {Addr} (f : upstream Addr -> upstream Addr) i us :
  (forall u, healthy u = true -> healthy (f u) = true) -> all_healthy us -> all_healthy (alter f i us).
Proof. intros Hf HF. apply Forall_alter; [done|]. intros u _. by apply Hf. Qed.

Lemma candidates_healthy {Addr} (us : list (upstream Addr)) start :
  all_healthy us -> us <> [] -> (start < length us)%nat ->
  exists l, candidates us start = start :: l.
Proof.
  intros HF Hne Hstart. unfold candidates. rewrite filter_all.
  - destruct (length us) as [|len] eqn:Hl; [lia|]. unfold rotation. cbn [seq fmap list_fmap].
    rewrite Nat.add_0_r, Nat.mod_small by lia. by eexists.
  - intros i Hi%elem_of_rotation. unfold is_healthy. destruct (lookup_lt_is_Some_2 us i Hi) as [u Hu].
    rewrite Hu. cbn. exact (Forall_lookup_1 _ _ _ _ HF Hu).
Qed.

Lemma handle_healthy {Addr} (dial : nat -> nat -> string + bytes) (client : conn) (s : t Addr) :
  all_healthy (upstreams s) -> upstreams s <> [] -> welcome (length (upstreams s)) (Arrives dial client) ->
  let start := N.to_nat (cursor s mod N.of_nat (length (upstreams s))) in
  exists remote client' us, handle_balanced_client dial client s = (Ok (start, remote), client', mk us (add64 (cursor s) 1)) /\
    all_healthy us /\ length us = length (upstreams s).
Proof.
  intros HF Hne (request & client' & Hn & Hok) start.
  assert (start < length (upstreams s))%nat as Hstart.
  { unfold start. assert (length (upstreams s) <> 0%nat) by (by destruct (upstreams s)).
    pose proof (N.mod_lt (cursor s) (N.of_nat (length (upstreams s)))). lia. }
  destruct (candidates_healthy (upstreams s) start HF Hne Hstart) as [l Hl].
  pose proof (choose_spec dial request start (upstreams s)) as Hc. rewrite Hl in Hc. cbn [first_answer] in Hc.
  specialize (Hok start Hstart). destruct (connect dial 0 start request) as [[remote response]|e|]; [|done..].
  destruct Hc as (_ & Hr & Hs). unfold handle_balanced_client. rewrite Hn. fold start. rewrite Hr, Hs.
  destruct client' as [stream written]. cbn [say]. do 3 eexists. split; [done|]. cbn [upstreams].
  split; [|by rewrite length_alter, length_marked]. apply all_healthy_alter; [done|].
  apply Forall_lookup_2. intros i u. rewrite lookup_marked. intros (u0 & Hu & ->)%fmap_Some.
  pose proof (Forall_lookup_1 _ _ _ _ HF Hu) as Hh. case_bool_decide as Hin; [|done].
  apply list_elem_of_singleton in Hin as ->. cbn. by rewrite bool_decide_true.
Qed.

(** ** Properties *)

(** C23: the SOCKS5 dialogue.  The balancer accepts exactly the inputs that greet
    in version 5 with 1 to 32 methods, "no authentication" among them, and
    then send a CONNECT request with a complete IPv4, domain or IPv6 address; it
    keeps that request byte for byte, answers [05 00], and leaves the bytes
    behind it unread.  No input makes it panic, and an input it refuses is
    answered with nothing, [05 ff], [05 00], or [05 00] and the "not supported"
    reply. *)
Theorem socks_dialogue (s : bytes) (w : list bytes) :
  (forall request rest', negotiate (s, w) = (Ok request, (rest', w ++ [[x05; x00]])) <->
    exists offered rest, greets s offered rest /\ requests rest request rest') /\
  match negotiate (s, w) with
  | (Ok request, (_, w')) => w' = w ++ [[x05; x00]]
  | (Err _, (_, w')) => exists said, w' = w ++ said /\
      (said = [] \/ said = [[x05; xff]] \/ said = [[x05; x00]] \/
       said = [[x05; x00]; [x05; x07; x00; x01; x00; x00; x00; x00; x00; x00]])
  | (Panic, _) => False
  end.
Proof.
  split.
  - intros request rest'. split.
    + intros H. destruct (negotiate_cases s w) as [(offered & rest & q & r & Hg & Hq & Hn)|(e & r & said & Hn & _)];
        rewrite Hn in H; [|done]. injection H as -> ->. by exists offered, rest.
    + intros (offered & rest & Hg & Hq). by eapply negotiate_accepts.
  - destruct (negotiate_cases s w) as [(offered & rest & q & r & _ & _ & ->)|(e & r & said & -> & Hs)]; [done|].
    by exists said.
Qed.

(** C21: which upstream serves a client.  Starting from the rotation's next
    position, the balancer dials the upstreams marked healthy in turn and then, if none of
    them answers, every upstream in turn; the first to answer serves the client,
    who is sent its response, and counts one more connection.  Each upstream
    dialled is marked healthy exactly if it is the one that answered, the
    others keep their mark, and the rotation moves on by one.  If none
    answers, every upstream was dialled in vain and the client gets a failure
    reply. *)
Theorem balance_choice (Addr : Type) (dial : nat -> nat -> string + bytes) (client client' : conn)
    (request : bytes) (s : t Addr) :
  negotiate client = (Ok request, client') ->
  let len := length (upstreams s) in
  let start := N.to_nat (cursor s mod N.of_nat len) in
  let '(dialled, r) := first_answer dial request 0 (candidates (upstreams s) start) in
  let after := marked dialled (fst <$> r) (upstreams s) in
  (forall i, i ∈ dialled -> (i < len)%nat) /\
  match r with
  | Some (i, (remote, response)) =>
      handle_balanced_client dial client s = (Ok (i, remote), (fst client', snd client' ++ [response]),
        mk (alter (fun u => set_active (add64 (active u) 1) u) i after) (add64 (cursor s) 1)) /\ i ∈ dialled
  | None =>
      (forall i, (i < len)%nat -> i ∈ dialled) /\
      (forall n i, dialled !! n = Some i -> is_ok (connect dial n i request) = false) /\
      exists e, handle_balanced_client dial client s =
        (Err e, (fst client', snd client' ++ [[x05; x01; x00; x01; x00; x00; x00; x00; x00; x00]]),
         mk after (add64 (cursor s) 1))
  end.
Proof.
  intros Hn len start. pose proof (choose_spec dial request start (upstreams s)) as Hc.
  pose proof (first_answer_sub dial request 0 (candidates (upstreams s) start)) as Hsub.
  pose proof (first_answer_none dial request 0 (candidates (upstreams s) start)) as Hnone.
  pose proof (first_answer_chosen dial request 0 (candidates (upstreams s) start)) as Hch.
  destruct (first_answer dial request 0 _) as [l r]. destruct Hc as (Ha & Hr & Hs). cbn [fst snd] in *.
  assert (forall i, i ∈ candidates (upstreams s) start <-> (i < len)%nat) as Hcand.
  { intros i. unfold candidates. rewrite elem_of_app, list_elem_of_filter, elem_of_rotation. unfold len. tauto. }
  split; [intros i Hi; by apply Hcand, Hsub|].
  unfold handle_balanced_client. rewrite Hn. fold len start. rewrite Hr, Hs.
  destruct client' as [stream written]. destruct r as [[i [remote response]]|]; cbn [fst snd say].
  - split; [done|by eapply Hch].
  - destruct (Hnone eq_refl) as [-> Hall]. split_and!; [by intros i; rewrite Hcand|exact Hall|by eexists].
Qed.

(** C22: clients are spread evenly.  While every upstream is healthy and answers, the
    [k]-th client is served by upstream [(cursor + k) mod n], whatever
    connections end in between. *)
Theorem round_robin (Addr : Type) (l : list happening) (s : t Addr) :
  upstreams s <> [] -> all_healthy (upstreams s) -> Forall (welcome (length (upstreams s))) l ->
  cursor s + N.of_nat (arrivals l) <= U64 ->
  fst (serve l s) =
    (fun k => Ok (N.to_nat ((cursor s + N.of_nat k) mod N.of_nat (length (upstreams s))))) <$> seq 0 (arrivals l).
Proof.
  intros Hne Hh HF. revert s Hne Hh HF. induction l as [|h l IH]; intros s Hne Hh HF Hcur; [done|].
  inversion HF as [|? ? Hw HF']; subst. destruct h as [dial client|i]; cbn [serve].
  - destruct (handle_healthy dial client s Hh Hne Hw) as (remote & client' & us & -> & Hh' & Hlen).
    unfold arrivals in Hcur |- *. cbn [omap list_omap length] in Hcur |- *. fold (arrivals l) in Hcur |- *.
    assert (add64 (cursor s) 1 = cursor s + 1 \/ arrivals l = 0%nat) as Hadd.
    { destruct (arrivals l); [by right|left]. unfold add64. rewrite as_u64_small; [done|]. lia. }
    specialize (IH (mk us (add64 (cursor s) 1))). cbn [upstreams cursor] in IH.
    assert (us <> []) as Hne' by (intros ->; destruct (upstreams s); [done|discriminate Hlen]).
    rewrite Hlen in IH. specialize (IH Hne' Hh' HF').
    destruct (serve l _) as [rs s'] eqn:Hserve. cbn [fst seq fmap list_fmap mbind outcome_bind] in IH |- *.
    f_equal; [by rewrite N.add_0_r|]. destruct Hadd as [Hadd|Hz].
    + rewrite IH, Hadd by (rewrite Hadd; lia). rewrite <- fmap_S_seq, <- list_fmap_compose. apply list_fmap_ext.
      intros _ k _. cbn. do 3 f_equal. lia.
    + rewrite IH; rewrite Hz; [done|]. pose proof (as_u64_lt (cursor s + 1)). unfold add64. lia.
  - specialize (IH (finish i s)). cbn [upstreams cursor finish] in IH. rewrite length_alter in IH.
    apply IH; [|by apply all_healthy_alter|done|exact Hcur].
    intros Hnil. apply Hne. apply (f_equal length) in Hnil. rewrite length_alter in Hnil. by destruct (upstreams s).
Qed.

(** A client asking for 127.0.0.1:443 of two upstreams, the second of which
    answers. *)
Definition demo_client : conn := ([x05; x01; x00; x05; x01; x00; x01; x7f; x00; x00; x01; x01; xbb; x68], []).
Definition demo_answer : bytes := [x05; x00; x05; x00; x00; x01; x00; x00; x00; x00; x00; x00; x2a].
Definition demo_dial : nat -> nat -> string + bytes := fun n i =>
  if (i =? 0)%nat then inl "refused"%string else inr demo_answer.
Definition demo_balance : t nat := mk [mk_upstream 1080%nat true 0; mk_upstream 1081%nat true 3] 4.

Lemma balance_choice_witness :
  handle_balanced_client demo_dial demo_client demo_balance =
    (Ok (1%nat, [x2a]), ([x68], [[x05; x00]; [x05; x00; x00; x01; x00; x00; x00; x00; x00; x00]]),
     mk [mk_upstream 1080%nat false 0; mk_upstream 1081%nat true 4] 5).
Proof.
  pose proof (balance_choice nat demo_dial demo_client ([x68], [[x05; x00]])
    [x05; x01; x00; x01; x7f; x00; x00; x01; x01; xbb] demo_balance ltac:(by vm_compute)) as H.
  vm_compute in H |- *. exact (proj1 (proj2 H)).
Defined.

Lemma round_robin_witness :
  fst (serve [Arrives (fun _ _ => inr demo_answer) demo_client; Ends 1; Arrives (fun _ _ => inr demo_answer) demo_client]
    demo_balance) = [Ok 0%nat; Ok 1%nat].
Proof.
  assert (welcome 2 (Arrives (fun _ _ => inr demo_answer) demo_client)) as Hw.
  { eexists _, _. split; [vm_compute; reflexivity|]. intros i _. by vm_compute. }
  refine (eq_trans (round_robin nat _ demo_balance _ _ _ _) _).
  - discriminate.
  - repeat (constructor; [reflexivity|]). constructor.
  - constructor; [exact Hw|]. constructor; [exact I|]. constructor; [exact Hw|]. constructor.
  - vm_compute. discriminate.
  - by vm_compute.
Defined.
