(* ===== verification/Relay.v ===== *)
(** * The QUIC relay (src/src/quic_relay.rs: [authenticate_client],
    [authenticate_server], [relay_connection], [relay_client_session],
    [log_carrier_stats])

    A loop is a function of one event to what it emits and the state it
    continues with, or the error it ends with; an event is one branch of its
    [select!] (or one step of a half of the client's session) with what the
    network, the socket and the clock gave it.  Times are nanoseconds. *)
From S2P Require Import Prelude External QuicAuth Carrier Keyring.

(** ** Device authentication *)

(** [RecvStream::read_to_end(limit)] of a stream that delivers [stream], or fails. *)
Definition read_to_end (limit : nat) (stream : result bytes) : result bytes :=
  data ← stream;
  if (limit <? length data)%nat then Err "stream too long"%string else Ok data.

Section authentication.
Context {C : Crypto}.
(** [export_keying_material] on this connection's TLS session. *)
Context (export_keying_material : bytes -> option bytes).

(** [exporter] *)
Definition exporter (nonce : bytes) : result bytes :=
  context "TLS exporter failed"%string (export_keying_material nonce).

(** [authenticate_client], up to [send.finish()]: [now] is what [unix_time()]
    returns, [nonce] the random draw. *)
Definition client_proof (device_id : N) (secret : str) (now : result N) (nonce : bytes) : result bytes :=
  if device_id =? 0 then Err "device id must be non-zero"%string else
  now ← now;
  binding ← exporter nonce;
  Ok (make_envelope (utf8 secret) device_id now nonce binding).

(** The rest of it, on the reply. *)
Definition client_verdict (reply : result bytes) : result () :=
  reply ← read_to_end 16 reply;
  if negb (bool_decide (reply = bytes_of_string "OK"))
  then Err "QUIC device authentication rejected"%string else Ok ().

(** [authenticate_server]: the device and what is written back. *)
Definition authenticate_server (keys : gmap N str) (stream : result bytes) (now : result N)
    : method ReplayCache.t (N * bytes) :=
  proof ← lift (read_to_end ENVELOPE_LEN stream);
  device_id ← lift (envelope_device_id proof);
  secret ← lift (context "unknown device"%string (keys !! device_id));
  nonce ← lift (slice proof 21 37);
  binding ← lift (exporter nonce);
  now ← lift now;
  _ ← verify_envelope proof (utf8 secret) binding now DEFAULT_AUTH_WINDOW_SECS;
  mret (device_id, bytes_of_string "OK").

(** Both ends of one connection: what [authenticate_client] and
    [authenticate_server] return, and the cache left.  A server that fails closes
    the stream. *)
Definition handshake (device_id : N) (secret : str) (client_now server_now : N) (nonce : bytes)
    (keys : gmap N str) (cache : ReplayCache.t) : result () * option (result N) * ReplayCache.t :=
  match client_proof device_id secret (Ok client_now) nonce with
  | Ok proof =>
      let '(r, cache) := authenticate_server keys (Ok proof) (Ok server_now) cache in
      (client_verdict ('(_, reply) ← r; Ok reply), Some ('(id, _) ← r; Ok id), cache)
  | Err e => (Err e, None, cache)
  | Panic => (Panic, None, cache)
  end.
End authentication.

(** ** Statistics *)
Definition MIN_WIRE_LOSS_SAMPLE_PACKETS : N := 100.

(** [struct CarrierStatsSnapshot] *)
Record CarrierStatsSnapshot := mk_snapshot {
  sent_packets : N;
  lost_packets : N;
  lost_bytes : N;
  congestion_events : N;
  udp_tx_bytes : N;
  udp_rx_bytes : N;
}.

Definition no_stats : CarrierStatsSnapshot := mk_snapshot 0 0 0 0 0 0.

(** What [log_carrier_stats] reports: the counters' differences ([N.sub]
    saturates) and the loss estimate. *)
Definition log_carrier_stats (current previous : CarrierStatsSnapshot)
    : (option N * CarrierStatsSnapshot) * CarrierStatsSnapshot :=
  let sent := sent_packets current - sent_packets previous in
  let lost := lost_packets current - lost_packets previous in
  let wire_loss_ppm :=
    if MIN_WIRE_LOSS_SAMPLE_PACKETS <=? sent then Some (as_u32 (N.min (lost * 1000000 / sent) 1000000)) else None in
  ((wire_loss_ppm, mk_snapshot sent lost (lost_bytes current - lost_bytes previous)
    (congestion_events current - congestion_events previous) (udp_tx_bytes current - udp_tx_bytes previous)
    (udp_rx_bytes current - udp_rx_bytes previous)), current).

(** ** Loops *)
Section loop.
Context {Ev S Out : Type} (step : Ev -> S -> list Out * result S).

Fixpoint run (evs : list Ev) (s : S) : list Out * result S :=
  match evs with
  | [] => ([], Ok s)
  | ev :: evs =>
      let '(out, r) := step ev s in
      match r with
      | Ok s => let '(outs, r) := run evs s in (out ++ outs, r)
      | Err e => (out, Err e)
      | Panic => (out, Panic)
      end
  end.
End loop.

(** Handing fragments to the connection one by one; [accepted] is how many it
    takes before it fails, [None] if it does not. *)
Definition hand (accepted : option nat) (frames : list bytes) : list bytes * result () :=
  match accepted with
  | Some n => if (n <? length frames)%nat then (take n frames, Err "connection lost"%string) else (frames, Ok ())
  | None => (frames, Ok ())
  end.

Module RelayServer.
(** The variables of [relay_connection] *)
Record t := mk {
  received : CarrierReassembly.t;
  message : N;
  previous_stats : CarrierStatsSnapshot;
}.

Definition start : t := mk ∅ 0 no_stats.

(** [Fails]: a call the loop awaits returns an error before it emits anything. *)
Inductive event :=
| FromConnection (now : N) (incoming : bytes)
| FromSocket (maximum : option nat) (incoming : bytes) (accepted : option nat)
| StatsTick (stats : CarrierStatsSnapshot)
| Fails (error : string).

Inductive output :=
| ToConnection (datagram : bytes)
| ToSocket (payload : bytes)
| Logged (line : option N * CarrierStatsSnapshot).

(** [relay_connection], one iteration *)
Definition step (ev : event) (s : t) : list output * result t :=
  match ev with
  | FromConnection now incoming =>
      let '(r, received') := on_datagram now incoming (received s) in
      match r with
      | Ok (reply, payload) =>
          (option_list (ToConnection <$> reply) ++ option_list (ToSocket <$> payload),
           Ok (mk received' (message s) (previous_stats s)))
      | Err e => ([], Err e)
      | Panic => ([], Panic)
      end
  | FromSocket maximum incoming accepted =>
      let '(r, message') := send_carrier maximum (take MAX_DATAGRAM incoming) (message s) in
      match r with
      | Ok frames =>
          let '(sent, r) := hand accepted frames in
          (ToConnection <$> sent, _ ← r; Ok (mk (received s) message' (previous_stats s)))
      | Err e => ([], Err e)
      | Panic => ([], Panic)
      end
  | StatsTick stats =>
      let '(line, previous) := log_carrier_stats stats (previous_stats s) in
      ([Logged line], Ok (mk (received s) (message s) previous))
  | Fails e => ([], Err e)
  end.
End RelayServer.

Definition CARRIER_DEAD_TIMEOUT : N := 6000000000.

Module RelayClient.
Section session.
Context {Addr : Type}.

(** The variables of [relay_client_session]: [peer] is the watch channel's
    value, [backlog] what waits in the local socket's buffer, [pending] the
    fragments its sending half has yet to hand to the connection. *)
Record t := mk {
  received : CarrierReassembly.t;
  message : N;
  previous_stats : CarrierStatsSnapshot;
  peer : option Addr;
  backlog : list (Addr * bytes);
  pending : list bytes;
  last_server_activity : N;
}.

Definition start (now : N) (backlog : list (Addr * bytes)) : t := mk ∅ 0 no_stats None backlog [] now.

(** [Arrives]: the socket buffers a datagram.  [Reads] and [Hands] are the
    sending half: [recv_from] up to [send_carrier]'s first await, and one
    [send_datagram_wait].  The other events are the receiving half's branches. *)
Inductive event :=
| Arrives (from : Addr) (datagram : bytes)
| Reads (maximum : option nat)
| Hands
| Heartbeat (now : N)
| FromConnection (now now' : N) (incoming : bytes)
| StatsTick (stats : CarrierStatsSnapshot)
| Fails (error : string).

Inductive output :=
| ToConnection (datagram : bytes)
| ToPeer (to : Addr) (payload : bytes)
| Logged (line : option N * CarrierStatsSnapshot).

(** [socket.recv_from], [peer_tx.send_replace] and [send_carrier]'s fragments;
    nothing is read while fragments are pending. *)
Definition read (maximum : option nat) (s : t) : result t :=
  match pending s, backlog s with
  | [], (from, datagram) :: backlog =>
      let '(r, message') := send_carrier maximum (take MAX_DATAGRAM datagram) (message s) in
      frames ← r;
      Ok (mk (received s) message' (previous_stats s) (Some from) backlog frames (last_server_activity s))
  | _, _ => Ok s
  end.

(** [send_datagram_wait] of the next fragment *)
Definition hand_on (s : t) : list output * t :=
  match pending s with
  | [] => ([], s)
  | f :: pending =>
      ([ToConnection f],
       mk (received s) (message s) (previous_stats s) (peer s) (backlog s) pending (last_server_activity s))
  end.

(** [connection.read_datagram]: the payload is taken out of the reassembly
    also when no local peer is known yet. *)
Definition on_incoming (now now' : N) (incoming : bytes) (s : t) : list output * result t :=
  let with_received g := mk g (message s) (previous_stats s) (peer s) (backlog s) (pending s) now in
  if bool_decide (incoming = CARRIER_PONG) then ([], Ok (with_received (received s))) else
  match CarrierReassembly.push now' incoming (received s) with
  | (Ok payload, g) =>
      (match peer s, payload with Some to, Some payload => [ToPeer to payload] | _, _ => [] end,
       Ok (with_received g))
  | (Err e, _) => ([], Err e)
  | (Panic, _) => ([], Panic)
  end.

(** One step of [relay_client_session] *)
Definition step (ev : event) (s : t) : list output * result t :=
  match ev with
  | Arrives from datagram =>
      ([], Ok (mk (received s) (message s) (previous_stats s) (peer s) (backlog s ++ [(from, datagram)]) (pending s)
        (last_server_activity s)))
  | Reads maximum => ([], read maximum s)
  | Hands => let '(out, s) := hand_on s in (out, Ok s)
  | Heartbeat now =>
      if CARRIER_DEAD_TIMEOUT <? now - last_server_activity s
      then ([], Err "QUIC carrier heartbeat timeout"%string)
      else ([ToConnection CARRIER_PING], Ok s)
  | FromConnection now now' incoming => on_incoming now now' incoming s
  | StatsTick stats =>
      let '(line, previous) := log_carrier_stats stats (previous_stats s) in
      ([Logged line], Ok (mk (received s) (message s) previous (peer s) (backlog s) (pending s) (last_server_activity s)))
  | Fails e => ([], Err e)
  end.
End session.
Arguments t : clear implicits.
Arguments event : clear implicits.
Arguments output : clear implicits.
End RelayClient.

(** ** The congestion controller of the connection *)
Definition CARRIER_WINDOW : N := 1024 * 1024.

Module CarrierController.
Record t := mk { window : N }.

(** [CarrierControllerFactory::build] and the methods that take an event *)
Definition build : t := mk CARRIER_WINDOW.

Inductive event :=
| CongestionEvent (is_persistent_congestion : bool) (lost_bytes : N)
| MtuUpdate (new_mtu : N).

Definition on_event (ev : event) (c : t) : t :=
  match ev with
  | CongestionEvent _ _ => c
  | MtuUpdate _ => c
  end.

Definition initial_window (c : t) : N := window c.
End CarrierController.

(** ** Reconnecting *)
Definition SECOND : N := 1000000000.

(** One round of [run_client]'s loop: [connected] says whether the connection
    was authenticated and its lane setting read before it failed; the result is
    how long it sleeps and the delay of the next round. *)
Definition reconnect (connected : bool) (delay : N) : N * N :=
  let delay := if connected then SECOND else delay in
  (delay, N.min (delay * 2) (30 * SECOND)).

(** The sleeps of successive rounds. *)
Fixpoint sleeps (rounds : list bool) (delay : N) : list N :=
  match rounds with
  | [] => []
  | connected :: rounds => let '(sleep, delay) := reconnect connected delay in sleep :: sleeps rounds delay
  end.

(** ** Lemmas: runs *)
Section run_lemmas.
Context {Ev S Out : Type} (step : Ev -> S -> list Out * result S).

Lemma run_app l1 l2 s :
  run step (l1 ++ l2) s =
  let '(outs, r) := run step l1 s in
  match r with
  | Ok s => let '(outs', r) := run step l2 s in (outs ++ outs', r)
  | Err e => (outs, Err e)
  | Panic => (outs, Panic)
  end.
Proof.
  revert s. induction l1 as [|ev l1 IH]; intros s; cbn; [by destruct (run step l2 s)|].
  destruct (step ev s) as [out [s1| |]]; [|done..]. rewrite IH. destruct (run step l1 s1) as [outs [s2| |]]; [|done..].
  destruct (run step l2 s2) as [outs' r]. by rewrite app_assoc.
Qed.

(** What every step does of the loop, under an assumption on events and an
    invariant of the state, a run does. *)
Lemma run_invariant (E : Ev -> Prop) (P : S -> Prop) (Q : Out -> Prop) :
  (forall ev s, E ev -> P s -> let '(out, r) := step ev s in
     Forall Q out /\ match r with Ok s' => P s' | Err _ => True | Panic => False end) ->
  forall evs s, Forall E evs -> P s -> let '(outs, r) := run step evs s in
     Forall Q outs /\ match r with Ok s' => P s' | Err _ => True | Panic => False end.
Proof.
  intros Hstep. induction evs as [|ev evs IH]; intros s HE HP; [by split; [constructor|]|].
  apply Forall_cons in HE as [Hev HE]. cbn. specialize (Hstep ev s Hev HP).
  destruct (step ev s) as [out [s1|e|]]; [|done..]. destruct Hstep as [HQ HP1].
  specialize (IH s1 HE HP1). destruct (run step evs s1) as [outs r]. destruct IH as [HQ' HP'].
  split; [by apply Forall_app|done].
Qed.
End run_lemmas.

(** ** Lemmas: authentication *)
Section authentication_lemmas.
Context {C : Crypto} {L : CryptoLaws C}.
Context (export_keying_material : bytes -> option bytes).

(** What [authenticate_server] does with a well-formed envelope. *)
Lemma authenticate_well_formed keys now c id ts n mac :
  id < U64 -> ts < U64 -> length n = 16%nat -> length mac = 32%nat ->
  authenticate_server export_keying_material keys (Ok (envelope_prefix id ts n ++ mac)) (Ok now) c =
  if id =? 0 then (Err "device id must be non-zero"%string, c) else
  match keys !! id, export_keying_material n with
  | None, _ => (Err "unknown device"%string, c)
  | Some _, None => (Err "TLS exporter failed"%string, c)
  | Some secret, Some binding =>
      let '(r, c') := verify_envelope (envelope_prefix id ts n ++ mac) (utf8 secret) binding now DEFAULT_AUTH_WINDOW_SECS c in
      ((_ ← r; Ok (id, bytes_of_string "OK")), c')
  end.
Proof.
  intros Hid Hts Hn Hm. unfold authenticate_server, read_to_end, exporter. unfold_method. cbn [mbind outcome_bind].
  assert (length (envelope_prefix id ts n ++ mac) = ENVELOPE_LEN) as Hl
    by (by rewrite length_app, length_envelope_prefix, Hm).
  rewrite Hl, Nat.ltb_irrefl. unfold envelope_device_id. rewrite malformed_ok by done. cbn [mbind outcome_bind].
  destruct (envelope_fields id ts n mac Hn) as (_ & _ & -> & _ & ->). cbn [mbind outcome_bind].
  rewrite from_u64_be by done. destruct (id =? 0); [done|].
  destruct (keys !! id) as [secret|]; [|done]. cbn [context]. destruct (export_keying_material n); [|done].
  cbn [context]. by destruct (verify_envelope _ _ _ _ _ _) as [[|?|] c'].
Qed.

Lemma authenticate_malformed keys stream now c :
  malformed stream <> Ok false ->
  exists e, authenticate_server export_keying_material keys (Ok stream) now c = (Err e, c).
Proof.
  intros H. unfold authenticate_server, read_to_end. unfold_method. cbn [mbind outcome_bind].
  destruct (_ <? _)%nat; [by eexists|]. unfold envelope_device_id. rewrite malformed_true by done. by eexists.
Qed.

End authentication_lemmas.

Lemma verify_accepts {C : Crypto} {L : CryptoLaws C} secret ex now w c id ts n mac :
  id < U64 -> ts < U64 -> length n = 16%nat -> length mac = 32%nat -> id <> 0 ->
  let r := fst (verify_envelope (envelope_prefix id ts n ++ mac) secret ex now w c) in
  no_panic r /\
  (is_ok r = true <-> envelope_prefix id ts n ++ mac = make_envelope secret id ts n ex /\
    now <= ts + w /\ ts <= now + w /\ fst (ReplayCache.check_and_insert n now w c) = true).
Proof.
  intros Hid Hts Hn Hm Hz r. unfold r. rewrite verify_well_formed by done.
  rewrite (proj2 (N.eqb_neq _ _)) by done.
  destruct (N.ltb_spec w (abs_diff now ts)) as [Hw|Hw].
  { split; [done|]. split; [done|]. intros (_ & H1 & H2 & _). unfold abs_diff in Hw. lia. }
  case_bool_decide as Hmac; cbn [negb].
  - destruct (ReplayCache.check_and_insert n now w c) as [[] c'] eqn:Hc; cbn; (split; [done|]); (split; [|tauto]);
      [|done].
    intros _. unfold abs_diff in Hw. split_and!; [|lia..|done]. unfold make_envelope. by rewrite Hmac.
  - split; [done|]. split; [done|]. intros (Heq & _). unfold make_envelope in Heq. by apply app_inv_head in Heq.
Qed.

Lemma authenticate_accepts {C : Crypto} {L : CryptoLaws C} export keys now c id ts n mac :
  id < U64 -> ts < U64 -> length n = 16%nat -> length mac = 32%nat ->
  let stream := envelope_prefix id ts n ++ mac in
  let r := fst (authenticate_server export keys (Ok stream) (Ok now) c) in
  no_panic r /\ (is_ok r = true -> r = Ok (id, bytes_of_string "OK")) /\
  (is_ok r = true <-> 0 < id /\ exists secret binding, keys !! id = Some secret /\ export n = Some binding /\
    stream = make_envelope (utf8 secret) id ts n binding /\
    now <= ts + DEFAULT_AUTH_WINDOW_SECS /\ ts <= now + DEFAULT_AUTH_WINDOW_SECS /\
    fst (ReplayCache.check_and_insert n now DEFAULT_AUTH_WINDOW_SECS c) = true).
Proof.
  intros Hid Hts Hn Hm stream r. unfold r, stream. rewrite authenticate_well_formed by done.
  destruct (N.eqb_spec id 0) as [->|Hz].
  { split; [done|]. split; [done|]. split; [done|]. intros [? _]. lia. }
  destruct (keys !! id) as [secret|].
  2: { split; [done|]. split; [done|]. split; [done|]. by intros (_ & s & b & ? & _). }
  destruct (export n) as [binding|].
  2: { split; [done|]. split; [done|]. split; [done|]. by intros (_ & s & b & _ & ? & _). }
  destruct (verify_accepts (utf8 secret) binding now DEFAULT_AUTH_WINDOW_SECS c id ts n mac Hid Hts Hn Hm Hz) as [Hp Hiff].
  destruct (verify_envelope _ _ _ _ _ _) as [r0 c']. cbn [fst] in *.
  assert (is_ok (_ ← r0; Ok (id, bytes_of_string "OK")) = is_ok r0) as -> by (by destruct r0).
  split; [by destruct r0|]. split; [by destruct r0|]. rewrite Hiff. split.
  - intros (H1 & H2). split; [lia|]. by exists secret, binding.
  - intros (_ & s & b & [= <-] & [= <-] & H). exact H.
Qed.

(** ** Lemmas: the loops *)
Lemma on_datagram_total now f groups :
  table_ok groups ->
  let '(r, groups') := on_datagram now f groups in
  no_panic r /\ table_ok groups' /\
  (forall reply payload, r = Ok (reply, payload) -> forall p, payload = Some p -> (length p <= MAX_DATAGRAM)%nat).
Proof.
  intros Ht. unfold on_datagram. case_bool_decide.
  { split_and!; [done|done|]. by intros ? ? [= <- <-]. }
  pose proof (push_total now f groups Ht) as Hp. unfold_method.
  destruct (CarrierReassembly.push now f groups) as [[o|e|] g]; destruct Hp as (Hn & Hg & Hl); [|done..].
  split_and!; [done|done|]. intros ? ? [= <- <-] p ->. by apply Hl.
Qed.

Lemma send_carrier_no_panic maximum payload m : no_panic (fst (send_carrier maximum payload m)).
Proof.
  unfold send_carrier. unfold_method. destruct maximum; cbn [context]; [|done].
  destruct (_ <=? _)%nat; [done|]. by destruct (_ <? _)%nat.
Qed.

Lemma server_step_total ev s :
  True -> table_ok (RelayServer.received s) ->
  let '(out, r) := RelayServer.step ev s in
  Forall (fun o => match o with RelayServer.ToSocket p => (length p <= MAX_DATAGRAM)%nat | _ => True end) out /\
  match r with Ok s' => table_ok (RelayServer.received s') | Err _ => True | Panic => False end.
Proof.
  intros _ Ht. destruct ev as [now f|maximum p accepted|stats|e]; cbn [RelayServer.step].
  - pose proof (on_datagram_total now f _ Ht) as H.
    destruct (on_datagram now f _) as [[[reply payload]|e|] g]; destruct H as (Hn & Hg & Hl); [|done..].
    split; [|done]. apply Forall_app. split; [by destruct reply; repeat constructor|].
    destruct payload as [p|]; [|constructor]. constructor; [|constructor]. by eapply Hl.
  - pose proof (send_carrier_no_panic maximum (take MAX_DATAGRAM p) (RelayServer.message s)) as H.
    destruct (send_carrier _ _ _) as [[frames|e|] m']; [|done..].
    destruct (hand accepted frames) as [sent r] eqn:Hh. split; [by apply Forall_fmap, Forall_true|].
    unfold hand in Hh. destruct accepted as [n|]; [destruct (n <? length frames)%nat|]; by injection Hh as <- <-.
  - split; [by repeat constructor|done].
  - done.
Qed.

Lemma client_step_total {Addr} (ev : RelayClient.event Addr) s :
  True -> table_ok (RelayClient.received s) ->
  let '(out, r) := RelayClient.step ev s in
  Forall (fun o => match o with RelayClient.ToPeer _ p => (length p <= MAX_DATAGRAM)%nat | _ => True end) out /\
  match r with Ok s' => table_ok (RelayClient.received s') | Err _ => True | Panic => False end.
Proof.
  intros _ Ht. destruct ev as [from p|maximum| |now|now now' f|stats|e]; cbn [RelayClient.step]; try done.
  - split; [constructor|]. unfold RelayClient.read. destruct (RelayClient.pending s), (RelayClient.backlog s) as [|[a p] bl]; try done.
    pose proof (send_carrier_no_panic maximum (take MAX_DATAGRAM p) (RelayClient.message s)) as H.
    by destruct (send_carrier _ _ _) as [[frames|e|] m'].
  - unfold RelayClient.hand_on. destruct (RelayClient.pending s); (split; [by repeat constructor|done]).
  - destruct (_ <? _); [done|]. split; [by repeat constructor|done].
  - unfold RelayClient.on_incoming. case_bool_decide; [done|]. pose proof (push_total now' f _ Ht) as Hpush.
    destruct (CarrierReassembly.push now' f _) as [[o|e|] g]; destruct Hpush as (Hn & Hg & Hl); [|done..].
    split; [|done]. destruct (RelayClient.peer s), o as [p|]; repeat constructor. by apply Hl.
  - split; [by repeat constructor|done].
Qed.

(** *** The window and the statistics *)
Lemma window_constant evs :
  let c := foldr CarrierController.on_event CarrierController.build evs in
  CarrierController.window c = CARRIER_WINDOW /\ CarrierController.initial_window c = CARRIER_WINDOW.
Proof. induction evs as [|[] evs IH]; done. Qed.

(** The loss estimate exists from 100 packets on, never exceeds a million, and
    is the exact quotient while no more packets are lost than sent. *)
Lemma wire_loss_bounds current previous :
  let '((ppm, d), _) := log_carrier_stats current previous in
  match ppm with
  | Some ppm => MIN_WIRE_LOSS_SAMPLE_PACKETS <= sent_packets d /\ ppm <= 1000000 /\
      (lost_packets d <= sent_packets d -> ppm = lost_packets d * 1000000 / sent_packets d)
  | None => sent_packets d < MIN_WIRE_LOSS_SAMPLE_PACKETS
  end.
Proof.
  unfold log_carrier_stats, MIN_WIRE_LOSS_SAMPLE_PACKETS. cbn [sent_packets lost_packets].
  destruct (N.leb_spec 100 (sent_packets current - sent_packets previous)) as [Hs|Hs]; [|done].
  set (sent := sent_packets current - sent_packets previous) in *. set (lost := lost_packets current - lost_packets previous).
  assert (as_u32 (N.min (lost * 1000000 / sent) 1000000) = N.min (lost * 1000000 / sent) 1000000) as ->
    by (apply N.mod_small; width_lia).
  split; [done|]. split; [lia|]. intros Hl. apply N.min_l.
  apply N.Div0.div_le_upper_bound. nia.
Qed.

(** *** The heartbeat *)
Definition TIMED_OUT : string := "QUIC carrier heartbeat timeout".

(** When the server was last heard of, [t0] at first. *)
Definition last_heard {Addr} (evs : list (RelayClient.event Addr)) (t0 : N) : N :=
  foldl (fun t ev => match ev with RelayClient.FromConnection now _ _ => now | _ => t end) t0 evs.

Lemma unwrap_all_not_timed_out parts : CarrierReassembly.unwrap_all parts <> Err TIMED_OUT.
Proof.
  induction parts as [|[p|] parts IH]; cbn; [discriminate| |discriminate].
  destruct (CarrierReassembly.unwrap_all parts) as [|e|]; cbn; [discriminate| |discriminate]. congruence.
Qed.

Lemma push_not_timed_out now f groups : fst (CarrierReassembly.push now f groups) <> Err TIMED_OUT.
Proof.
  unfold CarrierReassembly.push, slice, elem_at, unwrap. unfold_method. split_ifs; try discriminate.
  all: match goal with |- context [match ?o with Some _ => Ok _ | None => _ end] => destruct o as [slot|] end; try discriminate.
  cbv zeta. destruct (existsb _ _); [discriminate|].
  set (parts := match slot with Some _ => _ | None => _ end). pose proof (unwrap_all_not_timed_out parts) as Hu.
  destruct (CarrierReassembly.unwrap_all parts) as [ps|e|]; [|cbn; congruence|discriminate].
  match goal with |- context [if ?b then _ else _] => destruct b end; discriminate.
Qed.

Lemma send_not_timed_out maximum p m : fst (send_carrier maximum p m) <> Err TIMED_OUT.
Proof.
  unfold send_carrier. unfold_method. destruct maximum; cbn [context]; [|discriminate].
  split_ifs; discriminate.
Qed.

Section heartbeat.
Context {Addr : Type}.
Implicit Types (evs : list (RelayClient.event Addr)) (s : RelayClient.t Addr).

(** One step: when the heartbeat ends the session, and what is remembered. *)
Lemma step_heard ev s :
  (forall e, ev = RelayClient.Fails e -> e <> TIMED_OUT) ->
  (snd (RelayClient.step ev s) = Err TIMED_OUT <->
   exists now, ev = RelayClient.Heartbeat now /\ RelayClient.last_server_activity s + CARRIER_DEAD_TIMEOUT < now) /\
  forall s', snd (RelayClient.step ev s) = Ok s' ->
    RelayClient.last_server_activity s' = last_heard [ev] (RelayClient.last_server_activity s).
Proof.
  intros Hf. destruct ev as [from p|maximum| |now|now now' f|stats|e]; cbn [RelayClient.step last_heard foldl].
  - split; [|by intros s' [= <-]]. split; [done|]. by intros (? & ? & _).
  - unfold RelayClient.read. destruct (RelayClient.pending s), (RelayClient.backlog s) as [|[a p] bl]; cbn;
      try (split; [|by intros s' [= <-]]; split; [done|]; by intros (? & ? & _)).
    pose proof (send_not_timed_out maximum (take MAX_DATAGRAM p) (RelayClient.message s)) as Hs.
    destruct (send_carrier _ _ _) as [[frames|e|] m']; cbn in *; (split; [|by intros s' [= <-]]);
      (split; [congruence|]); by intros (? & ? & _).
  - unfold RelayClient.hand_on. destruct (RelayClient.pending s); cbn;
      (split; [|by intros s' [= <-]]; split; [done|]; by intros (? & ? & _)).
  - destruct (N.ltb_spec CARRIER_DEAD_TIMEOUT (now - RelayClient.last_server_activity s)); cbn.
    + split; [|done]. split; [|done]. intros _. exists now. split; [done|lia].
    + split; [|by intros s' [= <-]]. split; [done|]. intros (n & [= <-] & Hn). lia.
  - unfold RelayClient.on_incoming. case_bool_decide; cbn.
    { split; [|by intros s' [= <-]]. split; [done|]. by intros (? & ? & _). }
    pose proof (push_not_timed_out now' f (RelayClient.received s)) as Hp.
    destruct (CarrierReassembly.push _ _ _) as [[o|e|] g]; cbn in *; (split; [|by intros s' [= <-]]);
      (split; [congruence|]); by intros (? & ? & _).
  - split; [|by intros s' [= <-]]. split; [done|]. by intros (? & ? & _).
  - split; [|done]. split; [|by intros (? & ? & _)]. intros [= ->]. by destruct (Hf TIMED_OUT eq_refl).
Qed.

Lemma run_heard evs s s' :
  (forall e, RelayClient.Fails e ∈ evs -> e <> TIMED_OUT) -> snd (run RelayClient.step evs s) = Ok s' ->
  RelayClient.last_server_activity s' = last_heard evs (RelayClient.last_server_activity s).
Proof.
  revert s. induction evs as [|ev evs IH]; intros s Hf; cbn [run]; [by intros [= <-]|].
  destruct (step_heard ev s) as [_ Hs]; [intros e ->; apply Hf; by left|].
  destruct (RelayClient.step ev s) as [out [s1|e|]]; [|done..]. cbn [snd] in Hs.
  destruct (run RelayClient.step evs s1) as [outs r] eqn:Hr. cbn. intros Hok.
  rewrite (IH s1); [|intros e He; apply Hf; by right|by rewrite Hr].
  by rewrite (Hs s1 eq_refl).
Qed.
End heartbeat.

(** ** Properties *)

(** which peers the relay server lets in.  A stream authenticates as device
    [id] exactly when it is, byte for byte, the proof that the secret registered
    for this non-zero device makes for this TLS connection, dated within 30
    seconds of the server's clock, with a nonce not seen before; the server then
    answers [OK].  Any other stream is an error, never a panic. *)
Theorem server_authenticates (C : Crypto) (L : CryptoLaws C) (export : bytes -> option bytes)
    (keys : gmap N str) (stream : bytes) (now : N) (c : ReplayCache.t) (id : N) (reply : bytes) :
  let r := fst (authenticate_server export keys (Ok stream) (Ok now) c) in
  no_panic r /\
  (r = Ok (id, reply) <->
   reply = bytes_of_string "OK" /\ 0 < id < U64 /\
   exists secret binding ts nonce, keys !! id = Some secret /\ export nonce = Some binding /\
     length nonce = 16%nat /\ ts < U64 /\ stream = make_envelope (utf8 secret) id ts nonce binding /\
     now <= ts + DEFAULT_AUTH_WINDOW_SECS /\ ts <= now + DEFAULT_AUTH_WINDOW_SECS /\
     fst (ReplayCache.check_and_insert nonce now DEFAULT_AUTH_WINDOW_SECS c) = true).
Proof.
  intros r. assert (malformed stream = Ok false \/ malformed stream <> Ok false) as [Hwf|Hbad]
    by (destruct (malformed stream) as [[]|?|]; first [by left|by right]).
  - apply malformed_inv in Hwf as (id0 & ts0 & n0 & mac & Hid & Hts & Hn & Hm & ->).
    destruct (authenticate_accepts export keys now c id0 ts0 n0 mac Hid Hts Hn Hm) as (Hp & Hok & Hiff).
    fold r in Hp, Hok, Hiff. split; [done|]. split.
    + intros Hr. rewrite Hr in Hok, Hiff. specialize (Hok eq_refl). injection Hok as -> ->.
      destruct (proj1 Hiff eq_refl) as (Hpos & s & b & H1 & H2 & H3 & H4). split; [done|]. split; [lia|].
      by exists s, b, ts0, n0.
    + intros (-> & [Hpos Hlt] & s & b & ts & n & H1 & H2 & Hl & Ht & Heq & H3).
      assert (envelope_prefix id0 ts0 n0 ++ mac = make_envelope (utf8 s) id ts n b) as Heq' by done.
      assert (id0 = id /\ ts0 = ts /\ n0 = n) as (-> & -> & ->).
      { eapply envelope_prefix_inj in Heq' as (? & ? & ? & _); done. }
      apply Hok, Hiff. split; [done|]. by exists s, b.
  - destruct (authenticate_malformed export keys stream (Ok now) c Hbad) as [e He].
    unfold r. rewrite He. split; [done|]. split; [done|].
    intros (_ & _ & s & b & ts & n & _ & _ & Hl & _ & -> & _). exfalso. apply Hbad. unfold make_envelope.
    apply malformed_ok; [done|]. apply blake3_keyed_length.
Qed.

(** device and relay server agree.  Over one TLS connection, the
    client is let in exactly when its device is not 0, the two clocks are within
    30 seconds, the nonce is fresh and the server's secret for the device makes
    the same proof as the client's; the server then takes it for that device.
    Neither end believes in a connection the other refused. *)
Theorem handshake_agrees (C : Crypto) (L : CryptoLaws C) (export : bytes -> option bytes) (keys : gmap N str)
    (id : N) (secret : str) (client_now server_now : N) (nonce : bytes) (c : ReplayCache.t) :
  id < U64 -> client_now < U64 -> length nonce = 16%nat ->
  let '(client, server, _) := handshake export id secret client_now server_now nonce keys c in
  (client = Ok () <-> server = Some (Ok id)) /\
  (client = Ok () <-> 0 < id /\ exists registered binding, keys !! id = Some registered /\ export nonce = Some binding /\
     make_envelope (utf8 secret) id client_now nonce binding = make_envelope (utf8 registered) id client_now nonce binding /\
     server_now <= client_now + DEFAULT_AUTH_WINDOW_SECS /\ client_now <= server_now + DEFAULT_AUTH_WINDOW_SECS /\
     fst (ReplayCache.check_and_insert nonce server_now DEFAULT_AUTH_WINDOW_SECS c) = true).
Proof.
  intros Hid Hts Hn. unfold handshake, client_proof, exporter.
  destruct (N.eqb_spec id 0) as [->|Hz].
  { split; [done|]. split; [done|]. intros [? _]. lia. }
  cbn [mbind outcome_bind]. destruct (export nonce) as [binding|] eqn:He; cbn [context mbind outcome_bind].
  2: { split; [done|]. split; [done|]. by intros (_ & s & b & _ & ? & _). }
  set (mac := blake3_keyed (device_key (utf8 secret)) (envelope_prefix id client_now nonce ++ binding)).
  assert (length mac = 32%nat) as Hm by apply blake3_keyed_length.
  change (make_envelope (utf8 secret) id client_now nonce binding) with (envelope_prefix id client_now nonce ++ mac).
  destruct (authenticate_accepts export keys server_now c id client_now nonce mac Hid Hts Hn Hm) as (Hp & Hok & Hiff).
  destruct (authenticate_server _ _ _ _ _) as [r c']. cbn [fst] in *.
  assert (client_verdict ('(_, reply) ← r; Ok reply) = Ok () <-> is_ok r = true) as Hv.
  { destruct r as [[id' b]|e|]; cbn; [|split; discriminate..]. specialize (Hok eq_refl). injection Hok as -> ->. split; reflexivity. }
  split.
  - rewrite Hv. split; [intros H; by rewrite (Hok H)|]. destruct r; [done|discriminate..].
  - rewrite Hv, Hiff, He. split; intros (Hpos & s & b & Hs & [= <-] & Hrest); (split; [done|]); by exists s, binding.
Qed.

(** Device 7 of a keyring of two, with a TLS exporter that tags the nonce. *)
Definition demo_export (nonce : bytes) : option bytes := Some (x2a :: nonce).
Definition demo_secret : str := replicate 32 97.
Definition demo_keys : gmap N str := {[7 := demo_secret; 8 := replicate 32 98]}.

Lemma handshake_agrees_witness :
  let '(client, server, _) := handshake (C := toy_crypto) demo_export 7 demo_secret 1000 1020 (replicate 16 x05) demo_keys
    (ReplayCache.mk 4 ∅ []) in client = Ok () /\ server = Some (Ok 7).
Proof.
  pose proof (handshake_agrees toy_crypto toy_crypto_laws demo_export demo_keys 7 demo_secret 1000 1020
    (replicate 16 x05) (ReplayCache.mk 4 ∅ []) ltac:(by vm_compute) ltac:(by vm_compute) eq_refl) as H.
  destruct (handshake _ _ _ _ _ _ _ _) as [[client server] c']. destruct H as [Hs Hc].
  assert (client = Ok ()) as Hok; [|by split; [|apply Hs]].
  apply Hc. split; [by vm_compute|]. exists demo_secret, (x2a :: replicate 16 x05).
  split_and!; [by vm_compute|reflexivity|reflexivity|by vm_compute..].
Defined.

(** A proof recorded from device 7 on this connection. *)
Lemma server_authenticates_witness :
  fst (authenticate_server (C := toy_crypto) demo_export demo_keys
    (Ok (make_envelope (C := toy_crypto) (utf8 demo_secret) 7 1000 (replicate 16 x05) (x2a :: replicate 16 x05)))
    (Ok 1020) (ReplayCache.mk 4 ∅ [])) = Ok (7, bytes_of_string "OK").
Proof.
  apply (server_authenticates toy_crypto toy_crypto_laws demo_export demo_keys
    (make_envelope (C := toy_crypto) (utf8 demo_secret) 7 1000 (replicate 16 x05) (x2a :: replicate 16 x05)) 1020
    (ReplayCache.mk 4 ∅ []) 7 (bytes_of_string "OK")).
  split; [reflexivity|]. split; [by vm_compute|].
  exists demo_secret, (x2a :: replicate 16 x05), 1000, (replicate 16 x05).
  split_and!; [by vm_compute|reflexivity|reflexivity|by vm_compute|reflexivity|by vm_compute..].
Defined.

(** C29: the loops are total.  Whatever datagrams, errors and timers come, in
    whatever order, neither end's loop ever panics; as long as it runs, its
    reassembly holds at most 2048 messages of 1 to 128 positions with one of them
    missing; and it never gives its socket more than 65535 bytes. *)
Theorem relay_total (Addr : Type) (sevs : list RelayServer.event) (cevs : list (RelayClient.event Addr)) (t0 : N)
    (backlog : list (Addr * bytes)) :
  (let '(outs, r) := run RelayServer.step sevs RelayServer.start in
   no_panic r /\ (forall s, r = Ok s -> table_ok (RelayServer.received s)) /\
   forall p, RelayServer.ToSocket p ∈ outs -> (length p <= MAX_DATAGRAM)%nat) /\
  (let '(outs, r) := run RelayClient.step cevs (RelayClient.start t0 backlog) in
   no_panic r /\ (forall s, r = Ok s -> table_ok (RelayClient.received s)) /\
   forall to p, RelayClient.ToPeer to p ∈ outs -> (length p <= MAX_DATAGRAM)%nat).
Proof.
  split.
  - pose proof (run_invariant RelayServer.step _ _ _ server_step_total sevs RelayServer.start (Forall_true _ _ (fun _ => I)) table_ok_empty) as H.
    destruct (run _ _ _) as [outs r]. destruct H as [HF Hr]. rewrite Forall_forall in HF.
    split_and!; [by destruct r|by intros s ->|]. intros p Hp. exact (HF _ Hp).
  - pose proof (run_invariant RelayClient.step _ _ _ client_step_total cevs (RelayClient.start t0 backlog) (Forall_true _ _ (fun _ => I)) table_ok_empty) as H.
    destruct (run _ _ _) as [outs r]. destruct H as [HF Hr]. rewrite Forall_forall in HF.
    split_and!; [by destruct r|by intros s ->|]. intros to p Hp. exact (HF _ Hp).
Qed.

(** C9: the heartbeat notices a dead path, and only that.  Whatever else happens,
    the client's session ends with the heartbeat timeout exactly when it comes to a
    heartbeat more than six seconds after the last datagram from the server (or
    the start); so it ends when the server falls silent, and a session still
    running was silent for at most six seconds at each of its heartbeats. *)
Theorem heartbeat_verdict (Addr : Type) (evs : list (RelayClient.event Addr)) (s : RelayClient.t Addr) :
  (forall e, RelayClient.Fails e ∈ evs -> e <> TIMED_OUT) ->
  let r := snd (run RelayClient.step evs s) in
  let heard l := last_heard l (RelayClient.last_server_activity s) in
  (r = Err TIMED_OUT <-> exists l1 now l2, evs = l1 ++ RelayClient.Heartbeat now :: l2 /\
     is_ok (snd (run RelayClient.step l1 s)) = true /\ heard l1 + CARRIER_DEAD_TIMEOUT < now) /\
  (is_ok r = true -> forall l1 now l2, evs = l1 ++ RelayClient.Heartbeat now :: l2 ->
     now <= heard l1 + CARRIER_DEAD_TIMEOUT).
Proof.
  intros Hf r heard.
  assert (forall l1 now l2 s1, evs = l1 ++ RelayClient.Heartbeat now :: l2 -> snd (run RelayClient.step l1 s) = Ok s1 ->
    RelayClient.last_server_activity s1 = heard l1) as Hheard.
  { intros l1 now l2 s1 -> Hs1. apply run_heard; [|done]. intros e He. apply Hf, elem_of_app. by left. }
  assert (forall l1 now l2, evs = l1 ++ RelayClient.Heartbeat now :: l2 -> is_ok (snd (run RelayClient.step l1 s)) = true ->
    heard l1 + CARRIER_DEAD_TIMEOUT < now -> r = Err TIMED_OUT) as Hdead.
  { intros l1 now l2 Hevs Hl1 Hnow. unfold r. rewrite Hevs, run_app.
    destruct (run RelayClient.step l1 s) as [outs1 [s1|e|]] eqn:Hr1; [|done..].
    specialize (Hheard l1 now l2 s1 Hevs ltac:(by rewrite Hr1)). cbn [run RelayClient.step].
    rewrite (proj2 (N.ltb_lt _ _)) by lia. reflexivity. }
  split; [split|].
  - clear Hdead Hheard. unfold r, heard. clear r heard. revert s. induction evs as [|ev l IH]; intros s; cbn [run]; [done|].
    destruct (step_heard ev s) as [Htime Hs]; [intros e ->; apply Hf; by left|].
    destruct (RelayClient.step ev s) as [out [s1|e|]] eqn:Hstep; cbn [snd] in *; [| |done].
    + destruct (run RelayClient.step l s1) as [outs r] eqn:Hr. cbn [snd]. intros ->.
      destruct (IH ltac:(intros e He; apply Hf; by right) s1) as (l1 & now & l2 & -> & Hok & Hnow); [by rewrite Hr|].
      exists (ev :: l1), now, l2. split; [done|]. cbn [run]. rewrite Hstep. cbn [last_heard foldl].
      rewrite (Hs s1 eq_refl) in Hnow. split; [|exact Hnow]. by destruct (run RelayClient.step l1 s1).
    + intros He. destruct (proj1 Htime He) as (now & -> & Hnow). by exists [], now, l.
  - intros (l1 & now & l2 & H1 & H2 & H3). by eapply Hdead.
  - intros Hok l1 now l2 Hevs. apply N.le_ngt. intros Hnow.
    assert (is_ok (snd (run RelayClient.step l1 s)) = true) as Hl1.
    { unfold r in Hok. rewrite Hevs, run_app in Hok. by destruct (run RelayClient.step l1 s) as [? []]. }
    specialize (Hdead l1 now l2 Hevs Hl1 Hnow). by rewrite Hdead in Hok.
Qed.

Lemma heartbeat_verdict_witness :
  snd (run RelayClient.step [RelayClient.FromConnection 5 5 CARRIER_PONG; RelayClient.Heartbeat (5 + CARRIER_DEAD_TIMEOUT);
    RelayClient.Heartbeat (6 + CARRIER_DEAD_TIMEOUT)] (RelayClient.start (Addr := N) 0 [])) = Err TIMED_OUT.
Proof.
  apply (heartbeat_verdict N [RelayClient.FromConnection 5 5 CARRIER_PONG; RelayClient.Heartbeat (5 + CARRIER_DEAD_TIMEOUT);
    RelayClient.Heartbeat (6 + CARRIER_DEAD_TIMEOUT)] (RelayClient.start (Addr := N) 0 [])).
  - intros e. rewrite !elem_of_cons, elem_of_nil. intros [|[|[|[]]]]; discriminate.
  - exists [RelayClient.FromConnection 5 5 CARRIER_PONG; RelayClient.Heartbeat (5 + CARRIER_DEAD_TIMEOUT)],
      (6 + CARRIER_DEAD_TIMEOUT), []. split; [reflexivity|]. split; [reflexivity|]. by vm_compute.
Defined.

(** the delays between connection attempts.  Starting from one second,
    every delay is between one and thirty seconds; the first attempt after a
    working connection waits one second, and each failure after it doubles the delay
    up to thirty. *)
Theorem reconnect_delays (rounds : list bool) (k : nat) :
  Forall (fun d => SECOND <= d <= 30 * SECOND) (sleeps rounds SECOND) /\
  forall d, drop (length rounds) (sleeps (rounds ++ true :: replicate k false) d) =
    (fun i => N.min (2 ^ N.of_nat i * SECOND) (30 * SECOND)) <$> seq 0 (S k).
Proof.
  split.
  - assert (forall d, SECOND <= d <= 30 * SECOND -> Forall (fun d => SECOND <= d <= 30 * SECOND) (sleeps rounds d)) as H;
      [|apply H; unfold SECOND; lia].
    induction rounds as [|c rounds IH]; intros d Hd; [constructor|]. cbn [sleeps reconnect].
    destruct c; (constructor; [unfold SECOND in *; lia|]); apply IH; unfold SECOND in *; lia.
  - intros d. assert (forall i j, sleeps (replicate j false) (N.min (2 ^ N.of_nat i * SECOND) (30 * SECOND)) =
      (fun i => N.min (2 ^ N.of_nat i * SECOND) (30 * SECOND)) <$> seq i j) as Hfail.
    { intros i j. revert i. induction j as [|j IH]; intros i; [done|]. cbn [replicate sleeps reconnect seq fmap list_fmap].
      f_equal. rewrite <- IH. f_equal. rewrite Nat2N.inj_succ, N.pow_succ_r'.
      generalize (2 ^ N.of_nat i). unfold SECOND. lia. }
    revert d. induction rounds as [|c rounds IH]; intros d.
    + cbn [length drop app sleeps reconnect seq fmap list_fmap]. f_equal. by rewrite <- Hfail.
    + cbn [length app sleeps reconnect drop]. apply IH.
Qed.
