(* ===== verification/Traffic.v ===== *)
(** * Traffic through the QUIC relay

    Both ends of [Relay] composed: what the fragments of numbered messages,
    interleaved and reordered by the network, become at the other end.  There is
    no code of its own here. *)
From S2P Require Import Prelude Carrier Relay.

(** ** What a run takes and gives *)
Definition incoming (evs : list RelayServer.event) : list (N * bytes) :=
  omap (fun ev => match ev with RelayServer.FromConnection now f => Some (now, f) | _ => None end) evs.
Definition fragments (evs : list RelayServer.event) : list (N * bytes) :=
  filter (fun '(_, f) => f <> CARRIER_PING) (incoming evs).
Definition to_socket (outs : list RelayServer.output) : list bytes :=
  omap (fun o => match o with RelayServer.ToSocket p => Some p | _ => None end) outs.

Lemma to_socket_connection l : to_socket (RelayServer.ToConnection <$> l) = [].
Proof. unfold to_socket. by induction l. Qed.

(** A datagram [send_carrier] can send, and events that are no local failure. *)
Definition sendable (maximum : option nat) (payload : bytes) : Prop :=
  exists n, maximum = Some n /\ (CARRIER_HEADER < n)%nat /\
    (length (carrier_pieces (n - CARRIER_HEADER) payload) <= MAX_CARRIER_FRAGMENTS)%nat.
Definition RelayServer_sound (ev : RelayServer.event) : Prop :=
  match ev with
  | RelayServer.FromSocket maximum p accepted => accepted = None /\ sendable maximum (take MAX_DATAGRAM p)
  | RelayServer.Fails _ => False
  | _ => True
  end.

(** ** Numbered messages

    Message [k] (from 1, the counter's first value) was cut into the pieces
    [msgs !! (k - 1)]. *)
Section traffic.
Context (msgs : list (list bytes)).

Definition message_of (m : N) : option (list bytes) := if m =? 0 then None else msgs !! N.to_nat (m - 1).
Definition message_ok (ps : list bytes) : Prop :=
  (0 < length ps <= MAX_CARRIER_FRAGMENTS)%nat /\ (length (concat ps) <= MAX_DATAGRAM)%nat.

(** Fragment [i] of message [m]. *)
Definition is_fragment (f : bytes) (k : N * nat) : Prop :=
  exists ps c, message_of (fst k) = Some ps /\ ps !! snd k = Some c /\ f = carrier_frame (fst k) (snd k) (length ps) c.

Hypothesis Hmsgs : Forall message_ok msgs.
Hypothesis Hcount : N.of_nat (length msgs) < U64.

Lemma message_of_spec m ps :
  message_of m = Some ps -> 0 < m <= N.of_nat (length msgs) /\ m < U64 /\ message_ok ps.
Proof.
  unfold message_of. destruct (N.eqb_spec m 0); [done|]. intros H.
  pose proof (lookup_lt_Some _ _ _ H). pose proof (Forall_lookup_1 _ _ _ _ Hmsgs H). split; [lia|]. split; [lia|done].
Qed.

Lemma message_keys m ps : message_of m = Some ps -> m ∈ (N.of_nat <$> seq 1 (length msgs)).
Proof.
  intros H. apply message_of_spec in H as (H & _). apply list_elem_of_fmap. exists (N.to_nat m).
  rewrite elem_of_seq. lia.
Qed.

(** *** What a table may hold, whatever was lost or repeated *)
Definition faithful (groups : CarrierReassembly.t) : Prop :=
  map_Forall (fun m g => exists ps, message_of m = Some ps /\
    length (CarrierReassembly.parts g) = length ps /\
    forall i p, CarrierReassembly.parts g !! i = Some (Some p) -> ps !! i = Some p) groups.

Lemma faithful_whole (parts : list (option bytes)) ps :
  length parts = length ps -> (forall i p, parts !! i = Some (Some p) -> ps !! i = Some p) ->
  existsb CarrierReassembly.is_none parts = false -> omap id parts = ps.
Proof.
  revert ps. induction parts as [|[p|] parts IH]; intros [|q ps] Hl Hp Hx; try done.
  cbn in *. pose proof (Hp 0%nat p eq_refl) as [= ->]. f_equal.
  apply IH; [lia| |done]. intros i. exact (Hp (S i)).
Qed.

Lemma push_faithful now f k groups :
  is_fragment f k -> faithful groups ->
  faithful (snd (CarrierReassembly.push now f groups)) /\
  let r := fst (CarrierReassembly.push now f groups) in
  r = Ok None \/ r = Err "QUIC carrier reassembly limit reached"%string \/
  exists ps, message_of (fst k) = Some ps /\ r = Ok (Some (concat ps)).
Proof.
  intros (ps & c & Hps & Hc & ->) HF. destruct k as [m i]. cbn [fst snd] in *.
  destruct (message_of_spec m ps Hps) as (_ & Hm & [Hn Hlen]).
  rewrite (push_fragment m ps Hm ltac:(lia)) by (by apply lookup_lt_Some in Hc).
  set (live := filter _ groups). set (g := default _ _).
  assert (faithful live) as Hlive
    by (intros m' g' [Hg' _]%map_lookup_filter_Some; exact (HF m' g' Hg')).
  assert (length (CarrierReassembly.parts g) = length ps /\
    forall i p, CarrierReassembly.parts g !! i = Some (Some p) -> ps !! i = Some p) as [Hgl Hgp].
  { unfold g. destruct (live !! m) as [g0|] eqn:Hg0; cbn.
    - destruct (Hlive m g0 Hg0) as (ps0 & Hps0 & H). rewrite Hps in Hps0. by injection Hps0 as <-.
    - rewrite length_replicate. split; [done|]. by intros j p [[=] _]%lookup_replicate. }
  destruct (bool_decide _ && _); [split; [done|tauto]|].
  rewrite Hgl, Nat.eqb_refl. cbn [negb].
  set (parts' := match _ with Some (Some _) => _ | _ => _ end).
  assert (length parts' = length ps /\ forall i p, parts' !! i = Some (Some p) -> ps !! i = Some p) as [Hl' Hp'].
  { unfold parts'. destruct (CarrierReassembly.parts g !! i) as [[old|]|]; [done|..];
      (rewrite length_insert; split; [done|]); intros j p [(<- & [= <-] & _)|[_ Hj]]%list_lookup_insert_Some;
      eauto. }
  destruct (existsb _ parts') eqn:Hx.
  - split; [|by left]. apply map_Forall_insert_2; [|done]. by exists ps.
  - rewrite (faithful_whole _ _ Hl' Hp' Hx).
    rewrite (proj2 (Nat.ltb_ge _ _)) by done. split; [by apply map_Forall_delete|].
    right. right. by exists ps.
Qed.

(** *** What it holds when nothing is lost, repeated or late *)
Context (T : N).

(** The positions of message [m] among the fragments [arrived]. *)
Definition got (arrived : list (N * nat)) (m : N) : gset nat :=
  list_to_set (omap (fun k => if decide (fst k = m) then Some (snd k) else None) arrived).

Lemma elem_of_got arrived m i : i ∈ got arrived m <-> (m, i) ∈ arrived.
Proof.
  unfold got. rewrite elem_of_list_to_set, list_elem_of_omap. split.
  - intros ([m' i'] & Hin & H). cbn in H. destruct (decide (m' = m)) as [->|]; [|done]. by injection H as ->.
  - intros Hin. exists (m, i). cbn. by rewrite decide_True.
Qed.

Lemma got_cons arrived m i : got ((m, i) :: arrived) m = {[i]} ∪ got arrived m.
Proof. apply set_eq. intros j. rewrite elem_of_union, elem_of_singleton, !elem_of_got, elem_of_cons. naive_solver. Qed.

Lemma got_cons_ne arrived m m' i : m' <> m -> got ((m, i) :: arrived) m' = got arrived m'.
Proof. intros Hne. apply set_eq. intros j. rewrite !elem_of_got, elem_of_cons. naive_solver. Qed.

Definition whole (arrived : list (N * nat)) (m : N) : Prop :=
  exists ps, message_of m = Some ps /\ whole_message ps (got arrived m).

Definition exact (arrived : list (N * nat)) (groups : CarrierReassembly.t) : Prop :=
  forall m, match groups !! m with
  | Some g => exists ps, message_of m = Some ps /\ ~ whole_message ps (got arrived m) /\
      T <= CarrierReassembly.created g /\ CarrierReassembly.parts g = present ps (got arrived m)
  | None => got arrived m = ∅ \/ whole arrived m
  end.

Lemma exact_nil : exact [] ∅.
Proof. intros m. rewrite lookup_empty. by left. Qed.

Lemma exact_size arrived groups m ps :
  exact arrived groups -> (length msgs <= MAX_CARRIER_GROUPS)%nat -> message_of m = Some ps ->
  groups !! m = None -> (size groups < MAX_CARRIER_GROUPS)%nat.
Proof.
  intros He Hmax Hps Hm. rewrite <- size_dom.
  assert (dom groups ⊆ list_to_set (N.of_nat <$> seq 1 (length msgs)) ∖ {[m]}) as Hsub.
  { intros m' Hm'. apply elem_of_dom in Hm' as [g Hg]. pose proof (He m') as H. rewrite Hg in H.
    destruct H as (ps' & Hps' & _). apply elem_of_difference. split.
    - apply elem_of_list_to_set. by eapply message_keys.
    - intros ->%elem_of_singleton. congruence. }
  pose proof (message_keys m ps Hps) as Hk.
  apply subseteq_size in Hsub. rewrite size_difference in Hsub by set_solver. rewrite size_singleton in Hsub.
  rewrite size_list_to_set in Hsub; [|apply NoDup_fmap_2; [exact Nat2N.inj|apply NoDup_seq]].
  destruct (message_of_spec m ps Hps) as (Hlt & _).
  rewrite length_fmap, length_seq in Hsub. lia.
Qed.

(** Within three seconds of [T], a new fragment completes its message or waits
    for the rest; the other messages are as they were. *)
Lemma push_exact arrived now f m i ps groups :
  exact arrived groups -> (length msgs <= MAX_CARRIER_GROUPS)%nat -> T <= now <= T + CARRIER_TTL ->
  is_fragment f (m, i) -> (m, i) ∉ arrived -> message_of m = Some ps ->
  exists groups', CarrierReassembly.push now f groups =
    (Ok (if decide (whole_message ps (got ((m, i) :: arrived) m)) then Some (concat ps) else None), groups') /\
    exact ((m, i) :: arrived) groups' /\ ~ whole arrived m.
Proof.
  intros He Hmax Hnow (ps' & c & Hps' & Hc & ->) Hnew Hps. cbn [fst snd] in *.
  rewrite Hps in Hps'. injection Hps' as <-.
  destruct (message_of_spec m ps Hps) as (_ & Hm & [Hn Hlen]).
  assert (~ whole_message ps (got arrived m)) as Hopen.
  { intros Hw. unfold whole_message in Hw. rewrite Forall_forall in Hw. apply Hnew, elem_of_got, Hw, elem_of_seq.
    apply lookup_lt_Some in Hc. lia. }
  assert (~ whole arrived m) as Hopen'.
  { intros (ps0 & Hps0 & Hw). rewrite Hps in Hps0. by injection Hps0 as <-. }
  assert (entry_ok m T ps (got arrived m) groups) as Hentry.
  { unfold entry_ok. pose proof (He m) as H. destruct (groups !! m) as [g|] eqn:Hg.
    - destruct H as (ps0 & Hps0 & _ & Hcr & Hparts). rewrite Hps in Hps0. injection Hps0 as <-. done.
    - destruct H as [Hgot|]; [|done]. split; [done|]. by eapply exact_size. }
  destruct (push_frame m T ps Hm ltac:(lia) _ now i c groups Hentry Hnow Hc Hopen) as (groups' & Hpush & Hme & Hothers).
  exists groups'. rewrite Hpush, got_cons. split; [|split; [|done]].
  { rewrite (proj2 (Nat.ltb_ge _ _)) by done. by destruct (decide _). }
  intros m'. destruct (decide (m' = m)) as [->|Hne].
  - rewrite got_cons. destruct (decide (whole_message ps ({[i]} ∪ got arrived m))) as [Hw|Hw].
    + rewrite Hme. right. exists ps. by rewrite got_cons.
    + destruct Hme as [Hme Hsome]. unfold entry_ok in Hme.
      destruct (groups' !! m) as [g'|]; [|done]. exists ps. tauto.
  - rewrite Hothers by done. rewrite got_cons_ne by done. pose proof (He m') as H.
    destruct (filter _ groups !! m') as [g'|] eqn:Hg'.
    + apply map_lookup_filter_Some in Hg' as [Hg' _]. by rewrite Hg' in H.
    + destruct (groups !! m') as [g'|] eqn:Hm'.
      * exfalso. destruct H as (_ & _ & _ & Hcr & _). apply map_lookup_filter_None in Hg' as [|Hg']; [congruence|].
        apply (Hg' g' Hm'). unfold CARRIER_TTL in *. lia.
      * destruct H as [?|(ps0 & Hps0 & Hw)]; [by left|]. right. exists ps0. by rewrite got_cons_ne.
Qed.

Lemma whole_cons arrived k m : whole arrived m -> whole (k :: arrived) m.
Proof.
  intros (ps & Hps & Hw). exists ps. split; [done|]. unfold whole_message in *.
  eapply Forall_impl; [exact Hw|]. intros i Hi%elem_of_got. apply elem_of_got, elem_of_cons. by right.
Qed.

Lemma whole_app l arrived m : whole arrived m -> whole (l ++ arrived) m.
Proof. induction l; [done|]. intros. cbn. by apply whole_cons, IHl. Qed.

Lemma whole_reverse l m : whole (reverse l) m <-> whole l m.
Proof.
  unfold whole. assert (got (reverse l) m = got l m) as ->; [|done].
  apply set_eq. intros i. by rewrite !elem_of_got, elem_of_reverse.
Qed.

Lemma whole_message_of arrived m ps : message_of m = Some ps -> whole arrived m <-> whole_message ps (got arrived m).
Proof. intros Hps. split; [|by exists ps]. intros (ps0 & Hps0 & Hw). congruence. Qed.

Lemma whole_cons_ne arrived m m' i : m' <> m -> whole ((m, i) :: arrived) m' <-> whole arrived m'.
Proof. intros Hne. unfold whole. by setoid_rewrite (got_cons_ne arrived m m' i Hne). Qed.

(** *** The server's loop *)
Definition payload_of (m : N) : bytes := concat (default [] (message_of m)).

(** An event that brings no fragment leaves the reassembly alone. *)
Lemma server_step_other ev s :
  RelayServer_sound ev -> fragments [ev] = [] ->
  exists out s1, RelayServer.step ev s = (out, Ok s1) /\ RelayServer.received s1 = RelayServer.received s /\ to_socket out = [].
Proof.
  intros Hev Hfr. destruct ev as [now f|maximum p acc|stats|e]; cbn [RelayServer.step].
  - destruct (decide (f = CARRIER_PING)) as [->|Hping].
    + unfold on_datagram. rewrite bool_decide_true by done. by eexists _, _.
    + unfold fragments, incoming in Hfr. cbn [omap list_omap] in Hfr. by rewrite filter_cons_True in Hfr.
  - destruct Hev as (-> & n & -> & Hn & Hp). rewrite send_carrier_spec by done.
    eexists _, _. split; [reflexivity|]. split; [done|apply to_socket_connection].
  - by eexists _, _.
  - done.
Qed.

(** A fragment not seen before. *)
Lemma server_step_fragment arrived now f m i ps s :
  exact arrived (RelayServer.received s) -> (length msgs <= MAX_CARRIER_GROUPS)%nat -> T <= now <= T + CARRIER_TTL ->
  is_fragment f (m, i) -> (m, i) ∉ arrived -> message_of m = Some ps -> f <> CARRIER_PING ->
  exists s1, RelayServer.step (RelayServer.FromConnection now f) s =
      (option_list (RelayServer.ToSocket <$> (if decide (whole_message ps (got ((m, i) :: arrived) m))
        then Some (concat ps) else None)), Ok s1) /\
    exact ((m, i) :: arrived) (RelayServer.received s1) /\ ~ whole arrived m.
Proof.
  intros He Hmax Hnow Hfrag Hnew Hps Hping.
  destruct (push_exact arrived now f m i ps (RelayServer.received s) He Hmax Hnow Hfrag Hnew Hps) as (g & Hpush & He' & Hopen).
  exists (RelayServer.mk g (RelayServer.message s) (RelayServer.previous_stats s)). split; [|done].
  cbn [RelayServer.step]. unfold on_datagram. rewrite bool_decide_false by done. unfold_method. by rewrite Hpush.
Qed.

(** Which messages become complete from [arrived] on, when [(m, i)] comes first. *)
Lemma completed_cons (ms : list N) arrived later m i ps :
  message_of m = Some ps -> ~ whole arrived m -> NoDup ms ->
  (forall m', m' ∈ ms <-> whole (later ++ (m, i) :: arrived) m' /\ ~ whole ((m, i) :: arrived) m') ->
  let ms' := (if decide (whole_message ps (got ((m, i) :: arrived) m)) then [m] else []) ++ ms in
  NoDup ms' /\ forall m', m' ∈ ms' <-> whole (later ++ (m, i) :: arrived) m' /\ ~ whole arrived m'.
Proof.
  intros Hps Hopen Hnd Hms ms'. pose proof (whole_message_of ((m, i) :: arrived) m ps Hps) as Hiff.
  assert (forall m', m' <> m -> (whole arrived m' <-> whole ((m, i) :: arrived) m')) as Hne
    by (intros; by rewrite whole_cons_ne).
  unfold ms'. clear ms'. destruct (decide (whole_message ps (got ((m, i) :: arrived) m))) as [Hw|Hw]; cbn [app].
  - split; [apply NoDup_cons; split; [rewrite Hms; tauto|done]|].
    intros m'. rewrite elem_of_cons, Hms. destruct (decide (m' = m)) as [->|Hm'].
    + split; [intros _|by left]. split; [|done]. apply whole_app. tauto.
    + rewrite (Hne m' Hm'). tauto.
  - split; [done|]. intros m'. rewrite Hms. destruct (decide (m' = m)) as [->|Hm'].
    + tauto.
    + by rewrite (Hne m' Hm').
Qed.

Lemma fragments_split ev evs : fragments (ev :: evs) = fragments [ev] ++ fragments evs.
Proof. unfold fragments, incoming. rewrite <- filter_app. by destruct ev. Qed.

Lemma fragments_single ev :
  fragments [ev] = [] \/ exists now f, ev = RelayServer.FromConnection now f /\ f <> CARRIER_PING /\ fragments [ev] = [(now, f)].
Proof.
  destruct ev as [now f|maximum p acc|stats|e]; [|by left..].
  destruct (decide (f = CARRIER_PING)) as [->|Hping]; [left|right; exists now, f]; unfold fragments, incoming; cbn [omap list_omap].
  - by rewrite filter_cons_False by tauto.
  - by rewrite filter_cons_True.
Qed.

Lemma run_server_exact evs : forall s arrived ks,
  exact arrived (RelayServer.received s) -> (length msgs <= MAX_CARRIER_GROUPS)%nat ->
  Forall RelayServer_sound evs -> NoDup (ks ++ arrived) ->
  Forall2 (fun '(now, f) k => T <= now <= T + CARRIER_TTL /\ is_fragment f k) (fragments evs) ks ->
  exists outs s' ms, run RelayServer.step evs s = (outs, Ok s') /\
    exact (reverse ks ++ arrived) (RelayServer.received s') /\ to_socket outs = payload_of <$> ms /\ NoDup ms /\
    forall m, m ∈ ms <-> whole (reverse ks ++ arrived) m /\ ~ whole arrived m.
Proof.
  induction evs as [|ev evs IH]; intros s arrived ks He Hmax Hsound Hnd HF.
  { inversion HF; subst. exists [], s, []. cbn. split_and!; [done|done|done|constructor|].
    intros m. rewrite elem_of_nil. tauto. }
  apply Forall_cons in Hsound as [Hev Hsound]. rewrite fragments_split in HF. cbn [run].
  destruct (fragments_single ev) as [Hfr|(now & f & -> & Hping & Hfr)]; rewrite Hfr in HF; cbn [app] in HF.
  - destruct (server_step_other ev s Hev Hfr) as (out & s1 & Hstep & Hr & Hout). rewrite <- Hr in He.
    destruct (IH s1 arrived ks He Hmax Hsound Hnd HF) as (outs & s' & ms & Hrun & Hrest & Hto & Hms).
    exists (out ++ outs), s', ms. rewrite Hstep, Hrun. split; [done|]. split; [done|].
    split; [|done]. unfold to_socket in *. by rewrite omap_app, Hout.
  - apply Forall2_cons_inv_l in HF as ([m i] & ks' & [Hnow Hfrag] & HF & ->).
    cbn [app] in Hnd. apply NoDup_cons in Hnd as [Hnew Hnd]. pose proof Hfrag as (ps & c & Hps & _). cbn [fst] in Hps.
    destruct (server_step_fragment arrived now f m i ps s He Hmax Hnow Hfrag ltac:(set_solver) Hps Hping) as (s1 & Hstep & He1 & Hopen).
    destruct (IH s1 ((m, i) :: arrived) ks' He1 Hmax Hsound) as (outs & s' & ms & Hrun & He2 & Hto & Hnd' & Hms); [|done|].
    { rewrite <- Permutation_middle. by apply NoDup_cons. }
    rewrite reverse_cons, <- app_assoc. cbn [app].
    destruct (completed_cons ms arrived (reverse ks') m i ps Hps Hopen Hnd' Hms) as [Hnd2 Hms2].
    rewrite Hstep, Hrun. eexists _, s', _. split; [reflexivity|]. split; [done|]. split; [|by split].
    unfold to_socket in *. rewrite omap_app, fmap_app, Hto. f_equal. unfold payload_of.
    destruct (decide _); cbn; by rewrite ?Hps.
Qed.
End traffic.

(** ** What an end hands to the connection *)

(** The fragments, and their names, of the messages numbered from [base + 1]. *)
Definition frames_of (m : N) (ps : list bytes) : list bytes := imap (fun i p => carrier_frame m i (length ps) p) ps.

Fixpoint frames_from (base : N) (msgs : list (list bytes)) : list bytes :=
  match msgs with [] => [] | ps :: msgs => frames_of (base + 1) ps ++ frames_from (base + 1) msgs end.

Fixpoint names_from (base : N) (msgs : list (list bytes)) : list (N * nat) :=
  match msgs with
  | [] => []
  | ps :: msgs => ((fun i => (base + 1, i)) <$> seq 0 (length ps)) ++ names_from (base + 1) msgs
  end.

Lemma frames_from_app base l1 l2 :
  frames_from base (l1 ++ l2) = frames_from base l1 ++ frames_from (base + N.of_nat (length l1)) l2.
Proof.
  revert base. induction l1 as [|ps l1 IH]; intros base; cbn; [by rewrite N.add_0_r|].
  rewrite IH, app_assoc. do 2 f_equal. lia.
Qed.

(** [send_carrier] either fails or numbers the pieces of its datagram. *)
Lemma send_carrier_cases maximum payload m :
  m + 1 < U64 -> (length payload <= MAX_DATAGRAM)%nat ->
  (exists ps, send_carrier maximum payload m = (Ok (frames_of (m + 1) ps), m + 1) /\ concat ps = payload /\ message_ok ps) \/
  exists e m', send_carrier maximum payload m = (Err e, m').
Proof.
  intros Hm Hp. destruct (send_carrier maximum payload m) as [[frames|e|] m'] eqn:Hs.
  - left. destruct maximum as [maximum|]; [|by unfold send_carrier in Hs].
    apply send_carrier_inv in Hs as (Hmax & Hn & -> & ->). unfold next_message. rewrite as_u64_small by done.
    assert (0 < maximum - CARRIER_HEADER)%nat as Hc by lia.
    eexists. split; [reflexivity|]. rewrite carrier_pieces_concat by done. split; [done|].
    split; [|by rewrite carrier_pieces_concat]. split; [|done].
    rewrite length_carrier_pieces by done. unfold div_ceil.
    destruct (length payload `max` 1)%nat as [|q] eqn:Hq; [lia|].
    destruct (Nat.eqb_spec (S q mod (maximum - CARRIER_HEADER)) 0) as [Hz|]; [|lia].
    apply Nat.Div0.mod_divides in Hz as [c Hz]. rewrite Hz, Nat.mul_comm, Nat.div_mul by lia. destruct c; lia.
  - right. by do 2 eexists.
  - exfalso. unfold send_carrier in Hs. revert Hs. unfold_method. destruct maximum; cbn [context]; [|done].
    repeat (destruct (_ <=? _)%nat || destruct (_ <? _)%nat); done.
Qed.

Section client.
Context {Addr : Type}.
Definition arrived (evs : list (RelayClient.event Addr)) : list (Addr * bytes) :=
  omap (fun ev => match ev with RelayClient.Arrives from p => Some (from, p) | _ => None end) evs.

Definition handed (outs : list (RelayClient.output Addr)) : list bytes :=
  omap (fun o => match o with
    | RelayClient.ToConnection f => if decide (f = CARRIER_PING) then None else Some f | _ => None end) outs.

Lemma handed_cons f outs :
  f <> CARRIER_PING -> handed (RelayClient.ToConnection f :: outs) = f :: handed outs.
Proof. intros Hf. unfold handed. cbn [omap list_omap]. by rewrite decide_False. Qed.

Definition payloads (l : list (Addr * bytes)) : list bytes := (fun x => take MAX_DATAGRAM (snd x)) <$> l.

Lemma fragment_not_ping m i n p : (n <= MAX_CARRIER_FRAGMENTS)%nat -> carrier_frame m i n p <> CARRIER_PING.
Proof. intros Hn. by apply carrier_frame_not_control. Qed.

Definition joined (msgs : list (list bytes)) : list bytes := (fun ps => concat ps) <$> msgs.

(** Everything a run of the client hands over is, in order, what was pending and
    the fragments of the datagrams it read. *)
Definition hands_on (s : RelayClient.t Addr) (evs : list (RelayClient.event Addr))
    (x : list (RelayClient.output Addr) * result (RelayClient.t Addr)) : Prop :=
  exists msgs rest left,
    handed (fst x) ++ rest = RelayClient.pending s ++ frames_from (RelayClient.message s) msgs /\
    joined msgs ++ left = payloads (RelayClient.backlog s ++ arrived evs) /\ Forall message_ok msgs /\
    forall s', snd x = Ok s' -> rest = RelayClient.pending s' /\ left = payloads (RelayClient.backlog s').

Lemma hands_on_end s ev evs out r :
  RelayClient.step ev s = (out, r) -> is_ok r = false -> handed out = [] ->
  hands_on s (ev :: evs) (run RelayClient.step (ev :: evs) s).
Proof.
  intros Hstep Hr Hout. exists [], (RelayClient.pending s), (payloads (RelayClient.backlog s ++ arrived (ev :: evs))).
  cbn [run]. rewrite Hstep. destruct r; [discriminate Hr|..]; cbn [fst snd]; rewrite Hout, app_nil_r; by split_and!.
Qed.

(** An event that touches neither the backlog nor the pending fragments. *)
Lemma hands_on_skip s ev evs out s1 :
  RelayClient.step ev s = (out, Ok s1) -> handed out = [] ->
  RelayClient.message s1 = RelayClient.message s -> RelayClient.pending s1 = RelayClient.pending s ->
  RelayClient.backlog s1 ++ arrived evs = RelayClient.backlog s ++ arrived (ev :: evs) ->
  hands_on s1 evs (run RelayClient.step evs s1) -> hands_on s (ev :: evs) (run RelayClient.step (ev :: evs) s).
Proof.
  intros Hstep Hout Hms Hpe Hbl. cbn [run]. rewrite Hstep. destruct (run _ evs s1) as [outs r].
  intros (msgs & rest & left & H1 & H2 & H3). exists msgs, rest, left. rewrite <- Hbl, <- Hms, <- Hpe.
  cbn [fst snd] in *. unfold handed in *. by rewrite omap_app, Hout.
Qed.

Lemma frames_not_ping m ps : message_ok ps -> Forall (fun f => f <> CARRIER_PING) (frames_of m ps).
Proof.
  intros [[_ Hn] _]. apply Forall_lookup. intros i f Hf. apply list_lookup_imap_Some in Hf as (p & _ & ->).
  by apply fragment_not_ping.
Qed.

(** Receiving does not concern the sending half. *)
Lemma on_incoming_frame now now' f s :
  let '(out, r) := RelayClient.on_incoming now now' f s in
  handed out = [] /\
  match r with
  | Ok s1 => RelayClient.message s1 = RelayClient.message s /\ RelayClient.pending s1 = RelayClient.pending s /\
      RelayClient.backlog s1 = RelayClient.backlog s
  | _ => True
  end.
Proof.
  unfold RelayClient.on_incoming. case_bool_decide; [done|].
  destruct (CarrierReassembly.push now' f _) as [[[p|]|e|] g]; [by destruct (RelayClient.peer s)..|done|done].
Qed.

(** The sending half reads a datagram; it hands over a fragment. *)
Lemma hands_on_read s evs maximum from p bl ps :
  RelayClient.pending s = [] -> RelayClient.backlog s = (from, p) :: bl ->
  send_carrier maximum (take MAX_DATAGRAM p) (RelayClient.message s) =
    (Ok (frames_of (RelayClient.message s + 1) ps), RelayClient.message s + 1) ->
  concat ps = take MAX_DATAGRAM p -> message_ok ps ->
  let s1 := RelayClient.mk (RelayClient.received s) (RelayClient.message s + 1) (RelayClient.previous_stats s) (Some from) bl
    (frames_of (RelayClient.message s + 1) ps) (RelayClient.last_server_activity s) in
  hands_on s1 evs (run RelayClient.step evs s1) ->
  hands_on s (RelayClient.Reads maximum :: evs) (run RelayClient.step (RelayClient.Reads maximum :: evs) s).
Proof.
  intros Hpe Hbl Hs Hps Hok s1 (msgs & rest & left & H1 & H2 & H3 & H4). unfold hands_on. cbn [run RelayClient.step].
  unfold RelayClient.read. rewrite Hpe, Hbl, Hs. cbn [mbind outcome_bind]. fold s1.
  destruct (run _ evs s1) as [outs r]. exists (ps :: msgs), rest, left. cbn [fst snd app] in *. split_and!.
  - exact H1.
  - unfold joined in *. cbn. by rewrite Hps, H2.
  - by constructor.
  - exact H4.
Qed.

Lemma hands_on_hand s evs f pe :
  RelayClient.pending s = f :: pe -> f <> CARRIER_PING ->
  let s1 := RelayClient.mk (RelayClient.received s) (RelayClient.message s) (RelayClient.previous_stats s) (RelayClient.peer s)
    (RelayClient.backlog s) pe (RelayClient.last_server_activity s) in
  hands_on s1 evs (run RelayClient.step evs s1) ->
  hands_on s (RelayClient.Hands :: evs) (run RelayClient.step (RelayClient.Hands :: evs) s).
Proof.
  intros Hpe Hf s1 (msgs & rest & left & H1 & H2 & H3). unfold hands_on. cbn [run RelayClient.step].
  unfold RelayClient.hand_on. rewrite Hpe. cbv beta iota. fold s1. destruct (run _ evs s1) as [outs r].
  exists msgs, rest, left. cbn [fst snd] in *. split; [|done].
  cbn [app]. rewrite handed_cons by done. cbn [app]. by rewrite H1.
Qed.

Lemma run_client_handed evs : forall (s : RelayClient.t Addr),
  RelayClient.message s + N.of_nat (length (RelayClient.backlog s) + length (arrived evs)) < U64 ->
  Forall (fun f => f <> CARRIER_PING) (RelayClient.pending s) ->
  hands_on s evs (run RelayClient.step evs s).
Proof.
  induction evs as [|ev evs IH]; intros s Hm Hping.
  { exists [], (RelayClient.pending s), (payloads (RelayClient.backlog s)). cbn. rewrite !app_nil_r.
    split_and!; [done|done|constructor|]. by intros s' [= <-]. }
  destruct ev as [from p|maximum| |now|now now' f|stats|e].
  - eapply hands_on_skip; [reflexivity|done..|by cbn; rewrite <- app_assoc|]. apply IH; [|done].
    change (arrived (RelayClient.Arrives from p :: evs)) with ((from, p) :: arrived evs) in Hm.
    cbn [RelayClient.backlog RelayClient.message length] in *. rewrite length_app. cbn [length]. lia.
  - destruct (RelayClient.pending s) as [|f0 pe] eqn:Hpe.
    2: { eapply hands_on_skip; [cbn; unfold RelayClient.read; rewrite Hpe; reflexivity|done..|].
      apply IH; [done|]. by rewrite Hpe. }
    destruct (RelayClient.backlog s) as [|[from p] bl] eqn:Hbl.
    { eapply hands_on_skip; [cbn; unfold RelayClient.read; rewrite Hpe, Hbl; reflexivity|done..|].
      apply IH; [by rewrite Hbl|by rewrite Hpe]. }
    cbn [length] in Hm.
    destruct (send_carrier_cases maximum (take MAX_DATAGRAM p) (RelayClient.message s)) as [(ps & Hs & Hps & Hok)|(e & m' & Hs)].
    + lia.
    + rewrite length_take. lia.
    + eapply hands_on_read; [exact Hpe|exact Hbl|exact Hs|done..|]. apply IH; [|by apply frames_not_ping].
      unfold arrived in Hm |- *. cbn in Hm |- *. lia.
    + eapply hands_on_end; [cbn; unfold RelayClient.read; rewrite Hpe, Hbl, Hs; reflexivity|done..].
  - destruct (RelayClient.pending s) as [|f pe] eqn:Hpe.
    { eapply hands_on_skip; [cbn; unfold RelayClient.hand_on; rewrite Hpe; reflexivity|done..|].
      apply IH; [done|]. by rewrite Hpe. }
    apply Forall_cons in Hping as [Hf Hping]. eapply hands_on_hand; [exact Hpe|done|]. by apply IH.
  - destruct (CARRIER_DEAD_TIMEOUT <? now - RelayClient.last_server_activity s) eqn:Hto.
    + eapply hands_on_end; [cbn; rewrite Hto; reflexivity|done..].
    + eapply hands_on_skip; [cbn; rewrite Hto; reflexivity| |done..|by apply IH].
      unfold handed. cbn. by rewrite decide_True.
  - cbn [RelayClient.step]. destruct (RelayClient.on_incoming now now' f s) as [out r] eqn:Hin.
    pose proof (on_incoming_frame now now' f s) as Hf. rewrite Hin in Hf. destruct Hf as [Hout Hf].
    destruct r as [s1| |]; [|by eapply hands_on_end..]. destruct Hf as (H1 & H2 & H3).
    eapply hands_on_skip; [exact Hin|done..|by rewrite H3|]. apply IH; [by rewrite H1, H3|by rewrite H2].
  - eapply hands_on_skip; [reflexivity|done..|]. by apply IH.
  - by eapply hands_on_end.
Qed.
End client.

(** ** Both ends *)
Definition frame_at (msgs : list (list bytes)) (k : N * nat) : bytes :=
  let ps := default [] (message_of msgs (fst k)) in
  carrier_frame (fst k) (snd k) (length ps) (default [] (ps !! snd k)).

Lemma message_of_app l1 ps l2 : message_of (l1 ++ ps :: l2) (N.of_nat (length l1) + 1) = Some ps.
Proof.
  unfold message_of. rewrite (proj2 (N.eqb_neq _ _)) by lia.
  replace (N.to_nat (N.of_nat (length l1) + 1 - 1)) with (length l1) by lia. by apply list_lookup_middle.
Qed.

Lemma names_from_spec l1 l2 k :
  k ∈ names_from (N.of_nat (length l1)) l2 <->
  N.of_nat (length l1) < fst k /\ exists ps, message_of (l1 ++ l2) (fst k) = Some ps /\ (snd k < length ps)%nat.
Proof.
  revert l1. induction l2 as [|ps l2 IH]; intros l1; cbn [names_from].
  - rewrite elem_of_nil, app_nil_r. split; [done|]. intros (Hlt & ps & Hps & _). unfold message_of in Hps.
    destruct (N.eqb_spec (fst k) 0); [done|]. apply lookup_lt_Some in Hps. lia.
  - specialize (IH (l1 ++ [ps])). rewrite length_app in IH. cbn [length] in IH.
    replace (N.of_nat (length l1 + 1)) with (N.of_nat (length l1) + 1) in IH by lia.
    rewrite <- app_assoc in IH. cbn [app] in IH. rewrite elem_of_app, IH, list_elem_of_fmap. clear IH.
    destruct k as [m i]. cbn [fst snd]. split.
    + intros [(j & [= -> ->] & Hj%elem_of_seq)|(Hlt & H)]; [|split; [lia|done]].
      split; [lia|]. exists ps. split; [apply message_of_app|lia].
    + intros (Hlt & ps' & Hps' & Hi). destruct (decide (m = N.of_nat (length l1) + 1)) as [->|Hne].
      * left. rewrite message_of_app in Hps'. injection Hps' as <-. exists i. split; [done|]. apply elem_of_seq. lia.
      * right. split; [lia|by exists ps'].
Qed.

Lemma names_from_NoDup base l : NoDup (names_from base l).
Proof.
  revert base. induction l as [|ps l IH]; intros base; cbn; [constructor|]. apply NoDup_app. split_and!.
  - apply NoDup_fmap_2; [by intros i j [=]|apply NoDup_seq].
  - intros k (i & -> & _)%list_elem_of_fmap. clear IH. intros Hin.
    assert (forall b l, (base + 1, i) ∈ names_from b l -> b < base + 1) as Hlt.
    { clear. intros b l. revert b. induction l as [|ps l IH]; intros b; cbn; [by intros ?%elem_of_nil|].
      rewrite elem_of_app, list_elem_of_fmap. intros [(j & [= ?] & _)|H]; [lia|]. specialize (IH _ H). lia. }
    specialize (Hlt _ _ Hin). lia.
  - apply IH.
Qed.

Lemma frames_from_names l1 l2 :
  frames_from (N.of_nat (length l1)) l2 = frame_at (l1 ++ l2) <$> names_from (N.of_nat (length l1)) l2.
Proof.
  revert l1. induction l2 as [|ps l2 IH]; intros l1; cbn [frames_from names_from]; [done|].
  rewrite fmap_app. specialize (IH (l1 ++ [ps])). rewrite length_app, <- app_assoc in IH. cbn [length app] in IH.
  replace (N.of_nat (length l1 + 1)) with (N.of_nat (length l1) + 1) in IH by lia. rewrite IH. f_equal.
  rewrite <- list_fmap_compose. unfold frames_of, frame_at. cbn [compose fst snd].
  apply list_eq. intros i. rewrite list_lookup_imap, list_lookup_fmap.
  destruct (ps !! i) as [p|] eqn:Hp.
  - rewrite lookup_seq_lt by (by eapply lookup_lt_Some). cbn. rewrite message_of_app. cbn. by rewrite Hp.
  - rewrite lookup_seq_ge by (by apply lookup_ge_None). done.
Qed.

(** The names of fragments: exactly what [names_from 0] lists. *)
Lemma name_is_fragment msgs k : k ∈ names_from 0 msgs -> is_fragment msgs (frame_at msgs k) k.
Proof.
  intros Hk. apply (names_from_spec [] msgs) in Hk as (_ & ps & Hps & Hi). cbn [app] in Hps.
  destruct (lookup_lt_is_Some_2 ps (snd k) Hi) as [c Hc]. exists ps, c. split_and!; [done..|].
  unfold frame_at. rewrite Hps. cbn. by rewrite Hc.
Qed.

Lemma message_payloads msgs :
  (payload_of msgs <$> (N.of_nat <$> seq 1 (length msgs))) = joined msgs.
Proof.
  apply list_eq. intros i. unfold joined. rewrite <- list_fmap_compose, !list_lookup_fmap.
  destruct (msgs !! i) as [ps|] eqn:Hps.
  - rewrite lookup_seq_lt by (by eapply lookup_lt_Some). cbn. unfold payload_of, message_of.
    rewrite (proj2 (N.eqb_neq _ _)) by lia. replace (N.to_nat (N.of_nat (S i) - 1)) with i by lia. by rewrite Hps.
  - rewrite lookup_seq_ge by (by apply lookup_ge_None). done.
Qed.

Lemma MAX_CARRIER_GROUPS_small n : (n <= MAX_CARRIER_GROUPS)%nat -> N.of_nat n < U64.
Proof.
  intros Hn. assert (N.of_nat MAX_CARRIER_GROUPS < U64) by (by vm_compute). lia.
Qed.

(** Once every fragment has arrived, every message is complete and none is left
    in the table. *)
Section everything.
Context (msgs : list (list bytes)) (Hok : Forall message_ok msgs) (Hbound : N.of_nat (length msgs) < U64).
Context (ks : list (N * nat)) (Hin : forall k, k ∈ ks <-> k ∈ names_from 0 msgs).

Lemma all_arrived m ps : message_of msgs m = Some ps -> whole_message ps (got ks m).
Proof.
  intros Hps. apply Forall_forall. intros i Hi%elem_of_seq. apply elem_of_got, Hin, (names_from_spec [] msgs).
  split; [|exists ps; split; [done|cbn; lia]]. destruct (message_of_spec msgs Hok Hbound m ps Hps). cbn in *. lia.
Qed.

Lemma none_whole m : ~ whole msgs [] m.
Proof.
  intros (ps & Hps & Hw). destruct (message_of_spec msgs Hok Hbound _ ps Hps) as (_ & _ & [[Hpos _] _]).
  unfold whole_message in Hw. rewrite Forall_forall in Hw.
  assert (0%nat ∈ seq 0 (length ps)) as H0 by (apply elem_of_seq; lia).
  by apply Hw, elem_of_got, elem_of_nil in H0.
Qed.

Lemma completed_all (ms : list N) :
  NoDup ms -> (forall m, m ∈ ms <-> whole msgs ks m /\ ~ whole msgs [] m) ->
  ms ≡ₚ N.of_nat <$> seq 1 (length msgs).
Proof.
  intros Hnd Hms. apply NoDup_Permutation; [done|apply NoDup_fmap_2; [exact Nat2N.inj|apply NoDup_seq]|].
  intros m. rewrite Hms. split.
  - intros [(ps & Hps & _) _]. exact (message_keys msgs Hok Hbound m ps Hps).
  - intros (k & -> & Hk%elem_of_seq)%list_elem_of_fmap. split; [|apply none_whole].
    destruct (lookup_lt_is_Some_2 msgs (k - 1)) as [ps Hps]; [lia|].
    exists ps. assert (message_of msgs (N.of_nat k) = Some ps) as Hps'; [|split; [done|by apply all_arrived]].
    unfold message_of. rewrite (proj2 (N.eqb_neq _ _)) by lia.
    by replace (N.to_nat (N.of_nat k - 1)) with (k - 1)%nat by lia.
Qed.

Lemma exact_all_empty T groups : exact msgs T ks groups -> groups = ∅.
Proof.
  intros He. apply map_empty. intros m. pose proof (He m) as H. destruct (groups !! m); [|done].
  destruct H as (ps & Hps & Hopen & _). by destruct (Hopen (all_arrived m ps Hps)).
Qed.
End everything.

(** ** What arrives is what was sent, whatever the network does *)
Definition from_socket (evs : list RelayServer.event) : list bytes :=
  omap (fun ev => match ev with RelayServer.FromSocket _ p _ => Some (take MAX_DATAGRAM p) | _ => None end) evs.

Lemma hand_subset accepted frames sent r : hand accepted frames = (sent, r) -> sent ⊆ frames.
Proof.
  unfold hand. destruct accepted as [n|]; [destruct (n <? length frames)%nat|]; intros [= <- <-]; [|done..].
  intros f (i & Hi & _)%elem_of_take. by eapply list_elem_of_lookup_2.
Qed.

(** The server's fragments: those of some of the datagrams its socket received. *)
Definition server_hands (s : RelayServer.t) (sources : list bytes) (outs : list RelayServer.output) : Prop :=
  exists msgs, Forall message_ok msgs /\ joined msgs ⊆ sources /\ (length msgs <= length sources)%nat /\
    forall f, RelayServer.ToConnection f ∈ outs -> f = CARRIER_PONG \/ f ∈ frames_from (RelayServer.message s) msgs.

Lemma server_hands_pongs s sources outs :
  (forall f, RelayServer.ToConnection f ∈ outs -> f = CARRIER_PONG) -> server_hands s sources outs.
Proof.
  intros H. exists []. split_and!; [constructor|by intros p ?%elem_of_nil|cbn; lia|]. intros f Hf. left. by apply H.
Qed.

Lemma server_hands_app s1 s sources out outs :
  RelayServer.message s1 = RelayServer.message s -> (forall f, RelayServer.ToConnection f ∈ out -> f = CARRIER_PONG) ->
  server_hands s1 sources outs -> server_hands s sources (out ++ outs).
Proof.
  intros Hm Hout (msgs & H1 & H2 & H3 & H4). exists msgs. split_and!; [done..|]. rewrite <- Hm.
  intros f [Hf|Hf]%elem_of_app; [left; by apply Hout|by apply H4].
Qed.

Lemma on_datagram_replies now f groups reply payload g :
  on_datagram now f groups = (Ok (reply, payload), g) -> forall f',
  RelayServer.ToConnection f' ∈ option_list (RelayServer.ToConnection <$> reply) ++ option_list (RelayServer.ToSocket <$> payload) ->
  f' = CARRIER_PONG.
Proof.
  unfold on_datagram. case_bool_decide.
  - intros [= <- <- _] f'. cbn. rewrite list_elem_of_singleton. congruence.
  - unfold_method. destruct (CarrierReassembly.push now f groups) as [[o| |] g']; intros [= <- <- _] f'.
    destruct o; cbn; rewrite ?list_elem_of_singleton; [congruence|by intros ?%elem_of_nil].
Qed.

Lemma run_server_handed evs : forall s,
  RelayServer.message s + N.of_nat (length (from_socket evs)) < U64 ->
  server_hands s (from_socket evs) (fst (run RelayServer.step evs s)).
Proof.
  induction evs as [|ev evs IH]; intros s Hm.
  { apply server_hands_pongs. by intros f ?%elem_of_nil. }
  cbn [run]. destruct ev as [now f|maximum p accepted|stats|e]; cbn [RelayServer.step].
  - destruct (on_datagram now f _) as [[[reply payload]|e|] g] eqn:Hon;
      [|by apply server_hands_pongs; intros ? ?%elem_of_nil..].
    pose proof (on_datagram_replies _ _ _ _ _ _ Hon) as Hpong.
    specialize (IH (RelayServer.mk g (RelayServer.message s) (RelayServer.previous_stats s)) Hm).
    destruct (run _ evs _) as [outs r]. by eapply server_hands_app; [|exact Hpong|exact IH].
  - unfold from_socket in Hm |- *. cbn [omap list_omap length] in Hm |- *. fold (from_socket evs) in Hm |- *.
    destruct (send_carrier_cases maximum (take MAX_DATAGRAM p) (RelayServer.message s)) as [(ps & -> & Hps & Hok)|(e & m' & ->)].
    + lia.
    + rewrite length_take. lia.
    + destruct (hand accepted _) as [sent r] eqn:Hh. apply hand_subset in Hh.
      destruct (IH (RelayServer.mk (RelayServer.received s) (RelayServer.message s + 1) (RelayServer.previous_stats s)))
        as (msgs & H1 & H2 & H3 & H4); [cbn; lia|].
      exists (ps :: msgs). split_and!; [by constructor| |cbn; lia|].
      { intros q. unfold joined. cbn [fmap list_fmap]. rewrite Hps, !elem_of_cons. intros [->|Hq]; [by left|right; by apply H2]. }
      assert (forall f, RelayServer.ToConnection f ∈ (RelayServer.ToConnection <$> sent) ->
        f ∈ frames_from (RelayServer.message s) (ps :: msgs)) as Hsent.
      { intros f (f' & [= ->] & Hf')%list_elem_of_fmap. cbn. apply elem_of_app. left. by apply Hh. }
      destruct r as [[]|e|]; cbn [mbind outcome_bind]; [|intros f Hf; right; by apply Hsent..].
      destruct (run _ evs _) as [outs r]. cbn [fst] in *. intros f [Hf|Hf]%elem_of_app; [right; by apply Hsent|].
      destruct (H4 f Hf) as [?|Hin]; [by left|]. right. cbn. apply elem_of_app. by right.
    + apply server_hands_pongs. by intros f ?%elem_of_nil.
  - specialize (IH (RelayServer.mk (RelayServer.received s) (RelayServer.message s) stats) Hm).
    cbn [log_carrier_stats]. destruct (run _ evs _) as [outs r]. eapply server_hands_app; [..|exact IH]; [done|].
    intros f ?%list_elem_of_singleton. congruence.
  - apply server_hands_pongs. by intros f ?%elem_of_nil.
Qed.

(** *** Receiving fragments of [msgs] *)
Section receiving.
Context (msgs : list (list bytes)) (Hok : Forall message_ok msgs) (Hbound : N.of_nat (length msgs) < U64).

Lemma frames_are_fragments f : f ∈ frames_from 0 msgs -> exists k, is_fragment msgs f k.
Proof.
  pose proof (frames_from_names [] msgs) as H. cbn [length] in H. change (N.of_nat 0) with 0 in H. rewrite H.
  intros (k & -> & Hk)%list_elem_of_fmap. exists k. by apply name_is_fragment.
Qed.

Lemma message_joined m ps : message_of msgs m = Some ps -> concat ps ∈ joined msgs.
Proof.
  unfold message_of. destruct (m =? 0); [done|]. intros H. apply list_elem_of_fmap. exists ps. split; [done|].
  by eapply list_elem_of_lookup_2.
Qed.

Lemma push_joined now f groups :
  f ∈ frames_from 0 msgs -> faithful msgs groups ->
  let '(r, groups') := CarrierReassembly.push now f groups in
  match r with
  | Ok o => faithful msgs groups' /\ forall p, o = Some p -> p ∈ joined msgs
  | Err _ => True
  | Panic => False
  end.
Proof.
  intros [k Hk]%frames_are_fragments HF. pose proof (push_faithful msgs Hok Hbound now f k groups Hk HF) as [HF' Hr].
  destruct (CarrierReassembly.push now f groups) as [r g]. cbn [fst snd] in *.
  destruct Hr as [->|[->|(ps & Hps & ->)]]; [by split| done|].
  split; [done|]. intros p [= <-]. by eapply message_joined.
Qed.

(** What the server's loop gives its socket. *)
Lemma server_step_joined ev s :
  (forall now f, ev = RelayServer.FromConnection now f -> f = CARRIER_PING \/ f ∈ frames_from 0 msgs) ->
  faithful msgs (RelayServer.received s) ->
  let '(out, r) := RelayServer.step ev s in
  Forall (fun o => match o with RelayServer.ToSocket p => p ∈ joined msgs | _ => True end) out /\
  match r with Ok s' => faithful msgs (RelayServer.received s') | Err _ => True | Panic => False end.
Proof.
  intros Hev HF. destruct ev as [now f|maximum p accepted|stats|e]; cbn [RelayServer.step].
  - unfold on_datagram. case_bool_decide as Hp; [split; [by repeat constructor|done]|].
    destruct (Hev now f eq_refl) as [|Hf]; [done|]. pose proof (push_joined now f _ Hf HF) as H. unfold_method.
    destruct (CarrierReassembly.push now f _) as [[o|e|] g]; [|done..]. destruct H as [HF' Ho].
    split; [|done]. destruct o as [p|]; cbn; [|done]. constructor; [by apply Ho|constructor].
  - pose proof (send_carrier_no_panic maximum (take MAX_DATAGRAM p) (RelayServer.message s)) as H.
    destruct (send_carrier _ _ _) as [[frames|e|] m']; [|done..].
    destruct (hand accepted frames) as [sent r] eqn:Hh. split; [by apply Forall_fmap, Forall_true|].
    unfold hand in Hh. destruct accepted as [n|]; [destruct (n <? length frames)%nat|]; by injection Hh as <- <-.
  - split; [by repeat constructor|done].
  - done.
Qed.

(** What the client's session gives its socket, and to whom. *)
Lemma client_step_joined {Addr} (senders : list Addr) ev (s : RelayClient.t Addr) :
  (forall now now' f, ev = RelayClient.FromConnection now now' f -> f = CARRIER_PONG \/ f ∈ frames_from 0 msgs) /\
  (forall a p, ev = RelayClient.Arrives a p -> a ∈ senders) ->
  faithful msgs (RelayClient.received s) /\ (forall a, RelayClient.peer s = Some a -> a ∈ senders) /\
    Forall (fun x => fst x ∈ senders) (RelayClient.backlog s) ->
  let '(out, r) := RelayClient.step ev s in
  Forall (fun o => match o with RelayClient.ToPeer a p => a ∈ senders /\ p ∈ joined msgs | _ => True end) out /\
  match r with
  | Ok s' => faithful msgs (RelayClient.received s') /\ (forall a, RelayClient.peer s' = Some a -> a ∈ senders) /\
      Forall (fun x => fst x ∈ senders) (RelayClient.backlog s')
  | Err _ => True
  | Panic => False
  end.
Proof.
  intros [Hev Hsend] (HF & Hpeer & Hbl). destruct ev as [from p|maximum| |now|now now' f|stats|e]; cbn [RelayClient.step].
  - split; [constructor|]. split_and!; [done|done|]. apply Forall_app. split; [done|]. constructor; [|constructor].
    by eapply Hsend.
  - split; [constructor|]. unfold RelayClient.read.
    destruct (RelayClient.pending s), (RelayClient.backlog s) as [|[a p] bl] eqn:Hb; try (rewrite ?Hb; done).
    pose proof (send_carrier_no_panic maximum (take MAX_DATAGRAM p) (RelayClient.message s)) as H.
    apply Forall_cons in Hbl as [Ha Hbl].
    destruct (send_carrier _ _ _) as [[frames|e|] m']; [|done..]. split_and!; [done| |done]. by intros a' [= <-].
  - unfold RelayClient.hand_on. destruct (RelayClient.pending s); (split; [by repeat constructor|done]).
  - destruct (_ <? _); [done|]. split; [by repeat constructor|done].
  - unfold RelayClient.on_incoming. case_bool_decide as Hp; [done|].
    destruct (Hev now now' f eq_refl) as [|Hf]; [done|]. pose proof (push_joined now' f _ Hf HF) as H.
    destruct (CarrierReassembly.push now' f _) as [[o|e|] g]; [|done..]. destruct H as [HF' Ho].
    split; [|done]. destruct (RelayClient.peer s) as [a|] eqn:Ha, o as [p|]; repeat constructor; [by apply Hpeer|by apply Ho].
  - split; [by repeat constructor|done].
  - done.
Qed.
End receiving.

(** An incomplete message misses one of its fragments: as many are incomplete as
    fragments are missing, at most. *)
Lemma incomplete_le (msgs : list (list bytes)) (ks zs : list (N * nat)) (ms : list N) :
  Forall message_ok msgs -> N.of_nat (length msgs) < U64 -> ks ++ zs ≡ₚ names_from 0 msgs ->
  (forall m, m ∈ ms <-> whole msgs ks m /\ ~ whole msgs [] m) ->
  (length msgs <= length ms + length zs)%nat.
Proof.
  intros Hok Hbound Hperm Hms.
  assert ((N.of_nat <$> seq 1 (length msgs)) ⊆+ ms ++ zs.*1) as Hsub.
  { apply NoDup_submseteq; [apply NoDup_fmap_2; [exact Nat2N.inj|apply NoDup_seq]|].
    intros m (k & -> & Hk%elem_of_seq)%list_elem_of_fmap. rewrite elem_of_app, Hms.
    destruct (lookup_lt_is_Some_2 msgs (k - 1)) as [ps Hps]; [lia|].
    assert (message_of msgs (N.of_nat k) = Some ps) as Hps'.
    { unfold message_of. rewrite (proj2 (N.eqb_neq _ _)) by lia.
      by replace (N.to_nat (N.of_nat k - 1)) with (k - 1)%nat by lia. }
    destruct (decide (whole_message ps (got ks (N.of_nat k)))) as [Hw|Hw].
    { left. split; [by exists ps|by apply none_whole]. }
    right. apply not_Forall_Exists in Hw; [|apply _]. apply Exists_exists in Hw as (i & Hi%elem_of_seq & Hni).
    assert ((N.of_nat k, i) ∉ ks) as Hnk by (intros H; by apply Hni, elem_of_got). apply list_elem_of_fmap. exists (N.of_nat k, i). split; [done|].
    assert ((N.of_nat k, i) ∈ ks ++ zs) as Hin; [|by apply elem_of_app in Hin as [|]].
    rewrite Hperm. apply (names_from_spec [] msgs). cbn. split; [lia|]. exists ps. split; [done|lia]. }
  apply submseteq_length in Hsub. rewrite length_app, !length_fmap, length_seq in Hsub. lia.
Qed.

(** What the server's socket is sent of what the client handed over. *)
Lemma carried (Addr : Type) (cevs : list (RelayClient.event Addr)) (t0 T : N)
    (couts : list (RelayClient.output Addr)) (c : RelayClient.t Addr) (sevs : list RelayServer.event) :
  run RelayClient.step cevs (RelayClient.start t0 []) = (couts, Ok c) ->
  RelayClient.backlog c = [] -> RelayClient.pending c = [] ->
  (length (arrived cevs) <= MAX_CARRIER_GROUPS)%nat ->
  Forall (fun x => length (snd x) <= MAX_DATAGRAM)%nat (arrived cevs) ->
  snd <$> fragments sevs ⊆+ handed couts ->
  Forall (fun x => T <= fst x <= T + CARRIER_TTL) (fragments sevs) -> Forall RelayServer_sound sevs ->
  exists souts s, run RelayServer.step sevs RelayServer.start = (souts, Ok s) /\
    to_socket souts ⊆+ snd <$> arrived cevs /\
    (length (arrived cevs) + length (fragments sevs) <= length (to_socket souts) + length (handed couts))%nat /\
    (snd <$> fragments sevs ≡ₚ handed couts -> to_socket souts ≡ₚ snd <$> arrived cevs /\ RelayServer.received s = ∅).
Proof.
  intros Hc Hbl Hpe Hmax Hlen Hnet Htime Hsound.
  destruct (run_client_handed cevs (RelayClient.start t0 [])) as (msgs & rest & left & H1 & H2 & Hok & Hend).
  { cbn. by apply MAX_CARRIER_GROUPS_small. }
  { constructor. }
  rewrite Hc in H1, Hend. destruct (Hend c eq_refl) as [-> ->]. rewrite Hpe, Hbl in *.
  cbn [fst RelayClient.start RelayClient.pending RelayClient.backlog RelayClient.message app] in H1, H2.
  change (@payloads Addr []) with (@nil bytes) in H2. rewrite app_nil_r in H1, H2.
  assert (payloads (arrived cevs) = snd <$> arrived cevs) as Hpay.
  { unfold payloads. apply Forall_fmap_ext_1. eapply Forall_impl; [exact Hlen|]. intros x Hx. by apply take_ge. }
  rewrite Hpay in H2.
  assert (length msgs = length (arrived cevs)) as Hn.
  { apply (f_equal length) in H2. unfold joined in H2. by rewrite !length_fmap in H2. }
  rewrite H1, (frames_from_names []) in *. cbn [app] in *. change (N.of_nat (length [])) with 0 in *.
  assert (N.of_nat (length msgs) < U64) as Hbound by (rewrite Hn; by apply MAX_CARRIER_GROUPS_small).
  apply submseteq_Permutation in Hnet as [lost Hnet]. symmetry in Hnet.
  pose proof (Permutation_length Hnet) as Hcount. rewrite length_app, !length_fmap in Hcount.
  apply Permutation_map_inv in Hnet as (kzs & Hkzs & Hperm). symmetry in Hkzs.
  apply fmap_app_inv in Hkzs as (ks & zs & Hks & Hzs & ->).
  assert (forall k, k ∈ ks -> k ∈ names_from 0 msgs) as Hin by (intros k Hk; rewrite Hperm; apply elem_of_app; by left).
  destruct (run_server_exact msgs Hok Hbound T sevs RelayServer.start [] ks)
    as (souts & s & ms & Hs & He & Hto & Hnd & Hms).
  - apply exact_nil.
  - by rewrite Hn.
  - done.
  - rewrite app_nil_r. pose proof (names_from_NoDup 0 msgs) as Hnd. rewrite Hperm in Hnd. by apply NoDup_app in Hnd as [? _].
  - apply Forall2_same_length_lookup. split; [by rewrite <- (length_fmap snd), Hks, length_fmap|].
    intros i [now f] k Hf Hk. apply (f_equal (lookup i)) in Hks. rewrite !list_lookup_fmap, Hf, Hk in Hks.
    injection Hks as ->. split; [exact (Forall_lookup_1 _ _ _ _ Htime Hf)|].
    apply name_is_fragment, Hin. by eapply list_elem_of_lookup_2.
  - rewrite app_nil_r in He, Hms. exists souts, s. split; [done|].
    assert (forall m, m ∈ ms <-> whole msgs ks m /\ ~ whole msgs [] m) as Hms'.
    { intros m. rewrite Hms. by rewrite whole_reverse. }
    split; [|split].
    + rewrite Hto, <- H2, <- (message_payloads msgs). apply fmap_submseteq, NoDup_submseteq; [done|].
      intros m Hm. apply Hms' in Hm as [(ps & Hps & _) _]. exact (message_keys msgs Hok Hbound m ps Hps).
    + pose proof (incomplete_le msgs ks zs ms Hok Hbound ltac:(by symmetry) Hms').
      assert (length (to_socket souts) = length ms) as -> by (by rewrite Hto, length_fmap).
      assert (length zs = length lost) as Hl by (by rewrite Hzs, length_fmap).
      rewrite ?H1, ?length_fmap in *. lia.
    + intros Hall%Permutation_length. rewrite !length_fmap in Hall.
      assert (zs = []) as -> by (destruct zs; [done|]; subst lost; rewrite length_fmap in Hcount; cbn in Hcount; lia).
      rewrite app_nil_r in Hperm. assert (forall k, k ∈ reverse ks <-> k ∈ names_from 0 msgs) as Hin'
        by (intros k; by rewrite elem_of_reverse, Hperm).
      split; [|by eapply exact_all_empty]. rewrite Hto, <- H2, <- (message_payloads msgs).
      apply fmap_Permutation. by eapply (completed_all msgs Hok Hbound (reverse ks)).
Qed.

(** ** Properties *)

(** C5: the relay loses only what the network loses.  The client's session,
    whatever else it does in between (heartbeats, incoming traffic, statistics),
    has handed the fragments of every datagram its socket received to the
    connection; the network delivers some of them, none twice, in any order,
    within three seconds, mixed with heartbeats; the server's loop does whatever
    else it has to do.  Then its loop does not fail, the service's socket is
    sent datagrams the client's socket received, each at most once, and at most
    one is missing for each fragment the network lost; if it lost none, all of
    them are sent and no fragment is left behind.  At most 2048 datagrams may be
    under way. *)
Theorem relay_carries (Addr : Type) (cevs : list (RelayClient.event Addr)) (t0 T : N)
    (couts : list (RelayClient.output Addr)) (c : RelayClient.t Addr) (sevs : list RelayServer.event) :
  run RelayClient.step cevs (RelayClient.start t0 []) = (couts, Ok c) ->
  RelayClient.backlog c = [] -> RelayClient.pending c = [] ->
  (length (arrived cevs) <= MAX_CARRIER_GROUPS)%nat ->
  Forall (fun x => length (snd x) <= MAX_DATAGRAM)%nat (arrived cevs) ->
  snd <$> fragments sevs ⊆+ handed couts ->
  Forall (fun x => T <= fst x <= T + CARRIER_TTL) (fragments sevs) -> Forall RelayServer_sound sevs ->
  exists souts s, run RelayServer.step sevs RelayServer.start = (souts, Ok s) /\
    to_socket souts ⊆+ snd <$> arrived cevs /\
    (length (arrived cevs) + length (fragments sevs) <= length (to_socket souts) + length (handed couts))%nat /\
    (snd <$> fragments sevs ≡ₚ handed couts -> to_socket souts ≡ₚ snd <$> arrived cevs /\ RelayServer.received s = ∅).
Proof. apply carried. Qed.

(** Two datagrams, the second in three fragments; the network reverses them and
    puts a heartbeat between. *)
Definition demo_client_events : list (RelayClient.event N) :=
  [RelayClient.Arrives 1 (bytes_of_string "ab"); RelayClient.Reads (Some 14%nat); RelayClient.Heartbeat 5;
   RelayClient.Arrives 2 (bytes_of_string "hello"); RelayClient.Hands; RelayClient.Reads (Some 14%nat);
   RelayClient.Hands; RelayClient.Hands; RelayClient.FromConnection 6 6 CARRIER_PONG; RelayClient.Hands].
Definition demo_outs : list (RelayClient.output N) :=
  fst (run RelayClient.step demo_client_events (RelayClient.start 0 [])).
Definition demo_server_events : list RelayServer.event :=
  ((fun f => RelayServer.FromConnection 10 f) <$> reverse (handed demo_outs)) ++
  [RelayServer.FromConnection 11 CARRIER_PING; RelayServer.StatsTick no_stats].

Lemma relay_carries_witness :
  exists souts s, run RelayServer.step demo_server_events RelayServer.start = (souts, Ok s) /\
    to_socket souts ≡ₚ [bytes_of_string "ab"; bytes_of_string "hello"] /\ RelayServer.received s = ∅.
Proof.
  assert (snd <$> fragments demo_server_events ≡ₚ handed demo_outs) as Hall.
  { assert (snd <$> fragments demo_server_events = reverse (handed demo_outs)) as ->
      by (vm_compute; reflexivity). apply reverse_Permutation. }
  destruct (relay_carries N demo_client_events 0 10 demo_outs
    (RelayClient.mk ∅ 2 no_stats (Some 2) [] [] 6) demo_server_events) as (souts & s & Hs & _ & _ & H).
  - vm_compute. reflexivity.
  - reflexivity.
  - reflexivity.
  - apply Nat.leb_le. vm_compute. reflexivity.
  - repeat (constructor; [apply Nat.leb_le; vm_compute; reflexivity|]). constructor.
  - by rewrite Hall.
  - refine (bool_decide_unpack _ _). vm_compute. exact I.
  - unfold demo_server_events. apply Forall_app. split; [|by repeat constructor].
    apply Forall_fmap, Forall_true. done.
  - destruct (H Hall) as [Hto Hrec]. exists souts, s. split; [exact Hs|]. split; [exact Hto|exact Hrec].
Defined.

(** C6: nothing is forged, mixed up or misdirected.  The two loops exchange their
    datagrams through a network that may lose, repeat, delay and reorder them but
    not make them up, whatever else either end does and whether or not a loop has
    failed.  Then every datagram the server gives the service is one the client's
    socket received, every datagram the client delivers is one the server's
    socket received and goes to an address the client received from, and neither
    loop panics. *)
Theorem relay_integrity (Addr : Type) (cevs : list (RelayClient.event Addr)) (t0 : N) (sevs : list RelayServer.event) :
  N.of_nat (length (arrived cevs)) < U64 -> N.of_nat (length (from_socket sevs)) < U64 ->
  let '(couts, cr) := run RelayClient.step cevs (RelayClient.start t0 []) in
  let '(souts, sr) := run RelayServer.step sevs RelayServer.start in
  (forall now f, RelayServer.FromConnection now f ∈ sevs -> RelayClient.ToConnection f ∈ couts) ->
  (forall now now' f, RelayClient.FromConnection now now' f ∈ cevs -> RelayServer.ToConnection f ∈ souts) ->
  (forall p, RelayServer.ToSocket p ∈ souts -> p ∈ payloads (arrived cevs)) /\
  (forall a p, RelayClient.ToPeer a p ∈ couts -> a ∈ (arrived cevs).*1 /\ p ∈ from_socket sevs) /\
  no_panic cr /\ no_panic sr.
Proof.
  intros Hc Hs.
  destruct (run_client_handed cevs (RelayClient.start t0 [])) as (cmsgs & rest & left & H1 & H2 & Hcok & _); [done|constructor|].
  destruct (run_server_handed sevs RelayServer.start Hs) as (smsgs & Hsok & Hsub & Hslen & Hfrom).
  pose proof (run_invariant RelayServer.step _ _ _ (server_step_joined cmsgs Hcok
    ltac:(apply (f_equal length) in H2; unfold joined, payloads in H2; rewrite length_app, !length_fmap in H2; cbn in H2; lia)) sevs
    RelayServer.start) as HS.
  pose proof (run_invariant RelayClient.step _ _ _ (client_step_joined smsgs Hsok ltac:(lia) (arrived cevs).*1) cevs
    (RelayClient.start t0 [])) as HC.
  destruct (run RelayClient.step cevs _) as [couts cr]. destruct (run RelayServer.step sevs _) as [souts sr].
  cbn [fst RelayClient.start RelayClient.pending RelayClient.backlog RelayClient.message app] in *.
  change (RelayServer.message RelayServer.start) with 0 in Hfrom.
  intros Hup Hdown. destruct HS as [HSQ HSP].
  { apply Forall_forall. intros ev Hev now f ->. specialize (Hup now f Hev).
    destruct (decide (f = CARRIER_PING)) as [|Hne]; [by left|]. right. rewrite <- H1. apply elem_of_app. left.
    apply list_elem_of_omap. exists (RelayClient.ToConnection f). split; [done|]. by rewrite decide_False. }
  { apply map_Forall_empty. }
  destruct HC as [HCQ HCP].
  { apply Forall_forall. intros ev Hev. split.
    - intros now now' f ->. exact (Hfrom f (Hdown now now' f Hev)).
    - intros a p ->. apply list_elem_of_fmap. exists (a, p). split; [done|]. apply list_elem_of_omap. by eexists. }
  { split_and!; [apply map_Forall_empty|done|constructor]. }
  rewrite Forall_forall in HSQ. rewrite Forall_forall in HCQ. split_and!.
  - intros p Hp. specialize (HSQ _ Hp). cbn in HSQ. rewrite <- H2. apply elem_of_app. by left.
  - intros a p Hp. destruct (HCQ _ Hp) as [Ha Hj]. split; [done|]. by apply Hsub.
  - by destruct cr.
  - by destruct sr.
Qed.

(** The uplink as before; the service answers "ok", and the network repeats
    one fragment of it. *)
Definition demo_reply_events : list RelayServer.event :=
  demo_server_events ++ [RelayServer.FromSocket (Some 13%nat) (bytes_of_string "ok") None].
Definition demo_reply_outs : list RelayServer.output := fst (run RelayServer.step demo_reply_events RelayServer.start).
Definition demo_exchange : list (RelayClient.event N) :=
  demo_client_events ++ [RelayClient.FromConnection 20 20 (carrier_frame 1 1 2 (bytes_of_string "k"));
    RelayClient.FromConnection 21 21 (carrier_frame 1 1 2 (bytes_of_string "k"));
    RelayClient.FromConnection 22 22 (carrier_frame 1 0 2 (bytes_of_string "o"))].

Lemma relay_integrity_witness :
  RelayClient.ToPeer 2 (bytes_of_string "ok") ∈ fst (run RelayClient.step demo_exchange (RelayClient.start 0 [])) /\
  bytes_of_string "ok" ∈ from_socket demo_reply_events.
Proof.
  pose proof (relay_integrity N demo_exchange 0 demo_reply_events ltac:(by vm_compute) ltac:(by vm_compute)) as H.
  assert (RelayClient.ToPeer 2 (bytes_of_string "ok") ∈ fst (run RelayClient.step demo_exchange (RelayClient.start 0 []))) as Hin
    by (vm_compute; repeat constructor).
  assert (Forall (fun ev => match ev with RelayServer.FromConnection _ f => RelayClient.ToConnection f ∈
      fst (run RelayClient.step demo_exchange (RelayClient.start 0 [])) | _ => True end) demo_reply_events) as Hup
    by (vm_compute; repeat constructor).
  assert (Forall (fun ev => match ev with RelayClient.FromConnection _ _ f => RelayServer.ToConnection f ∈ demo_reply_outs
      | _ => True end) demo_exchange) as Hdown by (vm_compute; repeat constructor).
  rewrite Forall_forall in Hup. rewrite Forall_forall in Hdown. split; [exact Hin|]. unfold demo_reply_outs in Hdown.
  destruct (run RelayClient.step demo_exchange _) as [couts cr]. destruct (run RelayServer.step demo_reply_events _) as [souts sr].
  cbn [fst] in Hin, Hup, Hdown. apply H in Hin as [_ Hp].
  - exact Hp.
  - intros now f Hf. exact (Hup _ Hf).
  - intros now now' f Hf. exact (Hdown _ Hf).
Defined.
