(* ===== verification/Lanes.v ===== *)
(** * Stream lanes (src/src/quic_relay.rs: [relay_laned_connection],
    [relay_laned_client_session], [spawn_lane_readers])

    The relay's reliable mode: datagrams travel on streams, framed by
    [write_stream_datagram].  Both loops have the same shape and are one step
    function each over shared helpers; an event is a branch of [select!] or a
    step of a reader task. *)
From S2P Require Import Prelude Carrier Keyring Relay.

Definition STREAM_LANE_PREFACE : byte := x53.
Definition LANE_QUEUE : nat := N.to_nat 1024.

(** ** Opening the lanes *)

(** The preface read from the other end *)
Definition expect_preface : method conn () :=
  preface ← hear (read_exact 1);
  first ← lift (elem_at preface 0);
  if negb (bool_decide (first = STREAM_LANE_PREFACE)) then bail "invalid carrier lane preface"%string else mret ().

(** One lane, as [relay_laned_connection] accepts and as
    [relay_laned_client_session] opens it. *)
Definition accept_lane : method conn () := _ ← expect_preface; say [STREAM_LANE_PREFACE].
Definition open_lane : method conn () := _ ← say [STREAM_LANE_PREFACE]; expect_preface.

(** [for _ in 0..lanes]: [streams] is what [accept_bi] or [open_bi] yields. *)
Fixpoint each_lane (one : method conn ()) (streams : list (result bytes)) : result (list conn) :=
  match streams with
  | [] => Ok []
  | stream :: streams =>
      stream ← stream;
      let '(r, lane) := one (stream, []) in
      _ ← r;
      lanes ← each_lane one streams;
      Ok (lane :: lanes)
  end.

(** ** The loops *)
Section lanes.
Context {Addr : Type}.

(** A lane's receiving stream: what it has delivered and its reader not yet taken, and
    the error its reader task returned, if it did. *)
Record lane := mk_lane {
  unread : bytes;
  exited : option string;
}.

(** [queue] is the channel of [spawn_lane_readers]; [peer] is the client's. *)
Record t := mk {
  next_lane : nat;
  lanes : list lane;
  queue : list bytes;
  peer : option Addr;
  previous_stats : CarrierStatsSnapshot;
}.

Definition start (n : nat) : t := mk 0 (replicate n (mk_lane [] None)) [] None no_stats.

Inductive event :=
| FromSocket (from : Addr) (datagram : bytes)
| Delivers (lane : nat) (data : bytes)
| Reads (lane : nat)
| Joins
| Takes
| StatsTick (stats : CarrierStatsSnapshot)
| Fails (error : string).

Inductive output :=
| ToLane (lane : nat) (data : bytes)
| ToSocket (payload : bytes)
| ToPeer (to : Addr) (payload : bytes)
| Logged (line : option N * CarrierStatsSnapshot).

(** [write_stream_datagram(&mut sends[next_lane], ..)], then the next lane:
    indexing and the remainder panic without lanes. *)
Definition write_next (datagram : bytes) (s : t) : list output * result nat :=
  if (next_lane s <? length (lanes s))%nat then
    match write_stream_datagram (take MAX_DATAGRAM datagram) with
    | Ok data => ([ToLane (next_lane s) data], Ok ((next_lane s + 1) mod length (lanes s))%nat)
    | Err e => ([], Err e)
    | Panic => ([], Panic)
    end
  else ([], Panic).

(** A reader's [read_stream_datagram] can finish: its length field is there and
    too large, or the datagram is. *)
Definition complete (stream : bytes) : bool :=
  (4 <=? length stream)%nat &&
  let size := N.to_nat (from_be_bytes (take 4 stream)) in
  ((MAX_DATAGRAM <? size)%nat || (4 + size <=? length stream)%nat).

(** A reader task's turn: it waits for a whole datagram and for room in the
    channel, and returns the error if reading fails. *)
Definition read_lane (i : nat) (s : t) : t :=
  match lanes s !! i with
  | Some (mk_lane stream None) =>
      if complete stream && (length (queue s) <? LANE_QUEUE)%nat then
        let '(r, rest) := read_stream_datagram stream in
        match r with
        | Ok payload => mk (next_lane s) (<[i := mk_lane rest None]> (lanes s)) (queue s ++ [payload]) (peer s) (previous_stats s)
        | Err e => mk (next_lane s) (<[i := mk_lane rest (Some e)]> (lanes s)) (queue s) (peer s) (previous_stats s)
        | Panic => mk (next_lane s) (<[i := mk_lane rest (Some "panicked"%string)]> (lanes s)) (queue s) (peer s) (previous_stats s)
        end
      else s
  | _ => s
  end.

Definition deliver (i : nat) (data : bytes) (s : t) : t :=
  mk (next_lane s) (alter (fun l => mk_lane (unread l ++ data) (exited l)) i (lanes s)) (queue s) (peer s) (previous_stats s).

(** [readers.join_next()] *)
Definition join_next (s : t) : result t :=
  match omap exited (lanes s) with
  | e :: _ => Err e
  | [] => Ok s
  end.

(** The branches both loops share. *)
Definition common_step (ev : event) (s : t) : list output * result t :=
  match ev with
  | Delivers i data => ([], Ok (deliver i data s))
  | Reads i => ([], Ok (read_lane i s))
  | Joins => ([], join_next s)
  | StatsTick stats =>
      let '(line, previous) := log_carrier_stats stats (previous_stats s) in
      ([Logged line], Ok (mk (next_lane s) (lanes s) (queue s) (peer s) previous))
  | Fails e => ([], Err e)
  | _ => ([], Ok s)
  end.

(** [relay_laned_connection], one iteration *)
Definition server_step (ev : event) (s : t) : list output * result t :=
  match ev with
  | FromSocket _ datagram =>
      let '(out, r) := write_next datagram s in
      (out, next ← r; Ok (mk next (lanes s) (queue s) (peer s) (previous_stats s)))
  | Takes =>
      match queue s with
      | [] => ([], Ok s)
      | payload :: queue =>
          ([ToSocket payload], Ok (mk (next_lane s) (lanes s) queue (peer s) (previous_stats s)))
      end
  | ev => common_step ev s
  end.

(** [relay_laned_client_session], one iteration *)
Definition client_step (ev : event) (s : t) : list output * result t :=
  match ev with
  | FromSocket from datagram =>
      let '(out, r) := write_next datagram s in
      (out, next ← r; Ok (mk next (lanes s) (queue s) (Some from) (previous_stats s)))
  | Takes =>
      match queue s with
      | [] => ([], Ok s)
      | payload :: queue =>
          (match peer s with Some to => [ToPeer to payload] | None => [] end,
           Ok (mk (next_lane s) (lanes s) queue (peer s) (previous_stats s)))
      end
  | ev => common_step ev s
  end.
End lanes.
Arguments t : clear implicits.
Arguments event : clear implicits.
Arguments output : clear implicits.

(** ** Lemmas *)
Definition framed (p : bytes) : bytes := u32_be (N.of_nat (length p)) ++ p.
Definition stream_of (ps : list bytes) : bytes := ps ≫= framed.

Lemma read_framed p rest : (length p <= MAX_DATAGRAM)%nat -> read_stream_datagram (framed p ++ rest) = (Ok p, rest).
Proof. intros Hp. unfold framed. rewrite <- app_assoc. by apply read_written. Qed.

Lemma length_field p rest : (length p <= MAX_DATAGRAM)%nat ->
  N.to_nat (from_be_bytes (take 4 (framed p ++ rest))) = length p.
Proof.
  intros Hp. unfold framed. rewrite <- app_assoc, take_app_le, take_ge by (rewrite length_u32_be; lia).
  rewrite from_u32_be; [apply Nat2N.id|]. pose proof MAX_DATAGRAM_val. width_lia.
Qed.

(** On a prefix of framed datagrams a reader completes only whole datagrams. *)
Lemma complete_framed u later ps :
  u ++ later = stream_of ps -> Forall (fun p => length p <= MAX_DATAGRAM)%nat ps -> complete u = true ->
  exists p ps' u', ps = p :: ps' /\ u = framed p ++ u' /\ u' ++ later = stream_of ps'.
Proof.
  intros Hu HF Hc. unfold complete in Hc. apply andb_true_iff in Hc as [Hl Hc]. apply Nat.leb_le in Hl.
  destruct ps as [|p ps'].
  { cbn in Hu. apply app_nil in Hu as [-> _]. cbn in Hl. lia. }
  apply Forall_cons in HF as [Hp _]. change (stream_of (p :: ps')) with (framed p ++ stream_of ps') in Hu.
  assert (take 4 u = take 4 (framed p ++ stream_of ps')) as Ht by (rewrite <- Hu; by rewrite take_app_le by lia).
  rewrite Ht, length_field in Hc by done. apply orb_true_iff in Hc as [Hc|Hc].
  { apply Nat.ltb_lt in Hc. lia. }
  apply Nat.leb_le in Hc. assert (length (framed p) = 4 + length p)%nat as Hf by (unfold framed; len).
  apply app_eq_inv in Hu as [(k & -> & Hk)|(k & Hk & ->)]; [by exists p, ps', k|].
  apply (f_equal length) in Hk as Hlk. rewrite length_app in Hlk. destruct k; [|cbn in Hlk; lia].
  rewrite app_nil_r in Hk. exists p, ps', []. by rewrite app_nil_r, Hk.
Qed.

Lemma complete_all p ps : (length p <= MAX_DATAGRAM)%nat -> complete (stream_of (p :: ps)) = true.
Proof.
  intros Hp. change (stream_of (p :: ps)) with (framed p ++ stream_of ps). unfold complete.
  rewrite length_field by done. assert (length (framed p) = 4 + length p)%nat as Hf by (unfold framed; len).
  rewrite length_app. apply andb_true_iff. split; [apply Nat.leb_le; lia|]. apply orb_true_iff. right. apply Nat.leb_le. lia.
Qed.

Section one_lane.
Context {Addr : Type}.
Implicit Types (s : t Addr) (ev : event Addr).

Definition delivered (evs : list (event Addr)) : bytes :=
  evs ≫= fun ev => match ev with Delivers O data => data | _ => [] end.
Definition written (outs : list (output Addr)) : bytes :=
  outs ≫= fun o => match o with ToLane O data => data | _ => [] end.
Definition to_socket (outs : list (output Addr)) : list bytes :=
  omap (fun o => match o with ToSocket p => Some p | _ => None end) outs.
Definition from_socket (evs : list (event Addr)) : list bytes :=
  omap (fun ev => match ev with FromSocket _ p => Some (take MAX_DATAGRAM p) | _ => None end) evs.
Definition no_failure ev : Prop := match ev with Fails _ => False | _ => True end.

(** One open lane whose reader runs, holding [u]. *)
Definition holds (u : bytes) s : Prop :=
  next_lane s = 0%nat /\ lanes s = [mk_lane u None] /\ (length (queue s) <= LANE_QUEUE)%nat.

(** One lane, whatever became of its reader. *)
Definition one s : Prop := next_lane s = 0%nat /\ length (lanes s) = 1%nat.

Lemma holds_one u s : holds u s -> one s.
Proof. intros (Hn & Hl & _). split; [done|]. by rewrite Hl. Qed.

Lemma write_one (datagram : bytes) s :
  one s -> write_next datagram s = ([ToLane 0 (framed (take MAX_DATAGRAM datagram))], Ok 0%nat).
Proof.
  intros [Hn Hl]. unfold write_next. rewrite Hn, Hl. cbn [Nat.ltb Nat.leb].
  rewrite write_stream_datagram_Ok; [done|]. rewrite length_take. lia.
Qed.

(** One step of the server that is no failure: it moves bytes from the network to
    the lane, a datagram from the lane to the queue, or from there to the socket. *)
Lemma server_step_one ev s u later fs :
  holds u s -> no_failure ev -> Forall (fun p => length p <= MAX_DATAGRAM)%nat fs ->
  u ++ delivered [ev] ++ later = stream_of fs ->
  exists out s' u' fs', server_step ev s = (out, Ok s') /\ holds u' s' /\
    Forall (fun p => length p <= MAX_DATAGRAM)%nat fs' /\
    u' ++ later = stream_of fs' /\ to_socket out ++ queue s' ++ fs' = queue s ++ fs.
Proof.
  intros Hh Hev HF Hu. pose proof Hh as (Hn & Hl & Hq).
  destruct ev as [from p|i data|i| | |stats|e]; cbn [server_step common_step].
  - rewrite (write_one p s (holds_one _ _ Hh)). eexists _, _, u, fs. split; [reflexivity|]. by cbn in Hu |- *.
  - assert (delivered [Delivers i data] = match i with O => data | _ => [] end) as Hd
      by (unfold delivered; destruct i; cbn; by rewrite ?app_nil_r).
    rewrite Hd in Hu. eexists _, _, (u ++ match i with O => data | _ => [] end), fs. split; [reflexivity|].
    split; [|by rewrite <- app_assoc]. unfold holds, deliver. cbn [next_lane lanes queue]. rewrite Hl.
    destruct i as [|i]; [done|]. by rewrite app_nil_r.
  - cbn in Hu. unfold read_lane. rewrite Hl. destruct i as [|i]; cbn [lookup list_lookup]; [|by eexists _, s, u, fs].
    destruct (complete u && (length (queue s) <? LANE_QUEUE)%nat) eqn:Hc; [|by eexists _, s, u, fs].
    apply andb_true_iff in Hc as [Hc Hroom]. apply Nat.ltb_lt in Hroom.
    destruct (complete_framed u later fs Hu HF Hc) as (p & fs' & u' & -> & -> & Hu').
    apply Forall_cons in HF as [Hp HF]. rewrite read_framed by done.
    eexists _, _, u', fs'. split; [reflexivity|]. unfold holds. cbn. rewrite length_app, <- app_assoc. cbn.
    split_and!; [done|done|lia|done..].
  - unfold join_next. rewrite Hl. by eexists _, s, u, fs.
  - cbn in Hu. destruct (queue s) as [|p q] eqn:Hqs; [eexists _, s, u, fs; by rewrite Hqs|].
    eexists _, _, u, fs. split; [reflexivity|]. unfold holds. cbn in *. split_and!; [done|done|lia|done..].
  - by eexists _, _, u, fs.
  - done.
Qed.

Lemma run_server_one evs : forall s u later fs,
  holds u s -> Forall no_failure evs -> Forall (fun p => length p <= MAX_DATAGRAM)%nat fs ->
  u ++ delivered evs ++ later = stream_of fs ->
  exists outs s' u' fs', run server_step evs s = (outs, Ok s') /\ holds u' s' /\
    Forall (fun p => length p <= MAX_DATAGRAM)%nat fs' /\
    u' ++ later = stream_of fs' /\ to_socket outs ++ queue s' ++ fs' = queue s ++ fs.
Proof.
  induction evs as [|ev evs IH]; intros s u later fs Hh HF Hfs Hu; [by exists [], s, u, fs|].
  apply Forall_cons in HF as [Hev HF].
  destruct (server_step_one ev s u (delivered evs ++ later) fs Hh Hev Hfs) as (out & s1 & u1 & fs1 & Hs & Hh1 & Hfs1 & Hu1 & Hq1).
  { rewrite <- Hu. unfold delivered. cbn. by rewrite app_nil_r, <- app_assoc. }
  destruct (IH s1 u1 later fs1 Hh1 HF Hfs1 Hu1) as (outs & s2 & u2 & fs2 & Hr & Hh2 & Hfs2 & Hu2 & Hq2).
  exists (out ++ outs), s2, u2, fs2. cbn [run]. rewrite Hs, Hr. split_and!; [done..|].
  rewrite <- Hq1, <- Hq2. unfold to_socket. by rewrite omap_app, <- app_assoc.
Qed.

(** What the client writes: the datagrams of its socket, framed, in order. *)
Lemma client_step_one ev s :
  one s -> let '(out, r) := client_step ev s in
  match r with
  | Ok s' => one s' /\ written out = stream_of (from_socket [ev])
  | Err _ => out = []
  | Panic => False
  end.
Proof.
  intros Hone. pose proof Hone as [Hn Hl]. destruct ev as [from p|i data|i| | |stats|e]; cbn [client_step common_step].
  - rewrite (write_one p s Hone). cbn. by rewrite !app_nil_r.
  - split; [|done]. unfold one, deliver. cbn. by rewrite length_alter.
  - split; [|done]. unfold read_lane. destruct (lanes s !! i) as [[stream [e|]]|]; [done| |done].
    destruct (_ && _); [|done]. unfold one. destruct (read_stream_datagram stream) as [[p|e|] rest]; cbn; by rewrite length_insert.
  - unfold join_next. by destruct (omap exited (lanes s)).
  - destruct (queue s); [done|]. split; [done|]. by destruct (peer s).
  - done.
  - done.
Qed.

Lemma run_client_written evs : forall s, one s ->
  let '(outs, r) := run client_step evs s in
  no_panic r /\ exists sent left, written outs = stream_of sent /\ sent ++ left = from_socket evs /\ (is_ok r = true -> left = []).
Proof.
  induction evs as [|ev evs IH]; intros s Hone; [split; [done|]; by exists [], []|].
  pose proof (client_step_one ev s Hone) as Hs. cbn [run].
  destruct (client_step ev s) as [out [s1|e|]]; [|split; [done|]; subst; by exists [], (from_socket (ev :: evs))|done].
  destruct Hs as [Hone1 Hw]. specialize (IH s1 Hone1). destruct (run client_step evs s1) as [outs r].
  destruct IH as (Hp & sent & left & H1 & H2 & H3). split; [done|]. exists (from_socket [ev] ++ sent), left.
  split_and!; [|by rewrite <- app_assoc, H2; unfold from_socket; rewrite <- omap_app|done].
  unfold stream_of, written in *. by rewrite !bind_app, Hw, H1.
Qed.
End one_lane.

(** Both ends open their lanes on streams that begin with the preface, and only on
    those; what follows it stays unread. *)
Lemma expect_preface_spec stream w :
  expect_preface (stream, w) =
  match stream with
  | [] => (Err "early eof"%string, ([], w))
  | b :: rest => (if bool_decide (b = STREAM_LANE_PREFACE) then Ok () else Err "invalid carrier lane preface"%string, (rest, w))
  end.
Proof.
  unfold expect_preface. rewrite hear_bind. destruct stream as [|b rest]; [done|]. unfold read_exact.
  cbn [length Nat.ltb Nat.leb take drop]. unfold_method. cbn. by case_bool_decide.
Qed.

Lemma lanes_open streams :
  let opened := (fun stream => (stream, [[STREAM_LANE_PREFACE]])) <$> streams in
  let offered := (fun stream => Ok (STREAM_LANE_PREFACE :: stream)) <$> streams in
  each_lane accept_lane offered = Ok opened /\ each_lane open_lane offered = Ok opened.
Proof.
  cbn zeta. induction streams as [|stream streams [IH1 IH2]]; [done|]. cbn [fmap list_fmap each_lane mbind outcome_bind].
  unfold accept_lane, open_lane in *. rewrite say_bind, expect_preface_spec. unfold mbind at 1, method_bind at 1.
  rewrite expect_preface_spec, bool_decide_true by done. cbn [say app mbind outcome_bind].
  split; [by rewrite IH1|by rewrite IH2].
Qed.

(** ** Properties *)

(** C7: the reliable mode keeps order and loses nothing.  With the lanes the
    program can be configured for, the client's loop never panics, and of what it
    wrote to its lane before it ended some prefix has reached the server, cut
    into pieces anywhere.  Then the server's loop, however its reader and its
    other branches interleave, does not fail, queues at most 1024 datagrams, and gives the
    service's socket the datagrams of the client's socket, unaltered and in
    order, none twice and none skipped; once everything has arrived, was read
    and taken from the queue, all of them. *)
Theorem lanes_in_order (Addr : Type) (value : option str) (lanes : N) (cevs sevs : list (event Addr)) (later : bytes) :
  parse_stream_lanes value = Ok lanes -> lanes <> 0 -> Forall no_failure sevs ->
  let '(couts, cr) := run client_step cevs (start (N.to_nat lanes)) in
  delivered sevs ++ later = written couts ->
  no_panic cr /\
  exists souts s, run server_step sevs (start (N.to_nat lanes)) = (souts, Ok s) /\ (length (queue s) <= LANE_QUEUE)%nat /\
    to_socket souts `prefix_of` from_socket cevs /\
    (is_ok cr = true -> later = [] -> queue s = [] -> Forall (fun l => complete (unread l) = false) (Lanes.lanes s) ->
     to_socket souts = from_socket cevs).
Proof.
  intros Hv Hlanes HF. assert (lanes = 1) as -> by (by eapply stream_lanes_one).
  change (N.to_nat 1) with 1%nat. pose proof (run_client_written cevs (start 1)) as Hc.
  destruct (run client_step cevs _) as [couts cr]. destruct (Hc ltac:(done)) as (Hp & sent & left & Hw & Hsent & Hleft).
  intros Hnet. split; [done|]. rewrite Hw in Hnet.
  assert (Forall (fun p => length p <= MAX_DATAGRAM)%nat sent) as Hlen.
  { assert (Forall (fun p => length p <= MAX_DATAGRAM)%nat (from_socket cevs)) as H.
    { apply Forall_forall. intros p (ev & _ & Hev)%list_elem_of_omap. destruct ev; [|done..].
      injection Hev as <-. rewrite length_take. lia. }
    rewrite <- Hsent in H. by apply Forall_app in H as [H _]. }
  destruct (run_server_one sevs (start 1) [] later sent) as (souts & s & u & fs & Hs & (_ & Hl & Hq) & Hfs & Hu & Hto).
  { split_and!; [done|done|cbn; lia]. }
  { done. }
  { done. }
  { by rewrite <- Hnet. }
  cbn in Hto. exists souts, s. split; [done|]. split; [done|]. rewrite <- Hsent, <- Hto. split.
  - rewrite <- app_assoc. by apply prefix_app_r.
  - intros Hok -> Hq0 Hcomp. rewrite (Hleft Hok), Hq0, Hl in *. cbn in *. rewrite app_nil_r in *.
    destruct fs as [|p fs]; [by rewrite app_nil_r|].
    apply Forall_cons in Hcomp as [Hcomp _]. cbn in Hcomp. rewrite Hu, complete_all in Hcomp; [done|].
    by apply Forall_cons in Hfs as [? _].
Qed.

(** Two datagrams cut in the middle of the second's length field. *)
Definition demo_sources : list (event N) := [FromSocket 1 (bytes_of_string "ab"); FromSocket 2 (bytes_of_string "hello")].
Definition demo_wire : bytes := stream_of [bytes_of_string "ab"; bytes_of_string "hello"].
Definition demo_sinks : list (event N) :=
  [Delivers 0 (take 8 demo_wire); Reads 0; Reads 0; Takes; Takes; Delivers 0 (drop 8 demo_wire); Reads 0; Takes].

Lemma lanes_in_order_witness :
  exists souts s, run server_step demo_sinks (start 1) = (souts, Ok s) /\
    to_socket souts = [bytes_of_string "ab"; bytes_of_string "hello"].
Proof.
  pose proof (lanes_in_order N (Some [49]) 1 demo_sources demo_sinks [] ltac:(by vm_compute) ltac:(discriminate)
    ltac:(repeat constructor)) as H.
  assert (snd (run client_step demo_sources (start 1)) = Ok (mk 0 [mk_lane [] None] [] (Some 2) no_stats)) as Hcr
    by (vm_compute; reflexivity).
  assert (delivered demo_sinks ++ [] = written (fst (run client_step demo_sources (start 1)))) as Hnet
    by (vm_compute; reflexivity).
  change (N.to_nat 1) with 1%nat in H. destruct (run client_step demo_sources (start 1)) as [couts cr]. cbn [fst snd] in *.
  destruct (H Hnet) as (_ & souts & s & Hs & _ & _ & Hall).
  exists souts, s. split; [exact Hs|]. assert (run server_step demo_sinks (start 1) =
    (souts, Ok (mk 0 [mk_lane [] None] [] None no_stats))) as Hs' by (rewrite Hs; vm_compute in Hs; injection Hs as <- <-; reflexivity).
  rewrite Hs in Hs'. injection Hs' as ->. apply Hall; [by rewrite Hcr|reflexivity|reflexivity|].
  constructor; [reflexivity|constructor].
Defined.
