(* ===== verification/Session.v ===== *)
(** * The two ends of a session (src/src/main.rs: [run_server_session], [client],
    [send_frames], [send_session_frames])

    Each end owns an encoder, a decoder and the address it answers to, and
    reacts to one event at a time: a frame from the tunnel, a datagram from the
    application side, the report tick, the flush tick.  A handler returns what
    it sends.  The random draws of [encode_wire] are arguments, one pair per
    frame.  The pacer they wait for is in [Pacer], and sending through it in
    [Pacing].  A failing receive from the application ends the client
    ([LocalFails]); other socket errors are only logged.
    Sockets, timers and [select!] are the environment that chooses the events. *)
From S2P Require Import Prelude External Wire Adaptive Fragment Encoder Window Group Reassembly Decoder.

Section sending.
Context {C : Crypto}.

(** The loop of [send_frames] and of [send_session_frames]: the datagrams
    sent; a frame that cannot be sealed is skipped ([encode_wire_no_panic]). *)
Definition send_frames (draw : nat -> bytes * bytes) (key : bytes) (frames : list Frame.t) : list bytes :=
  omap (fun '(i, f) => match Frame.encode_wire f key (fst (draw i)) (snd (draw i)) with
      | Ok wire => Some wire | _ => None end) (zip (seq 0 (length frames)) frames).
End sending.

(** [report.map_or(LOSS_SAMPLE_UNAVAILABLE, |sample| sample.sequence_gap_ppm)] *)
Definition report_value (r : option Window.report) : N :=
  match r with Some sample => Window.sequence_gap_ppm sample | None => LOSS_SAMPLE_UNAVAILABLE end.

Definition set_adaptive x (e : Encoder.t) : Encoder.t :=
  Encoder.mk (Encoder.version e) (Encoder.key_id e) (Encoder.session e) (Encoder.sequence e)
    (Encoder.packet e) (Encoder.group e) (Encoder.shards e) x (Encoder.force_parity e).

(** The part of [SessionRuntime] that names the session: its key, version, key
    id and session number. *)
Record identity := mk_identity {
  id_key : bytes;
  id_version : N;
  id_key_id : N;
  id_session : N;
}.

(** [Err(error) => warn!(..)]: an error is logged and nothing is sent; a panic
    is not caught. *)
Definition logged {A} (r : result (list A)) : result (list A) :=
  match r with Err _ => Ok [] | r => r end.

Section ends.

(** *** Both ends' treatment of an accepted frame

    A four-byte report feeds the adaptive controller once; anything else goes to the
    decoder, whose errors are logged.  The result lists the datagrams to hand on. *)
Definition take_frame {R : ErasureCode} (clk : nat -> N) (f : Frame.t) (d : Decoder.t) (e : Encoder.t)
    : result (list bytes) * Decoder.t * Encoder.t :=
  if (Frame.kind f =? KIND_REPORT) && (length (Frame.payload f) =? 4)%nat then
    let '(fresh, w) := Window.observe_seq (Frame.sequence f) (Decoder.window d) in
    let e := if (fresh : bool)
      then set_adaptive (Adaptive.report (Encoder.adaptive e) (from_be_bytes (take 4 (Frame.payload f)))) e else e in
    (Ok [], Decoder.set_window w d, e)
  else
    let '(r, d) := Decoder.frame clk f d in
    (logged r, d, e).
End ends.

(** *** The server's worker

    A handler returns what it sends; its only failure is a panic, which ends the task. *)
Module Worker.
Section worker.
Context {Addr : Type} {C : Crypto} {R : ErasureCode}.

Record t := mk {
  runtime : identity;
  decoder : Decoder.t;
  encoder : Encoder.t;
  peer : option Addr;
  last_logged_parity : nat;
}.

(** The locals [run_server_session] starts with. *)
Definition start (env : option nat) (rt : identity) : t :=
  mk rt (Decoder.new (id_session rt))
    (Encoder.with_identity env (id_session rt) (id_version rt) (id_key_id rt)) None 0.

(** The frame belongs to this session. *)
Definition same_identity (rt : identity) (f : Frame.t) : bool :=
  (Frame.session f =? id_session rt) && (Frame.version f =? id_version rt) && (Frame.key_id f =? id_key_id rt).

(** [packet = input.recv()]: the datagrams sent upstream. *)
Definition on_packet (clk : nat -> N) (f : Frame.t) (from : Addr) : method t (list bytes) := fun w =>
  let w := mk (runtime w) (decoder w) (encoder w) (Some from) (last_logged_parity w) in
  if negb (same_identity (runtime w) f) then (Ok [], w) else
  let '(r, d, e) := take_frame clk f (decoder w) (encoder w) in
  (r, mk (runtime w) d e (peer w) (last_logged_parity w)).

(** What the worker sends to its peer; [if peer.is_some()] guards the event. *)
Definition to_peer (draw : nat -> bytes * bytes) (frames : list Frame.t) (w : t) : list (Addr * bytes) :=
  match peer w with
  | Some p => pair p <$> send_frames draw (id_key (runtime w)) frames
  | None => []
  end.

Definition set_encoder x (w : t) := mk (runtime w) (decoder w) x (peer w) (last_logged_parity w).

(** [received = upstream_socket.recv(..)] *)
Definition on_upstream (draw : nat -> bytes * bytes) (payload : bytes) : method t (list (Addr * bytes)) := fun w =>
  match peer w with
  | None => (Ok [], w)
  | Some _ =>
      let '(r, e) := Encoder.encode_datagram payload (encoder w) in
      let w := set_encoder e w in
      (frames ← logged r; Ok (to_peer draw frames w), w)
  end.

(** [report.tick()] *)
Definition on_report (draw : nat -> bytes * bytes) : method t (list (Addr * bytes)) := fun w =>
  match peer w with
  | None => (Ok [], w)
  | Some _ =>
      let '(report, win) := Window.sequence_report (Decoder.window (decoder w)) in
      let parity := Adaptive.parity (Encoder.adaptive (encoder w)) in
      let '(r, e) := Encoder.report_frame (report_value report) (encoder w) in
      let w := mk (runtime w) (Decoder.set_window win (decoder w)) e (peer w) parity in
      (frame ← r; Ok (to_peer draw [frame] w), w)
  end.

(** [flush.tick()] *)
Definition on_flush (draw : nat -> bytes * bytes) : method t (list (Addr * bytes)) := fun w =>
  match peer w with
  | None => (Ok [], w)
  | Some _ =>
      let '(r, e) := Encoder.flush (encoder w) in
      let w := set_encoder e w in
      (frames ← logged r; Ok (to_peer draw frames w), w)
  end.
End worker.
Arguments t : clear implicits.
End Worker.

(** *** The client *)
Module Client.
Section client.
Context {Addr : Type} {C : Crypto} {R : ErasureCode}.

Record t := mk {
  runtime : identity;
  decoder : Decoder.t;
  encoder : Encoder.t;
  app_peer : option Addr;
}.

(** The locals [client] starts with; [session] is drawn at random. *)
Definition start (env : option nat) (key : bytes) (key_id : option N) (session : N) : result t :=
  if bool_decide (key_id = Some 0) then Err "key-id 0 is reserved"%string else
  key_id ← context "key-id required: legacy V1/V2 removed"%string key_id;
  let rt := mk_identity key VERSION_V3 key_id session in
  Ok (mk rt (Decoder.new session) (Encoder.with_identity env session VERSION_V3 key_id) None).

Definition set_encoder x (c : t) := mk (runtime c) (decoder c) x (app_peer c).

(** [local.recv_from(..)]: the datagrams sent through the tunnel; an encoder
    error ends the client. *)
Definition on_local (draw : nat -> bytes * bytes) (payload : bytes) (from : Addr) : method t (list bytes) := fun c =>
  let c := mk (runtime c) (decoder c) (encoder c) (Some from) in
  let '(r, e) := Encoder.encode_datagram payload (encoder c) in
  let c := set_encoder e c in
  (frames ← r; Ok (send_frames draw (id_key (runtime c)) frames), c).

(** [tunnel.recv(..)]: the datagrams sent to the application; a datagram that
    cannot be decoded is discarded. *)
Definition on_tunnel (clk : nat -> N) (buf : bytes) : method t (list (Addr * bytes)) := fun c =>
  let rt := runtime c in
  match decode_client_frame buf (id_key_id rt) (id_key rt) with
  | Ok f =>
      if negb (Frame.version f =? id_version rt) || negb (Frame.key_id f =? id_key_id rt)
         || negb (Frame.session f =? id_session rt) then (Ok [], c) else
      let '(r, d, e) := take_frame clk f (decoder c) (encoder c) in
      (out ← r; Ok (match app_peer c with Some p => pair p <$> out | None => [] end), mk rt d e (app_peer c))
  | Err _ => (Ok [], c)
  | Panic => (Panic, c)
  end.

(** [report.tick()] *)
Definition on_report (draw : nat -> bytes * bytes) : method t (list bytes) := fun c =>
  let '(report, win) := Window.sequence_report (Decoder.window (decoder c)) in
  let '(r, e) := Encoder.report_frame (report_value report) (encoder c) in
  let c := mk (runtime c) (Decoder.set_window win (decoder c)) e (app_peer c) in
  (frame ← r; Ok (send_frames draw (id_key (runtime c)) [frame]), c).

(** [flush.tick()] *)
Definition on_flush (draw : nat -> bytes * bytes) : method t (list bytes) := fun c =>
  let '(r, e) := Encoder.flush (encoder c) in
  let c := set_encoder e c in
  (frames ← r; Ok (send_frames draw (id_key (runtime c)) frames), c).

(** One turn of [client]'s loop.  [LocalFails]: receiving from the application
    failed, which ends it ([r?]); a failing [tunnel.recv] is only logged. *)
Inductive event :=
| Local (draw : nat -> bytes * bytes) (payload : bytes) (from : Addr)
| LocalFails (error : string)
| Tunnel (clk : nat -> N) (buf : bytes)
| Report (draw : nat -> bytes * bytes)
| Flush (draw : nat -> bytes * bytes).

(** What the client sends: into the tunnel, or to the application. *)
Inductive output :=
| ToTunnel (wire : bytes)
| ToApp (peer : Addr) (datagram : bytes).

Definition step (ev : event) : method t (list output) :=
  match ev with
  | Local draw payload from => wires ← on_local draw payload from; mret (ToTunnel <$> wires)
  | LocalFails error => bail error
  | Tunnel clk buf => out ← on_tunnel clk buf; mret ((fun '(p, d) => ToApp p d) <$> out)
  | Report draw => wires ← on_report draw; mret (ToTunnel <$> wires)
  | Flush draw => wires ← on_flush draw; mret (ToTunnel <$> wires)
  end.

(** The loop, for as long as no handler fails. *)
Fixpoint run (evs : list event) : method t (list output) :=
  match evs with
  | [] => mret []
  | ev :: evs => out ← step ev; rest ← run evs; mret (out ++ rest)
  end.
End client.
Arguments t : clear implicits.
Arguments event : clear implicits.
Arguments output : clear implicits.
End Client.

(** ** Lemmas *)
(** What [run_server_session] keeps of its decoder and encoder. *)
Definition ends_ok {R : ErasureCode} (rt : identity) (d : Decoder.t) (e : Encoder.t) : Prop :=
  Decoder.inv d /\ Decoder.session d = id_session rt /\ Encoder.inv e /\
  Encoder.codes R (Encoder.ceiling e) /\
  Encoder.version e = id_version rt /\ Encoder.key_id e = id_key_id rt /\ Encoder.session e = id_session rt.

Section ends_lemmas.
Context {R : ErasureCode} {S : ErasureShape R}.

Lemma encoder_step_ok rt d e i :
  ends_ok rt d e -> Encoder.input_ok i ->
  exists fs e', Encoder.step i e = (Ok fs, e') /\ ends_ok rt d e' /\ Forall (Encoder.acceptable e) fs.
Proof.
  intros (Hd & Hs & He & Hc & Hv & Hk & Hss) Hi.
  destruct (Encoder.step_effect i e He Hc Hi) as (fs & e' & Hstep & Heff).
  exists fs, e'. split; [done|]. pose proof (Encoder.effect_codes _ _ _ _ _ Heff Hc) as Hc'.
  destruct Heff as [Hinv (? & ? & ? & ?) _ _ _ _ Hacc]. unfold ends_ok. split_and!; try done; congruence.
Qed.

(** A datagram of any length: one that is too large is logged and dropped. *)
Lemma datagram_ok rt d e payload :
  ends_ok rt d e ->
  exists fs r e', Encoder.encode_datagram payload e = (r, e') /\ logged r = Ok fs /\
    ends_ok rt d e' /\ Forall (Encoder.acceptable e) fs.
Proof.
  intros (Hd & Hs & He & Hc & Hv & Hk & Hss).
  destruct (N.ltb_spec 65535 (N.of_nat (Fragment.chunk_count payload))) as [Hbig|Hfit].
  - exists []. unfold Encoder.encode_datagram. unfold_method. rewrite (proj2 (N.ltb_lt _ _)) by done.
    do 2 eexists. split; [done|]. split; [done|]. split; [|constructor]. unfold ends_ok. split_and!; try done.
    destruct He as (? & ? & ? & ? & _ & ? & ? & ? & ? & ?). split_and!; try done. apply as_u64_lt.
  - destruct (Encoder.encode_datagram_effect payload e He Hc Hfit) as (fs & e' & Hstep & Heff).
    exists fs, (Ok fs), e'. split; [done|]. split; [done|].
    pose proof (Encoder.effect_codes _ _ _ _ _ Heff Hc) as Hc'.
    destruct Heff as [Hinv (? & ? & ? & ?) _ _ _ _ Hacc]. unfold ends_ok. split_and!; try done; congruence.
Qed.

(** A report of the peer keeps the encoder well formed. *)
Lemma take_frame_encoder clk f d e :
  Encoder.inv e -> Encoder.codes R (Encoder.ceiling e) ->
  let '(_, _, e') := take_frame clk f d e in
  Encoder.inv e' /\ Encoder.codes R (Encoder.ceiling e') /\ Encoder.version e' = Encoder.version e /\
  Encoder.key_id e' = Encoder.key_id e /\ Encoder.session e' = Encoder.session e.
Proof.
  intros He Hc. unfold take_frame.
  destruct ((Frame.kind f =? KIND_REPORT) && (length (Frame.payload f) =? 4)%nat) eqn:Hrep; bool_to_prop.
  - destruct (Window.observe_seq _ _) as [[|] w]; [|done].
    assert (Encoder.input_ok (Encoder.PeerReport (from_be_bytes (take 4 (Frame.payload f))))) as Hi
      by (apply from_be_u32_lt; rewrite length_take; lia).
    destruct (Encoder.step_effect _ e He Hc Hi) as (fs & e' & Hstep & Heff).
    pose proof (Encoder.effect_codes _ _ _ _ _ Heff Hc) as Hc'. destruct Heff as [Hinv (? & ? & ? & _) _ _ _ _ _].
    cbn [Encoder.step] in Hstep. revert Hstep. unfold_method. by intros [= _ <-].
  - by destruct (Decoder.frame clk f d).
Qed.

(** Taking a frame never panics and keeps both ends well formed. *)
Lemma take_frame_ok rt clk f d e :
  ends_ok rt d e -> Frame.sequence f < U64 ->
  let '(r, d', e') := take_frame clk f d e in (exists out, r = Ok out) /\ ends_ok rt d' e'.
Proof.
  intros Hok Hq. pose proof Hok as (Hd & Hs & He & Hc & Hid). unfold take_frame.
  destruct ((Frame.kind f =? KIND_REPORT) && (length (Frame.payload f) =? 4)%nat) eqn:Hrep; bool_to_prop.
  - pose proof (Window.observe_inv (Frame.sequence f) (Decoder.window d) (proj1 Hd) Hq) as Hw.
    destruct (Window.observe_seq _ _) as [fresh w]. cbn [snd] in Hw. split; [by eexists|].
    assert (ends_ok rt (Decoder.set_window w d) e) as Hok1.
    { unfold ends_ok. split_and!; try done; try tauto. destruct Hd as (_ & Hd). by split. }
    destruct fresh; [|done].
    assert (from_be_bytes (take 4 (Frame.payload f)) < U32) as Hl
      by (apply from_be_u32_lt; rewrite length_take; lia).
    destruct (encoder_step_ok rt _ e (Encoder.PeerReport (from_be_bytes (take 4 (Frame.payload f)))) Hok1 Hl)
      as (fs & e' & Hstep & Hok2 & _).
    cbn [Encoder.step] in Hstep. revert Hstep. unfold_method. intros [= _ <-]. exact Hok2.
  - destruct (Decoder.frame_total clk f d Hd Hq) as [Hr Hd']. pose proof (Decoder.frame_session clk f d) as Hsess.
    destruct (Decoder.frame clk f d) as [r d']. cbn [fst snd] in *.
    split; [destruct r; [by eexists..|by destruct Hr]|]. unfold ends_ok. split_and!; try done; try tauto.
    congruence.
Qed.

Section worker_lemmas.
Context {Addr : Type} {C : Crypto}.

Definition worker_ok (w : Worker.t Addr) : Prop :=
  ends_ok (Worker.runtime w) (Worker.decoder w) (Worker.encoder w).

Lemma start_ok env rt :
  id_session rt < U64 -> id_version rt < U8 -> id_key_id rt < U64 ->
  Encoder.codes R (default MAX_PARITY ((fun p => p `min` MAX_PARITY)%nat <$> env)) ->
  worker_ok (Worker.start (Addr := Addr) env rt).
Proof.
  intros Hs Hv Hk Hc. unfold worker_ok, Worker.start, ends_ok. cbn [Worker.runtime Worker.decoder Worker.encoder].
  split_and!; try done; [apply Decoder.new_inv|by apply Encoder.with_identity_inv].
Qed.

(** Every handler ends well, keeps the worker well formed and its identity. *)
Definition keeps {A} (w : Worker.t Addr) (p : result A * Worker.t Addr) : Prop :=
  (exists out, fst p = Ok out) /\ Worker.runtime (snd p) = Worker.runtime w /\ worker_ok (snd p).

Lemma keeps_same {A} w (out : A) : worker_ok w -> keeps w (Ok out, w).
Proof. intros Hw. split; [by eexists|done]. Qed.

Lemma on_packet_keeps clk f from w :
  worker_ok w -> Frame.sequence f < U64 -> keeps w (Worker.on_packet clk f from w).
Proof.
  intros Hw Hq. unfold Worker.on_packet. destruct (negb _); [by split; [eexists|]|]. cbn [Worker.decoder Worker.encoder].
  pose proof (take_frame_ok (Worker.runtime w) clk f (Worker.decoder w) (Worker.encoder w) Hw Hq) as H.
  destruct (take_frame _ _ _ _) as [[r d] e]. destruct H as [[out ->] H]. split; [by eexists|done].
Qed.

Lemma on_upstream_keeps draw payload w : worker_ok w -> keeps w (Worker.on_upstream draw payload w).
Proof.
  intros Hw. unfold Worker.on_upstream. destruct (Worker.peer w); [|by apply keeps_same].
  destruct (datagram_ok _ _ _ payload Hw) as (fs & r & e' & -> & Hr & Hok & _). rewrite Hr.
  split; [by eexists|done].
Qed.

Lemma on_report_keeps draw w : worker_ok w -> keeps w (Worker.on_report draw w).
Proof.
  intros Hw. unfold Worker.on_report. destruct (Worker.peer w); [|by apply keeps_same].
  pose proof (Window.window_report_inv (Decoder.window (Worker.decoder w)) (proj1 (proj1 Hw))) as Hwin.
  destruct (Window.sequence_report _) as [report win]. cbn [snd] in Hwin.
  destruct (encoder_step_ok _ _ _ (Encoder.ReportFrame (report_value report)) Hw I) as (fs & e' & Hstep & Hok & _).
  cbn [Encoder.step] in Hstep. revert Hstep. unfold_method.
  destruct (Encoder.report_frame _ _) as [[frame|e|] e1]; [|done..]. intros [= _ <-].
  split; [by eexists|]. split; [done|].
  destruct Hok as ((_ & Hd) & Hrest). unfold worker_ok, ends_ok. cbn. split_and!; try tauto.
  split; [done|exact Hd].
Qed.

Lemma on_flush_keeps draw w : worker_ok w -> keeps w (Worker.on_flush draw w).
Proof.
  intros Hw. unfold Worker.on_flush. destruct (Worker.peer w); [|by apply keeps_same].
  destruct (encoder_step_ok _ _ _ Encoder.Flush Hw I) as (fs & e' & Hstep & Hok & _). cbn [Encoder.step] in Hstep.
  rewrite Hstep. split; [by eexists|done].
Qed.
End worker_lemmas.
End ends_lemmas.

(** ** Replayed frames *)
(** Taking a frame moves the window by its sequence number, whatever its kind. *)
Lemma take_frame_window {R : ErasureCode} clk f d e :
  Decoder.session d = Frame.session f ->
  let '(_, d', _) := take_frame clk f d e in
  Decoder.session d' = Decoder.session d /\
  Decoder.window d' = snd (Window.observe_seq (Frame.sequence f) (Decoder.window d)).
Proof.
  intros Hs. unfold take_frame. destruct (_ && _).
  - by destruct (Window.observe_seq _ _) as [fresh w].
  - pose proof (Decoder.frame_window clk f d Hs) as H. cbv zeta in H. by destruct (Decoder.frame clk f d).
Qed.

(** A sequence number already taken yields nothing and changes only the window. *)
Lemma take_frame_duplicate {R : ErasureCode} clk f d e :
  Decoder.session d = Frame.session f ->
  fst (Window.observe_seq (Frame.sequence f) (Decoder.window d)) = false ->
  let '(r, d', e') := take_frame clk f d e in
  r = Ok [] /\ e' = e /\ Decoder.groups d' = Decoder.groups d /\ Decoder.packets d' = Decoder.packets d.
Proof.
  intros Hs Hdup. unfold take_frame. destruct (_ && _).
  - destruct (Window.observe_seq _ _) as [fresh w]. cbn in Hdup. by subst fresh.
  - pose proof (Decoder.frame_duplicate clk f d Hs Hdup) as H.
    destruct (Decoder.frame clk f d) as [r d']. destruct H as (-> & ? & ?). done.
Qed.

(** ** Properties *)

(** C38: a replayed frame redirects the session.  The worker adopts the sender of
    every frame as its peer before it looks at the frame.  When an old frame of the
    session arrives again from another address, nothing is delivered and
    neither the encoder nor the groups nor the reassemblies change; but from
    then on what upstream answers is sealed as before and sent to that address
    instead. *)
Theorem replay_redirects (Addr : Type) (C : Crypto) (R : ErasureCode) (S : ErasureShape R)
    (clk clk' : nat -> N) (f : Frame.t) (a1 a2 : Addr) (w : Worker.t Addr) :
  worker_ok w -> Worker.same_identity (Worker.runtime w) f = true ->
  let w1 := snd (Worker.on_packet clk f a1 w) in
  let '(r, w2) := Worker.on_packet clk' f a2 w1 in
  r = Ok [] /\ Worker.encoder w2 = Worker.encoder w1 /\
  Decoder.groups (Worker.decoder w2) = Decoder.groups (Worker.decoder w1) /\
  Decoder.packets (Worker.decoder w2) = Decoder.packets (Worker.decoder w1) /\
  forall draw payload, exists sent,
    fst (Worker.on_upstream draw payload w1) = Ok sent /\ Forall (fun '(p, _) => p = a1) sent /\
    fst (Worker.on_upstream draw payload w2) = Ok ((fun '(_, wire) => (a2, wire)) <$> sent).
Proof.
  intros (Hd & Hs & He & Hc & Hv & Hk & Hss) Hid w1.
  assert (Decoder.session (Worker.decoder w) = Frame.session f) as Hsf.
  { rewrite Hs. unfold Worker.same_identity in Hid. bool_to_prop. done. }
  pose proof (take_frame_window clk f (Worker.decoder w) (Worker.encoder w) Hsf) as Hwin.
  pose proof (take_frame_encoder clk f (Worker.decoder w) (Worker.encoder w) He Hc) as Henc.
  unfold w1, Worker.on_packet. cbn [Worker.runtime Worker.decoder Worker.encoder Worker.peer]. rewrite Hid. cbn [negb].
  destruct (take_frame clk f (Worker.decoder w) (Worker.encoder w)) as [[out1 d1] e1]. destruct Hwin as [Hs1 Hw1].
  cbn [snd Worker.runtime Worker.decoder Worker.encoder Worker.peer Worker.last_logged_parity]. rewrite Hid. cbn [negb].
  pose proof (take_frame_duplicate clk' f d1 e1 ltac:(congruence)) as Hdup.
  rewrite Hw1, Window.observe_twice in Hdup by apply Hd. specialize (Hdup eq_refl).
  destruct (take_frame clk' f d1 e1) as [[out2 d2] e2]. destruct Hdup as (-> & -> & Hg & Hp).
  split_and!; [done..|]. intros draw payload.
  destruct (datagram_ok (Worker.runtime w) (Worker.decoder w) e1 payload) as (fs & r & e' & Hstep & Hr & _).
  { destruct Henc as (He1 & Hc1 & Hv1 & Hk1 & Hss1). unfold ends_ok. split_and!; (done || congruence). }
  unfold Worker.on_upstream. cbn [Worker.peer Worker.encoder]. rewrite Hstep, Hr.
  eexists. split; [reflexivity|]. unfold Worker.to_peer. cbn.
  split; [by apply Forall_fmap, Forall_true|]. by rewrite <- list_fmap_compose.
Qed.

Definition demo_identity : identity := mk_identity sample_key VERSION_V3 42 77.
Definition demo_report : Frame.t := Frame.mk VERSION_V3 42 KIND_REPORT 77 1 0 0 0 0 (u32_be 0).
Definition demo_worker : Worker.t N := Worker.start (Some 1%nat) demo_identity.
Definition demo_payload : bytes := replicate (N.to_nat 13000) x61.
Definition demo_draw : nat -> bytes * bytes := fun _ => (replicate 24 x01, replicate 4 x02).
Definition demo_hijacked : Worker.t N :=
  snd (Worker.on_packet (R := xor_code) (fun _ => 9) demo_report 2
    (snd (Worker.on_packet (R := xor_code) (fun _ => 5) demo_report 1 demo_worker))).

Lemma replay_redirects_witness :
  exists sent, fst (Worker.on_upstream (C := toy_crypto) (R := xor_code) demo_draw demo_payload demo_hijacked) = Ok sent /\
    Forall (fun '(p, _) => p = 2) sent /\ length sent = 11%nat.
Proof.
  pose proof (replay_redirects N toy_crypto xor_code xor_code_shape (fun _ => 5) (fun _ => 9) demo_report 1 2 demo_worker) as H.
  cbv zeta in H. fold demo_hijacked in H.
  assert (demo_hijacked = snd (Worker.on_packet (R := xor_code) (fun _ => 9) demo_report 2
    (snd (Worker.on_packet (R := xor_code) (fun _ => 5) demo_report 1 demo_worker)))) as Hw by reflexivity.
  destruct (Worker.on_packet (fun _ => 9) demo_report 2 _) as [out w2]. cbn [snd] in Hw.
  destruct H as (_ & _ & _ & _ & H).
  - apply start_ok; [done..|]. apply Encoder.xor_codes.
  - reflexivity.
  - destruct (H demo_draw demo_payload) as (sent & _ & _ & Hsent). rewrite <- Hw in Hsent.
    eexists. split; [exact Hsent|]. split; [apply Forall_fmap, Forall_forall; by intros []|].
    assert (match fst (Worker.on_upstream (C := toy_crypto) (R := xor_code) demo_draw demo_payload demo_hijacked) with
      Ok l => length l | _ => 0%nat end = 11%nat) as Hlen by (vm_compute; reflexivity).
    rewrite Hsent in Hlen. exact Hlen.
Defined.
