(* ===== verification/Server.v ===== *)
(** * The multi-user server (src/src/main.rs: [server], [superseded_sessions])

    The session table maps a device and a session number to the session's
    worker, its bounded input queue and the time it was last seen.  A datagram
    from the public socket is admitted by [admit_session] and queued; workers take
    packets from their queues, and the clean-up tick removes idle or finished
    sessions.  The interleaving of the receive loop, the workers and the timers
    is any sequence of [event]s.  A session's [task] is its worker's state;
    [Aborted] tasks disappear with their entry. *)
From S2P Require Import Prelude External Wire Adaptive Fragment Encoder Window Group Reassembly Decoder Session.

Definition MAX_V2_SESSIONS_PER_DEVICE : nat := 16.
Definition MAX_V1_MIGRATION_SESSIONS : nat := 64.
Definition SESSION_TAKEOVER_MAX_SEQUENCE : N := 32.
Definition QUEUE : nat := N.to_nat 256.

(** [superseded_sessions] *)
Definition superseded_sessions {T} (sessions : gmap (N * N) T) (key_id session sequence : N)
    : option (list (N * N)) :=
  let existing := filter (fun '(id, current) => id = key_id /\ current <> session) (map_to_list sessions).*1 in
  match existing with
  | [] => Some existing
  | _ => if sequence <=? SESSION_TAKEOVER_MAX_SEQUENCE then Some existing else None
  end.

Module Server.
Section server.
Context {Addr : Type} {C : Crypto} {R : ErasureCode}.

(** [struct SessionPacket], [struct SessionEntry] *)
Record packet := mk_packet {
  frame : Frame.t;
  peer : Addr;
}.

Record entry := mk_entry {
  worker : Worker.t Addr;
  queue : list packet;
  last_seen : N;
  finished : bool;
}.

Abbreviation table := (gmap (N * N) entry).

(** The keys, the limits and the device's build the server runs with. *)
Record config := mk_config {
  legacy_key : option bytes;
  keyring : gmap N bytes;
  selectors : gmap bytes (N * bytes);
  max_sessions : nat;
  idle : N;
  env : option nat;
}.

(** [server]'s checks and its selector table: a collision is refused. *)
Definition insert_selector (acc : result (gmap bytes (N * bytes))) (e : N * bytes)
    : result (gmap bytes (N * bytes)) :=
  selectors ← acc;
  let prefix := Frame.v3_selector_prefix (fst e) in
  if bool_decide (selectors !! prefix <> None) then Err "keyring contains a V3 selector collision"%string
  else Ok (<[prefix := e]> selectors).

Definition configure (legacy_key : option bytes) (keyring : gmap N bytes) (max_sessions : nat)
    (session_idle_secs : N) (env : option nat) : result config :=
  if (max_sessions =? 0)%nat || (N.to_nat 65536 <? max_sessions)%nat
  then Err "max-sessions must be between 1 and 65536"%string else
  if negb ((10 <=? session_idle_secs) && (session_idle_secs <=? 86400))
  then Err "session-idle-secs must be between 10 and 86400"%string else
  if bool_decide (legacy_key = None) && bool_decide (keyring = ∅)
  then Err "server requires --key for V1 migration and/or --keyring for V2"%string else
  selectors ← foldl insert_selector (Ok ∅) (map_to_list keyring);
  Ok (mk_config legacy_key keyring selectors max_sessions (session_idle_secs * NANOS) env).

Section run.
Context (cfg : config).

Definition is_v2_or_v3 (version : N) : bool := (version =? VERSION_V2) || (version =? VERSION_V3).

(** [sessions.keys().filter(|(id, _)| *id == key_id).count()] *)
Definition count_of (key_id : N) (sessions : table) : nat :=
  length (filter (fun '(id, _) => id = key_id) (map_to_list sessions).*1).

(** Remove the superseded sessions, aborting their tasks. *)
Definition remove_all (ids : list (N * N)) (sessions : table) : table :=
  foldl (fun m id => delete id m) sessions ids.

(** The block run when the frame's session is not in the table: the
    table after it, and whether the loop goes on to queue the frame
    ([continue] otherwise). *)
Definition admit_session (now : N) (f : Frame.t) (device_key : bytes) (sessions : table) : bool * table :=
  match (if is_v2_or_v3 (Frame.version f)
         then superseded_sessions sessions (Frame.key_id f) (Frame.session f) (Frame.sequence f)
         else Some []) with
  | None => (false, sessions)
  | Some superseded =>
      let sessions := remove_all superseded sessions in
      if (max_sessions cfg <=? size sessions)%nat then (false, sessions) else
      if (Frame.version f =? VERSION_V1) && (MAX_V1_MIGRATION_SESSIONS <=? count_of 0 sessions)%nat
      then (false, sessions) else
      if is_v2_or_v3 (Frame.version f) && (MAX_V2_SESSIONS_PER_DEVICE <=? count_of (Frame.key_id f) sessions)%nat
      then (false, sessions) else
      let runtime := mk_identity device_key (Frame.version f) (Frame.key_id f) (Frame.session f) in
      (true, <[(Frame.key_id f, Frame.session f) := mk_entry (Worker.start (env cfg) runtime) [] now false]> sessions)
  end.

(** [try_send]: a full queue, or a worker that has stopped, sheds the packet. *)
Definition try_send (p : packet) (e : entry) : entry :=
  if finished e || (QUEUE <=? length (queue e))%nat then e
  else mk_entry (worker e) (queue e ++ [p]) (last_seen e) (finished e).

(** [public.recv_from(..)].  A datagram that does not decode is skipped; decoding
    never panics, whatever the datagram ([decode_server_no_panic]). *)
Definition on_public (now : N) (from : Addr) (buf : bytes) (sessions : table) : table :=
  match decode_server_frame buf (legacy_key cfg) (keyring cfg) (selectors cfg) with
  | Ok (f, device_key) =>
      let session_key := (Frame.key_id f, Frame.session f) in
      let '(go_on, sessions) :=
        if bool_decide (sessions !! session_key = None) then admit_session now f device_key sessions
        else (true, sessions) in
      if negb go_on then sessions else
      match sessions !! session_key with
      | Some e => <[session_key := try_send (mk_packet f from)
                      (mk_entry (worker e) (queue e) now (finished e))]> sessions
      | None => sessions
      end
  | _ => sessions
  end.

(** [cleanup.tick()] *)
Definition cleanup (now : N) (sessions : table) : table :=
  filter (fun '(_, e) => finished e = false /\ now - last_seen e < idle cfg) sessions.

(** What can happen, in any order: a datagram, a clean-up tick, and in the
    worker of one session a packet taken from its queue, a datagram from
    upstream, a report or flush tick, or its end. *)
Inductive event :=
| Public (now : N) (from : Addr) (buf : bytes)
| Cleanup (now : N)
| Take (id : N * N) (clk : nat -> N)
| FromUpstream (id : N * N) (now : N) (draw : nat -> bytes * bytes) (payload : bytes)
| Report (id : N * N) (draw : nat -> bytes * bytes)
| Flush (id : N * N) (draw : nat -> bytes * bytes)
| Stop (id : N * N).

(** What leaves the server, besides its log. *)
Inductive output :=
| ToUpstream (id : N * N) (datagram : bytes)
| ToPublic (peer : Addr) (wire : bytes).

(** The task has ended: its receiver is gone with what it held. *)
Definition stopped (e : entry) : entry := mk_entry (worker e) [] (last_seen e) true.

(** What a worker's handler leaves: a panic ends its task. *)
Definition settle {A} (sends : list A -> list output) (r : result (list A)) (e : entry) : list output * entry :=
  match r with Ok out => (sends out, e) | _ => ([], stopped e) end.

Definition set_worker x (e : entry) := mk_entry x (queue e) (last_seen e) (finished e).

(** An event of the worker of session [id], if it is alive. *)
Definition at_worker (id : N * N) (k : entry -> list output * entry) (sessions : table) : list output * table :=
  match sessions !! id with
  | Some e => if finished e then ([], sessions) else let '(out, e) := k e in (out, <[id := e]> sessions)
  | None => ([], sessions)
  end.

Definition public_outputs (l : list (Addr * bytes)) : list output := (fun '(p, b) => ToPublic p b) <$> l.

Definition step (ev : event) (sessions : table) : list output * table :=
  match ev with
  | Public now from buf => ([], on_public now from buf sessions)
  | Cleanup now => ([], cleanup now sessions)
  | Take id clk => at_worker id (fun e =>
      match queue e with
      | [] => ([], e)
      | p :: q =>
          let '(r, w) := Worker.on_packet clk (frame p) (peer p) (worker e) in
          settle (fmap (ToUpstream id)) r (mk_entry w q (last_seen e) (finished e))
      end) sessions
  | FromUpstream id now draw payload => at_worker id (fun e =>
      match Worker.peer (worker e) with
      | None => ([], e)
      | Some _ =>
          let '(r, w) := Worker.on_upstream draw payload (worker e) in
          settle public_outputs r (mk_entry w (queue e) now (finished e))
      end) sessions
  | Report id draw => at_worker id (fun e =>
      let '(r, w) := Worker.on_report draw (worker e) in
      settle public_outputs r (set_worker w e)) sessions
  | Flush id draw => at_worker id (fun e =>
      let '(r, w) := Worker.on_flush draw (worker e) in
      settle public_outputs r (set_worker w e)) sessions
  | Stop id => at_worker id (fun e => ([], stopped e)) sessions
  end.

Fixpoint run (evs : list event) (sessions : table) : list output * table :=
  match evs with
  | [] => ([], sessions)
  | ev :: evs =>
      let '(out, sessions) := step ev sessions in
      let '(rest, sessions) := run evs sessions in
      (out ++ rest, sessions)
  end.
End run.
End server.
Arguments packet : clear implicits.
Arguments entry : clear implicits.
Arguments event : clear implicits.
Arguments output : clear implicits.
End Server.

(** ** Admission *)
Import Server.

Section admission.
Context {Addr : Type} {C : Crypto} {R : ErasureCode}.

(** The sessions of other devices. *)
Definition others {T} (key_id : N) (sessions : gmap (N * N) T) : gmap (N * N) T :=
  filter (fun '(k, _) => fst k <> key_id) sessions.

(** The device has a session in the table. *)
Definition owns {T} (key_id : N) (sessions : gmap (N * N) T) : bool :=
  bool_decide (Exists (fun k => fst k = key_id) (map_to_list sessions).*1).

Lemma elem_of_keys {T} (m : gmap (N * N) T) k : k ∈ (map_to_list m).*1 <-> is_Some (m !! k).
Proof.
  rewrite list_elem_of_fmap. split.
  - intros ([k' v] & -> & H%elem_of_map_to_list). by exists v.
  - intros [v H]. exists (k, v). split; [done|by apply elem_of_map_to_list].
Qed.

Lemma lookup_remove_all (ids : list (N * N)) (m : gmap (N * N) (entry Addr)) (k : N * N) :
  remove_all ids m !! k = if bool_decide (k ∈ ids) then None else m !! k.
Proof.
  revert m. induction ids as [|id ids IH]; intros m; [done|].
  change (remove_all (id :: ids) m) with (remove_all ids (delete id m)). rewrite IH.
  destruct (decide (k = id)) as [->|Hne].
  - rewrite (bool_decide_true (id ∈ id :: ids)) by left. case_bool_decide; [done|apply lookup_delete_eq].
  - rewrite lookup_delete_ne by done.
    assert (bool_decide (k ∈ id :: ids) = bool_decide (k ∈ ids)) as -> by (apply bool_decide_ext; set_solver).
    done.
Qed.

(** The sessions [superseded_sessions] names, when the frame's own session is
    not in the table: all of the device's. *)
Lemma remove_superseded (m : gmap (N * N) (entry Addr)) key_id session :
  m !! (key_id, session) = None ->
  remove_all (filter (fun '(id, current) => id = key_id /\ current <> session) (map_to_list m).*1) m
  = others key_id m.
Proof.
  intros Hnone. apply map_eq. intros [id current]. rewrite lookup_remove_all.
  case_bool_decide as Hin.
  - apply list_elem_of_filter in Hin as [[-> _] _]. symmetry. apply map_lookup_filter_None. right.
    intros e _ H. by apply H.
  - destruct (m !! (id, current)) as [e|] eqn:He; symmetry.
    + apply map_lookup_filter_Some. split; [done|]. cbn. intros ->. apply Hin.
      apply list_elem_of_filter. split; [split; [done|]|by apply elem_of_keys; eexists].
      intros ->. congruence.
    + apply map_lookup_filter_None. by left.
Qed.

Lemma owns_spec {T} (m : gmap (N * N) T) key_id :
  owns key_id m = true <-> exists current, is_Some (m !! (key_id, current)).
Proof.
  unfold owns. rewrite bool_decide_eq_true, Exists_exists. split.
  - intros ([id current] & Hin & <-). exists current. by apply elem_of_keys.
  - intros (current & H). exists (key_id, current). split; [by apply elem_of_keys|done].
Qed.

Lemma others_all {T} (m : gmap (N * N) T) key_id : owns key_id m = false -> others key_id m = m.
Proof.
  intros H. apply map_eq. intros [id current]. destruct (m !! (id, current)) as [e|] eqn:He.
  - apply map_lookup_filter_Some. split; [done|]. cbn. intros ->.
    assert (owns key_id m = true) by (apply owns_spec; by exists current, e). congruence.
  - apply map_lookup_filter_None. by left.
Qed.

Lemma superseded_none (m : gmap (N * N) (entry Addr)) key_id session :
  m !! (key_id, session) = None ->
  filter (fun '(id, current) => id = key_id /\ current <> session) (map_to_list m).*1 = [] <->
  owns key_id m = false.
Proof.
  intros Hnone. split.
  - intros H. apply not_true_iff_false. rewrite owns_spec. intros (current & e & He).
    apply (not_elem_of_nil (key_id, current)). rewrite <- H. apply list_elem_of_filter.
    split; [split; [done|]|by apply elem_of_keys; eexists]. intros ->. congruence.
  - intros H. apply filter_none. intros [id current] Hin [-> _]. apply elem_of_keys in Hin.
    assert (owns key_id m = true) by (apply owns_spec; by exists current). congruence.
Qed.

Lemma count_others (m : gmap (N * N) (entry Addr)) key_id : count_of key_id (others key_id m) = 0%nat.
Proof.
  unfold count_of. rewrite filter_none; [done|]. intros [id current] Hin ->. apply elem_of_keys in Hin as [e He].
  apply map_lookup_filter_Some in He as [_ He]. by apply He.
Qed.

(** The entry of a session that has just been admitted. *)
Definition fresh_entry (cfg : config) (now : N) (f : Frame.t) (key : bytes) : entry Addr :=
  mk_entry (Worker.start (env cfg) (mk_identity key (Frame.version f) (Frame.key_id f) (Frame.session f))) [] now false.

(** Admission of a V3 frame whose session is not in the table. *)
Lemma admit_spec (cfg : config) (now : N) (f : Frame.t) (key : bytes) (m : gmap (N * N) (entry Addr)) :
  Frame.version f = VERSION_V3 -> m !! (Frame.key_id f, Frame.session f) = None ->
  admit_session cfg now f key m =
    if owns (Frame.key_id f) m && (SESSION_TAKEOVER_MAX_SEQUENCE <? Frame.sequence f)
    then (false, m)
    else if (max_sessions cfg <=? size (others (Frame.key_id f) m))%nat then (false, others (Frame.key_id f) m)
    else (true, <[(Frame.key_id f, Frame.session f) := fresh_entry cfg now f key]> (others (Frame.key_id f) m)).
Proof.
  intros Hv Hnone. unfold admit_session, superseded_sessions. rewrite Hv. cbn [is_v2_or_v3].
  change (is_v2_or_v3 VERSION_V3) with true. change (VERSION_V3 =? VERSION_V1) with false. cbn [andb].
  pose proof (remove_superseded m _ _ Hnone) as Hrem. pose proof (superseded_none m _ _ Hnone) as Hnil.
  rewrite <- Hv. fold (fresh_entry cfg now f key).
  set (existing := filter _ _) in *. destruct existing as [|id ids] eqn:Ee.
  - rewrite (proj1 Hnil) by done. cbn [andb]. rewrite Hrem, count_others.
    by destruct (_ <=? _)%nat.
  - assert (owns (Frame.key_id f) m = true) as ->
      by (apply not_false_iff_true; intros H; by apply Hnil in H). cbn [andb].
    destruct (N.ltb_spec SESSION_TAKEOVER_MAX_SEQUENCE (Frame.sequence f)) as [Hlt|Hle].
    + by rewrite (proj2 (N.leb_gt _ _)).
    + rewrite (proj2 (N.leb_le _ _)) by done. rewrite Hrem, count_others. by destruct (_ <=? _)%nat.
Qed.

(** [on_public] on a datagram the server accepts. *)
Lemma on_public_spec (cfg : config) (now : N) (from : Addr) (buf : bytes) (f : Frame.t) (key : bytes) (m : gmap (N * N) (entry Addr)) :
  decode_server_frame buf (legacy_key cfg) (keyring cfg) (selectors cfg) = Ok (f, key) ->
  Frame.version f = VERSION_V3 ->
  let id := (Frame.key_id f, Frame.session f) in
  let queued e := try_send (mk_packet f from) (mk_entry (worker e) (queue e) now (finished e)) in
  on_public cfg now from buf m =
    match m !! id with
    | Some e => <[id := queued e]> m
    | None =>
        if owns (Frame.key_id f) m && (SESSION_TAKEOVER_MAX_SEQUENCE <? Frame.sequence f)
        then m
        else if (max_sessions cfg <=? size (others (Frame.key_id f) m))%nat then others (Frame.key_id f) m
        else <[id := queued (fresh_entry cfg now f key)]> (others (Frame.key_id f) m)
    end.
Proof.
  intros Hd Hv id queued. unfold on_public. rewrite Hd. fold id.
  destruct (m !! id) as [e|] eqn:He.
  - rewrite bool_decide_false by done. cbn [negb]. by rewrite He.
  - rewrite bool_decide_true by done. rewrite admit_spec by done.
    destruct (_ && _); cbn [negb]; [done|]. destruct (_ <=? _)%nat; cbn [negb]; [done|].
    rewrite lookup_insert_eq. by rewrite insert_insert_eq.
Qed.
End admission.

(** ** Invariant *)
Section invariant.
Context {Addr : Type} {C : Crypto} {L : CryptoLaws C} {R : ErasureCode} {S : ErasureShape R}.
Context (cfg : config).

(** The server's selector table holds 64-bit device numbers under their own
    selectors, and the code works for every group its encoders form. *)
Definition config_ok : Prop :=
  (forall prefix id k, selectors cfg !! prefix = Some (id, k) ->
    prefix = Frame.v3_selector_prefix id /\ id < U64) /\
  Encoder.codes R (default MAX_PARITY ((fun p => p `min` MAX_PARITY)%nat <$> env cfg)) /\
  (0 < max_sessions cfg)%nat.

(** A frame of session [id]. *)
Definition of_device (id : N * N) (f : Frame.t) : Prop :=
  Frame.wf f /\ Frame.version f = VERSION_V3 /\ Frame.key_id f = fst id /\ Frame.session f = snd id.

(** One session: a well-formed worker under the device's own key and number,
    and a bounded queue of frames of this session only. *)
Definition entry_ok (id : N * N) (e : entry Addr) : Prop :=
  worker_ok (worker e) /\
  id_key_id (Worker.runtime (worker e)) = fst id /\ id_session (Worker.runtime (worker e)) = snd id /\
  id_version (Worker.runtime (worker e)) = VERSION_V3 /\
  selectors cfg !! Frame.v3_selector_prefix (fst id) = Some (fst id, id_key (Worker.runtime (worker e))) /\
  (length (queue e) <= QUEUE)%nat /\ Forall (fun p => of_device id (frame p)) (queue e).

(** At most [max_sessions] sessions, at most one per device, each well formed. *)
Definition server_inv (m : gmap (N * N) (entry Addr)) : Prop :=
  (size m <= max_sessions cfg)%nat /\
  (forall k k', is_Some (m !! k) -> is_Some (m !! k') -> fst k = fst k' -> k = k') /\
  map_Forall entry_ok m.

Lemma server_inv_subset (m m' : gmap (N * N) (entry Addr)) : m' ⊆ m -> server_inv m -> server_inv m'.
Proof.
  intros Hsub (Hs & Hu & HF). split_and!.
  - etrans; [by apply map_subseteq_size|done].
  - intros k k' [e He] [e' He']. apply Hu; eexists; by eapply lookup_weaken.
  - intros k e He. apply HF. by eapply lookup_weaken.
Qed.

Lemma server_inv_update (m : gmap (N * N) (entry Addr)) id e e' :
  server_inv m -> m !! id = Some e -> entry_ok id e' -> server_inv (<[id := e']> m).
Proof.
  intros (Hs & Hu & HF) He Hok. split_and!.
  - by rewrite map_size_insert_Some by (by eexists).
  - intros k k'. rewrite !lookup_insert_is_Some'. intros Hk Hk'. apply Hu.
    + destruct Hk as [<-|]; [by eexists|done].
    + destruct Hk' as [<-|]; [by eexists|done].
  - by apply map_Forall_insert_2.
Qed.

Lemma decode_server_inv buf f key :
  config_ok -> decode_server_frame buf (legacy_key cfg) (keyring cfg) (selectors cfg) = Ok (f, key) ->
  of_device (Frame.key_id f, Frame.session f) f /\
  selectors cfg !! Frame.v3_selector_prefix (Frame.key_id f) = Some (Frame.key_id f, key).
Proof.
  intros (Hids & _) H. unfold decode_server_frame in H. destruct (negb _); [|discriminate H].
  case_guard H as Hlen. case_res H as pre Epre. case_res H as [id k] Esel. case_res H as f' Ef.
  apply Ok_inj in H as [= -> ->].
  destruct (selectors cfg !! pre) as [[id' k']|] eqn:Hsel; [|discriminate Esel].
  cbn [context] in Esel. apply Ok_inj in Esel as [= -> ->].
  apply decode_v3_inv in Ef as (Hwf & Hv & Hid & _); [|by eapply Hids].
  split; [by split_and!|]. rewrite Hid. destruct (Hids _ _ _ Hsel) as [<- _]. exact Hsel.
Qed.

(** What a device sealed: a datagram that is the V3 envelope of a frame of device
    [k] under the key the server has for [k]. *)
Definition sealed_by (k : N) (key buf : bytes) (f : Frame.t) : Prop :=
  Frame.key_id f = k /\ selectors cfg !! Frame.v3_selector_prefix k = Some (k, key) /\
  exists nonce suffix, length nonce = V3_NONCE /\ length suffix = V3_SELECTOR_PREFIX /\
    Frame.encode_wire f key nonce suffix = Ok buf.

(** An accepted datagram was sealed under its device's key. *)
Lemma decode_server_sealed buf f key :
  config_ok -> decode_server_frame buf (legacy_key cfg) (keyring cfg) (selectors cfg) = Ok (f, key) ->
  sealed_by (Frame.key_id f) key buf f.
Proof.
  intros Hcfg H. destruct (decode_server_inv buf f key Hcfg H) as [(Hwf & _) Hsel]. split; [done|]. split; [done|].
  destruct Hcfg as (Hids & _). unfold decode_server_frame in H. destruct (negb _); [|discriminate H].
  case_guard H as Hlen. case_res H as pre Epre. case_res H as [id k] Esel. case_res H as f' Ef.
  apply Ok_inj in H as [= -> ->].
  destruct (selectors cfg !! pre) as [[id' k']|] eqn:Hpre; [|discriminate Esel].
  cbn [context] in Esel. apply Ok_inj in Esel as [= -> ->].
  by apply decode_v3_inv in Ef as (_ & _ & _ & Henc); [|by eapply Hids].
Qed.

(** A datagram of another device, or of none, leaves session [id] alone. *)
Lemma on_public_frame (now : N) (from : Addr) (buf : bytes) (m : gmap (N * N) (entry Addr)) :
  config_ok ->
  match decode_server_frame buf (legacy_key cfg) (keyring cfg) (selectors cfg) with
  | Ok (f, key) => forall id, fst id <> Frame.key_id f -> on_public cfg now from buf m !! id = m !! id
  | _ => on_public cfg now from buf m = m
  end.
Proof.
  intros Hcfg.
  destruct (decode_server_frame buf (legacy_key cfg) (keyring cfg) (selectors cfg)) as [[f key]|e|] eqn:Hd.
  2, 3: unfold on_public; by rewrite Hd.
  intros [k s] Hne. cbn [fst] in Hne. destruct (decode_server_inv buf f key Hcfg Hd) as [(_ & Hv & _) _].
  rewrite (on_public_spec cfg now from buf f key m Hd Hv). cbn zeta.
  assert (others (Frame.key_id f) m !! (k, s) = m !! (k, s)) as Ho.
  { destruct (m !! (k, s)) as [e|] eqn:He; [by apply map_lookup_filter_Some|].
    apply map_lookup_filter_None. by left. }
  destruct (m !! (Frame.key_id f, Frame.session f)) as [e|].
  - rewrite lookup_insert_ne by congruence. done.
  - destruct (_ && _); [done|]. destruct (_ <=? _)%nat; [done|]. rewrite lookup_insert_ne by congruence. done.
Qed.

Lemma try_send_ok id p e : entry_ok id e -> of_device id (frame p) -> entry_ok id (try_send p e).
Proof.
  intros He Hp. unfold try_send. destruct (finished e || (QUEUE <=? length (queue e))%nat) eqn:Hfull; [done|].
  bool_to_prop. destruct He as (Hw & Hk & Hs & Hv & Hsel & Hq & HF). unfold entry_ok.
  cbn [worker queue]. split_and!; try done.
  - rewrite length_app. cbn [length]. lia.
  - apply Forall_app. by split; [|constructor].
Qed.

Lemma on_public_inv now from buf m : config_ok -> server_inv m -> server_inv (on_public cfg now from buf m).
Proof.
  intros Hcfg Hm.
  destruct (decode_server_frame buf (legacy_key cfg) (keyring cfg) (selectors cfg)) as [[f key]|e|] eqn:Hd.
  2, 3: unfold on_public; by rewrite Hd.
  destruct (decode_server_inv buf f key Hcfg Hd) as [Hf Hsel]. pose proof Hf as (Hwf & Hv & _ & _).
  rewrite (on_public_spec cfg now from buf f key m Hd Hv). cbn zeta.
  destruct (m !! (Frame.key_id f, Frame.session f)) as [e|] eqn:He.
  - eapply server_inv_update; [done|exact He|]. apply try_send_ok; [|done].
    destruct Hm as (_ & _ & HF). exact (HF _ _ He).
  - destruct (_ && _); [done|].
    assert (server_inv (others (Frame.key_id f) m)) as Ho
      by (eapply server_inv_subset; [apply map_filter_subseteq|done]).
    destruct (Nat.leb_spec (max_sessions cfg) (size (others (Frame.key_id f) m))) as [|Hroom]; [done|].
    destruct Ho as (_ & Hu & HF). split_and!.
    + rewrite map_size_insert. destruct (others (Frame.key_id f) m !! _); cbn [id]; unfold id; lia.
    + intros k k'. rewrite !lookup_insert_is_Some'.
      assert (forall k, is_Some (others (Frame.key_id f) m !! k) -> fst k <> Frame.key_id f) as Hne
        by (intros k0 [e0 He0]; by apply map_lookup_filter_Some in He0 as [_ ?]).
      intros [<-|Hk] [<-|Hk'] Heq; [done| | |by apply Hu].
      * by destruct (Hne _ Hk').
      * by destruct (Hne _ Hk).
    + apply map_Forall_insert_2; [|done]. apply try_send_ok; [|done].
      destruct Hwf as (? & ? & ? & ? & _). destruct Hcfg as (_ & Hcodes & _). unfold entry_ok. cbn [worker queue fresh_entry].
      split_and!; try done; [by apply start_ok|apply Nat.le_0_l].
Qed.

Lemma at_worker_inv (id : N * N) (k : entry Addr -> list (output Addr) * entry Addr) (m : gmap (N * N) (entry Addr)) :
  server_inv m -> (forall e, entry_ok id e -> entry_ok id (snd (k e))) -> server_inv (snd (at_worker id k m)).
Proof.
  intros Hm Hk. unfold at_worker. destruct (m !! id) as [e|] eqn:He; [|done].
  destruct (finished e); [done|]. specialize (Hk e (proj2 (proj2 Hm) _ _ He)).
  destruct (k e) as [out e']. cbn [snd] in *. by eapply server_inv_update.
Qed.

Lemma entry_keeps {A} id e (r : result A) w q ls fin :
  entry_ok id e -> keeps (worker e) (r, w) -> (length q <= QUEUE)%nat -> Forall (fun p => of_device id (frame p)) q ->
  (exists out, r = Ok out) /\ entry_ok id (mk_entry w q ls fin).
Proof.
  intros (Hw & Hk & Hs & Hv & Hsel & _ & _) (Hr & Hrt & Hok) Hq HF. split; [done|]. unfold entry_ok. cbn [worker queue].
  cbn [snd] in Hrt, Hok. rewrite Hrt. by split_and!.
Qed.

(** The session in whose worker an event happens. *)
Definition actor (ev : event Addr) : option (N * N) :=
  match ev with
  | Public _ _ _ | Cleanup _ => None
  | Take id _ | FromUpstream id _ _ _ | Report id _ | Flush id _ | Stop id => Some id
  end.

(** The handler of a worker's event, and its result: it never panics, and ends
    the task only if it is told to. *)
Definition handles (ev : event Addr) (id : N * N) (k : entry Addr -> list (output Addr) * entry Addr) : Prop :=
  (forall m, step cfg ev m = at_worker id k m) /\
  forall e, entry_ok id e -> entry_ok id (snd (k e)) /\ (finished (snd (k e)) = finished e \/ ev = Stop id).

Lemma worker_event ev id : actor ev = Some id -> exists k, handles ev id k.
Proof.
  intros Hact. destruct ev as [| |id0 clk|id0 now draw payload|id0 draw|id0 draw|id0]; [done|done|..];
    injection Hact as ->; eexists; (split; [reflexivity|]); intros e He; pose proof He as (Hw & _ & _ & _ & _ & Hq & HF).
  - destruct (queue e) as [|p q] eqn:Eq; [by split; [|left]|]. inversion HF as [|? ? Hp HF']; subst.
    destruct Hp as ((_ & _ & _ & _ & Hseq & _) & _).
    pose proof (on_packet_keeps clk (frame p) (peer p) (worker e) Hw Hseq) as Hkeep.
    destruct (Worker.on_packet _ _ _ _) as [r w].
    destruct (entry_keeps id e r w q (last_seen e) (finished e) He Hkeep) as [[out ->] Hok];
      [cbn [length] in Hq; lia|done|]. by split; [|left].
  - destruct (Worker.peer (worker e)); [|by split; [|left]].
    pose proof (on_upstream_keeps draw payload (worker e) Hw) as Hkeep.
    destruct (Worker.on_upstream _ _ _) as [r w].
    destruct (entry_keeps id e r w (queue e) now (finished e) He Hkeep Hq HF) as [[out ->] Hok]. by split; [|left].
  - pose proof (on_report_keeps draw (worker e) Hw) as Hkeep. destruct (Worker.on_report _ _) as [r w].
    destruct (entry_keeps id e r w (queue e) (last_seen e) (finished e) He Hkeep Hq HF) as [[out ->] Hok].
    by split; [|left].
  - pose proof (on_flush_keeps draw (worker e) Hw) as Hkeep. destruct (Worker.on_flush _ _) as [r w].
    destruct (entry_keeps id e r w (queue e) (last_seen e) (finished e) He Hkeep Hq HF) as [[out ->] Hok].
    by split; [|left].
  - split; [|by right]. destruct He as (? & ? & ? & ? & ? & _). by split_and!; [..|apply Nat.le_0_l|constructor].
Qed.

Lemma server_step_inv ev m : config_ok -> server_inv m -> server_inv (snd (step cfg ev m)).
Proof.
  intros Hcfg Hm. destruct (actor ev) as [id|] eqn:Hact.
  - destruct (worker_event ev id Hact) as (k & -> & Hk). apply at_worker_inv; [done|]. intros e He. by apply Hk.
  - destruct ev as [now from buf|now| | | | |]; [by apply on_public_inv| |done..].
    eapply server_inv_subset; [apply map_filter_subseteq|done].
Qed.

Lemma server_run_inv evs m : config_ok -> server_inv m -> server_inv (snd (run cfg evs m)).
Proof.
  intros Hcfg. revert m. induction evs as [|ev evs IH]; intros m Hm; [done|]. cbn [run].
  pose proof (server_step_inv ev m Hcfg Hm) as H1. destruct (step cfg ev m) as [out m1]. cbn [snd] in H1.
  specialize (IH m1 H1). by destruct (run cfg evs m1).
Qed.

(** A task ends only by its own [Stop]. *)
Lemma step_finished ev m id e' :
  config_ok -> server_inv m -> snd (step cfg ev m) !! id = Some e' -> finished e' = true ->
  (exists e, m !! id = Some e /\ finished e = true) \/ ev = Stop id.
Proof.
  intros Hcfg Hm He' Hfin. destruct (actor ev) as [id0|] eqn:Hact.
  - destruct (worker_event ev id0 Hact) as (k & Hs & Hk). rewrite Hs in He'. unfold at_worker in He'.
    destruct (m !! id0) as [e|] eqn:He; [|left; by exists e'].
    destruct (finished e) eqn:Hfe; [left; by exists e'|].
    destruct (Hk e (proj2 (proj2 Hm) _ _ He)) as [_ Hkf]. destruct (k e) as [out e1]. cbn [snd] in *.
    apply lookup_insert_Some in He' as [[-> ->]|[_ He']]; [|left; by exists e'].
    destruct Hkf as [Hkf|]; [congruence|by right].
  - left. destruct ev as [now from buf|now| | | | |]; [|cbn in He'; apply map_lookup_filter_Some in He' as [_ []]; congruence|done..].
    cbn [step snd] in He'.
    destruct (decode_server_frame buf (legacy_key cfg) (keyring cfg) (selectors cfg)) as [[f key]|er|] eqn:Hd.
    2, 3: unfold on_public in He'; rewrite Hd in He'; by exists e'.
    destruct (decode_server_inv buf f key Hcfg Hd) as [(_ & Hv & _) _].
    rewrite (on_public_spec cfg now from buf f key m Hd Hv) in He'. cbn zeta in He'.
    assert (forall e0 : entry Addr, finished (try_send (mk_packet f from) (mk_entry (worker e0) (queue e0) now (finished e0))) = finished e0) as Hts.
    { intros e0. unfold try_send. by destruct (_ || _). }
    destruct (m !! (Frame.key_id f, Frame.session f)) as [e0|] eqn:He0.
    + apply lookup_insert_Some in He' as [[<- <-]|[_ He']]; [|by exists e']. exists e0. by rewrite Hts in Hfin.
    + destruct (_ && _); [by exists e'|]. destruct (_ <=? _)%nat.
      * apply map_lookup_filter_Some in He' as [? _]. by exists e'.
      * apply lookup_insert_Some in He' as [[<- <-]|[_ He']]; [by rewrite Hts in Hfin|].
        apply map_lookup_filter_Some in He' as [? _]. by exists e'.
Qed.

Lemma run_finished evs m id e' :
  config_ok -> server_inv m -> snd (run cfg evs m) !! id = Some e' -> finished e' = true ->
  (exists e, m !! id = Some e /\ finished e = true) \/ Stop id ∈ evs.
Proof.
  intros Hcfg. revert m. induction evs as [|ev evs IH]; intros m Hm He' Hfin; [left; by exists e'|].
  cbn [run] in He'. pose proof (server_step_inv ev m Hcfg Hm) as Hm1.
  pose proof (step_finished ev m id) as Hstep. destruct (step cfg ev m) as [out m1]. cbn [snd] in *.
  specialize (IH m1 Hm1). destruct (run cfg evs m1) as [rest m2]. cbn [snd] in *.
  destruct (IH He' Hfin) as [(e1 & He1 & Hf1)|Hin]; [|right; by right].
  destruct (Hstep e1 Hcfg Hm He1 Hf1) as [H| ->]; [by left|right; by left].
Qed.

Lemma server_empty_inv : server_inv ∅.
Proof.
  split_and!; [rewrite map_size_empty; lia| |apply map_Forall_empty].
  intros k k' [e He]. by rewrite lookup_empty in He.
Qed.
End invariant.

(** What [configure] accepts is a sound configuration. *)
Section configuration.
Context {C : Crypto} {L : CryptoLaws C} {R : ErasureCode}.

(** The selector table in the making: the devices taken from [l], one each. *)
Definition selectors_of (l : list (N * bytes)) (m : gmap bytes (N * bytes)) : Prop :=
  (forall prefix e, m !! prefix = Some e -> prefix = Frame.v3_selector_prefix (fst e) /\ e ∈ l) /\
  (forall e, e ∈ l -> m !! Frame.v3_selector_prefix (fst e) = Some e).

Lemma insert_selector_spec l e m m' :
  selectors_of l m -> insert_selector (Ok m) e = Ok m' -> selectors_of (l ++ [e]) m'.
Proof.
  intros [Hin Hall] H. unfold insert_selector in H. cbn [mbind outcome_bind] in H.
  case_bool_decide as Hnone; [discriminate H|]. apply Ok_inj in H. subst m'.
  assert (m !! Frame.v3_selector_prefix (fst e) = None) as Hfree by (by destruct (m !! _)).
  split.
  - intros prefix e'. rewrite lookup_insert_Some. intros [[<- <-]|[_ H]].
    + split; [done|]. apply elem_of_app. right. by left.
    + destruct (Hin _ _ H). split; [done|]. apply elem_of_app. by left.
  - intros e'. rewrite elem_of_app, list_elem_of_singleton. intros [H| ->]; [|apply lookup_insert_eq].
    apply Hall in H. rewrite lookup_insert_ne; [done|]. congruence.
Qed.

Lemma insert_selectors_spec l0 l m m' :
  selectors_of l0 m -> foldl insert_selector (Ok m) l = Ok m' -> selectors_of (l0 ++ l) m'.
Proof.
  revert l0 m. induction l as [|e l IH]; intros l0 m Hm H; cbn [foldl] in H.
  - apply Ok_inj in H as <-. by rewrite app_nil_r.
  - destruct (insert_selector (Ok m) e) as [m1|er|] eqn:E.
    + rewrite cons_middle, app_assoc. eapply IH; [|exact H]. by eapply insert_selector_spec.
    + exfalso. clear -H. induction l; cbn in H; [discriminate H|]. by apply IHl.
    + exfalso. clear -H. induction l; cbn in H; [discriminate H|]. by apply IHl.
Qed.
End configuration.

Lemma configure_sound {C : Crypto} {R : ErasureCode} (legacy : option bytes) (keys : gmap N bytes) (n : nat) (secs : N)
    (env : option nat) (cfg : config) :
  configure legacy keys n secs env = Ok cfg ->
  (forall id k, keys !! id = Some k -> id < U64) ->
  Encoder.codes R (default MAX_PARITY ((fun p => p `min` MAX_PARITY)%nat <$> env)) ->
  config_ok cfg /\ selectors_of (map_to_list keys) (selectors cfg).
Proof.
  unfold configure. intros H Hids Hcodes.
  destruct (_ || _)%bool eqn:Hn in H; [discriminate H|]. destruct (negb _) eqn:Hsecs in H; [discriminate H|].
  destruct (_ && _)%bool in H; [discriminate H|]. case_res H as m Em. apply Ok_inj in H as <-.
  assert (selectors_of (map_to_list keys) m) as Hm.
  { apply (insert_selectors_spec [] _ ∅); [|exact Em]. split; [|set_solver]. intros prefix e He.
    by rewrite lookup_empty in He. }
  split; [|done]. split_and!; [|done|].
  - intros prefix id k Hk. apply Hm in Hk as [-> Hin%elem_of_map_to_list]. split; [done|]. by eapply Hids.
  - apply orb_false_iff in Hn as [Hn _]. apply Nat.eqb_neq in Hn. cbn. lia.
Qed.

(** ** What leaves the server *)
Section outputs.
Context {Addr : Type} {C : Crypto} {L : CryptoLaws C} {R : ErasureCode} {S : ErasureShape R}.
Context (cfg : config).

(** A datagram to [p], sealed for the device of session [id] under its key. *)
Definition sealed_for (id : N * N) (e : entry Addr) (p : Addr) (wire : bytes) : Prop :=
  Worker.peer (worker e) = Some p /\
  exists f nonce suffix, of_device id f /\
    Frame.encode_wire f (id_key (Worker.runtime (worker e))) nonce suffix = Ok wire.

Definition output_ok (id : N * N) (m : gmap (N * N) (entry Addr)) (o : output Addr) : Prop :=
  match o with
  | ToUpstream id' _ => id' = id
  | ToPublic p wire => exists e, m !! id = Some e /\ sealed_for id e p wire
  end.

(** The worker's frames, sealed and addressed. *)
Lemma to_peer_sealed id (e : entry Addr) w enc draw fs :
  entry_ok cfg id e -> Forall (Encoder.acceptable enc) fs ->
  Encoder.version enc = VERSION_V3 -> Encoder.key_id enc = fst id -> Encoder.session enc = snd id ->
  Worker.runtime w = Worker.runtime (worker e) -> Worker.peer w = Worker.peer (worker e) ->
  Forall (fun pb => sealed_for id e (fst pb) (snd pb)) (Worker.to_peer draw fs w).
Proof.
  intros He HF Hv Hk Hs Hrt Hp. unfold Worker.to_peer. rewrite Hp, Hrt.
  destruct (Worker.peer (worker e)) as [p|] eqn:Hpeer; [|constructor].
  apply Forall_fmap, Forall_forall. intros wire Hin. unfold send_frames in Hin.
  apply list_elem_of_omap in Hin as ([i f] & Hif & Hw).
  apply elem_of_zip_r in Hif. rewrite Forall_forall in HF. destruct (HF f Hif) as (Hwf & Hfv & Hfk & Hfs & _).
  destruct (Frame.encode_wire _ _ _ _) as [wire'| |] eqn:Hwire; [|done..]. injection Hw as <-.
  split; [done|]. exists f, (fst (draw i)), (snd (draw i)). split; [|done].
  split_and!; [done|congruence..].
Qed.

Lemma entry_identity id (e : entry Addr) :
  entry_ok cfg id e -> let enc := Worker.encoder (worker e) in
  Encoder.version enc = VERSION_V3 /\ Encoder.key_id enc = fst id /\ Encoder.session enc = snd id.
Proof.
  intros ((_ & _ & _ & _ & Hv & Hk & Hs) & Hk' & Hs' & Hv' & _). cbn zeta. rewrite Hv, Hk, Hs. done.
Qed.

(** A worker event of session [id] changes no other entry. *)
Lemma at_worker_frame (id : N * N) (k : entry Addr -> list (output Addr) * entry Addr) (m : gmap (N * N) (entry Addr)) id' :
  id' <> id -> snd (at_worker id k m) !! id' = m !! id'.
Proof.
  intros Hne. unfold at_worker. destruct (m !! id) as [e|]; [|done]. destruct (finished e); [done|].
  destruct (k e) as [out e']. cbn [snd]. by apply lookup_insert_ne.
Qed.

Lemma at_worker_outputs (id : N * N) (k : entry Addr -> list (output Addr) * entry Addr) (m : gmap (N * N) (entry Addr)) (P : output Addr -> Prop) :
  (forall e, m !! id = Some e -> Forall P (fst (k e))) -> Forall P (fst (at_worker id k m)).
Proof.
  intros H. unfold at_worker. destruct (m !! id) as [e|]; [|constructor]. destruct (finished e); [constructor|].
  specialize (H e eq_refl). by destruct (k e).
Qed.

Lemma public_sealed (id : N * N) (e : entry Addr) (m : gmap (N * N) (entry Addr)) l :
  m !! id = Some e -> Forall (fun pb => sealed_for id e (fst pb) (snd pb)) l ->
  Forall (output_ok id m) (public_outputs l).
Proof.
  intros He HF. apply Forall_fmap. eapply Forall_impl; [exact HF|]. intros [p wire] H. by exists e.
Qed.

(** The draws of a worker's event. *)
Definition draw_of (ev : event Addr) : option (nat -> bytes * bytes) :=
  match ev with FromUpstream _ _ draw _ | Report _ draw | Flush _ draw => Some draw | _ => None end.

(** A worker's event sends datagrams upstream, or frames its encoder made to its peer. *)
Lemma worker_sends (P : output Addr -> Prop) (ev : event Addr) (id : N * N) m :
  server_inv cfg m -> actor ev = Some id ->
  (forall d, P (ToUpstream id d)) ->
  (forall e w fs draw, m !! id = Some e -> draw_of ev = Some draw -> Worker.runtime w = Worker.runtime (worker e) ->
     Worker.peer w = Worker.peer (worker e) -> Forall (Encoder.acceptable (Worker.encoder (worker e))) fs ->
     Forall P (public_outputs (Worker.to_peer draw fs w))) ->
  Forall P (fst (step cfg ev m)).
Proof.
  intros (_ & _ & Hall) Hact HU HP.
  destruct ev as [| |id0 clk|id0 now draw payload|id0 draw|id0 draw|id0]; [done|done|..];
    cbn in Hact; injection Hact as ->; cbn [step draw_of] in *;
    apply at_worker_outputs; intros e He; pose proof (proj1 (Hall _ _ He)) as Hw; specialize (HP e).
  - destruct (queue e) as [|p q]; [constructor|]. destruct (Worker.on_packet _ _ _ _) as [[out| |] w]; [|constructor..].
    cbn [fst]. by apply Forall_fmap, Forall_true.
  - destruct (Worker.peer (worker e)) eqn:Hp; [|constructor]. unfold Worker.on_upstream. rewrite Hp.
    destruct (datagram_ok _ _ _ payload Hw) as (fs & r & e' & -> & -> & _ & Hacc). cbn [fst]. by apply HP.
  - unfold Worker.on_report. destruct (Worker.peer (worker e)) eqn:Hp; [|constructor].
    destruct (Window.sequence_report _) as [report win].
    destruct (encoder_step_ok _ _ _ (Encoder.ReportFrame (report_value report)) Hw I) as (fs & e' & Hstep & _ & Hacc).
    cbn [Encoder.step] in Hstep. revert Hstep. unfold_method.
    destruct (Encoder.report_frame _ _) as [[f|er|] e1]; [|done..]. intros [= <- <-]. cbn [fst]. by apply HP.
  - unfold Worker.on_flush. destruct (Worker.peer (worker e)) eqn:Hp; [|constructor].
    destruct (encoder_step_ok _ _ _ Encoder.Flush Hw I) as (fs & e' & Hstep & _ & Hacc). cbn [Encoder.step] in Hstep.
    rewrite Hstep. cbn [fst]. by apply HP.
  - constructor.
Qed.

Lemma step_outputs (ev : event Addr) (id : N * N) m :
  server_inv cfg m -> actor ev = Some id ->
  Forall (output_ok id m) (fst (step cfg ev m)) /\
  (forall id', id' <> id -> snd (step cfg ev m) !! id' = m !! id').
Proof.
  intros Hm Hact. split.
  - apply (worker_sends _ _ id); [done..|]. intros e w fs draw He _ Hrt Hp HF. destruct Hm as (_ & _ & Hall).
    pose proof (Hall _ _ He) as Hok. destruct (entry_identity id e Hok) as (Hv & Hk & Hs).
    eapply public_sealed; [done|]. by eapply to_peer_sealed.
  - intros id' Hne. destruct ev; [done|done|..]; cbn in Hact; injection Hact as ->; by apply at_worker_frame.
Qed.
End outputs.

(** ** Properties *)

(** C4: the server's table stays sound under any interleaving.  Started with
    any configuration it accepts, and whatever
    datagrams arrive from whomever, whichever worker, timer or clean-up runs
    next: there are never more than [max_sessions] sessions, never two sessions
    of one device, every worker runs under its device's registered key and its
    session's number with a well-formed decoder and encoder, and every queue
    holds at most 256 frames, all of that session.  No handler panics: a
    session's task has ended only if it was stopped. *)
Theorem server_sound (Addr : Type) (C : Crypto) (L : CryptoLaws C) (R : ErasureCode) (S : ErasureShape R)
    (legacy : option bytes) (keys : gmap N bytes) (n : nat) (secs : N) (env : option nat)
    (cfg : config) (evs : list (event Addr)) :
  configure legacy keys n secs env = Ok cfg ->
  (forall id k, keys !! id = Some k -> id < U64) ->
  Encoder.codes R (default MAX_PARITY ((fun p => p `min` MAX_PARITY)%nat <$> env)) ->
  server_inv cfg (snd (run cfg evs ∅)) /\
  (forall id e, snd (run cfg evs ∅) !! id = Some e -> finished e = true -> Stop id ∈ evs).
Proof.
  intros Hc Hids Hcodes. destruct (configure_sound _ _ _ _ _ _ Hc Hids Hcodes) as [Hcfg _].
  pose proof (server_empty_inv (Addr := Addr) (R := R) cfg) as H0. split; [by apply server_run_inv|].
  intros id e He Hfin. destruct (run_finished cfg evs ∅ id e Hcfg H0 He Hfin) as [(e0 & He0 & _)|]; [|done].
  by rewrite lookup_empty in He0.
Qed.

Definition demo_frame (session sequence : N) : Frame.t :=
  Frame.mk VERSION_V3 42 KIND_REPORT session sequence 0 0 0 0 (u32_be 0).
Definition demo_wire (session sequence : N) : bytes :=
  match Frame.encode_wire (C := toy_crypto) (demo_frame session sequence) sample_key
    (replicate 24 x01) (replicate 4 x02) with Ok wire => wire | _ => [] end.
Definition demo_config : config :=
  mk_config None {[42 := sample_key]} {[Frame.v3_selector_prefix (C := toy_crypto) 42 := (42, sample_key)]}
    8 (60 * NANOS) (Some 1%nat).
Definition demo_events : list (event N) :=
  [Public 10 1 (demo_wire 77 1); Public 20 1 (demo_wire 77 2); Take (42, 77) (fun _ => 25);
   Public 30 2 (demo_wire 78 1); Cleanup 40].

Lemma demo_config_ok : config_ok (R := xor_code) demo_config.
Proof.
  split_and!; [|apply Encoder.xor_codes|cbn; lia].
  intros prefix id k H. unfold demo_config in H. cbn [selectors] in H.
  apply lookup_singleton_Some in H as [<- [= <- _]]. done.
Qed.

Lemma server_sound_witness :
  server_inv (R := xor_code) demo_config (snd (run (C := toy_crypto) (R := xor_code) demo_config demo_events ∅)) /\
  (map_to_list (snd (run (C := toy_crypto) (R := xor_code) demo_config demo_events ∅))).*1 = [(42, 78)].
Proof.
  split; [|vm_compute; reflexivity].
  apply (server_sound N toy_crypto toy_crypto_laws xor_code xor_code_shape None {[42 := sample_key]} 8 60
    (Some 1%nat) demo_config demo_events).
  - vm_compute. reflexivity.
  - intros id k [<- _]%lookup_singleton_Some. reflexivity.
  - apply Encoder.xor_codes.
Defined.

(** C11: devices are isolated.  A datagram changes the table only if some
    registered device sealed it under its own key, and then it changes nothing of any
    other device's sessions; what happens in one session's worker
    changes no other session, reaches the upstream service only as that
    session, and is sent only to that session's peer, sealed under that
    device's key as a frame of that session. *)
Theorem devices_isolated (Addr : Type) (C : Crypto) (L : CryptoLaws C) (R : ErasureCode) (S : ErasureShape R)
    (cfg : config) (m : gmap (N * N) (entry Addr)) :
  config_ok cfg -> server_inv cfg m ->
  (forall now from buf, on_public cfg now from buf m = m \/
    exists k key f, sealed_by cfg k key buf f /\
      forall id, fst id <> k -> on_public cfg now from buf m !! id = m !! id) /\
  (forall ev id, actor ev = Some id ->
    Forall (output_ok id m) (fst (step cfg ev m)) /\
    (forall id', id' <> id -> snd (step cfg ev m) !! id' = m !! id')).
Proof.
  intros Hcfg Hm. split; [|intros ev id Hact; by apply step_outputs].
  intros now from buf. pose proof (on_public_frame cfg now from buf m Hcfg) as Hframe.
  destruct (decode_server_frame buf _ _ _) as [[f key]|er|] eqn:Hd; [|by left..].
  right. exists (Frame.key_id f), key, f. split; [|done]. exact (decode_server_sealed cfg buf f key Hcfg Hd).
Qed.

Definition demo_table : gmap (N * N) (entry N) :=
  snd (run (C := toy_crypto) (R := xor_code) demo_config (take 2 demo_events) ∅).

(** A second device, and a table with a session of each. *)
Definition second_key : bytes := replicate 32 x09.
Definition second_frame : Frame.t := Frame.mk VERSION_V3 1000 KIND_REPORT 5 1 0 0 0 0 (u32_be 0).
Definition second_wire : bytes :=
  match Frame.encode_wire (C := toy_crypto) second_frame second_key (replicate 24 x01) (replicate 4 x02)
  with Ok wire => wire | _ => [] end.
Definition pair_config : config :=
  match configure (C := toy_crypto) None {[42 := sample_key; 1000 := second_key]} 8 60 (Some 1%nat)
  with Ok cfg => cfg | _ => demo_config end.
Definition pair_table : gmap (N * N) (entry N) :=
  snd (run (C := toy_crypto) (R := xor_code) pair_config [Public 10 1 (demo_wire 77 1); Public 11 3 second_wire] ∅).

Lemma pair_config_ok : config_ok (C := toy_crypto) (R := xor_code) pair_config.
Proof.
  apply (configure_sound (C := toy_crypto) None {[42 := sample_key; 1000 := second_key]} 8 60 (Some 1%nat)).
  - vm_compute. reflexivity.
  - intros id k [[<- _]|[_ [<- _]%lookup_singleton_Some]]%lookup_insert_Some; reflexivity.
  - apply Encoder.xor_codes.
Qed.

(** Taking the first device's packet, and another datagram of it, leave the second
    device's live session as it was. *)
Lemma devices_isolated_witness :
  snd (step (C := toy_crypto) (R := xor_code) pair_config (Take (42, 77) (fun _ => 25)) pair_table) !! (1000, 5)
  = pair_table !! (1000, 5) /\ is_Some (pair_table !! (1000, 5)).
Proof.
  split; [|vm_compute; eexists; reflexivity].
  apply (devices_isolated N toy_crypto toy_crypto_laws xor_code xor_code_shape pair_config pair_table)
    with (id := (42, 77)).
  - exact pair_config_ok.
  - apply server_run_inv; [exact pair_config_ok|apply server_empty_inv].
  - reflexivity.
  - discriminate.
Defined.

(** C15: who takes over.  A datagram accepted as session [s] of device [k] at
    sequence number [q]: if [s] is live, it is queued there, or shed when the
    queue is full, and no session starts or ends; else, if another session of
    [k] is live and [q] exceeds 32, nothing happens; else every session of [k]
    ends and, if there is room, [s] starts: a new worker under the device's key
    and this session's number, with this frame alone in its queue.  No other
    device's session is touched. *)
Theorem takeover_rule (Addr : Type) (C : Crypto) (L : CryptoLaws C) (R : ErasureCode) (S : ErasureShape R)
    (cfg : config) (now : N) (from : Addr) (buf : bytes) (f : Frame.t) (key : bytes)
    (m : gmap (N * N) (entry Addr)) :
  config_ok cfg -> server_inv cfg m ->
  decode_server_frame buf (legacy_key cfg) (keyring cfg) (selectors cfg) = Ok (f, key) ->
  let k := Frame.key_id f in let s := Frame.session f in let m' := on_public cfg now from buf m in
  (forall e, m !! (k, s) = Some e -> dom m' = dom m /\ exists e', m' !! (k, s) = Some e' /\
    worker e' = worker e /\ last_seen e' = now /\
    queue e' = queue e ++ (if finished e || (QUEUE <=? length (queue e))%nat then [] else [mk_packet f from])) /\
  (forall s', m !! (k, s) = None -> is_Some (m !! (k, s')) -> 32 < Frame.sequence f -> m' = m) /\
  (m !! (k, s) = None -> (forall s', is_Some (m !! (k, s')) -> Frame.sequence f <= 32) ->
    m' = if decide (size (others k m) < max_sessions cfg)%nat
         then <[(k, s) := mk_entry (Worker.start (env cfg) (mk_identity key VERSION_V3 k s)) [mk_packet f from] now false]>
                (others k m)
         else others k m).
Proof.
  intros Hcfg Hm Hd k s m'. destruct (decode_server_inv cfg buf f key Hcfg Hd) as [(_ & Hv & _) _].
  unfold m'. rewrite (on_public_spec cfg now from buf f key m Hd Hv). cbn zeta. fold k s. split_and!.
  - intros e He. rewrite He. split; [apply dom_insert_lookup_L; by eexists|].
    rewrite lookup_insert_eq. eexists. split; [done|]. unfold try_send. cbn [finished queue].
    destruct (_ || _); cbn; by rewrite ?app_nil_r.
  - intros s' -> Hs' Hq. rewrite (proj2 (owns_spec m k)) by (by exists s').
    by rewrite (proj2 (N.ltb_lt _ _)).
  - intros -> Hq.
    assert (owns k m && (SESSION_TAKEOVER_MAX_SEQUENCE <? Frame.sequence f) = false) as ->.
    { destruct (owns k m) eqn:Ho; [|done]. apply owns_spec in Ho as (s' & Hs'). cbn. apply N.ltb_ge. by apply (Hq s'). }
    destruct (Nat.leb_spec (max_sessions cfg) (size (others k m))) as [Hfull|Hroom];
      [by rewrite decide_False by lia|rewrite decide_True by lia].
    unfold fresh_entry, try_send. cbn [finished queue worker orb length app last_seen]. by rewrite Hv.
Qed.

(** Far along, session 78 does not take over from 77; at its start it does. *)
Lemma takeover_rule_witness :
  on_public (C := toy_crypto) demo_config 30 2 (demo_wire 78 33) demo_table = demo_table /\
  on_public (C := toy_crypto) demo_config 30 2 (demo_wire 78 1) demo_table =
    {[(42, 78) := mk_entry (Worker.start (Some 1%nat) (mk_identity sample_key VERSION_V3 42 78))
        [mk_packet (demo_frame 78 1) 2] 30 false]}.
Proof.
  assert (server_inv (C := toy_crypto) (R := xor_code) demo_config demo_table) as Hm
    by (apply server_run_inv; [exact demo_config_ok|apply server_empty_inv]).
  split.
  - apply (takeover_rule N toy_crypto toy_crypto_laws xor_code xor_code_shape demo_config 30 2 (demo_wire 78 33)
      (demo_frame 78 33) sample_key demo_table demo_config_ok Hm) with (s' := 77).
    + vm_compute. reflexivity.
    + vm_compute. reflexivity.
    + vm_compute. eexists. reflexivity.
    + reflexivity.
  - destruct (takeover_rule N toy_crypto toy_crypto_laws xor_code xor_code_shape demo_config 30 2 (demo_wire 78 1)
      (demo_frame 78 1) sample_key demo_table demo_config_ok Hm) as (_ & _ & H); [vm_compute; reflexivity|].
    rewrite H; [vm_compute; reflexivity|vm_compute; reflexivity|]. intros s' _. vm_compute. discriminate.
Defined.


