(* ===== verification/Delivery.v ===== *)
(** * Delivery through the whole tunnel

    No code of its own: this file composes the client, the server and the
    datagrams between them.  What the client seals is what the server's queue
    holds and the worker takes ([taken]); what the worker seals is what the
    client decodes ([heard]); in between, the events of other sessions, the
    clean-up tick and the other direction of the same session may come in any
    order. *)
From S2P Require Import Prelude External Wire Adaptive Fragment Encoder Window Group Reassembly Decoder.
From S2P Require Import Tunnel Session Server.

(** ** Sealing *)
Section sealing.
Context {C : Crypto} {L : CryptoLaws C}.

(** The draws have the sizes [encode_wire] draws. *)
Definition draws_ok (draw : nat -> bytes * bytes) : Prop :=
  forall i, length (fst (draw i)) = V3_NONCE /\ length (snd (draw i)) = V3_SELECTOR_PREFIX.

(** The datagram [w] carries frame [f] under [key]. *)
Definition sealed (key : bytes) (f : Frame.t) (w : bytes) : Prop :=
  (length w <= 1419)%nat /\ exists nonce suffix, length nonce = V3_NONCE /\
    length suffix = V3_SELECTOR_PREFIX /\ Frame.encode_wire f key nonce suffix = Ok w.

(** Every frame an encoder made is sealed and sent, in order. *)
Lemma send_frames_sealed draw key e fs :
  draws_ok draw -> Encoder.version e = VERSION_V3 -> Forall (Encoder.acceptable e) fs ->
  Forall2 (sealed key) fs (send_frames draw key fs).
Proof.
  intros Hd Hv HF. unfold send_frames. generalize 0%nat as i.
  induction HF as [|f fs Hf _ IH]; intros i; [constructor|].
  destruct (Encoder.acceptable_sealed C L e f key _ _ Hf Hv (proj1 (Hd i)) (proj2 (Hd i))) as (w & Hw & Hlen).
  cbn [length seq zip zip_with omap list_omap]. rewrite Hw. constructor; [|by apply IH].
  split; [done|]. exists (draw i).1, (draw i).2. by destruct (Hd i).
Qed.

(** Both ends open what the other sealed, unless the device's selector spells
    the legacy magic number. *)
Lemma server_opens (key : bytes) (f : Frame.t) (w : bytes) (legacy : option bytes) (keyring : gmap N bytes) (selectors : gmap bytes (N * bytes)) :
  Frame.wf f -> Frame.version f = VERSION_V3 -> sealed key f w ->
  Frame.v3_selector_prefix (Frame.key_id f) <> u32_be MAGIC ->
  selectors !! Frame.v3_selector_prefix (Frame.key_id f) = Some (Frame.key_id f, key) ->
  decode_server_frame w legacy keyring selectors = Ok (f, key).
Proof.
  intros Hwf Hv (_ & nonce & suffix & Hn & Hs & Hw) Hm Hsel.
  by apply (server_decodes C L f key nonce suffix w legacy keyring selectors).
Qed.

Lemma client_opens key f w :
  Frame.wf f -> Frame.version f = VERSION_V3 -> sealed key f w ->
  Frame.v3_selector_prefix (Frame.key_id f) <> u32_be MAGIC ->
  decode_client_frame w (Frame.key_id f) key = Ok f.
Proof.
  intros Hwf Hv (_ & nonce & suffix & Hn & Hs & Hw) Hm. unfold decode_client_frame.
  destruct (server_decodes C L f key nonce suffix w None ∅
    {[Frame.v3_selector_prefix (Frame.key_id f) := (Frame.key_id f, key)]} Hwf Hv Hn Hs Hw) as [-> _];
    [apply lookup_singleton_eq|].
  rewrite bool_decide_false by done. by eapply decode_encode_v3.
Qed.
End sealing.

Lemma frames_app {R : ErasureCode} l1 l2 d :
  Decoder.frames (l1 ++ l2) d =
    let '(o1, d1) := Decoder.frames l1 d in let '(o2, d2) := Decoder.frames l2 d1 in (o1 ++ o2, d2).
Proof.
  revert d. induction l1 as [|[clk f] l1 IH]; intros d; [by cbn; destruct (Decoder.frames l2 d)|].
  cbn [app Decoder.frames]. destruct (Decoder.frame clk f d) as [r d1]. rewrite IH.
  destruct (Decoder.frames l1 d1) as [o1 d2]. destruct (Decoder.frames l2 d2) as [o2 d3]. by rewrite app_assoc.
Qed.

(** ** The client *)
Section client.
Context {Addr : Type} {C : Crypto} {L : CryptoLaws C} {R : ErasureCode} {S : ErasureShape R}.

Definition client_ok (c : Client.t Addr) : Prop :=
  ends_ok (Client.runtime c) (Client.decoder c) (Client.encoder c) /\ id_version (Client.runtime c) = VERSION_V3.

(** Datagrams come from 65,535-byte buffers; draws have their sizes; receiving
    from the application does not fail. *)
Definition client_event_ok (ev : Client.event Addr) : Prop :=
  match ev with
  | Client.Local draw payload _ => draws_ok draw /\ N.of_nat (length payload) <= 65535
  | Client.LocalFails _ => False
  | Client.Tunnel _ _ => True
  | Client.Report draw | Client.Flush draw => draws_ok draw
  end.

(** A frame of the client's session. *)
Definition of_client (rt : identity) (f : Frame.t) : Prop :=
  Frame.wf f /\ Frame.version f = id_version rt /\ Frame.key_id f = id_key_id rt /\ Frame.session f = id_session rt.

Definition client_output_ok (rt : identity) (app : option Addr) (o : Client.output Addr) : Prop :=
  match o with
  | Client.ToTunnel w => exists f, of_client rt f /\ sealed (id_key rt) f w
  | Client.ToApp p _ => app = Some p
  end.

(** A turn of the loop that uses the encoder: it cannot fail. *)
Lemma client_encodes (c : Client.t Addr) draw i :
  client_ok c -> draws_ok draw -> Encoder.input_ok i ->
  exists fs e', Encoder.step i (Client.encoder c) = (Ok fs, e') /\
    client_ok (Client.set_encoder e' c) /\
    Forall2 (sealed (id_key (Client.runtime c))) fs (send_frames draw (id_key (Client.runtime c)) fs) /\
    Forall (of_client (Client.runtime c)) fs.
Proof.
  intros [Hc Hv] Hd Hi. destruct (encoder_step_ok _ _ _ _ Hc Hi) as (fs & e' & Hstep & Hc' & Hacc).
  exists fs, e'. split; [done|]. split; [by split|].
  destruct Hc as (_ & _ & _ & _ & Hve & Hke & Hse). split.
  - eapply send_frames_sealed; [done| |exact Hacc]. congruence.
  - eapply Forall_impl; [exact Hacc|]. intros f (Hwf & ? & ? & ? & _). unfold of_client. split_and!; congruence.
Qed.

Lemma sealed_outputs rt app fs ws :
  Forall2 (sealed (id_key rt)) fs ws -> Forall (of_client rt) fs ->
  Forall (client_output_ok rt app) (Client.ToTunnel <$> ws).
Proof.
  intros H2 HF. apply Forall_fmap, Forall_forall. intros w [k Hk]%list_elem_of_lookup.
  destruct (Forall2_lookup_r _ _ _ _ _ H2 Hk) as (f & Hf & Hs). exists f. split; [|done].
  by eapply Forall_lookup_1 in HF.
Qed.

Lemma payload_fits payload :
  N.of_nat (length payload) <= 65535 -> Encoder.input_ok (Encoder.Datagram payload).
Proof.
  intros Hp. unfold Encoder.input_ok, Fragment.chunk_count.
  apply (div_ceil_le _ CHUNK 64); unfold CHUNK, SHARD, FRAGMENT_HEADER; lia.
Qed.

(** A datagram from the tunnel. *)
Lemma client_hears clk buf (c : Client.t Addr) :
  client_ok c ->
  exists out c', Client.step (Client.Tunnel clk buf) c = (Ok out, c') /\ client_ok c' /\
    Client.runtime c' = Client.runtime c /\ Client.app_peer c' = Client.app_peer c /\
    Forall (client_output_ok (Client.runtime c) (Client.app_peer c')) out.
Proof.
  intros Hc. cbn [Client.step]. unfold_method. unfold Client.on_tunnel.
  pose proof (decode_client_no_panic buf (id_key_id (Client.runtime c)) (id_key (Client.runtime c))) as Hnp.
  destruct (decode_client_frame buf _ _) as [f| |] eqn:Hdec; [|do 2 eexists; by split_and!|done].
  destruct (negb _ || _ || _); [do 2 eexists; by split_and!|].
  destruct Hc as [Hends Hv].
  assert (Frame.sequence f < U64) as Hq.
  { unfold decode_client_frame in Hdec. destruct (starts_with _ _).
    - by apply decode_inv in Hdec as ((_ & _ & _ & _ & ? & _) & _).
    - apply decode_v3_inv in Hdec as ((_ & _ & _ & _ & ? & _) & _); [done|].
      destruct Hends as (_ & _ & (_ & ? & _) & _ & _ & <- & _). done. }
  pose proof (take_frame_ok _ clk f _ _ Hends Hq) as Hends'.
  destruct (take_frame clk f _ _) as [[r d] e]. destruct Hends' as [[out ->] Hends'].
  do 2 eexists. split; [done|]. split; [by split|].
  split; [done|]. split; [done|]. apply Forall_fmap. cbn [Client.app_peer].
  destruct (Client.app_peer c) as [p|]; [|constructor]. by apply Forall_fmap, Forall_true.
Qed.

(** The report tick. *)
Lemma client_reports draw (c : Client.t Addr) :
  client_ok c -> draws_ok draw ->
  exists out c', Client.step (Client.Report draw) c = (Ok out, c') /\ client_ok c' /\
    Client.runtime c' = Client.runtime c /\ Client.app_peer c' = Client.app_peer c /\
    Forall (client_output_ok (Client.runtime c) (Client.app_peer c')) out.
Proof.
  intros Hc Hd. cbn [Client.step]. unfold Client.on_report. unfold_method. pose proof Hc as [Hends Hv].
  pose proof (Window.window_report_inv (Decoder.window (Client.decoder c)) (proj1 (proj1 Hends))) as Hwin.
  destruct (Window.sequence_report _) as [report win]. cbn [snd] in Hwin.
  destruct (client_encodes c draw (Encoder.ReportFrame (report_value report)) Hc Hd I) as (fs & e' & Hstep & Hc' & Hs & Hf).
  cbn [Encoder.step] in Hstep. revert Hstep. unfold_method.
  destruct (Encoder.report_frame _ _) as [[f|er|] e1]; [|discriminate..]. intros [= <- <-].
  do 2 eexists. split; [done|]. split_and!; try done; [|by eapply sealed_outputs].
  destruct Hc' as [((_ & Hd') & Hrest) _]. split; [|done]. split; [|exact Hrest]. split; [done|exact Hd'].
Qed.

(** The turns that only use the encoder, and what they put into it. *)
Definition makes (ev : Client.event Addr) (i : Encoder.input) : Prop :=
  match ev, i with
  | Client.Local draw payload _, Encoder.Datagram d => draws_ok draw /\ payload = d
  | Client.Flush draw, Encoder.Flush => draws_ok draw
  | _, _ => False
  end.

Definition app_after (ev : Client.event Addr) (c : Client.t Addr) : option Addr :=
  match ev with Client.Local _ _ from => Some from | _ => Client.app_peer c end.

Lemma client_makes ev i (c : Client.t Addr) :
  client_ok c -> makes ev i -> Encoder.input_ok i ->
  exists fs ws c', Encoder.step i (Client.encoder c) = (Ok fs, Client.encoder c') /\
    Client.step ev c = (Ok (Client.ToTunnel <$> ws), c') /\ client_ok c' /\
    Client.runtime c' = Client.runtime c /\ Client.decoder c' = Client.decoder c /\
    Client.app_peer c' = app_after ev c /\
    Forall2 (sealed (id_key (Client.runtime c))) fs ws /\ Forall (of_client (Client.runtime c)) fs.
Proof.
  intros Hc Hev Hi.
  set (c0 := Client.mk (Client.runtime c) (Client.decoder c) (Client.encoder c) (app_after ev c)).
  assert (exists draw, draws_ok draw /\ forall fs e1, Encoder.step i (Client.encoder c) = (Ok fs, e1) ->
    Client.step ev c = (Ok (Client.ToTunnel <$> send_frames draw (id_key (Client.runtime c)) fs), Client.set_encoder e1 c0))
    as (draw & Hd & Hstep).
  { destruct ev as [draw payload from| | | |draw], i as [d| | |]; try done; exists draw.
    - destruct Hev as [Hd ->]. split; [done|]. intros fs e1 H. cbn [Client.step Encoder.step] in *.
      unfold_method. unfold Client.on_local. cbn [Client.encoder Client.runtime]. by rewrite H.
    - split; [done|]. intros fs e1 H. cbn [Client.step Encoder.step] in *.
      unfold_method. unfold Client.on_flush. rewrite H. by destruct c. }
  destruct (client_encodes c0 draw i Hc Hd Hi) as (fs & e1 & He & Hc' & H2 & Hof).
  exists fs, (send_frames draw (id_key (Client.runtime c)) fs), (Client.set_encoder e1 c0).
  split; [exact He|]. split; [by apply Hstep|]. by split_and!.
Qed.

(** One turn: it never fails and keeps the client well formed. *)
Lemma client_step ev (c : Client.t Addr) :
  client_ok c -> client_event_ok ev ->
  exists out c', Client.step ev c = (Ok out, c') /\ client_ok c' /\ Client.runtime c' = Client.runtime c /\
    Client.app_peer c' = app_after ev c /\
    Forall (client_output_ok (Client.runtime c) (Client.app_peer c')) out.
Proof.
  intros Hc Hev.
  assert (forall i, makes ev i -> Encoder.input_ok i -> exists out c', Client.step ev c = (Ok out, c') /\
    client_ok c' /\ Client.runtime c' = Client.runtime c /\ Client.app_peer c' = app_after ev c /\
    Forall (client_output_ok (Client.runtime c) (Client.app_peer c')) out) as Hmakes.
  { intros i Hi Hok. destruct (client_makes ev i c Hc Hi Hok) as (fs & ws & c' & _ & Hs & Hc' & Hr & _ & Ha & H2 & Hof).
    exists (Client.ToTunnel <$> ws), c'. split_and!; try done. by eapply sealed_outputs. }
  destruct ev as [draw payload from|error|clk buf|draw|draw]; cbn [client_event_ok app_after] in *; [|done|..].
  - destruct Hev as [Hd Hp%payload_fits]. by apply (Hmakes (Encoder.Datagram payload)).
  - by apply client_hears.
  - by apply client_reports.
  - by apply (Hmakes Encoder.Flush).
Qed.

(** The application peers the client has heard from. *)
Definition speakers (evs : list (Client.event Addr)) : list Addr :=
  omap (fun ev => match ev with Client.Local _ _ from => Some from | _ => None end) evs.

Definition to_speaker (rt : identity) (evs : list (Client.event Addr)) (app : option Addr) (o : Client.output Addr) : Prop :=
  match o with
  | Client.ToTunnel _ => client_output_ok rt None o
  | Client.ToApp p _ => app = Some p \/ p ∈ speakers evs
  end.

Lemma client_run evs (c : Client.t Addr) :
  client_ok c -> Forall client_event_ok evs ->
  exists out c', Client.run evs c = (Ok out, c') /\ client_ok c' /\ Client.runtime c' = Client.runtime c /\
    Forall (to_speaker (Client.runtime c) evs (Client.app_peer c)) out.
Proof.
  intros Hc HF. revert c Hc. induction HF as [|ev evs Hev _ IH]; intros c Hc.
  { do 2 eexists. split; [done|]. by split_and!. }
  destruct (client_step ev c Hc Hev) as (o1 & c1 & Hs & Hc1 & Hr1 & Ha1 & Ho1).
  destruct (IH c1 Hc1) as (o2 & c2 & Hs2 & Hc2 & Hr2 & Ho2).
  exists (o1 ++ o2), c2. cbn [Client.run]. unfold_method. rewrite Hs, Hs2. split; [done|].
  split; [done|]. split; [congruence|]. apply Forall_app. split.
  - eapply Forall_impl; [exact Ho1|]. intros [w|p d]; [done|]. cbn. rewrite Ha1. unfold app_after.
    destruct ev; cbn; try tauto. intros [= <-]. right. by left.
  - eapply Forall_impl; [exact Ho2|]. rewrite Hr1, Ha1. unfold app_after. intros [w|p d]; [done|]. cbn.
    destruct ev; cbn; try tauto. intros [[= <-]|H]; right; [by left|by right].
Qed.

(** A failure to receive from the application ends the loop. *)
Lemma client_run_fails evs error after (c : Client.t Addr) out c' :
  Client.run evs c = (Ok out, c') -> Client.run (evs ++ Client.LocalFails error :: after) c = (Err error, c').
Proof.
  revert c out. induction evs as [|ev evs IH]; intros c out; cbn [Client.run app]; unfold_method.
  - intros [= _ <-]. done.
  - destruct (Client.step ev c) as [[o1| |] c1]; [|done..].
    destruct (Client.run evs c1) as [[o2| |] c2] eqn:Hr; [|done..]. intros [= <- <-]. by rewrite (IH c1 o2).
Qed.

(** A batch of turns sends what the encoder makes of the batch. *)
Lemma client_batch evs ins (c : Client.t Addr) fs e' :
  client_ok c -> Forall2 makes evs ins -> Forall Encoder.input_ok ins ->
  Encoder.run ins (Client.encoder c) = (Ok fs, e') ->
  exists ws c', Client.run evs c = (Ok (Client.ToTunnel <$> ws), c') /\
    Forall2 (sealed (id_key (Client.runtime c))) fs ws /\ Forall (of_client (Client.runtime c)) fs.
Proof.
  intros Hc HF. revert c fs Hc. induction HF as [|ev i evs ins Hev _ IH]; intros c fs Hc Hins Hrun.
  { injection Hrun as <- <-. by exists [], c. }
  inversion Hins as [|? ? Hi Hins']; subst.
  destruct (client_makes ev i c Hc Hev Hi) as (fs1 & ws1 & c1 & He & Hs & Hc1 & Hr1 & _ & _ & H2 & Hof).
  cbn [Encoder.run] in Hrun. revert Hrun. unfold_method. rewrite He.
  destruct (Encoder.run ins _) as [[fs2|er|] e2] eqn:Hrun2; [|discriminate..]. intros [= <- <-].
  destruct (IH c1 fs2 Hc1 Hins' Hrun2) as (ws2 & c2 & Hrun' & H2' & Hof'). rewrite Hr1 in H2', Hof'.
  exists (ws1 ++ ws2), c2. cbn [Client.run]. unfold_method. rewrite Hs, Hrun'. rewrite fmap_app.
  split; [done|]. split; [by apply Forall2_app|by apply Forall_app].
Qed.
End client.

Import Server.Server.

(** ** The server's worker, among everything else the server does *)
Section worker.
Context {Addr : Type} {C : Crypto} {L : CryptoLaws C} {R : ErasureCode} {S : ErasureShape R}.
Context (cfg : config) (id : N * N) (T : N).

(** The datagram an event offers to session [id]. *)
Definition offered (ev : event Addr) : option (bytes * Frame.t) :=
  match ev with
  | Public _ _ buf =>
      match decode_server_frame buf (legacy_key cfg) (keyring cfg) (selectors cfg) with
      | Ok (f, _) => if bool_decide ((Frame.key_id f, Frame.session f) = id) then Some (buf, f) else None
      | _ => None
      end
  | _ => None
  end.

Definition own_take (ev : event Addr) : option (nat -> N) :=
  match ev with Take id' clk => if bool_decide (id' = id) then Some clk else None | _ => None end.

(** The queue after an event that takes nothing from it: a full queue sheds. *)
Definition enqueue (ev : event Addr) (q : list (bytes * Frame.t)) : list (bytes * Frame.t) :=
  q ++ (if (length q <? QUEUE)%nat then option_list (offered ev) else []).

(** The datagrams its worker takes from its queue [q], each with the clock
    readings the worker makes while it handles it. *)
Fixpoint taken (evs : list (event Addr)) (q : list (bytes * Frame.t)) : list ((nat -> N) * (bytes * Frame.t)) :=
  match evs with
  | [] => []
  | ev :: evs =>
      match own_take ev with
      | Some clk => (pair clk <$> take 1 q) ++ taken evs (drop 1 q)
      | None => taken evs (enqueue ev q)
      end
  end.

(** Events that leave the session running: any datagram but one that starts
    another session of the same device, any clean-up before the session has
    been idle for long, anything in other sessions and in this one but its end. *)
Definition quiet (ev : event Addr) : Prop :=
  match ev with
  | Public now _ buf => T <= now /\
      match decode_server_frame buf (legacy_key cfg) (keyring cfg) (selectors cfg) with
      | Ok (f, _) => Frame.key_id f = fst id -> Frame.session f = snd id \/ SESSION_TAKEOVER_MAX_SEQUENCE < Frame.sequence f
      | _ => True
      end
  | Cleanup now => now - T < idle cfg
  | FromUpstream _ now _ _ => T <= now
  | Take _ _ | Flush _ _ | Report _ _ => True
  | Stop id' => id' <> id
  end.

(** The session's entry while it runs, with [q] queued. *)
Definition running (q : list (bytes * Frame.t)) (d : Decoder.t) (m : gmap (N * N) (entry Addr)) : Prop :=
  server_inv cfg m /\
  exists e, m !! id = Some e /\ finished e = false /\ T <= last_seen e /\
    frame <$> queue e = snd <$> q /\ Worker.decoder (worker e) = d.

(** What the session sends upstream. *)
Definition upstream (outs : list (output Addr)) : list bytes :=
  omap (fun o => match o with ToUpstream id' d => if bool_decide (id' = id) then Some d else None | _ => None end) outs.

Lemma upstream_app l1 l2 : upstream (l1 ++ l2) = upstream l1 ++ upstream l2.
Proof. apply omap_app. Qed.

Lemma upstream_public l : upstream (public_outputs l) = [].
Proof. induction l as [|[p b] l IH]; [done|]. exact IH. Qed.

Lemma upstream_same l : upstream (ToUpstream id <$> l) = l.
Proof. induction l as [|d l IH]; [done|]. cbn. rewrite bool_decide_true by done. cbn. by f_equal. Qed.

Lemma upstream_other id' l : id' <> id -> upstream (ToUpstream id' <$> l) = [].
Proof. intros Hne. induction l as [|d l IH]; [done|]. cbn. by rewrite bool_decide_false. Qed.

(** An event of another session. *)
Lemma running_frame q d m m' : running q d m -> server_inv cfg m' -> m' !! id = m !! id -> running q d m'.
Proof. intros (_ & e & He & H) Hm' Heq. split; [done|]. exists e. by rewrite Heq. Qed.

(** A datagram is queued if it is for the session and there is room. *)
Lemma running_public now from buf q d m :
  config_ok cfg -> quiet (Public now from buf) -> running q d m ->
  running (enqueue (Public now from buf) q) d (on_public cfg now from buf m).
Proof.
  intros Hcfg [Hnow Hq] Hrun. pose proof Hrun as (Hm & e & He & Hfin & Hls & Hqu & Hdec).
  pose proof (on_public_inv cfg now from buf m Hcfg Hm) as Hm'.
  pose proof (on_public_frame cfg now from buf m Hcfg) as Hframe. unfold enqueue. cbn [offered].
  assert (q ++ (if (length q <? QUEUE)%nat then option_list None else []) = q) as Hnil
    by (destruct (_ <? _)%nat; apply app_nil_r).
  destruct (decode_server_frame buf _ _ _) as [[f key]|er|] eqn:Hd;
    [|by rewrite Hnil, Hframe..].
  destruct (decode_server_inv cfg buf f key Hcfg Hd) as [Hf _]. pose proof Hf as (_ & Hv & _).
  assert (length (queue e) = length q) as Hl by (apply (f_equal length) in Hqu; by rewrite !length_fmap in Hqu).
  case_bool_decide as Hid.
  - split; [done|]. rewrite (on_public_spec cfg now from buf f key m Hd Hv). cbn zeta. rewrite Hid, He.
    eexists. split; [apply lookup_insert_eq|]. unfold try_send. cbn [finished queue]. rewrite Hfin, Hl. cbn [orb].
    destruct (Nat.ltb_spec (length q) QUEUE) as [Hroom|Hfull].
    + rewrite (proj2 (Nat.leb_gt _ _)) by done. cbn. by rewrite !fmap_app, Hqu.
    + rewrite (proj2 (Nat.leb_le _ _)) by done. cbn. by rewrite app_nil_r.
  - rewrite Hnil. eapply running_frame; [done..|].
    destruct (decide (Frame.key_id f = fst id)) as [Hk|Hk]; [|apply Hframe; congruence].
    destruct (Hq Hk) as [Hs|Hlate]; [destruct Hid; rewrite Hk, Hs; by destruct id|].
    rewrite (on_public_spec cfg now from buf f key m Hd Hv). cbn zeta.
    destruct (m !! (Frame.key_id f, Frame.session f)) as [e'|] eqn:He'.
    + destruct Hid. destruct Hm as (_ & Huniq & _). apply Huniq; [by eexists..|done].
    + rewrite (proj2 (owns_spec m _)), (proj2 (N.ltb_lt _ _)); [done|done|].
      exists (snd id). rewrite Hk. destruct id. by eexists.
Qed.

Lemma upstream_none outs :
  Forall (fun o => match o with ToUpstream id' _ => id' <> id | ToPublic _ _ => True end) outs -> upstream outs = [].
Proof.
  induction 1 as [|o outs Ho _ IH]; [done|]. destruct o as [id' dg|p w]; cbn; [|exact IH].
  by rewrite bool_decide_false.
Qed.

(** An event of another session's worker. *)
Lemma running_other id' ev q d m :
  config_ok cfg -> actor ev = Some id' -> id' <> id -> running q d m ->
  upstream (fst (step cfg ev m)) = [] /\ running q d (snd (step cfg ev m)).
Proof.
  intros Hcfg Hact Hne Hrun. pose proof Hrun as (Hm & _).
  destruct (step_outputs cfg ev id' m Hm Hact) as [Hout Hsame]. split.
  - apply upstream_none. eapply Forall_impl; [exact Hout|]. intros [i dg|p w]; [|done]. by cbn; intros ->.
  - eapply running_frame; [done|by apply server_step_inv|]. apply Hsame. congruence.
Qed.

(** What an event of the session's own worker but a packet taken does to its
    decoder: nothing, or a report. *)
Definition reported (ev : event Addr) (xs : list (option ((nat -> N) * Frame.t))) : Prop :=
  xs = [] \/ (xs = [None] /\ exists draw, ev = Report id draw).

Lemma running_own ev q d m :
  config_ok cfg -> quiet ev -> actor ev = Some id -> own_take ev = None -> running q d m ->
  upstream (fst (step cfg ev m)) = [] /\
  exists xs, reported ev xs /\ running q (snd (hears xs d)) (snd (step cfg ev m)).
Proof.
  intros Hcfg Hev Hact Hnot (Hm & e & He & Hfin & Hls & Hqu & Hdec).
  pose proof (server_step_inv cfg ev m Hcfg Hm) as Hm'. pose proof (proj1 (proj2 (proj2 Hm) _ _ He)) as Hw.
  assert (forall e1 out, step cfg ev m = (public_outputs out, <[id := e1]> m) ->
    finished e1 = false -> T <= last_seen e1 -> queue e1 = queue e ->
    (exists xs, reported ev xs /\ Worker.decoder (worker e1) = snd (hears xs d)) ->
    upstream (fst (step cfg ev m)) = [] /\
    exists xs, reported ev xs /\ running q (snd (hears xs d)) (snd (step cfg ev m))) as Hdone.
  { intros e1 out Hs Hf1 Hl1 Hq1 (xs & Hx & Hd1). rewrite Hs in Hm' |- *. cbn [fst snd] in *.
    split; [apply upstream_public|]. exists xs. split; [done|]. split; [done|]. exists e1.
    split; [apply lookup_insert_eq|]. rewrite Hq1. by split_and!. }
  destruct ev as [| |id0 clk|id0 now draw payload|id0 draw|id0 draw|id0]; [done|done|..];
    injection Hact as ->; cbn [quiet] in Hev; cbn [step own_take] in Hdone, Hnot |- *;
    unfold at_worker in Hdone |- *; rewrite He, Hfin in Hdone |- *.
  - by rewrite bool_decide_true in Hnot.
  - destruct (Worker.peer (worker e)) eqn:Hp.
    + unfold Worker.on_upstream in Hdone |- *. rewrite Hp in Hdone |- *.
      destruct (datagram_ok _ _ _ payload Hw) as (fs & r & e' & Hst & Hr & _). rewrite Hst, Hr in Hdone |- *.
      cbn [mbind outcome_bind settle] in Hdone |- *. eapply Hdone; [reflexivity|done..|]. exists []. split; [by left|done].
    + apply (Hdone e []); try done. exists []. split; [by left|done].
  - unfold Worker.on_report in Hdone |- *. destruct (Worker.peer (worker e)) eqn:Hp.
    + destruct (Window.sequence_report _) as [report win] eqn:Hrep.
      destruct (encoder_step_ok _ _ _ (Encoder.ReportFrame (report_value report)) Hw I) as (fs & e' & Hst & _).
      cbn [Encoder.step] in Hst. revert Hst. unfold_method.
      destruct (Encoder.report_frame _ _) as [[fr|er|] e1]; [|done..]. intros _.
      cbn [mbind outcome_bind settle] in Hdone |- *. eapply Hdone; [reflexivity|done..|]. exists [None].
      split; [right; eauto|]. cbn. by rewrite <- Hdec, Hrep.
    + apply (Hdone (set_worker (worker e) e) []); try done. exists []. split; [by left|done].
  - unfold Worker.on_flush in Hdone |- *. destruct (Worker.peer (worker e)) eqn:Hp.
    + destruct (encoder_step_ok _ _ _ Encoder.Flush Hw I) as (fs & e' & Hst & _). cbn [Encoder.step] in Hst.
      rewrite Hst in Hdone |- *. cbn [logged mbind outcome_bind settle] in Hdone |- *.
      eapply Hdone; [reflexivity|done..|]. exists []. split; [by left|done].
    + apply (Hdone (set_worker (worker e) e) []); try done. exists []. split; [by left|done].
  - done.
Qed.

(** Any quiet event but a packet taken from the session's own queue. *)
Lemma running_step ev q d m :
  config_ok cfg -> quiet ev -> running q d m -> own_take ev = None ->
  upstream (fst (step cfg ev m)) = [] /\
  exists xs, reported ev xs /\ running (enqueue ev q) (snd (hears xs d)) (snd (step cfg ev m)).
Proof.
  intros Hcfg Hev Hrun Hnot.
  assert (forall id', actor ev = Some id' \/ (exists now, ev = Cleanup now) -> enqueue ev q = q) as Hsame.
  { intros id' Hact. unfold enqueue. assert (offered ev = None) as -> by (destruct ev; try done; by destruct Hact as [|[]]).
    destruct (_ <? _)%nat; by rewrite app_nil_r. }
  destruct (actor ev) as [id'|] eqn:Hact.
  - rewrite (Hsame id') by (by left). destruct (decide (id' = id)) as [->|Hne]; [by apply running_own|].
    destruct (running_other id' ev q d m Hcfg Hact Hne Hrun) as [H1 H2]. split; [done|]. exists []. split; [by left|done].
  - destruct ev as [now from buf|now| | | | |]; [| |done..].
    + split; [done|]. exists []. split; [by left|]. by apply running_public.
    + rewrite (Hsame id) by (right; by eexists). split; [done|]. exists []. split; [by left|].
      pose proof Hrun as (Hm & e & He & Hfin & Hls & _). eapply running_frame; [done|by apply server_step_inv|].
      cbn [step snd]. rewrite He. apply map_lookup_filter_Some. cbn [quiet] in Hev. split; [done|]. split; [done|]. lia.
Qed.

(** What a datagram taken is to the decoder. *)
Definition arrival (x : (nat -> N) * (bytes * Frame.t)) : (nat -> N) * Frame.t := (fst x, snd (snd x)).
Definition data_frame (x : (nat -> N) * (bytes * Frame.t)) : Prop := Frame.kind (snd (snd x)) <> KIND_REPORT.

(** A packet taken from the queue goes through the decoder. *)
Lemma running_take clk q d m :
  config_ok cfg -> running q d m -> Forall data_frame (pair clk <$> take 1 q) ->
  let '(out, d') := hears (Some <$> (arrival <$> (pair clk <$> take 1 q))) d in
  upstream (fst (step cfg (Take id clk) m)) = out /\ running (drop 1 q) d' (snd (step cfg (Take id clk) m)).
Proof.
  intros Hcfg (Hm & e & He & Hfin & Hls & Hqu & Hdec) Hkind.
  pose proof (server_step_inv cfg (Take id clk) m Hcfg Hm) as Hm'. unfold running. cbn [step] in Hm' |- *.
  unfold at_worker in Hm' |- *. rewrite He, Hfin in Hm' |- *. destruct q as [|[buf f] q].
  - destruct (queue e) eqn:Eq; [|done]. cbn in Hm' |- *. split; [done|]. split; [done|].
    exists e. split; [apply lookup_insert_eq|]. rewrite Eq. by split_and!.
  - destruct (proj2 (proj2 Hm) _ _ He) as (Hw & Hk & Hs & Hv & _ & _ & HF).
    destruct (queue e) as [|p l]; [done|]. injection Hqu as Hp Hqu.
    change (take 1 ((buf, f) :: q)) with [(buf, f)] in *.
    inversion Hkind as [|? ? Hnr _]; subst. inversion HF as [|? ? (Hwf & Hfv & Hfk & Hfs) _]; subst. cbn [snd] in *.
    unfold Worker.on_packet in Hm' |- *. cbn [Worker.runtime Worker.decoder Worker.encoder Worker.peer Worker.last_logged_parity] in Hm' |- *.
    unfold Worker.same_identity in Hm' |- *. rewrite Hfv, Hfk, Hfs, Hv, Hk, Hs, !N.eqb_refl in Hm' |- *. cbn [andb negb] in Hm' |- *.
    pose proof (take_frame_ok _ clk (frame p) _ _ Hw ltac:(apply Hwf)) as Hok.
    unfold take_frame in Hm', Hok |- *. rewrite (proj2 (N.eqb_neq _ _)) in Hm', Hok |- * by done.
    cbn [andb] in Hm', Hok |- *. cbn [fmap list_fmap hears hear arrival fst snd].
    destruct (Decoder.frame clk (frame p) _) as [r d']. destruct Hok as [[out Hout] _]. rewrite Hout in Hm' |- *.
    assert (out = match r with Ok out => out | _ => [] end) as -> by (destruct r; [by injection Hout..|discriminate Hout]).
    cbn [settle fst snd] in Hm' |- *. rewrite app_nil_r. split; [apply upstream_same|]. split; [done|].
    eexists. split; [apply lookup_insert_eq|]. by split_and!.
Qed.

(** Everything the session sends upstream is what its decoder makes of the
    datagrams taken, with report ticks in between. *)
Lemma running_run evs q d m :
  config_ok cfg -> Forall quiet evs -> Forall data_frame (taken evs q) -> running q d m ->
  exists xs, upstream (fst (run cfg evs m)) = fst (hears xs d) /\
    omap Datatypes.id xs = arrival <$> taken evs q /\ (None ∈ xs -> exists draw, Report id draw ∈ evs).
Proof.
  intros Hcfg HF. revert q d m. induction HF as [|ev evs Hev _ IH]; intros q d m Hkind Hrun.
  { exists []. split_and!; [done..|]. by intros ?%elem_of_nil. }
  cbn [run taken] in *. destruct (own_take ev) as [clk|] eqn:Htake.
  - assert (ev = Take id clk) as ->.
    { destruct ev; try discriminate Htake. cbn in Htake. case_bool_decide; congruence. }
    apply Forall_app in Hkind as [Hk1 Hk2]. pose proof (running_take clk q d m Hcfg Hrun Hk1) as Hstep.
    set (l := arrival <$> (pair clk <$> take 1 q)) in *.
    destruct (hears (Some <$> l) d) as [o d1] eqn:Ho. destruct Hstep as [Hup Hrun1].
    destruct (step cfg _ m) as [out m1]. cbn [fst snd] in *.
    destruct (IH (drop 1 q) d1 m1 Hk2 Hrun1) as (xs & Hxs & Hid & Hno). exists ((Some <$> l) ++ xs).
    destruct (run cfg evs m1) as [rest m2]. cbn [fst] in *. rewrite upstream_app, Hup, Hxs, hears_app, Ho.
    split; [by destruct (hears xs d1)|]. rewrite omap_app, Hid, fmap_app. fold l. split.
    + f_equal. clear. induction l as [|x l IHl]; [done|]. cbn. by rewrite IHl.
    + rewrite elem_of_app. intros [(? & ? & _)%list_elem_of_fmap|Hin]; [done|].
      destruct (Hno Hin) as [draw ?]. exists draw. by right.
  - destruct (running_step ev q d m Hcfg Hev Hrun Htake) as (Hup & ys & Hys & Hrun1).
    destruct (step cfg ev m) as [out m1]. cbn [fst snd] in *.
    destruct (IH (enqueue ev q) _ m1 Hkind Hrun1) as (xs & Hxs & Hid & Hno). exists (ys ++ xs).
    destruct (run cfg evs m1) as [rest m2]. cbn [fst] in *. rewrite upstream_app, Hup, Hxs, hears_app.
    assert (fst (hears ys d) = [] /\ omap Datatypes.id ys = []) as [Hy1 Hy2] by (by destruct Hys as [->|[-> _]]).
    destruct (hears ys d) as [o d1]. cbn [fst snd] in *. subst o.
    split; [by destruct (hears xs d1)|]. rewrite omap_app, Hy2. split; [done|].
    rewrite elem_of_app. intros [Hin|Hin].
    + destruct Hys as [->|[-> [draw ->]]]; [by apply elem_of_nil in Hin|]. exists draw. by left.
    + destruct (Hno Hin) as [draw ?]. exists draw. by right.
Qed.

(** What was taken are datagrams the server accepted for the session. *)
Definition accepted (x : bytes * Frame.t) : Prop :=
  exists key, decode_server_frame (fst x) (legacy_key cfg) (keyring cfg) (selectors cfg) = Ok (snd x, key).

Lemma taken_accepted evs q : Forall accepted q -> Forall (fun x => accepted (snd x)) (taken evs q).
Proof.
  revert q. induction evs as [|ev evs IH]; intros q Hq; [constructor|]. cbn [taken].
  destruct (own_take ev) as [clk|].
  - apply Forall_app. split; [|by apply IH, Forall_drop]. apply Forall_fmap. by apply Forall_take.
  - apply IH, Forall_app. split; [done|]. destruct (_ <? _)%nat; [|constructor].
    destruct ev as [now from buf| | | | | |]; try constructor. cbn [offered]. destruct (decode_server_frame buf _ _ _) as [[f key]| |] eqn:Hd; [|constructor..].
    case_bool_decide; constructor; [|constructor]. by exists key.
Qed.

(** The events that make a batch of the session's worker. *)
Definition answers (ev : event Addr) (i : Encoder.input) : Prop :=
  match ev, i with
  | FromUpstream id' _ draw payload, Encoder.Datagram d => id' = id /\ draws_ok draw /\ payload = d
  | Flush id' draw, Encoder.Flush => id' = id /\ draws_ok draw
  | _, _ => False
  end.

(** The session's entry while it answers [p] from encoder [enc]. *)
Definition answering (p : Addr) (rt : identity) (enc : Encoder.t) (m : gmap (N * N) (entry Addr)) : Prop :=
  exists e, m !! id = Some e /\ finished e = false /\ Worker.peer (worker e) = Some p /\
    Worker.runtime (worker e) = rt /\ Worker.encoder (worker e) = enc /\ worker_ok (worker e).

Lemma answering_step ev i p rt enc m :
  id_version rt = VERSION_V3 -> answers ev i -> Encoder.input_ok i -> answering p rt enc m ->
  exists fs ws enc', Encoder.step i enc = (Ok fs, enc') /\
    fst (step cfg ev m) = ToPublic p <$> ws /\ answering p rt enc' (snd (step cfg ev m)) /\
    Forall2 (sealed (id_key rt)) fs ws /\ Forall (of_client rt) fs.
Proof.
  intros Hv Hev Hi (e & He & Hfin & Hp & Hrt & Henc & Hok).
  destruct (encoder_step_ok _ _ _ i Hok Hi) as (fs & enc' & Hstep & Hok' & Hacc). rewrite Henc in Hstep, Hacc.
  set (w' := Worker.set_encoder enc' (worker e)).
  assert (exists draw e', draws_ok draw /\ finished e' = false /\ worker e' = w' /\
    step cfg ev m = (public_outputs (Worker.to_peer draw fs w'), <[id := e']> m)) as (draw & e' & Hd & Hf' & Hw' & Hs).
  { destruct ev as [| | |id0 now draw payload| |id0 draw|], i as [d| | |]; try done; cbn [step Encoder.step] in *;
      unfold at_worker.
    - destruct Hev as (-> & Hd & ->). rewrite He, Hfin, Hp. unfold Worker.on_upstream. rewrite Hp, Henc, Hstep.
      do 2 eexists. split; [exact Hd|]. split; [|split; [|done]]; done.
    - destruct Hev as (-> & Hd). rewrite He, Hfin. unfold Worker.on_flush. rewrite Hp, Henc, Hstep.
      do 2 eexists. split; [exact Hd|]. split; [|split; [|done]]; done. }
  destruct Hok as (_ & _ & _ & _ & Hve & Hke & Hse). rewrite Henc in Hve, Hke, Hse. rewrite Hrt in *.
  exists fs, (send_frames draw (id_key rt) fs), enc'. split; [done|]. rewrite Hs. cbn [fst snd]. split_and!.
  - unfold Worker.to_peer, w'. cbn. rewrite Hp, Hrt. unfold public_outputs. by rewrite <- list_fmap_compose.
  - exists e'. rewrite Hw'. split; [apply lookup_insert_eq|]. unfold worker_ok, w'. cbn. rewrite Hrt. by split_and!.
  - eapply send_frames_sealed; [done| |exact Hacc]. congruence.
  - eapply Forall_impl; [exact Hacc|]. intros f (Hwf & ? & ? & ? & _). unfold of_client. split_and!; congruence.
Qed.

Lemma answering_batch evs ins p rt enc m fs enc' :
  id_version rt = VERSION_V3 -> Forall2 answers evs ins -> Forall Encoder.input_ok ins -> answering p rt enc m ->
  Encoder.run ins enc = (Ok fs, enc') ->
  exists ws m', run cfg evs m = (ToPublic p <$> ws, m') /\
    Forall2 (sealed (id_key rt)) fs ws /\ Forall (of_client rt) fs.
Proof.
  intros Hv HF. revert enc m fs. induction HF as [|ev i evs ins Hev _ IH]; intros enc m fs Hins Hans Hrun.
  { injection Hrun as <- <-. by exists [], m. }
  inversion Hins as [|? ? Hi Hins']; subst.
  destruct (answering_step ev i p rt enc m Hv Hev Hi Hans) as (fs1 & ws1 & enc1 & He & Hs & Hans1 & H2 & Hof).
  cbn [Encoder.run] in Hrun. revert Hrun. unfold_method. rewrite He.
  destruct (Encoder.run ins _) as [[fs2|er|] e2] eqn:Hrun2; [|discriminate..]. intros [= <- <-].
  destruct (step cfg ev m) as [o1 m1] eqn:Hst. cbn [fst snd] in *. subst o1.
  destruct (IH enc1 m1 fs2 Hins' Hans1 Hrun2) as (ws2 & m2 & Hrun' & H2' & Hof').
  exists (ws1 ++ ws2), m2. cbn [run]. rewrite Hst, Hrun', fmap_app.
  split; [done|]. split; [by apply Forall2_app|by apply Forall_app].
Qed.
End worker.

(** Copies of the datagrams that carry the frames [fs], opened, are the frames. *)
Lemma copies_opened {C : Crypto} key fs (wires : list bytes) T (l : list ((nat -> N) * (bytes * Frame.t))) ks :
  Forall2 (sealed key) fs wires ->
  Forall (fun f => Frame.kind f = KIND_DATA \/ Frame.kind f = KIND_PARITY) fs ->
  Forall2 (fun '(clk, (buf, _)) k => (forall i, T <= clk i < T + GROUP_TTL) /\ wires !! k = Some buf) l ks ->
  (forall clk buf f f0, (clk, (buf, f)) ∈ l -> f0 ∈ fs -> sealed key f0 buf -> f = f0) ->
  Forall data_frame l /\
  Forall2 (fun '(clk, f) k => (forall i, T <= clk i < T + GROUP_TTL) /\ fs !! k = Some f) (arrival <$> l) ks.
Proof.
  intros Hsealed Hkinds HF Hopen.
  assert (Forall2 (fun x k => (forall i, T <= fst x i < T + GROUP_TTL) /\ fs !! k = Some (snd (snd x))) l ks) as HF'.
  { apply Forall2_same_length_lookup. split; [by eapply Forall2_length|]. intros j [clk [buf f]] k Hj Hjk.
    destruct (Forall2_lookup_lr _ _ _ _ _ _ HF Hj Hjk) as [Htime Hbuf]. split; [exact Htime|].
    destruct (Forall2_lookup_r _ _ _ _ _ Hsealed Hbuf) as (f0 & Hf0 & Hseal). cbn [snd].
    rewrite (Hopen clk buf f f0); [done|by eapply list_elem_of_lookup_2..|done]. }
  split; [|by apply Forall2_fmap_l].
  apply Forall_forall. intros x [j Hj]%list_elem_of_lookup.
  destruct (Forall2_lookup_l _ _ _ _ _ HF' Hj) as (k & _ & _ & Hf).
  unfold data_frame. pose proof (Forall_lookup_1 _ _ _ _ Hkinds Hf) as [-> | ->]; discriminate.
Qed.

(** ** Properties *)

(** C13: the client ends only when its own socket fails.  Started as it starts
    itself, whatever arrives from the application and from the network, in any
    order: no handler errs or panics, neither decoding a hostile datagram nor recovering a
    group nor putting fragments together; every datagram it sends into the tunnel is at most
    1419 bytes and a frame of its own session sealed under its key; what it
    hands to the application goes to an address the application has sent
    from.  When receiving from the application fails, the loop ends with that error,
    whatever would come after. *)
Theorem client_sound (Addr : Type) (C : Crypto) (L : CryptoLaws C) (R : ErasureCode) (S : ErasureShape R)
    (env : option nat) (key : bytes) (key_id : option N) (session : N) (c : Client.t Addr)
    (evs : list (Client.event Addr)) :
  Client.start env key key_id session = Ok c -> session < U64 -> (forall id, key_id = Some id -> id < U64) ->
  Encoder.codes R (default MAX_PARITY ((fun p => p `min` MAX_PARITY)%nat <$> env)) ->
  Forall client_event_ok evs ->
  exists out c', Client.run evs c = (Ok out, c') /\
    (forall o, o ∈ out -> match o with
      | Client.ToTunnel w => (length w <= 1419)%nat /\ exists id f, key_id = Some id /\
          Frame.decode_v3 w id key = Ok f /\ Frame.session f = session
      | Client.ToApp p _ => exists draw payload, Client.Local draw payload p ∈ evs
      end) /\
    forall error after, Client.run (evs ++ Client.LocalFails error :: after) c = (Err error, c').
Proof.
  intros Hstart Hs Hids Hcodes Hevs. unfold Client.start in Hstart.
  destruct (bool_decide _); [discriminate Hstart|]. destruct key_id as [id|]; [|discriminate Hstart].
  cbn [context mbind outcome_bind] in Hstart. apply Ok_inj in Hstart. specialize (Hids id eq_refl).
  assert (client_ok c) as Hc.
  { rewrite <- Hstart. split; [|done]. unfold ends_ok. cbn. split_and!; try done;
      [apply Decoder.new_inv|by apply Encoder.with_identity_inv]. }
  destruct (client_run evs c Hc Hevs) as (out & c' & Hrun & _ & _ & HF). exists out, c'. split; [done|].
  split; [|by intros error after; apply (client_run_fails evs error after c out)].
  intros o Ho. rewrite Forall_forall in HF. specialize (HF o Ho). rewrite <- Hstart in HF.
  destruct o as [w|p d]; cbn [to_speaker client_output_ok Client.runtime Client.app_peer] in HF.
  - destruct HF as (f & (Hwf & Hv & Hk & Hse) & Hlen & nonce & suffix & Hn & Hsu & Hw). split; [done|].
    exists id, f. split; [done|]. cbn in Hk, Hse. split; [|done]. rewrite <- Hk. by eapply decode_encode_v3.
  - destruct HF as [HF|HF]; [done|]. apply list_elem_of_omap in HF as (ev & Hin & Hev).
    destruct ev as [draw payload from| | | |]; [|done..]. injection Hev as ->. eauto.
Qed.

Definition demo_client_events : list (Client.event N) :=
  [Client.Local demo_draw [x61] 5; Client.Flush demo_draw; Client.Tunnel (fun _ => 4) (demo_wire 77 1); Client.Report demo_draw].

Lemma client_sound_witness :
  exists c, Client.start (Addr := N) (Some 1%nat) sample_key (Some 42) 77 = Ok c /\
  (exists out c', Client.run (C := toy_crypto) (R := xor_code) demo_client_events c = (Ok out, c') /\
    length out = 3%nat) /\
  fst (Client.run (C := toy_crypto) (R := xor_code)
    (demo_client_events ++ [Client.LocalFails "connection reset"; Client.Flush demo_draw]) c) = Err "connection reset"%string.
Proof.
  eexists. split; [reflexivity|].
  destruct (client_sound N toy_crypto toy_crypto_laws xor_code xor_code_shape (Some 1%nat) sample_key (Some 42) 77
    _ demo_client_events eq_refl) as (out & c' & Hrun & _ & Hfail).
  - reflexivity.
  - by intros id [= <-].
  - apply Encoder.xor_codes.
  - assert (draws_ok demo_draw) as Hd by done. repeat constructor; try apply Hd; cbn; lia.
  - split; [|by rewrite Hfail]. exists out, c'. split; [exact Hrun|].
    assert (match fst (Client.run (C := toy_crypto) (R := xor_code) demo_client_events
      (Client.mk demo_identity (Decoder.new 77) (Encoder.with_identity (Some 1%nat) 77 3 42) None)) with
      Ok o => length o | _ => 0%nat end = 3%nat) as Hlen by (vm_compute; reflexivity).
    change (Client.mk demo_identity _ _ None) with
      (Client.mk (mk_identity sample_key VERSION_V3 42 77) (Decoder.new 77)
        (Encoder.with_identity (Some 1%nat) 77 VERSION_V3 42) (None (A := N))) in Hlen.
    rewrite Hrun in Hlen. exact Hlen.
Defined.

(** A batch that fits one group is cut into few enough pieces. *)
Lemma batch_inputs ds p :
  (length (Encoder.fragments p (Encoder.Datagram <$> ds)) <= DATA_SHARDS)%nat ->
  Forall Encoder.input_ok ((Encoder.Datagram <$> ds) ++ [Encoder.Flush]).
Proof.
  intros Hn. apply Forall_app. split; [|by repeat constructor]. revert p Hn.
  induction ds as [|b ds IH]; intros p Hn; [constructor|]. rewrite Batch.length_fragments_cons in Hn.
  constructor; [|apply (IH (add64 p 1)); lia]. unfold Encoder.input_ok, DATA_SHARDS in *. lia.
Qed.

(** The client's datagrams, how many and how long they are, and what the service is sent. *)
Lemma uploads (Addr : Type) (C : Crypto) (L : CryptoLaws C) (R : ErasureCode) (S : ErasureShape R)
    (cfg : config) (c : Client.t Addr) (m : gmap (N * N) (entry Addr)) (e : entry Addr)
    (turns : list (Client.event Addr)) (draw : nat -> bytes * bytes) (ds : list bytes) :
  let rt := Client.runtime c in
  let id := (id_key_id rt, id_session rt) in
  let n := length (Encoder.fragments (Encoder.packet (Client.encoder c)) (Encoder.Datagram <$> ds)) in
  client_ok c -> Encoder.shards (Client.encoder c) = [] -> ds <> [] -> (n <= DATA_SHARDS)%nat ->
  Forall2 makes turns (Encoder.Datagram <$> ds) -> draws_ok draw ->
  config_ok cfg -> Frame.v3_selector_prefix (id_key_id rt) <> u32_be MAGIC ->
  server_inv cfg m -> m !! id = Some e -> finished e = false -> queue e = [] ->
  id_key (Worker.runtime (worker e)) = id_key rt ->
  ready (Worker.decoder (worker e)) (Client.encoder c) (length ds) ->
  exists wires c', Client.run (turns ++ [Client.Flush draw]) c = (Ok (Client.ToTunnel <$> wires), c') /\
  (n <= length wires <= 14)%nat /\ Forall (fun w => length w <= 1419)%nat wires /\
  forall (T : N) (evs : list (event Addr)) (ks : list nat),
    Forall (quiet cfg id (last_seen e)) evs ->
    (forall draw, Report id draw ∈ evs -> reports_safe (Worker.decoder (worker e)) (Client.encoder c)) ->
    Forall2 (fun '(clk, (buf, _)) k => (forall i, T <= clk i < T + GROUP_TTL) /\ wires !! k = Some buf)
      (taken cfg id evs []) ks ->
    (forall k, (k < n)%nat -> k ∈ ks) \/
      (0 < Encoder.level (Client.encoder c) /\ n <= size (list_to_set ks : gset nat))%nat ->
    upstream id (fst (run cfg evs m)) ≡ₚ ds.
Proof.
  intros rt id n Hc Hopen Hne Hn Hturns Hdraw Hcfg Hmagic Hinv He Hfin Hq Hkey Hready.
  pose proof Hc as [(_ & _ & Henc & Hcodes & _) Hv3].
  destruct (batch_delivered R _ ds _ Henc Hopen Hcodes Hne Hn Hready) as (fs & e' & Hrun & Hkinds & Hcount & Hdel).
  destruct (client_batch (turns ++ [Client.Flush draw]) ((Encoder.Datagram <$> ds) ++ [Encoder.Flush]) c fs e' Hc)
    as (wires & c' & Hcrun & Hsealed & Hof); [by apply Forall2_app; [|constructor]|by eapply batch_inputs|done|].
  exists wires, c'. split; [done|].
  split; [by rewrite <- (Forall2_length _ _ _ Hsealed)|].
  split; [apply Forall_forall; intros w [j Hj]%list_elem_of_lookup;
    by destruct (Forall2_lookup_r _ _ _ _ _ Hsealed Hj) as (f & _ & Hw & _)|].
  intros T evs ks Hquiet Hreports HF Henough.
  pose proof Hinv as (_ & _ & Hall). destruct (Hall _ _ He) as (Hw & Hk & Hs & Hv & Hsel & _).
  destruct (copies_opened _ _ _ _ _ _ Hsealed Hkinds HF) as [Hdata HF'].
  { intros clk buf f f0 Hin Hf0 Hseal. pose proof (taken_accepted cfg id evs [] ltac:(constructor)) as Hacc.
    rewrite Forall_forall in Hacc. rewrite Forall_forall in Hof. destruct (Hof _ Hf0) as (Hwf & Hfv & Hfk & _).
    destruct (Hacc _ Hin) as [key Hd]. cbn [fst snd] in Hd.
    erewrite server_opens in Hd; [|exact Hwf|congruence|exact Hseal|by rewrite Hfk|].
    - by apply Ok_inj in Hd as [= -> _].
    - rewrite Hfk. fold rt. rewrite <- Hkey. exact Hsel. }
  destruct (running_run cfg id (last_seen e) evs [] (Worker.decoder (worker e)) m) as (xs & -> & Hxs & Hno); try done.
  - split; [done|]. exists e. by rewrite Hq.
  - apply (Hdel T _ ks); [|by rewrite Hxs|done]. intros Hin. destruct (Hno Hin) as [tick Hin']. by eapply Hreports.
Qed.

(** C2: what the application sends reaches the service.  Let a client take in any
    datagrams that fit one group and flush, and let the server run the client's
    session, its queue empty and its decoder ready for the group.  Let its worker then
    take copies of the client's datagrams and no others, in whatever order, with
    whatever repetitions and losses, those its full queue of 256 sheds included, while
    the server handles any datagrams of other devices, datagrams of this device's other
    sessions past their first 32 (which cannot take over), clean-ups before the
    session has been idle for long, any events of other workers and, of this one, the
    other direction, flush ticks and, unless the client's numbers wrap or trail those
    seen by 64, report ticks.  If within two seconds the worker has taken all the data
    frames or, when the client adds parity, any distinct frames as many as there are
    fragments, then the session has sent exactly those datagrams to the upstream
    service, each once, unaltered. *)
Theorem uploads_delivered (Addr : Type) (C : Crypto) (L : CryptoLaws C) (R : ErasureCode) (S : ErasureShape R)
    (cfg : config) (c : Client.t Addr) (m : gmap (N * N) (entry Addr)) (e : entry Addr)
    (turns : list (Client.event Addr)) (draw : nat -> bytes * bytes) (ds : list bytes) :
  let rt := Client.runtime c in
  let id := (id_key_id rt, id_session rt) in
  let n := length (Encoder.fragments (Encoder.packet (Client.encoder c)) (Encoder.Datagram <$> ds)) in
  client_ok c -> Encoder.shards (Client.encoder c) = [] -> ds <> [] -> (n <= DATA_SHARDS)%nat ->
  Forall2 makes turns (Encoder.Datagram <$> ds) -> draws_ok draw ->
  config_ok cfg -> Frame.v3_selector_prefix (id_key_id rt) <> u32_be MAGIC ->
  server_inv cfg m -> m !! id = Some e -> finished e = false -> queue e = [] ->
  id_key (Worker.runtime (worker e)) = id_key rt ->
  ready (Worker.decoder (worker e)) (Client.encoder c) (length ds) ->
  exists wires c', Client.run (turns ++ [Client.Flush draw]) c = (Ok (Client.ToTunnel <$> wires), c') /\
  forall (T : N) (evs : list (event Addr)) (ks : list nat),
    Forall (quiet cfg id (last_seen e)) evs ->
    (forall draw, Report id draw ∈ evs -> reports_safe (Worker.decoder (worker e)) (Client.encoder c)) ->
    Forall2 (fun '(clk, (buf, _)) k => (forall i, T <= clk i < T + GROUP_TTL) /\ wires !! k = Some buf)
      (taken cfg id evs []) ks ->
    (forall k, (k < n)%nat -> k ∈ ks) \/
      (0 < Encoder.level (Client.encoder c) /\ n <= size (list_to_set ks : gset nat))%nat ->
    upstream id (fst (run cfg evs m)) ≡ₚ ds.
Proof.
  intros. destruct (uploads Addr C L R S cfg c m e turns draw ds) as (wires & c' & Hrun & _ & _ & Hdel); try done.
  by exists wires, c'.
Qed.

(** A client and a server in the middle of session 77 of device 42. *)
Definition demo_client : Client.t N :=
  snd (Client.run (C := toy_crypto) (R := xor_code) [Client.Report demo_draw]
    (Client.mk demo_identity (Decoder.new 77) (Encoder.with_identity (Some 1%nat) 77 3 42) None)).
Definition demo_session : gmap (N * N) (entry N) :=
  snd (run (C := toy_crypto) (R := xor_code) demo_config [Public 10 1 (demo_wire 77 1); Take (42, 77) (fun _ => 11)] ∅).
Definition demo_entry : entry N :=
  default (fresh_entry demo_config 0 (demo_frame 0 0) []) (demo_session !! (42, 77)).
Definition demo_turns : list (Client.event N) := [Client.Local demo_draw [x61] 5; Client.Local demo_draw [x62; x63] 6].
Definition demo_wires : list bytes :=
  match fst (Client.run (C := toy_crypto) (R := xor_code) (demo_turns ++ [Client.Flush demo_draw]) demo_client) with
  | Ok out => omap (fun o => match o with Client.ToTunnel w => Some w | Client.ToApp _ _ => None end) out
  | _ => []
  end.
(** The first frame is lost; the parity frame arrives first, the second data
    frame twice; the worker answers and reports, a clean-up runs, and a late
    datagram of another session is ignored. *)
Definition demo_arrivals : list (event N) :=
  [Public 20 1 (default [] (demo_wires !! 2%nat)); FromUpstream (42, 77) 21 demo_draw [x64];
   Public 22 1 (default [] (demo_wires !! 1%nat)); Take (42, 77) (fun _ => 30); Cleanup 31;
   Report (42, 77) demo_draw; Public 31 9 (demo_wire 78 33); Public 32 1 (default [] (demo_wires !! 1%nat)); Take (42, 77) (fun _ => 33); Take (42, 77) (fun _ => 34)].

Lemma tunnel_wires (ws : list bytes) :
  omap (fun o => match o with Client.ToTunnel w => Some w | Client.ToApp _ _ => None end)
    ((Client.ToTunnel <$> ws) : list (Client.output N)) = ws.
Proof. induction ws as [|w ws IH]; [done|]. cbn. by rewrite IH. Qed.

Definition demo_opened (w : bytes) : Frame.t :=
  match decode_server_frame (C := toy_crypto) w None {[42 := sample_key]} (selectors demo_config) with
  | Ok (f, _) => f | _ => demo_frame 0 0 end.

Lemma demo_taken :
  let w k := default [] (demo_wires !! k) in
  taken (C := toy_crypto) demo_config (42, 77) demo_arrivals [] =
  [(fun _ => 30, (w 2%nat, demo_opened (w 2%nat))); (fun _ => 33, (w 1%nat, demo_opened (w 1%nat)));
   (fun _ => 34, (w 1%nat, demo_opened (w 1%nat)))].
Proof. vm_compute. reflexivity. Qed.

(** The situation the theorem asks for. *)
Lemma demo_premises (ds := [[x61]; [x62; x63]]) :
  client_ok (R := xor_code) demo_client /\ Encoder.shards (Client.encoder demo_client) = [] /\
  (length (Encoder.fragments (Encoder.packet (Client.encoder demo_client)) (Encoder.Datagram <$> ds)) <= DATA_SHARDS)%nat /\
  Forall2 makes demo_turns (Encoder.Datagram <$> ds) /\ draws_ok demo_draw /\
  Frame.v3_selector_prefix (C := toy_crypto) (id_key_id (Client.runtime demo_client)) <> u32_be MAGIC /\
  server_inv (C := toy_crypto) (R := xor_code) demo_config demo_session /\ demo_session !! (42, 77) = Some demo_entry /\
  finished demo_entry = false /\ queue demo_entry = [] /\
  id_key (Worker.runtime (worker demo_entry)) = id_key (Client.runtime demo_client) /\
  ready (Worker.decoder (worker demo_entry)) (Client.encoder demo_client) (length ds).
Proof.
  assert (draws_ok demo_draw) as Hd by done.
  assert (client_ok (R := xor_code)
    (Client.mk demo_identity (Decoder.new 77) (Encoder.with_identity (Some 1%nat) 77 3 42) (None (A := N)))) as Hc0.
  { split; [|done]. unfold ends_ok. cbn. split_and!; try done;
      [apply Decoder.new_inv|by apply Encoder.with_identity_inv|apply Encoder.xor_codes]. }
  split.
  { destruct (client_reports (C := toy_crypto) (R := xor_code) demo_draw _ Hc0 Hd) as (out & c1 & Hstep & Hc1 & _).
    unfold demo_client. cbn [Client.run]. unfold_method. by rewrite Hstep. }
  split; [reflexivity|].
  split; [apply Nat.leb_le; vm_compute; reflexivity|].
  split; [repeat constructor; apply Hd|].
  split; [exact Hd|].
  split; [vm_compute; discriminate|].
  split; [apply server_run_inv; [exact demo_config_ok|apply server_empty_inv]|].
  split; [vm_compute; reflexivity|].
  split; [vm_compute; reflexivity|].
  split; [vm_compute; reflexivity|].
  split; [vm_compute; reflexivity|].
  unfold ready. split_and!.
  - vm_compute. reflexivity.
  - vm_compute. reflexivity.
  - apply Nat.ltb_lt. vm_compute. reflexivity.
  - intros q _. vm_compute. by destruct q.
  - apply Nat.leb_le. vm_compute. reflexivity.
  - intros (Hf & _). vm_compute in Hf. discriminate Hf.
  - apply (bool_decide_unpack _). vm_compute. exact I.
Qed.

Lemma uploads_delivered_witness :
  upstream (42, 77) (fst (run (C := toy_crypto) (R := xor_code) demo_config demo_arrivals demo_session))
  ≡ₚ [[x61]; [x62; x63]].
Proof.
  destruct demo_premises as (H1 & H2 & H3 & H4 & H5 & H6 & H7 & H8 & H9 & H10 & H11 & H12).
  destruct (uploads_delivered N toy_crypto toy_crypto_laws xor_code xor_code_shape demo_config demo_client demo_session
    demo_entry demo_turns demo_draw [[x61]; [x62; x63]] H1 H2 ltac:(discriminate) H3 H4 H5 demo_config_ok H6 H7 H8 H9 H10 H11 H12)
    as (wires & c' & Hrun & H). clear H1 H2 H3 H4 H5 H6 H7 H8 H9 H10 H11 H12.
  assert (id_key_id (Client.runtime demo_client) = 42 /\ id_session (Client.runtime demo_client) = 77) as [Hk42 Hs77]
    by (vm_compute; by split).
  rewrite Hk42, Hs77 in H.
  assert (demo_wires = wires) as Hw by (unfold demo_wires; rewrite Hrun; apply tunnel_wires).
  apply (H 30 demo_arrivals [2; 1; 1]%nat).
  - repeat (apply Forall_cons; split; [vm_compute; intuition (auto; discriminate)|]). constructor.
  - intros tick _. split; [vm_compute; discriminate|vm_compute; reflexivity].
  - assert (forall k, (k < 3)%nat -> wires !! k = Some (default [] (demo_wires !! k))) as Hk.
    { intros k Hk. rewrite <- Hw. destruct (lookup_lt_is_Some_2 demo_wires k) as [w Hwk]; [|by rewrite Hwk].
      replace (length demo_wires) with 3%nat by (vm_compute; reflexivity). exact Hk. }
    rewrite demo_taken. constructor; [|constructor; [|constructor; [|constructor]]];
      (split; [intros _; split; [discriminate|reflexivity]|apply Hk; lia]).
  - right. split; vm_compute; lia.
Defined.

(** ** The other direction *)
Section downloads.
Context {Addr : Type} {C : Crypto} {L : CryptoLaws C} {R : ErasureCode} {S : ErasureShape R}.

(** The datagram of the client's session that an event brings. *)
Definition heard (rt : identity) (ev : Client.event Addr) : option ((nat -> N) * (bytes * Frame.t)) :=
  match ev with
  | Client.Tunnel clk buf =>
      match decode_client_frame buf (id_key_id rt) (id_key rt) with
      | Ok f => if (Frame.version f =? id_version rt) && (Frame.key_id f =? id_key_id rt)
                   && (Frame.session f =? id_session rt) then Some (clk, (buf, f)) else None
      | _ => None
      end
  | _ => None
  end.

(** What an event is to the client's decoder. *)
Definition hearing (rt : identity) (ev : Client.event Addr) : list (option ((nat -> N) * Frame.t)) :=
  match ev with
  | Client.Report _ => [None]
  | _ => Some <$> (arrival <$> option_list (heard rt ev))
  end.

(** What the client hands to the application. *)
Definition handed (out : list (Client.output Addr)) : list bytes :=
  omap (fun o => match o with Client.ToApp _ d => Some d | Client.ToTunnel _ => None end) out.

Lemma handed_tunnel ws : handed (Client.ToTunnel <$> ws) = [].
Proof. induction ws as [|w ws IH]; [done|]. exact IH. Qed.

Lemma handed_app p out : handed ((fun '(p, d) => Client.ToApp p d) <$> (pair p <$> out)) = out.
Proof. induction out as [|d out IH]; [done|]. cbn. f_equal. exact IH. Qed.

Lemma client_turn ev (c : Client.t Addr) :
  client_ok c -> is_Some (Client.app_peer c) -> client_event_ok ev ->
  Forall data_frame (option_list (heard (Client.runtime c) ev)) ->
  exists out c', Client.step ev c = (Ok out, c') /\ client_ok c' /\ is_Some (Client.app_peer c') /\
    Client.runtime c' = Client.runtime c /\
    (handed out, Client.decoder c') = hears (hearing (Client.runtime c) ev) (Client.decoder c).
Proof.
  intros Hc Happ Hev Hdata.
  destruct (client_step ev c Hc Hev) as (out & c' & Hstep & Hc' & Hr & Ha & _). exists out, c'.
  split; [done|]. split; [done|]. split; [rewrite Ha; by destruct ev; cbn|]. split; [done|].
  destruct ev as [draw payload from|error|clk buf|draw|draw]; cbn [hearing heard] in *; [|done|..].
  - destruct Hev as [Hd Hp%payload_fits].
    destruct (client_makes (Client.Local draw payload from) (Encoder.Datagram payload) c Hc) as
      (fs & ws & c1 & _ & Hs & _ & _ & Hdec & _); [done..|].
    rewrite Hs in Hstep. injection Hstep as <- <-. cbn. by rewrite handed_tunnel, Hdec.
  - cbn [Client.step] in Hstep. revert Hstep. unfold_method. unfold Client.on_tunnel.
    destruct (decode_client_frame buf _ _) as [f|er|] eqn:Hd; [|by intros [= <- <-]|discriminate].
    rewrite <- !negb_andb. destruct (_ && _ && _); cbn [negb]; [|by intros [= <- <-]].
    inversion Hdata as [|? ? Hk _]; subst. unfold data_frame in Hk. cbn [snd] in Hk.
    unfold take_frame. rewrite (proj2 (N.eqb_neq _ _)) by done. cbn [andb].
    change (option_list (Some (clk, (buf, f)))) with [(clk, (buf, f))].
    cbn [fmap list_fmap arrival fst snd hears hear].
    destruct (Decoder.frame clk f _) as [r d']. destruct Happ as [p Hp]. rewrite Hp.
    destruct r as [o|er|]; cbn [logged]; [| |discriminate];
      intros [= <- <-]; change (list_fmap ?f ?l) with (f <$> l); by rewrite ?handed_app, app_nil_r.
  - cbn [Client.step] in Hstep. revert Hstep. unfold_method. unfold Client.on_report.
    cbn [hears hear]. destruct (Window.sequence_report _) as [report win].
    destruct (Encoder.report_frame _ _) as [[f|er|] e]; [|discriminate..]. intros [= <- <-].
    cbn [mbind outcome_bind]. by rewrite handed_tunnel.
  - destruct (client_makes (Client.Flush draw) Encoder.Flush c Hc) as
      (fs & ws & c1 & _ & Hs & _ & _ & Hdec & _); [done..|].
    rewrite Hs in Hstep. injection Hstep as <- <-. cbn. by rewrite handed_tunnel, Hdec.
Qed.

(** What was heard is what the client decoded. *)
Lemma heard_opened rt evs :
  Forall (fun x => decode_client_frame (fst (snd x)) (id_key_id rt) (id_key rt) = Ok (snd (snd x))) (omap (heard rt) evs).
Proof.
  apply Forall_forall. intros [clk [buf f]] (ev & _ & Hev)%list_elem_of_omap. destruct ev as [| |clk' buf'| |]; try done.
  cbn in Hev. destruct (decode_client_frame buf' _ _) as [f'| |] eqn:Hd; [|done..].
  destruct (_ && _ && _); [|done]. by injection Hev as <- <- <-.
Qed.

Lemma client_turns evs (c : Client.t Addr) :
  client_ok c -> is_Some (Client.app_peer c) -> Forall client_event_ok evs ->
  Forall data_frame (omap (heard (Client.runtime c)) evs) ->
  exists out c', Client.run evs c = (Ok out, c') /\
    handed out = fst (hears (evs ≫= hearing (Client.runtime c)) (Client.decoder c)).
Proof.
  intros Hc Happ HF. revert c Hc Happ. induction HF as [|ev evs Hev _ IH]; intros c Hc Happ Hdata.
  { by exists [], c. }
  assert (omap (heard (Client.runtime c)) (ev :: evs) =
    option_list (heard (Client.runtime c) ev) ++ omap (heard (Client.runtime c)) evs) as Ho
    by (cbn; by destruct (heard _ ev)).
  rewrite Ho in Hdata. apply Forall_app in Hdata as [Hd1 Hd2].
  destruct (client_turn ev c Hc Happ Hev Hd1) as (o1 & c1 & Hs & Hc1 & Ha1 & Hr1 & Hf1).
  rewrite <- Hr1 in Hd2. destruct (IH c1 Hc1 Ha1 Hd2) as (o2 & c2 & Hs2 & Hf2).
  exists (o1 ++ o2), c2. cbn [Client.run]. unfold_method. rewrite Hs, Hs2. split; [done|].
  unfold handed at 1. rewrite omap_app. fold (handed o1) (handed o2).
  rewrite bind_cons, hears_app, <- Hf1, Hf2, Hr1.
  by destruct (hears (evs ≫= hearing (Client.runtime c)) (Client.decoder c1)).
Qed.

(** What the decoder is fed: the frames heard, and ticks only where there are. *)
Lemma hearing_frames rt evs :
  omap Datatypes.id (evs ≫= hearing rt) = arrival <$> omap (heard rt) evs /\
  (None ∈ evs ≫= hearing rt -> exists draw, Client.Report draw ∈ evs).
Proof.
  induction evs as [|ev evs [IH1 IH2]]; [split; [done|]; by intros ?%elem_of_nil|].
  assert (omap (heard rt) (ev :: evs) = option_list (heard rt ev) ++ omap (heard rt) evs) as ->
    by (cbn; by destruct (heard rt ev)).
  rewrite bind_cons, omap_app, IH1, fmap_app. split.
  - f_equal. destruct ev; try done; cbn [hearing]; by destruct (heard rt _).
  - rewrite elem_of_app. intros [Hin|Hin].
    + destruct ev as [| | |draw|]; try (by apply list_elem_of_fmap in Hin as (? & ? & _)). exists draw. by left.
    + destruct (IH2 Hin) as [draw ?]. exists draw. by right.
Qed.
End downloads.

(** C3: what the service answers reaches the application.  Let a session's
    worker with a peer take in any datagrams that fit one group from upstream
    and flush, and let the client of that session have an application peer and a
    decoder ready for the group.  In whatever order, with whatever repetitions
    and losses, mixed with foreign datagrams, with the client's own sending and,
    unless the worker's numbers wrap or trail those seen by 64, with its report
    ticks, copies of the worker's datagrams arrive: if within two seconds the client
    has received all the data frames or, when the worker adds parity, any
    distinct frames as many as there are fragments, then it has handed exactly
    those datagrams to the application, each once, unaltered. *)
Theorem downloads_delivered (Addr : Type) (C : Crypto) (L : CryptoLaws C) (R : ErasureCode) (S : ErasureShape R)
    (cfg : config) (m : gmap (N * N) (entry Addr)) (id : N * N) (e : entry Addr) (p : Addr) (c : Client.t Addr)
    (turns : list (event Addr)) (draw : nat -> bytes * bytes) (ds : list bytes) :
  let enc := Worker.encoder (worker e) in
  let rt := Client.runtime c in
  let n := length (Encoder.fragments (Encoder.packet enc) (Encoder.Datagram <$> ds)) in
  server_inv cfg m -> m !! id = Some e -> finished e = false -> Worker.peer (worker e) = Some p ->
  Encoder.shards enc = [] -> ds <> [] -> (n <= DATA_SHARDS)%nat ->
  Forall2 (answers id) turns (Encoder.Datagram <$> ds) -> draws_ok draw ->
  Frame.v3_selector_prefix (fst id) <> u32_be MAGIC ->
  client_ok c -> id = (id_key_id rt, id_session rt) -> id_key (Worker.runtime (worker e)) = id_key rt ->
  is_Some (Client.app_peer c) -> ready (Client.decoder c) enc (length ds) ->
  exists wires m', run cfg (turns ++ [Flush id draw]) m = (ToPublic p <$> wires, m') /\
  forall (T : N) (evs : list (Client.event Addr)) (ks : list nat),
    Forall client_event_ok evs ->
    (forall draw, Client.Report draw ∈ evs -> reports_safe (Client.decoder c) enc) ->
    Forall2 (fun '(clk, (buf, _)) k => (forall i, T <= clk i < T + GROUP_TTL) /\ wires !! k = Some buf)
      (omap (heard rt) evs) ks ->
    (forall k, (k < n)%nat -> k ∈ ks) \/
      (0 < Encoder.level enc /\ n <= size (list_to_set ks : gset nat))%nat ->
    exists out c', Client.run evs c = (Ok out, c') /\ handed out ≡ₚ ds.
Proof.
  intros enc rt n Hinv He Hfin Hpeer Hopen Hne Hn Hturns Hdraw Hmagic Hc Hid Hkey Happ Hready.
  pose proof Hinv as (_ & _ & Hall). destruct (Hall _ _ He) as (Hw & Hk & Hs & Hv & _).
  pose proof Hw as (_ & _ & Henc & Hcodes & _).
  destruct (batch_delivered R enc ds _ Henc Hopen Hcodes Hne Hn Hready) as (fs & e' & Hrun & Hkinds & Hcount & Hdel).
  destruct (answering_batch cfg id (turns ++ [Flush id draw]) ((Encoder.Datagram <$> ds) ++ [Encoder.Flush]) p
    (Worker.runtime (worker e)) enc m fs e' Hv) as (wires & m' & Hsrun & Hsealed & Hof);
    [by apply Forall2_app; [|constructor]|by eapply batch_inputs|by exists e|done|].
  exists wires, m'. split; [done|]. intros T evs ks Hevs Hreports HF Henough.
  destruct (copies_opened _ _ _ _ _ _ Hsealed Hkinds HF) as [Hdata HF'].
  { intros clk buf f f0 Hin Hf0 Hseal. pose proof (heard_opened rt evs) as Hd.
    rewrite Forall_forall in Hd. rewrite Forall_forall in Hof. destruct (Hof _ Hf0) as (Hwf & Hfv & Hfk & _).
    specialize (Hd _ Hin). cbn [fst snd] in Hd.
    replace (id_key_id rt) with (Frame.key_id f0) in Hd by (rewrite Hfk, Hk, Hid; done).
    rewrite <- Hkey in Hd. rewrite (client_opens _ f0) in Hd; [|done|congruence|done|congruence].
    by apply Ok_inj in Hd. }
  destruct (client_turns evs c Hc Happ Hevs Hdata) as (out & c' & Hcrun & Hout).
  exists out, c'. split; [done|]. rewrite Hout. destruct (hearing_frames (Client.runtime c) evs) as [Hid' Hno].
  apply (Hdel T _ ks); [|by rewrite Hid'|done]. intros Hin. destruct (Hno Hin) as [tick ?]. by eapply Hreports.
Qed.

(** The same session: the worker has sent a report, the client heard it. *)
Definition demo_answering : list (output N) * gmap (N * N) (entry N) :=
  run (C := toy_crypto) (R := xor_code) demo_config [Report (42, 77) demo_draw] demo_session.
Definition demo_sent : list bytes :=
  omap (fun o => match o with ToPublic _ w => Some w | _ => None end) (fst demo_answering).
Definition demo_responder : entry N :=
  default (fresh_entry demo_config 0 (demo_frame 0 0) []) (snd demo_answering !! (42, 77)).
Definition demo_client_start : Client.t N :=
  Client.mk demo_identity (Decoder.new 77) (Encoder.with_identity (Some 1%nat) 77 3 42) None.
Definition demo_listener : Client.t N :=
  snd (Client.run (C := toy_crypto) (R := xor_code)
    [Client.Local demo_draw [x61] 5; Client.Tunnel (fun _ => 12) (default [] (head demo_sent))] demo_client_start).
Definition demo_answers : list (event N) :=
  [FromUpstream (42, 77) 21 demo_draw [x64]; FromUpstream (42, 77) 22 demo_draw [x65; x66]].
Definition demo_replies : list bytes :=
  omap (fun o => match o with ToPublic _ w => Some w | _ => None end)
    (fst (run (C := toy_crypto) (R := xor_code) demo_config (demo_answers ++ [Flush (42, 77) demo_draw]) (snd demo_answering))).
Definition demo_hearing : list (Client.event N) :=
  [Client.Tunnel (fun _ => 40) (default [] (demo_replies !! 2%nat)); Client.Local demo_draw [x67] 6;
   Client.Tunnel (fun _ => 41) [x00]; Client.Report demo_draw; Client.Tunnel (fun _ => 42) (default [] (demo_replies !! 0%nat));
   Client.Flush demo_draw].

Definition demo_read (w : bytes) : Frame.t :=
  match decode_client_frame (C := toy_crypto) w 42 sample_key with Ok f => f | _ => demo_frame 0 0 end.

Lemma demo_heard :
  let w k := default [] (demo_replies !! k) in
  omap (heard (C := toy_crypto) demo_identity) demo_hearing =
  [(fun _ => 40, (w 2%nat, demo_read (w 2%nat))); (fun _ => 42, (w 0%nat, demo_read (w 0%nat)))].
Proof. vm_compute. reflexivity. Qed.

Lemma public_wires (p : N) (ws : list bytes) :
  omap (fun o => match o with ToPublic _ w => Some w | _ => None end) ((ToPublic p <$> ws) : list (output N)) = ws.
Proof. induction ws as [|w ws IH]; [done|]. cbn. by rewrite IH. Qed.

Lemma demo_listener_ok : client_ok (R := xor_code) demo_listener /\ Client.runtime demo_listener = demo_identity.
Proof.
  assert (client_ok (R := xor_code) demo_client_start) as Hc0.
  { split; [|done]. unfold ends_ok. cbn. split_and!; try done;
      [apply Decoder.new_inv|by apply Encoder.with_identity_inv|apply Encoder.xor_codes]. }
  destruct (client_run (C := toy_crypto) (R := xor_code)
    [Client.Local demo_draw [x61] 5; Client.Tunnel (fun _ => 12) (default [] (head demo_sent))] demo_client_start Hc0)
    as (out & c' & Hrun & Hc & Hr & _); [repeat constructor; cbn; lia|].
  unfold demo_listener. rewrite Hrun. split; [done|exact Hr].
Qed.

Lemma downloads_delivered_witness :
  exists out c', Client.run (C := toy_crypto) (R := xor_code) demo_hearing demo_listener = (Ok out, c') /\
    handed out ≡ₚ [[x64]; [x65; x66]].
Proof.
  assert (draws_ok demo_draw) as Hd by done. destruct demo_listener_ok as [Hc Hr].
  destruct (downloads_delivered N toy_crypto toy_crypto_laws xor_code xor_code_shape demo_config
    (snd demo_answering) (42, 77) demo_responder 1 demo_listener demo_answers demo_draw [[x64]; [x65; x66]])
    as (wires & m' & Hrun & H).
  - unfold demo_answering, demo_session.
    do 2 (apply server_run_inv; [exact demo_config_ok|]). apply server_empty_inv.
  - vm_compute. reflexivity.
  - vm_compute. reflexivity.
  - vm_compute. reflexivity.
  - vm_compute. reflexivity.
  - discriminate.
  - apply Nat.leb_le. vm_compute. reflexivity.
  - repeat constructor; apply Hd.
  - exact Hd.
  - vm_compute. discriminate.
  - exact Hc.
  - by rewrite Hr.
  - rewrite Hr. vm_compute. reflexivity.
  - vm_compute. by eexists.
  - unfold ready. split_and!.
    + vm_compute. reflexivity.
    + vm_compute. reflexivity.
    + apply Nat.ltb_lt. vm_compute. reflexivity.
    + intros q _. vm_compute. by destruct q.
    + apply Nat.leb_le. vm_compute. reflexivity.
    + intros (Hf & _). vm_compute in Hf. discriminate Hf.
    + apply (bool_decide_unpack _). vm_compute. exact I.
  - assert (demo_replies = wires) as Hw by (unfold demo_replies; rewrite Hrun; apply public_wires).
    apply (H 40 demo_hearing [2; 0]%nat).
    + unfold demo_hearing. do 6 (apply Forall_cons_2; [cbn [client_event_ok]; first [exact I|exact Hd|split; [exact Hd|discriminate]]|]).
      constructor.
    + intros tick _. split; [vm_compute; discriminate|vm_compute; reflexivity].
    + assert (forall k, (k < 3)%nat -> wires !! k = Some (default [] (demo_replies !! k))) as Hk.
      { intros k Hk. rewrite <- Hw. destruct (lookup_lt_is_Some_2 demo_replies k) as [w Hwk]; [|by rewrite Hwk].
        replace (length demo_replies) with 3%nat by (vm_compute; reflexivity). exact Hk. }
      rewrite Hr, demo_heard. constructor; [|constructor; [|constructor]];
        (split; [intros _; split; [discriminate|reflexivity]|apply Hk; lia]).
    + right. split; vm_compute; lia.
Defined.
