(* ===== verification/Float64.v ===== *)
(** * Rust's [f64] and [Duration]'s conversions

    An operation on finite [f64] values is the exact operation on rationals
    followed by rounding to the nearest binary64 number, ties to even, as IEEE 754
    defines it.  A finite value is a rational (up to [==]), so that the sign of
    zero is not kept.  [Duration]s are nanoseconds.  Nothing here is code of the
    program; [Pacer] is written with it. *)
From Stdlib Require Import QArith Qround Qabs Qpower Lqa SpecFloat.
From S2P Require Import Prelude.

#[local] Open Scope Q_scope.

Module F64.
Inductive f64 :=
| Fin (q : Q)
| Inf (negative : bool)
| NaN.

(** ** Rounding *)

(** The integer nearest to [x], the even one of two. *)
Definition nearest (x : Q) : Z :=
  let f := Qfloor x in
  match (x - inject_Z f ?= 1 # 2)%Q with
  | Lt => f
  | Gt => (f + 1)%Z
  | Eq => if Z.even f then f else (f + 1)%Z
  end.

(** The power of two below [q]: [2 ^ magnitude q <= |q| < 2 ^ (magnitude q + 1)]. *)
Definition magnitude (q : Q) : Z :=
  let e := (Z.log2 (Z.abs (Qnum q)) - Z.log2 (Zpos (Qden q)))%Z in
  if Qle_bool (2 ^ e)%Q (Qabs q) then e else (e - 1)%Z.

(** The exponent of the last place: 53 bits of precision, subnormals below. *)
Definition ulp_exponent (q : Q) : Z := Z.max (magnitude q - 52) (-1074).

Definition rounded (q : Q) : Q :=
  let e := ulp_exponent q in inject_Z (nearest (q * 2 ^ (- e))) * 2 ^ e.

Definition round (q : Q) : f64 :=
  if Qeq_bool q 0 then Fin 0 else
  let r := rounded q in
  if Qle_bool (2 ^ 1024) (Qabs r) then Inf (negb (Qle_bool 0 q)) else Fin r.

(** ** Operations *)
Definition of_N (n : N) : f64 := round (inject_Z (Z.of_N n)).

Definition negative (q : Q) : bool := negb (Qle_bool 0 q).

Definition opp (x : f64) : f64 :=
  match x with Fin q => Fin (- q) | Inf s => Inf (negb s) | NaN => NaN end.

Definition add (x y : f64) : f64 :=
  match x, y with
  | Fin a, Fin b => round (a + b)
  | Inf s, Fin _ => Inf s
  | Fin _, Inf s => Inf s
  | Inf s, Inf s' => if Bool.eqb s s' then Inf s else NaN
  | _, _ => NaN
  end.

Definition sub (x y : f64) : f64 := add x (opp y).

Definition mul (x y : f64) : f64 :=
  match x, y with
  | Fin a, Fin b => round (a * b)
  | Inf s, Fin a | Fin a, Inf s => if Qeq_bool a 0 then NaN else Inf (xorb s (negative a))
  | Inf s, Inf s' => Inf (xorb s s')
  | _, _ => NaN
  end.

(** A zero divisor counts as positive. *)
Definition div (x y : f64) : f64 :=
  match x, y with
  | Fin a, Fin b =>
      if Qeq_bool b 0 then (if Qeq_bool a 0 then NaN else Inf (negative a)) else round (a / b)
  | Inf s, Fin b => Inf (xorb s (negative b))
  | Fin _, Inf _ => Fin 0
  | _, _ => NaN
  end.

Definition le (x y : f64) : bool :=
  match x, y with
  | Fin a, Fin b => Qle_bool a b
  | Inf s, Fin _ => s
  | Fin _, Inf s => negb s
  | Inf s, Inf s' => s || negb s'
  | _, _ => false
  end.

Definition lt (x y : f64) : bool :=
  match x, y with
  | Fin a, Fin b => negb (Qle_bool b a)
  | Inf s, Fin _ => s
  | Fin _, Inf s => negb s
  | Inf s, Inf s' => s && negb s'
  | _, _ => false
  end.

(** [f64::max] and [f64::min]: the other argument if one is NaN. *)
Definition max (x y : f64) : f64 :=
  match x, y with NaN, z | z, NaN => z | _, _ => if lt x y then y else x end.

Definition min (x y : f64) : f64 :=
  match x, y with NaN, z | z, NaN => z | _, _ => if lt y x then y else x end.

Definition is_finite (x : f64) : bool := match x with Fin _ => true | _ => false end.

(** [(low..=high).contains(&x)] *)
Definition contains (low high x : f64) : bool := le low x && le x high.

(** ** [Duration] *)
Definition NANOS_PER_SEC : N := 1000000000.

(** [Duration::as_secs_f64]: [self.secs as f64 + self.nanos as f64 / NANOS_PER_SEC as f64] *)
Definition as_secs_f64 (nanos : N) : f64 :=
  add (of_N (nanos / NANOS_PER_SEC)) (div (of_N (nanos mod NANOS_PER_SEC)) (of_N NANOS_PER_SEC)).

(** [Duration::from_secs_f64]: the nearest number of nanoseconds; it panics on a
    negative, an infinite and an overflowing value and on NaN. *)
Definition from_secs_f64 (secs : f64) : result N :=
  match secs with
  | Fin q =>
      if negative q || Qle_bool (2 ^ 64) q then Panic
      else Ok (Z.to_N (nearest (q * inject_Z (Z.of_N NANOS_PER_SEC))))
  | _ => Panic
  end.

(** [Instant::duration_since], zero if [earlier] is later. *)
Definition duration_since (now earlier : N) : N := (now - earlier)%N.

(** ** Lemmas: powers of two *)
Lemma pow2_pos e : 0 < 2 ^ e.
Proof. by apply Qpower_0_lt. Qed.

Lemma pow2_add a b : 2 ^ (a + b) == 2 ^ a * 2 ^ b.
Proof. by apply Qpower_plus. Qed.

Lemma pow2_le a b : (a <= b)%Z -> 2 ^ a <= 2 ^ b.
Proof. intros H. by apply Qpower_le_compat_l. Qed.

Lemma pow2_inject e : (0 <= e)%Z -> inject_Z (2 ^ e) == 2 ^ e.
Proof. apply (Zpower_Qpower 2). Qed.

(** ** Lemmas: rounding *)
Lemma nearest_error x : x - (1 # 2) <= inject_Z (nearest x) <= x + (1 # 2).
Proof.
  unfold nearest. pose proof (Qfloor_le x) as Hl. pose proof (Qlt_floor x) as Hu.
  rewrite inject_Z_plus in Hu. change (inject_Z 1) with 1 in Hu.
  destruct (Qcompare_spec (x - inject_Z (Qfloor x)) (1 # 2));
    [destruct (Z.even _)|..]; rewrite ?inject_Z_plus; change (inject_Z 1) with 1; lra.
Qed.

Lemma nearest_nonneg x : 0 <= x -> (0 <= nearest x)%Z.
Proof.
  intros Hx. assert (0 <= Qfloor x)%Z as Hf.
  { change 0%Z with (Qfloor 0). by apply Qfloor_resp_le. }
  unfold nearest. destruct (_ ?= _); [destruct (Z.even _)|..]; lia.
Qed.

Lemma nearest_integer x z : x == inject_Z z -> nearest x = z.
Proof.
  intros Hx. unfold nearest. rewrite (Qfloor_comp _ _ Hx), Qfloor_Z.
  destruct (Qcompare_spec (x - inject_Z z) (1 # 2)); [exfalso; lra|done|exfalso; lra].
Qed.

Lemma magnitude_spec q : ~ q == 0 -> 2 ^ magnitude q <= Qabs q < 2 ^ (magnitude q + 1).
Proof.
  intros Hq. set (n := Z.abs (Qnum q)). set (d := Zpos (Qden q)).
  assert (0 < n)%Z as Hn. { unfold n. destruct q as [[]]; [by destruct Hq|done..]. }
  destruct (Z.log2_spec n Hn) as [Hn1 Hn2]. destruct (Z.log2_spec d) as [Hd1 Hd2]; [lia|].
  pose proof (Z.log2_nonneg n) as Hln. pose proof (Z.log2_nonneg d) as Hld.
  rewrite Zle_Qle in Hn1, Hd1. rewrite Zlt_Qlt in Hn2, Hd2.
  rewrite pow2_inject in Hn1, Hn2, Hd1, Hd2 by lia.
  assert (inject_Z n == Qabs q * inject_Z d) as Ha.
  { destruct q as [a b]. unfold Qeq, Qabs, n, d. cbn. lia. }
  assert (2 ^ Z.log2 n == 2 ^ (Z.log2 n - Z.log2 d) * 2 ^ Z.log2 d) as Hp.
  { rewrite <-pow2_add. by rewrite Z.sub_add. }
  rewrite <-Z.add_1_r in Hn2, Hd2. rewrite pow2_add in Hn2, Hd2. change (2 ^ 1) with 2 in *.
  unfold magnitude. fold n d.
  pose proof (pow2_pos (Z.log2 n - Z.log2 d)) as H1. pose proof (pow2_pos (Z.log2 d)) as H2.
  set (P := 2 ^ (Z.log2 n - Z.log2 d)) in *. set (L := 2 ^ Z.log2 d) in *.
  destruct (Qle_bool P (Qabs q)) eqn:E.
  - apply Qle_bool_iff in E. rewrite pow2_add. change (2 ^ 1) with 2. fold P. split; [done|]. nra.
  - assert (Qabs q < P) as HP. { apply Qnot_le_lt. intros H. apply Qle_bool_iff in H. congruence. }
    rewrite Z.sub_add. fold P. split; [|done].
    assert (2 ^ (Z.log2 n - Z.log2 d - 1) == P * (1 # 2)) as -> by (unfold P; by rewrite <-(pow2_add _ (-1))).
    nra.
Qed.

Lemma rounded_scaled q : q * 2 ^ (- ulp_exponent q) * 2 ^ ulp_exponent q == q.
Proof. rewrite <-Qmult_assoc, <-pow2_add, Z.add_opp_diag_l. change (2 ^ 0) with 1. ring. Qed.

(** The unit roundoff, and a bound of what subnormals lose. *)
Definition unit_roundoff : Q := 1 # (2 ^ 53).
Definition tiny : Q := 1 # (10 ^ 30).
Definition error (q : Q) : Q := Qabs q * unit_roundoff + tiny.

Lemma ulp_error q : ~ q == 0 -> 2 ^ ulp_exponent q * (1 # 2) <= error q.
Proof.
  intros Hq. destruct (magnitude_spec q Hq) as [Hm _]. unfold ulp_exponent, error.
  pose proof (Qabs_nonneg q). destruct (Z.max_spec (magnitude q - 52) (-1074)) as [[_ ->]|[_ ->]].
  - assert (2 ^ (-1074) * (1 # 2) <= tiny) by (vm_compute; discriminate).
    assert (0 <= Qabs q * unit_roundoff) by (apply Qmult_le_0_compat; [done|vm_compute; discriminate]). lra.
  - unfold Z.sub. rewrite pow2_add. assert (2 ^ (- (52)) == 2 * unit_roundoff) as -> by done.
    assert (0 < unit_roundoff) by done. assert (0 < tiny) by done. nra.
Qed.

Lemma rounded_error q : ~ q == 0 -> q - error q <= rounded q <= q + error q.
Proof.
  intros Hq. pose proof (ulp_error q Hq) as He. pose proof (pow2_pos (ulp_exponent q)) as Hp.
  pose proof (nearest_error (q * 2 ^ (- ulp_exponent q))) as [Hl Hu]. pose proof (rounded_scaled q) as Hs.
  unfold rounded. set (x := q * 2 ^ (- ulp_exponent q)) in *. nra.
Qed.

Lemma Qle_bool_false a b : Qle_bool a b = false <-> b < a.
Proof.
  destruct (Qle_bool a b) eqn:E.
  - apply Qle_bool_iff in E. split; [done|]. intros H. exfalso. lra.
  - split; [|done]. intros _. apply Qnot_le_lt. intros H. apply Qle_bool_iff in H. congruence.
Qed.

(** The range in which the lemmas promise a finite result. *)
Definition large : Q := inject_Z (2 ^ 1000).

Lemma round_spec q :
  - large <= q <= large ->
  exists r, round q = Fin r /\ q - error q <= r <= q + error q /\ (0 <= q -> 0 <= r).
Proof.
  intros Hq. unfold round. destruct (Qeq_bool q 0) eqn:E0.
  { apply Qeq_bool_iff in E0. exists 0. split; [done|]. split; [|by intros].
    assert (0 <= error q) by (unfold error; rewrite E0; vm_compute; discriminate). lra. }
  apply Qeq_bool_neq in E0. pose proof (rounded_error q E0) as Hr.
  assert (error q <= large) as He.
  { assert (Qabs q <= large) as Ha by (apply Qabs_Qle_condition; lra).
    unfold error. pose proof (Qmult_le_compat_r _ _ unit_roundoff Ha ltac:(done)) as Hm.
    assert (large * unit_roundoff + tiny <= large) by (vm_compute; discriminate). lra. }
  assert (Qle_bool (2 ^ 1024) (Qabs (rounded q)) = false) as ->.
  { apply Qle_bool_false. assert (Qabs (rounded q) <= 2 * large) by (apply Qabs_Qle_condition; lra).
    assert (2 * large < 2 ^ 1024) by done. lra. }
  exists (rounded q). split; [done|]. split; [done|]. intros H0. unfold rounded.
  apply Qmult_le_0_compat; [|apply Qlt_le_weak, pow2_pos].
  change 0 with (inject_Z 0). rewrite <-Zle_Qle. apply nearest_nonneg, Qmult_le_0_compat; [done|].
  apply Qlt_le_weak, pow2_pos.
Qed.

(** A dyadic number of at most 53 bits is a value of [f64]. *)
Lemma round_exact q m k :
  q == inject_Z m * 2 ^ k -> (Z.abs m < 2 ^ 53)%Z -> (-1074 <= k <= 900)%Z ->
  exists r, round q = Fin r /\ r == q.
Proof.
  intros Hq Hm Hk. unfold round. destruct (Qeq_bool q 0) eqn:E0.
  { apply Qeq_bool_iff in E0. exists 0. by rewrite E0. }
  apply Qeq_bool_neq in E0. destruct (magnitude_spec q E0) as [Hl _].
  assert (Qabs q < 2 ^ (53 + k)) as Hu.
  { rewrite Hq, Qabs_Qmult, pow2_add, (Qabs_pos (2 ^ k)) by apply Qlt_le_weak, pow2_pos.
    apply Qmult_lt_compat_r; [apply pow2_pos|]. change (Qabs (inject_Z m)) with (inject_Z (Z.abs m)).
    rewrite Zlt_Qlt in Hm. exact Hm. }
  assert (magnitude q < 53 + k)%Z as Hmag by (apply (Qpower_lt_compat_l_inv 2); [lra|done]).
  assert (rounded q == q) as Hr.
  { unfold rounded. set (e := ulp_exponent q). assert (e <= k)%Z by (unfold e, ulp_exponent; lia).
    assert (q * 2 ^ (- e) == inject_Z (m * 2 ^ (k - e))) as Hi.
    { rewrite Hq, inject_Z_mult, pow2_inject, <-Qmult_assoc, <-pow2_add by lia. by rewrite Z.add_opp_r. }
    rewrite (nearest_integer _ _ Hi), <-Hi. apply rounded_scaled. }
  assert (Qle_bool (2 ^ 1024) (Qabs (rounded q)) = false) as ->.
  { apply Qle_bool_false. rewrite Hr. eapply Qlt_le_trans; [exact Hu|]. apply pow2_le. lia. }
  by exists (rounded q).
Qed.

Lemma of_N_exact n : (n < 2 ^ 53)%N -> exists r, of_N n = Fin r /\ r == inject_Z (Z.of_N n).
Proof. intros Hn. apply (round_exact _ (Z.of_N n) 0); [change (2 ^ 0) with 1; ring|lia|lia]. Qed.

(** ** Lemmas: bounds with literal constants, for [lra] *)
Lemma error_le q M : - M <= q <= M -> error q <= M * (12 # 100000000000000000) + (1 # 1000000000000000000000000000000).
Proof.
  intros Hq. assert (Qabs q <= M) as Ha by (apply Qabs_Qle_condition; lra).
  pose proof (Qabs_nonneg q). unfold error. assert (unit_roundoff <= 12 # 100000000000000000) by (vm_compute; discriminate).
  assert (0 <= unit_roundoff) by done. change tiny with (1 # 1000000000000000000000000000000). nra.
Qed.

(** A number of size at most [M]: an absolute error. *)
Lemma round_within q M :
  - M <= q <= M -> M <= 10000000000000000000000000000000000000000 ->
  exists r, round q = Fin r /\ (0 <= q -> 0 <= r) /\
    q - (M * (12 # 100000000000000000) + (1 # 1000000000000000000000000000000)) <= r
      <= q + (M * (12 # 100000000000000000) + (1 # 1000000000000000000000000000000)).
Proof.
  intros Hq HM. assert (10000000000000000000000000000000000000000 <= large) by (vm_compute; discriminate).
  destruct (round_spec q) as (r & Hr & He & H0); [lra|]. pose proof (error_le q M Hq).
  exists r. split_and!; [done|done|lra..].
Qed.

(** A number that is not negative: a relative error. *)
Lemma round_nonneg q :
  0 <= q <= 10000000000000000000000000000000000000000 ->
  exists r, round q = Fin r /\ 0 <= r /\
    q - (q * (12 # 100000000000000000) + (1 # 1000000000000000000000000000000)) <= r
      <= q + (q * (12 # 100000000000000000) + (1 # 1000000000000000000000000000000)).
Proof. intros Hq. destruct (round_within q q) as (r & Hr & H0 & He); [lra..|]. exists r. split_and!; [done|tauto|lra..]. Qed.

Definition Q_of_N (n : N) : Q := inject_Z (Z.of_N n).

Lemma Q_of_N_nonneg n : 0 <= Q_of_N n.
Proof. unfold Q_of_N. change 0 with (inject_Z 0). rewrite <-Zle_Qle. lia. Qed.

Lemma Q_of_N_le m n : (m <= n)%N -> Q_of_N m <= Q_of_N n.
Proof. intros H. unfold Q_of_N. rewrite <-Zle_Qle. lia. Qed.

Lemma Q_of_N_add m n : Q_of_N (m + n) == Q_of_N m + Q_of_N n.
Proof. unfold Q_of_N. by rewrite N2Z.inj_add, inject_Z_plus. Qed.

(** Rounding does not fall below a small integer. *)
Lemma round_above k q r : (-32 <= k <= 0)%Z -> inject_Z k <= q -> round q = Fin r -> inject_Z k <= r.
Proof.
  intros Hk Hq Hr. assert (inject_Z k <= 0) as Hk0 by (change 0 with (inject_Z 0); rewrite <-Zle_Qle; lia).
  unfold round in Hr. destruct (Qeq_bool q 0) eqn:E0; [by injection Hr as <-|]. apply Qeq_bool_neq in E0.
  destruct (Qle_bool (2 ^ 1024) _); [discriminate Hr|]. injection Hr as <-. unfold rounded.
  pose proof (pow2_pos (ulp_exponent q)) as Hp. destruct (Qlt_le_dec q 0) as [Hneg|Hpos].
  - assert (ulp_exponent q <= 0)%Z as He.
    { assert (magnitude q < 6)%Z; [|unfold ulp_exponent; lia].
      apply (Qpower_lt_compat_l_inv 2); [|lra]. destruct (magnitude_spec q E0) as [Hm _].
      assert (Qabs q <= 32) as Ha.
      { apply Qabs_Qle_condition. assert (- (32) <= inject_Z k) by (change (- (32)) with (inject_Z (-32)); rewrite <-Zle_Qle; lia). lra. }
      change (2 ^ 6) with 64. lra. }
    assert (inject_Z (k * 2 ^ (- ulp_exponent q)) <= q * 2 ^ (- ulp_exponent q)) as Hz.
    { rewrite inject_Z_mult, pow2_inject by lia. apply Qmult_le_compat_r; [done|]. apply Qlt_le_weak, pow2_pos. }
    set (y := q * 2 ^ (- ulp_exponent q)) in *. set (z := (k * 2 ^ (- ulp_exponent q))%Z) in *.
    assert (z <= nearest y)%Z as Hzn.
    { pose proof (nearest_error y) as [Hl _]. assert (inject_Z (z - 1) < inject_Z (nearest y)) as Hlt
        by (unfold Z.sub; rewrite inject_Z_plus; change (inject_Z (-(1))) with (-(1)); lra). rewrite <-Zlt_Qlt in Hlt. lia. }
    apply (Qle_trans _ (inject_Z z * 2 ^ ulp_exponent q)); [|apply Qmult_le_compat_r; [by rewrite <-Zle_Qle|lra]].
    unfold z. rewrite inject_Z_mult, pow2_inject, <-Qmult_assoc, <-pow2_add, Z.add_opp_diag_l by lia. change (2 ^ 0) with 1. lra.
  - apply (Qle_trans _ 0); [done|]. apply Qmult_le_0_compat; [|lra]. change 0 with (inject_Z 0). rewrite <-Zle_Qle.
    apply nearest_nonneg, Qmult_le_0_compat; [done|]. apply Qlt_le_weak, pow2_pos.
Qed.

(** [as_secs_f64] is the number of seconds, up to a relative error. *)
Lemma as_secs_spec e :
  (e < 2 ^ 94)%N -> let x := Q_of_N e * (1 # 1000000000) in
  exists s, as_secs_f64 e = Fin s /\ 0 <= s /\
    x - (x * (1 # 1000000000000000) + (1 # 100000000000000000000000000000)) <= s
      <= x + (x * (1 # 1000000000000000) + (1 # 100000000000000000000000000000)).
Proof.
  intros He x. unfold as_secs_f64.
  assert (exists g, of_N NANOS_PER_SEC = Fin g /\ g == 1000000000) as (g & -> & Hg)
    by (eexists; split; [vm_compute; reflexivity|done]).
  destruct (of_N_exact (e mod NANOS_PER_SEC)) as (b & -> & Hb); [unfold NANOS_PER_SEC; div_lia|].
  fold (Q_of_N (e mod NANOS_PER_SEC)) in Hb. set (h := (e / NANOS_PER_SEC)%N) in *.
  assert (x == Q_of_N h + b * (1 # 1000000000)) as Hx.
  { unfold x, h. rewrite Hb. rewrite (N.div_mod e NANOS_PER_SEC) at 1 by done. rewrite Q_of_N_add.
    unfold Q_of_N at 1. rewrite N2Z.inj_mul, inject_Z_mult. fold (Q_of_N (e / NANOS_PER_SEC)).
    change (inject_Z (Z.of_N NANOS_PER_SEC)) with 1000000000. ring. }
  pose proof (Q_of_N_nonneg h) as Hh. pose proof (Q_of_N_nonneg (e mod NANOS_PER_SEC)) as Hb0. rewrite <-Hb in Hb0.
  assert (Q_of_N h <= 1000000000000000000000000000000) as Hh1. { apply (Qle_trans _ (Q_of_N (2 ^ 94))); [apply Q_of_N_le; unfold h, NANOS_PER_SEC; div_lia|vm_compute; discriminate]. }
  assert (b <= 1000000000) as Hb1.
  { rewrite Hb. apply (Qle_trans _ (Q_of_N 1000000000)); [apply Q_of_N_le; unfold NANOS_PER_SEC; div_lia|vm_compute; discriminate]. }
  destruct (round_nonneg (Q_of_N h)) as (a & Ha & Ha0 & Hae); [lra|]. unfold of_N. fold (Q_of_N h). rewrite Ha.
  unfold div. destruct (Qeq_bool g 0) eqn:E; [apply Qeq_bool_iff in E; exfalso; lra|].
  assert (b / g == b * (1 # 1000000000)) as Hd by (rewrite Hg; field).
  destruct (round_nonneg (b / g)) as (f & Hf & Hf0 & Hfe); [rewrite Hd; lra|]. rewrite Hf. rewrite Hd in Hfe.
  cbn [add]. destruct (round_nonneg (a + f)) as (s & Hs & Hs0 & Hse); [lra|].
  exists s. split_and!; [done|done|lra..].
Qed.

Lemma from_secs_spec q :
  0 <= q <= 1000000 ->
  exists d, from_secs_f64 (Fin q) = Ok d /\
    q * 1000000000 - (1 # 2) <= Q_of_N d <= q * 1000000000 + (1 # 2).
Proof.
  intros Hq. unfold from_secs_f64, negative.
  assert (Qle_bool 0 q = true) as -> by (apply Qle_bool_iff; lra).
  assert (Qle_bool (2 ^ 64) q = false) as ->.
  { apply Qle_bool_false. apply (Qle_lt_trans _ 1000000); [lra|]. by vm_compute. }
  cbn [negb orb]. eexists. split; [done|]. change (inject_Z (Z.of_N NANOS_PER_SEC)) with 1000000000.
  unfold Q_of_N. rewrite Z2N.id by (apply nearest_nonneg; lra). apply nearest_error.
Qed.

Lemma min_spec a b : exists m, min (Fin a) (Fin b) = Fin m /\ m <= a /\ m <= b /\ (m = a \/ m = b).
Proof.
  cbn [min]. unfold lt. destruct (Qle_bool a b) eqn:E; cbn [negb].
  - apply Qle_bool_iff in E. exists a. split_and!; [done|lra|done|by left].
  - apply Qle_bool_false in E. exists b. split_and!; [done|lra|lra|by right].
Qed.

Lemma max_spec a b : exists m, max (Fin a) (Fin b) = Fin m /\ a <= m /\ b <= m /\ (m = a \/ m = b).
Proof.
  cbn [max]. unfold lt. destruct (Qle_bool b a) eqn:E; cbn [negb].
  - apply Qle_bool_iff in E. exists a. split_and!; [done|lra|done|by left].
  - apply Qle_bool_false in E. exists b. split_and!; [done|lra|lra|by right].
Qed.
End F64.

(** The definitions agree with the specification of binary64 that comes with Rocq. *)
Definition SF2F64 (x : spec_float) : F64.f64 :=
  match x with
  | S754_zero _ => F64.Fin 0
  | S754_infinity s => F64.Inf s
  | S754_nan => F64.NaN
  | S754_finite s m e => F64.Fin (inject_Z (cond_Zopp s (Zpos m)) * 2 ^ e)
  end.

Definition same (x y : F64.f64) : bool :=
  match x, y with
  | F64.Fin a, F64.Fin b => Qeq_bool a b
  | F64.Inf s, F64.Inf s' => Bool.eqb s s'
  | F64.NaN, F64.NaN => true
  | _, _ => false
  end.

Definition samples : list spec_float :=
  (fun '(m, e) => binary_normalize 53 1024 m e false) <$>
    [(1, 0); (-3, 2); (1392, 0); (6004799503160661, -53); (4611686018427387, -60); (5764607523034235, -80)]%Z.

Example agrees_with_SpecFloat :
  forallb (fun x => forallb (fun y =>
    same (SF2F64 (SFadd 53 1024 x y)) (F64.add (SF2F64 x) (SF2F64 y)) &&
    same (SF2F64 (SFsub 53 1024 x y)) (F64.sub (SF2F64 x) (SF2F64 y)) &&
    same (SF2F64 (SFmul 53 1024 x y)) (F64.mul (SF2F64 x) (SF2F64 y)) &&
    same (SF2F64 (SFdiv 53 1024 x y)) (F64.div (SF2F64 x) (SF2F64 y)) &&
    Bool.eqb (SFltb x y) (F64.lt (SF2F64 x) (SF2F64 y)) && Bool.eqb (SFleb x y) (F64.le (SF2F64 x) (SF2F64 y)))
    samples) samples = true.
Proof. vm_compute. reflexivity. Qed.
