(* ===== verification/Pacer.v ===== *)
(** * The pacer (src/src/main.rs: [Pacer], and its use in [send_frames] and
    [send_session_frames])

    A token bucket in [f64] arithmetic over the monotonic clock: every datagram
    sent into the tunnel waits for its bytes.  The server's workers share one
    pacer behind a lock, so that the calls of [wait] form one sequence there too. *)
From Stdlib Require Import QArith Qabs Qminmax Lqa.
From S2P Require Import Prelude External Wire Fragment Float64.

#[local] Open Scope Q_scope.

Module Pacer.
Record t := mk {
  bytes_per_second : F64.f64;
  capacity : F64.f64;
  tokens : F64.f64;
  updated : N;
}.

(** [0.004], as the compiler reads the literal *)
Definition four_ms : F64.f64 := F64.round (4 # 1000).

(** [Pacer::new]; [now] is the clock's reading. *)
Definition new (rate_mbps : F64.f64) (now : N) : result t :=
  if negb (F64.is_finite rate_mbps) || negb (F64.contains (F64.of_N 1) (F64.of_N 1000) rate_mbps)
  then Err "rate-mbps must be between 1 and 1000"%string else
  let bytes_per_second := F64.div (F64.mul rate_mbps (F64.of_N 1000000)) (F64.of_N 8) in
  let capacity := F64.max (F64.mul bytes_per_second four_ms) (F64.of_N (N.of_nat (HEADER + SHARD + TAG))) in
  Ok (mk bytes_per_second capacity capacity now).

(** The parts of [Pacer::wait].  [now] is the clock's reading at its start: the
    tokens that flowed in since the last call, up to the capacity. *)
Definition refilled (now : N) (p : t) : t :=
  mk (bytes_per_second p) (capacity p)
    (F64.min (F64.add (tokens p)
      (F64.mul (F64.as_secs_f64 (F64.duration_since now (updated p))) (bytes_per_second p))) (capacity p)) now.

(** The sleep it asks for, if the tokens do not suffice: until the bucket is full. *)
Definition sleep (bytes : N) (p : t) : result (option N) :=
  if F64.lt (tokens p) (F64.of_N bytes) then
    duration ← F64.from_secs_f64 (F64.div (F64.sub (capacity p) (tokens p)) (bytes_per_second p));
    Ok (Some duration)
  else Ok None.

(** After the sleep, which ends at [now]. *)
Definition filled (now : N) (p : t) : t := mk (bytes_per_second p) (capacity p) (capacity p) now.

Definition spend (bytes : N) (p : t) : t :=
  mk (bytes_per_second p) (capacity p) (F64.sub (tokens p) (F64.of_N bytes)) (updated p).

(** [Pacer::wait]: how long it slept, if it did; [time::sleep] returns [late]
    after what was asked for. *)
Definition wait (bytes now late : N) : method t (option N) := fun p =>
  let p := refilled now p in
  match sleep bytes p with
  | Ok (Some duration) => (Ok (Some duration), spend bytes (filled (now + duration + late)%N p))
  | Ok None => (Ok None, spend bytes p)
  | Err e => (Err e, p)
  | Panic => (Panic, p)
  end.

(** One datagram: how long after the previous call the pacer is asked, how
    late its sleep ends, and the datagram. *)
Record call := mk_call {
  gap : N;
  late : N;
  datagram : bytes;
}.

(** The loop of [send_frames] and [send_session_frames] over sealed frames,
    one after the other: how long each waited. *)
Fixpoint run (calls : list call) : method t (list (option N)) :=
  match calls with
  | [] => mret []
  | c :: calls => fun p =>
      (slept ← wait (N.of_nat (length (datagram c))) (updated p + gap c)%N (late c);
       rest ← run calls; mret (slept :: rest)) p
  end.

Lemma pacer_run_app l k p s1 p1 s2 p2 :
  run l p = (Ok s1, p1) -> run k p1 = (Ok s2, p2) -> run (l ++ k) p = (Ok (s1 ++ s2), p2).
Proof.
  revert p s1. induction l as [|x l IH]; intros p s1; cbn [run app]; unfold_method.
  - by intros [= <- <-].
  - destruct (wait _ _ _ p) as [[d|e|] q]; [|discriminate..]. destruct (run l q) as [[rest|e|] q1] eqn:Hl; [|discriminate..].
    intros [= <- <-] Hk. by rewrite (IH q rest Hl Hk).
Qed.

(** ** Lemmas: one call *)

(** Scaling an approximation by a positive factor, as [lra] uses it. *)
Lemma scale b x y : 0 <= b -> x <= y -> x * b <= y * b.
Proof. intros Hb H. by apply Qmult_le_compat_r. Qed.

Section bucket.
(** The bucket's rate in bytes per second and its capacity. *)
Context (b c : Q) (Hb : 100000 <= b <= 150000000) (Hc : 1392 <= c <= 600000).

Definition bucket (tokens : Q) (updated : N) : t := mk (F64.Fin b) (F64.Fin c) (F64.Fin tokens) updated.

(** The tokens that flow in during [n] nanoseconds. *)
Definition inflow (n : N) : Q := F64.Q_of_N n * (1 # 1000000000) * b.

Lemma inflow_nonneg n : 0 <= inflow n.
Proof. unfold inflow. pose proof (F64.Q_of_N_nonneg n). nra. Qed.

Lemma inflow_add m n : inflow (m + n) == inflow m + inflow n.
Proof. unfold inflow. rewrite F64.Q_of_N_add. ring. Qed.

(** The refill at the start of [wait]. *)
Lemma refill tokens gap :
  -(28) <= tokens <= c -> (gap < 2 ^ 94)%N ->
  exists t1, F64.min (F64.add (F64.Fin tokens) (F64.mul (F64.as_secs_f64 gap) (F64.Fin b))) (F64.Fin c) = F64.Fin t1 /\
    -(28) <= t1 <= c /\ tokens - (1 # 1000000000) <= t1 /\
    t1 <= tokens + inflow gap * (1 + (1 # 1000000000000)) + (1 # 1000000000).
Proof.
  intros Ht Hg. destruct (F64.as_secs_spec gap Hg) as (s & -> & Hs0 & Hs).
  pose proof (F64.Q_of_N_nonneg gap) as Hg0.
  assert (F64.Q_of_N gap <= 1000000000000000000000000000000) as Hg1.
  { apply (Qle_trans _ (F64.Q_of_N (2 ^ 94))); [apply F64.Q_of_N_le; lia|by vm_compute]. }
  pose proof (inflow_nonneg gap) as Hw. unfold inflow in *. set (x := F64.Q_of_N gap * (1 # 1000000000)) in *.
  assert (0 <= s * b) as Hp0 by nra. pose proof (scale b _ _ ltac:(lra) (proj2 Hs)) as Hp.
  assert (x <= 1000000000000000000000) as Hx by (unfold x; lra).
  assert (x * b <= 1000000000000000000000 * b) as Hxb by (apply scale; lra).
  destruct (F64.round_nonneg (s * b)) as (i & Hi & Hi0 & Hie); [lra|]. cbn [F64.mul]. rewrite Hi. cbn [F64.add].
  destruct (F64.round_within (tokens + i) (600000 + i)) as (a & Ha & _ & Hae); [lra..|].
  assert (-(28) <= a) as Hlow.
  { change (-(28)) with (inject_Z (-28)). eapply F64.round_above; [done| |exact Ha]. change (inject_Z (-28)) with (-(28)). lra. }
  rewrite Ha. destruct (F64.min_spec a c) as (t1 & Hm & H1 & H2 & H3). exists t1.
  split; [done|]. split; [destruct H3; subst; lra|]. split; [destruct H3; subst; lra|lra].
Qed.

Lemma refilled_spec tokens u gap :
  -(28) <= tokens <= c -> (gap < 2 ^ 94)%N ->
  exists t1, refilled (u + gap) (bucket tokens u) = bucket t1 (u + gap) /\
    -(28) <= t1 <= c /\ tokens - (1 # 1000000000) <= t1 /\
    t1 <= tokens + inflow gap * (1 + (1 # 1000000000000)) + (1 # 1000000000).
Proof.
  intros Ht Hg. destruct (refill tokens gap Ht Hg) as (t1 & Hm & H). exists t1. split; [|done].
  unfold refilled, bucket. cbn [Pacer.tokens bytes_per_second capacity updated].
  unfold F64.duration_since. by rewrite (N.add_comm u), N.add_sub, Hm.
Qed.

(** The sleep that fills the bucket up. *)
Lemma fill t1 :
  -(29) <= t1 <= c ->
  exists d, F64.from_secs_f64 (F64.div (F64.sub (F64.Fin c) (F64.Fin t1)) (F64.Fin b)) = Ok d /\
    (c - t1) - (1 # 10) <= inflow d <= (c - t1) + (1 # 10).
Proof.
  intros Ht. cbn [F64.sub F64.opp F64.add].
  destruct (F64.round_nonneg (c + - t1)) as (d1 & Hd1 & Hd0 & Hde); [lra|]. rewrite Hd1.
  unfold F64.div. destruct (Qeq_bool b 0) eqn:E; [apply Qeq_bool_iff in E; exfalso; lra|].
  assert (0 <= d1 / b) as Hk0 by (apply Qle_shift_div_l; lra).
  assert (d1 / b <= 100) as Hk1 by (apply Qle_shift_div_r; lra).
  destruct (F64.round_nonneg (d1 / b)) as (q & Hq & Hq0 & Hqe); [lra|]. rewrite Hq.
  destruct (F64.from_secs_spec q) as (d & Hd & He); [lra|]. exists d. split; [done|].
  assert (d1 / b * b == d1) as Hk by (field; lra).
  pose proof (scale b _ _ ltac:(lra) (proj1 Hqe)). pose proof (scale b _ _ ltac:(lra) (proj2 Hqe)).
  pose proof (scale b _ _ ltac:(lra) (proj1 He)). pose proof (scale b _ _ ltac:(lra) (proj2 He)).
  unfold inflow. lra.
Qed.

(** Whether a datagram must wait, and for how long. *)
Lemma sleep_spec n t1 u :
  (1 <= n <= 1419)%N -> -(28) <= t1 <= c ->
  exists slept, sleep n (bucket t1 u) = Ok slept /\
    match slept with
    | None => F64.Q_of_N n <= t1
    | Some d => t1 < F64.Q_of_N n /\ (c - t1) - (1 # 10) <= inflow d <= (c - t1) + (1 # 10)
    end.
Proof.
  intros Hn Ht. unfold sleep, bucket. cbn [Pacer.tokens bytes_per_second capacity].
  destruct (F64.of_N_exact n) as (g & -> & Hgn); [by apply (N.le_lt_trans _ 1419); [lia|]|]. fold (F64.Q_of_N n) in Hgn.
  cbn [F64.lt]. destruct (Qle_bool g t1) eqn:E; cbn [negb].
  - apply Qle_bool_iff in E. exists None. split; [done|]. lra.
  - apply F64.Qle_bool_false in E. destruct (fill t1) as (d & -> & Hd); [lra|]. exists (Some d). split; [done|].
    split; lra.
Qed.

Lemma spend_spec n t1 u :
  (1 <= n <= 1419)%N -> -(28) <= t1 <= c ->
  exists t2, spend n (bucket t1 u) = bucket t2 u /\
    t1 - F64.Q_of_N n - (1 # 1000000000) <= t2 <= t1 - F64.Q_of_N n + (1 # 1000000000) /\
    (F64.Q_of_N n <= t1 -> 0 <= t2).
Proof.
  intros Hn Ht. unfold spend, bucket. cbn [Pacer.tokens bytes_per_second capacity updated].
  destruct (F64.of_N_exact n) as (g & -> & Hgn); [by apply (N.le_lt_trans _ 1419); [lia|]|]. fold (F64.Q_of_N n) in Hgn.
  assert (1 <= g <= 1419) as Hn1. { rewrite Hgn. split; [apply (F64.Q_of_N_le 1)|apply (F64.Q_of_N_le _ 1419)]; lia. }
  cbn [F64.sub F64.opp F64.add]. destruct (F64.round_within (t1 + - g) 700000) as (r & -> & Hr0 & Hre); [lra..|].
  exists r. split; [done|]. split; [lra|]. intros H. apply Hr0. lra.
Qed.

(** The largest datagram exceeds the smallest bucket by 27 bytes. *)
Lemma spend_filled n t1 u now :
  (1 <= n <= 1419)%N ->
  exists t2, spend n (filled now (bucket t1 u)) = bucket t2 now /\
    c - F64.Q_of_N n - (1 # 1000000000) <= t2 <= c - F64.Q_of_N n + (1 # 1000000000) /\
    -(27 + (1 # 100)) <= t2.
Proof.
  intros Hn. destruct (spend_spec n c now Hn) as (t2 & H & Ht & _); [lra|]. exists t2. split; [done|]. split; [done|].
  pose proof (F64.Q_of_N_le n 1419 ltac:(lia)) as Hq. change (F64.Q_of_N 1419) with 1419 in Hq. lra.
Qed.

(** [wait]: it never panics; the bucket neither overflows nor runs a debt beyond
    what the largest datagram exceeds 1392 bytes by; at most the inflow is spent,
    and a sleep is at most as long as the bytes take. *)
Lemma wait_spec n gap late tokens u :
  (1 <= n <= 1419)%N -> -(28) <= tokens <= c -> (gap < 2 ^ 94)%N ->
  exists slept tokens', wait n (u + gap) late (bucket tokens u)
      = (Ok slept, bucket tokens' (u + gap + match slept with Some d => d + late | None => 0 end)) /\
    -(27 + (1 # 100)) <= tokens' <= c /\
    tokens' + F64.Q_of_N n <= tokens
      + inflow (gap + match slept with Some d => d + late | None => 0 end) * (1 + (1 # 1000000000000)) + (1 # 8) /\
    inflow (default 0%N slept) <= tokens' + F64.Q_of_N n - tokens + (1 # 8) /\
    inflow (default 0%N slept) <= c + 29.
Proof.
  intros Hn Ht Hg. unfold wait. destruct (refilled_spec tokens u gap Ht Hg) as (t1 & -> & H1 & H2 & H3).
  destruct (sleep_spec n t1 (u + gap) Hn H1) as (slept & -> & Hs). pose proof (inflow_nonneg gap) as Hw.
  assert (inflow 0 == 0) as Hw0 by (unfold inflow; change (F64.Q_of_N 0) with 0; ring).
  pose proof (F64.Q_of_N_le 1 n ltac:(lia)) as Hq. change (F64.Q_of_N 1) with 1 in Hq.
  destruct slept as [d|].
  - destruct (spend_filled n t1 (u + gap) (u + gap + d + late) Hn) as (t2 & -> & H4 & H5).
    exists (Some d), t2. rewrite <-(N.add_assoc _ d). split; [done|]. cbn [default id].
    rewrite (inflow_add gap), (inflow_add d). pose proof (inflow_nonneg d). pose proof (inflow_nonneg late).
    split_and!; lra.
  - destruct (spend_spec n t1 (u + gap) Hn H1) as (t2 & -> & H4 & H5). specialize (H5 Hs).
    exists None, t2. rewrite N.add_0_r. split; [done|]. cbn [default]. rewrite (inflow_add gap 0), Hw0.
    split_and!; lra.
Qed.

(** *** Any number of calls *)
Definition total (calls : list call) : N := foldr (fun c n => N.of_nat (length (datagram c)) + n)%N 0%N calls.

(** What [run_spec] asks of a call: a datagram the tunnel sends, and a [Duration]. *)
Definition call_ok (x : call) : Prop := (1 <= length (datagram x) <= 1419)%nat /\ (gap x < 2 ^ 94)%N.

(** The time slept. *)
Definition asleep (slept : list (option N)) : N := foldr (fun d n => default 0 d + n)%N 0%N slept.

Lemma run_spec calls : forall tokens u,
  Forall call_ok calls -> -(27 + (1 # 100)) <= tokens <= c ->
  exists slept tokens' e, run calls (bucket tokens u) = (Ok slept, bucket tokens' (u + e)) /\
    -(27 + (1 # 100)) <= tokens' <= c /\
    tokens' + F64.Q_of_N (total calls) <= tokens + inflow e * (1 + (1 # 1000000000000)) + F64.Q_of_N (N.of_nat (length calls)) * (1 # 8) /\
    inflow (asleep slept) <= tokens' + F64.Q_of_N (total calls) - tokens + F64.Q_of_N (N.of_nat (length calls)) * (1 # 8) /\
    Forall (fun d => inflow (default 0%N d) <= c + 29) slept.
Proof.
  induction calls as [|x calls IH]; intros tokens u HF Ht.
  { exists [], tokens, 0%N. rewrite N.add_0_r. split; [done|]. cbn.
    assert (inflow 0 == 0) as H0 by (unfold inflow; change (F64.Q_of_N 0) with 0; ring).
    change (N.of_nat 0) with 0%N. change (F64.Q_of_N 0) with 0. rewrite H0. split_and!; [lra..|by constructor]. }
  apply Forall_cons in HF as [[Hx Hg] HF].
  destruct (wait_spec (N.of_nat (length (datagram x))) (gap x) (late x) tokens u) as (d & t1 & Hw & H1 & H2 & H3 & H4);
    [lia|lra|done|]. set (e1 := (gap x + match d with Some d => d + late x | None => 0 end)%N) in *.
  destruct (IH t1 (u + e1)%N HF H1) as (slept & t2 & e2 & Hr & G1 & G2 & G3 & G4).
  exists (d :: slept), t2, (e1 + e2)%N. rewrite <-N.add_assoc in Hw.
  fold e1 in Hw. cbn [run]. unfold_method. change (updated (bucket tokens u)) with u. rewrite Hw, Hr, N.add_assoc.
  split; [done|]. change (total (x :: calls)) with (N.of_nat (length (datagram x)) + total calls)%N.
  change (asleep (d :: slept)) with (default 0 d + asleep slept)%N. cbn [length].
  rewrite !inflow_add, !F64.Q_of_N_add, Nat2N.inj_succ, <-N.add_1_r, F64.Q_of_N_add. change (F64.Q_of_N 1) with 1.
  split_and!; [lra..|]. by constructor.
Qed.
End bucket.

(** *** A new pacer *)
Lemma new_spec r now :
  1 <= r <= 1000 ->
  exists b c, new (F64.Fin r) now = Ok (bucket b c c now) /\
    125000 * r * (1 - (1 # 1000000000000000)) <= b <= 125000 * r * (1 + (1 # 1000000000000000)) /\
    1392 <= c /\ (c <= 500 * r + (1 # 1000000) \/ c <= 1392).
Proof.
  intros Hr. unfold new, F64.contains, F64.div, F64.mul.
  destruct (F64.of_N_exact 1) as (g1 & -> & H1); [done|]. change (inject_Z (Z.of_N 1)) with 1 in H1.
  destruct (F64.of_N_exact 1000) as (g2 & -> & H2); [done|]. change (inject_Z (Z.of_N 1000)) with 1000 in H2.
  destruct (F64.of_N_exact 1000000) as (g3 & -> & H3); [done|]. change (inject_Z (Z.of_N 1000000)) with 1000000 in H3.
  destruct (F64.of_N_exact 8) as (g4 & -> & H4); [done|]. change (inject_Z (Z.of_N 8)) with 8 in H4.
  change (N.of_nat (HEADER + SHARD + TAG)) with 1392%N.
  destruct (F64.of_N_exact 1392) as (g5 & -> & H5); [done|]. change (inject_Z (Z.of_N 1392)) with 1392 in H5.
  assert (exists g, four_ms = F64.Fin g /\ (4 # 1000) - (1 # 1000000000000000) <= g <= (4 # 1000) + (1 # 1000000000000000))
    as (g6 & -> & H6) by (eexists; split; [vm_compute; reflexivity|split; by vm_compute]).
  cbn [F64.is_finite negb orb F64.le].
  assert (Qle_bool g1 r && Qle_bool r g2 = true) as ->
    by (apply andb_true_iff; split; apply Qle_bool_iff; lra). cbn [negb].
  assert (r * g3 == r * 1000000) as Hm by (by rewrite H3).
  destruct (F64.round_nonneg (r * g3)) as (a & Ha & Ha0 & Hae); [rewrite Hm; lra|]. rewrite Ha. rewrite Hm in Hae.
  destruct (Qeq_bool g4 0) eqn:E; [apply Qeq_bool_iff in E; exfalso; lra|].
  assert (a / g4 == a * (1 # 8)) as Hd by (rewrite H4; field).
  destruct (F64.round_nonneg (a / g4)) as (b & Hb & Hb0 & Hbe); [rewrite Hd; lra|]. rewrite Hb. rewrite Hd in Hbe.
  assert (b * g6 <= b * ((4 # 1000) + (1 # 1000000000000000))) as Hbg by nra. assert (0 <= b * g6) as Hbg0 by nra.
  destruct (F64.round_nonneg (b * g6)) as (k & Hk & Hk0 & Hke); [lra|]. rewrite Hk.
  destruct (F64.max_spec k g5) as (c & -> & Hc1 & Hc2 & Hc). exists b, c. split; [done|].
  split; [lra|]. split; [lra|]. destruct Hc as [-> | ->]; [left|right]; lra.
Qed.

Lemma new_accepts rate now p : new rate now = Ok p -> exists r, rate = F64.Fin r /\ 1 <= r <= 1000.
Proof.
  unfold new. destruct rate as [r| |]; cbn [F64.is_finite negb orb]; [|done..].
  unfold F64.contains. destruct (F64.of_N_exact 1) as (l & -> & Hl); [done|].
  destruct (F64.of_N_exact 1000) as (m & -> & Hm); [done|]. cbn [F64.le].
  destruct (Qle_bool l r) eqn:E1, (Qle_bool r m) eqn:E2; cbn [negb andb]; [|discriminate..].
  intros _. exists r. split; [done|].
  apply Qle_bool_iff in E1, E2. rewrite Hl in E1. rewrite Hm in E2. done.
Qed.

(** A new pacer, and one after any calls. *)
Lemma new_run rate t0 p0 calls :
  new rate t0 = Ok p0 -> Forall call_ok calls ->
  exists r b c, rate = F64.Fin r /\ 1 <= r <= 1000 /\ p0 = bucket b c c t0 /\
    125000 * r * (1 - (1 # 1000000000000000)) <= b <= 125000 * r * (1 + (1 # 1000000000000000)) /\
    1392 <= c /\ (c <= 500 * r + (1 # 1000000) \/ c <= 1392).
Proof.
  intros Hnew Hcalls. destruct (new_accepts _ _ _ Hnew) as (r & -> & Hr).
  destruct (new_spec r t0 Hr) as (b & c & Hn & Hb & Hc & Hc'). rewrite Hn in Hnew. injection Hnew as <-.
  by exists r, b, c.
Qed.

(** Any run of successive calls lets through at most the burst plus what the
    rate allows in the time passed, whatever the calls before; no call panics. *)
Lemma run_rate (rate : F64.f64) (t0 : N) (p0 : t) (before calls : list call) :
  new rate t0 = Ok p0 -> Forall call_ok (before ++ calls) ->
  exists r s1 p1 s2 p2, rate = F64.Fin r /\ 1 <= r <= 1000 /\
    run before p0 = (Ok s1, p1) /\ run calls p1 = (Ok s2, p2) /\ (updated p1 <= updated p2)%N /\
    F64.Q_of_N (total calls) <= Qmax (500 * r) 1392 + 28
      + 125000 * r * (F64.Q_of_N (updated p2 - updated p1) * (1 # 1000000000)) * (1 + (1 # 100000000000))
      + F64.Q_of_N (N.of_nat (length calls)) * (1 # 8).
Proof.
  intros Hnew [Hb Hc]%Forall_app. destruct (new_run _ _ _ _ Hnew Hb) as (r & b & c & -> & Hr & -> & Hbr & Hc0 & Hc1).
  destruct (run_spec b c ltac:(lra) ltac:(lra) before c t0 Hb) as (s1 & t1 & e1 & Hr1 & Ht1 & _); [lra|].
  destruct (run_spec b c ltac:(lra) ltac:(lra) calls t1 (t0 + e1)%N Hc Ht1) as (s2 & t2 & e2 & Hr2 & Ht2 & Hin & _).
  exists r. do 4 eexists. do 2 (split; [done|]). split; [exact Hr1|]. split; [exact Hr2|]. cbn [updated bucket].
  split; [lia|]. rewrite (N.add_comm _ e2), N.add_sub. unfold inflow in Hin.
  pose proof (F64.Q_of_N_nonneg e2). set (x := F64.Q_of_N e2 * (1 # 1000000000)) in *.
  assert (0 <= x) as Hx by (unfold x; lra).
  assert (x * b <= x * (125000 * r * (1 + (1 # 1000000000000000)))) as Hxb by nra.
  assert (0 <= 125000 * r * x) as Hrx by nra.
  assert (c <= Qmax (500 * r) 1392 + (1 # 1000000)) as Hmax.
  { destruct (Q.max_spec (500 * r) 1392) as [[? ->]|[? ->]]; destruct Hc1; lra. }
  lra.
Qed.

(** No sleep of a bucket of [r] Mbit/s exceeds 11.4 ms. *)
Lemma sleep_short r b c d :
  1 <= r <= 1000 -> 125000 * r * (1 - (1 # 1000000000000000)) <= b <= 125000 * r * (1 + (1 # 1000000000000000)) ->
  c <= 500 * r + (1 # 1000000) \/ c <= 1392 -> inflow b d <= c + 29 -> (d <= 11400000)%N.
Proof.
  intros Hr Hb Hc Hd. unfold inflow in Hd. destruct (decide (d <= 11400000)%N) as [|Hbig]; [done|exfalso].
  pose proof (F64.Q_of_N_le 11400000 d ltac:(lia)) as Hq. change (F64.Q_of_N 11400000) with 11400000 in Hq.
  destruct Hc; nra.
Qed.

End Pacer.
Import Pacer.

(** ** Properties *)

(** C34: the pacer does not hold traffic back.  However often and whenever it is asked, for
    datagrams of up to the tunnel's 1419 bytes, no call panics, none
    sleeps for more than 11.4 ms, and all calls together sleep at most for
    the time their bytes, and an eighth of a byte per datagram, take at the configured rate. *)
Theorem pacer_prompt (rate : F64.f64) (t0 : N) (p0 : t) (calls : list call) :
  new rate t0 = Ok p0 -> Forall call_ok calls ->
  exists r slept p, rate = F64.Fin r /\ run calls p0 = (Ok slept, p) /\
    Forall (fun d => default 0 d <= 11400000)%N slept /\
    125000 * r * (F64.Q_of_N (asleep slept) * (1 # 1000000000))
      <= (F64.Q_of_N (total calls) + F64.Q_of_N (N.of_nat (length calls)) * (1 # 8)) * (1 + (1 # 1000000000000)).
Proof.
  intros Hnew Hc. destruct (new_run _ _ _ _ Hnew Hc) as (r & b & c & -> & Hr & -> & Hbr & Hc0 & Hc1).
  destruct (run_spec b c ltac:(lra) ltac:(lra) calls c t0 Hc) as (slept & t1 & e & Hrun & Ht & _ & Hs & Hf); [lra|].
  exists r. do 2 eexists. split; [done|]. split; [exact Hrun|]. split.
  - eapply Forall_impl; [exact Hf|]. intros d Hd. by apply (sleep_short r b c _ Hr).
  - unfold inflow in Hs. pose proof (F64.Q_of_N_nonneg (asleep slept)).
    set (x := F64.Q_of_N (asleep slept) * (1 # 1000000000)) in *. assert (0 <= x) as Hx by (unfold x; lra).
    assert (125000 * r * (1 - (1 # 1000000000000000)) * x <= x * b) as Hxb by nra.
    assert (0 <= 125000 * r * x) as Hrx by nra. lra.
Qed.

(** the smallest bucket is smaller than a frame.  The capacity is at least
    1392 bytes so that, as the code says, one maximum-size frame always fits; but a full
    frame is sealed into 1419 bytes.  Up to 2.8 Mbit/s, whatever came before and however
    long the pacer was idle, such a frame finds too few tokens, makes [wait]
    sleep, possibly for no time at all, and leaves the bucket in debt. *)
Theorem full_frame_never_fits (C : Crypto) (L : CryptoLaws C) (r : Q) (t0 : N) (p0 : t) (before : list call)
    (f : Frame.t) (key nonce suffix w : bytes) (gap late : N) :
  new (F64.Fin r) t0 = Ok p0 -> r <= 28 # 10 -> Forall call_ok before -> (gap < 2 ^ 94)%N ->
  Frame.version f = VERSION_V3 -> length (Frame.payload f) = SHARD ->
  length nonce = V3_NONCE -> length suffix = V3_SELECTOR_PREFIX ->
  Frame.encode_wire f key nonce suffix = Ok w ->
  exists slept p1 d debt p2, run before p0 = (Ok slept, p1) /\ F64.lt (capacity p1) (F64.of_N (N.of_nat (length w))) = true /\
    wait (N.of_nat (length w)) (updated p1 + gap) late p1 = (Ok (Some d), p2) /\
    tokens p2 = F64.Fin debt /\ debt < 0.
Proof.
  intros Hnew Hle Hb Hg Hv Hp Hn Hs Hw.
  assert (length w = 1419%nat) as Hlen.
  { unfold Frame.encode_wire in Hw. rewrite Hv in Hw. cbn [N.eqb Pos.eqb VERSION_V3 negb] in Hw.
    destruct (aead_encrypt _ _ _) as [ct|] eqn:Hc; [|discriminate Hw]. cbn [context mbind outcome_bind] in Hw.
    simplify_res. apply aead_encrypt_length in Hc. destruct (inner_fields f) as [Hi _].
    by rewrite !length_app, length_v3_selector_prefix, Hc, Hi, Hn, Hs, Hp. }
  rewrite Hlen. change (N.of_nat 1419) with 1419%N.
  destruct (new_run _ _ _ _ Hnew Hb) as (r' & b & c & [= <-] & Hr & -> & Hbr & Hc0 & Hc1).
  assert (100000 <= b <= 150000000) as Hbb by lra. assert (1392 <= c <= 600000) as Hcc by (destruct Hc1; lra).
  destruct (run_spec b c Hbb Hcc before c t0 Hb) as (slept & t1 & e & Hr1 & Ht1 & _); [lra|].
  destruct (refilled_spec b c Hbb Hcc t1 (t0 + e) gap) as (t2 & Hm & Ht2 & _); [lra|done|].
  destruct (sleep_spec b c Hbb Hcc 1419 t2 (t0 + e + gap)) as (sl & Hsl & Hs'); [done|done|].
  change (F64.Q_of_N 1419) with 1419 in Hs'.
  assert (c < 1419) as Hcg by (destruct Hc1; lra). destruct sl as [d|]; [|exfalso; lra].
  destruct (spend_filled b c Hcc 1419 t2 (t0 + e + gap) (t0 + e + gap + d + late)) as (debt & Hsp & Hdebt & _);
    [done|]. change (F64.Q_of_N 1419) with 1419 in Hdebt.
  exists slept. eexists. exists d, debt. eexists. split; [exact Hr1|]. cbn [capacity updated bucket].
  split.
  - destruct (F64.of_N_exact 1419) as (g & -> & Hg2); [done|]. change (inject_Z (Z.of_N 1419)) with 1419 in Hg2.
    cbn [F64.lt]. assert (Qle_bool g c = false) as ->; [apply F64.Qle_bool_false; lra|done].
  - unfold wait. rewrite Hm, Hsl, Hsp. split; [done|]. split; [done|lra].
Qed.

(** *** Witnesses *)
Definition demo_pacer (rate : Q) : t := match new (F64.Fin rate) 0 with Ok p => p | _ => bucket 0 0 0 0 end.
Definition demo_calls : list call :=
  [mk_call 0 0 (replicate 1419 x61); mk_call 5000 3 (replicate 1419 x61); mk_call 0 100 (replicate 109 x61)].

Lemma replicate_ok g l n : (1 <= n <= 1419)%nat -> (g < 2 ^ 94)%N -> call_ok (mk_call g l (replicate n x61)).
Proof. intros Hn Hg. unfold call_ok. cbn [datagram gap]. by rewrite length_replicate. Qed.

Lemma demo_calls_ok : Forall call_ok demo_calls.
Proof. unfold demo_calls. do 3 (constructor; [apply replicate_ok; [lia|done]|]). constructor. Qed.

Lemma pacer_prompt_witness :
  (exists r slept p, F64.Fin 3 = F64.Fin r /\ run demo_calls (demo_pacer 3) = (Ok slept, p) /\
    Forall (fun d => default 0 d <= 11400000)%N slept /\
    125000 * r * (F64.Q_of_N (asleep slept) * (1 # 1000000000))
      <= (F64.Q_of_N (total demo_calls) + F64.Q_of_N (N.of_nat (length demo_calls)) * (1 # 8)) * (1 + (1 # 1000000000000))) /\
  fst (run demo_calls (demo_pacer 3)) = Ok [None; Some 3779000%N; Some 3784000%N].
Proof.
  split; [|vm_compute; reflexivity]. apply (pacer_prompt (F64.Fin 3) 0 (demo_pacer 3) demo_calls).
  - vm_compute. reflexivity.
  - apply demo_calls_ok.
Defined.

(** A full V3 frame through a bucket of 2.8 Mbit/s, an hour after its start. *)
Definition full_frame : Frame.t :=
  Frame.mk VERSION_V3 42 KIND_DATA 77 5 3 2 10 4 (replicate SHARD x61).
Definition full_wire : bytes :=
  match Frame.encode_wire full_frame (replicate 32 x07) (replicate 24 x01) (replicate 4 x02) with Ok w => w | _ => [] end.

Lemma full_frame_never_fits_witness :
  exists slept p1 d debt p2, run [] (demo_pacer (28 # 10)) = (Ok slept, p1) /\
    F64.lt (capacity p1) (F64.of_N (N.of_nat (length full_wire))) = true /\
    wait (N.of_nat (length full_wire)) (updated p1 + 3600000000000) 0 p1 = (Ok (Some d), p2) /\
    tokens p2 = F64.Fin debt /\ debt < 0.
Proof.
  apply (full_frame_never_fits toy_crypto toy_crypto_laws (28 # 10) 0 (demo_pacer (28 # 10)) []
    full_frame (replicate 32 x07) (replicate 24 x01) (replicate 4 x02)); try done;
    vm_compute; reflexivity.
Defined.
