(* ===== verification/Pacing.v ===== *)
(** * The senders and their pacer (src/src/main.rs: [send_session_frames], [send_frames])

    A worker of the server sends the frames its handler made one at a time: it
    locks the pacer all sessions share, waits, and sends.  In [Paced] a worker
    that has frames to send is busy, its remaining datagrams in [sending]; the
    others, the receive loop and the clean-up go on.  Any order of the lock's
    takers and any time between the steps is an [event] sequence.  A worker that
    is aborted releases the lock, and its datagrams are dropped.  The client has
    one loop and a pacer of its own. *)
From Stdlib Require Import QArith Qminmax Lqa.
From S2P Require Import Prelude External Wire Adaptive Fragment Encoder Window Decoder Session Server Delivery Float64 Pacer.
Import Server.

#[local] Open Scope nat_scope.

(** The datagrams a server sends into the tunnel. *)
Definition to_send {Addr} (outs : list (output Addr)) : list (Addr * bytes) :=
  omap (fun o => match o with ToPublic p w => Some (p, w) | ToUpstream _ _ => None end) outs.

(** What it sends to its upstream service. *)
Definition upstream {Addr} (outs : list (output Addr)) : list (output Addr) :=
  omap (fun o => match o with ToUpstream _ _ => Some o | ToPublic _ _ => None end) outs.

Module Paced.
Section paced.
Context {Addr : Type} {C : Crypto} {R : ErasureCode}.

(** [limiter] is the pacer behind the lock; [holder], the session whose worker
    holds the lock, asleep for that long; the head of [sending !! id] is what the
    worker of [id] sends next. *)
Record t := mk {
  table : gmap (N * N) (entry Addr);
  limiter : Pacer.t;
  sending : gmap (N * N) (list (Addr * bytes));
  holder : option ((N * N) * N);
}.

Definition start (limiter : Pacer.t) : t := mk ∅ limiter ∅ None.

(** Something happens at the server; the worker of [id] takes the lock, [gap]
    after the pacer's last change; the sleep under the lock ends, [late]. *)
Inductive event :=
| Acts (ev : Server.event Addr)
| Locks (id : N * N) (gap : N)
| Wakes (late : N).

Section run.
Context (cfg : config).

(** The handlers.  A busy worker is not at its [select!]; when a session is
    removed its task is aborted, in whatever it does. *)
Definition acts (ev : Server.event Addr) (s : t) : list (output Addr) * t :=
  match actor ev with
  | Some id =>
      if bool_decide (is_Some (sending s !! id)) then ([], s) else
      let '(outs, table) := step cfg ev (table s) in
      (upstream outs, mk table (limiter s)
        (match to_send outs with [] => sending s | ws => <[id := ws]> (sending s) end) (holder s))
  | None =>
      let '(outs, table) := step cfg ev (table s) in
      let sending := filter (fun '(id, _) => is_Some (table !! id)) (sending s) in
      (upstream outs, mk table (limiter s) sending
        (match holder s with Some (id, _) => if bool_decide (is_Some (sending !! id)) then holder s else None | None => None end))
  end.

(** [public.send_to(..)] of the head of [id]'s datagrams, the pacer's lock free again. *)
Definition sends (id : N * N) (limiter : Pacer.t) (peer : Addr) (w : bytes) (rest : list (Addr * bytes)) (s : t)
    : list (output Addr) * t :=
  ([ToPublic peer w], mk (table s) limiter
    (match rest with [] => delete id (sending s) | _ => <[id := rest]> (sending s) end) None).

(** [pacer.lock()], and [wait] up to its sleep.  A panic would end the task. *)
Definition locks (id : N * N) (gap : N) (s : t) : list (output Addr) * t :=
  match holder s, sending s !! id with
  | None, Some ((peer, w) :: rest) =>
      let limiter := Pacer.refilled (Pacer.updated (limiter s) + gap) (limiter s) in
      let len := N.of_nat (length w) in
      match Pacer.sleep len limiter with
      | Ok (Some duration) => ([], mk (table s) limiter (sending s) (Some (id, duration)))
      | Ok None => sends id (Pacer.spend len limiter) peer w rest s
      | _ => ([], mk (alter stopped id (table s)) limiter (delete id (sending s)) None)
      end
  | _, _ => ([], s)
  end.

(** The rest of [wait], after the sleep. *)
Definition wakes (late : N) (s : t) : list (output Addr) * t :=
  match holder s with
  | Some (id, duration) =>
      match sending s !! id with
      | Some ((peer, w) :: rest) =>
          let now := (Pacer.updated (limiter s) + duration + late)%N in
          sends id (Pacer.spend (N.of_nat (length w)) (Pacer.filled now (limiter s))) peer w rest s
      | _ => ([], s)
      end
  | None => ([], s)
  end.

Definition step (ev : event) (s : t) : list (output Addr) * t :=
  match ev with Acts ev => acts ev s | Locks id gap => locks id gap s | Wakes late => wakes late s end.

Fixpoint run (evs : list event) (s : t) : list (output Addr) * t :=
  match evs with
  | [] => ([], s)
  | ev :: evs =>
      let '(out, s) := step ev s in
      let '(rest, s) := run evs s in
      (out ++ rest, s)
  end.
End run.
End paced.
Arguments t : clear implicits.
Arguments event : clear implicits.
End Paced.

Definition wire_size (w : bytes) : Prop := 1 <= length w <= 1419.

Section sizes.
Context {Addr : Type} {C : Crypto} {L : CryptoLaws C} {R : ErasureCode} {S : ErasureShape R}.

Lemma sealed_size key f w : Frame.version f = VERSION_V3 -> sealed key f w -> wire_size w.
Proof.
  intros Hv (Hlen & nonce & suffix & _ & _ & Hw). split; [|done]. unfold Frame.encode_wire in Hw. rewrite Hv in Hw.
  cbn [N.eqb Pos.eqb VERSION_V3 negb] in Hw. destruct (aead_encrypt _ _ _) as [c|]; [|discriminate Hw].
  cbn [context mbind outcome_bind] in Hw. simplify_res. rewrite !length_app, length_v3_selector_prefix.
  unfold V3_SELECTOR_PREFIX. lia.
Qed.

(** Frames an encoder makes have the encoder's version. *)
Lemma send_frames_size draw key e fs :
  draws_ok draw -> Encoder.version e = VERSION_V3 -> Forall (Encoder.acceptable e) fs ->
  Forall wire_size (send_frames draw key fs).
Proof.
  intros Hd Hv HF. pose proof (send_frames_sealed draw key e fs Hd Hv HF) as H.
  apply Forall_lookup_2. intros i w Hw. destruct (Forall2_lookup_r _ _ _ _ _ H Hw) as (f & Hf & Hs).
  pose proof (Forall_lookup_1 _ _ _ _ HF Hf) as (_ & Hfv & _). eapply sealed_size; [|exact Hs]. congruence.
Qed.

Lemma to_peer_size draw e fs (w : Worker.t Addr) :
  draws_ok draw -> Encoder.version e = VERSION_V3 -> Forall (Encoder.acceptable e) fs ->
  Forall (fun pb => wire_size (snd pb)) (Worker.to_peer draw fs w).
Proof.
  intros Hd Hv HF. unfold Worker.to_peer. destruct (Worker.peer w) as [p|]; [|constructor].
  apply Forall_fmap. eapply Forall_impl; [by eapply send_frames_size|]. by intros.
Qed.

Definition output_size (o : output Addr) : Prop := match o with ToPublic _ w => wire_size w | ToUpstream _ _ => True end.

Lemma to_send_size outs : Forall output_size outs -> Forall (fun pb => wire_size (snd pb)) (to_send outs).
Proof. induction 1 as [|[id d|p w] outs Ho _ IH]; [constructor|done|]. by constructor. Qed.

(** The draws of an event have the sizes [encode_wire] draws. *)
Definition draws_sized (ev : Server.event Addr) : Prop := forall draw, draw_of ev = Some draw -> draws_ok draw.

Lemma server_step_size cfg (ev : Server.event Addr) m :
  server_inv (R := R) cfg m -> draws_sized ev -> Forall output_size (fst (step cfg ev m)).
Proof.
  intros Hm Hd. destruct (actor ev) as [id|] eqn:Hact; [|by destruct ev].
  apply (worker_sends cfg _ _ id); [done..|]. intros e w fs draw He Hdraw _ _ HF. destruct Hm as (_ & _ & Hall).
  destruct (entry_identity cfg id e (Hall _ _ He)) as (Hv & _). apply Forall_fmap.
  eapply Forall_impl; [eapply to_peer_size; [by apply Hd|exact Hv|exact HF]|]. by intros [].
Qed.
End sizes.

Lemma to_send_upstream {Addr} (outs : list (output Addr)) : to_send (upstream outs) = [].
Proof. induction outs as [|[] outs IH]; [done|exact IH..]. Qed.

Lemma upstream_idemp {Addr} (outs : list (output Addr)) : upstream (upstream outs) = upstream outs.
Proof. induction outs as [|[] outs IH]; [done| |exact IH]. exact (f_equal (cons _) IH). Qed.

(** ** One step *)
(** The bytes of datagrams. *)
Definition volume (ws : list bytes) : N := foldr (fun w n => N.of_nat (length w) + n)%N 0%N ws.

Lemma volume_app l k : volume (l ++ k) = (volume l + volume k)%N.
Proof. induction l as [|w l IH]; [done|]. cbn [app volume foldr]. fold (volume (l ++ k)). rewrite IH. fold (volume l). lia. Qed.

(** An event of the pacer. *)
Definition turn {Addr} (ev : Paced.event Addr) : bool := match ev with Paced.Acts _ => false | _ => true end.
Definition turns {Addr} (evs : list (Paced.event Addr)) : nat := length (filter turn evs).

Lemma turns_cons {Addr} (ev : Paced.event Addr) evs :
  N.of_nat (turns (ev :: evs)) = ((if turn ev then 1 else 0) + N.of_nat (turns evs))%N.
Proof.
  unfold turns. rewrite filter_cons.
  destruct ev; [rewrite decide_False by (by intros [])|rewrite decide_True by done..]; cbn [length turn]; lia.
Qed.

(** The clock's readings are what a [Duration] holds; the draws, what [encode_wire] asks for. *)
Definition timely {Addr} (ev : Paced.event Addr) : Prop :=
  match ev with
  | Paced.Acts ev => draws_sized ev
  | Paced.Locks _ gap => (gap < 2 ^ 94)%N
  | Paced.Wakes _ => True
  end.

(** What the workers have yet to send. *)
Definition pending {A} (m : gmap (N * N) (list A)) : list A := concat (map_to_list m).*2.

Lemma pending_delete {A} (m : gmap (N * N) (list A)) id ws :
  m !! id = Some ws -> pending m ≡ₚ ws ++ pending (delete id m).
Proof. intros H. unfold pending. by rewrite <-(map_to_list_delete m id ws H). Qed.

Lemma pending_insert {A} (m : gmap (N * N) (list A)) id ws :
  m !! id = None -> pending (<[id := ws]> m) ≡ₚ ws ++ pending m.
Proof. intros H. unfold pending. by rewrite (map_to_list_insert m id ws H). Qed.

Lemma pending_update {A} (m : gmap (N * N) (list A)) id x ws :
  m !! id = Some (x :: ws) ->
  pending m ≡ₚ x :: pending (match ws with [] => delete id m | _ => <[id := ws]> m end).
Proof.
  intros H. rewrite (pending_delete m id _ H). destruct ws as [|y ws]; [done|].
  rewrite <-insert_delete_eq, pending_insert by apply lookup_delete_eq. done.
Qed.

Lemma pending_filter {A} (P : (N * N) * list A -> Prop) `{!forall x, Decision (P x)} (m : gmap (N * N) (list A)) :
  pending (filter P m) ⊆+ pending m.
Proof.
  induction m as [|id ws m Hid IH] using map_ind; [by rewrite map_filter_empty|]. rewrite pending_insert by done.
  destruct (decide (P (id, ws))) as [HP|HP].
  - rewrite map_filter_insert_True by done. rewrite pending_insert; [by apply submseteq_app|].
    apply map_lookup_filter_None. by left.
  - rewrite map_filter_insert_not' by (by try (intros; congruence)). by apply submseteq_inserts_l.
Qed.


Section paced.
Context {Addr : Type} {C : Crypto} {L : CryptoLaws C} {R : ErasureCode} {S : ErasureShape R}.
Context (cfg : config) (Hcfg : config_ok (R := R) cfg).
Context (b c : Q) (Hb : (100000 <= b <= 150000000)%Q) (Hc : (1392 <= c <= 600000)%Q).

(** A worker with frames to send. *)
Definition busy_ok (ws : list (Addr * bytes)) : Prop := ws <> [] /\ Forall (fun pb => wire_size (snd pb)) ws.

(** The pacer holds [tokens], last changed at [u]; whoever sleeps under its lock
    is busy, and sleeps until the bucket is full. *)
Definition paced_ok (tokens : Q) (u : N) (s : Paced.t Addr) : Prop :=
  server_inv (R := R) cfg (Paced.table s) /\
  Paced.limiter s = Pacer.bucket b c tokens u /\ (- (28) <= tokens <= c)%Q /\
  map_Forall (fun _ => busy_ok) (Paced.sending s) /\
  match Paced.holder s with
  | Some (id, d) => is_Some (Paced.sending s !! id) /\ (c - tokens - (1 # 10) <= Pacer.inflow b d <= c - tokens + (1 # 10))%Q
  | None => True
  end.

(** A step of the server and its pacer: it does what some step of [Server], or none, does,
    sends only what is pending, and pays for it. *)
Definition step_ok (ev : Paced.event Addr) (tokens : Q) (u : N) (s : Paced.t Addr) : Prop :=
  let '(out, s') := Paced.step cfg ev s in
  exists tokens' e acted, paced_ok tokens' (u + e) s' /\
    (tokens' + F64.Q_of_N (volume (to_send out).*2) <= tokens + Pacer.inflow b e * (1 + (1 # 1000000000000))
      + F64.Q_of_N (if turn ev then 1 else 0) * (1 # 8))%Q /\
    (acted = [] \/ exists ev', ev = Paced.Acts ev' /\ acted = [ev']) /\
    let '(outs, m) := Server.run cfg acted (Paced.table s) in
    m = Paced.table s' /\ upstream out = upstream outs /\
    to_send out ++ pending (Paced.sending s') ⊆+ pending (Paced.sending s) ++ to_send outs.

Lemma inflow_0 : (Pacer.inflow b 0 == 0)%Q.
Proof. unfold Pacer.inflow. change (F64.Q_of_N 0) with 0%Q. ring. Qed.

(** Nothing happens. *)
Lemma step_same ev tokens u s :
  Paced.step cfg ev s = ([], s) -> paced_ok tokens u s -> step_ok ev tokens u s.
Proof.
  intros He Hs. unfold step_ok. rewrite He. exists tokens, 0%N, []. rewrite N.add_0_r, inflow_0. cbn. rewrite app_nil_r.
  pose proof (F64.Q_of_N_nonneg (if turn ev then 1 else 0)). change (F64.Q_of_N 0) with 0%Q.
  split_and!; [done|lra|by left|done|done|done].
Qed.

(** The head of [id]'s datagrams is sent, and the lock is free. *)
Lemma sends_ok id limiter peer w rest s tokens u tokens' u' :
  paced_ok tokens u s -> Paced.sending s !! id = Some ((peer, w) :: rest) ->
  limiter = Pacer.bucket b c tokens' u' -> (- (28) <= tokens' <= c)%Q ->
  let '(out, s') := Paced.sends id limiter peer w rest s in
  paced_ok tokens' u' s' /\ Paced.table s' = Paced.table s /\ out = [ToPublic peer w] /\
  to_send out ++ pending (Paced.sending s') ⊆+ pending (Paced.sending s).
Proof.
  intros (Hm & _ & _ & HF & _) Hid -> Ht. unfold Paced.sends. split_and!; [|done|done|].
  - split_and!; [done|done|apply Ht|apply Ht| |done]. cbn [Paced.sending].
    destruct (HF id _ Hid) as [_ Hw]. apply Forall_cons in Hw as [_ Hrest].
    destruct rest as [|x rest]; [by apply map_Forall_delete|]. by apply map_Forall_insert_2.
  - cbn [Paced.sending]. by rewrite (pending_update (Paced.sending s) id (peer, w) rest Hid).
Qed.

Lemma wire_bytes (w : bytes) : wire_size w -> (1 <= N.of_nat (length w) <= 1419)%N.
Proof. unfold wire_size. lia. Qed.

Lemma locks_ok id gap tokens u s : paced_ok tokens u s -> (gap < 2 ^ 94)%N -> step_ok (Paced.Locks id gap) tokens u s.
Proof.
  intros Hs Hg. pose proof Hs as (Hm & Hl & Ht & HF & _).
  destruct (Paced.holder s) as [h|] eqn:Hh; [apply step_same; [cbn; unfold Paced.locks; by rewrite Hh|done]|].
  destruct (Paced.sending s !! id) as [[|[peer w] rest]|] eqn:Hid;
    [apply step_same; [cbn; unfold Paced.locks; by rewrite Hh, Hid|done]| |apply step_same; [cbn; unfold Paced.locks; by rewrite Hh, Hid|done]].
  destruct (HF id _ Hid) as [_ Hw]. apply Forall_cons in Hw as [Hw%wire_bytes _]. cbn [snd] in Hw.
  destruct (Pacer.refilled_spec b c Hb Hc tokens u gap Ht Hg) as (t1 & Hr & H1 & H2 & H3).
  destruct (Pacer.sleep_spec b c Hb Hc _ t1 (u + gap) Hw H1) as (slept & Hsl & Hd).
  unfold step_ok. cbn [Paced.step]. unfold Paced.locks. rewrite Hh, Hid, Hl. cbn [Pacer.updated Pacer.bucket].
  fold (Pacer.bucket b c tokens u). rewrite Hr, Hsl. destruct slept as [d|].
  - exists t1, gap, []. cbn [turn Paced.table Paced.sending app to_send omap list_omap fmap list_fmap volume foldr Server.run].
    change (F64.Q_of_N 0) with 0%Q. change (F64.Q_of_N 1) with 1%Q. rewrite app_nil_r.
    split_and!; [|lra|by left|done..]. split_and!; [done|done|apply H1|apply H1|done|]. cbn. split; [by eexists|apply Hd].
  - destruct (Pacer.spend_spec b c Hc _ t1 (u + gap) Hw H1) as (t2 & Hsp & H4 & H5). specialize (H5 Hd).
    pose proof (sends_ok id _ peer w rest s tokens u t2 (u + gap) Hs Hid Hsp) as Hsend.
    pose proof (F64.Q_of_N_le 1 _ (proj1 Hw)) as Hq. change (F64.Q_of_N 1) with 1%Q in Hq.
    destruct (Paced.sends _ _ _ _ _ _) as [out s']. destruct Hsend as (G1 & G2 & -> & G3); [lra|].
    exists t2, gap, []. cbn [turn]. change (F64.Q_of_N 1) with 1%Q. split; [done|]. split.
    { cbn. rewrite N.add_0_r. change (F64.Q_of_N 0) with 0%Q. lra. }
    split; [by left|]. cbn [Server.run]. split; [by rewrite G2|]. split; [done|]. by rewrite app_nil_r.
Qed.

Lemma wakes_ok late tokens u s : paced_ok tokens u s -> step_ok (Paced.Wakes late) tokens u s.
Proof.
  intros Hs. pose proof Hs as (Hm & Hl & Ht & HF & Hh).
  destruct (Paced.holder s) as [[id d]|] eqn:Eh; [|apply step_same; [cbn; unfold Paced.wakes; by rewrite Eh|done]].
  destruct Hh as [[ws Hid] Hd]. destruct (HF id _ Hid) as [Hne Hw]. destruct ws as [|[peer w] rest]; [done|].
  apply Forall_cons in Hw as [Hw%wire_bytes _]. cbn [snd] in Hw.
  destruct (Pacer.spend_filled b c Hc _ tokens u (u + d + late) Hw) as (t2 & Hsp & H4 & H5).
  unfold step_ok. cbn [Paced.step]. unfold Paced.wakes. rewrite Eh, Hid, Hl. cbn [Pacer.updated Pacer.bucket].
  fold (Pacer.bucket b c tokens u).
  pose proof (sends_ok id _ peer w rest s tokens u t2 (u + d + late) Hs Hid Hsp) as Hsend.
  pose proof (F64.Q_of_N_le 1 _ (proj1 Hw)) as Hq. change (F64.Q_of_N 1) with 1%Q in Hq.
  destruct (Paced.sends _ _ _ _ _ _) as [out s']. destruct Hsend as (G1 & G2 & -> & G3); [lra|].
  exists t2, (d + late)%N, []. rewrite N.add_assoc. cbn [turn]. change (F64.Q_of_N 1) with 1%Q. split; [done|]. split.
  { cbn. rewrite N.add_0_r. rewrite Pacer.inflow_add. pose proof (Pacer.inflow_nonneg b Hb late).
    pose proof (Pacer.inflow_nonneg b Hb d). lra. }
  split; [by left|]. cbn [Server.run]. split; [by rewrite G2|]. split; [done|]. by rewrite app_nil_r.
Qed.

Lemma acts_ok ev tokens u s : paced_ok tokens u s -> draws_sized ev -> step_ok (Paced.Acts ev) tokens u s.
Proof.
  intros Hs Hd. pose proof Hs as (Hm & Hl & Ht & HF & Hh).
  pose proof (to_send_size _ (server_step_size cfg ev (Paced.table s) Hm Hd)) as Hsize.
  pose proof (server_step_inv cfg ev (Paced.table s) Hcfg Hm) as Hm'.
  destruct (actor ev) as [id|] eqn:Hact.
  - destruct (Paced.sending s !! id) as [ws|] eqn:Hid.
    { apply step_same; [|done]. cbn. unfold Paced.acts. rewrite Hact, bool_decide_true by (by rewrite Hid). done. }
    unfold step_ok. cbn [Paced.step turn]. unfold Paced.acts. rewrite Hact, bool_decide_false by (by rewrite Hid; intros []).
    destruct (step cfg ev (Paced.table s)) as [outs m] eqn:Hstep. cbn [fst snd] in *.
    exists tokens, 0%N, [ev]. rewrite N.add_0_r. cbn [Paced.table Paced.sending Server.run]. rewrite Hstep, app_nil_r, inflow_0.
    rewrite to_send_upstream.
    cbn [fmap list_fmap volume foldr app]. change (F64.Q_of_N 0) with 0%Q. split; [|split; [lra|split; [right; by eexists|split; [done|split]]]].
    + split_and!; [done|done|apply Ht|apply Ht| |].
      * cbn [Paced.sending]. destruct (to_send outs) as [|x l]; [done|]. apply map_Forall_insert_2; [|done]. by split.
      * cbn [Paced.holder Paced.sending]. destruct (Paced.holder s) as [[id' d]|]; [|done]. destruct Hh as [Hid' Hd']. split; [|done].
        destruct (to_send outs); [done|]. apply lookup_insert_is_Some'. by right.
    + by rewrite upstream_idemp.
    + destruct (to_send outs) as [|x l]; [by rewrite app_nil_r|]. rewrite pending_insert by done. by rewrite Permutation_app_comm.
  - unfold step_ok. cbn [Paced.step turn]. unfold Paced.acts. rewrite Hact.
    assert (fst (step cfg ev (Paced.table s)) = []) as Hnil by (by destruct ev).
    destruct (step cfg ev (Paced.table s)) as [outs m] eqn:Hstep. cbn [fst snd] in *. subst outs.
    exists tokens, 0%N, [ev]. rewrite N.add_0_r. cbn [Paced.table Paced.sending Server.run]. rewrite Hstep. cbn.
    change (F64.Q_of_N 0) with 0%Q. rewrite inflow_0. split; [|split; [lra|split; [right; by eexists|split; [done|split; [done|]]]]].
    + split_and!; [done|done|apply Ht|apply Ht| |].
      * cbn [Paced.sending]. intros id' ws [Hws _]%map_lookup_filter_Some. by apply (HF id').
      * cbn [Paced.holder Paced.sending]. destruct (Paced.holder s) as [[id' d]|]; [|done]. destruct Hh as [Hid' Hd'].
        case_bool_decide; [by split|done].
    + rewrite app_nil_r. apply pending_filter.
Qed.

Lemma step_holds ev tokens u s : paced_ok tokens u s -> timely ev -> step_ok ev tokens u s.
Proof. intros Hs Hev. destruct ev; [by apply acts_ok|by apply locks_ok|by apply wakes_ok]. Qed.

(** *** Any number of steps *)
Lemma to_send_app (l k : list (output Addr)) : to_send (l ++ k) = to_send l ++ to_send k.
Proof. apply omap_app. Qed.

Lemma upstream_outputs_app (l k : list (output Addr)) : upstream (l ++ k) = upstream l ++ upstream k.
Proof. apply omap_app. Qed.

Lemma server_run_app (l k : list (Server.event Addr)) (m : gmap (N * N) (entry Addr)) :
  Server.run cfg (l ++ k) m =
    let '(o1, m1) := Server.run cfg l m in let '(o2, m2) := Server.run cfg k m1 in (o1 ++ o2, m2).
Proof.
  revert m. induction l as [|ev l IH]; intros m; cbn [app Server.run]; [by destruct (Server.run cfg k m)|].
  destruct (Server.step cfg ev m) as [o m0]. rewrite IH. destruct (Server.run cfg l m0) as [o1 m1].
  destruct (Server.run cfg k m1). by rewrite app_assoc.
Qed.

(** The events of the server itself. *)
Definition handled (evs : list (Paced.event Addr)) : list (Server.event Addr) :=
  omap (fun ev => match ev with Paced.Acts ev => Some ev | _ => None end) evs.

Definition run_ok (evs : list (Paced.event Addr)) (tokens : Q) (u : N) (s : Paced.t Addr) : Prop :=
  let '(out, s') := Paced.run cfg evs s in
  exists tokens' e acted, paced_ok tokens' (u + e) s' /\
    (tokens' + F64.Q_of_N (volume (to_send out).*2) <= tokens + Pacer.inflow b e * (1 + (1 # 1000000000000))
      + F64.Q_of_N (N.of_nat (turns evs)) * (1 # 8))%Q /\
    acted `sublist_of` handled evs /\
    let '(outs, m) := Server.run cfg acted (Paced.table s) in
    m = Paced.table s' /\ upstream out = upstream outs /\
    to_send out ++ pending (Paced.sending s') ⊆+ pending (Paced.sending s) ++ to_send outs.

Lemma run_holds evs : forall tokens u s, paced_ok tokens u s -> Forall timely evs -> run_ok evs tokens u s.
Proof.
  induction evs as [|ev evs IH]; intros tokens u s Hs HF.
  { exists tokens, 0%N, []. rewrite N.add_0_r, inflow_0. split; [done|]. split.
    { change (N.of_nat (turns [])) with 0%N. change (volume _) with 0%N. change (F64.Q_of_N 0) with 0%Q. lra. }
    cbn. by rewrite app_nil_r. }
  apply Forall_cons in HF as [Hev HF]. pose proof (step_holds ev tokens u s Hs Hev) as Hstep.
  unfold run_ok, step_ok in *. cbn [Paced.run]. destruct (Paced.step cfg ev s) as [out s1].
  destruct Hstep as (t1 & e1 & a1 & H1 & H2 & H3 & H4). specialize (IH t1 (u + e1)%N s1 H1 HF).
  destruct (Paced.run cfg evs s1) as [rest s2]. destruct IH as (t2 & e2 & a2 & G1 & G2 & G3 & G4).
  exists t2, (e1 + e2)%N, (a1 ++ a2). rewrite N.add_assoc. split; [done|]. split.
  { rewrite Pacer.inflow_add, to_send_app, fmap_app, volume_app, F64.Q_of_N_add.
    assert (F64.Q_of_N (N.of_nat (turns (ev :: evs))) == F64.Q_of_N (if turn ev then 1 else 0) + F64.Q_of_N (N.of_nat (turns evs)))%Q as ->.
    { rewrite <-F64.Q_of_N_add. by rewrite turns_cons. }
    lra. }
  split. { unfold handled in *. destruct H3 as [->|(ev' & -> & ->)]; [|apply sublist_skip; exact G3].
    cbn [app]. etrans; [exact G3|]. destruct ev; [apply sublist_cons|..]; reflexivity. }
  rewrite server_run_app. destruct (Server.run cfg a1 (Paced.table s)) as [o1 m1]. destruct H4 as (-> & Hu1 & Hp1).
  destruct (Server.run cfg a2 (Paced.table s1)) as [o2 m2]. destruct G4 as (-> & Hu2 & Hp2).
  rewrite !upstream_outputs_app, !to_send_app, Hu1, Hu2. split_and!; [done|done|].
  rewrite <-app_assoc. etrans; [apply submseteq_skips_l, Hp2|]. rewrite !app_assoc. by apply submseteq_skips_r.
Qed.

(** *** The lock *)
(** Whoever takes the free lock sends its next datagram, after the sleep it asks for,
    and frees the lock. *)
Definition serves (most : N) (s : Paced.t Addr) : Prop :=
  (Paced.holder s = None -> forall id peer w rest gap late,
    Paced.sending s !! id = Some ((peer, w) :: rest) -> (gap < 2 ^ 94)%N ->
    let '(out, s') := Paced.run cfg [Paced.Locks id gap; Paced.Wakes late] s in
    out = [ToPublic peer w] /\ Paced.holder s' = None /\
    (Pacer.updated (Paced.limiter s') <= Pacer.updated (Paced.limiter s) + gap + most + late)%N) /\
  (forall id d, Paced.holder s = Some (id, d) -> (d <= most)%N /\ exists peer w rest,
    Paced.sending s !! id = Some ((peer, w) :: rest) /\
    forall late, fst (Paced.step cfg (Paced.Wakes late) s) = [ToPublic peer w] /\
      Paced.holder (snd (Paced.step cfg (Paced.Wakes late) s)) = None).

Lemma paced_serves tokens u s most :
  paced_ok tokens u s -> (forall d, (Pacer.inflow b d <= c + 29)%Q -> (d <= most)%N) -> serves most s.
Proof.
  intros (Hm & Hl & Ht & HF & Hh) Hmost. split.
  - intros Hn id peer w rest gap late Hid Hg. destruct (HF id _ Hid) as [_ Hw].
    apply Forall_cons in Hw as [Hw%wire_bytes _]. cbn [snd] in Hw.
    destruct (Pacer.refilled_spec b c Hb Hc tokens u gap Ht Hg) as (t1 & Hr & H1 & _).
    destruct (Pacer.sleep_spec b c Hb Hc _ t1 (u + gap) Hw H1) as (slept & Hsl & Hd).
    cbn [Paced.run Paced.step]. unfold Paced.locks. rewrite Hn, Hid, Hl. cbn [Pacer.updated Pacer.bucket].
    fold (Pacer.bucket b c tokens u). rewrite Hr, Hsl. destruct slept as [d|].
    + unfold Paced.wakes. cbn [Paced.holder Paced.sending Paced.limiter]. rewrite Hid. unfold Paced.sends.
      split; [done|]. split; [done|]. cbn [Paced.limiter Pacer.updated Pacer.spend Pacer.filled Pacer.bucket].
      pose proof (Hmost d ltac:(lra)). lia.
    + unfold Paced.sends, Paced.wakes. cbn [Paced.holder]. split; [done|]. split; [done|].
      cbn [Paced.limiter Pacer.updated Pacer.spend Pacer.bucket]. lia.
  - intros id d Eh. rewrite Eh in Hh. destruct Hh as [[ws Hid] Hd]. split; [apply Hmost; lra|].
    destruct (HF id _ Hid) as [Hne _]. destruct ws as [|[peer w] rest]; [done|]. exists peer, w, rest. split; [done|].
    intros late. cbn [Paced.step]. unfold Paced.wakes. by rewrite Eh, Hid.
Qed.
End paced.

Lemma paced_start {C : Crypto} {R : ErasureCode} {Addr} (cfg : config) b c t0 :
  (0 <= c)%Q -> paced_ok (Addr := Addr) (R := R) cfg b c c t0 (Paced.start (Pacer.bucket b c c t0)).
Proof.
  intros Hc. split_and!; [by apply server_empty_inv|done|lra|lra|by apply map_Forall_empty|done].
Qed.

(** ** The client *)
Section client.
Context {Addr : Type} {C : Crypto} {R : ErasureCode}.

(** The datagrams a client sends into the tunnel. *)
Definition tunnelled (outs : list (Client.output Addr)) : list bytes :=
  omap (fun o => match o with Client.ToTunnel w => Some w | Client.ToApp _ _ => None end) outs.

(** The [i]-th datagram of a turn reaches the pacer a time [(timing i).1] after its
    last change, and its sleep ends [(timing i).2] late. *)
Definition waits (timing : nat -> N * N) (ws : list bytes) : list Pacer.call :=
  imap (fun i w => Pacer.mk_call (timing i).1 (timing i).2 w) ws.

(** One turn of [client]'s loop with its pacer: [send_frames] waits for each datagram. *)
Definition client_turn (ev : Client.event Addr) (timing : nat -> N * N)
    : method (Client.t Addr * Pacer.t) (list (Client.output Addr)) := fun '(c, p) =>
  let '(r, c) := Client.step ev c in
  match r with
  | Ok out => let '(slept, p) := Pacer.run (waits timing (tunnelled out)) p in (_ ← slept; Ok out, (c, p))
  | Err e => (Err e, (c, p))
  | Panic => (Panic, (c, p))
  end.

Fixpoint client_turns (evs : list (Client.event Addr * (nat -> N * N)))
    : method (Client.t Addr * Pacer.t) (list (Client.output Addr)) :=
  match evs with
  | [] => mret []
  | (ev, timing) :: evs => out ← client_turn ev timing; rest ← client_turns evs; mret (out ++ rest)
  end.
End client.

Section client_lemmas.
Context {Addr : Type} {C : Crypto} {L : CryptoLaws C} {R : ErasureCode} {S : ErasureShape R}.

Lemma client_step_size rt peer (outs : list (Client.output Addr)) :
  id_version rt = VERSION_V3 -> Forall (client_output_ok rt peer) outs -> Forall wire_size (tunnelled outs).
Proof.
  intros Hv. induction 1 as [|[w|p d] outs Ho _ IH]; [constructor| |done]. constructor; [|exact IH].
  destruct Ho as (f & (_ & Hfv & _) & Hs). eapply sealed_size; [|exact Hs]. congruence.
Qed.

Lemma waits_datagrams timing ws : Pacer.datagram <$> waits timing ws = ws.
Proof.
  unfold waits. rewrite fmap_imap. apply list_eq. intros i. rewrite list_lookup_imap. by destruct (ws !! i).
Qed.

(** The clock's readings of a turn are what a [Duration] holds. *)
Definition client_timely (x : Client.event Addr * (nat -> N * N)) : Prop :=
  client_event_ok (fst x) /\ forall i, ((snd x i).1 < 2 ^ 94)%N.

Lemma waits_ok timing ws : (forall i, ((timing i).1 < 2 ^ 94)%N) -> Forall wire_size ws -> Forall Pacer.call_ok (waits timing ws).
Proof.
  intros Ht HF. apply Forall_lookup_2. intros i x Hx. unfold waits in Hx. rewrite list_lookup_imap in Hx.
  destruct (ws !! i) as [w|] eqn:Hw; [|discriminate Hx]. injection Hx as <-.
  split; [exact (Forall_lookup_1 _ _ _ _ HF Hw)|apply Ht].
Qed.

(** The turns are the client's, and the calls of its pacer those of all their datagrams. *)
Lemma client_turns_run b c (Hb : (100000 <= b <= 150000000)%Q) (Hc : (1392 <= c <= 600000)%Q) evs :
  forall (cl : Client.t Addr) tokens u,
  client_ok cl -> Forall client_timely evs -> (- (27 + (1 # 100)) <= tokens <= c)%Q ->
  exists out cl' slept tokens' u' calls,
    client_turns evs (cl, Pacer.bucket b c tokens u) = (Ok out, (cl', Pacer.bucket b c tokens' u')) /\
    Client.run (fst <$> evs) cl = (Ok out, cl') /\ client_ok cl' /\ (- (27 + (1 # 100)) <= tokens' <= c)%Q /\
    Pacer.datagram <$> calls = tunnelled out /\ Forall Pacer.call_ok calls /\
    Pacer.run calls (Pacer.bucket b c tokens u) = (Ok slept, Pacer.bucket b c tokens' u').
Proof.
  induction evs as [|[ev timing] evs IH]; intros cl tokens u Hcl HF Ht.
  { by exists [], cl, [], tokens, u, []. }
  apply Forall_cons in HF as [[Hev Htm] HF]. cbn [fst snd] in *.
  destruct (client_step ev cl Hcl Hev) as (o1 & c1 & Hs & Hc1 & _ & _ & Ho1).
  pose proof (waits_ok timing _ Htm (client_step_size _ _ _ (proj2 Hcl) Ho1)) as Hw.
  destruct (Pacer.run_spec b c Hb Hc _ tokens u Hw Ht) as (s1 & t1 & e1 & Hr1 & Ht1 & _).
  destruct (IH c1 t1 (u + e1)%N Hc1 HF Ht1) as (o2 & c2 & s2 & t2 & u2 & calls & Hr & Hrun & G1 & G2 & G3 & G4 & G5).
  exists (o1 ++ o2), c2, (s1 ++ s2), t2, u2, (waits timing (tunnelled o1) ++ calls).
  cbn [client_turns Client.run fmap list_fmap fst]. unfold_method. unfold client_turn. rewrite Hs, Hr1. unfold_method.
  rewrite Hr, Hrun. split_and!; try done; [apply G2|apply G2| |by apply Forall_app|by apply Pacer.pacer_run_app with (1 := Hr1)].
  rewrite fmap_app, waits_datagrams, G3. symmetry. apply omap_app.
Qed.
End client_lemmas.

(** ** Properties *)

(** The bound on what a pacer of [r] Mbit/s lets through in [e] nanoseconds, in
    [k] turns: the burst, 500 bytes per Mbit/s (4 ms at the rate) or 1392 bytes,
    whichever is more, and 29 bytes; the rate; an eighth of a byte per turn for
    the rounding of the arithmetic and of the sleeps. *)
Definition allowance (r : Q) (e : N) (k : nat) : Q :=
  Qmax (500 * r) 1392 + 29
  + 125000 * r * (F64.Q_of_N e * (1 # 1000000000)) * (1 + (1 # 100000000000))
  + F64.Q_of_N (N.of_nat k) * (1 # 8).

Definition longest_sleep : N := 11400000.

(** C17: the server keeps the configured rate.  Started with any configuration and
    rate it accepts, its sessions' workers send what their handlers make one
    datagram at a time through the pacer they share, taking its lock in any order,
    at any times and however late sleeps end, whatever datagrams, ticks and aborted
    tasks come between.  What all sessions together send in any stretch of the
    server's life is at most what the rate allows in the time it took.  It is
    what the handlers of a run of [Server] made, each datagram at most once.  And
    what waits is not held back: who takes the free lock sends after at most
    11.4 ms of sleep, and who sleeps under it sends and frees it on waking. *)
Theorem server_paced (Addr : Type) (C : Crypto) (L : CryptoLaws C) (R : ErasureCode) (S : ErasureShape R)
    (legacy : option bytes) (keys : gmap N bytes) (n : nat) (secs : N) (env : option nat) (cfg : config)
    (rate : F64.f64) (t0 : N) (p0 : Pacer.t) (before evs : list (Paced.event Addr)) :
  configure legacy keys n secs env = Ok cfg -> Pacer.new rate t0 = Ok p0 ->
  (forall id k, keys !! id = Some k -> (id < U64)%N) ->
  Encoder.codes R (default MAX_PARITY ((fun p => p `min` MAX_PARITY)%nat <$> env)) ->
  Forall timely (before ++ evs) ->
  let '(out1, s1) := Paced.run cfg before (Paced.start p0) in let '(out2, s2) := Paced.run cfg evs s1 in
  (exists r e, rate = F64.Fin r /\ (1 <= r <= 1000)%Q /\
    Pacer.updated (Paced.limiter s2) = (Pacer.updated (Paced.limiter s1) + e)%N /\
    (F64.Q_of_N (volume (to_send out2).*2) <= allowance r e (turns evs))%Q) /\
  (exists acted outs, acted `sublist_of` handled (before ++ evs) /\
    Server.run cfg acted ∅ = (outs, Paced.table s2) /\ upstream (out1 ++ out2) = upstream outs /\
    to_send (out1 ++ out2) ++ pending (Paced.sending s2) ⊆+ to_send outs) /\
  serves cfg longest_sleep s2.
Proof.
  intros Hc Hnew Hids Hcodes [Hb He]%Forall_app. destruct (configure_sound _ _ _ _ _ _ Hc Hids Hcodes) as [Hcfg _].
  destruct (Pacer.new_run _ _ _ [] Hnew ltac:(constructor)) as (r & b & c & -> & Hr & -> & Hbr & Hc0 & Hc1).
  assert (100000 <= b <= 150000000)%Q as Hbb by lra. assert (1392 <= c <= 600000)%Q as Hcc by (destruct Hc1; lra).
  pose proof (run_holds cfg Hcfg b c Hbb Hcc before c t0 _ (paced_start cfg b c t0 ltac:(lra)) Hb) as H1.
  unfold run_ok in H1. destruct (Paced.run cfg before _) as [out1 s1].
  destruct H1 as (t1 & e1 & a1 & Hs1 & _ & Ha1 & Hw1).
  pose proof (run_holds cfg Hcfg b c Hbb Hcc evs t1 (t0 + e1)%N s1 Hs1 He) as H2.
  unfold run_ok in H2. destruct (Paced.run cfg evs s1) as [out2 s2].
  destruct H2 as (t2 & e2 & a2 & Hs2 & Hin & Ha2 & Hw2). split_and!.
  - pose proof Hs1 as (_ & -> & Ht1 & _). pose proof Hs2 as (_ & -> & Ht2 & _). exists r, e2. split; [done|]. split; [done|].
    split; [done|]. unfold allowance. unfold Pacer.inflow in Hin.
    pose proof (F64.Q_of_N_nonneg e2). set (x := (F64.Q_of_N e2 * (1 # 1000000000))%Q) in *.
    assert (0 <= x)%Q as Hx by (unfold x; lra).
    assert (x * b <= x * (125000 * r * (1 + (1 # 1000000000000000))))%Q as Hxb by nra.
    assert (0 <= 125000 * r * x)%Q as Hrx by nra.
    assert (c <= Qmax (500 * r) 1392 + (1 # 1000000))%Q as Hmax.
    { destruct (Q.max_spec (500 * r) 1392) as [[? ->]|[? ->]]; destruct Hc1; lra. }
    lra.
  - exists (a1 ++ a2). change (Paced.table (Paced.start _)) with (∅ : gmap (N * N) (entry Addr)) in Hw1.
    rewrite server_run_app. destruct (Server.run cfg a1 ∅) as [o1 m1]. destruct Hw1 as (-> & Hu1 & Hp1).
    destruct (Server.run cfg a2 (Paced.table s1)) as [o2 m2]. destruct Hw2 as (-> & Hu2 & Hp2). exists (o1 ++ o2).
    split; [unfold handled; rewrite omap_app; by apply sublist_app|]. split; [done|].
    rewrite !upstream_outputs_app, !to_send_app, Hu1, Hu2. split; [done|].
    change (pending (Paced.sending (Paced.start _))) with (@nil (Addr * bytes)) in Hp1. cbn [app] in Hp1.
    rewrite <-app_assoc. etrans; [apply submseteq_skips_l, Hp2|]. rewrite app_assoc. by apply submseteq_skips_r.
  - apply (paced_serves cfg b c Hbb Hcc t2 (t0 + e1 + e2)%N s2); [done|].
    intros d Hd. by apply (Pacer.sleep_short r b c d Hr).
Qed.

(** So does the client: no turn of its loop fails for its pacer, its datagrams are
    those of [Client.run], and any stretch of it keeps the rate. *)
Theorem client_paced (Addr : Type) (C : Crypto) (L : CryptoLaws C) (R : ErasureCode) (S : ErasureShape R)
    (c : Client.t Addr) (rate : F64.f64) (t0 : N) (p0 : Pacer.t)
    (before evs : list (Client.event Addr * (nat -> N * N))) :
  client_ok c -> Pacer.new rate t0 = Ok p0 -> Forall client_timely (before ++ evs) ->
  exists r out1 c1 p1 out2 c2 p2 e, rate = F64.Fin r /\ (1 <= r <= 1000)%Q /\
    client_turns before (c, p0) = (Ok out1, (c1, p1)) /\ client_turns evs (c1, p1) = (Ok out2, (c2, p2)) /\
    Client.run (fst <$> before) c = (Ok out1, c1) /\ Client.run (fst <$> evs) c1 = (Ok out2, c2) /\
    Pacer.updated p2 = (Pacer.updated p1 + e)%N /\
    (F64.Q_of_N (volume (tunnelled out2)) <= allowance r e (length (tunnelled out2)))%Q.
Proof.
  intros Hcl Hnew [Hb He]%Forall_app.
  destruct (Pacer.new_run _ _ _ [] Hnew ltac:(constructor)) as (r & b & k & -> & Hr & -> & Hbr & Hc0 & Hc1).
  assert (100000 <= b <= 150000000)%Q as Hbb by lra. assert (1392 <= k <= 600000)%Q as Hkk by (destruct Hc1; lra).
  destruct (client_turns_run b k Hbb Hkk before c k t0 Hcl Hb) as (o1 & c1 & s1 & t1 & u1 & w1 & H1 & R1 & C1 & B1 & D1 & K1 & P1);
    [lra|].
  destruct (client_turns_run b k Hbb Hkk evs c1 t1 u1 C1 He B1) as (o2 & c2 & s2 & t2 & u2 & w2 & H2 & R2 & _ & _ & D2 & K2 & P2).
  destruct (Pacer.run_rate _ _ _ w1 w2 Hnew) as (r' & s1' & p1 & s2' & p2 & [= <-] & _ & Q1 & Q2 & Hle & Hvol);
    [by apply Forall_app|].
  rewrite P1 in Q1. injection Q1 as <- <-. rewrite P2 in Q2. injection Q2 as <- <-. cbn [Pacer.updated Pacer.bucket] in Hle, Hvol.
  exists r. do 6 eexists. exists (u2 - u1)%N. split; [done|]. split; [done|]. split; [exact H1|]. split; [exact H2|].
  split; [exact R1|]. split; [exact R2|]. cbn [Pacer.updated Pacer.bucket]. split; [lia|].
  rewrite <-D2, length_fmap. unfold allowance.
  assert (volume (Pacer.datagram <$> w2) = Pacer.total w2) as ->; [|lra].
  clear. induction w2 as [|x w2 IH]; [done|]. exact (f_equal (N.add _) IH).
Qed.

(** *** Witnesses *)
#[local] Close Scope nat_scope.
(** Two devices' sessions, whose datagrams take turns at the pacer of a server
    with 1 Mbit/s; the second's worker is aborted in its sleep. *)
Definition demo_before : list (Paced.event N) := map Paced.Acts
  [Public 10 1 (demo_wire 77 1); Public 11 3 second_wire; Take (42, 77)%N (fun _ => 25%N); Take (1000, 5)%N (fun _ => 26%N)].
Definition demo_life : list (Paced.event N) :=
  [Paced.Acts (FromUpstream (42, 77) 30 demo_draw (replicate 600 x61)); Paced.Acts (Flush (42, 77) demo_draw);
   Paced.Acts (FromUpstream (1000, 5) 31 demo_draw (replicate 600 x62)); Paced.Acts (Flush (1000, 5) demo_draw);
   Paced.Locks (42, 77) 1000; Paced.Locks (1000, 5) 20; Paced.Locks (42, 77) 0; Paced.Locks (1000, 5) 0;
   Paced.Acts (Flush (42, 77) demo_draw); Paced.Wakes 7;
   Paced.Acts (FromUpstream (42, 77) 40 demo_draw (replicate 600 x63)); Paced.Acts (Flush (42, 77) demo_draw);
   Paced.Locks (42, 77) 3; Paced.Locks (1000, 5) 0; Paced.Acts (Cleanup 900000000000)].
Definition demo_started : list (output N) * Paced.t N :=
  Paced.run (C := toy_crypto) (R := xor_code) pair_config demo_before (Paced.start (Pacer.demo_pacer 1)).
Definition demo_lived : list (output N) * Paced.t N :=
  Paced.run (C := toy_crypto) (R := xor_code) pair_config demo_life (snd demo_started).

Lemma server_paced_witness :
  ((to_send (fst demo_lived)).*1, length (pending (Paced.sending (snd demo_lived)))) = ([1; 3; 1; 1], 0%nat) /\
  (exists r e, F64.Fin 1 = F64.Fin r /\ (1 <= r <= 1000)%Q /\
    Pacer.updated (Paced.limiter (snd demo_lived)) = (Pacer.updated (Paced.limiter (snd demo_started)) + e)%N /\
    (F64.Q_of_N (volume (to_send (fst demo_lived)).*2) <= allowance r e (turns demo_life))%Q).
Proof.
  split; [vm_compute; reflexivity|].
  pose proof (server_paced N toy_crypto toy_crypto_laws xor_code xor_code_shape None {[42 := sample_key; 1000 := second_key]}%N 8 60
    (Some 1%nat) pair_config (F64.Fin 1) 0 (Pacer.demo_pacer 1) demo_before demo_life) as H.
  unfold demo_lived, demo_started in *.
  destruct (Paced.run pair_config demo_before _) as [out1 s1]. cbn [fst snd] in *.
  destruct (Paced.run pair_config demo_life s1) as [out2 s2]. cbn [fst snd] in *. apply H.
  - vm_compute. reflexivity.
  - vm_compute. reflexivity.
  - intros id k [[<- _]|[_ [<- _]%lookup_singleton_Some]]%lookup_insert_Some; reflexivity.
  - apply Encoder.xor_codes.
  - repeat (apply Forall_cons; split; [first [exact I|reflexivity|by intros draw [= <-]]|]). by apply Forall_nil.
Defined.
