(* ===== verification/Process.v ===== *)
(** * The relay's two processes (src/src/quic_relay.rs: [run_server],
    [run_client], the endpoints and their settings)

    The server accepts connections and runs one task for each, which share the
    replay cache behind a lock: the process is a step relation over numbered
    connections, its tasks interleaving event by event.  The client connects,
    authenticates and runs one session at a time, forever.  TLS, PEM and QUIC are
    arguments. *)
From S2P Require Import Prelude External QuicAuth Keyring Carrier Relay Lanes.

(** ** Endpoints *)
Section endpoints.
(** What rustls and quinn make of the files: certificates and keys parsed out of
    PEM, the configurations built from them, sockets bound. *)
Context {Cert Key Roots Config Endpoint : Type}.
Context (parse_certs : bytes -> result (list Cert)) (parse_key : bytes -> result (option Key)).
Context (with_single_cert : list Cert -> Key -> result Config) (bind_server : Config -> result Endpoint).
Context (no_roots : Roots) (add_root : Cert -> Roots -> result Roots).
Context (client_config : Roots -> result Config) (bind_client : Config -> result Endpoint).

(** [load_certificates]; [file] is what opening and reading it gives. *)
Definition load_certificates (file : option bytes) : result (list Cert) :=
  pem ← context "open certificate"%string file;
  certificates ← parse_certs pem;
  if bool_decide (length certificates = 0)%nat then Err "certificate file is empty"%string else Ok certificates.

(** [load_private_key] *)
Definition load_private_key (file : option bytes) : result Key :=
  pem ← context "open private key"%string file;
  key ← parse_key pem;
  context "private key file is empty"%string key.

(** [server_endpoint] *)
Definition server_endpoint (cert private_key : option bytes) : result Endpoint :=
  certificates ← load_certificates cert;
  key ← load_private_key private_key;
  config ← with_single_cert certificates key;
  bind_server config.

(** [for certificate in load_certificates(ca_cert)? { roots.add(certificate)? }] *)
Fixpoint add_roots (certificates : list Cert) (roots : Roots) : result Roots :=
  match certificates with
  | [] => Ok roots
  | c :: certificates => roots ← add_root c roots; add_roots certificates roots
  end.

(** [client_endpoint] *)
Definition client_endpoint (ca_cert : option bytes) : result Endpoint :=
  certificates ← load_certificates ca_cert;
  roots ← add_roots certificates no_roots;
  config ← client_config roots;
  bind_client config.
End endpoints.

(** [transport_config], the settings that are not quinn's own *)
Record TransportConfig := mk_transport {
  max_concurrent_bidi_streams : N;
  max_idle_timeout : N;
  keep_alive_interval : N;
  initial_mtu : N;
  datagram_receive_buffer_size : N;
  datagram_send_buffer_size : N;
}.

Definition transport_config : TransportConfig :=
  mk_transport (as_u32 (MAX_STREAM_LANES + 1)) (20 * SECOND) (2 * SECOND) 1472 (4 * 1024 * 1024) (4 * 1024 * 1024).

(** ** The server process *)
Definition DEFAULT_REPLAY_CAPACITY : nat := N.to_nat 65536.

Module Host.
Section host.
Context {C : Crypto}.
(** The key file's devices, and [SMART_QUIC_STREAM_LANES]. *)
Context (keys : gmap N str) (env : option str).

(** A task: waiting for the handshake and the proof, relaying for a device in
    either mode, or over. *)
Inductive task :=
| Pending
| Relaying (device : N) (s : RelayServer.t)
| RelayingLanes (device : N) (s : Lanes.t ())
| Closed (error : string).

Record t := mk {
  replays : ReplayCache.t;
  tasks : list task;
}.

(** What happens in one task.  [Authenticates]: the connection with its exporter,
    the proof's stream, the clock, whether [OK] could be written and the upstream
    socket opened, and what [accept_bi] yields for each lane. *)
Inductive task_event :=
| Authenticates (export : bytes -> option bytes) (stream : result bytes) (now : result N)
    (replied socket : result ()) (streams : nat -> result bytes)
| Relays (ev : RelayServer.event)
| RelaysLanes (ev : Lanes.event ())
| Fails (error : string).

Inductive task_output :=
| Replied (data : bytes)
| Opened (lanes : list conn)
| FromRelay (out : RelayServer.output)
| FromLanes (out : Lanes.output ()).

(** A task that ends reports its error; a panic ends only its task. *)
Definition finish (r : result task) : task :=
  match r with Ok k => k | Err e => Closed e | Panic => Closed "panicked"%string end.

(** The rest of a task once the device is authenticated: [configured_stream_lanes]
    and the start of [relay_connection] or [relay_laned_connection]. *)
Definition start_relay (device : N) (socket : result ()) (streams : nat -> result bytes)
    : result (list task_output * task) :=
  lanes ← parse_stream_lanes env;
  _ ← socket;
  if lanes =? 0 then Ok ([], Relaying device RelayServer.start) else
  opened ← each_lane accept_lane (streams <$> seq 0 (N.to_nat lanes));
  Ok ([Opened opened], RelayingLanes device (Lanes.start (N.to_nat lanes))).

(** One event of a task *)
Definition task_step (ev : task_event) (k : task) (cache : ReplayCache.t) : list task_output * task * ReplayCache.t :=
  match k, ev with
  | Pending, Authenticates export stream now replied socket streams =>
      let '(r, cache) := authenticate_server export keys stream now cache in
      match ('(device, reply) ← r; _ ← replied; Ok (device, reply)) with
      | Ok (device, reply) =>
          let r := start_relay device socket streams in
          (Replied reply :: match r with Ok (out, _) => out | _ => [] end, finish ('(_, k) ← r; Ok k), cache)
      | Err e => ([], Closed e, cache)
      | Panic => ([], finish Panic, cache)
      end
  | Relaying device s, Relays ev =>
      let '(out, r) := RelayServer.step ev s in
      (FromRelay <$> out, finish (s ← r; Ok (Relaying device s)), cache)
  | RelayingLanes device s, RelaysLanes ev =>
      let '(out, r) := Lanes.server_step ev s in
      (FromLanes <$> out, finish (s ← r; Ok (RelayingLanes device s)), cache)
  | Pending, Fails e => ([], Closed e, cache)
  | k, _ => ([], k, cache)
  end.

(** The process: [endpoint.accept()] starts a task; a task takes a turn. *)
Inductive event :=
| Accepts
| Turn (i : nat) (ev : task_event).

Definition step (ev : event) (h : t) : list (nat * task_output) * t :=
  match ev with
  | Accepts => ([], mk (replays h) (tasks h ++ [Pending]))
  | Turn i ev =>
      match tasks h !! i with
      | Some k =>
          let '(out, k, cache) := task_step ev k (replays h) in
          (pair i <$> out, mk cache (<[i := k]> (tasks h)))
      | None => ([], h)
      end
  end.

Fixpoint run (evs : list event) (h : t) : list (nat * task_output) * t :=
  match evs with
  | [] => ([], h)
  | ev :: evs =>
      let '(out, h) := step ev h in
      let '(rest, h) := run evs h in
      (out ++ rest, h)
  end.
End host.

(** [run_server] up to its loop: the endpoint, the key file and the cache. *)
Definition start {Endpoint : Type} (endpoint : result Endpoint) (mode : option N) (keyring : option str)
    : result (Endpoint * gmap N str * t) :=
  endpoint ← endpoint;
  keys ← relay_parse_keyring mode keyring;
  replays ← ReplayCache.new DEFAULT_REPLAY_CAPACITY;
  Ok (endpoint, keys, mk replays []).
End Host.

(** ** The client process *)
Module Dialer.
Section dialer.
Context {Addr : Type} {C : Crypto}.
Context (device_id : N) (secret : str) (env : option str).

(** One round of [run_client]'s loop, as the network gives it: whether the
    connection comes about, the clock and the draw of the proof, its exporter, whether
    the proof could be written, the server's reply, the lanes' streams, and the
    session's start and events so far. *)
Record round := mk_round {
  connected : result ();
  export : bytes -> option bytes;
  opened : result ();
  now : result N;
  nonce : bytes;
  written : result ();
  reply : result bytes;
  streams : nat -> result bytes;
  started : N;
  backlog : list (Addr * bytes);
  events : list (RelayClient.event Addr);
  lane_events : list (Lanes.event Addr);
}.

Inductive output :=
| SentProof (data : bytes)
| Opened (lanes : list conn)
| FromSession (out : RelayClient.output Addr)
| FromLanes (out : Lanes.output Addr).

(** [authenticate_client]: what it writes, and its verdict. *)
Definition authenticate_client (r : round) : list output * result () :=
  if device_id =? 0 then ([], Err "device id must be non-zero"%string) else
  match (_ ← opened r; proof ← client_proof (export r) device_id secret (now r) (nonce r); _ ← written r; Ok proof) with
  | Ok proof => ([SentProof proof], client_verdict (reply r))
  | Err e => ([], Err e)
  | Panic => ([], Panic)
  end.

(** A session that is still running. *)
Inductive session :=
| Running (s : RelayClient.t Addr)
| RunningLanes (s : Lanes.t Addr).

(** [relay_client_session] or [relay_laned_client_session]; neither ever returns
    [Ok], so that [Ok] is a session that still runs. *)
Definition run_session (lanes : N) (r : round) : list output * result session :=
  if lanes =? 0 then
    let '(out, res) := Relay.run RelayClient.step (events r) (RelayClient.start (started r) (backlog r)) in
    (FromSession <$> out, s ← res; Ok (Running s))
  else
    match each_lane open_lane (streams r <$> seq 0 (N.to_nat lanes)) with
    | Ok conns =>
        let '(out, res) := Relay.run Lanes.client_step (lane_events r) (Lanes.start (N.to_nat lanes)) in
        (Opened conns :: (FromLanes <$> out), s ← res; Ok (RunningLanes s))
    | Err e => ([], Err e)
    | Panic => ([], Panic)
    end.

(** The [async] block: what is sent, how it ends, and whether it got as far as
    resetting the delay. *)
Definition attempt (r : round) : list output * result session * bool :=
  match connected r with
  | Ok _ =>
      let '(out, verdict) := authenticate_client r in
      match (_ ← verdict; parse_stream_lanes env) with
      | Ok lanes => let '(rest, res) := run_session lanes r in (out ++ rest, res, true)
      | Err e => (out, Err e, false)
      | Panic => (out, Panic, false)
      end
  | Err e => ([], Err e, false)
  | Panic => ([], Panic, false)
  end.

(** [run_client]'s loop over the rounds so far: the outputs, the sleeps between
    rounds, and the session running in the end, if one does.  A round that ended
    is followed by a sleep; [unwrap_err] panics on [Ok], which no round returns. *)
Fixpoint run (rounds : list round) (delay : N) : list output * list N * result (option session) :=
  match rounds with
  | [] => ([], [], Ok None)
  | r :: rounds =>
      let '(out, res, reached) := attempt r in
      match res with
      | Ok s => (out, [], Ok (Some s))
      | Err _ =>
          let '(sleep, delay) := reconnect reached delay in
          let '(outs, sleeps, last) := run rounds delay in
          (out ++ outs, sleep :: sleeps, last)
      | Panic => (out, [], Panic)
      end
  end.
End dialer.
End Dialer.

(** ** Lemmas: the server process *)
Section host_lemmas.
Context {C : Crypto} (keys : gmap N str) (env : option str).
Import Host.
#[local] Abbreviation run := (Host.run keys env).
#[local] Abbreviation step := (Host.step keys env).

Lemma run_cons ev evs h : run (ev :: evs) h =
  let '(out, h) := step ev h in let '(rest, h) := run evs h in (out ++ rest, h).
Proof. done. Qed.

Lemma host_run_app l1 l2 h : run (l1 ++ l2) h =
  let '(o1, h1) := run l1 h in let '(o2, h2) := run l2 h1 in (o1 ++ o2, h2).
Proof.
  revert h. induction l1 as [|ev l1 IH]; intros h; cbn [app]; [cbn; by destruct (run l2 h)|].
  rewrite !run_cons. destruct (step ev h) as [out h1]. rewrite IH. destruct (run l1 h1) as [o1 h2].
  destruct (run l2 h2) as [o2 h3]. by rewrite app_assoc.
Qed.

(** What task [i] put out, by the kind [sel] selects. *)
Definition outputs_of {Out} (sel : task_output -> option Out) (i : nat) (outs : list (nat * task_output)) : list Out :=
  omap (fun '(j, o) => if decide (j = i) then sel o else None) outs.

(** The events of task [i], by the kind [sel] selects. *)
Definition events_of {Ev} (sel : task_event -> option Ev) (i : nat) (evs : list event) : list Ev :=
  omap (fun ev => match ev with Turn j e => if decide (j = i) then sel e else None | Accepts => None end) evs.

Lemma outputs_of_app {Out} (sel : task_output -> option Out) i l1 l2 :
  outputs_of sel i (l1 ++ l2) = outputs_of sel i l1 ++ outputs_of sel i l2.
Proof. apply omap_app. Qed.

Lemma outputs_of_other {Out} (sel : task_output -> option Out) i j l : j <> i -> outputs_of sel i (pair j <$> l) = [].
Proof.
  intros Hne. induction l as [|o l IH]; [done|]. cbn. by rewrite decide_False.
Qed.

Lemma outputs_of_same {Out} (sel : task_output -> option Out) (inj : Out -> task_output) i l :
  (forall o, sel (inj o) = Some o) -> outputs_of sel i (pair i <$> (inj <$> l)) = l.
Proof.
  intros Hs. induction l as [|o l IH]; [done|]. unfold outputs_of in *. cbn [fmap list_fmap omap list_omap].
  rewrite decide_True, Hs by done. by f_equal.
Qed.

(** A turn of another task, or a new connection, leaves task [i] as it is. *)
Lemma step_other i ev h k :
  (forall e, ev <> Turn i e) -> tasks h !! i = Some k ->
  tasks (snd (step ev h)) !! i = Some k /\ forall Out (sel : task_output -> option Out), outputs_of sel i (fst (step ev h)) = [].
Proof.
  intros Hne Hk. destruct ev as [|j e]; cbn [Host.step].
  - split; [|done]. cbn. by apply lookup_app_l_Some.
  - assert (j <> i) as Hji by (intros ->; by destruct (Hne e)).
    destruct (tasks h !! j); [|done]. destruct (task_step _ _ _ _ _) as [[out k'] cache]. cbn.
    split; [by rewrite list_lookup_insert_ne|]. intros Out sel. by apply outputs_of_other.
Qed.

Lemma step_own i e h k :
  tasks h !! i = Some k ->
  let '(out, k', cache) := task_step keys env e k (replays h) in
  step (Turn i e) h = (pair i <$> out, mk cache (<[i := k']> (tasks h))) /\ tasks (snd (step (Turn i e) h)) !! i = Some k'.
Proof.
  intros Hk. cbn [Host.step]. rewrite Hk. destruct (task_step _ _ _ _ _) as [[out k'] cache]. split; [done|].
  cbn. apply list_lookup_insert_eq. by eapply lookup_lt_Some.
Qed.

Lemma turn_dec i ev : (exists e, ev = Turn i e) \/ forall e, ev <> Turn i e.
Proof. destruct ev as [|j e]; [by right|]. destruct (decide (j = i)) as [->|]; [left; by exists e|right; congruence]. Qed.

(** A task that is over stays over. *)
Lemma closed_run evs : forall h i e, tasks h !! i = Some (Closed e) ->
  tasks (snd (run evs h)) !! i = Some (Closed e) /\
  forall Out (sel : task_output -> option Out), outputs_of sel i (fst (run evs h)) = [].
Proof.
  induction evs as [|ev evs IH]; intros h i e Hk; [done|]. rewrite run_cons.
  assert (tasks (snd (step ev h)) !! i = Some (Closed e) /\
    forall Out (sel : task_output -> option Out), outputs_of sel i (fst (step ev h)) = []) as [H1 H2].
  { destruct (turn_dec i ev) as [[x ->]|Hne]; [|by apply step_other].
    pose proof (step_own i x h _ Hk) as Hs. cbn [task_step] in Hs. destruct x; destruct Hs as [-> Hs]; by split. }
  destruct (step ev h) as [out h1]. cbn [fst snd] in *. destruct (IH h1 i e H1) as [H3 H4].
  destruct (run evs h1) as [rest h2]. split; [done|]. intros Out sel. cbn [fst]. by rewrite outputs_of_app, H2, H4.
Qed.

(** *** A relaying task is the relay's loop

    [at_state] is the task in this mode; [sel_ev], [inj], [sel_out] its events
    and outputs among those of tasks. *)
Section relaying.
Context {Ev S Out : Type} (loop : Ev -> S -> list Out * result S) (at_state : S -> task).
Context (sel_ev : task_event -> option Ev) (inj : Out -> task_output) (sel_out : task_output -> option Out).
Context (sel_inj : forall o, sel_out (inj o) = Some o).
Context (mode : forall e s cache, task_step keys env e (at_state s) cache =
  match sel_ev e with
  | Some ev => let '(out, r) := loop ev s in (inj <$> out, finish (s ← r; Ok (at_state s)), cache)
  | None => ([], at_state s, cache)
  end).

Lemma relaying_run evs : forall h i s, tasks h !! i = Some (at_state s) ->
  let '(o, r) := Relay.run loop (events_of sel_ev i evs) s in
  outputs_of sel_out i (fst (run evs h)) = o /\
  tasks (snd (run evs h)) !! i = Some (finish (s ← r; Ok (at_state s))).
Proof.
  induction evs as [|ev evs IH]; intros h i s Hk; [done|]. rewrite run_cons.
  destruct (turn_dec i ev) as [[x ->]|Hne].
  - pose proof (step_own i x h _ Hk) as Hs. rewrite mode in Hs. unfold events_of. cbn [omap list_omap].
    rewrite decide_True by done. fold (events_of sel_ev i evs). destruct (sel_ev x) as [ev|].
    + cbn [Relay.run]. destruct (loop ev s) as [out r]. destruct Hs as [-> Hs]. cbn [snd tasks] in Hs.
      destruct r as [s1|e|]; cbn [mbind outcome_bind finish] in *.
      * specialize (IH (mk (replays h) _) i s1 Hs). destruct (Relay.run loop (events_of sel_ev i evs) s1) as [o r]. destruct IH as [H1 H2].
        destruct (run evs _) as [rest h2]. split; [|done]. cbn [fst] in *.
        rewrite outputs_of_app, H1, outputs_of_same by done. done.
      * destruct (closed_run evs (mk (replays h) _) i e Hs) as [H1 H2]. destruct (run evs _) as [rest h2]. split; [|done]. cbn [fst] in *.
        rewrite outputs_of_app, H2, app_nil_r, outputs_of_same by done. done.
      * destruct (closed_run evs (mk (replays h) _) i _ Hs) as [H1 H2]. destruct (run evs _) as [rest h2]. split; [|done]. cbn [fst] in *.
        rewrite outputs_of_app, H2, app_nil_r, outputs_of_same by done. done.
    + destruct Hs as [-> Hs]. cbn [fmap list_fmap snd] in *. specialize (IH (mk (replays h) _) i s Hs).
      destruct (Relay.run loop (events_of sel_ev i evs) s) as [o r]. by destruct (run evs _).
  - destruct (step_other i ev h _ Hne Hk) as [H1 H2].
    assert (events_of sel_ev i (ev :: evs) = events_of sel_ev i evs) as ->.
    { unfold events_of. cbn [omap list_omap]. destruct ev as [|j x]; [done|]. rewrite decide_False; [done|].
      intros ->. by destruct (Hne x). }
    destruct (step ev h) as [out h1]. cbn [fst snd] in *. specialize (IH h1 i s H1).
    destruct (Relay.run loop (events_of sel_ev i evs) s) as [o r]. destruct (run evs h1) as [rest h2]. cbn [fst snd] in *.
    by rewrite outputs_of_app, H2.
Qed.
End relaying.

(** *** Where a relaying task comes from *)
Lemma finish_started (r : result task) : (forall k, r = Ok k -> k <> Pending) -> finish r <> Pending.
Proof. destruct r; intros H; [by apply H|done..]. Qed.

Lemma start_relay_cases device socket streams out k :
  start_relay env device socket streams = Ok (out, k) ->
  exists lanes, parse_stream_lanes env = Ok lanes /\
    ((lanes = 0 /\ out = [] /\ k = Relaying device RelayServer.start) \/
     (lanes <> 0 /\ (exists o, out = [Opened o]) /\ k = RelayingLanes device (Lanes.start (N.to_nat lanes)))).
Proof.
  unfold start_relay. destruct (parse_stream_lanes env) as [lanes| |]; [|done..]. cbn [mbind outcome_bind].
  destruct socket; [|done..]. cbn [mbind outcome_bind]. intros H. exists lanes. split; [done|].
  destruct (N.eqb_spec lanes 0) as [Hl|Hl].
  - injection H as <- <-. by left.
  - right. destruct (each_lane _ _) as [o| |]; [|done..]. cbn [mbind outcome_bind] in H. injection H as <- <-.
    split; [done|]. split; [by exists o|done].
Qed.

Lemma task_step_started e k cache : k <> Pending -> snd (fst (task_step keys env e k cache)) <> Pending.
Proof.
  intros Hk. destruct k as [|d s|d s|er]; [done| | |by destruct e]; destruct e; try done; cbn [task_step].
  - destruct (RelayServer.step ev s) as [out r]. apply finish_started. destruct r; cbn; [|done..]. by intros k [= <-].
  - destruct (Lanes.server_step ev s) as [out r]. apply finish_started. destruct r; cbn; [|done..]. by intros k [= <-].
Qed.

(** A task leaves [Pending] for good, and puts out nothing before. *)
Lemma task_step_pending e cache :
  snd (fst (task_step keys env e Pending cache)) = Pending -> fst (fst (task_step keys env e Pending cache)) = [].
Proof.
  destruct e as [export stream now replied socket streams|ev|ev|er]; try done. cbn [task_step].
  destruct (authenticate_server _ _ _ _ _) as [r cache']. destruct (_ ← r; _) as [[d reply]|er|]; [|done..]. cbn [fst snd].
  intros H. exfalso. revert H. apply finish_started. intros k.
  destruct (start_relay _ _ _ _) as [[out k']| |] eqn:Hs; cbn; [|done..]. intros [= <-].
  apply start_relay_cases in Hs as (lanes & _ & [(_ & _ & ->)|(_ & _ & ->)]); discriminate.
Qed.

Definition waiting (h : t) (i : nat) : Prop := forall k, tasks h !! i = Some k -> k = Pending.

Lemma step_waiting ev h i : waiting (snd (step ev h)) i -> waiting h i.
Proof.
  intros Hw k Hk. destruct (turn_dec i ev) as [[e ->]|Hne].
  - pose proof (step_own i e h k Hk) as Hs. pose proof (task_step_started e k (replays h)) as Hp.
    destruct (task_step keys env e k (replays h)) as [[out k'] cache]. destruct Hs as [_ Hs].
    apply Hw in Hs. cbn in Hp. destruct k; [done|..]; by destruct Hp.
  - apply Hw. by apply step_other.
Qed.

Lemma step_waiting_outputs {Out} (sel : task_output -> option Out) ev h i :
  waiting (snd (step ev h)) i -> outputs_of sel i (fst (step ev h)) = [].
Proof.
  intros Hw. pose proof (step_waiting ev h i Hw) as Hw0. destruct (turn_dec i ev) as [[e ->]|Hne].
  - destruct (tasks h !! i) as [k|] eqn:Hk; [|cbn [Host.step]; by rewrite Hk]. pose proof (step_own i e h k Hk) as Hs.
    assert (k = Pending) as -> by (by apply Hw0). pose proof (task_step_pending e (replays h)) as Hp.
    destruct (task_step keys env e Pending (replays h)) as [[out k'] cache]. destruct Hs as [Hs1 Hs2].
    apply Hw in Hs2. cbn in Hp. rewrite Hs1. by rewrite Hp.
  - destruct (tasks h !! i) as [k|] eqn:Hk; [by eapply step_other|].
    destruct ev as [|j e]; [done|]. cbn [Host.step]. destruct (tasks h !! j); [|done].
    destruct (task_step _ _ _ _ _) as [[out k'] cache]. apply outputs_of_other. intros ->. by destruct (Hne e).
Qed.

Lemma run_waiting {Out} (sel : task_output -> option Out) evs : forall h i,
  waiting (snd (run evs h)) i -> waiting h i /\ outputs_of sel i (fst (run evs h)) = [].
Proof.
  induction evs as [|ev evs IH]; intros h i Hw; [done|]. rewrite run_cons in *.
  pose proof (step_waiting ev h i) as H1. pose proof (step_waiting_outputs sel ev h i) as H2.
  destruct (step ev h) as [out h1]. specialize (IH h1 i). destruct (run evs h1) as [rest h2]. cbn [fst snd] in *.
  destruct (IH Hw) as [H3 H4]. split; [by apply H1|]. by rewrite outputs_of_app, H2, H4.
Qed.

(** The turn in which a task leaves [Pending]. *)
Lemma leaves_pending evs : forall h i k,
  waiting h i -> tasks (snd (run evs h)) !! i = Some k -> k <> Pending ->
  exists l1 e l2, evs = l1 ++ Turn i e :: l2 /\ tasks (snd (run l1 h)) !! i = Some Pending /\
    snd (fst (task_step keys env e Pending (replays (snd (run l1 h))))) <> Pending.
Proof.
  induction evs as [|ev evs IH]; intros h i k Hw Hk Hne; [by destruct Hne; apply (Hw k)|]. rewrite run_cons in Hk.
  destruct (step ev h) as [out h1] eqn:Hstep. destruct (run evs h1) as [rest h2] eqn:Hrun. cbn [snd] in Hk.
  assert (waiting h1 i \/ ~ waiting h1 i) as [Hw1|Hw1].
  { unfold waiting. destruct (tasks h1 !! i) as [[]|]; [by left; intros k' [= <-]|..]; try (right; intros H; by specialize (H _ eq_refl)).
    by left. }
  - specialize (IH h1 i k Hw1). rewrite Hrun in IH. destruct (IH Hk Hne) as (l1 & e & l2 & -> & H1 & H2).
    exists (ev :: l1), e, l2. rewrite run_cons, Hstep. destruct (run l1 h1) as [o h3] eqn:Hr1. by split_and!.
  - destruct (turn_dec i ev) as [[e ->]|Hev].
    + exists [], e, evs. split; [done|]. cbn [Host.run snd]. destruct (tasks h !! i) as [k0|] eqn:Hk0.
      2: { exfalso. apply Hw1. cbn [Host.step] in Hstep. rewrite Hk0 in Hstep. by injection Hstep as _ <-. }
      assert (k0 = Pending) as -> by (by apply Hw). split; [done|]. pose proof (step_own i e h Pending Hk0) as Hs.
      destruct (task_step keys env e Pending (replays h)) as [[o k'] cache]. rewrite Hstep in Hs. destruct Hs as [_ Hs].
      cbn [snd fst] in *. intros ->. apply Hw1. intros k'' Hk''. congruence.
    + exfalso. apply Hw1. intros k' Hk'. destruct (tasks h !! i) as [k0|] eqn:Hk0.
      * pose proof (step_other i ev h k0 Hev Hk0) as [H1 _]. rewrite Hstep in H1. cbn in H1. rewrite (Hw k0 Hk0) in H1. congruence.
      * destruct ev as [|j e]; cbn [Host.step] in Hstep.
        -- injection Hstep as _ <-. cbn in Hk'. apply lookup_snoc_Some in Hk' as [[_ Hk']|[_ <-]]; [congruence|done].
        -- destruct (tasks h !! j) as [kj|] eqn:Hj; [|injection Hstep as _ <-; congruence].
           destruct (task_step keys env e kj (replays h)) as [[o k''] cache]. injection Hstep as _ <-. cbn in Hk'.
           rewrite list_lookup_insert_ne in Hk' by (intros ->; by destruct (Hev e)). congruence.
Qed.

Definition relay_event (e : task_event) : option RelayServer.event := match e with Relays ev => Some ev | _ => None end.
Definition relay_output (o : task_output) : option RelayServer.output := match o with FromRelay o => Some o | _ => None end.
Definition lanes_event (e : task_event) : option (Lanes.event ()) := match e with RelaysLanes ev => Some ev | _ => None end.
Definition lanes_output (o : task_output) : option (Lanes.output ()) := match o with FromLanes o => Some o | _ => None end.

(** Task [i], in state [k] after the events [evs], is the loop of [Relay] or of
    [Lanes]: what it put out among [outs] is what the loop, from its start, puts
    out for the task's own events, and its state is the loop's. *)
Definition relays_as (i : nat) (evs : list event) (outs : list (nat * task_output)) (device : N) (k : task) : Prop :=
  match k with
  | Relaying d s => d = device /\ parse_stream_lanes env = Ok 0 /\
      Relay.run RelayServer.step (events_of relay_event i evs) RelayServer.start = (outputs_of relay_output i outs, Ok s)
  | RelayingLanes d s => d = device /\ exists lanes, parse_stream_lanes env = Ok lanes /\ lanes <> 0 /\
      Relay.run Lanes.server_step (events_of lanes_event i evs) (Lanes.start (N.to_nat lanes)) =
        (outputs_of lanes_output i outs, Ok s)
  | Pending | Closed _ => False
  end.

Definition is_relaying (k : task) : Prop := match k with Relaying _ _ | RelayingLanes _ _ => True | _ => False end.

Lemma finish_relaying {A} (r : result A) (f : A -> task) k :
  finish (a ← r; Ok (f a)) = k -> is_relaying k -> exists a, r = Ok a /\ k = f a.
Proof. destruct r as [a|e|]; cbn; intros <-; [|done..]. intros _. by exists a. Qed.

(** The tasks' loops, after a task entered its mode. *)
Lemma relays_on evs h i k0 device (k : task) :
  tasks h !! i = Some k0 -> relays_as i [] [] device k0 ->
  tasks (snd (run evs h)) !! i = Some k -> is_relaying k ->
  relays_as i evs (fst (run evs h)) device k.
Proof.
  intros Hk0 Hr Hk Hrel. destruct k0 as [|d s0|d s0|]; [done| | |done]; cbn [relays_as] in Hr.
  - destruct Hr as (-> & Hp & [= <-]).
    pose proof (relaying_run RelayServer.step (Relaying device) relay_event FromRelay relay_output ltac:(done)
      ltac:(by intros [] ? ?) evs h i RelayServer.start Hk0) as H.
    destruct (Relay.run _ _ _) as [o r] eqn:Hrun. destruct H as [Ho Hf]. rewrite Hf in Hk. injection Hk as Hk.
    apply finish_relaying in Hk as (s & -> & ->); [|done]. cbn. split; [done|]. split; [done|]. by rewrite Hrun, Ho.
  - destruct Hr as (-> & lanes & Hp & Hne & [= <-]).
    pose proof (relaying_run Lanes.server_step (RelayingLanes device) lanes_event FromLanes lanes_output ltac:(done)
      ltac:(by intros [] ? ?) evs h i (Lanes.start (N.to_nat lanes)) Hk0) as H.
    destruct (Relay.run _ _ _) as [o r] eqn:Hrun. destruct H as [Ho Hf]. rewrite Hf in Hk. injection Hk as Hk.
    apply finish_relaying in Hk as (s & -> & ->); [|done]. cbn. split; [done|]. exists lanes. by rewrite Hrun, Ho.
Qed.

Lemma outputs_of_none {Out} (sel : task_output -> option Out) i l :
  Forall (fun o => sel o = None) l -> outputs_of sel i (pair i <$> l) = [].
Proof.
  induction 1 as [|o l Ho _ IH]; [done|]. unfold outputs_of in *. cbn [fmap list_fmap omap list_omap].
  by rewrite decide_True, Ho.
Qed.

Lemma authenticate_inputs export stream now cache x :
  fst (authenticate_server export keys stream now cache) = Ok x -> exists st t, stream = Ok st /\ now = Ok t.
Proof.
  unfold authenticate_server. unfold_method. destruct stream as [st| |]; [|done..]. unfold read_to_end. cbn [mbind outcome_bind].
  destruct (_ <? _)%nat; [done|]. destruct (envelope_device_id st) as [d| |]; [|done..].
  destruct (keys !! d); [|done]. cbn [context]. destruct (slice st 21 37) as [n| |]; [|done..].
  destruct (exporter export n); [|done..]. destruct now as [t| |]; [|done..]. intros _. by exists st, t.
Qed.

(** What an accepted proof makes of a waiting task. *)
Lemma enters i e cache :
  let '(out, k, _) := task_step keys env e Pending cache in
  is_relaying k ->
  exists export stream now replied socket streams device reply,
    e = Authenticates export (Ok stream) (Ok now) replied socket streams /\
    fst (authenticate_server export keys (Ok stream) (Ok now) cache) = Ok (device, reply) /\
    relays_as i [] [] device k /\
    Forall (fun o => relay_output o = None) out /\ Forall (fun o => lanes_output o = None) out.
Proof.
  destruct e as [export stream now replied socket streams|ev|ev|er]; [|by cbn; intros []..]. cbn [task_step].
  pose proof (authenticate_inputs export stream now cache) as Hin.
  destruct (authenticate_server _ _ _ _ _) as [r cache'] eqn:Hauth. cbn [fst] in Hin.
  destruct r as [[d reply]|er|]; [|by cbn; intros []..]. destruct (Hin _ eq_refl) as (st & t & -> & ->).
  destruct replied as [[]|er|] eqn:Hrep; [|by cbn; intros []..]. cbn [mbind outcome_bind].
  destruct (start_relay env d socket streams) as [[out k]|er|] eqn:Hs; [|by cbn; intros []..]. cbn [mbind outcome_bind finish]. intros Hk.
  exists export, st, t, (Ok ()), socket, streams, d, reply. rewrite Hauth. split; [done|]. split; [done|].
  apply start_relay_cases in Hs as (lanes & Hp & [(-> & -> & ->)|(Hne & [o ->] & ->)]).
  - split; [by split_and!|]. by repeat constructor.
  - split; [|by repeat constructor]. split; [done|]. by exists lanes.
Qed.

(** A relaying task was admitted, and is its mode's loop since. *)
Lemma relaying_origin evs h i k :
  waiting h i -> let '(outs, h') := run evs h in
  tasks h' !! i = Some k -> is_relaying k ->
  exists l1 export stream now replied socket streams l2 device reply,
    evs = l1 ++ Turn i (Authenticates export (Ok stream) (Ok now) replied socket streams) :: l2 /\
    tasks (snd (run l1 h)) !! i = Some Pending /\
    fst (authenticate_server export keys (Ok stream) (Ok now) (replays (snd (run l1 h)))) = Ok (device, reply) /\
    relays_as i l2 outs device k.
Proof.
  intros Hw. destruct (run evs h) as [outs h'] eqn:Hrun. intros Hk Hrel.
  assert (k <> Pending) as Hne by (by intros ->).
  destruct (leaves_pending evs h i k Hw) as (l1 & e & l2 & -> & Hp & Hstart); [by rewrite Hrun|done|].
  rewrite host_run_app in Hrun. pose proof (run_waiting relay_output l1 h i) as Hq1.
  pose proof (run_waiting lanes_output l1 h i) as Hq2.
  destruct (run l1 h) as [o1 h1] eqn:Hr1. cbn [fst snd] in *.
  assert (waiting h1 i) as Hw1 by (intros k' Hk'; congruence).
  destruct (Hq1 Hw1) as [_ Hq1']. destruct (Hq2 Hw1) as [_ Hq2']. clear Hq1 Hq2.
  rewrite run_cons in Hrun. pose proof (step_own i e h1 Pending Hp) as Hs. pose proof (enters i e (replays h1)) as He.
  destruct (task_step keys env e Pending (replays h1)) as [[o2 k1] cache]. destruct Hs as [Hs1 Hs2]. rewrite Hs1 in Hrun, Hs2.
  cbn [snd fst] in *. destruct (run l2 _) as [o3 h3] eqn:Hr2. injection Hrun as <- <-.
  assert (is_relaying k1) as Hk1.
  { destruct k1 as [| | |er]; [done..|]. exfalso. destruct (closed_run l2 _ i er Hs2) as [Hc _]. rewrite Hr2 in Hc. cbn in Hc.
    rewrite Hk in Hc. injection Hc as ->. done. }
  destruct (He Hk1) as (export & stream & now & replied & socket & streams & d & reply & -> & Hauth & Hin & Hn1 & Hn2).
  exists l1, export, stream, now, replied, socket, streams, l2, d, reply. rewrite Hr1. split_and!; try done.
  pose proof (relays_on l2 _ i k1 d k Hs2 Hin) as Hon. rewrite Hr2 in Hon. specialize (Hon Hk Hrel). cbn [fst] in Hon.
  destruct k as [|d' s|d' s|]; [done| | |done]; cbn [relays_as] in *.
  - by rewrite !outputs_of_app, Hq1', outputs_of_none.
  - destruct Hon as (-> & lanes & H1 & H2 & H3). split; [done|]. exists lanes.
    by rewrite !outputs_of_app, Hq2', outputs_of_none.
Qed.

(** *** The cache all tasks share *)
Definition timestamp_of (stream : bytes) : N := from_be_bytes (take 8 (drop 13 stream)).

Lemma authenticate_verify {L : CryptoLaws C} export stream now c d reply :
  fst (authenticate_server export keys (Ok stream) (Ok now) c) = Ok (d, reply) ->
  exists secret binding a,
    verify_envelope stream (utf8 secret) binding now DEFAULT_AUTH_WINDOW_SECS c =
      (Ok a, snd (authenticate_server export keys (Ok stream) (Ok now) c)) /\ timestamp a = timestamp_of stream.
Proof.
  intros H. destruct (malformed stream) as [[]|e|] eqn:Hwf;
    [destruct (authenticate_malformed export keys stream (Ok now) c) as [e He]; [by rewrite Hwf|by rewrite He in H]| |
     destruct (authenticate_malformed export keys stream (Ok now) c) as [e' He]; [by rewrite Hwf|by rewrite He in H]..].
  apply malformed_inv in Hwf as (id & ts & n & mac & Hid & Hts & Hn & Hm & ->).
  rewrite authenticate_well_formed in * by done. destruct (id =? 0); [done|]. destruct (keys !! id) as [secret|]; [|done].
  destruct (export n) as [binding|]; [|done].
  assert (timestamp_of (envelope_prefix id ts n ++ mac) = ts) as Hstamp.
  { unfold timestamp_of. change (take 8 _) with (u64_be ts). by apply from_u64_be. }
  exists secret, binding. rewrite Hstamp. rewrite verify_well_formed in * by done.
  destruct (id =? 0); [done|]. destruct (_ <? _); [done|]. destruct (negb _); [done|].
  destruct (ReplayCache.check_and_insert _ _ _ _) as [[] c']; [|done]. by exists (mk_claims id ts n).
Qed.

Lemma checks_app w l1 l2 c : ReplayCache.checks w (l1 ++ l2) c =
  let '(n1, c1) := ReplayCache.checks w l1 c in let '(n2, c2) := ReplayCache.checks w l2 c1 in ((n1 + n2)%nat, c2).
Proof.
  revert c. induction l1 as [|[nonce now] l1 IH]; intros c; cbn [app ReplayCache.checks]; [by destruct (ReplayCache.checks w l2 c)|].
  destruct (ReplayCache.check_and_insert nonce now w c) as [fresh c1]. rewrite IH. destruct (ReplayCache.checks w l1 c1) as [n1 c2].
  destruct (ReplayCache.checks w l2 c2) as [n2 c3]. f_equal. lia.
Qed.

Lemma checks_le w l c : (fst (ReplayCache.checks w l c) <= length l)%nat.
Proof.
  revert c. induction l as [|[nonce now] l IH]; intros c; [done|]. cbn [ReplayCache.checks length].
  destruct (ReplayCache.check_and_insert nonce now w c) as [fresh c1]. specialize (IH c1).
  destruct (ReplayCache.checks w l c1) as [n c2]. cbn in *. destruct fresh; lia.
Qed.

Lemma checks_capacity w l c : ReplayCache.inv c -> ReplayCache.capacity (snd (ReplayCache.checks w l c)) = ReplayCache.capacity c.
Proof.
  revert c. induction l as [|[nonce now] l IH]; intros c Hc; [done|]. cbn [ReplayCache.checks].
  pose proof (ReplayCache.check_inv nonce now w c Hc) as H1.
  assert (ReplayCache.capacity (snd (ReplayCache.check_and_insert nonce now w c)) = ReplayCache.capacity c) as H2.
  { destruct (ReplayCache.check_spec nonce now w c Hc) as (k & _ & ->). cbv zeta. by case_bool_decide. }
  destruct (ReplayCache.check_and_insert nonce now w c) as [fresh c1]. cbn [snd] in *. specialize (IH c1 H1).
  destruct (ReplayCache.checks w l c1) as [n c2]. cbn [snd] in *. congruence.
Qed.

(** The cache a proof leaves behind. *)
Lemma task_step_cache export stream now replied socket streams cache :
  snd (task_step keys env (Authenticates export stream now replied socket streams) Pending cache) =
  snd (authenticate_server export keys stream now cache).
Proof.
  cbn [task_step]. destruct (authenticate_server _ _ _ _ _) as [r c]. by destruct (_ ← r; _) as [[d reply]|er|].
Qed.

(** The clock readings of the proofs that reach the server. *)
Definition times (evs : list event) : list N :=
  omap (fun ev => match ev with Turn _ (Authenticates _ _ (Ok now) _ _ _) => Some now | _ => None end) evs.

(** A proof is one check of its nonce, or none. *)
Lemma authenticate_cache {L : CryptoLaws C} export stream now c :
  exists l, snd (authenticate_server export keys stream now c) = snd (ReplayCache.checks DEFAULT_AUTH_WINDOW_SECS l c) /\
    (snd <$> l) `sublist_of` (match now with Ok t => [t] | _ => [] end).
Proof.
  assert (forall c', c' = c -> exists l, c' = snd (ReplayCache.checks DEFAULT_AUTH_WINDOW_SECS l c) /\
    (snd <$> l) `sublist_of` (match now with Ok t => [t] | _ => [] end)) as Hsame.
  { intros c' ->. exists []. split; [done|apply sublist_nil_l]. }
  destruct stream as [st|e|]; [|by apply Hsame..]. destruct now as [t|e|].
  2,3: apply Hsame; unfold authenticate_server; unfold_method; unfold read_to_end; cbn [mbind outcome_bind];
    destruct (_ <? _)%nat; [done|]; destruct (envelope_device_id st) as [d| |]; [|done..];
    destruct (keys !! d); [|done]; cbn [context]; destruct (slice st 21 37) as [n| |]; [|done..];
    by destruct (exporter export n).
  destruct (malformed st) as [[]|e|] eqn:Hwf;
    [destruct (authenticate_malformed export keys st (Ok t) c) as [e ->]; [by rewrite Hwf|by apply Hsame]| |
     destruct (authenticate_malformed export keys st (Ok t) c) as [e' ->]; [by rewrite Hwf|by apply Hsame]..].
  apply malformed_inv in Hwf as (id & ts & n & mac & Hid & Hts & Hn & Hm & ->).
  rewrite authenticate_well_formed by done. destruct (id =? 0); [by apply Hsame|].
  destruct (keys !! id) as [secret|]; [|by apply Hsame]. destruct (export n) as [binding|]; [|by apply Hsame].
  rewrite verify_well_formed by done. destruct (id =? 0); [by apply Hsame|]. destruct (_ <? _); [by apply Hsame|].
  destruct (negb _); [by apply Hsame|]. exists [(n, t)]. split; [|done]. cbn.
  by destruct (ReplayCache.check_and_insert _ _ _ _).
Qed.

Lemma task_cache {L : CryptoLaws C} i e k c :
  exists l, snd (task_step keys env e k c) = snd (ReplayCache.checks DEFAULT_AUTH_WINDOW_SECS l c) /\
    (snd <$> l) `sublist_of` times [Turn i e].
Proof.
  assert (forall c', c' = c -> exists l, c' = snd (ReplayCache.checks DEFAULT_AUTH_WINDOW_SECS l c) /\
    (snd <$> l) `sublist_of` times [Turn i e]) as Hsame.
  { intros c' ->. exists []. split; [done|apply sublist_nil_l]. }
  destruct k as [|d s|d s|er], e as [export stream now replied socket streams|ev|ev|er']; try (by apply Hsame); cbn [task_step].
  - destruct (authenticate_cache export stream now c) as (l & Hl & Hsub).
    destruct (authenticate_server _ _ _ _ _) as [r c']. cbn [snd] in Hl. exists l.
    assert (times [Turn i (Authenticates export stream now replied socket streams)] = match now with Ok t => [t] | _ => [] end)
      as -> by (by destruct now). split; [|done]. by destruct (_ ← r; _) as [[d reply]|er|].
  - apply Hsame. by destruct (RelayServer.step ev s).
  - apply Hsame. by destruct (Lanes.server_step ev s).
Qed.

Lemma run_cache {L : CryptoLaws C} evs : forall h,
  exists l, replays (snd (run evs h)) = snd (ReplayCache.checks DEFAULT_AUTH_WINDOW_SECS l (replays h)) /\
    (snd <$> l) `sublist_of` times evs.
Proof.
  induction evs as [|ev evs IH]; intros h; [by exists []|]. rewrite run_cons.
  assert (exists l, replays (snd (step ev h)) = snd (ReplayCache.checks DEFAULT_AUTH_WINDOW_SECS l (replays h)) /\
    (snd <$> l) `sublist_of` times [ev]) as (l1 & H1 & S1).
  { destruct ev as [|i e]; [by exists []|]. cbn [Host.step]. destruct (tasks h !! i) as [k|].
    - destruct (task_cache i e k (replays h)) as (l & Hl & Hs). exists l. by destruct (task_step _ _ _ _ _) as [[out k'] c'].
    - exists []. split; [done|apply sublist_nil_l]. }
  destruct (step ev h) as [out h1]. cbn [snd] in H1. destruct (IH h1) as (l2 & H2 & S2). destruct (run evs h1) as [rest h2].
  exists (l1 ++ l2). rewrite checks_app. cbn [snd] in *. rewrite H2, H1.
  destruct (ReplayCache.checks _ l1 _) as [n1 c1]. cbn [snd]. split; [by destruct (ReplayCache.checks _ l2 c1)|].
  rewrite fmap_app. change (ev :: evs) with ([ev] ++ evs). unfold times in *. rewrite omap_app. by apply sublist_app.
Qed.
(** The turn that admits a task is an accepted envelope. *)
Lemma accepting_turn {L : CryptoLaws C} i export stream now replied socket streams h k :
  let first := Turn i (Authenticates export (Ok stream) (Ok now) replied socket streams) in
  tasks h !! i = Some Pending -> tasks (snd (step first h)) !! i = Some k -> is_relaying k ->
  exists secret binding a,
    verify_envelope stream (utf8 secret) binding now DEFAULT_AUTH_WINDOW_SECS (replays h) = (Ok a, replays (snd (step first h))) /\
    timestamp a = timestamp_of stream.
Proof.
  intros first Hp Hk Hrel.
  pose proof (step_own i (Authenticates export (Ok stream) (Ok now) replied socket streams) h _ Hp) as Hs.
  pose proof (enters i (Authenticates export (Ok stream) (Ok now) replied socket streams) (replays h)) as He.
  pose proof (task_step_cache export (Ok stream) (Ok now) replied socket streams (replays h)) as Hcache.
  destruct (task_step _ _ _ Pending (replays h)) as [[o k1] c1]. destruct Hs as [Hs Hs']. fold first in Hs, Hs'.
  rewrite Hk in Hs'. injection Hs' as ->. cbn [snd] in Hcache. rewrite Hs. cbn [snd replays].
  destruct (He Hrel) as (ex & st & t & rp & sk & sm & d & reply & [= <- <- <- _ _ _] & Hauth & _).
  rewrite Hcache. by eapply authenticate_verify.
Qed.

(** A proof that is not accepted ends its task. *)
Lemma refused_turn {L : CryptoLaws C} j export stream now replied socket streams h :
  let second := Turn j (Authenticates export (Ok stream) (Ok now) replied socket streams) in
  tasks h !! j = Some Pending ->
  (forall secret binding,
    is_ok (fst (verify_envelope stream (utf8 secret) binding now DEFAULT_AUTH_WINDOW_SECS (replays h))) = false) ->
  exists e, tasks (snd (step second h)) !! j = Some (Closed e).
Proof.
  intros second Hj Hno.
  pose proof (step_own j (Authenticates export (Ok stream) (Ok now) replied socket streams) h _ Hj) as Hs.
  pose proof (authenticate_verify export stream now (replays h)) as Hv. cbn [task_step] in Hs.
  destruct (authenticate_server export keys (Ok stream) (Ok now) (replays h)) as [r c].
  destruct r as [[d reply]|er|]; [exfalso|destruct Hs as [_ Hs]; by eexists..].
  destruct (Hv d reply eq_refl) as (secret & binding & a & Ha & _). specialize (Hno secret binding). by rewrite Ha in Hno.
Qed.
End host_lemmas.

(** ** Lemmas: the client process *)
Lemma each_lane_no_panic one streams :
  (forall s w, no_panic (fst (one (s, w)))) -> Forall no_panic streams -> no_panic (each_lane one streams).
Proof.
  intros Hone. induction 1 as [|stream streams Hs _ IH]; [done|]. cbn [each_lane].
  destruct stream as [s|e|]; [|done..]. cbn [mbind outcome_bind]. specialize (Hone s []).
  destruct (one (s, [])) as [[u|e|] lane]; [|done..]. cbn [mbind outcome_bind]. by destruct (each_lane one streams).
Qed.

Lemma open_lane_no_panic s w : no_panic (fst (open_lane (s, w))).
Proof.
  unfold open_lane. rewrite say_bind, expect_preface_spec. destruct s as [|b s]; [done|]. cbn [fst]. by case_bool_decide.
Qed.

Lemma parse_stream_lanes_no_panic value : no_panic (parse_stream_lanes value).
Proof.
  unfold parse_stream_lanes. destruct value as [v|]; [|done]. destruct (parse_u64 v) as [n|]; [|done].
  cbn [context mbind outcome_bind]. by destruct (negb _).
Qed.

Section dialer_lemmas.
Context {Addr : Type} {C : Crypto} (device_id : N) (secret : str) (env : option str).
Import Dialer.
#[local] Abbreviation attempt := (Dialer.attempt (Addr := Addr) device_id secret env).
#[local] Abbreviation run := (Dialer.run (Addr := Addr) device_id secret env).

(** The environment reports failures as errors. *)
Definition round_ok (r : round (Addr := Addr)) : Prop :=
  no_panic (connected r) /\ no_panic (opened r) /\ no_panic (now r) /\ no_panic (written r) /\ no_panic (reply r) /\
  forall i, no_panic (streams r i).

Lemma authenticate_client_no_panic r : round_ok r -> no_panic (snd (authenticate_client device_id secret r)).
Proof.
  intros (_ & Ho & Hn & Hw & Hr & _). unfold authenticate_client. destruct (device_id =? 0); [done|].
  assert (no_panic (client_proof (export r) device_id secret (now r) (nonce r))) as Hp.
  { unfold client_proof, exporter. destruct (device_id =? 0); [done|]. destruct (now r); [|done..]. cbn [mbind outcome_bind].
    by destruct (export r _). }
  destruct (opened r); [|done..]. cbn [mbind outcome_bind]. destruct (client_proof _ _ _ _ _); [|done..]. cbn [mbind outcome_bind].
  destruct (written r); [|done..]. cbn [mbind outcome_bind snd]. unfold client_verdict, read_to_end.
  destruct (reply r) as [data| |]; [|done..]. cbn [mbind outcome_bind]. destruct (_ <? _)%nat; [done|]. cbn [mbind outcome_bind]. by case_bool_decide.
Qed.

Lemma run_session_no_panic lanes r :
  round_ok r -> parse_stream_lanes env = Ok lanes -> no_panic (snd (run_session lanes r)).
Proof.
  intros (_ & _ & _ & _ & _ & Hs) Hl. unfold run_session. destruct (N.eqb_spec lanes 0) as [->|Hne].
  - pose proof (run_invariant RelayClient.step _ _ _ client_step_total (events r) (RelayClient.start (started r) (backlog r))
      (Forall_true _ _ (fun _ => I)) table_ok_empty) as H.
    destruct (Relay.run _ _ _) as [out res]. destruct H as [_ H]. by destruct res.
  - apply stream_lanes_one in Hl; [|done]. subst lanes.
    pose proof (each_lane_no_panic open_lane (streams r <$> seq 0 (N.to_nat 1)) open_lane_no_panic) as Hp.
    destruct (each_lane _ _) as [conns|e|]; [|done|].
    + pose proof (run_client_written (lane_events r) (Lanes.start 1) (conj eq_refl eq_refl)) as H.
      change (N.to_nat 1) with 1%nat. destruct (Relay.run _ _ _) as [out res]. destruct H as [H _]. by destruct res.
    + exfalso. apply Hp; [|done]. apply Forall_fmap, Forall_true. intros i. apply Hs.
Qed.

Lemma attempt_no_panic r : round_ok r -> no_panic (snd (fst (attempt r))).
Proof.
  intros Hr. pose proof (authenticate_client_no_panic r Hr) as Ha. unfold Dialer.attempt.
  destruct (connected r) eqn:Hc; [|done|by destruct Hr]. destruct (authenticate_client _ _ _) as [out verdict].
  destruct verdict as [[]|e|]; [|done..]. cbn [mbind outcome_bind].
  destruct (parse_stream_lanes env) as [lanes|e|] eqn:Hl; [|done|by pose proof (parse_stream_lanes_no_panic env)].
  pose proof (run_session_no_panic lanes r Hr Hl) as Hs. by destruct (run_session lanes r).
Qed.

(** A round that ended. *)
Definition ended (r : round) : Prop := exists e, snd (fst (attempt r)) = Err e.
Definition reached (r : round) : bool := snd (attempt r).

(** The sleeps are those of [Relay.sleeps] for the rounds that ended. *)
Lemma run_sleeps rounds : forall delay, Forall round_ok rounds ->
  exists finished, finished `prefix_of` rounds /\ Forall ended finished /\
    let '(_, slept, last) := run rounds delay in
    slept = Relay.sleeps (reached <$> finished) delay /\
    ((last = Ok None /\ finished = rounds) \/
     exists r s later, last = Ok (Some s) /\ rounds = finished ++ r :: later /\ snd (fst (attempt r)) = Ok s).
Proof.
  induction rounds as [|r rounds IH]; intros delay HF.
  { exists []. split; [done|]. split; [constructor|]. cbn. split; [done|]. by left. }
  apply Forall_cons in HF as [Hr HF]. pose proof (attempt_no_panic r Hr) as Hp. cbn [Dialer.run].
  destruct (attempt r) as [[out res] b] eqn:Ha. cbn [fst snd] in Hp. destruct res as [s|e|]; [| |done].
  - exists []. split; [apply prefix_nil|]. split; [done|]. split; [done|]. right. exists r, s, rounds. by rewrite Ha.
  - destruct (reconnect b delay) as [sleep delay'] eqn:Hrec. destruct (IH delay' HF) as (d & Hd & He & H).
    destruct (run rounds delay') as [[outs slept] last]. destruct H as (-> & H). exists (r :: d).
    split; [by apply prefix_cons|]. split; [constructor; [by exists e; rewrite Ha|done]|]. cbn [fmap list_fmap Relay.sleeps].
    assert (reached r = b) as -> by (unfold reached; by rewrite Ha). rewrite Hrec. split; [done|].
    destruct H as [[-> ->]|(r' & s & later & -> & -> & Hs)]; [by left|right]. by exists r', s, later.
Qed.
End dialer_lemmas.

Lemma sleeps_lookup flags : forall delay k b, flags !! k = Some b ->
  exists d, Relay.sleeps flags delay !! k = Some d /\ (b = true -> d = SECOND) /\
    (b = false -> d = match k with O => delay | S j => N.min (default 0 (Relay.sleeps flags delay !! j) * 2) (30 * SECOND) end).
Proof.
  induction flags as [|f flags IH]; intros delay k b Hb; [done|]. cbn [Relay.sleeps reconnect].
  destruct k as [|k]; cbn [lookup list_lookup] in *.
  - injection Hb as ->. eexists. split; [done|]. by destruct b.
  - destruct (IH (N.min ((if f then SECOND else delay) * 2) (30 * SECOND)) k b Hb) as (d & Hd & H1 & H2).
    exists d. split; [exact Hd|]. split; [exact H1|]. intros Hf. rewrite (H2 Hf). destruct k as [|k]; done.
Qed.

(** ** Properties *)

(** C8: every task of the server process is the relay of an admitted device.
    Started from its files, whatever connections come and however its tasks
    interleave: a task that relays was waiting until it received the proof that the secret
    its key file holds for some device makes for this very connection, dated within
    thirty seconds and with a nonce fresh in the cache all tasks share; and ever
    since, what it has put out and its state are those of the loop of [Relay], or of
    [Lanes] if lanes are configured, run alone on its own events. *)
Theorem host_admits {Cert Key Config Endpoint : Type} (C : Crypto) (L : CryptoLaws C)
    (parse_certs : bytes -> result (list Cert)) (parse_key : bytes -> result (option Key))
    (with_single_cert : list Cert -> Key -> result Config) (bind_server : Config -> result Endpoint)
    (cert private_key : option bytes) (mode : option N) (keyring : option str) (env : option str)
    (ep : Endpoint) (keys : gmap N str) (h0 : Host.t) (evs : list Host.event) :
  Host.start (server_endpoint parse_certs parse_key with_single_cert bind_server cert private_key) mode keyring
    = Ok (ep, keys, h0) ->
  relay_parse_keyring mode keyring = Ok keys /\
  (exists certificates, load_certificates parse_certs cert = Ok certificates /\ certificates <> []) /\
  let '(outs, h) := Host.run keys env evs h0 in
  forall i k, Host.tasks h !! i = Some k -> is_relaying k ->
  exists l1 export stream now replied socket streams l2 device,
    evs = l1 ++ Host.Turn i (Host.Authenticates export (Ok stream) (Ok now) replied socket streams) :: l2 /\
    Host.tasks (snd (Host.run keys env l1 h0)) !! i = Some Host.Pending /\
    (0 < device < U64 /\ exists secret binding ts nonce, keys !! device = Some secret /\ export nonce = Some binding /\
      length nonce = 16%nat /\ ts < U64 /\ stream = make_envelope (utf8 secret) device ts nonce binding /\
      now <= ts + DEFAULT_AUTH_WINDOW_SECS /\ ts <= now + DEFAULT_AUTH_WINDOW_SECS /\
      fst (ReplayCache.check_and_insert nonce now DEFAULT_AUTH_WINDOW_SECS
        (Host.replays (snd (Host.run keys env l1 h0)))) = true) /\
    relays_as env i l2 outs device k.
Proof.
  intros Hstart. unfold Host.start, server_endpoint in Hstart.
  assert (forall certs, load_certificates parse_certs cert = Ok certs -> certs <> []) as Hcerts.
  { intros certs Hc ->. unfold load_certificates in Hc. destruct cert as [pem|]; [|done]. cbn [context mbind outcome_bind] in Hc.
    destruct (parse_certs pem) as [cs| |]; [|done..]. cbn [mbind outcome_bind] in Hc. case_bool_decide; [done|].
    injection Hc as ->. by destruct H. }
  destruct (load_certificates parse_certs cert) as [certs| |] eqn:Hc; [|done..]. cbn [mbind outcome_bind] in Hstart.
  destruct (load_private_key parse_key private_key) as [key| |]; [|done..]. cbn [mbind outcome_bind] in Hstart.
  destruct (with_single_cert certs key) as [config| |]; [|done..]. cbn [mbind outcome_bind] in Hstart.
  destruct (bind_server config) as [ep'| |]; [|done..]. cbn [mbind outcome_bind] in Hstart.
  destruct (relay_parse_keyring mode keyring) as [keys'| |]; [|done..]. cbn [mbind outcome_bind] in Hstart.
  destruct (ReplayCache.new _) as [cache| |]; [|done..]. cbn [mbind outcome_bind] in Hstart. injection Hstart as <- <- <-.
  split; [done|]. split; [exists certs; by split; [|apply Hcerts]|].
  assert (forall i, waiting (Host.mk cache []) i) as Hw by (intros i k Hk; done).
  pose proof (fun i k => relaying_origin keys' env evs (Host.mk cache []) i k (Hw i)) as Ho.
  destruct (Host.run keys' env evs (Host.mk cache [])) as [outs h]. intros i k Hk Hrel.
  destruct (Ho i k Hk Hrel) as (l1 & export & stream & now & replied & socket & streams & l2 & d & reply & He & Hp & Ha & Hr).
  exists l1, export, stream, now, replied, socket, streams, l2, d. split; [exact He|]. split; [exact Hp|]. split; [|exact Hr].
  destruct (server_authenticates C L export keys' stream now (Host.replays (snd (Host.run keys' env l1 (Host.mk cache [])))) d reply)
    as [_ [Hiff _]]. by destruct (Hiff Ha) as (_ & H).
Qed.

(** C12: a proof opens one connection.  Once a task was admitted by a proof not dated
    in the future, the same bytes admit no other task, on any connection, at any later time: as long
    as fewer proofs than the cache holds reached the server in between, such a
    task is closed. *)
Theorem proof_opens_one (C : Crypto) (L : CryptoLaws C) {Endpoint : Type} (endpoint : result Endpoint)
    (mode : option N) (keyring env : option str) (ep : Endpoint) (keys : gmap N str) (h0 : Host.t) (l1 l2 : list Host.event)
    (i j : nat) (export1 export2 : bytes -> option bytes) (stream : bytes) (now1 now2 : N)
    (replied1 socket1 replied2 socket2 : result ()) (streams1 streams2 : nat -> result bytes) (k : Host.task) :
  Host.start endpoint mode keyring = Ok (ep, keys, h0) ->
  let h1 := snd (Host.run keys env l1 h0) in
  let first := Host.Turn i (Host.Authenticates export1 (Ok stream) (Ok now1) replied1 socket1 streams1) in
  let second := Host.Turn j (Host.Authenticates export2 (Ok stream) (Ok now2) replied2 socket2 streams2) in
  Host.tasks h1 !! i = Some Host.Pending ->
  Host.tasks (snd (Host.step keys env first h1)) !! i = Some k -> is_relaying k ->
  timestamp_of stream <= now1 -> now1 + DEFAULT_AUTH_WINDOW_SECS + 1 < U64 -> now1 <= now2 ->
  Forall (fun t => t <= now2) (times l2) -> (length (times l2) < DEFAULT_REPLAY_CAPACITY)%nat ->
  let h2 := snd (Host.run keys env (l1 ++ first :: l2) h0) in
  Host.tasks h2 !! j = Some Host.Pending ->
  exists e, Host.tasks (snd (Host.step keys env second h2)) !! j = Some (Host.Closed e).
Proof.
  intros Hstart h1 first second Hp Hk Hrel Hts Hfit Hle HF Hroom h2 Hj.
  assert (h0 = Host.mk (ReplayCache.mk DEFAULT_REPLAY_CAPACITY ∅ []) []) as ->.
  { unfold Host.start in Hstart. destruct endpoint; [|done..]. cbn [mbind outcome_bind] in Hstart.
    destruct (relay_parse_keyring _ _); [|done..]. cbn [mbind outcome_bind] in Hstart. by injection Hstart as _ _ <-. }
  destruct (run_cache keys env l1 (Host.mk (ReplayCache.mk DEFAULT_REPLAY_CAPACITY ∅ []) [])) as (lc1 & Hc1 & _).
  fold h1 in Hc1. cbn [Host.replays] in Hc1.
  assert (0 < DEFAULT_REPLAY_CAPACITY)%nat as Hcap by (unfold DEFAULT_REPLAY_CAPACITY; lia).
  pose proof (ReplayCache.checks_inv DEFAULT_AUTH_WINDOW_SECS lc1 _ (ReplayCache.empty_inv _ Hcap)) as Hinv.
  rewrite <- Hc1 in Hinv.
  assert (ReplayCache.capacity (Host.replays h1) = DEFAULT_REPLAY_CAPACITY) as Hsize
    by (rewrite Hc1; apply checks_capacity; by apply ReplayCache.empty_inv).
  destruct (accepting_turn keys env i export1 stream now1 replied1 socket1 streams1 h1 k Hp Hk Hrel)
    as (secret & binding & a & Hv & Hstamp). fold first in Hv.
  assert (h2 = snd (Host.run keys env l2 (snd (Host.step keys env first h1)))) as Hh2.
  { unfold h2. rewrite host_run_app. subst h1. destruct (Host.run keys env l1 _) as [o h1]. cbn [snd]. rewrite run_cons.
    destruct (Host.step keys env first h1) as [o1 h1']. cbn [snd]. by destruct (Host.run keys env l2 h1'). }
  destruct (run_cache keys env l2 (snd (Host.step keys env first h1))) as (lc2 & Hc2 & Hsub). rewrite <- Hh2 in Hc2.
  apply (refused_turn keys env j export2 stream now2); [done|]. intros secret2 binding2.
  pose proof (proof_accepted_once C L stream (utf8 secret) (utf8 secret2) binding binding2 now1 now2 DEFAULT_AUTH_WINDOW_SECS
    (Host.replays h1) _ a lc2 Hinv Hfit Hv ltac:(by rewrite Hstamp) Hle) as Honce.
  pose proof (checks_le DEFAULT_AUTH_WINDOW_SECS lc2 (Host.replays (snd (Host.step keys env first h1)))) as Hn.
  destruct (ReplayCache.checks DEFAULT_AUTH_WINDOW_SECS lc2 _) as [n c2]. cbn [fst snd] in *. subst c2. apply Honce.
  - apply Forall_forall. intros [x t] Hx. apply (list_elem_of_fmap_2 snd) in Hx.
    apply (proj1 (Forall_forall _ _) HF). eapply elem_of_sublist; [exact Hx|exact Hsub].
  - rewrite Hsize. apply sublist_length in Hsub. rewrite length_fmap in Hsub. lia.
Qed.

(** C19: the client never stops trying.  Whatever becomes of its connections, its
    loop neither returns nor panics: every round that ends, with whatever error,
    is followed by a sleep and another round.  The sleep after a round is one second
    if the round got as far as a session, and otherwise twice the sleep before it,
    at most thirty seconds; the first is one second. *)
Theorem dialer_keeps_trying (Addr : Type) (C : Crypto) (device_id : N) (secret : str) (env : option str)
    (rounds : list (Dialer.round (Addr := Addr))) :
  Forall round_ok rounds ->
  let '(_, slept, last) := Dialer.run device_id secret env rounds SECOND in
  (exists running, last = Ok running /\ (running = None -> length slept = length rounds)) /\
  forall k d, slept !! k = Some d -> SECOND <= d <= 30 * SECOND /\
    exists r, rounds !! k = Some r /\
      d = if reached device_id secret env r then SECOND
          else match k with O => SECOND | S j => N.min (default 0 (slept !! j) * 2) (30 * SECOND) end.
Proof.
  intros HF. destruct (run_sleeps device_id secret env rounds SECOND HF) as (l & Hpre & _ & H).
  destruct (Dialer.run _ _ _ _ _) as [[outs slept] last]. destruct H as [-> Hlast].
  assert (forall flags delay, length (Relay.sleeps flags delay) = length flags) as Hlen.
  { induction flags as [|f flags IH]; intros delay; [done|]. cbn [Relay.sleeps reconnect length]. by rewrite IH. }
  split.
  - destruct Hlast as [[-> ->]|(r & s & later & -> & _)]; eexists; (split; [done|]); [|done].
    intros _. by rewrite Hlen, length_fmap.
  - intros k d Hd. pose proof (proj1 (reconnect_delays (reached device_id secret env <$> l) 0)) as Hb.
    split; [exact (Forall_lookup_1 _ _ _ _ Hb Hd)|].
    assert (is_Some (l !! k)) as [r Hr].
    { apply lookup_lt_is_Some. apply lookup_lt_Some in Hd. by rewrite Hlen, length_fmap in Hd. }
    exists r. split; [by eapply prefix_lookup_Some|].
    destruct (sleeps_lookup (reached device_id secret env <$> l) SECOND k (reached device_id secret env r)) as (d' & Hd' & H1 & H2);
      [by rewrite list_lookup_fmap, Hr|]. rewrite Hd in Hd'. injection Hd' as <-.
    destruct (reached device_id secret env r); [by apply H1|by apply H2].
Qed.

(** *** Witnesses *)
Definition demo_keys : gmap N str := {[7 := codes "a-very-long-device-secret-at-least-32"%string]}.
Definition demo_text : str := codes "7 a-very-long-device-secret-at-least-32"%string.
Definition demo_export (tag : byte) (nonce : bytes) : option bytes := Some (tag :: nonce).
Definition demo_proof (tag : byte) (now : N) : bytes :=
  make_envelope (C := toy_crypto) (utf8 (codes "a-very-long-device-secret-at-least-32"%string)) 7 now (replicate 16 x05)
    (tag :: replicate 16 x05).
Definition demo_no_streams : nat -> result bytes := fun _ => Err "closed"%string.
Definition demo_cert : option bytes := Some [x01].
Definition demo_endpoint : result () :=
  server_endpoint (fun pem => Ok [pem]) (fun pem => Ok (Some pem)) (fun _ _ => Ok ()) (fun _ => Ok ()) demo_cert demo_cert.
Definition demo_host : Host.t := Host.mk (ReplayCache.mk DEFAULT_REPLAY_CAPACITY ∅ []) [].
Definition demo_turns : list Host.event :=
  [Host.Accepts; Host.Accepts;
   Host.Turn 0 (Host.Authenticates (demo_export x01) (Ok (demo_proof x01 1000)) (Ok 1010) (Ok ()) (Ok ()) demo_no_streams);
   Host.Turn 0 (Host.Relays (RelayServer.FromConnection 5 CARRIER_PING));
   Host.Turn 1 (Host.Authenticates (demo_export x01) (Ok (demo_proof x01 1000)) (Ok 1011) (Ok ()) (Ok ()) demo_no_streams);
   Host.Turn 0 (Host.Relays (RelayServer.FromConnection 6 CARRIER_PING))].

Definition demo_hosted : list (nat * Host.task_output) * Host.t := Host.run (C := toy_crypto) demo_keys None demo_turns demo_host.

Lemma new_cache : ReplayCache.new DEFAULT_REPLAY_CAPACITY = Ok (ReplayCache.mk DEFAULT_REPLAY_CAPACITY ∅ []).
Proof.
  unfold ReplayCache.new. assert ((DEFAULT_REPLAY_CAPACITY =? 0)%nat = false) as ->; [|done].
  apply Nat.eqb_neq. unfold DEFAULT_REPLAY_CAPACITY. lia.
Qed.

Lemma demo_start : Host.start demo_endpoint (Some 384) (Some demo_text) = Ok ((), demo_keys, demo_host).
Proof.
  unfold Host.start. assert (demo_endpoint = Ok ()) as -> by (vm_compute; reflexivity). cbn [mbind outcome_bind].
  assert (relay_parse_keyring (Some 384) (Some demo_text) = Ok demo_keys) as -> by (vm_compute; reflexivity).
  by rewrite new_cache.
Qed.

(** Only the first of the two connections is let in, and relays. *)
Lemma demo_tasks : Host.tasks (snd demo_hosted) =
  [Host.Relaying 7 RelayServer.start; Host.Closed "replayed authentication envelope"%string].
Proof. vm_compute. reflexivity. Qed.

Lemma host_admits_witness :
  exists l1 e l2 device, demo_turns = l1 ++ Host.Turn 0 e :: l2 /\ 0 < device < U64 /\
    relays_as None 0 l2 (fst demo_hosted) device (Host.Relaying 7 RelayServer.start).
Proof.
  destruct (host_admits toy_crypto toy_crypto_laws (fun pem => Ok [pem]) (fun pem => Ok (Some pem)) (fun _ _ => Ok ()) (fun _ => Ok ())
    demo_cert demo_cert (Some 384) (Some demo_text) None () demo_keys demo_host demo_turns demo_start) as (_ & _ & H).
  pose proof demo_tasks as Ht. unfold demo_hosted in *. destruct (Host.run demo_keys None demo_turns demo_host) as [outs h].
  cbn [fst snd] in *.
  destruct (H 0%nat (Host.Relaying 7 RelayServer.start)) as (l1 & ex & st & now & rp & sk & sm & l2 & d & He & _ & (Hd & _) & Hr);
    [by rewrite Ht|done|].
  exists l1, (Host.Authenticates ex (Ok st) (Ok now) rp sk sm), l2, d. split; [exact He|]. split; [exact Hd|exact Hr].
Defined.

Lemma proof_opens_one_witness :
  exists e, Host.tasks (snd (Host.step (C := toy_crypto) demo_keys None
    (Host.Turn 1 (Host.Authenticates (demo_export x01) (Ok (demo_proof x01 1000)) (Ok 1011) (Ok ()) (Ok ()) demo_no_streams))
    (snd (Host.run demo_keys None (take 4 demo_turns) demo_host)))) !! 1%nat = Some (Host.Closed e).
Proof.
  apply (proof_opens_one toy_crypto toy_crypto_laws demo_endpoint (Some 384) (Some demo_text) None () demo_keys demo_host
    [Host.Accepts; Host.Accepts] [Host.Turn 0 (Host.Relays (RelayServer.FromConnection 5 CARRIER_PING))] 0 1
    (demo_export x01) (demo_export x01) (demo_proof x01 1000) 1010 1011 (Ok ()) (Ok ()) (Ok ()) (Ok ())
    demo_no_streams demo_no_streams (Host.Relaying 7 RelayServer.start) demo_start).
  - reflexivity.
  - vm_compute. reflexivity.
  - exact I.
  - vm_compute. discriminate.
  - vm_compute. reflexivity.
  - vm_compute. discriminate.
  - constructor.
  - cbn [times omap list_omap length]. unfold DEFAULT_REPLAY_CAPACITY. lia.
  - vm_compute. reflexivity.
Defined.

Definition demo_round (connected : result ()) (reply : result bytes) (evs : list (RelayClient.event N)) : Dialer.round :=
  Dialer.mk_round connected (demo_export x01) (Ok ()) (Ok 1000) (replicate 16 x05) (Ok ()) reply demo_no_streams 0 [] evs [].
Definition demo_rounds : list (Dialer.round (Addr := N)) :=
  [demo_round (Err "refused"%string) (Err "closed"%string) []; demo_round (Ok ()) (Ok (bytes_of_string "NO")) [];
   demo_round (Ok ()) (Ok (bytes_of_string "OK")) [RelayClient.Heartbeat 1; RelayClient.Fails "lost"%string];
   demo_round (Ok ()) (Ok (bytes_of_string "OK")) [RelayClient.Heartbeat 1]].
Definition demo_dialled : list (Dialer.output (Addr := N)) * list N * result (option (Dialer.session (Addr := N))) :=
  Dialer.run (C := toy_crypto) 7 (codes "a-very-long-device-secret-at-least-32"%string) None demo_rounds SECOND.

Lemma dialer_keeps_trying_witness :
  snd (fst demo_dialled) = [SECOND; 2 * SECOND; SECOND] /\ exists running, snd demo_dialled = Ok running.
Proof.
  split; [vm_compute; reflexivity|].
  pose proof (dialer_keeps_trying N toy_crypto 7 (codes "a-very-long-device-secret-at-least-32"%string) None demo_rounds) as H.
  unfold demo_dialled. destruct (Dialer.run _ _ _ _ _) as [[outs slept] last]. destruct H as [(running & -> & _) _].
  - repeat constructor; discriminate.
  - by exists running.
Defined.
