(* ===== verification/Startup.v ===== *)
(** * The command line (src/src/main.rs: [Command], [main] and the start of
    [client], [server] and [balance]; the start of the relay's processes)

    What each command checks and loads before its loop, in order, and what it then
    runs with.  Parsing the arguments is clap's; binding and connecting sockets, files and
    QUIC endpoints are arguments. *)
From Stdlib Require Import QArith.
From S2P Require Import Prelude External Wire Adaptive Encoder Keyring QuicAuth Session Server Balance Float64 Pacer Relay Process.

Section startup.
Context {C : Crypto} {R : ErasureCode}.
Context {SocketAddr Path Endpoint App : Type}.

(** [enum Command] *)
Inductive Command :=
| Client (listen server : SocketAddr) (key : str) (key_id : option N) (rate_mbps : F64.f64)
| Server (listen upstream : SocketAddr) (key : option str) (keyring : option Path)
    (max_sessions : nat) (session_idle_secs : N) (rate_mbps : F64.f64)
| Balance (listen : SocketAddr) (upstream : list SocketAddr)
| QuicClient (listen server : SocketAddr) (server_name : str) (ca_cert : Path) (key_id : N) (key : str)
| QuicServer (listen upstream : SocketAddr) (cert private_key keyring : Path).

(** The environment: the clock, the random draw of [client], the parity the
    encoder reads from it, sockets, files, and the endpoints rustls and quinn make. *)
Record world := mk_world {
  now : N;
  random_session : N;
  parity_env : option nat;
  bind : SocketAddr -> result ();
  connect_tunnel : SocketAddr -> result ();
  file_mode : Path -> option N;
  file_text : Path -> option str;
  dial_endpoint : Path -> result Endpoint;
  host_endpoint : SocketAddr -> Path -> Path -> result Endpoint;
}.

(** What a started process runs with. *)
Inductive service :=
| ClientRuns (c : Session.Client.t App) (p : Pacer.t)
| ServerRuns (cfg : Server.config) (p : Pacer.t)
| Balances (b : Balance.t SocketAddr)
| Dials (endpoint : Endpoint) (device_id : N) (secret : str)
| Hosts (endpoint : Endpoint) (keys : gmap N str) (h : Host.t).

Context (w : world).

(** [client], up to its loop *)
Definition client (listen server : SocketAddr) (secret : str) (key_id : option N) (rate_mbps : F64.f64) : result service :=
  c ← Session.Client.start (parity_env w) (key secret) key_id (random_session w);
  _ ← bind w listen;
  _ ← connect_tunnel w server;
  pacer ← Pacer.new rate_mbps (now w);
  Ok (ClientRuns c pacer).

(** [server]'s first two checks; [Server.configure] has them too, but the key
    file is read in between. *)
Definition check_limits (max_sessions : nat) (session_idle_secs : N) : result () :=
  if (max_sessions =? 0)%nat || (N.to_nat 65536 <? max_sessions)%nat
  then Err "max-sessions must be between 1 and 65536"%string else
  if negb ((10 <=? session_idle_secs) && (session_idle_secs <=? 86400))
  then Err "session-idle-secs must be between 10 and 86400"%string else Ok ().

(** [server], up to its loop *)
Definition server (listen : SocketAddr) (legacy_secret : option str) (keyring_path : option Path)
    (max_sessions : nat) (session_idle_secs : N) (rate_mbps : F64.f64) : result service :=
  _ ← check_limits max_sessions session_idle_secs;
  keyring ← match keyring_path with
    | Some path => load_keyring (file_mode w path) (file_text w path)
    | None => Ok ∅
    end;
  cfg ← Server.configure (key <$> legacy_secret) keyring max_sessions session_idle_secs (parity_env w);
  _ ← bind w listen;
  pacer ← Pacer.new rate_mbps (now w);
  Ok (ServerRuns cfg pacer).

(** [balance], up to its loops *)
Definition balance (listen : SocketAddr) (addresses : list SocketAddr) : result service :=
  b ← Balance.new addresses; _ ← bind w listen; Ok (Balances b).

(** [main] *)
Definition main (command : Command) : result service :=
  match command with
  | Client listen upstream secret key_id rate_mbps => client listen upstream secret key_id rate_mbps
  | Server listen _ secret keyring max_sessions session_idle_secs rate_mbps =>
      server listen secret keyring max_sessions session_idle_secs rate_mbps
  | Balance listen upstream => balance listen upstream
  | QuicClient listen _ _ ca_cert key_id secret =>
      endpoint ← dial_endpoint w ca_cert; _ ← bind w listen; Ok (Dials endpoint key_id secret)
  | QuicServer listen _ cert private_key keyring =>
      '(endpoint, keys, h) ← Host.start (host_endpoint w listen cert private_key) (file_mode w keyring) (file_text w keyring);
      Ok (Hosts endpoint keys h)
  end.
End startup.
Arguments Command : clear implicits.
Arguments world : clear implicits.

(** [default_value_t] of the options *)
Definition default_rate_mbps : F64.f64 := F64.of_N 10.
Definition default_max_sessions : nat := N.to_nat 1024.
Definition default_session_idle_secs : N := 120.

(** ** Lemmas *)
Lemma parse_digits_lt s : forall acc n, acc < U64 -> parse_digits acc s = Some n -> n < U64.
Proof.
  induction s as [|c s IH]; intros acc n Ha; cbn; [by intros [= <-]|]. destruct (digit c) as [d|]; [|done]. cbn.
  destruct (N.ltb_spec (acc * 10 + d) U64) as [Hl|]; [|done]. by apply IH.
Qed.

Lemma parse_u64_lt s n : parse_u64 s = Some n -> n < U64.
Proof.
  assert (0 < U64) as H0 by done. intros H. destruct s as [|c s]; [done|].
  assert (parse_digits 0 (c :: s) = Some n \/ parse_digits 0 s = Some n) as [H1|H1]; [|by eapply parse_digits_lt..].
  unfold parse_u64 in H. repeat case_match; try discriminate H; auto.
Qed.

(** The ids of a key file are [u64]s. *)
Definition ids_ok {A} (keys : gmap N A) : Prop := forall id k, keys !! id = Some k -> id < U64.

Lemma parse_lines_ids {C : Crypto} ls : forall n keys ks, ids_ok keys -> parse_lines n ls keys = Ok ks -> ids_ok ks.
Proof.
  induction ls as [|l ls IH]; intros n keys ks Hk H; cbn [parse_lines] in H; [by injection H as <-|].
  destruct (match trim l with [] => true | c :: _ => c =? 35 end); [by eapply IH|].
  destruct (split_whitespace (trim l) !! 0%nat) as [first|]; [|done]. cbn [context mbind outcome_bind] in H.
  destruct (parse_u64 first) as [id|] eqn:Hid; [|done]. cbn [context mbind outcome_bind] in H.
  destruct (split_whitespace (trim l) !! 1%nat) as [secret|]; [|done]. cbn [context mbind outcome_bind] in H.
  destruct (_ || _ || _); [done|]. destruct (bool_decide _); [done|]. destruct (_ <? _)%nat; [done|].
  eapply IH; [|exact H]. intros id' k' [[<- _]|[_ Hk']]%lookup_insert_Some; [by eapply parse_u64_lt|by eapply Hk].
Qed.

Lemma load_keyring_ids {C : Crypto} mode text ks : load_keyring mode text = Ok ks -> ids_ok ks.
Proof.
  unfold load_keyring, parse_keyring. destruct mode as [m|]; [|done]. cbn [context mbind outcome_bind].
  destruct (negb _); [done|]. destruct text as [t|]; [|done]. cbn [context mbind outcome_bind].
  destruct (parse_lines 0 (lines t) ∅) as [ks'| |] eqn:Hp; [|done..]. cbn [mbind outcome_bind].
  case_bool_decide; [done|]. intros [= <-]. eapply parse_lines_ids; [|exact Hp]. by intros id k.
Qed.

(** What [Server.configure] leaves of the keys. *)
Lemma configure_fields {C : Crypto} legacy keys n secs env cfg :
  Server.configure legacy keys n secs env = Ok cfg -> Server.keyring cfg = keys /\ Server.legacy_key cfg = legacy.
Proof.
  unfold Server.configure. do 3 (match goal with |- context [if ?b then _ else _] => destruct b end; [done|]).
  destruct (foldl _ _ _) as [m| |]; [|done..]. by intros [= <-].
Qed.

Lemma check_limits_ok n secs : check_limits n secs = Ok () -> (1 <= n <= N.to_nat 65536)%nat /\ 10 <= secs <= 86400.
Proof.
  unfold check_limits. destruct (_ || _)%bool eqn:Hn; [done|]. destruct (negb _) eqn:Hs; [done|]. intros _.
  apply orb_false_iff in Hn as [Hn0 Hn1]. apply Nat.eqb_neq in Hn0. apply Nat.ltb_ge in Hn1.
  apply negb_false_iff, andb_true_iff in Hs as [H1 H2]. apply N.leb_le in H1, H2. split; [lia|done].
Qed.

(** ** Properties *)

(** C18: a started server serves its key file.  The [server] command starts only
    with limits, a rate and a socket in order; from then on the datagrams it accepts are
    exactly those sealed under the registered key of a device of the key file
    it was given (up to a selector that spells the legacy magic number).  So a
    server given [--key] alone starts, and accepts nothing. *)
Theorem server_serves_key_file {SocketAddr Path Endpoint App : Type} (C : Crypto) (L : CryptoLaws C) (R : ErasureCode)
    (w : world SocketAddr Path Endpoint) (listen upstream : SocketAddr) (secret : option str) (keyring : option Path)
    (n : nat) (secs : N) (rate : F64.f64) (cfg : Server.config) (p : Pacer.t) :
  main (App := App) w (Startup.Server listen upstream secret keyring n secs rate) = Ok (ServerRuns cfg p) ->
  Encoder.codes R (default MAX_PARITY ((fun p => p `min` MAX_PARITY)%nat <$> parity_env w)) ->
  ((1 <= n <= N.to_nat 65536)%nat /\ 10 <= secs <= 86400 /\ bind w listen = Ok () /\
   exists r, rate = F64.Fin r /\ (1 <= r <= 1000)%Q) /\
  (forall buf f k,
    decode_server_frame buf (Server.legacy_key cfg) (Server.keyring cfg) (Server.selectors cfg) = Ok (f, k) ->
    exists path ks, keyring = Some path /\ load_keyring (file_mode w path) (file_text w path) = Ok ks /\
      ks !! Frame.key_id f = Some k /\ exists nonce suffix, Frame.encode_wire f k nonce suffix = Ok buf) /\
  (forall path ks f k nonce suffix buf,
    keyring = Some path -> load_keyring (file_mode w path) (file_text w path) = Ok ks -> ks !! Frame.key_id f = Some k ->
    Frame.wf f -> Frame.version f = VERSION_V3 -> length nonce = V3_NONCE -> length suffix = V3_SELECTOR_PREFIX ->
    Frame.encode_wire f k nonce suffix = Ok buf -> Frame.v3_selector_prefix (Frame.key_id f) <> u32_be MAGIC ->
    decode_server_frame buf (Server.legacy_key cfg) (Server.keyring cfg) (Server.selectors cfg) = Ok (f, k)).
Proof.
  intros Hmain Hcodes. cbn [main] in Hmain. unfold server in Hmain.
  destruct (check_limits n secs) as [[]| |] eqn:Hlim; [|done..]. cbn [mbind outcome_bind] in Hmain.
  set (loaded := match keyring with Some path => load_keyring (file_mode w path) (file_text w path) | None => Ok ∅ end) in *.
  destruct loaded as [ks| |] eqn:Hks; [|done..]. subst loaded. cbn [mbind outcome_bind] in Hmain.
  destruct (Server.configure _ ks n secs _) as [cfg'| |] eqn:Hcfg; [|done..]. cbn [mbind outcome_bind] in Hmain.
  destruct (bind w listen) as [[]| |] eqn:Hbind; [|done..]. cbn [mbind outcome_bind] in Hmain.
  destruct (Pacer.new rate (now w)) as [p'| |] eqn:Hpace; [|done..]. cbn [mbind outcome_bind] in Hmain. injection Hmain as -> ->.
  assert (ids_ok ks) as Hids.
  { destruct keyring as [path|]; [by eapply load_keyring_ids|]. injection Hks as <-. by intros id k. }
  destruct (configure_sound _ ks n secs _ cfg Hcfg Hids Hcodes) as [(Hsel_ids & _) [Hin Hall]].
  destruct (configure_fields _ _ _ _ _ _ Hcfg) as [-> _]. destruct (check_limits_ok _ _ Hlim) as [Hn Hs].
  split; [split_and!; [lia|lia|lia|lia|done|by eapply Pacer.new_accepts]|]. split.
  - intros buf f k Hd. assert (forall prefix id k', Server.selectors cfg !! prefix = Some (id, k') -> id < U64) as Hlt
      by (intros prefix id k' Hk'; by apply Hsel_ids in Hk' as [_ ?]).
    destruct (server_frame_authentic C L buf _ _ _ f k Hlt Hd) as (_ & Hsel & _ & _ & Hw).
    apply Hin in Hsel as [_ Hk%elem_of_map_to_list]. destruct keyring as [path|]; [by exists path, ks|].
    injection Hks as <-. done.
  - intros path ks' f k nonce suffix buf -> Hload Hk Hwf Hv Hnl Hsl Hw Hm. rewrite Hload in Hks. injection Hks as ->.
    destruct (server_decodes C L f k nonce suffix buf (Server.legacy_key cfg) ks (Server.selectors cfg) Hwf Hv Hnl Hsl Hw) as [_ H];
      [|by apply H]. apply (Hall (Frame.key_id f, k)). by apply elem_of_map_to_list.
Qed.

(** *** Witness: with the options' defaults and one device *)
Definition demo_file : str := codes "42 a-very-long-device-secret-at-least-32"%string.
Definition demo_world : world () () () :=
  mk_world 0 77 (Some 1%nat) (fun _ => Ok ()) (fun _ => Ok ()) (fun _ => Some 384) (fun _ => Some demo_file)
    (fun _ => Ok ()) (fun _ _ _ => Ok ()).
Definition demo_command (keyring : option ()) : Command () () :=
  Startup.Server () () (Some [115]) keyring default_max_sessions default_session_idle_secs default_rate_mbps.

Lemma server_serves_key_file_witness :
  exists cfg p, main (C := toy_crypto) (App := ()) demo_world (demo_command None) = Ok (ServerRuns cfg p) /\
    forall buf f k, decode_server_frame (C := toy_crypto) buf (Server.legacy_key cfg) (Server.keyring cfg) (Server.selectors cfg) <> Ok (f, k).
Proof.
  eexists _, _. split; [vm_compute; reflexivity|]. intros buf f k Hd.
  destruct (server_serves_key_file (App := ()) toy_crypto toy_crypto_laws xor_code demo_world () () (Some [115]) None
    default_max_sessions default_session_idle_secs default_rate_mbps _ _ ltac:(vm_compute; reflexivity) (Encoder.xor_codes)) as (_ & H & _).
  by destruct (H buf f k Hd) as (path & ks & [=] & _).
Defined.
