(* ===== verification/EndToEnd.v ===== *)
(** * The whole data path

    No code of its own: the tunnel's client and server with the QUIC relay
    between them, the deployment the README describes.  The tunnel client's
    datagrams are what the relay client's local socket receives, and what the
    relay server gives its socket is what the tunnel server's loop takes in. *)
From S2P Require Import Prelude External Wire Adaptive Fragment Encoder Window Group Reassembly Decoder.
From S2P Require Import Tunnel Session Server Delivery Carrier Relay Traffic.

(** A list whose [f]-images are some elements of [ws] names their positions, each
    once; all of them if all elements are taken. *)
Lemma taken_positions {A B} (f : A -> B) (l : list A) (ws : list B) :
  f <$> l ⊆+ ws ->
  exists ks, Forall2 (fun x k => ws !! k = Some (f x)) l ks /\ NoDup ks /\ length ks = length l /\
    forall k, k ∈ ks -> (k < length ws)%nat.
Proof.
  intros [rest Hp]%submseteq_Permutation. symmetry in Hp.
  assert (ws = snd <$> imap pair ws) as Hws.
  { apply list_eq. intros i. rewrite list_lookup_fmap, list_lookup_imap. by destruct (ws !! i). }
  rewrite Hws in Hp. apply Permutation_map_inv in Hp as (zs & Hzs & Hperm). symmetry in Hzs.
  apply fmap_app_inv in Hzs as (zs1 & zs2 & H1 & _ & ->).
  assert (forall k w, (k, w) ∈ zs1 -> ws !! k = Some w) as Hin.
  { intros k w Hk. assert ((k, w) ∈ imap pair ws) as Hj by (rewrite Hperm; apply elem_of_app; by left).
    apply list_elem_of_lookup in Hj as [j Hj]. apply list_lookup_imap_Some in Hj as (w' & Hw & [= -> ->]). exact Hw. }
  assert (length l = length zs1) as Hlen by (apply (f_equal length) in H1; by rewrite !length_fmap in H1).
  exists (fst <$> zs1). rewrite length_fmap. split_and!; [|..|done|].
  - apply Forall2_same_length_lookup. split; [by rewrite length_fmap|]. intros i x k Hx Hk.
    apply list_lookup_fmap_Some in Hk as ([k' w] & -> & Hz). cbn [fst].
    apply (f_equal (lookup i)) in H1. rewrite !list_lookup_fmap, Hx, Hz in H1. injection H1 as ->.
    apply Hin. by eapply list_elem_of_lookup_2.
  - assert (NoDup (fst <$> imap pair ws)) as Hnd.
    { assert (fst <$> imap pair ws = seq 0 (length ws)) as ->; [|apply NoDup_seq].
      apply list_eq. intros i. rewrite list_lookup_fmap, list_lookup_imap. destruct (ws !! i) as [w|] eqn:Hw; cbn.
      - rewrite lookup_seq_lt; [done|by eapply lookup_lt_Some].
      - rewrite lookup_seq_ge; [done|by apply lookup_ge_None]. }
    rewrite Hperm, fmap_app in Hnd. by apply NoDup_app in Hnd as [? _].
  - intros k ([k' w] & -> & Hk)%list_elem_of_fmap. eapply lookup_lt_Some. by apply (Hin k' w).
Qed.

(** ** Properties *)

(** C1: the whole path delivers.  A tunnel client takes in a batch of datagrams that
    fits one group, flushes and does nothing else meanwhile.  Its datagrams, and no
    others, reach the relay's client at its local socket, in any order, between any
    other events of its loop; it has handed everything on.  The network
    delivers fragments of these, none twice, in any order, within three seconds; the relay's server, none of whose own calls fails, hands datagrams to the
    tunnel server.  There the session's worker takes each within two seconds, and no
    others, while the server handles other devices, late datagrams of this device's other
    sessions, clean-ups, other workers, and this one's other direction, flushes and
    reports (if the client's numbers neither wrap nor trail those seen by 64).
    If no fragment is lost, or the tunnel adds parity and no more are lost than parity
    datagrams were sent, the service receives exactly the application's datagrams,
    each once, unaltered; and the relay's loop does not fail. *)
Theorem uploads_through_relay (Addr Local : Type) (C : Crypto) (L : CryptoLaws C) (R : ErasureCode) (S : ErasureShape R)
    (cfg : Server.config) (c : Client.t Addr) (m : gmap (N * N) (Server.entry Addr)) (e : Server.entry Addr)
    (turns : list (Client.event Addr)) (draw : nat -> bytes * bytes) (ds : list bytes) :
  let rt := Client.runtime c in
  let id := (id_key_id rt, id_session rt) in
  let n := length (Encoder.fragments (Encoder.packet (Client.encoder c)) (Encoder.Datagram <$> ds)) in
  client_ok c -> Encoder.shards (Client.encoder c) = [] -> ds <> [] -> (n <= DATA_SHARDS)%nat ->
  Forall2 makes turns (Encoder.Datagram <$> ds) -> draws_ok draw ->
  config_ok cfg -> Frame.v3_selector_prefix (id_key_id rt) <> u32_be MAGIC ->
  server_inv cfg m -> m !! id = Some e -> Server.finished e = false -> Server.queue e = [] ->
  id_key (Worker.runtime (Server.worker e)) = id_key rt ->
  ready (Worker.decoder (Server.worker e)) (Client.encoder c) (length ds) ->
  exists wires c', Client.run (turns ++ [Client.Flush draw]) c = (Ok (Client.ToTunnel <$> wires), c') /\
  forall (cevs : list (RelayClient.event Local)) (t0 T : N) (couts : list (RelayClient.output Local))
      (r : RelayClient.t Local) (sevs : list RelayServer.event),
    Relay.run RelayClient.step cevs (RelayClient.start t0 []) = (couts, Ok r) ->
    RelayClient.backlog r = [] -> RelayClient.pending r = [] -> snd <$> arrived cevs ≡ₚ wires ->
    snd <$> fragments sevs ⊆+ handed couts ->
    let lost := (length (handed couts) - length (fragments sevs))%nat in
    lost = 0%nat \/ (0 < Encoder.level (Client.encoder c) /\ n + lost <= length wires)%nat ->
    Forall (fun x => T <= fst x <= T + CARRIER_TTL) (fragments sevs) -> Forall RelayServer_sound sevs ->
    exists souts s, Relay.run RelayServer.step sevs RelayServer.start = (souts, Ok s) /\
    forall (T' : N) (evs : list (Server.event Addr)),
      Forall (quiet cfg id (Server.last_seen e)) evs ->
      (forall tick, Server.Report id tick ∈ evs ->
        reports_safe (Worker.decoder (Server.worker e)) (Client.encoder c)) ->
      (fun x => fst (snd x)) <$> taken cfg id evs [] ≡ₚ to_socket souts ->
      Forall (fun x => forall i, T' <= fst x i < T' + GROUP_TTL) (taken cfg id evs []) ->
      upstream id (fst (Server.run cfg evs m)) ≡ₚ ds.
Proof.
  intros rt id n Hc Hopen Hne Hn Hturns Hdraw Hcfg Hmagic Hinv He Hfin Hq Hkey Hready.
  destruct (uploads Addr C L R S cfg c m e turns draw ds Hc Hopen Hne Hn Hturns Hdraw Hcfg Hmagic Hinv He Hfin Hq Hkey Hready)
    as (wires & c' & Hrun & Hcount & Hshort & Hdel).
  exists wires, c'. split; [done|]. intros cevs t0 T couts r sevs Hr Hbl Hpe Hin Hnet lost Hlost Htime Hsound.
  pose proof (Permutation_length Hin) as Hlen. rewrite length_fmap in Hlen.
  destruct (carried Local cevs t0 T couts r sevs Hr Hbl Hpe) as (souts & s & Hs & Hto & Hmost & Hall); [| |done..|].
  - rewrite Hlen. etrans; [apply Hcount|]. apply Nat.leb_le. by vm_compute.
  - apply Forall_forall. intros x Hx.
    assert (snd x ∈ wires) as Hw by (rewrite <- Hin; by apply list_elem_of_fmap_2).
    rewrite Forall_forall in Hshort. specialize (Hshort _ Hw). pose proof MAX_DATAGRAM_val. lia.
  - exists souts, s. split; [done|]. intros T' evs Hquiet Hreports Htaken Hclock.
    pose proof (Permutation_length Htaken) as Htlen. rewrite length_fmap in Htlen.
    assert ((fun x => fst (snd x)) <$> taken cfg id evs [] ⊆+ wires) as (ks & HF & Hnd & Hkl & Hks)%taken_positions
      by (by rewrite Htaken, <- Hin).
    pose proof (submseteq_length _ _ Hnet) as Hle. rewrite length_fmap in Hle.
    apply (Hdel T' evs ks Hquiet Hreports).
    + apply Forall2_same_length_lookup. split; [by eapply Forall2_length|]. intros i [clk [buf f]] k Hi Hk.
      split; [exact (Forall_lookup_1 _ _ _ _ Hclock Hi)|]. exact (Forall2_lookup_lr _ _ _ _ _ _ HF Hi Hk).
    + destruct Hlost as [Hnone|[Hlevel Hfew]]; [left|right].
      * intros k Hk. assert (ks ≡ₚ seq 0 (length wires)) as ->; [|apply elem_of_seq; unfold n, id, rt in *; lia].
        apply submseteq_length_Permutation; [apply NoDup_submseteq; [done|]; intros k' Hk'; apply elem_of_seq|].
        -- specialize (Hks _ Hk'). lia.
        -- rewrite length_seq. unfold lost in Hnone. lia.
      * split; [done|]. rewrite size_list_to_set by done. unfold lost in Hfew. unfold n, id, rt in *. lia.
Qed.

(** The relay cuts each of the three datagrams of [demo_wires] in two; the
    network loses the first fragment and reverses the others. *)
Definition demo_relay_events : list (RelayClient.event N) :=
  Delivery.demo_wires ≫= fun w =>
    [RelayClient.Arrives 1 w; RelayClient.Reads (Some 60%nat); RelayClient.Hands; RelayClient.Hands].
Definition demo_relay_outs : list (RelayClient.output N) :=
  fst (Relay.run RelayClient.step demo_relay_events (RelayClient.start 0 [])).
Definition demo_relay_server_events : list RelayServer.event :=
  ((fun f => RelayServer.FromConnection 10 f) <$> reverse (drop 1 (handed demo_relay_outs))) ++
  [RelayServer.FromConnection 11 CARRIER_PING].
(** What comes out of it reaches the tunnel server among other events. *)
Definition demo_tunnel_events : list (Server.event N) :=
  [Server.Public 20 1 (default [] (Delivery.demo_wires !! 2%nat)); Server.FromUpstream (42, 77) 21 demo_draw [x64];
   Server.Public 22 1 (default [] (Delivery.demo_wires !! 1%nat)); Server.Take (42, 77) (fun _ => 30); Server.Cleanup 31;
   Server.Report (42, 77) demo_draw;
   Server.Take (42, 77) (fun _ => 33)].

Lemma demo_relay_taken :
  let w k := default [] (Delivery.demo_wires !! k) in
  taken (C := toy_crypto) Server.demo_config (42, 77) demo_tunnel_events [] =
  [(fun _ => 30, (w 2%nat, demo_opened (w 2%nat))); (fun _ => 33, (w 1%nat, demo_opened (w 1%nat)))].
Proof. vm_compute. reflexivity. Qed.

Lemma demo_quiet :
  Forall (quiet (C := toy_crypto) Server.demo_config (42, 77) (Server.last_seen demo_entry)) demo_tunnel_events.
Proof.
  unfold demo_tunnel_events. repeat (apply Forall_cons; split; [vm_compute; intuition (auto; discriminate)|]). constructor.
Qed.

Lemma uploads_through_relay_witness :
  upstream (42, 77) (fst (Server.run (C := toy_crypto) (R := xor_code) Server.demo_config demo_tunnel_events demo_session))
  ≡ₚ [[x61]; [x62; x63]].
Proof.
  destruct demo_premises as (H1 & H2 & H3 & H4 & H5 & H6 & H7 & H8 & H9 & H10 & H11 & H12).
  destruct (uploads_through_relay N N toy_crypto toy_crypto_laws xor_code xor_code_shape Server.demo_config demo_client
    demo_session demo_entry demo_turns demo_draw [[x61]; [x62; x63]] H1 H2 ltac:(discriminate) H3 H4 H5
    Server.demo_config_ok H6 H7 H8 H9 H10 H11 H12) as (wires & c' & Hrun & H).
  clear H1 H2 H3 H4 H5 H6 H7 H8 H9 H10 H11 H12.
  assert (id_key_id (Client.runtime demo_client) = 42 /\ id_session (Client.runtime demo_client) = 77) as [Hk42 Hs77]
    by (vm_compute; by split).
  rewrite Hk42, Hs77 in H.
  assert (Delivery.demo_wires = wires) as Hw by (unfold Delivery.demo_wires; rewrite Hrun; apply tunnel_wires).
  clear Hrun Hk42 Hs77. subst wires.
  destruct (H demo_relay_events 0 10 demo_relay_outs (RelayClient.mk ∅ 3 no_stats (Some 1) [] [] 0) demo_relay_server_events)
    as (souts & s & Hs & Hup); clear H.
  - vm_compute. reflexivity.
  - reflexivity.
  - reflexivity.
  - assert (snd <$> arrived demo_relay_events = Delivery.demo_wires) as -> by (vm_compute; reflexivity). reflexivity.
  - assert (snd <$> fragments demo_relay_server_events = reverse (drop 1 (handed demo_relay_outs))) as ->
      by (vm_compute; reflexivity). rewrite reverse_Permutation. apply sublist_submseteq, sublist_drop.
  - right. split; apply Nat.leb_le; vm_compute; reflexivity.
  - refine (bool_decide_unpack _ _). vm_compute. exact I.
  - unfold demo_relay_server_events. apply Forall_app. split; [|by repeat constructor].
    apply Forall_fmap, Forall_true. done.
  - assert (to_socket souts = [default [] (Delivery.demo_wires !! 2%nat); default [] (Delivery.demo_wires !! 1%nat)]) as Hto.
    { assert (to_socket (fst (Relay.run RelayServer.step demo_relay_server_events RelayServer.start)) =
        [default [] (Delivery.demo_wires !! 2%nat); default [] (Delivery.demo_wires !! 1%nat)]) as Ht
        by (vm_compute; reflexivity). rewrite Hs in Ht. exact Ht. }
    apply (Hup 30 demo_tunnel_events).
    + exact demo_quiet.
    + intros tick _. split; [vm_compute; discriminate|vm_compute; reflexivity].
    + rewrite demo_relay_taken, Hto. reflexivity.
    + rewrite demo_relay_taken. do 2 (apply Forall_cons; split; [intros i; cbn [fst]; split; [vm_compute; discriminate|vm_compute; reflexivity]|]). constructor.
Defined.
